(* ===== verification/_CoqProject ===== *)
-Q . S2P
Prelude.v
Bytes.v
Crypto.v
Instances.v
Pow.v
Transaction.v
TxCodec.v
Block.v
Header.v
Merkle.v
ExchangeSort.v
Consensus.v
Hoare.v
Reads.v
Difficulty.v
Memo.v
Emission.v
Validation.v
Coinbase.v
Samples.v
Validity.v
Balance.v
Binding.v
Storage.v
StorageFacts.v
Commit.v
Chain.v
ChainOps.v
Cache.v
ChainInv.v
Branches.v
Ancestors.v
Windows.v
Learn.v
Reorg.v
Restart.v
ForkChoice.v
Lawful.v
Verify.v
Genesis.v
Truncate.v
Reachable.v
Startup.v
Mempool.v
MempoolQueue.v
MempoolInv.v
MempoolOps.v
MempoolChain.v
MempoolSelect.v
MempoolSpec.v
CoinSelect.v
CoinSpec.v
Wallet.v
WalletSpec.v
Builder.v
Transfer.v
RingSelect.v
Scanner.v
BuilderSpec.v
TransferSpec.v
ScanSpec.v
Miner.v
MinerSpec.v
Peers.v
PeersSpec.v
Gate.v
Checkpoints.v
Daemon.v
ReorgDiff.v
NodeInv.v
Node.v
SampleChain.v
SampleNode.v
SampleMiner.v
SampleTransfer.v
SampleScan.v
