(* ===== verification/Prelude.v ===== *)
(** * Blocknet: a verification library for the Go node

    Blocknet is a proof-of-work chain with confidential transactions.  Its
    node ([src/*.go]) parses transactions and blocks, validates them, keeps
    a tree of blocks with the heaviest branch as its main chain, stores that
    tree in a bbolt database, keeps unconfirmed transactions in a mempool and
    mines; the daemon joins these parts and serves the network ([src/p2p]);
    the wallet ([src/wallet]) finds its outputs on the chain, builds
    transactions and hands them to the daemon.  The library models this core
    as executable definitions with the source's names and proves what makes
    it correct.

    ** Parts, files and sources

    - [Prelude], [Bytes]: bytes, machine integers with their wrap-around,
      errors and panics as a [result], the state and error monad [M],
      little- and big-endian words, slices.
    - [Hoare], [Reads]: triples for stateful calls, callbacks that only read.
    - [Crypto], [Instances], [Pow]: the FFI wrappers of [crypto.go] and the
      group arithmetic of [crypto-rs/src/commitment.rs], targets of
      [crypto-rs/src/pow.rs]; primitives are the class [Crypto], their
      documented laws [CryptoLaws], and [Instances] has a concrete instance.
    - [Transaction], [TxCodec]: [transaction.go], the wire format and its
      parser; round trips, canonicity, no panics.
    - [Block], [Header], [Merkle], [Binding]: headers, hashes, merkle trees
      of [block.go]; what a block hash commits to.
    - [ExchangeSort], [Consensus], [Difficulty]: LWMA difficulty, median
      time, proof of work; exactness and bounds.
    - [Memo], [Emission]: [wallet/memo.go], amount masks, the reward
      schedule of [miner.go].
    - [Validation], [Coinbase], [Validity], [Balance]: the validators of
      [transaction.go] and [block.go] over abstract lookups; they accept
      exactly the valid transactions and blocks, and a valid transaction
      creates no coins.
    - [Storage], [StorageFacts], [Commit]: [storage.go], the five buckets
      and the reorganization commit; it refines the replacement of a suffix
      of the stored chain and is atomic.
    - [Chain], [Cache], [ChainInv], [Branches], [Ancestors], [Learn],
      [Reorg], [ForkChoice], [Genesis], [Reachable]: the chain of
      [block.go]: LRU cache, cumulative work, ring index, block processing,
      reorganizations, finality; the invariant that relates memory, disk and
      the tree of known blocks, and its preservation by every call.
    - [ChainOps], [Windows], [Lawful], [Restart], [Verify], [Truncate],
      [Startup]: the rest of [block.go]: loading from disk, audits,
      truncation, templates; a restart restores the chain, the audit accepts
      exactly the lawful chains, the repair at start-up of [daemon.go]
      changes nothing on a chain that the node built itself.
    - [Mempool], [MempoolQueue], [MempoolInv], [MempoolOps], [MempoolChain],
      [MempoolSelect], [MempoolSpec]: [mempool.go] with its entries as
      shared objects, the container/heap queue and both indexes; admission,
      eviction, reaction to blocks, selection for a block.
    - [Gate], [Checkpoints], [Daemon], [ReorgDiff], [NodeInv], [Node]:
      [daemon.go] and [checkpoints.go]: the gate before gossiped blocks, the
      handlers of blocks and transactions, the blocks that a reorganization
      connects and disconnects; the composition of chain and mempool keeps
      the pool free of spent key images, also when transactions come between
      the steps of a block's handler; a null transaction in a peer's block
      stops the node.
    - [Miner], [MinerSpec]: [miner.go]: templates, workers that take turns in
      any order, the round of the mining loop; a mined block is accepted by
      the chain it was built on.
    - [CoinSelect], [CoinSpec]: [wallet/coinselect.go] over any random draws.
    - [Wallet], [WalletSpec]: outputs, balances, spends, rewinds and input
      leases of [wallet/wallet.go]; leases exclude each other.
    - [Builder], [BuilderSpec], [Transfer], [TransferSpec], [RingSelect]:
      [wallet/builder.go] and [createTxBuilder] of [api_handlers.go], with the
      ring selection of [block.go]; a transfer that succeeds pays its
      recipients with a transaction that the node's validator accepts, one
      that fails gives its reservations back.
    - [Scanner], [ScanSpec]: [wallet/scanner.go] and the conversion in
      [cli.go]; scanning finds what the builder addressed to the wallet.
    - [Peers], [PeersSpec]: scores, bans and known peers of [p2p/pex.go];
      how long bans last, and which calls keep the lists within their limits.
    - [Samples], [SampleChain], [SampleNode], [SampleMiner],
      [SampleTransfer], [SampleScan]: concrete blocks, a JSON codec, a chain
      with a fork and a reorganization, a node, a miner and two wallets, on
      which the theorems are applied.

    ** How parts meet

    Validation takes its lookups (spent key images, ring members) as
    arguments; [Branches] supplies the chain's and [Node] the daemon's.
    [TransferSpec] states its result against [Validation], so that the
    wallet and the node are related by the transaction's bytes alone, and
    [ScanSpec] reads outputs of [BuilderSpec].  What is not Go code of the
    repository is a class with laws: [Crypto] with [CryptoLaws], the JSON
    codec with [JSONLaws], orders of map iteration, clocks and random draws
    as arguments.

    ** Fuel and steps

    Loops that are not structural take fuel computed from the state (the
    length of a list, the size of a map, a height plus one); a run out of
    fuel is a panic of the model, and the theorems exclude panics.  Calls on
    chain, mempool, wallet and peer list run under the mutex of their object
    and are one step each; the miner's workers interleave by turns, and the
    daemon's handlers of transactions with the steps of its handlers of
    blocks.  A transaction pointer of Go is a transaction here; nil pointers,
    which only the decoding of JSON produces, are kept by [WireBlock] up to
    the filter that dereferences them.

    ** Not modelled

    Streams, synchronization, Dandelion relay and identities of [src/p2p]
    (goroutines and timers around libp2p); the HTTP server and its JSON
    ([api_*.go] but [createTxBuilder]); the command line and the explorer;
    the wallet's encrypted file, mnemonics and addresses; the [UTXOSet] and
    the [TxBuilder] of [transaction.go], which only tests use; the
    primitives of [crypto-rs] (ring signatures, range proofs, hashes,
    stealth addresses), which are parameters. *)

From Stdlib Require Export ZArith Lia.
From stdpp Require Export base gmap list strings sorting.

#[global] Open Scope Z_scope.
#[global] Set Default Goal Selector "!".

(** ** Bytes and byte strings

    A Go [byte] is [Byte.byte]; a slice or an array of bytes is a list of
    them.  The fixed lengths of arrays such as [[32]byte] are part of the
    well-formedness predicates of the records that hold them. *)

Abbreviation byte := Init.Byte.byte.
Abbreviation bytes := (list byte).

#[global] Instance byte_eq_dec : EqDecision byte := Byte.byte_eq_dec.

Definition Z_of_byte (b : byte) : Z := Z.of_N (Byte.to_N b).

Definition byte_of_Z (z : Z) : byte :=
  default Init.Byte.x00 (Byte.of_N (Z.to_N (z `mod` 256))).

Lemma Z_of_byte_range b : 0 <= Z_of_byte b < 256.
Proof. unfold Z_of_byte. pose proof (Byte.to_N_bounded b). lia. Qed.

Lemma Z_of_byte_of_Z z : Z_of_byte (byte_of_Z z) = z `mod` 256.
Proof.
  unfold Z_of_byte, byte_of_Z.
  pose proof (Z.mod_pos_bound z 256 ltac:(lia)).
  destruct (Byte.of_N (Z.to_N (z `mod` 256))) as [b|] eqn:E; simpl.
  - apply Byte.to_of_N in E. rewrite E. lia.
  - apply Byte.of_N_None_iff in E. lia.
Qed.

Lemma byte_of_Z_of_byte b : byte_of_Z (Z_of_byte b) = b.
Proof.
  unfold byte_of_Z. rewrite Z.mod_small by apply Z_of_byte_range.
  unfold Z_of_byte. rewrite N2Z.id, Byte.of_to_N. done.
Qed.

#[global] Instance Z_of_byte_inj : Inj (=) (=) Z_of_byte.
Proof. intros a b E. rewrite <- (byte_of_Z_of_byte a), E. apply byte_of_Z_of_byte. Qed.

#[global] Instance byte_countable : Countable byte.
Proof. apply (inj_countable' Z_of_byte byte_of_Z byte_of_Z_of_byte). Defined.

Definition zeros (n : nat) : bytes := replicate n Init.Byte.x00.

(** Byte strings of text constants. *)
Definition bytes_of_string (s : string) : bytes :=
  (λ a : Ascii.ascii, byte_of_Z (Z.of_N (Ascii.N_of_ascii a))) <$> String.list_ascii_of_string s.

(** ** Machine integers

    Go's fixed-width integers are [Z] in the range of their width; every
    arithmetic operation that can wrap is written with its wrap-around. *)

Definition u8 (z : Z) : Z := z `mod` 2^8.
Definition u32 (z : Z) : Z := z `mod` 2^32.
Definition u64 (z : Z) : Z := z `mod` 2^64.
Definition i64 (z : Z) : Z := (z + 2^63) `mod` 2^64 - 2^63.
Definition MaxUint64 : Z := 2^64 - 1.

Definition is_u8 (z : Z) : Prop := 0 <= z < 2^8.
Definition is_u32 (z : Z) : Prop := 0 <= z < 2^32.
Definition is_u64 (z : Z) : Prop := 0 <= z < 2^64.
Definition is_i64 (z : Z) : Prop := - 2^63 <= z < 2^63.

Ltac unfold_ints :=
  unfold u8, u32, u64, i64, is_u8, is_u32, is_u64, is_i64, MaxUint64 in *.

Lemma u64_range z : is_u64 (u64 z).
Proof. unfold_ints. apply Z.mod_pos_bound. lia. Qed.

Lemma u64_small z : is_u64 z → u64 z = z.
Proof. unfold_ints. intros. by apply Z.mod_small. Qed.

Lemma u32_small z : is_u32 z → u32 z = z.
Proof. unfold_ints. intros. by apply Z.mod_small. Qed.

Lemma i64_range z : is_i64 (i64 z).
Proof. unfold_ints. pose proof (Z.mod_pos_bound (z + 2^63) (2^64) ltac:(lia)). lia. Qed.

Lemma i64_small z : is_i64 z → i64 z = z.
Proof. unfold_ints. intros. rewrite Z.mod_small; lia. Qed.

Lemma u64_i64 z : is_i64 z → i64 (u64 z) = z.
Proof.
  unfold_ints. intros. rewrite Z.add_mod_idemp_l by lia.
  rewrite Z.mod_small; lia.
Qed.

Create HintDb ints.
#[export] Hint Resolve u64_range u64_small u32_small i64_range i64_small u64_i64 : ints.

(** ** Errors and run-time panics

    A Go function that returns an [error] returns a [result]; a run-time
    panic (an index out of range, a nil dereference) is the third outcome.
    Errors keep the sentinels the code compares with and, for
    [fmt.Errorf], the format string; [Wrapf] is the [%w] verb. *)

Inductive error : Type :=
| ErrOrphanBlock
| ErrStaleBlock
| ErrDuplicateBlock
| ErrSideChainBlock
| Errorf (fmt : string)
| Wrapf (fmt : string) (cause : error).

#[global] Instance error_eq_dec : EqDecision error.
Proof. solve_decision. Defined.

(** [errors.Is] on the sentinels. *)
Fixpoint errors_Is (e target : error) : bool :=
  bool_decide (e = target) ||
  match e with
  | Wrapf _ cause => errors_Is cause target
  | _ => false
  end.

Inductive result (A : Type) : Type :=
| Ok (a : A)
| Err (e : error)
| Panic.
Arguments Ok {A} a.
Arguments Err {A} e.
Arguments Panic {A}.

#[global] Instance result_ret : MRet result := λ A a, Ok a.
#[global] Instance result_bind : MBind result := λ A B f m,
  match m with Ok a => f a | Err e => Err e | Panic => Panic end.
#[global] Instance result_eq_dec {A} `{EqDecision A} : EqDecision (result A).
Proof. solve_decision. Defined.

(** [if cond { return err }] *)
Definition check (cond : bool) (e : error) : result unit :=
  if cond then Err e else Ok tt.

(** [fmt.Errorf("...: %w", err)] on the way out of a call. *)
Definition wrap {A} (fmt : string) (m : result A) : result A :=
  match m with Ok a => Ok a | Err e => Err (Wrapf fmt e) | Panic => Panic end.

Definition is_Ok {A} (m : result A) : bool :=
  match m with Ok _ => true | _ => false end.

Lemma bind_Ok {A B} (m : result A) (f : A → result B) b :
  m ≫= f = Ok b ↔ ∃ a, m = Ok a ∧ f a = Ok b.
Proof. destruct m; simpl; naive_solver. Qed.

Lemma check_Ok cond e : check cond e = Ok tt ↔ cond = false.
Proof. destruct cond; simpl; naive_solver. Qed.

Lemma check_Ok' cond e u : check cond e = Ok u ↔ cond = false.
Proof. destruct cond, u; simpl; naive_solver. Qed.

Lemma wrap_Ok {A} fmt (m : result A) a : wrap fmt m = Ok a ↔ m = Ok a.
Proof. destruct m; simpl; naive_solver. Qed.

(** Runs through the guards of a successful call. *)
Ltac inv_ok_step :=
  match goal with
  | H : mbind _ _ = Ok _ |- _ => apply bind_Ok in H as (? & ? & ?)
  | H : check _ _ = Ok _ |- _ => apply check_Ok' in H
  | H : wrap _ _ = Ok _ |- _ => apply wrap_Ok in H
  | H : Ok _ = Ok _ |- _ => injection H as H
  | H : mret _ = Ok _ |- _ => injection H as H
  | H : Err _ = Ok _ |- _ => discriminate H
  | H : Panic = Ok _ |- _ => discriminate H
  end.
Ltac inv_ok := repeat inv_ok_step; subst.

(** Turns decided comparisons into propositions. *)
Ltac simpl_bools :=
  repeat match goal with
  | H : negb _ = false |- _ => apply negb_false_iff in H
  | H : negb _ = true |- _ => apply negb_true_iff in H
  | H : (_ =? _) = true |- _ => apply Z.eqb_eq in H
  | H : (_ =? _) = false |- _ => apply Z.eqb_neq in H
  | H : (_ <? _) = true |- _ => apply Z.ltb_lt in H
  | H : (_ <? _) = false |- _ => apply Z.ltb_ge in H
  | H : (_ <=? _) = true |- _ => apply Z.leb_le in H
  | H : (_ <=? _) = false |- _ => apply Z.leb_gt in H
  | H : bool_decide _ = true |- _ => apply bool_decide_eq_true in H
  | H : bool_decide _ = false |- _ => apply bool_decide_eq_false in H
  | H : _ && _ = true |- _ => apply andb_true_iff in H as [? ?]
  | H : _ || _ = false |- _ => apply orb_false_iff in H as [? ?]
  | H : ¬ (_ ≠ _) |- _ => apply dec_stable in H
  end.

(** A computation that does not panic. *)
Definition safe {A} (m : result A) : Prop := m ≠ Panic.

Lemma safe_Ok {A} (a : A) : safe (Ok a).
Proof. done. Qed.

Lemma safe_check cond e : safe (check cond e).
Proof. by destruct cond. Qed.

Lemma safe_wrap {A} fmt (m : result A) : safe m → safe (wrap fmt m).
Proof. by destruct m. Qed.

Lemma safe_bind {A B} (m : result A) (f : A → result B) :
  safe m → (∀ a, m = Ok a → safe (f a)) → safe (m ≫= f).
Proof. intros Hm Hf. destruct m; simpl; [by apply Hf|done|done]. Qed.

Create HintDb safe.
#[export] Hint Resolve safe_Ok safe_check safe_wrap : safe.

(** ** Stateful computations

    A method that changes its receiver is a state transformer; the state is
    returned on every path, since Go does not undo the writes made before
    an early return. *)

Definition M (S A : Type) : Type := S → result A * S.

#[global] Instance M_ret {S} : MRet (M S) := λ A a s, (Ok a, s).
#[global] Instance M_bind {S} : MBind (M S) := λ A B f m s,
  match m s with
  | (Ok a, s') => f a s'
  | (Err e, s') => (Err e, s')
  | (Panic, s') => (Panic, s')
  end.

Definition get {S} : M S S := λ s, (Ok s, s).
Definition modify {S} (f : S → S) : M S unit := λ s, (Ok tt, f s).
Definition lift {S A} (m : result A) : M S A := λ s, (m, s).
Definition throw {S A} (e : error) : M S A := λ s, (Err e, s).

Definition checkM {S} (cond : bool) (e : error) : M S unit := lift (check cond e).
Definition wrapM {S A} (fmt : string) (m : M S A) : M S A := λ s,
  let '(r, s') := m s in (wrap fmt r, s').

(** [for _, x := range l { f(x) }] with early return on an error. *)
Fixpoint for_each {S A} (f : A → M S unit) (l : list A) : M S unit :=
  match l with
  | [] => mret tt
  | x :: l => f x;; for_each f l
  end.

Lemma M_bind_Ok {S A B} (m : M S A) (f : A → M S B) s b s' :
  (m ≫= f) s = (Ok b, s') ↔ ∃ a s1, m s = (Ok a, s1) ∧ f a s1 = (Ok b, s').
Proof.
  unfold mbind, M_bind. destruct (m s) as [[a|e|] s1]; split.
  all: naive_solver.
Qed.

Lemma for_each_modify {S A} (f : A → S → S) l s :
  for_each (λ x, modify (f x)) l s = (Ok tt, foldl (λ s x, f x s) s l).
Proof. revert s. induction l as [|x l IH]; intros s; [done|]. apply IH. Qed.

(** A relation each iteration keeps, a successful loop keeps. *)
Lemma for_each_preorder {S A} (R : S → S → Prop) `{!PreOrder R} (f : A → M S unit) l s s' u :
  (∀ x s s' u, x ∈ l → f x s = (Ok u, s') → R s s') → for_each f l s = (Ok u, s') → R s s'.
Proof.
  revert s. induction l as [|x l IH]; intros s Hf E; cbn [for_each] in E.
  { injection E as _ <-. reflexivity. }
  apply M_bind_Ok in E as (u' & s1 & E1 & E2). etrans.
  - eapply Hf; [left|exact E1].
  - eapply IH; [|exact E2]. intros y ???? Hy. eapply Hf; [by right|exact Hy].
Qed.

(** Runs through the guards of a successful stateful call. *)
Lemma checkM_Ok {S} cond e (s s' : S) u : checkM cond e s = (Ok u, s') ↔ cond = false ∧ s' = s.
Proof.
  unfold checkM, lift, check. destruct cond, u; split; [|naive_solver| |]; [done|by intros [= <-]|].
  by intros [_ ->].
Qed.

Lemma lift_Ok {S A} (m : result A) (s s' : S) a : lift m s = (Ok a, s') ↔ m = Ok a ∧ s' = s.
Proof. unfold lift. split; [by intros [= -> <-]|by intros [-> ->]]. Qed.

Lemma wrapM_Ok {S A} fmt (m : M S A) s s' a : wrapM fmt m s = (Ok a, s') ↔ m s = (Ok a, s').
Proof.
  unfold wrapM. destruct (m s) as [r s1]. destruct r; simpl; naive_solver.
Qed.

Ltac inv_run_step :=
  match goal with
  | H : mbind _ _ _ = (Ok _, _) |- _ => apply M_bind_Ok in H as (? & ? & ? & ?)
  | H : checkM _ _ _ = (Ok _, _) |- _ => apply checkM_Ok in H as [? ->]
  | H : lift _ _ = (Ok _, _) |- _ => apply lift_Ok in H as [? ->]
  | H : wrapM _ _ _ = (Ok _, _) |- _ => apply wrapM_Ok in H
  | H : throw _ _ = (Ok _, _) |- _ => discriminate H
  | H : mret _ _ = (Ok _, _) |- _ => apply pair_equal_spec in H as [H <-]
  | H : modify _ _ = (Ok _, _) |- _ => apply pair_equal_spec in H as [_ <-]
  | H : get _ = (Ok _, _) |- _ => apply pair_equal_spec in H as [H <-]; injection H as <-
  end.
Ltac inv_run := repeat inv_run_step; subst.

(** ** Lists *)

Lemma bool_decide_false_1 (P : Prop) `{Decision P} : bool_decide P = false → ¬ P.
Proof. apply bool_decide_eq_false_1. Qed.

Lemma take_drop_app {A} (n : nat) (l k : list A) :
  length l = n → take n (l ++ k) = l ∧ drop n (l ++ k) = k.
Proof. intros <-. by rewrite take_app_length, drop_app_length. Qed.

Fixpoint sumZ (l : list Z) : Z :=
  match l with
  | [] => 0
  | x :: l => x + sumZ l
  end.

Lemma sumZ_app l k : sumZ (l ++ k) = sumZ l + sumZ k.
Proof. induction l as [|x l IH]; cbn [app sumZ]; [lia|]. rewrite IH. lia. Qed.

Lemma sumZ_perm (l k : list Z) : l ≡ₚ k → sumZ l = sumZ k.
Proof. induction 1; cbn; lia. Qed.

Lemma sumZ_nonneg l : Forall (λ x, 0 <= x) l → 0 <= sumZ l.
Proof. induction 1; cbn [sumZ]; lia. Qed.

Lemma snoc_cases {A} (l : list A) : l = [] ∨ ∃ k x, l = k ++ [x].
Proof. induction l as [|x k _] using rev_ind; eauto. Qed.

Lemma elem_of_concat {A} (x : A) (ls : list (list A)) : x ∈ concat ls ↔ ∃ l, x ∈ l ∧ l ∈ ls.
Proof.
  induction ls as [|l ls IH]; simpl; [set_solver|]. rewrite elem_of_app, IH. set_solver.
Qed.

Lemma filter_id {A} (P : A → Prop) `{∀ x, Decision (P x)} l : Forall P l → filter P l = l.
Proof.
  induction 1 as [|x l Hx Hl IH]; [done|]. by rewrite filter_cons_True, IH.
Qed.

Lemma length_filter_mono {A} (P Q : A → Prop) `{∀ x, Decision (P x)} `{∀ x, Decision (Q x)} l :
  (∀ x, P x → Q x) → (length (filter P l) <= length (filter Q l))%nat.
Proof.
  intros HPQ. induction l as [|x l IH]; [done|]. rewrite !filter_cons.
  repeat case_decide; simpl; [lia| |lia|lia]. naive_solver.
Qed.

Lemma NoDup_concat_nonempty {A B} (f : A → list B) l :
  NoDup (concat (f <$> l)) → Forall (λ a, f a ≠ []) l → NoDup l.
Proof.
  induction l as [|a l IH]; intros Hd Hn; [constructor|]. simpl in Hd.
  apply NoDup_app in Hd as (_ & Hx & Hd). apply Forall_cons in Hn as [Ha Hn].
  constructor; [|by apply IH]. intros Hin.
  destruct (f a) as [|x r] eqn:E; [done|]. apply (Hx x); [set_solver|].
  apply elem_of_concat. exists (f a). rewrite E. split; [set_solver|].
  rewrite <- E. by apply list_elem_of_fmap_2.
Qed.

Lemma fmap_inj_on {A B} (f : A → B) (l k : list A) :
  (∀ x y, x ∈ l → y ∈ k → f x = f y → x = y) → f <$> l = f <$> k → l = k.
Proof.
  revert k. induction l as [|x l IH]; intros [|y k] Hi E; simplify_eq/=; [done|].
  f_equal; [apply Hi; [set_solver..|done]|]. apply IH; [|done]. set_solver.
Qed.

(** ** Evaluation *)

(** Decides a closed proposition by evaluation. *)
Ltac vm_decide := refine (bool_decide_unpack _ _); vm_cast_no_check I.
