(* ===== verification/Bytes.v ===== *)
(** * Byte-level encoding

    [encoding/binary] as the node uses it (little-endian on the wire,
    big-endian in storage keys), the writes into a preallocated buffer that
    the serializers make, and the bounds-checked reads of the parsers. *)

From S2P Require Import Prelude.

(** ** Fixed-width integers as bytes *)

Fixpoint le_bytes (n : nat) (z : Z) : bytes :=
  match n with
  | O => []
  | S n => byte_of_Z z :: le_bytes n (z `div` 256)
  end.

Fixpoint le_value (l : bytes) : Z :=
  match l with
  | [] => 0
  | b :: l => Z_of_byte b + 256 * le_value l
  end.

Definition be_bytes (n : nat) (z : Z) : bytes := reverse (le_bytes n z).
Definition be_value (l : bytes) : Z := le_value (reverse l).

Lemma length_le_bytes n z : length (le_bytes n z) = n.
Proof. revert z. induction n; intros; simpl; auto. Qed.

Lemma length_be_bytes n z : length (be_bytes n z) = n.
Proof. unfold be_bytes. by rewrite length_reverse, length_le_bytes. Qed.

Lemma le_value_bytes n z : le_value (le_bytes n z) = z `mod` 256 ^ Z.of_nat n.
Proof.
  revert z. induction n as [|n IH]; intros z.
  { simpl. by rewrite Z.mod_1_r. }
  cbn [le_bytes le_value]. rewrite IH, Z_of_byte_of_Z.
  replace (256 ^ Z.of_nat (S n)) with (256 * 256 ^ Z.of_nat n)
    by (rewrite Nat2Z.inj_succ, Z.pow_succ_r by lia; lia).
  rewrite Z.rem_mul_r; [lia|lia|]. apply Z.pow_pos_nonneg; lia.
Qed.

Lemma le_bytes_value l : le_bytes (length l) (le_value l) = l.
Proof.
  induction l as [|b l IH]; [done|]. cbn [length le_bytes le_value].
  pose proof (Z_of_byte_range b).
  rewrite <- (Z.div_unique (Z_of_byte b + 256 * le_value l) 256 (le_value l) (Z_of_byte b))
    by lia.
  rewrite IH. f_equal. apply Z_of_byte_inj. rewrite Z_of_byte_of_Z.
  symmetry. apply (Z.mod_unique _ _ (le_value l)); lia.
Qed.

Lemma le_value_range l : 0 <= le_value l < 256 ^ Z.of_nat (length l).
Proof.
  rewrite <- (le_bytes_value l), le_value_bytes, length_le_bytes.
  apply Z.mod_pos_bound, Z.pow_pos_nonneg; lia.
Qed.

Lemma le_value_bytes_small n z : 0 <= z < 256 ^ Z.of_nat n → le_value (le_bytes n z) = z.
Proof. intros. by rewrite le_value_bytes, Z.mod_small. Qed.

Lemma le_bytes_inj n z z' :
  0 <= z < 256 ^ Z.of_nat n → 0 <= z' < 256 ^ Z.of_nat n → le_bytes n z = le_bytes n z' → z = z'.
Proof.
  intros Hz Hz' E. rewrite <- (le_value_bytes_small n z), E by done.
  by apply le_value_bytes_small.
Qed.

Lemma be_value_bytes_small n z : 0 <= z < 256 ^ Z.of_nat n → be_value (be_bytes n z) = z.
Proof.
  intros. unfold be_value, be_bytes. rewrite reverse_involutive.
  by apply le_value_bytes_small.
Qed.

Lemma be_bytes_inj n z z' :
  0 <= z < 256 ^ Z.of_nat n → 0 <= z' < 256 ^ Z.of_nat n → be_bytes n z = be_bytes n z' → z = z'.
Proof.
  intros Hz Hz' E. rewrite <- (be_value_bytes_small n z), E by done.
  by apply be_value_bytes_small.
Qed.

Lemma le_value_bytes_u64 z : is_u64 z → le_value (le_bytes 8 z) = z.
Proof. unfold_ints. intros. apply le_value_bytes_small. simpl. lia. Qed.

Lemma le_value_bytes_u32 z : is_u32 z → le_value (le_bytes 4 z) = z.
Proof. unfold_ints. intros. apply le_value_bytes_small. simpl. lia. Qed.

Lemma le_value_app l k :
  le_value (l ++ k) = le_value l + 256 ^ Z.of_nat (length l) * le_value k.
Proof.
  induction l as [|b l IH]; cbn [app le_value length]; [lia|].
  rewrite IH, Nat2Z.inj_succ, Z.pow_succ_r by lia. lia.
Qed.

Lemma be_value_app l k :
  be_value (l ++ k) = be_value l * 256 ^ Z.of_nat (length k) + be_value k.
Proof.
  unfold be_value. rewrite reverse_app, le_value_app, length_reverse. lia.
Qed.

Lemma be_value_cons b l :
  be_value (b :: l) = Z_of_byte b * 256 ^ Z.of_nat (length l) + be_value l.
Proof.
  change (b :: l) with ([b] ++ l). rewrite be_value_app.
  unfold be_value at 1. simpl. lia.
Qed.

Lemma be_value_range l : 0 <= be_value l < 256 ^ Z.of_nat (length l).
Proof. unfold be_value. rewrite <- (length_reverse l). apply le_value_range. Qed.

Lemma be_bytes_value l : be_bytes (length l) (be_value l) = l.
Proof.
  unfold be_bytes, be_value. rewrite <- (length_reverse l), le_bytes_value.
  apply reverse_involutive.
Qed.

(** ** Writes into a buffer

    A serializer allocates [buf := make([]byte, size)] and fills it from
    left to right.  [copy(buf[off:], src)] panics when [off] is past the end
    and otherwise copies what fits; [PutUint32(buf[off:], v)] panics when
    fewer than four bytes are left. *)

Record writer : Type := Writer { w_buf : bytes; w_off : nat }.

Definition write_at (buf : bytes) (off : nat) (src : bytes) : bytes :=
  take off buf ++ take (length buf - off) src ++ drop (off + length src) buf.

(** [copy(buf[off:], src); off += n] *)
Definition w_copy (src : bytes) (n : nat) (w : writer) : result writer :=
  if decide (length (w_buf w) < w_off w)%nat then Panic
  else Ok (Writer (write_at (w_buf w) (w_off w) src) (w_off w + n)).

(** [binary.LittleEndian.PutUintN(buf[off:], v); off += n/8]; also
    [buf[off] = b; off++] for one byte. *)
Definition w_put (n : nat) (v : Z) (w : writer) : result writer :=
  if decide (w_off w + n <= length (w_buf w))%nat
  then Ok (Writer (write_at (w_buf w) (w_off w) (le_bytes n v)) (w_off w + n))
  else Panic.

Definition w_seq (f g : writer → result writer) (w : writer) : result writer :=
  w' ← f w; g w'.

Fixpoint w_each {A} (f : A → writer → result writer) (l : list A) (w : writer) : result writer :=
  match l with
  | [] => Ok w
  | x :: l => w' ← f x w; w_each f l w'
  end.

Infix "≫>" := w_seq (at level 60, right associativity).

(** The buffer holds [pre] up to the offset. *)
Definition filled (size : nat) (pre : bytes) (w : writer) : Prop :=
  length (w_buf w) = size ∧ w_off w = length pre ∧ take (length pre) (w_buf w) = pre.

(** The writer [f] appends [out], given room for it. *)
Definition writes (f : writer → result writer) (out : bytes) : Prop :=
  ∀ size pre w, filled size pre w → (length pre + length out <= size)%nat →
    ∃ w', f w = Ok w' ∧ filled size (pre ++ out) w'.

Lemma write_at_filled size pre w src :
  filled size pre w → (length pre + length src <= size)%nat →
  filled size (pre ++ src) (Writer (write_at (w_buf w) (w_off w) src) (w_off w + length src)).
Proof.
  intros (Hl & Ho & Hp) Hroom. unfold filled, write_at; simpl.
  assert (take (length (w_buf w) - w_off w) src = src) as -> by (apply take_ge; lia).
  rewrite Ho, Hp. split_and!.
  - rewrite !length_app, length_drop. lia.
  - by rewrite length_app.
  - by rewrite app_assoc, take_app_length.
Qed.

Lemma writes_copy src n : length src = n → writes (w_copy src n) src.
Proof.
  intros <- size pre w Hf Hroom. unfold w_copy.
  destruct Hf as (Hl & Ho & Hp) eqn:E; clear E.
  rewrite decide_False by lia. eexists. split; [done|]. apply write_at_filled; done.
Qed.

Lemma writes_put n v : writes (w_put n v) (le_bytes n v).
Proof.
  intros size pre w Hf Hroom. rewrite length_le_bytes in Hroom. unfold w_put.
  pose proof Hf as (Hl & Ho & _). rewrite decide_True by lia.
  eexists. split; [done|].
  pose proof (write_at_filled size pre w (le_bytes n v) Hf) as H.
  rewrite length_le_bytes in H. apply H. done.
Qed.

Lemma writes_seq f g o1 o2 : writes f o1 → writes g o2 → writes (f ≫> g) (o1 ++ o2).
Proof.
  intros Hf Hg size pre w Hw Hroom. rewrite length_app in Hroom.
  destruct (Hf size pre w) as (w1 & E1 & H1); [done|lia|].
  destruct (Hg size (pre ++ o1) w1) as (w2 & E2 & H2); [done|rewrite length_app; lia|].
  exists w2. unfold w_seq. rewrite E1. simpl. by rewrite app_assoc.
Qed.

Lemma writes_each {A} (f : A → writer → result writer) (g : A → bytes) (P : A → Prop) l :
  (∀ x, P x → writes (f x) (g x)) → Forall P l → writes (w_each f l) (concat (g <$> l)).
Proof.
  intros Hf. induction 1 as [|x l Hx _ IH]; intros size pre w Hw Hroom.
  { exists w. by rewrite app_nil_r. }
  rewrite fmap_cons in *. cbn [concat w_each] in *. rewrite length_app in Hroom.
  destruct (Hf x Hx size pre w) as (w1 & E1 & H1); [done|lia|].
  destruct (IH size (pre ++ g x) w1) as (w2 & E2 & H2); [done|rewrite length_app; lia|].
  exists w2. rewrite E1. simpl. by rewrite app_assoc.
Qed.

Create HintDb writes.
#[export] Hint Resolve writes_copy writes_put writes_seq : writes.

(** A writer that appends exactly the buffer's size leaves just its output. *)
Lemma writes_all f out :
  writes f out →
  (w ← f (Writer (zeros (length out)) 0); Ok (w_buf w)) = Ok out.
Proof.
  intros Hf. destruct (Hf (length out) [] (Writer (zeros (length out)) 0)) as (w & E & Hl & _ & Hp).
  - unfold filled, zeros; simpl. by rewrite length_replicate.
  - done.
  - rewrite E. simpl in *. f_equal. rewrite <- Hp. symmetry. apply take_ge. lia.
Qed.

(** ** Bounds-checked reads

    [data[off:off+n]]; Go panics when the slice leaves the buffer. *)

Definition slice (data : bytes) (off n : nat) : result bytes :=
  if decide (off + n <= length data)%nat then Ok (take n (drop off data)) else Panic.

Lemma slice_app pre x rest : slice (pre ++ x ++ rest) (length pre) (length x) = Ok x.
Proof.
  unfold slice. rewrite decide_True by (rewrite !length_app; lia).
  by rewrite drop_app_length, take_app_length.
Qed.

Lemma slice_Ok data off n x :
  slice data off n = Ok x →
  (off + n <= length data)%nat ∧ length x = n ∧ take (off + n) data = take off data ++ x.
Proof.
  unfold slice. case_decide; [|done]. intros [= <-]. split_and!; [done| |].
  - rewrite length_take, length_drop. lia.
  - rewrite <- (take_drop off data) at 1. rewrite take_app_ge; rewrite length_take; [|lia].
    f_equal. f_equal. lia.
Qed.

Lemma slice_no_panic data off n : (off + n <= length data)%nat → ∃ x, slice data off n = Ok x.
Proof. intros. unfold slice. rewrite decide_True by done. eauto. Qed.

Arguments le_bytes : simpl never.
Arguments be_bytes : simpl never.
