(* ===== verification/Crypto.v ===== *)
(** * Cryptographic interface

    The node hashes with SHA3-256 from the Go library and calls the Rust
    library [crypto-rs] through cgo.  Code outside the repository is a
    parameter, gathered in the class [Crypto]: the hash, the Ristretto group
    of curve25519-dalek, the Bulletproofs, RingCT and Argon2 primitives.
    [CryptoLaws] states the documented behaviour the theorems rely on.  The
    functions of [commitment.rs] and [pow.rs] and the Go wrappers of
    [crypto.go] (their guards and their payload layout) are defined here. *)

From S2P Require Import Prelude Bytes.

Class Crypto : Type := {
  sha3_256 : bytes → bytes;
  (* a return code of 0 is [true]; a hash that fails is [None] *)
  blocknet_range_proof_verify : bytes → bytes → bool;
  blocknet_ringct_verify : bytes → bytes → nat → bytes → bytes → bool;
  blocknet_pow_hash : bytes → Z → option bytes;
  (* the Ristretto group and its two Pedersen generators *)
  point : Type;
  #[global] point_eq_dec :: EqDecision point;
  p_zero : point;
  p_add : point → point → point;
  p_sub : point → point → point;
  p_smul : Z → point → point;
  gen_B : point;
  gen_B_blinding : point;
  compress : point → bytes;
  decompress : bytes → option point;
}.

(** The order of the Ristretto group. *)
Definition group_order : Z := 2 ^ 252 + 27742317777372353535851937790883648493.

Class CryptoLaws (C : Crypto) : Prop := {
  sha3_256_length : ∀ m, length (sha3_256 m) = 32%nat;
  pow_hash_length : ∀ h n d, blocknet_pow_hash h n = Some d → length d = 32%nat;
  p_add_assoc : ∀ x y z, p_add x (p_add y z) = p_add (p_add x y) z;
  p_add_comm : ∀ x y, p_add x y = p_add y x;
  p_add_zero : ∀ x, p_add p_zero x = x;
  p_sub_add : ∀ x y, p_add (p_sub x y) y = x;
  p_smul_zero : ∀ x, p_smul 0 x = p_zero;
  p_smul_add : ∀ a b x, p_smul (a + b) x = p_add (p_smul a x) (p_smul b x);
  p_smul_order : ∀ a x, p_smul (a `mod` group_order) x = p_smul a x;
  decompress_compress : ∀ x, decompress (compress x) = Some x;
  compress_length : ∀ x, length (compress x) = 32%nat;
}.

(** The hash separates the given messages: no two different ones of them
    have one digest. *)
Definition collision_free `{Crypto} (msgs : list bytes) : Prop :=
  ∀ m1 m2, m1 ∈ msgs → m2 ∈ msgs → sha3_256 m1 = sha3_256 m2 → m1 = m2.

#[global] Instance collision_free_dec `{Crypto} msgs : Decision (collision_free msgs).
Proof.
  refine (cast_if (decide (Forall (λ m1, Forall (λ m2, sha3_256 m1 = sha3_256 m2 → m1 = m2) msgs) msgs))).
  - intros m1 m2 H1 H2. rewrite Forall_forall in f. specialize (f m1 H1).
    rewrite Forall_forall in f. by apply f.
  - intros Hc. apply n. apply Forall_forall. intros m1 H1. apply Forall_forall. intros m2 H2. by apply Hc.
Defined.

Lemma collision_free_sub `{Crypto} ms ms' : ms ⊆ ms' → collision_free ms' → collision_free ms.
Proof. intros Hs Hc m1 m2 H1 H2. apply Hc; by apply Hs. Qed.

Definition RingSize : nat := 16.

Definition byte_xor (a b : byte) : byte := byte_of_Z (Z.lxor (Z_of_byte a) (Z_of_byte b)).

Lemma byte_xor_involutive a b : byte_xor (byte_xor a b) b = a.
Proof.
  apply Z_of_byte_inj. unfold byte_xor. rewrite !Z_of_byte_of_Z.
  change 256 with (2 ^ 8). rewrite <- !Z.land_ones by lia.
  apply Z.bits_inj'. intros n Hn.
  rewrite !Z.land_spec, !Z.lxor_spec, !Z.land_spec, !Z.lxor_spec, Z.testbit_ones_nonneg by lia.
  destruct (Z.ltb_spec n 8).
  - rewrite !andb_true_r. by rewrite xorb_assoc, xorb_nilpotent, xorb_false_r.
  - rewrite !andb_false_r. symmetry.
    rewrite <- (Z.mod_small (Z_of_byte a) (2 ^ 8)) by apply Z_of_byte_range.
    apply Z.mod_pow2_bits_high. lia.
Qed.

Section Wrappers.
Context `{Crypto}.

(** ** Pedersen commitments ([commitment.rs]) *)

(** [pc_gens.commit(value, blinding)] *)
Definition pedersen (value blinding : Z) : point :=
  p_add (p_smul value gen_B) (p_smul blinding gen_B_blinding).

(** [Scalar::from_bytes_mod_order] *)
Definition scalar_mod_order (b : bytes) : Z := le_value b `mod` group_order.

Definition blocknet_pedersen_commit_with_blinding (value : Z) (blinding : bytes) : bytes :=
  compress (pedersen value (scalar_mod_order blinding)).

Definition blocknet_commitment_add (c1 c2 : bytes) : option bytes :=
  p1 ← decompress c1; p2 ← decompress c2; Some (compress (p_add p1 p2)).

Definition blocknet_commitment_sub (c1 c2 : bytes) : option bytes :=
  p1 ← decompress c1; p2 ← decompress c2; Some (compress (p_sub p1 p2)).

Definition blocknet_commitment_is_zero (c : bytes) : bool :=
  match decompress c with Some p => bool_decide (p = p_zero) | None => false end.

Definition blocknet_fee_commitment (fee : Z) : bytes := compress (p_smul fee gen_B).

Definition blocknet_blinding_add (b1 b2 : bytes) : bytes :=
  le_bytes 32 ((scalar_mod_order b1 + scalar_mod_order b2) `mod` group_order).

Definition blocknet_blinding_sub (b1 b2 : bytes) : bytes :=
  le_bytes 32 ((scalar_mod_order b1 - scalar_mod_order b2) `mod` group_order).

(** ** Go wrappers *)

Definition CommitmentAdd (c1 c2 : bytes) : result bytes :=
  match blocknet_commitment_add c1 c2 with
  | Some r => Ok r
  | None => Err (Errorf "commitment add failed")
  end.

Definition CommitmentSub (c1 c2 : bytes) : result bytes :=
  match blocknet_commitment_sub c1 c2 with
  | Some r => Ok r
  | None => Err (Errorf "commitment sub failed")
  end.

Definition CommitmentIsZero (c : bytes) : bool := blocknet_commitment_is_zero c.

Definition CreateFeeCommitment (fee : Z) : result bytes := Ok (blocknet_fee_commitment fee).

Definition CreatePedersenCommitmentWithBlinding (value : Z) (blinding : bytes) : result bytes :=
  Ok (blocknet_pedersen_commit_with_blinding value blinding).

(** ** Range proofs *)

Definition VerifyRangeProof (commitment proof : bytes) : result unit :=
  check (bool_decide (proof = [])) (Errorf "range proof must not be empty");;
  check (negb (blocknet_range_proof_verify commitment proof))
        (Errorf "range proof verification failed").

(** ** RingCT signatures *)

Record RingCTSignature : Type := MkRingCTSignature {
  Signature : bytes;
  SigRingSize : nat;
}.

Definition VerifyRingCT (ringKeys ringCommitments : list bytes) (message : bytes)
    (sig : RingCTSignature) : result unit :=
  let ringSize := length ringKeys in
  check (bool_decide (ringSize = 0%nat)) (Errorf "RingCT ring must not be empty");;
  check (bool_decide (ringSize ≠ length ringCommitments))
        (Errorf "ring keys and commitments must have same length");;
  check (bool_decide (ringSize ≠ SigRingSize sig)) (Errorf "ring size mismatch");;
  check (bool_decide (message = [])) (Errorf "RingCT message must not be empty");;
  check (bool_decide (Signature sig = [])) (Errorf "RingCT signature must not be empty");;
  let ringKeyBytes := concat ringKeys in
  let ringCommitBytes := concat ringCommitments in
  check (negb (blocknet_ringct_verify ringKeyBytes ringCommitBytes ringSize message (Signature sig)))
        (Errorf "RingCT verification failed: commitment mismatch or invalid signature").

(** The key image and the pseudo-output at the end of the payload
    [c0 | n responses | n responses | key image | pseudo-output]. *)
Definition ExtractRingCTBinding (sig : RingCTSignature) : result (bytes * bytes) :=
  check (bool_decide (SigRingSize sig = 0%nat)) (Errorf "RingCT ring size must be positive");;
  let n := SigRingSize sig in
  let expectedLen := (32 + n * 32 + n * 32 + 32 + 32)%nat in
  check (bool_decide (length (Signature sig) ≠ expectedLen))
        (Errorf "invalid RingCT signature length: got %d, expected %d");;
  let kiOffset := (32 + n * 32 + n * 32)%nat in
  keyImage ← slice (Signature sig) kiOffset 32;
  pseudoOutput ← slice (Signature sig) (kiOffset + 32) 32;
  Ok (keyImage, pseudoOutput).

(** ** Amount encryption *)

Definition EncryptAmount (amount : Z) (sharedSecret : bytes) (outputIndex : Z) : bytes :=
  let indexBuf := [byte_of_Z outputIndex; byte_of_Z (Z.shiftr outputIndex 8);
                   byte_of_Z (Z.shiftr outputIndex 16); byte_of_Z (Z.shiftr outputIndex 24)] in
  let mask := sha3_256 (bytes_of_string "blocknet_amount" ++ sharedSecret ++ indexBuf) in
  let amountBytes := [byte_of_Z amount; byte_of_Z (Z.shiftr amount 8);
                      byte_of_Z (Z.shiftr amount 16); byte_of_Z (Z.shiftr amount 24);
                      byte_of_Z (Z.shiftr amount 32); byte_of_Z (Z.shiftr amount 40);
                      byte_of_Z (Z.shiftr amount 48); byte_of_Z (Z.shiftr amount 56)] in
  zip_with byte_xor amountBytes (take 8 mask).

(** ** Proof of work *)

Definition PowHash (header : bytes) (nonce : Z) : result bytes :=
  match blocknet_pow_hash header nonce with
  | Some h => Ok h
  | None => Err (Errorf "pow hash failed (error %d)")
  end.

End Wrappers.

(** Byte-by-byte comparison from the most significant byte; equal strings pass. *)
Fixpoint PowCheckTarget (hash target : bytes) : bool :=
  match hash, target with
  | h :: hash, t :: target =>
      if Z_of_byte h <? Z_of_byte t then true
      else if Z_of_byte t <? Z_of_byte h then false
      else PowCheckTarget hash target
  | _, _ => true
  end.

(** Long division of [2^256 - 1], four limbs of 64 bits, by a 64-bit divisor. *)
Fixpoint div_limbs (divisor rem : Z) (limbs : list Z) : list Z :=
  match limbs with
  | [] => []
  | limb :: limbs =>
      let cur := Z.lor (Z.shiftl rem 64) limb in
      u64 (cur `div` divisor) :: div_limbs divisor (cur `mod` divisor) limbs
  end.

Definition DifficultyToTarget (difficulty : Z) : bytes :=
  if difficulty =? 0 then zeros 32
  else concat (be_bytes 8 <$> div_limbs difficulty 0 (replicate 4 MaxUint64)).
