(* ===== verification/Instances.v ===== *)
(** * Concrete instances of the interfaces

    The parameters of the development are satisfiable: executable instances
    at which the witnesses of the theorems are evaluated. *)

From S2P Require Import Prelude Bytes Crypto.

(** A checksum for the hash; the integers modulo the group order, with the
    generators [1] and [2^64], for the commitments; every proof accepted. *)
Definition toy_hash (m : bytes) : bytes :=
  le_bytes 32 (foldl (λ acc b, Z.land (acc * 31 + Z_of_byte b + 1) (2 ^ 48 - 1)) 7 m).

Definition toy_point : Type := { z : Z | bool_decide (0 <= z < group_order) = true }.

Lemma toy_point_ok z : bool_decide (0 <= z `mod` group_order < group_order) = true.
Proof. apply bool_decide_eq_true. apply Z.mod_pos_bound. done. Qed.

Definition to_point (z : Z) : toy_point := (z `mod` group_order) ↾ toy_point_ok z.

Definition toy_crypto : Crypto := {|
  sha3_256 := toy_hash;
  blocknet_range_proof_verify _ _ := true;
  blocknet_ringct_verify _ _ _ _ _ := true;
  blocknet_pow_hash h n := Some (toy_hash (h ++ le_bytes 8 n));
  point := toy_point;
  p_zero := to_point 0;
  p_add x y := to_point (`x + `y);
  p_sub x y := to_point (`x - `y);
  p_smul a x := to_point (a * `x);
  gen_B := to_point 1;
  gen_B_blinding := to_point (2 ^ 64);
  compress x := le_bytes 32 (`x);
  decompress c := Some (to_point (le_value c));
|}.

Lemma toy_point_eq (x y : toy_point) : `x `mod` group_order = `y `mod` group_order → x = y.
Proof.
  destruct x as [x Hx], y as [y Hy]. simpl. intros E. apply sig_eq_pi; [apply _|]. simpl.
  apply bool_decide_eq_true in Hx, Hy. by rewrite !Z.mod_small in E.
Qed.

Ltac mod_ring :=
  intros; apply toy_point_eq; cbn [proj1_sig to_point];
  rewrite ?Zmod_mod, ?Zplus_mod_idemp_l, ?Zplus_mod_idemp_r, ?Zmult_mod_idemp_l, ?Zmult_mod_idemp_r,
    ?Zmod_mod; f_equal; try ring.

Lemma toy_crypto_laws : CryptoLaws toy_crypto.
Proof.
  constructor; cbn -[toy_hash le_bytes le_value group_order Z.mul Z.add Z.sub].
  - intros m. apply length_le_bytes.
  - intros h n d [= <-]. apply length_le_bytes.
  - mod_ring.
  - mod_ring.
  - mod_ring.
  - mod_ring.
  - mod_ring.
  - mod_ring.
  - mod_ring.
  - intros [x Hx]. f_equal. apply toy_point_eq. cbn [proj1_sig to_point].
    apply bool_decide_eq_true in Hx. rewrite Zmod_mod, le_value_bytes_small; [done|].
    unfold group_order in Hx. lia.
  - intros [x Hx]. apply length_le_bytes.
Qed.
