(* ===== verification/Pow.v ===== *)
(** * Proof-of-work target

    [PowCheckTarget] and [DifficultyToTarget] against integer arithmetic:
    the byte-wise comparison is the order of the 256-bit integers, and the
    limb-wise long division computes [floor((2^256 - 1) / difficulty)]. *)

From S2P Require Import Prelude Bytes Crypto.

(** ** Comparison *)

Lemma PowCheckTarget_be_value hash target :
  length hash = length target →
  PowCheckTarget hash target = (be_value hash <=? be_value target).
Proof.
  revert target. induction hash as [|h hash IH]; intros [|t target]; try done.
  intros [= Hlen]. cbn [PowCheckTarget].
  rewrite !be_value_cons, Hlen, (IH target Hlen).
  pose proof (be_value_range hash) as Hh. pose proof (be_value_range target) as Ht.
  rewrite Hlen in Hh. set (p := 256 ^ Z.of_nat (length target)) in *.
  destruct (Z.ltb_spec (Z_of_byte h) (Z_of_byte t)).
  { symmetry. apply Z.leb_le. nia. }
  destruct (Z.ltb_spec (Z_of_byte t) (Z_of_byte h)).
  { symmetry. apply Z.leb_gt. nia. }
  assert (Z_of_byte h = Z_of_byte t) as -> by lia.
  destruct (Z.leb_spec (be_value hash) (be_value target)); symmetry;
    [apply Z.leb_le|apply Z.leb_gt]; lia.
Qed.

(** ** Long division *)

Fixpoint limbs_value (limbs : list Z) : Z :=
  match limbs with
  | [] => 0
  | limb :: limbs => limb * (2 ^ 64) ^ Z.of_nat (length limbs) + limbs_value limbs
  end.

Lemma lor_shiftl_add r l : 0 <= l < 2 ^ 64 → Z.lor (Z.shiftl r 64) l = r * 2 ^ 64 + l.
Proof.
  intros Hl. rewrite <- Z.shiftl_mul_pow2, <- Z.add_lor_land by lia.
  enough (Z.land (Z.shiftl r 64) l = 0) by lia.
  apply Z.bits_inj'. intros n Hn. rewrite Z.land_spec, Z.bits_0.
  destruct (Z.ltb_spec n 64).
  - by rewrite Z.shiftl_spec_low by lia.
  - rewrite <- (Z.mod_small l (2 ^ 64)) by lia.
    by rewrite Z.mod_pow2_bits_high, andb_false_r by lia.
Qed.

Lemma limbs_value_range limbs :
  Forall is_u64 limbs → 0 <= limbs_value limbs < (2 ^ 64) ^ Z.of_nat (length limbs).
Proof.
  induction 1 as [|l limbs Hl _ IH]; cbn [limbs_value length]; [done|].
  rewrite Nat2Z.inj_succ, Z.pow_succ_r by lia. unfold_ints. nia.
Qed.

Lemma length_div_limbs d rem limbs : length (div_limbs d rem limbs) = length limbs.
Proof. revert rem. induction limbs; intros; simpl; auto. Qed.

Lemma div_limbs_u64 d rem limbs : Forall is_u64 (div_limbs d rem limbs).
Proof.
  revert rem. induction limbs; intros; simpl; constructor; auto using u64_range.
Qed.

Lemma div_limbs_value d rem limbs :
  0 <= rem < d → Forall is_u64 limbs →
  limbs_value (div_limbs d rem limbs)
  = (rem * (2 ^ 64) ^ Z.of_nat (length limbs) + limbs_value limbs) `div` d.
Proof.
  intros Hrem Hl. revert rem Hrem. induction Hl as [|l limbs Hl Hls IH]; intros rem Hrem.
  { simpl. rewrite Z.mul_1_r, Z.add_0_r. symmetry. by apply Z.div_small. }
  cbn [div_limbs limbs_value length]. rewrite length_div_limbs, lor_shiftl_add by apply Hl.
  set (cur := rem * 2 ^ 64 + l).
  assert (0 <= cur < d * 2 ^ 64) by (unfold cur; unfold_ints; nia).
  rewrite IH by (apply Z.mod_pos_bound; lia).
  rewrite u64_small by (split; [apply Z.div_pos|apply Z.div_lt_upper_bound]; lia).
  rewrite Nat2Z.inj_succ, Z.pow_succ_r by lia.
  set (p := (2 ^ 64) ^ Z.of_nat (length limbs)).
  replace (rem * (2 ^ 64 * p) + (l * p + limbs_value limbs))
    with (cur * p + limbs_value limbs) by (unfold cur; lia).
  rewrite (Z.div_mod cur d) at 3 by lia.
  replace ((d * (cur `div` d) + cur `mod` d) * p + limbs_value limbs)
    with (cur `mod` d * p + limbs_value limbs + (cur `div` d * p) * d) by lia.
  rewrite Z.div_add by lia. lia.
Qed.

Lemma be_value_limbs limbs :
  Forall is_u64 limbs → be_value (concat (be_bytes 8 <$> limbs)) = limbs_value limbs.
Proof.
  induction 1 as [|l limbs Hl _ IH]; [done|].
  rewrite fmap_cons. cbn [concat limbs_value]. rewrite be_value_app, IH.
  rewrite be_value_bytes_small by (unfold_ints; simpl; lia).
  f_equal. f_equal. clear. induction limbs as [|l limbs IH]; [done|].
  rewrite fmap_cons. cbn [concat length].
  rewrite length_app, length_be_bytes, Nat2Z.inj_add, Z.pow_add_r, IH by lia.
  rewrite (Nat2Z.inj_succ (length limbs)), (Z.pow_succ_r (2 ^ 64)) by lia. reflexivity.
Qed.

Lemma DifficultyToTarget_length d : length (DifficultyToTarget d) = 32%nat.
Proof.
  unfold DifficultyToTarget. destruct (d =? 0); [done|].
  cbn [replicate div_limbs fmap list_fmap concat].
  by rewrite !length_app, !length_be_bytes.
Qed.

Lemma DifficultyToTarget_value d :
  0 < d → be_value (DifficultyToTarget d) = (2 ^ 256 - 1) `div` d.
Proof.
  intros Hd. unfold DifficultyToTarget. rewrite (proj2 (Z.eqb_neq d 0)) by lia.
  rewrite be_value_limbs by apply div_limbs_u64.
  rewrite div_limbs_value by (lia || (repeat constructor; unfold_ints; lia)).
  done.
Qed.
