(* ===== verification/Transaction.v ===== *)
(** * Transactions and their wire format

    The transaction of [transaction.go], its canonical binary encoding
    ([Serialize], the signing prefix, [Size]) and the parser
    [DeserializeTx].  The serializers are the buffer writes of the source;
    [encode] is the format as a concatenation of fields. *)

From S2P Require Import Prelude Bytes Crypto.

Definition MemoSize : nat := 128.

Record TxOutput : Type := MkTxOutput {
  Commitment : bytes;       (* [32]byte *)
  PublicKey : bytes;        (* [32]byte *)
  RangeProof : bytes;
  EncryptedAmount : bytes;  (* [8]byte *)
  EncryptedMemo : bytes;    (* [MemoSize]byte *)
}.

Record TxInput : Type := MkTxInput {
  KeyImage : bytes;                (* [32]byte *)
  RingMembers : list bytes;        (* [][32]byte *)
  RingCommitments : list bytes;    (* [][32]byte *)
  PseudoOutput : bytes;            (* [32]byte *)
  RingSignature : bytes;
}.

Record Transaction : Type := MkTransaction {
  Version : Z;              (* uint8 *)
  Inputs : list TxInput;
  Outputs : list TxOutput;
  Fee : Z;                  (* uint64 *)
  TxPublicKey : bytes;      (* [32]byte *)
}.

#[global] Instance TxOutput_eq_dec : EqDecision TxOutput.
Proof. solve_decision. Defined.
#[global] Instance TxInput_eq_dec : EqDecision TxInput.
Proof. solve_decision. Defined.
#[global] Instance Transaction_eq_dec : EqDecision Transaction.
Proof. solve_decision. Defined.

Definition IsCoinbase (tx : Transaction) : bool := bool_decide (Inputs tx = []).

Definition key_images (tx : Transaction) : list bytes := KeyImage <$> Inputs tx.

(** ** Well-formedness

    What the Go types guarantee: array lengths and integer ranges (slices
    stay below 4 GiB). *)

Definition wf_output (o : TxOutput) : Prop :=
  length (Commitment o) = 32%nat ∧ length (PublicKey o) = 32%nat ∧
  length (EncryptedAmount o) = 8%nat ∧ length (EncryptedMemo o) = MemoSize ∧
  is_u32 (Z.of_nat (length (RangeProof o))).

Definition wf_input (i : TxInput) : Prop :=
  length (KeyImage i) = 32%nat ∧ length (PseudoOutput i) = 32%nat ∧
  Forall (λ k, length k = 32%nat) (RingMembers i) ∧
  Forall (λ k, length k = 32%nat) (RingCommitments i) ∧
  is_u32 (Z.of_nat (length (RingMembers i))) ∧
  is_u32 (Z.of_nat (length (RingSignature i))).

Definition wf_tx (tx : Transaction) : Prop :=
  is_u8 (Version tx) ∧ is_u64 (Fee tx) ∧ length (TxPublicKey tx) = 32%nat ∧
  is_u32 (Z.of_nat (length (Inputs tx))) ∧ is_u32 (Z.of_nat (length (Outputs tx))) ∧
  Forall wf_input (Inputs tx) ∧ Forall wf_output (Outputs tx).

#[global] Instance wf_tx_dec tx : Decision (wf_tx tx).
Proof. unfold wf_tx, wf_input, wf_output, is_u8, is_u32, is_u64. apply _. Defined.

(** Every ring has as many commitments as members. *)
Definition rings_match (tx : Transaction) : Prop :=
  Forall (λ i, length (RingCommitments i) = length (RingMembers i)) (Inputs tx).

(** ** Size *)

Definition output_size (out : TxOutput) : nat :=
  32 + 32 + 8 + MemoSize + 4 + length (RangeProof out).

Definition input_size (inp : TxInput) : nat :=
  let ringSize := length (RingMembers inp) in
  32 + 32 + 4 + ringSize * 32 + ringSize * 32 + 4 + length (RingSignature inp).

Definition tx_header_size : nat := 1 + 32 + 4 + 4 + 8.

Definition Size (tx : Transaction) : nat :=
  tx_header_size + sum_list (output_size <$> Outputs tx) + sum_list (input_size <$> Inputs tx).

(** ** Serialization *)

Definition put_len {A} (l : list A) : writer → result writer :=
  w_put 4 (u32 (Z.of_nat (length l))).

Definition write_prefix (tx : Transaction) : writer → result writer :=
  w_put 1 (Version tx) ≫>
  w_copy (TxPublicKey tx) 32 ≫>
  put_len (Inputs tx) ≫>
  put_len (Outputs tx) ≫>
  w_put 8 (Fee tx).

Definition write_output (out : TxOutput) : writer → result writer :=
  w_copy (PublicKey out) 32 ≫>
  w_copy (Commitment out) 32 ≫>
  w_copy (EncryptedAmount out) 8 ≫>
  w_copy (EncryptedMemo out) MemoSize ≫>
  put_len (RangeProof out) ≫>
  w_copy (RangeProof out) (length (RangeProof out)).

Definition write_input (inp : TxInput) : writer → result writer :=
  w_copy (KeyImage inp) 32 ≫>
  w_copy (PseudoOutput inp) 32 ≫>
  put_len (RingMembers inp) ≫>
  w_each (λ pk, w_copy pk 32) (RingMembers inp) ≫>
  w_each (λ c, w_copy c 32) (RingCommitments inp) ≫>
  put_len (RingSignature inp) ≫>
  w_copy (RingSignature inp) (length (RingSignature inp)).

Definition Serialize (tx : Transaction) : result bytes :=
  let size := Size tx in
  w ← (write_prefix tx ≫> w_each write_output (Outputs tx) ≫> w_each write_input (Inputs tx))
        (Writer (zeros size) 0);
  Ok (w_buf w).

(** The buffer hashed by [SigningHash]: everything but the inputs. *)
Definition SigningPrefix (tx : Transaction) : result bytes :=
  let size := (tx_header_size + sum_list (output_size <$> Outputs tx))%nat in
  w ← (write_prefix tx ≫> w_each write_output (Outputs tx)) (Writer (zeros size) 0);
  Ok (w_buf w).

Section Hashes.
Context `{Crypto}.

Definition TxID (tx : Transaction) : result bytes :=
  b ← Serialize tx; Ok (sha3_256 b).

Definition SigningHash (tx : Transaction) : result bytes :=
  b ← SigningPrefix tx; Ok (sha3_256 b).

End Hashes.

(** ** Parsing *)

Definition maxInputs : Z := 256.
Definition maxOutputs : Z := 256.
Definition maxRingSize : Z := Z.of_nat RingSize.
Definition maxProofSize : Z := 1024.
Definition maxSigSize : Z := 96 + 64 * Z.of_nat RingSize.
Definition minHeaderSize : nat := 1 + 32 + 4 + 4 + 8.

(** [binary.LittleEndian.Uint32(data[off:])] and its wider sibling. *)
Definition read_uint (n : nat) (data : bytes) (off : nat) : result Z :=
  b ← slice data off n; Ok (le_value b).

(** [if off + n > len(data) { return err }] *)
Definition need (data : bytes) (off n : nat) (fmt : string) : result unit :=
  check (bool_decide (length data < off + n)%nat) (Errorf fmt).

Definition parse_output (data : bytes) (off : nat) : result (TxOutput * nat) :=
  need data off (32 + 32 + 8 + MemoSize + 4) "unexpected end of data in output %d";;
  publicKey ← slice data off 32;
  let off := (off + 32)%nat in
  commitment ← slice data off 32;
  let off := (off + 32)%nat in
  encryptedAmount ← slice data off 8;
  let off := (off + 8)%nat in
  encryptedMemo ← slice data off MemoSize;
  let off := (off + MemoSize)%nat in
  proofLen ← read_uint 4 data off;
  let off := (off + 4)%nat in
  check (maxProofSize <? proofLen) (Errorf "range proof size %d exceeds max %d in output %d");;
  let proofLen := Z.to_nat proofLen in
  need data off proofLen "unexpected end of data in output %d range proof";;
  rangeProof ← slice data off proofLen;
  Ok (MkTxOutput commitment publicKey rangeProof encryptedAmount encryptedMemo,
      (off + proofLen)%nat).

Fixpoint parse_keys (n : nat) (data : bytes) (off : nat) : result (list bytes * nat) :=
  match n with
  | O => Ok ([], off)
  | S n =>
      k ← slice data off 32;
      '(ks, off) ← parse_keys n data (off + 32);
      Ok (k :: ks, off)
  end.

Definition parse_input (data : bytes) (off : nat) : result (TxInput * nat) :=
  need data off (32 + 32 + 4) "unexpected end of data in input %d";;
  keyImage ← slice data off 32;
  let off := (off + 32)%nat in
  pseudoOutput ← slice data off 32;
  let off := (off + 32)%nat in
  ringSize ← read_uint 4 data off;
  let off := (off + 4)%nat in
  check (maxRingSize <? ringSize) (Errorf "ring size %d exceeds max %d in input %d");;
  let ringSize := Z.to_nat ringSize in
  let needed := (ringSize * 32)%nat in
  need data off needed "unexpected end of data in input %d ring members";;
  '(ringMembers, off) ← parse_keys ringSize data off;
  need data off needed "unexpected end of data in input %d ring commitments";;
  '(ringCommitments, off) ← parse_keys ringSize data off;
  need data off 4 "unexpected end of data in input %d signature length";;
  sigLen ← read_uint 4 data off;
  let off := (off + 4)%nat in
  check (maxSigSize <? sigLen) (Errorf "signature size %d exceeds max %d in input %d");;
  let sigLen := Z.to_nat sigLen in
  need data off sigLen "unexpected end of data in input %d signature";;
  ringSignature ← slice data off sigLen;
  Ok (MkTxInput keyImage ringMembers ringCommitments pseudoOutput ringSignature,
      (off + sigLen)%nat).

(** [for i := 0; i < n; i++ { xs[i] = parse }] *)
Fixpoint parse_n {A} (parse : bytes → nat → result (A * nat)) (n : nat) (data : bytes) (off : nat)
    : result (list A * nat) :=
  match n with
  | O => Ok ([], off)
  | S n =>
      '(x, off) ← parse data off;
      '(xs, off) ← parse_n parse n data off;
      Ok (x :: xs, off)
  end.

Definition DeserializeTx (data : bytes) : result Transaction :=
  check (bool_decide (length data < minHeaderSize)%nat) (Errorf "tx data too short: %d bytes");;
  let off := 0%nat in
  version ← read_uint 1 data off;
  let off := (off + 1)%nat in
  txPubKey ← slice data off 32;
  let off := (off + 32)%nat in
  inputCount ← read_uint 4 data off;
  let off := (off + 4)%nat in
  check (maxInputs <? inputCount) (Errorf "input count %d exceeds max %d");;
  outputCount ← read_uint 4 data off;
  let off := (off + 4)%nat in
  check (maxOutputs <? outputCount) (Errorf "output count %d exceeds max %d");;
  fee ← read_uint 8 data off;
  let off := (off + 8)%nat in
  '(outputs, off) ← parse_n parse_output (Z.to_nat outputCount) data off;
  '(inputs, off) ← parse_n parse_input (Z.to_nat inputCount) data off;
  check (bool_decide (off ≠ length data)) (Errorf "trailing bytes after tx parse: %d");;
  Ok (MkTransaction version inputs outputs fee txPubKey).

(** ** The format as a concatenation of fields *)

Definition encode_len {A} (l : list A) : bytes := le_bytes 4 (Z.of_nat (length l)).

Arguments encode_len : simpl never.

Definition encode_prefix (tx : Transaction) : bytes :=
  le_bytes 1 (Version tx) ++ TxPublicKey tx ++ encode_len (Inputs tx) ++
  encode_len (Outputs tx) ++ le_bytes 8 (Fee tx).

Definition encode_output (out : TxOutput) : bytes :=
  PublicKey out ++ Commitment out ++ EncryptedAmount out ++ EncryptedMemo out ++
  encode_len (RangeProof out) ++ RangeProof out.

Definition encode_input (inp : TxInput) : bytes :=
  KeyImage inp ++ PseudoOutput inp ++ encode_len (RingMembers inp) ++
  concat (RingMembers inp) ++ concat (RingCommitments inp) ++
  encode_len (RingSignature inp) ++ RingSignature inp.

Definition encode (tx : Transaction) : bytes :=
  encode_prefix tx ++ concat (encode_output <$> Outputs tx) ++ concat (encode_input <$> Inputs tx).
