(* ===== verification/TxCodec.v ===== *)
(** * The transaction codec is canonical

    [Serialize] fills its buffer exactly and without a panic, its length is
    [Size], and [DeserializeTx] is its inverse in both directions: every
    transaction within the parser's limits survives a round trip, and every
    byte string the parser accepts is the serialization of what it returns. *)

From S2P Require Import Prelude Bytes Crypto Transaction.

(** ** Lengths *)

Lemma length_encode_len {A} (l : list A) : length (encode_len l) = 4%nat.
Proof. apply length_le_bytes. Qed.

Lemma length_concat_keys (ks : list bytes) :
  Forall (λ k, length k = 32%nat) ks → length (concat ks) = (length ks * 32)%nat.
Proof. induction 1 as [|k ks Hk _ IH]; simpl; [done|]. rewrite length_app. lia. Qed.

Lemma length_encode_output o : wf_output o → length (encode_output o) = output_size o.
Proof.
  intros (? & ? & ? & ? & ?). unfold encode_output, output_size.
  rewrite !length_app, length_encode_len. lia.
Qed.

Lemma length_encode_input i :
  wf_input i → length (RingCommitments i) = length (RingMembers i) →
  length (encode_input i) = input_size i.
Proof.
  intros (? & ? & Hm & Hc & ? & ?) Heq. unfold encode_input, input_size.
  rewrite !length_app, !length_encode_len, !length_concat_keys by done. lia.
Qed.

Lemma length_encode_prefix tx : wf_tx tx → length (encode_prefix tx) = tx_header_size.
Proof.
  intros (? & ? & ? & _). unfold encode_prefix, tx_header_size.
  rewrite !length_app, !length_encode_len, !length_le_bytes. lia.
Qed.

Lemma length_concat_fmap {A} (f : A → bytes) (g : A → nat) l :
  Forall (λ x, length (f x) = g x) l → length (concat (f <$> l)) = sum_list (g <$> l).
Proof.
  induction 1 as [|x l Hx _ IH]; [done|].
  rewrite !fmap_cons. cbn [concat]. rewrite length_app, IH, Hx. done.
Qed.

Lemma length_encode_outputs l :
  Forall wf_output l → length (concat (encode_output <$> l)) = sum_list (output_size <$> l).
Proof. intros. apply length_concat_fmap. eauto using Forall_impl, length_encode_output. Qed.

Lemma length_encode tx : wf_tx tx → rings_match tx → length (encode tx) = Size tx.
Proof.
  intros Hwf Hm. pose proof Hwf as (_ & _ & _ & _ & _ & Hi & Ho). unfold encode, Size.
  rewrite !length_app, length_encode_prefix, length_encode_outputs by done.
  rewrite (length_concat_fmap encode_input input_size); [lia|].
  eapply Forall_impl; [apply Forall_and; split; [exact Hi|exact Hm]|].
  intros i [? ?]. by apply length_encode_input.
Qed.

(** ** The serializers write the format *)

Lemma writes_put_len {A} (l : list A) :
  is_u32 (Z.of_nat (length l)) → writes (put_len l) (encode_len l).
Proof. intros. unfold put_len, encode_len. rewrite u32_small by done. apply writes_put. Qed.

Lemma writes_keys (ks : list bytes) :
  Forall (λ k, length k = 32%nat) ks → writes (w_each (λ k, w_copy k 32) ks) (concat ks).
Proof.
  intros Hk. rewrite <- (list_fmap_id ks) at 2.
  apply (writes_each _ id (λ k, length k = 32%nat)); [|done].
  intros x Hx. by apply writes_copy.
Qed.

#[export] Hint Resolve writes_put_len writes_keys : writes.

Lemma writes_output o : wf_output o → writes (write_output o) (encode_output o).
Proof.
  intros (? & ? & ? & ? & ?). unfold write_output, encode_output. auto 10 with writes.
Qed.

Lemma writes_input i : wf_input i → writes (write_input i) (encode_input i).
Proof.
  intros (? & ? & ? & ? & ? & ?). unfold write_input, encode_input. auto 10 with writes.
Qed.

Lemma writes_prefix tx : wf_tx tx → writes (write_prefix tx) (encode_prefix tx).
Proof.
  intros (? & ? & ? & ? & ? & _). unfold write_prefix, encode_prefix. auto 10 with writes.
Qed.

Lemma writes_outputs tx :
  wf_tx tx → writes (w_each write_output (Outputs tx)) (concat (encode_output <$> Outputs tx)).
Proof.
  intros (_ & _ & _ & _ & _ & _ & Ho). by apply (writes_each _ _ wf_output); [apply writes_output|].
Qed.

Lemma Serialize_encode tx : wf_tx tx → rings_match tx → Serialize tx = Ok (encode tx).
Proof.
  intros Hwf Hm. unfold Serialize. rewrite <- length_encode by done.
  apply writes_all. apply writes_seq; [by apply writes_prefix|].
  apply writes_seq; [by apply writes_outputs|].
  destruct Hwf as (_ & _ & _ & _ & _ & Hi & _).
  by apply (writes_each _ _ wf_input); [apply writes_input|].
Qed.

Lemma SigningPrefix_encode tx :
  wf_tx tx → SigningPrefix tx = Ok (encode_prefix tx ++ concat (encode_output <$> Outputs tx)).
Proof.
  intros Hwf. unfold SigningPrefix.
  assert (tx_header_size + sum_list (output_size <$> Outputs tx)
    = length (encode_prefix tx ++ concat (encode_output <$> Outputs tx)))%nat as ->.
  { pose proof Hwf as (_ & _ & _ & _ & _ & _ & Ho).
    by rewrite length_app, length_encode_prefix, length_encode_outputs. }
  apply writes_all. apply writes_seq; [by apply writes_prefix|by apply writes_outputs].
Qed.

(** ** Reading what was written *)

Definition at_off (data : bytes) (off : nat) (rest : bytes) : Prop :=
  drop off data = rest ∧ (off + length rest = length data)%nat.

Lemma at_off_eq data off off' rest : at_off data off rest → off = off' → at_off data off' rest.
Proof. by intros ? <-. Qed.

Lemma at_off_slice data off x rest :
  at_off data off (x ++ rest) →
  slice data off (length x) = Ok x ∧ at_off data (off + length x) rest.
Proof.
  intros [Hd Hl]. rewrite length_app in Hl. unfold slice, at_off.
  rewrite decide_True by lia. rewrite Hd, take_app_length. split; [done|].
  rewrite <- drop_drop, Hd, drop_app_length. split; [done|lia].
Qed.

Lemma at_off_field data off n x rest :
  length x = n → at_off data off (x ++ rest) →
  slice data off n = Ok x ∧ at_off data (off + n) rest.
Proof. intros <-. apply at_off_slice. Qed.

Lemma at_off_uint data off n v rest :
  0 <= v < 256 ^ Z.of_nat n → at_off data off (le_bytes n v ++ rest) →
  read_uint n data off = Ok v ∧ at_off data (off + n) rest.
Proof.
  intros Hv Ha. unfold read_uint.
  destruct (at_off_field data off n _ rest (length_le_bytes n v) Ha) as [-> ?].
  simpl. by rewrite le_value_bytes_small.
Qed.

Lemma at_off_len {A} data off (l : list A) rest :
  is_u32 (Z.of_nat (length l)) → at_off data off (encode_len l ++ rest) →
  read_uint 4 data off = Ok (Z.of_nat (length l)) ∧ at_off data (off + 4) rest.
Proof. intros Hl. apply at_off_uint. unfold_ints. simpl. lia. Qed.

Lemma need_ok data off n rest fmt :
  at_off data off rest → (n <= length rest)%nat → need data off n fmt = Ok tt.
Proof. intros [_ Hl] ?. apply check_Ok, bool_decide_eq_false. lia. Qed.

Lemma parse_keys_encode ks data off rest :
  Forall (λ k, length k = 32%nat) ks → at_off data off (concat ks ++ rest) →
  parse_keys (length ks) data off = Ok (ks, (off + length ks * 32)%nat) ∧
  at_off data (off + length ks * 32) rest.
Proof.
  intros Hk. revert off. induction Hk as [|k ks Hk _ IH]; intros off Ha.
  { simpl in *. by rewrite Nat.add_0_r. }
  cbn [concat length parse_keys] in *. rewrite <- app_assoc in Ha.
  apply (at_off_field _ _ 32) in Ha as [-> Ha]; [|done]. simpl.
  apply IH in Ha as [-> Ha]. simpl.
  replace (off + 32 + length ks * 32)%nat with (off + S (length ks) * 32)%nat in * by lia. done.
Qed.

(** The limits the parser enforces. *)
Definition output_in_limits (o : TxOutput) : Prop :=
  Z.of_nat (length (RangeProof o)) <= maxProofSize.

Definition input_in_limits (i : TxInput) : Prop :=
  Z.of_nat (length (RingMembers i)) <= maxRingSize ∧
  length (RingCommitments i) = length (RingMembers i) ∧
  Z.of_nat (length (RingSignature i)) <= maxSigSize.

Definition tx_in_limits (tx : Transaction) : Prop :=
  Z.of_nat (length (Inputs tx)) <= maxInputs ∧ Z.of_nat (length (Outputs tx)) <= maxOutputs ∧
  Forall input_in_limits (Inputs tx) ∧ Forall output_in_limits (Outputs tx).

(** One field of a parser, read off the front of what is left. *)
Ltac read_with lem :=
  match goal with
  | Ha : at_off _ _ _ |- _ => apply lem in Ha as [-> Ha]; [|first [done|assumption]..]; cbn [mbind result_bind]
  end.
Ltac read_field n :=
  match goal with
  | Ha : at_off _ _ _ |- _ =>
      apply (at_off_field _ _ n) in Ha as [-> Ha]; [|done..]; cbn [mbind result_bind]
  end.
Ltac read_need :=
  match goal with
  | Ha : at_off _ _ _ |- _ =>
      rewrite (need_ok _ _ _ _ _ Ha) by
        (rewrite ?length_app, ?length_encode_len, ?length_concat_keys by done; lia);
      cbn [mbind result_bind]
  end.
Ltac read_limit :=
  rewrite (proj2 (Z.ltb_ge _ _)) by done; cbn [check mbind result_bind]; rewrite ?Nat2Z.id.

Lemma tx_in_limits_rings tx : tx_in_limits tx → rings_match tx.
Proof.
  intros (_ & _ & Hi & _). eapply Forall_impl; [exact Hi|]. by intros i (_ & ? & _).
Qed.

Lemma parse_output_encode o data off rest :
  wf_output o → output_in_limits o → at_off data off (encode_output o ++ rest) →
  parse_output data off = Ok (o, (off + length (encode_output o))%nat) ∧
  at_off data (off + length (encode_output o)) rest.
Proof.
  intros Hwf Hlim Ha. rewrite length_encode_output by done.
  destruct Hwf as (Hc & Hp & He & Hm & Hr). unfold output_in_limits in Hlim.
  unfold encode_output in Ha. rewrite <- !app_assoc in Ha. unfold parse_output.
  read_need. read_field 32%nat. read_field 32%nat. read_field 8%nat. read_field MemoSize.
  read_with @at_off_len. read_limit. read_need. read_with at_off_slice.
  unfold output_size. split; [f_equal; f_equal; [by destruct o|lia]|].
  apply (at_off_eq _ _ _ _ Ha). lia.
Qed.

Lemma parse_input_encode i data off rest :
  wf_input i → input_in_limits i → at_off data off (encode_input i ++ rest) →
  parse_input data off = Ok (i, (off + length (encode_input i))%nat) ∧
  at_off data (off + length (encode_input i)) rest.
Proof.
  intros Hwf (Hlr & Hlc & Hls) Ha. rewrite length_encode_input by done.
  destruct Hwf as (Hk & Hp & Hm & Hc & Hr & Hs).
  unfold encode_input in Ha. rewrite <- !app_assoc in Ha. unfold parse_input.
  read_need. read_field 32%nat. read_field 32%nat. read_with @at_off_len. read_limit.
  read_need. read_with parse_keys_encode.
  read_need. rewrite <- Hlc in Ha |- *. read_with parse_keys_encode.
  read_need. read_with @at_off_len. read_limit. read_need. read_with at_off_slice.
  rewrite Hlc in *. unfold input_size. split; [f_equal; f_equal; [by destruct i|lia]|].
  apply (at_off_eq _ _ _ _ Ha). lia.
Qed.

Lemma parse_n_encode {A} (parse : bytes → nat → result (A * nat)) (enc : A → bytes)
    (P : A → Prop) l data off rest :
  (∀ x off rest, P x → at_off data off (enc x ++ rest) →
     parse data off = Ok (x, (off + length (enc x))%nat) ∧ at_off data (off + length (enc x)) rest) →
  Forall P l → at_off data off (concat (enc <$> l) ++ rest) →
  ∃ off', parse_n parse (length l) data off = Ok (l, off') ∧ at_off data off' rest.
Proof.
  intros Hp Hl. revert off. induction Hl as [|x l Hx _ IH]; intros off Ha.
  { by exists off. }
  rewrite fmap_cons in Ha. cbn [concat] in Ha. rewrite <- app_assoc in Ha.
  cbn [length parse_n]. apply Hp in Ha as [-> Ha]; [|done]. simpl.
  apply IH in Ha as (off' & -> & Ha). by exists off'.
Qed.

Lemma DeserializeTx_encode tx : wf_tx tx → tx_in_limits tx → DeserializeTx (encode tx) = Ok tx.
Proof.
  intros Hwf (Hni & Hno & Hli & Hlo). unfold DeserializeTx.
  pose proof Hwf as (Hv & Hf & Hpk & Hci & Hco & Hi & Ho).
  assert (at_off (encode tx) 0 (encode tx)) as Ha by done.
  unfold encode at 2 in Ha. unfold encode_prefix in Ha. rewrite <- !app_assoc in Ha.
  rewrite bool_decide_false by
    (unfold encode; rewrite length_app, length_encode_prefix by done;
     unfold minHeaderSize, tx_header_size; lia).
  cbn [check mbind result_bind].
  read_with at_off_uint. read_field 32%nat. read_with @at_off_len. read_limit.
  read_with @at_off_len. read_limit. read_with at_off_uint.
  eapply (parse_n_encode parse_output _ (λ o, wf_output o ∧ output_in_limits o))
    in Ha as (off1 & -> & Ha);
    [|intros ??? [??]; by apply parse_output_encode|by apply Forall_and].
  rewrite <- (app_nil_r (concat (encode_input <$> _))) in Ha. cbn [mbind result_bind].
  eapply (parse_n_encode parse_input _ (λ o, wf_input o ∧ input_in_limits o))
    in Ha as (off2 & -> & Ha);
    [|intros ??? [??]; by apply parse_input_encode|by apply Forall_and].
  cbn [mbind result_bind]. destruct Ha as [_ Ha]. cbn [length] in Ha.
  rewrite bool_decide_false by (intros Hne; apply Hne; lia). simpl. by destruct tx.
Qed.

(** ** What was read is what was written *)

Definition consumed (data : bytes) (off off' : nat) (out : bytes) : Prop :=
  off' = (off + length out)%nat ∧ (off' <= length data)%nat ∧
  take off' data = take off data ++ out.

Lemma consumed_nil data off : (off <= length data)%nat → consumed data off off [].
Proof. intros. unfold consumed. rewrite app_nil_r. simpl. split_and!; [lia|done|done]. Qed.

Lemma consumed_app data a b c o1 o2 :
  consumed data a b o1 → consumed data b c o2 → consumed data a c (o1 ++ o2).
Proof.
  intros (Hb & ? & H1) (Hc & ? & H2). unfold consumed.
  rewrite length_app, H2, H1, app_assoc. split_and!; [lia|lia|done].
Qed.

Lemma slice_consumed data off n x :
  slice data off n = Ok x → length x = n ∧ consumed data off (off + n) x.
Proof. intros (Hle & Hl & Ht)%slice_Ok. subst n. done. Qed.

Lemma read_uint_consumed n data off v :
  read_uint n data off = Ok v →
  0 <= v < 256 ^ Z.of_nat n ∧ consumed data off (off + n) (le_bytes n v).
Proof.
  unfold read_uint. intros. inv_ok.
  match goal with H : slice _ _ _ = _ |- _ => apply slice_consumed in H as [<- Hc] end.
  split; [apply le_value_range|]. by rewrite le_bytes_value.
Qed.

Lemma read_len_consumed data off v :
  read_uint 4 data off = Ok v →
  is_u32 v ∧ ∀ {A} (l : list A), length l = Z.to_nat v →
    consumed data off (off + 4) (encode_len l).
Proof.
  intros [Hv Hc]%read_uint_consumed. split; [done|]. intros A l Hl.
  unfold encode_len. rewrite Hl, Z2Nat.id by lia. done.
Qed.

Lemma parse_keys_consumed n data off ks off' :
  (off <= length data)%nat → parse_keys n data off = Ok (ks, off') →
  length ks = n ∧ Forall (λ k, length k = 32%nat) ks ∧ consumed data off off' (concat ks).
Proof.
  revert off ks off'. induction n as [|n IH]; intros off ks off' Hle Hp; cbn [parse_keys] in Hp.
  { inv_ok. simplify_eq. auto using consumed_nil. }
  apply bind_Ok in Hp as (k & Hk & Hp). apply bind_Ok in Hp as ([ks' o] & Hks & Hp).
  inv_ok. simplify_eq. apply slice_consumed in Hk as [Hl Hc].
  apply IH in Hks as (<- & Hf & Hc'); [|apply Hc]. split_and!; [done|by constructor|].
  by eapply consumed_app.
Qed.

Lemma need_Ok data off n fmt u : need data off n fmt = Ok u → (off + n <= length data)%nat.
Proof. intros H%check_Ok'. apply bool_decide_eq_false in H. lia. Qed.

Ltac simpl_fields :=
  cbn [Commitment PublicKey RangeProof EncryptedAmount EncryptedMemo KeyImage RingMembers
       RingCommitments PseudoOutput RingSignature Version Inputs Outputs Fee TxPublicKey] in *.

(** Breaks a successful parse into its reads, one [consumed] fact per field. *)
Ltac inv_parse :=
  repeat match goal with
  | H : mbind _ _ = Ok _ |- _ => apply bind_Ok in H as (? & ? & H)
  | H : Ok _ = Ok _ |- _ => injection H as H; subst
  | H : need _ _ _ _ = Ok _ |- _ => apply need_Ok in H
  | H : check (_ <? _) _ = Ok _ |- _ => apply check_Ok', Z.ltb_ge in H
  | H : slice _ _ _ = Ok _ |- _ => apply slice_consumed in H as [? H]
  | H : read_uint 4 _ _ = Ok _ |- _ => apply read_len_consumed in H as [? H]
  | p : _ * _ |- _ => destruct p
  | H : (_, _) = (_, _) |- _ => injection H as ? ?; subst
  end.

Ltac consume_field :=
  match goal with
  | H : consumed ?d ?a _ ?x |- consumed ?d ?a _ ?x => exact H
  | H : ∀ A (l : list A), _ → consumed ?d ?a _ _ |- consumed ?d ?a _ (encode_len _) =>
      apply H; done
  end.
Ltac consume := repeat (eapply consumed_app; [consume_field|]); consume_field.

Lemma parse_output_consumed data off o off' :
  parse_output data off = Ok (o, off') →
  wf_output o ∧ output_in_limits o ∧ consumed data off off' (encode_output o).
Proof.
  unfold parse_output. intros Hp. inv_parse.
  unfold wf_output, output_in_limits, encode_output; simpl_fields.
  split_and!; try done; [unfold_ints; lia|unfold_ints; lia|].
  consume.
Qed.

Lemma parse_input_consumed data off i off' :
  parse_input data off = Ok (i, off') →
  wf_input i ∧ input_in_limits i ∧ consumed data off off' (encode_input i).
Proof.
  unfold parse_input. intros Hp. inv_parse.
  repeat match goal with
  | H : parse_keys _ _ _ = Ok _ |- _ =>
      apply parse_keys_consumed in H as (? & ? & ?); [|lia]
  end.
  unfold wf_input, input_in_limits, encode_input; simpl_fields.
  split_and!; try done; try (unfold_ints; lia).
  consume.
Qed.

Lemma parse_n_consumed {A} (parse : bytes → nat → result (A * nat)) (enc : A → bytes)
    (P : A → Prop) n data off l off' :
  (∀ off x off', parse data off = Ok (x, off') → P x ∧ consumed data off off' (enc x)) →
  (off <= length data)%nat → parse_n parse n data off = Ok (l, off') →
  length l = n ∧ Forall P l ∧ consumed data off off' (concat (enc <$> l)).
Proof.
  intros Hp. revert off l off'. induction n as [|n IH]; intros off l off' Hle Hn; cbn [parse_n] in Hn.
  { inv_parse. auto using consumed_nil. }
  inv_parse. match goal with H : parse _ _ = _ |- _ => apply Hp in H as [? Hc] end.
  match goal with H : parse_n _ _ _ _ = _ |- _ => apply IH in H as (<- & ? & ?); [|apply Hc] end.
  split_and!; [done|by constructor|]. rewrite fmap_cons. by eapply consumed_app.
Qed.

Lemma DeserializeTx_consumed data tx :
  DeserializeTx data = Ok tx → wf_tx tx ∧ tx_in_limits tx ∧ data = encode tx.
Proof.
  unfold DeserializeTx. intros Hd.
  apply bind_Ok in Hd as (? & Hlen & Hd). apply check_Ok', bool_decide_eq_false in Hlen.
  inv_parse.
  match goal with H : check (bool_decide _) _ = _ |- _ =>
    apply check_Ok', bool_decide_eq_false, dec_stable in H; subst end.
  repeat match goal with H : read_uint _ _ _ = _ |- _ => apply read_uint_consumed in H as [? H] end.
  match goal with H : parse_n parse_output _ _ _ = _ |- _ =>
    apply (parse_n_consumed _ encode_output (λ o, wf_output o ∧ output_in_limits o))
      in H as (? & Ho & Hco); [|intros ??? (?&?&?)%parse_output_consumed; by split_and!|unfold minHeaderSize in Hlen; lia] end.
  match goal with H : parse_n parse_input _ _ _ = _ |- _ =>
    apply (parse_n_consumed _ encode_input (λ o, wf_input o ∧ input_in_limits o))
      in H as (? & Hi & Hci); [|intros ??? (?&?&?)%parse_input_consumed; by split_and!|apply Hco] end.
  apply Forall_and in Ho as [? ?], Hi as [? ?].
  unfold wf_tx, tx_in_limits; simpl_fields.
  split_and!; try done; try (unfold_ints; lia).
  match goal with |- data = encode ?tx => enough (consumed data 0 (length data) (encode tx)) as (_ & _ & Ht) end.
  { by rewrite firstn_all in Ht. }
  unfold encode, encode_prefix; simpl_fields. rewrite <- !app_assoc.
  consume.
Qed.

(** ** The parser never panics *)

Lemma safe_slice data off n : (off + n <= length data)%nat → safe (slice data off n).
Proof. intros. destruct (slice_no_panic data off n) as [x ->]; done. Qed.

Lemma safe_read_uint n data off : (off + n <= length data)%nat → safe (read_uint n data off).
Proof. intros. apply safe_bind; [by apply safe_slice|]. done. Qed.

Lemma safe_need data off n fmt : safe (need data off n fmt).
Proof. apply safe_check. Qed.

Lemma safe_parse_keys n data off :
  (off + n * 32 <= length data)%nat → safe (parse_keys n data off).
Proof.
  revert off. induction n as [|n IH]; intros off Hle; cbn [parse_keys]; [done|].
  apply safe_bind; [apply safe_slice; lia|]. intros k _.
  apply safe_bind; [apply IH; lia|]. by intros [ks o] _.
Qed.

Lemma parse_keys_off n data off ks off' :
  parse_keys n data off = Ok (ks, off') → off' = (off + n * 32)%nat.
Proof.
  revert off ks off'. induction n as [|n IH]; intros off ks off' Hp; cbn [parse_keys] in Hp.
  { inv_parse. lia. }
  inv_parse. match goal with H : parse_keys _ _ _ = _ |- _ => apply IH in H end. lia.
Qed.

#[export] Hint Resolve safe_need : safe.

Ltac safe_step :=
  match goal with
  | |- safe (mbind _ _) => apply safe_bind; [|intros ? ?]
  | H : need _ _ _ _ = Ok _ |- _ => apply need_Ok in H
  | H : parse_keys _ _ _ = Ok _ |- _ => apply parse_keys_off in H
  | p : _ * _ |- _ => destruct p
  | |- safe (slice _ _ _) => apply safe_slice; lia
  | |- safe (read_uint _ _ _) => apply safe_read_uint; lia
  | |- safe (parse_keys _ _ _) => apply safe_parse_keys; lia
  | |- _ => solve [auto with safe]
  end.

Lemma safe_parse_output data off : safe (parse_output data off).
Proof. unfold parse_output. repeat safe_step. Qed.

Lemma safe_parse_input data off : safe (parse_input data off).
Proof. unfold parse_input. repeat safe_step. Qed.

Lemma safe_parse_n {A} (parse : bytes → nat → result (A * nat)) n data off :
  (∀ off, safe (parse data off)) → safe (parse_n parse n data off).
Proof.
  intros Hp. revert off. induction n as [|n IH]; intros off; cbn [parse_n]; [done|].
  apply safe_bind; [done|]. intros [x o] _. apply safe_bind; [done|]. by intros [xs o'] _.
Qed.

#[export] Hint Resolve safe_parse_output safe_parse_input safe_parse_n : safe.

Lemma safe_DeserializeTx data : safe (DeserializeTx data).
Proof.
  unfold DeserializeTx. apply safe_bind; [auto with safe|].
  intros ? Hlen%check_Ok'%bool_decide_eq_false. unfold minHeaderSize in Hlen.
  repeat safe_step.
Qed.

(** ** Theorems *)

(** A transaction with one output and one input, for the witnesses. *)
Definition example_output : TxOutput :=
  MkTxOutput (replicate 32 Init.Byte.x01) (replicate 32 Init.Byte.x02) (replicate 3 Init.Byte.x03)
             (replicate 8 Init.Byte.x04) (replicate 128 Init.Byte.x05).
Definition example_input : TxInput :=
  MkTxInput (replicate 32 Init.Byte.x06) [replicate 32 Init.Byte.x07; replicate 32 Init.Byte.x08]
            [replicate 32 Init.Byte.x09; replicate 32 Init.Byte.x0a]
            (replicate 32 Init.Byte.x0b) (replicate 5 Init.Byte.x0c).
Definition example_tx : Transaction :=
  MkTransaction 1 [example_input] [example_output] 1000 (replicate 32 Init.Byte.x0d).

Lemma example_tx_wf : wf_tx example_tx ∧ tx_in_limits example_tx.
Proof.
  assert (Forall wf_input [example_input] ∧ Forall wf_output [example_output]) as [Hi Ho].
  { split; (constructor; [|done]); repeat split; repeat constructor; vm_compute; congruence. }
  split; repeat split; try done; try (vm_compute; congruence); repeat constructor; vm_compute; congruence.
Qed.

(** C23. Every transaction within the limits of the parser survives the wire:
    [Serialize] returns a buffer, without a panic, of exactly [Size] bytes,
    and [DeserializeTx] of that buffer returns the transaction. *)
Theorem tx_wire_roundtrip tx :
  wf_tx tx → tx_in_limits tx →
  ∃ data, Serialize tx = Ok data ∧ length data = Size tx ∧ DeserializeTx data = Ok tx.
Proof.
  intros Hwf Hlim. pose proof (tx_in_limits_rings tx Hlim). exists (encode tx).
  split_and!; [by apply Serialize_encode|by apply length_encode|by apply DeserializeTx_encode].
Qed.

Lemma tx_wire_roundtrip_witness :
  ∃ data, Serialize example_tx = Ok data ∧ length data = Size example_tx ∧
          DeserializeTx data = Ok example_tx.
Proof. apply tx_wire_roundtrip; apply example_tx_wf. Defined.

(** C22. The accepted encodings are canonical: a byte string that
    [DeserializeTx] accepts is exactly what [Serialize] writes for the parsed
    transaction, so no two byte strings parse to the same transaction and a
    transaction id cannot be changed by re-encoding. *)
Theorem tx_parse_canonical data tx :
  DeserializeTx data = Ok tx → Serialize tx = Ok data ∧ Size tx = length data ∧ wf_tx tx.
Proof.
  intros (Hwf & Hlim & ->)%DeserializeTx_consumed.
  pose proof (tx_in_limits_rings tx Hlim).
  split_and!; [by apply Serialize_encode| |done]. by rewrite length_encode.
Qed.

Lemma tx_parse_canonical_witness :
  DeserializeTx (encode example_tx) = Ok example_tx ∧
  Serialize example_tx = Ok (encode example_tx) ∧
  Size example_tx = length (encode example_tx) ∧ wf_tx example_tx.
Proof.
  assert (DeserializeTx (encode example_tx) = Ok example_tx) as H by (vm_compute; reflexivity).
  split; [exact H|]. exact (tx_parse_canonical _ _ H).
Defined.

(** C25. [DeserializeTx] is total on adversarial input: whatever bytes a peer
    sends, it returns a transaction or an error and never indexes outside
    the buffer. *)
Theorem tx_parse_never_panics data : DeserializeTx data ≠ Panic.
Proof. apply safe_DeserializeTx. Qed.
