(* ===== verification/Block.v ===== *)
(** * Blocks

    Block headers and their two serializations, blocks, block size and the
    merkle tree of [block.go], and the genesis block of each network. *)

From Equations Require Import Equations.
From S2P Require Import Prelude Bytes Crypto Transaction.

(** ** Network parameters ([protocol/params])

    The package-level variables have two settings, before and after
    [InitTestnet]. *)

Class Network : Type := { IsTestnet : bool }.

Definition NetworkID `{Network} : string :=
  if IsTestnet then "blocknet_testnet" else "blocknet_mainnet".
Definition ChainID `{Network} : Z := if IsTestnet then 0x20260216 else 0x20260215.
Definition MemoBlockDomainSep `{Network} : string := NetworkID.

(** ** Constants *)

Definition BlockIntervalSec : Z := 300.
Definition SafeConfirmations : Z := 10.
Definition CoinbaseMaturity : Z := 60.
Definition MaxReorgDepth : Z := 100.
Definition TimestampFuturLimitSec : Z := 2 * 60 * 60.
Definition MaxBlockSize : Z := Z.shiftl 1 20.
Definition LWMAWindow : nat := 60.
Definition MinDifficulty : Z := 4.
Definition LWMAMinSolvetime : Z := 1.
Definition LWMAMaxSolvetime : Z := BlockIntervalSec * 6.
Definition blockHeaderSerializedSize : nat := 4 + 8 + 32 + 32 + 8 + 8 + 8.
Definition blockHeaderSerializedSizeNoNonce : nat := 4 + 8 + 32 + 32 + 8 + 8.

(** ** Headers *)

Record BlockHeader : Type := MkBlockHeader {
  HVersion : Z;       (* uint32 *)
  Height : Z;         (* uint64 *)
  PrevHash : bytes;   (* [32]byte *)
  MerkleRoot : bytes; (* [32]byte *)
  Timestamp : Z;      (* int64 *)
  Difficulty : Z;     (* uint64 *)
  Nonce : Z;          (* uint64 *)
}.

#[global] Instance BlockHeader_eq_dec : EqDecision BlockHeader.
Proof. solve_decision. Defined.

Definition wf_header (h : BlockHeader) : Prop :=
  is_u32 (HVersion h) ∧ is_u64 (Height h) ∧ length (PrevHash h) = 32%nat ∧
  length (MerkleRoot h) = 32%nat ∧ is_i64 (Timestamp h) ∧ is_u64 (Difficulty h) ∧
  is_u64 (Nonce h).

Definition write_header_no_nonce (h : BlockHeader) : writer → result writer :=
  w_put 4 (HVersion h) ≫>
  w_put 8 (Height h) ≫>
  w_copy (PrevHash h) 32 ≫>
  w_copy (MerkleRoot h) 32 ≫>
  w_put 8 (u64 (Timestamp h)) ≫>
  w_put 8 (Difficulty h).

(** [if offset != len(buf) { panic(...) }; return buf] *)
Definition finish (w : writer) : result bytes :=
  if decide (w_off w = length (w_buf w)) then Ok (w_buf w) else Panic.

Definition serializeFull (h : BlockHeader) : result bytes :=
  w ← (write_header_no_nonce h ≫> w_put 8 (Nonce h)) (Writer (zeros blockHeaderSerializedSize) 0);
  finish w.

Definition SerializeForPoW (h : BlockHeader) : result bytes :=
  w ← write_header_no_nonce h (Writer (zeros blockHeaderSerializedSizeNoNonce) 0);
  finish w.

(** ** Blocks *)

(** A block whose transactions are there.  Go has a pointer per transaction;
    [WireBlock] below keeps the nil pointers that decoding can produce. *)
Record Block : Type := MkBlock {
  Header : BlockHeader;
  Transactions : list Transaction;
}.

#[global] Instance Block_eq_dec : EqDecision Block.
Proof. solve_decision. Defined.

Definition wf_block (b : Block) : Prop := wf_header (Header b) ∧ Forall wf_tx (Transactions b).

(** A block as [json.Unmarshal] leaves it: a [null] is a nil pointer. *)
Record WireBlock : Type := MkWireBlock {
  WHeader : BlockHeader;
  WTransactions : list (option Transaction);
}.

#[global] Instance WireBlock_eq_dec : EqDecision WireBlock.
Proof. solve_decision. Defined.

Definition wire (b : Block) : WireBlock := MkWireBlock (Header b) (Some <$> Transactions b).

(** The block behind the pointers, if none is nil. *)
Definition pointees (w : WireBlock) : option Block := MkBlock (WHeader w) <$> mapM id (WTransactions w).

Definition wf_wire (w : WireBlock) : Prop :=
  wf_header (WHeader w) ∧ Forall (λ tx, from_option wf_tx True tx) (WTransactions w).

Lemma pointees_Some w b : pointees w = Some b ↔ w = wire b.
Proof.
  unfold pointees, wire. split.
  - intros (txs & E & ->)%fmap_Some. cbn. destruct w as [h l]. cbn in *. f_equal. apply mapM_Some in E.
    induction E as [|tx o txs l E _ IH]; cbn; [done|]. unfold id in E. by rewrite E, IH.
  - intros ->. cbn. destruct b as [h txs]. cbn. apply fmap_Some. exists txs. split; [|done]. apply mapM_Some.
    induction txs; by constructor.
Qed.

Lemma pointees_wire b : pointees (wire b) = Some b.
Proof. by apply pointees_Some. Qed.

Lemma pointees_None w : pointees w = None ↔ None ∈ WTransactions w.
Proof.
  unfold pointees. destruct w as [h l]. cbn [WHeader WTransactions]. rewrite fmap_None, mapM_None, Exists_exists. unfold id. naive_solver.
Qed.

Lemma wf_wire_wire b : wf_wire (wire b) ↔ wf_block b.
Proof. unfold wf_wire, wf_block, wire. cbn. by rewrite Forall_fmap. Qed.

Definition BlockSize (b : Block) : Z :=
  Z.of_nat (blockHeaderSerializedSize + sum_list (Size <$> Transactions b)).

(** Key images spent by the non-coinbase transactions. *)
Definition txs_key_images (txs : list Transaction) : list bytes :=
  concat (key_images <$> filter (λ tx, IsCoinbase tx = false) txs).

Definition block_key_images (b : Block) : list bytes := txs_key_images (Transactions b).

(** The header format as a concatenation of fields. *)
Definition encode_header_no_nonce (h : BlockHeader) : bytes :=
  le_bytes 4 (HVersion h) ++ le_bytes 8 (Height h) ++ PrevHash h ++ MerkleRoot h ++
  le_bytes 8 (u64 (Timestamp h)) ++ le_bytes 8 (Difficulty h).

Definition encode_header (h : BlockHeader) : bytes :=
  encode_header_no_nonce h ++ le_bytes 8 (Nonce h).

Section Hashing.
Context `{Crypto}.

(** [serializeFull] cannot panic on a header (see [serializeFull_encode]),
    so the hash of a header is a value. *)
Definition HeaderHash (h : BlockHeader) : bytes :=
  match serializeFull h with
  | Ok data => sha3_256 data
  | _ => zeros 32
  end.

Definition BlockHash (b : Block) : bytes := HeaderHash (Header b).

(** *** Merkle tree *)

(** [if len(hashes)%2 == 1 { hashes = append(hashes, hashes[len-1]) }] *)
Definition pad_even (hashes : list bytes) : list bytes :=
  if Nat.odd (length hashes) then hashes ++ [List.last hashes []] else hashes.

Fixpoint hash_pairs (hashes : list bytes) : list bytes :=
  match hashes with
  | a :: b :: hashes => sha3_256 (a ++ b) :: hash_pairs hashes
  | _ => []
  end.

Lemma hash_pairs_half l : (length (hash_pairs l) * 2 <= length l)%nat.
Proof.
  induction l as [l IH] using (induction_ltof1 _ (@length bytes)); unfold ltof in IH.
  destruct l as [|a [|b l]]; simpl; [lia|lia|].
  specialize (IH l ltac:(simpl; lia)). lia.
Qed.

Lemma length_pad_even l : (length (pad_even l) <= S (length l))%nat.
Proof. unfold pad_even. destruct (Nat.odd _); rewrite ?length_app; simpl; lia. Qed.

Equations? computeMerkleRoot (hashes : list bytes) : bytes by wf (length hashes) lt :=
  computeMerkleRoot [] := zeros 32;
  computeMerkleRoot [x] := x;
  computeMerkleRoot (a :: b :: l) := computeMerkleRoot (hash_pairs (pad_even (a :: b :: l))).
Proof.
  pose proof (hash_pairs_half (pad_even (a :: b :: l))) as H1.
  pose proof (length_pad_even (a :: b :: l)) as H2. simpl in *. lia.
Qed.

Definition ComputeMerkleRoot (b : Block) : result bytes :=
  if decide (Transactions b = []) then Ok (zeros 32)
  else
    hashes ← mapM (λ tx, wrap "failed to hash tx %d" (TxID tx)) (Transactions b);
    Ok (computeMerkleRoot hashes).

End Hashing.

(** ** Genesis *)

Definition GenesisMessage : string :=
  "Wired 2026/02/15 - The Nothing That Has the Potential to Be Anything".
Definition TestnetGenesisMessage : string := "Blocknet Testnet Genesis 2026".
Definition GenesisTimestamp : Z := 1771207118.
Definition TestnetGenesisTimestamp : Z := 1772000000.

Section Genesis.
Context `{Crypto} `{Network}.

Definition ActiveGenesisMessage : string :=
  if IsTestnet then TestnetGenesisMessage else GenesisMessage.
Definition ActiveGenesisTimestamp : Z :=
  if IsTestnet then TestnetGenesisTimestamp else GenesisTimestamp.
Definition GenesisPrevHash : bytes := sha3_256 (bytes_of_string ActiveGenesisMessage).

Definition GetGenesisBlock : Block :=
  MkBlock (MkBlockHeader 1 0 GenesisPrevHash (zeros 32) ActiveGenesisTimestamp MinDifficulty 0) [].

End Genesis.
