(* ===== verification/Header.v ===== *)
(** * Header serialization

    The two header serializers write their format and never reach their
    panics; the hashed encoding determines the header. *)

From S2P Require Import Prelude Bytes Crypto Instances Transaction Block.

Lemma length_write_at buf off src :
  (off <= length buf)%nat → length (write_at buf off src) = length buf.
Proof.
  intros. unfold write_at. rewrite !length_app, !length_take, length_drop. lia.
Qed.

Lemma writes_header_no_nonce h :
  wf_header h → writes (write_header_no_nonce h) (encode_header_no_nonce h).
Proof.
  intros (? & ? & ? & ? & ? & ? & ?). unfold write_header_no_nonce, encode_header_no_nonce.
  auto 10 with writes.
Qed.

Lemma length_encode_header_no_nonce h :
  wf_header h → length (encode_header_no_nonce h) = blockHeaderSerializedSizeNoNonce.
Proof.
  intros (? & ? & ? & ? & _). unfold encode_header_no_nonce.
  rewrite !length_app, !length_le_bytes. unfold blockHeaderSerializedSizeNoNonce. lia.
Qed.

Lemma length_encode_header h :
  wf_header h → length (encode_header h) = blockHeaderSerializedSize.
Proof.
  intros. unfold encode_header. rewrite length_app, length_encode_header_no_nonce by done.
  by rewrite length_le_bytes.
Qed.

(** A writer that fills its buffer also passes the final offset check. *)
Lemma writes_finish f out :
  writes f out → (w ← f (Writer (zeros (length out)) 0); finish w) = Ok out.
Proof.
  intros Hf.
  destruct (Hf (length out) [] (Writer (zeros (length out)) 0)) as (w & E & Hl & Ho & Hp).
  - unfold filled, zeros; simpl. by rewrite length_replicate.
  - done.
  - rewrite E. unfold finish. simpl in *. rewrite decide_True by congruence.
    f_equal. rewrite <- Hp. symmetry. apply take_ge. lia.
Qed.

Lemma serializeFull_encode h : wf_header h → serializeFull h = Ok (encode_header h).
Proof.
  intros Hh. unfold serializeFull. rewrite <- (length_encode_header h) by done.
  apply writes_finish, writes_seq; [by apply writes_header_no_nonce|apply writes_put].
Qed.

Lemma SerializeForPoW_encode h : wf_header h → SerializeForPoW h = Ok (encode_header_no_nonce h).
Proof.
  intros Hh. unfold SerializeForPoW. rewrite <- (length_encode_header_no_nonce h) by done.
  by apply writes_finish, writes_header_no_nonce.
Qed.

Lemma HeaderHash_encode `{Crypto} h : wf_header h → HeaderHash h = sha3_256 (encode_header h).
Proof. intros. unfold HeaderHash. by rewrite serializeFull_encode. Qed.

Lemma encode_header_inj h h' :
  wf_header h → wf_header h' → encode_header h = encode_header h' → h = h'.
Proof.
  intros (Hv & Hh & Hp & Hm & Ht & Hd & Hn) (Hv' & Hh' & Hp' & Hm' & Ht' & Hd' & Hn').
  unfold encode_header, encode_header_no_nonce. rewrite <- !app_assoc. intros E.
  apply app_inj_1 in E as [E1 E]; [|by rewrite !length_le_bytes].
  apply app_inj_1 in E as [E2 E]; [|by rewrite !length_le_bytes].
  apply app_inj_1 in E as [E3 E]; [|congruence].
  apply app_inj_1 in E as [E4 E]; [|congruence].
  apply app_inj_1 in E as [E5 E]; [|by rewrite !length_le_bytes].
  apply app_inj_1 in E as [E6 E7]; [|by rewrite !length_le_bytes].
  apply le_bytes_inj in E1; [|done..]. apply le_bytes_inj in E2; [|done..].
  apply le_bytes_inj in E5; [|apply u64_range..]. apply le_bytes_inj in E6; [|done..].
  apply le_bytes_inj in E7; [|done..].
  apply (f_equal i64) in E5. rewrite !u64_i64 in E5 by done.
  destruct h, h'; simpl in *; congruence.
Qed.

Lemma HeaderHash_inj `{Crypto} h h' :
  wf_header h → wf_header h' → collision_free [encode_header h; encode_header h'] →
  HeaderHash h = HeaderHash h' → h = h'.
Proof.
  intros ?? Hc. rewrite !HeaderHash_encode by done. intros E.
  apply encode_header_inj; [done..|]. apply Hc; [set_solver..|done].
Qed.

(** C26. The block hash commits to every header field: [serializeFull] never
    reaches its panic, writes 100 bytes, starts with the proof-of-work
    serialization, and two headers with the same hash are the same header
    when SHA3-256 separates their two serializations. *)
Theorem header_hash_binding `{Crypto} h h' :
  wf_header h → wf_header h' →
  (∃ d p, serializeFull h = Ok d ∧ length d = 100%nat ∧ SerializeForPoW h = Ok p ∧
          p = take 92 d) ∧
  (collision_free [encode_header h; encode_header h'] → HeaderHash h = HeaderHash h' → h = h').
Proof.
  intros Hh Hh'. split.
  - exists (encode_header h), (encode_header_no_nonce h).
    split_and!; [by apply serializeFull_encode|by apply length_encode_header
                |by apply SerializeForPoW_encode|].
    unfold encode_header. rewrite take_app_length'; [done|].
    symmetry. by apply length_encode_header_no_nonce.
  - intros Hc E. by apply (HeaderHash_inj h h').
Qed.

Definition example_header : BlockHeader :=
  MkBlockHeader 1 7 (replicate 32 Init.Byte.x11) (replicate 32 Init.Byte.x22) 1771207118 4 99.

Lemma example_header_wf : wf_header example_header.
Proof. repeat split; vm_compute; congruence. Qed.

#[local] Existing Instance toy_crypto.

Definition example_header' : BlockHeader :=
  MkBlockHeader 1 7 (replicate 32 Init.Byte.x11) (replicate 32 Init.Byte.x22) 1771207118 4 100.

Lemma header_hash_binding_witness : HeaderHash example_header ≠ HeaderHash example_header'.
Proof.
  destruct (header_hash_binding example_header example_header') as [_ Hinj];
    [apply example_header_wf|repeat split; vm_compute; congruence|].
  intros E. assert (Hc : collision_free [encode_header example_header; encode_header example_header'])
    by vm_decide.
  apply (f_equal Nonce) in Hinj; [discriminate Hinj|exact Hc|exact E].
Defined.
