(* ===== verification/Merkle.v ===== *)
(** * The merkle tree binds the transaction list

    The tree of [computeMerkleRoot] duplicates the last hash of an odd level
    and does not separate leaves from nodes, so the root alone does not
    determine the leaves.  It does for leaves that are pairwise different
    and are not hashes of 64-byte strings, when SHA3-256 separates the
    messages hashed for the two trees; the transaction ids of a valid block
    are such leaves. *)

From Equations Require Import Equations.
From S2P Require Import Prelude Bytes Crypto Block.

Section Merkle.
Context `{HC : Crypto} `{!CryptoLaws HC}.
Implicit Types l k : list bytes.

Definition level (l : list bytes) : list bytes :=
  match l with
  | _ :: _ :: _ => hash_pairs (pad_even l)
  | _ => l
  end.

Definition hashes32 (l : list bytes) : Prop := Forall (λ h, length h = 32%nat) l.

Fixpoint evens (l : list bytes) : list bytes :=
  match l with
  | a :: b :: l => a :: evens l
  | _ => []
  end.

Lemma list_pair_ind (P : list bytes → Prop) :
  P [] → (∀ a, P [a]) → (∀ a b l, P l → P (a :: b :: l)) → ∀ l, P l.
Proof.
  intros H0 H1 H2 l. enough (P l ∧ ∀ a, P (a :: l)) as [? _] by done.
  induction l as [|x l [IH1 IH2]]; split; auto.
Qed.

(** The messages [hash_pairs] hashes. *)
Fixpoint pair_messages (l : list bytes) : list bytes :=
  match l with
  | a :: b :: l => (a ++ b) :: pair_messages l
  | _ => []
  end.

(** The messages hashed on the way from [l] to the root; [fuel] bounds the
    number of levels. *)
Fixpoint tree_messages (fuel : nat) (l : list bytes) : list bytes :=
  match fuel, l with
  | S fuel, _ :: _ :: _ => pair_messages (pad_even l) ++ tree_messages fuel (level l)
  | _, _ => []
  end.

Definition merkle_messages (l : list bytes) : list bytes := tree_messages (length l) l.

Lemma root_level l : computeMerkleRoot (level l) = computeMerkleRoot l.
Proof. destruct l as [|a [|b l]]; [done|done|]. cbn [level]. by simp computeMerkleRoot. Qed.

Lemma last_app_removelast l x : l ≠ [] → ∃ l', l = l' ++ [List.last l x].
Proof. intros. exists (removelast l). by apply app_removelast_last. Qed.

Lemma pad_even_prefix l : l ≠ [] →
  ∃ t, pad_even l = l ++ t ∧ (t = [] ∨ ∃ y, t = [y] ∧ y ∈ l).
Proof.
  intros Hl. unfold pad_even. destruct (Nat.odd (length l)).
  - exists [List.last l []]. split; [done|right]. exists (List.last l []). split; [done|].
    destruct (last_app_removelast l []) as [l' ->]; [done|]. rewrite List.last_last. set_solver.
  - exists []. rewrite app_nil_r. auto.
Qed.

Lemma pad_even_even l : Nat.Even (length (pad_even l)).
Proof.
  unfold pad_even. destruct (Nat.odd (length l)) eqn:E.
  - rewrite length_app, Nat.add_1_r. apply Nat.Even_succ. by apply Nat.odd_spec.
  - apply Nat.even_spec. rewrite <- Nat.negb_odd, E. done.
Qed.

Lemma pad_even_hashes32 l : l ≠ [] → hashes32 l → hashes32 (pad_even l).
Proof.
  intros Hl H. destruct (pad_even_prefix l Hl) as (t & -> & [->|(y & -> & Hy)]).
  - by rewrite app_nil_r.
  - apply Forall_app. split; [done|]. constructor; [|done].
    unfold hashes32 in H. rewrite Forall_forall in H. auto.
Qed.

Lemma hash_pairs_hashes32 l : hashes32 (hash_pairs l).
Proof.
  induction l using list_pair_ind; simpl; constructor; auto. apply sha3_256_length.
Qed.

Lemma level_hashes32 l : hashes32 l → hashes32 (level l).
Proof. destruct l as [|a [|b l]]; [done|done|]. intros. apply hash_pairs_hashes32. Qed.

Lemma length_hash_pairs l : length (hash_pairs l) = (length l / 2)%nat.
Proof.
  induction l as [| |a b l IH] using list_pair_ind; [done|done|].
  cbn [hash_pairs length]. rewrite IH. replace (S (S (length l))) with (length l + 1 * 2)%nat by lia.
  rewrite Nat.div_add by lia. lia.
Qed.

Lemma level_nonempty l : l ≠ [] → level l ≠ [].
Proof.
  destruct l as [|a [|b l]]; [done|done|]. intros _. cbn [level]. unfold pad_even.
  destruct (Nat.odd _); done.
Qed.

Abbreviation levels n l := (Nat.iter n level l).

(** *** Trees whose messages the hash separates *)

Context (msgs : list bytes) (Hcf : collision_free msgs).

(** The messages of every level of the tree over [l] are in [msgs]. *)
Definition tree_in (l : list bytes) : Prop :=
  ∀ n, (2 <= length (levels n l))%nat → pair_messages (pad_even (levels n l)) ⊆ msgs.

Lemma tree_in_here l : (2 <= length l)%nat → tree_in l → pair_messages (pad_even l) ⊆ msgs.
Proof. intros Hl Ht. by apply (Ht 0%nat). Qed.

Lemma tree_in_levels n l : tree_in l → tree_in (levels n l).
Proof. intros Ht j. rewrite <- Nat.iter_add. apply Ht. Qed.

Lemma hash_pairs_inj l k :
  pair_messages l ⊆ msgs → pair_messages k ⊆ msgs →
  hashes32 l → hashes32 k → Nat.Even (length l) → Nat.Even (length k) →
  hash_pairs l = hash_pairs k → l = k.
Proof.
  revert k. induction l as [|a|a b l IH] using list_pair_ind; intros k Ml Mk Hl Hk El Ek E.
  - destruct k as [|c [|d k]]; [done| |done]. by apply Nat.even_spec in Ek.
  - by apply Nat.even_spec in El.
  - destruct k as [|c [|d k]]; [done| |]. { by apply Nat.even_spec in Ek. }
    cbn [hash_pairs pair_messages] in *. injection E as E1 E2.
    inversion Hl as [|?? La Hl']; subst. inversion Hl'; subst.
    inversion Hk as [|?? Lc Hk']; subst. inversion Hk'; subst.
    apply Hcf in E1; [|set_solver..]. apply app_inj_1 in E1 as [-> ->]; [|congruence].
    rewrite (IH k); [done|set_solver|set_solver|done|done| | |done].
    + apply Nat.even_spec in El. by apply Nat.even_spec.
    + apply Nat.even_spec in Ek. by apply Nat.even_spec.
Qed.

Lemma pad_even_inj l k :
  l ≠ [] → k ≠ [] → NoDup l → NoDup k → pad_even l = pad_even k → l = k.
Proof.
  intros Hl Hk Dl Dk E.
  destruct (pad_even_prefix l Hl) as (t & Et & Ht), (pad_even_prefix k Hk) as (u & Eu & Hu).
  rewrite Et, Eu in E.
  destruct Ht as [->|(y & -> & Hy)], Hu as [->|(z & -> & Hz)]; rewrite ?app_nil_r in E.
  - done.
  - rewrite E in Dl. apply NoDup_app in Dl as (_ & Hd & _). exfalso. apply (Hd z Hz). set_solver.
  - rewrite <- E in Dk. apply NoDup_app in Dk as (_ & Hd & _). exfalso. apply (Hd y Hy). set_solver.
  - by apply app_inj_tail in E as [-> _].
Qed.

Lemma level_several l : (2 <= length l)%nat → level l = hash_pairs (pad_even l) ∧ l ≠ [].
Proof. destruct l as [|? [|]]; simpl; [lia|lia|done]. Qed.

Lemma level_inj l k :
  (2 <= length l)%nat → (2 <= length k)%nat → tree_in l → tree_in k →
  hashes32 l → hashes32 k → NoDup l → NoDup k → level l = level k → l = k.
Proof.
  intros Ll Lk Tl Tk Hl Hk Dl Dk E.
  destruct (level_several l Ll) as [El ?], (level_several k Lk) as [Ek ?].
  rewrite El, Ek in E. apply hash_pairs_inj in E;
    auto using tree_in_here, pad_even_hashes32, pad_even_even, pad_even_inj.
Qed.

(** *** Levels of distinct hashes are distinct *)

Lemma hash_pairs_elem x l :
  x ∈ hash_pairs l →
  ∃ a b, a ∈ evens l ∧ x = sha3_256 (a ++ b) ∧ a ++ b ∈ pair_messages l ∧ a ∈ l.
Proof.
  induction l as [|a|a b l IH] using list_pair_ind; simpl; [set_solver|set_solver|].
  intros [->|Hx]%elem_of_cons; [set_solver|].
  destruct (IH Hx) as (a' & b' & ? & -> & ? & ?). exists a', b'. set_solver.
Qed.

Lemma hash_pairs_NoDup l :
  pair_messages l ⊆ msgs → hashes32 l → NoDup (evens l) → NoDup (hash_pairs l).
Proof.
  induction l as [|a|a b l IH] using list_pair_ind; intros Ml Hl Hd; [by constructor..|].
  cbn [evens hash_pairs pair_messages] in *. apply NoDup_cons in Hd as [Ha Hd].
  inversion Hl as [|?? La Hl']; subst. inversion Hl' as [|?? Lb Hl'']; subst.
  constructor; [|apply IH; [set_solver|done..]].
  intros (a' & b' & Ha' & E & Hm & Hal)%hash_pairs_elem.
  apply Hcf in E; [|set_solver..]. apply app_inj_1 in E as [-> _]; [done|].
  unfold hashes32 in Hl''. rewrite Forall_forall in Hl''. rewrite La. symmetry. auto.
Qed.

Lemma evens_sublist l : evens l `sublist_of` l.
Proof.
  induction l as [|a|a b l IH] using list_pair_ind; simpl; [done|by apply sublist_nil_l|].
  by constructor; constructor.
Qed.

Lemma evens_snoc l y : Nat.Odd (length l) → evens (l ++ [y]) `sublist_of` l.
Proof.
  induction l as [|a|a b l IH] using list_pair_ind; intros Ho; simpl.
  - by apply Nat.odd_spec in Ho.
  - done.
  - constructor. constructor. apply IH. apply Nat.odd_spec in Ho. by apply Nat.odd_spec.
Qed.

Lemma evens_pad_sublist l : evens (pad_even l) `sublist_of` l.
Proof.
  unfold pad_even. destruct (Nat.odd (length l)) eqn:E.
  - apply evens_snoc. by apply Nat.odd_spec.
  - apply evens_sublist.
Qed.

Lemma level_NoDup l : tree_in l → hashes32 l → NoDup l → NoDup (level l).
Proof.
  intros Tl Hl Hd. destruct l as [|a [|b l]]; [done|done|]. cbn [level].
  apply hash_pairs_NoDup; [apply tree_in_here; [simpl; lia|done]|by apply pad_even_hashes32|].
  eapply sublist_NoDup; [exact Hd|apply evens_pad_sublist].
Qed.

(** *** Equal roots *)

Lemma levels_nil n : levels n [] = [].
Proof. induction n as [|n IH]; simpl; [done|]. by rewrite IH. Qed.

Lemma several_nonempty l : (2 <= length l)%nat → l ≠ [].
Proof. intros H ->. simpl in H. lia. Qed.

Lemma levels_ok n l :
  l ≠ [] → tree_in l → hashes32 l → NoDup l →
  levels n l ≠ [] ∧ hashes32 (levels n l) ∧ NoDup (levels n l).
Proof.
  intros. induction n as [|n (? & ? & ?)]; simpl; [done|].
  split_and!; [by apply level_nonempty|by apply level_hashes32|].
  apply level_NoDup; [by apply tree_in_levels|done..].
Qed.

(** A list of several hashes reaches a single one through a last level of
    several. *)
Lemma levels_singleton n l y :
  (2 <= length l)%nat → levels n l = [y] →
  ∃ j, (2 <= length (levels j l))%nat ∧ level (levels j l) = [y].
Proof.
  intros Hl. induction n as [|n IH]; simpl; intros E.
  { rewrite E in Hl. simpl in Hl. lia. }
  destruct (levels n l) as [|a [|b r]] eqn:En.
  - done.
  - by apply IH.
  - exists n. rewrite En. split; [simpl; lia|done].
Qed.

Lemma length_level_lt l : (2 <= length l)%nat → (length (level l) < length l)%nat.
Proof.
  intros Hl. destruct l as [|a [|b l]]; simpl in Hl; [lia|lia|]. cbn [level].
  pose proof (hash_pairs_half (pad_even (a :: b :: l))).
  pose proof (length_pad_even (a :: b :: l)). simpl in *. lia.
Qed.

(** If one level of [l] is a level of [k], so is [l] itself. *)
Lemma level_lift n l k :
  (2 <= length l)%nat → (2 <= length k)%nat → tree_in l → tree_in k →
  hashes32 l → hashes32 k → NoDup l → NoDup k →
  level l = levels n (level k) → ∃ j, l = levels j k.
Proof.
  intros Ll Lk Tl Tk Hl Hk Dl Dk E. rewrite <- Nat.iter_succ_r in E. simpl in E.
  assert (∀ j, (2 <= length (levels j k))%nat → level l = level (levels j k) → l = levels j k) as Hj.
  { intros j Hj Ej. destruct (levels_ok j k) as (? & ? & ?); [by apply several_nonempty|done..|].
    apply level_inj; auto using tree_in_levels. }
  destruct (decide (2 <= length (levels n k))%nat) as [Hn|Hn]; [eauto|].
  assert (∃ y, levels n k = [y]) as [y Ey].
  { destruct (levels n k) as [|y [|]] eqn:En; simpl in Hn; [|eauto|lia].
    exfalso. eapply (level_nonempty l); [by apply several_nonempty|]. by rewrite E. }
  destruct (levels_singleton n k y) as (j & Hj2 & Ej); [done|done|].
  exists j. apply Hj; [done|]. by rewrite E, Ey, Ej.
Qed.

(** The root is the last level. *)
Lemma root_is_level l : l ≠ [] → ∃ j, [computeMerkleRoot l] = levels j l.
Proof.
  remember (length l) as c eqn:Hc. revert l Hc.
  induction c as [c IH] using lt_wf_ind. intros l -> Nl.
  destruct (decide (2 <= length l)%nat) as [Ll|Ll].
  - destruct (IH (length (level l)) (length_level_lt _ Ll) (level l) eq_refl) as [j Ej];
      [by apply level_nonempty|].
    exists (S j). by rewrite Nat.iter_succ_r, <- root_level.
  - destruct l as [|y [|]]; simpl in Ll; [done| |lia]. by exists 0%nat.
Qed.

Lemma root_levels n l k :
  (length l + length k <= n)%nat → l ≠ [] → k ≠ [] → tree_in l → tree_in k →
  hashes32 l → hashes32 k → NoDup l → NoDup k →
  computeMerkleRoot l = computeMerkleRoot k →
  (∃ j, l = levels j k) ∨ (∃ j, k = levels j l).
Proof.
  revert l k. induction n as [|n IH]; intros l k Hn Nl Nk Tl Tk Hl Hk Dl Dk E.
  { destruct l; simpl in *; [done|lia]. }
  destruct (decide (2 <= length l)%nat) as [Ll|Ll]; cycle 1.
  { destruct l as [|x [|]]; simpl in Ll; [done| |lia]. left.
    change x with (computeMerkleRoot [x]). rewrite E. by apply root_is_level. }
  destruct (decide (2 <= length k)%nat) as [Lk|Lk]; cycle 1.
  { destruct k as [|x [|]]; simpl in Lk; [done| |lia]. right.
    change x with (computeMerkleRoot [x]). rewrite <- E. by apply root_is_level. }
  pose proof (length_level_lt l Ll). pose proof (length_level_lt k Lk).
  pose proof (tree_in_levels 1 l Tl). pose proof (tree_in_levels 1 k Tk).
  destruct (IH (level l) (level k)) as [[j Ej]|[j Ej]];
    eauto using level_nonempty, level_hashes32, level_NoDup.
  - lia.
  - by rewrite !root_level.
  - apply level_lift in Ej; auto.
  - apply level_lift in Ej; auto.
Qed.

(** *** Leaves are not nodes *)

Lemma hash_pairs_nodes l :
  hashes32 l →
  Forall (λ h, ∃ m : bytes, m ∈ pair_messages l ∧ length m = 64%nat ∧ h = sha3_256 m) (hash_pairs l).
Proof.
  induction l as [|a|a b l IH] using list_pair_ind; intros Hl; [constructor..|].
  inversion Hl as [|?? La Hl']; subst. inversion Hl' as [|?? Lb Hl'']; subst.
  cbn [hash_pairs pair_messages]. constructor.
  - exists (a ++ b). rewrite length_app. split; [set_solver|]. split; [lia|done].
  - eapply Forall_impl; [by apply IH|]. intros h (m & ? & ?). exists m. set_solver.
Qed.

(** A leaf: the hash of a message of [msgs] that is not a pair of hashes. *)
Definition is_leaf (h : bytes) : Prop :=
  ∃ m : bytes, m ∈ msgs ∧ length m ≠ 64%nat ∧ h = sha3_256 m.

Lemma levels_leaf j l x r :
  l ≠ [] → tree_in l → hashes32 l → NoDup l → Forall is_leaf (x :: r) → x :: r = levels j l →
  x :: r = l.
Proof.
  intros Nl Tl Hl Dl Hx. revert x r Hx. induction j as [|j IH]; intros x r Hx E; [done|].
  simpl in E. destruct (levels j l) as [|a [|b m]] eqn:Ej; [done|by apply IH|].
  exfalso. cbn [level] in E.
  destruct (levels_ok j l) as (_ & Hj & _); [done..|]. rewrite Ej in Hj.
  pose proof (tree_in_levels j l Tl) as Tj. rewrite Ej in Tj.
  apply tree_in_here in Tj; [|simpl; lia].
  pose proof (hash_pairs_nodes (pad_even (a :: b :: m))) as Hn.
  rewrite <- E in Hn. specialize (Hn ltac:(by apply pad_even_hashes32)).
  inversion Hn as [|?? (m1 & I1 & L1 & E1)]; subst.
  inversion Hx as [|?? (m2 & I2 & L2 & E2)]; subst.
  apply Hcf in E2; [congruence|by apply Tj|done].
Qed.

Lemma merkle_root_inj l k :
  l ≠ [] → k ≠ [] → tree_in l → tree_in k → hashes32 l → hashes32 k → NoDup l → NoDup k →
  Forall is_leaf l → Forall is_leaf k → computeMerkleRoot l = computeMerkleRoot k → l = k.
Proof.
  intros Nl Nk Tl Tk Hl Hk Dl Dk Fl Fk E.
  destruct (root_levels (length l + length k) l k) as [[j Ej]|[j Ej]]; auto.
  - destruct l as [|x r]; [done|]. by eapply levels_leaf.
  - destruct k as [|x r]; [done|]. symmetry. by eapply levels_leaf.
Qed.

Lemma tree_in_messages fuel l :
  (length l <= fuel)%nat → tree_messages fuel l ⊆ msgs → tree_in l.
Proof.
  revert l. induction fuel as [|fuel IH]; intros l Hf Hm n Hn.
  { destruct l; simpl in Hf; [|lia]. rewrite levels_nil in Hn. simpl in Hn. lia. }
  destruct (decide (2 <= length l)%nat) as [Ll|Ll]; cycle 1.
  { assert (levels n l = l) as En.
    { clear -Ll. induction n as [|n E]; simpl; [done|]. rewrite E.
      destruct l as [|? [|]]; simpl in Ll; [done|done|lia]. }
    rewrite En in Hn. lia. }
  pose proof (length_level_lt l Ll).
  destruct l as [|a [|b l]]; simpl in Ll; [lia|lia|]. cbn [tree_messages] in Hm.
  destruct n as [|n]; [set_solver|]. rewrite Nat.iter_succ_r in *.
  apply IH; [simpl in *; lia|set_solver|done].
Qed.

End Merkle.
