(* ===== verification/ExchangeSort.v ===== *)
(** * The exchange sort of the Go code

    [for i { for j > i { if swap(a[i], a[j]) { a[i], a[j] = a[j], a[i] } } }],
    written out in the code wherever a short slice is sorted: the median of
    block timestamps and the mempool's entries by fee rate. *)

From S2P Require Import Prelude.

Section ExchangeSort.
Context {A : Type} (swap : A → A → bool).

(** The inner loop: [x] is [a[i]], the list is [a[i+1:]]; the result is the
    final [a[i]] and the rest of the slice. *)
Fixpoint exchange_pass (x : A) (l : list A) : A * list A :=
  match l with
  | [] => (x, [])
  | y :: l =>
      if swap x y
      then let '(m, l') := exchange_pass y l in (m, x :: l')
      else let '(m, l') := exchange_pass x l in (m, y :: l')
  end.

(** The outer loop; each pass fixes one position. *)
Fixpoint exchange_loop (fuel : nat) (l : list A) : list A :=
  match fuel, l with
  | S fuel, x :: l => let '(m, l') := exchange_pass x l in m :: exchange_loop fuel l'
  | _, _ => l
  end.

Definition exchange_sort (l : list A) : list A := exchange_loop (length l) l.

Lemma exchange_pass_perm x l : fst (exchange_pass x l) :: snd (exchange_pass x l) ≡ₚ x :: l.
Proof.
  revert x. induction l as [|y l IH]; intros x; simpl; [done|].
  destruct (swap x y).
  - specialize (IH y). destruct (exchange_pass y l) as [m l'] eqn:E; simpl in *.
    etrans; [apply perm_swap|]. by f_equiv.
  - specialize (IH x). destruct (exchange_pass x l) as [m l'] eqn:E; simpl in *.
    etrans; [apply perm_swap|]. etrans; [by f_equiv|]. apply perm_swap.
Qed.

Lemma exchange_loop_perm n l : exchange_loop n l ≡ₚ l.
Proof.
  revert l. induction n as [|n IH]; intros [|x l]; try done. simpl.
  pose proof (exchange_pass_perm x l) as Hp. destruct (exchange_pass x l) as [m l']; simpl in *.
  rewrite <- Hp. f_equiv. apply IH.
Qed.

Lemma exchange_sort_perm l : exchange_sort l ≡ₚ l.
Proof. apply exchange_loop_perm. Qed.

Lemma length_exchange_sort l : length (exchange_sort l) = length l.
Proof. by rewrite exchange_sort_perm. Qed.

Context (R : relation A) `{!Transitive R}
        (Hkeep : ∀ x y, swap x y = false → R x y) (Hswap : ∀ x y, swap x y = true → R y x)
        (Hrefl : ∀ x, R x x).

Lemma exchange_pass_min x l :
  R (fst (exchange_pass x l)) x ∧ Forall (R (fst (exchange_pass x l))) (snd (exchange_pass x l)).
Proof.
  revert x. induction l as [|y l IH]; intros x; simpl; [by auto|].
  destruct (swap x y) eqn:E.
  - specialize (IH y) as [H1 H2]. destruct (exchange_pass y l) as [m l']; simpl in *.
    assert (R m x) by (etrans; [exact H1|by apply Hswap]). auto.
  - specialize (IH x) as [H1 H2]. destruct (exchange_pass x l) as [m l']; simpl in *.
    assert (R m y) by (etrans; [exact H1|by apply Hkeep]). auto.
Qed.

Lemma exchange_sort_sorted l : StronglySorted R (exchange_sort l).
Proof.
  unfold exchange_sort. remember (length l) as n eqn:Hn.
  assert (length l <= n)%nat as Hle by lia. clear Hn. revert l Hle.
  induction n as [|n IH]; intros [|x l] Hle; cbn [exchange_loop length] in *; [constructor|lia|constructor|].
  pose proof (exchange_pass_perm x l) as Hp. pose proof (exchange_pass_min x l) as [_ Hm].
  destruct (exchange_pass x l) as [m l']; simpl in *. constructor.
  - apply IH. apply Permutation_length in Hp. simpl in Hp. lia.
  - by rewrite exchange_loop_perm.
Qed.

End ExchangeSort.
