(* ===== verification/Consensus.v ===== *)
(** * Difficulty and timestamp rules

    The LWMA difficulty in its four variants, the median timestamp in its
    variants, the timestamp and proof-of-work checks of [block.go]. *)

From S2P Require Import Prelude Bytes Crypto Pow Transaction Block ExchangeSort.

(** ** Cumulative work *)

Definition addCumulativeWork (parentWork blockDifficulty : Z) : result Z :=
  if MaxUint64 - parentWork <? blockDifficulty
  then Err (Errorf "cumulative work overflow: parent=%d difficulty=%d")
  else Ok (u64 (parentWork + blockDifficulty)).

(** ** LWMA *)

Definition clamp_solvetime (solvetime : Z) : Z :=
  let solvetime := if solvetime <? LWMAMinSolvetime then LWMAMinSolvetime else solvetime in
  if LWMAMaxSolvetime <? solvetime then LWMAMaxSolvetime else solvetime.

(** The loop [for i := 1; i <= LWMAWindow; i++] over [at i], the block at
    offset [i] of the window; a missing block ends it.  [n] iterations are
    left, [i] is the loop variable. *)
Fixpoint lwma_sums (at_ : Z → option Block) (n : nat) (i : Z) (acc : Z * Z) : option (Z * Z) :=
  match n with
  | O => Some acc
  | S n =>
      cur ← at_ i;
      prev ← at_ (i - 1);
      let '(weightedSolvetimeSum, difficultySum) := acc in
      let solvetime := clamp_solvetime (i64 (Timestamp (Header cur) - Timestamp (Header prev))) in
      lwma_sums at_ n (i + 1)
        (i64 (weightedSolvetimeSum + i64 (solvetime * i)),
         u64 (difficultySum + Difficulty (Header cur)))
  end.

Definition weightSum : Z := (Z.of_nat LWMAWindow * (Z.of_nat LWMAWindow + 1)) `div` 2.

Definition lwma_result (sums : Z * Z) : Z :=
  let '(weightedSolvetimeSum, difficultySum) := sums in
  let avgDifficulty := difficultySum `div` Z.of_nat LWMAWindow in
  let expectedWeightedSum := BlockIntervalSec * weightSum in
  let weightedSolvetimeSum := if weightedSolvetimeSum <? 1 then 1 else weightedSolvetimeSum in
  let newDiff := u64 (avgDifficulty * u64 expectedWeightedSum) `div` u64 weightedSolvetimeSum in
  if newDiff <? MinDifficulty then MinDifficulty else newDiff.

Definition lwma (at_ : Z → option Block) : option Z :=
  lwma_result <$> lwma_sums at_ LWMAWindow 1 (0, 0).

(** [blocks[i]] for an [i] that may be out of range. *)
Definition nthZ {A} (l : list A) (i : Z) : option A :=
  if i <? 0 then None else l !! Z.to_nat i.

(** [computeLWMA(blocks, height)]: an index out of range panics. *)
Definition computeLWMA (blocks : list Block) (height : Z) : result Z :=
  match lwma (λ i, nthZ blocks (u64 (height - Z.of_nat LWMAWindow + i))) with
  | Some d => Ok d
  | None => Panic
  end.

(** ** Median of timestamps *)

(** The exchange sort and the middle element. *)
Definition median_of (timestamps : list Z) : option Z :=
  exchange_sort (λ x y, y <? x) timestamps !! (length timestamps / 2)%nat.

(** ** Rules that walk the parent branch

    [getParent] is the lookup the caller passes in; it may change the state
    of its owner (the block cache). *)

Section ParentContext.
Context {S : Type} (getParent : bytes → M S (option Block)).

(** [blocks[i]], ..., [blocks[0]], walking back from [current]; the result is
    in ascending height order. *)
Fixpoint collect_window (i : nat) (current : Block) : M S (list Block) :=
  match i with
  | O => mret [current]
  | Datatypes.S i =>
      if Height (Header current) =? 0 then throw (Errorf "insufficient ancestors for LWMA window")
      else
        parent ← getParent (PrevHash (Header current));
        match parent with
        | None => throw (Errorf "missing ancestor at height %d")
        | Some parent => rest ← collect_window i parent; mret (rest ++ [current])
        end
  end.

Definition expectedDifficultyFromParent (parent : Block) : M S Z :=
  if Height (Header parent) <? Z.of_nat LWMAWindow then mret MinDifficulty
  else
    blocks ← collect_window LWMAWindow parent;
    match lwma (nthZ blocks) with
    | Some d => mret d
    | None => lift Panic
    end.

(** Up to [n] timestamps, newest first. *)
Fixpoint collect_timestamps (n : nat) (current : option Block) : M S (list Z) :=
  match n, current with
  | Datatypes.S n, Some current =>
      if Height (Header current) =? 0 then mret [Timestamp (Header current)]
      else
        parent ← getParent (PrevHash (Header current));
        rest ← collect_timestamps n parent;
        mret (Timestamp (Header current) :: rest)
  | _, _ => mret []
  end.

Definition medianTimestampFromParent (parent : Block) (n : nat) : M S Z :=
  if decide (n = 0%nat) then throw (Errorf "invalid median window: %d")
  else
    timestamps ← collect_timestamps n (Some parent);
    if decide (timestamps = []) then throw (Errorf "no timestamps available")
    else match median_of timestamps with
         | Some m => mret m
         | None => lift Panic
         end.

End ParentContext.

(** ** Header checks *)

(** [now] is [time.Now().Unix()]. *)
Definition validateTimestampWithMedian (now : Z) (header : BlockHeader) (medianTime : Z) : result unit :=
  check (Timestamp header <=? medianTime) (Errorf "timestamp %d <= median %d");;
  let maxTime := now + TimestampFuturLimitSec in
  check (maxTime <? Timestamp header) (Errorf "timestamp too far in future").

Definition validatePoW `{Crypto} (header : BlockHeader) : bool :=
  match SerializeForPoW header with
  | Ok headerBytes =>
      match PowHash headerBytes (Nonce header) with
      | Ok hash => PowCheckTarget hash (DifficultyToTarget (Difficulty header))
      | _ => false
      end
  | _ => false
  end.
