(* ===== verification/Hoare.v ===== *)
(** * Triples for stateful computations

    [triple P m Q E]: run in a state that satisfies [P], [m] does not panic;
    it ends with a result and a state related by [Q], or with an error and a
    state related by [E]. *)

From S2P Require Import Prelude.

Definition triple {S A} (P : S → Prop) (m : M S A) (Q : A → S → Prop) (E : error → S → Prop) : Prop :=
  ∀ s, P s → match m s with
             | (Ok a, s') => Q a s'
             | (Err e, s') => E e s'
             | (Panic, _) => False
             end.

Section Rules.
Context {S : Type}.
Implicit Types P : S → Prop.

Lemma triple_weaken {A} P P' (m : M S A) (Q Q' : A → S → Prop) (E E' : error → S → Prop) :
  triple P' m Q' E' → (∀ s, P s → P' s) → (∀ a s, Q' a s → Q a s) → (∀ e s, E' e s → E e s) →
  triple P m Q E.
Proof.
  intros Hm HP HQ HE s Hs. specialize (Hm s (HP s Hs)). destruct (m s) as [[a|e|] s']; auto.
Qed.

Lemma triple_post {A} P (m : M S A) (Q Q' : A → S → Prop) E :
  triple P m Q' E → (∀ a s, Q' a s → Q a s) → triple P m Q E.
Proof. intros Hm HQ. eapply triple_weaken; eauto. Qed.

Lemma triple_ret {A} P (a : A) (Q : A → S → Prop) E : (∀ s, P s → Q a s) → triple P (mret a) Q E.
Proof. intros HQ s Hs. by apply HQ. Qed.

Lemma triple_throw {A} P e (Q : A → S → Prop) E : (∀ s, P s → E e s) → triple P (throw e) Q E.
Proof. intros HE s Hs. by apply HE. Qed.

Lemma triple_modify P f (Q : unit → S → Prop) E : (∀ s, P s → Q tt (f s)) → triple P (modify f) Q E.
Proof. intros HQ s Hs. by apply HQ. Qed.

Lemma triple_bind {A B} P (m : M S A) (f : A → M S B) (R : A → S → Prop) Q E :
  triple P m R E → (∀ a, triple (R a) (f a) Q E) → triple P (m ≫= f) Q E.
Proof.
  intros Hm Hf s Hs. specialize (Hm s Hs). unfold mbind, M_bind.
  destruct (m s) as [[a|e|] s']; [|done|done]. by apply Hf.
Qed.

(** [c ← get; f c]: the read state is the current one. *)
Lemma triple_get {A} P (f : S → M S A) Q E :
  (∀ s0, P s0 → triple (λ s, s = s0) (f s0) Q E) → triple P (get ≫= f) Q E.
Proof. intros Hf s Hs. unfold mbind, M_bind, get. by apply (Hf s Hs s). Qed.

Lemma triple_lift {A} P (r : result A) (Q : A → S → Prop) E :
  safe r → (∀ a s, r = Ok a → P s → Q a s) → (∀ e s, r = Err e → P s → E e s) → triple P (lift r) Q E.
Proof. intros Hr HQ HE s Hs. unfold lift. destruct r as [a|e|]; [by apply HQ|by apply HE|done]. Qed.

Lemma triple_check P cond e (Q : unit → S → Prop) E :
  (∀ s, cond = false → P s → Q tt s) → (∀ s, cond = true → P s → E e s) → triple P (checkM cond e) Q E.
Proof. intros HQ HE s Hs. unfold checkM, lift, check. destruct cond; auto. Qed.

Lemma triple_wrap {A} P fmt (m : M S A) Q E :
  triple P m Q (λ e, E (Wrapf fmt e)) → triple P (wrapM fmt m) Q E.
Proof. intros Hm s Hs. specialize (Hm s Hs). unfold wrapM. by destruct (m s) as [[a|e|] s']. Qed.

(** A precondition that singles out one state can be run. *)
Lemma triple_at {A} s0 (m : M S A) Q E :
  (∀ s, s = s0 → match m s with
                 | (Ok a, s') => Q a s' | (Err e, s') => E e s' | (Panic, _) => False end) →
  triple (λ s, s = s0) m Q E.
Proof. intros Hm s ->. by apply Hm. Qed.

(** A loop over consecutive integers, upwards. *)
Lemma triple_for_seqZ (f : Z → M S unit) (P : Z → S → Prop) E a n :
  0 <= n → (∀ i, 0 <= i < n → triple (P i) (f (a + i)) (λ _, P (i + 1)) E) →
  triple (P 0) (for_each f (seqZ a n)) (λ _, P n) E.
Proof.
  intros Hn Hf. revert a P n Hn Hf.
  assert (∀ (k : nat) (a : Z) (P : Z → S → Prop), (∀ i, 0 <= i < Z.of_nat k → triple (P i) (f (a + i)) (λ _, P (i + 1)) E) →
    triple (P 0) (for_each f (seqZ a (Z.of_nat k))) (λ _, P (Z.of_nat k)) E) as Hk.
  { induction k as [|k IH]; intros a P Hf; [by apply triple_ret|].
    rewrite Nat2Z.inj_succ, seqZ_cons by lia. cbn [for_each]. rewrite Z.pred_succ.
    eapply triple_bind; [specialize (Hf 0 ltac:(lia)); by rewrite Z.add_0_r in Hf|]. intros u. cbn beta.
    replace (Z.succ (Z.of_nat k)) with (Z.of_nat k + 1) by lia.
    apply (IH (Z.succ a) (λ i, P (i + 1))). intros i Hi.
    replace (Z.succ a + i) with (a + (i + 1)) by lia. apply Hf. lia. }
  intros a P n Hn Hf. specialize (Hk (Z.to_nat n) a P). rewrite Z2Nat.id in Hk by done. auto.
Qed.

(** The same, downwards; [P i] holds when [i] integers are left. *)
Lemma triple_for_seqZ_rev (f : Z → M S unit) (P : Z → S → Prop) E a n :
  0 <= n → (∀ i, 0 <= i < n → triple (P (i + 1)) (f (a + i)) (λ _, P i) E) →
  triple (P n) (for_each f (reverse (seqZ a n))) (λ _, P 0) E.
Proof.
  intros Hn. rewrite <- (Z2Nat.id n) by done. generalize (Z.to_nat n). clear n Hn.
  intros k. induction k as [|k IH]; intros Hf; [by apply triple_ret|].
  rewrite Nat2Z.inj_succ in *. unfold Z.succ in *.
  rewrite seqZ_app, reverse_app by lia. replace (seqZ (a + Z.of_nat k) 1) with [a + Z.of_nat k] by done.
  cbn [for_each reverse app rev_append rev app].
  eapply triple_bind; [apply Hf; lia|]. intros u. apply IH. intros i Hi. apply Hf. lia.
Qed.

Lemma triple_elim {A} P (m : M S A) Q E s r s' :
  triple P m Q E → P s → m s = (r, s') →
  match r with Ok a => Q a s' | Err e => E e s' | Panic => False end.
Proof. intros Hm Hs Er. specialize (Hm s Hs). rewrite Er in Hm. by destruct r. Qed.

End Rules.
