(* ===== verification/Reads.v ===== *)
(** * Reasoning about callbacks and validators

    The validators take lookups of their caller as callbacks.  A lookup may
    change its owner (the block cache is a map with eviction) without
    changing what the owner answers.  [reads] states that a call returns a
    given result and leaves the owner in an equivalent state; [decides]
    that a validator accepts exactly when a predicate holds. *)

From S2P Require Import Prelude.

Section Reads.
Context {S : Type} (inv : S → Prop) (same : S → S → Prop).

(** The call [f] in the state [s] returns [r]; the state after it satisfies
    the invariant and answers as [s] does. *)
Definition reads {A} (f : M S A) (s : S) (r : result A) : Prop :=
  ∃ s', f s = (r, s') ∧ inv s' ∧ same s s'.

(** The validator [f] accepts in [s] exactly when [P] holds, and returns an
    error otherwise. *)
Definition decides (f : M S unit) (s : S) (P : Prop) : Prop :=
  ∃ r, reads f s r ∧ safe r ∧ (r = Ok tt ↔ P).

Context `{!PreOrder same}.

Lemma reads_lift {A} (r : result A) s : inv s → reads (lift r) s r.
Proof. intros. exists s. done. Qed.

Lemma reads_ret {A} (a : A) s : inv s → reads (mret a) s (Ok a).
Proof. intros. exists s. done. Qed.

Lemma reads_throw {A} e s : inv s → reads (throw (A := A) e) s (Err e).
Proof. intros. exists s. done. Qed.

Lemma reads_bind {A B} (f : M S A) (g : A → M S B) s r r' :
  reads f s r →
  (∀ a s', r = Ok a → inv s' → same s s' → reads (g a) s' (r' a)) →
  reads (f ≫= g) s (r ≫= r').
Proof.
  intros (s1 & E & Hi & Hv) Hg. unfold reads, mbind, M_bind. rewrite E. simpl.
  destruct r as [a|e|]; simpl; [|by exists s1..].
  destruct (Hg a s1 eq_refl Hi Hv) as (s2 & E2 & Hi2 & Hv2).
  exists s2. split_and!; [done|done|]. by etrans.
Qed.

Lemma reads_bind_ok {A B} (f : M S A) (g : A → M S B) s a r :
  reads f s (Ok a) → (∀ s', inv s' → same s s' → reads (g a) s' r) → reads (f ≫= g) s r.
Proof.
  intros Hf Hg. apply (reads_bind f g s (Ok a) (λ _, r)); [done|]. intros a' s' [= <-]. apply Hg.
Qed.

Lemma reads_wrap {A} fmt (f : M S A) s r : reads f s r → reads (wrapM fmt f) s (wrap fmt r).
Proof. intros (s' & E & ? & ?). exists s'. unfold wrapM. by rewrite E. Qed.

Lemma decides_iff f s P Q : (P ↔ Q) → decides f s P → decides f s Q.
Proof. intros HPQ (r & Hr & Hs & HP). exists r. by rewrite HP. Qed.

#[global] Instance decides_proper f s : Proper (iff ==> iff) (decides f s).
Proof. intros P Q HPQ. split; apply decides_iff; [done|by symmetry]. Qed.

Lemma decides_lift (r : result unit) s : inv s → safe r → decides (lift r) s (r = Ok tt).
Proof. intros. exists r. split; [by apply reads_lift|done]. Qed.

Lemma decides_check cond e s : inv s → decides (checkM cond e) s (cond = false).
Proof.
  intros. exists (check cond e). split_and!; [by apply reads_lift|apply safe_check|apply check_Ok].
Qed.

Lemma decides_ret s : inv s → decides (mret tt) s True.
Proof. intros. exists (Ok tt). split; [by apply reads_ret|done]. Qed.

Lemma decides_throw e s : inv s → decides (throw e) s False.
Proof. intros. exists (Err e). split; [by apply reads_throw|done]. Qed.

(** What a validator says about a value computed by a fallible call. *)
Lemma decides_bind {A} (f : M S A) (g : A → M S unit) s r (Q : A → Prop) :
  reads f s r → safe r →
  (∀ a s', r = Ok a → inv s' → same s s' → decides (g a) s' (Q a)) →
  decides (f ≫= g) s (∃ a, r = Ok a ∧ Q a).
Proof.
  intros (s1 & E & Hi & Hv) Hsafe Hg. unfold decides, reads, mbind, M_bind. rewrite E.
  destruct r as [a|e|].
  - destruct (Hg a s1 eq_refl Hi Hv) as (r & (s2 & E2 & Hi2 & Hv2) & Hs & Hr).
    exists r. split; [exists s2; split_and!; [done|done|by etrans]|]. split; [done|].
    rewrite Hr. split; [by exists a|]. by intros (? & [= <-] & ?).
  - exists (Err e). split; [by exists s1|]. split; [done|]. naive_solver.
  - done.
Qed.

Lemma decides_bind_ok {A} (f : M S A) (g : A → M S unit) s a Q :
  reads f s (Ok a) → (∀ s', inv s' → same s s' → decides (g a) s' Q) → decides (f ≫= g) s Q.
Proof.
  intros Hf Hg. eapply decides_iff; [|eapply (decides_bind _ _ _ _ (λ _, Q)); [exact Hf|done|]].
  - split; [by intros (? & _ & ?)|by exists a].
  - intros a' s' [= <-]. apply Hg.
Qed.

Lemma decides_seq (f g : M S unit) s P Q :
  decides f s P → (∀ s', P → inv s' → same s s' → decides g s' Q) → decides (f;; g) s (P ∧ Q).
Proof.
  intros (r & Hf & Hs & HP) Hg.
  eapply decides_iff; [|eapply (decides_bind _ _ _ _ (λ _, Q)); [exact Hf|done|]].
  - rewrite <- HP. split; [by intros ([] & -> & ?)|]. intros [-> ?]. by exists tt.
  - intros [] s' ->. apply Hg. by apply HP.
Qed.

Lemma decides_wrap fmt f s P : decides f s P → decides (wrapM fmt f) s P.
Proof.
  intros (r & Hr & Hs & HP). exists (wrap fmt r).
  split_and!; [by apply reads_wrap|by apply safe_wrap|by rewrite wrap_Ok].
Qed.

Lemma decides_for_each {A} (f : A → M S unit) (P : A → Prop) l s :
  inv s → (∀ x s', x ∈ l → inv s' → same s s' → decides (f x) s' (P x)) →
  decides (for_each f l) s (Forall P l).
Proof.
  revert s. induction l as [|x l IH]; intros s Hi Hf; simpl.
  { eapply decides_iff; [|by apply decides_ret]. split; [constructor|done]. }
  rewrite Forall_cons. apply decides_seq; [by apply Hf; [left| |]|].
  intros s' _ Hi' Hs. apply IH; [done|]. intros y s'' ? ? ?. apply Hf; [by right|done|by etrans].
Qed.

(** A validator that decides [P], run: success is [P]. *)
Lemma decides_accepts f s P u s' : decides f s P → f s = (Ok u, s') → P.
Proof.
  intros (r & (s1 & E & _) & _ & HP) E'. rewrite E in E'. simplify_eq. apply HP. by destruct u.
Qed.

Lemma decides_complete f s P : decides f s P → P → ∃ s', f s = (Ok tt, s') ∧ inv s' ∧ same s s'.
Proof. intros (r & (s1 & E & ?) & _ & HP) HPP. apply HP in HPP as ->. by exists s1. Qed.

End Reads.

Create HintDb reads.
#[export] Hint Resolve reads_lift reads_ret reads_throw reads_wrap decides_lift decides_check
  decides_ret decides_throw decides_wrap : reads.
