(* ===== verification/Difficulty.v ===== *)
(** * Properties of the difficulty and timestamp rules

    The LWMA sums never overflow, the new difficulty stays within fixed
    factors of the window's, the variants of the rule agree, and the median
    is the middle of the sorted timestamps. *)

From S2P Require Import Prelude Bytes Crypto Transaction Block Header ExchangeSort Consensus Pow Instances Reads.

(** ** The block source a rule walks

    What a caller promises when it passes its lookup as [getParent]: the
    answer is that of a mapping from hashes to blocks, which equivalent
    states share, whatever the lookup does to the caller's caches. *)
Class BlockSource {S} (inv : S → Prop) (same : S → S → Prop)
    (getParent : bytes → M S (option Block)) (view : S → bytes → option Block) : Prop := {
  block_source : ∀ s h, inv s → reads inv same (getParent h) s (Ok (view s h));
  block_source_same : ∀ s s' h, same s s' → view s' h = view s h;
}.

(** Reference walk over a mapping: the window of [n+1] blocks ending at [b],
    in ascending order. *)
Fixpoint window (view : bytes → option Block) (n : nat) (b : Block) : result (list Block) :=
  match n with
  | O => Ok [b]
  | S n =>
      if Height (Header b) =? 0 then Err (Errorf "insufficient ancestors for LWMA window")
      else match view (PrevHash (Header b)) with
           | None => Err (Errorf "missing ancestor at height %d")
           | Some p => w ← window view n p; Ok (w ++ [b])
           end
  end.

Fixpoint back_timestamps (view : bytes → option Block) (n : nat) (b : option Block) : list Z :=
  match n, b with
  | S n, Some b =>
      if Height (Header b) =? 0 then [Timestamp (Header b)]
      else Timestamp (Header b) :: back_timestamps view n (view (PrevHash (Header b)))
  | _, _ => []
  end.

Definition expected_difficulty (view : bytes → option Block) (parent : Block) : result Z :=
  if Height (Header parent) <? Z.of_nat LWMAWindow then Ok MinDifficulty
  else w ← window view LWMAWindow parent;
       match lwma (nthZ w) with Some d => Ok d | None => Panic end.

Definition median_time (view : bytes → option Block) (parent : Block) (n : nat) : result Z :=
  if decide (n = 0%nat) then Err (Errorf "invalid median window: %d")
  else let ts := back_timestamps view n (Some parent) in
       if decide (ts = []) then Err (Errorf "no timestamps available")
       else match median_of ts with Some m => Ok m | None => Panic end.

Lemma window_ext v1 v2 n b : (∀ h, v1 h = v2 h) → window v1 n b = window v2 n b.
Proof.
  intros Hv. revert b. induction n as [|n IH]; intros b; simpl; [done|].
  rewrite Hv. destruct (_ =? 0); [done|]. destruct (v2 _); [|done]. by rewrite IH.
Qed.

Lemma back_timestamps_ext v1 v2 n b :
  (∀ h, v1 h = v2 h) → back_timestamps v1 n b = back_timestamps v2 n b.
Proof.
  intros Hv. revert b. induction n as [|n IH]; intros [b|]; simpl; [done..| |done].
  destruct (_ =? 0); [done|]. by rewrite Hv, IH.
Qed.

Section Source.
Context {S : Type} {inv : S → Prop} {same : S → S → Prop} `{!PreOrder same}
        {getParent : bytes → M S (option Block)} {view : S → bytes → option Block}
        `{!BlockSource inv same getParent view}.

#[local] Abbreviation reads := (Reads.reads inv same).

Lemma collect_window_reads n b s :
  inv s → reads (collect_window getParent n b) s (window (view s) n b).
Proof.
  revert b s. induction n as [|n IH]; intros b s Hi; simpl; [by apply reads_ret|].
  destruct (_ =? 0); [by apply reads_throw|].
  eapply (reads_bind_ok inv same); [by apply block_source|]. intros s' Hi' Hv.
  destruct (view s (PrevHash (Header b))) as [p|]; [|by apply reads_throw].
  rewrite <- (window_ext (view s') (view s)) by (intros; by apply block_source_same).
  apply (reads_bind inv same); [by apply IH|]. intros. by apply reads_ret.
Qed.

Lemma collect_timestamps_reads n b s :
  inv s → reads (collect_timestamps getParent n b) s (Ok (back_timestamps (view s) n b)).
Proof.
  revert b s. induction n as [|n IH]; intros [b|] s Hi; simpl; try by apply reads_ret.
  destruct (_ =? 0); [by apply reads_ret|].
  eapply (reads_bind_ok inv same); [by apply block_source|]. intros s' Hi' Hv.
  rewrite <- (back_timestamps_ext (view s') (view s)) by (intros; by apply block_source_same).
  eapply (reads_bind_ok inv same); [by apply IH|]. intros. by apply reads_ret.
Qed.

Lemma expectedDifficultyFromParent_reads parent s :
  inv s → reads (expectedDifficultyFromParent getParent parent) s (expected_difficulty (view s) parent).
Proof.
  intros Hi. unfold expectedDifficultyFromParent, expected_difficulty.
  destruct (_ <? _); [by apply reads_ret|].
  apply (reads_bind inv same); [by apply collect_window_reads|]. intros w s' _ Hi' _.
  destruct (lwma _); [by apply reads_ret|by apply reads_lift].
Qed.

Lemma medianTimestampFromParent_reads parent n s :
  inv s → reads (medianTimestampFromParent getParent parent n) s (median_time (view s) parent n).
Proof.
  intros Hi. unfold medianTimestampFromParent, median_time.
  destruct (decide (n = 0%nat)); [by apply reads_throw|].
  eapply (reads_bind_ok inv same); [by apply collect_timestamps_reads|]. intros s' Hi' _. cbv zeta.
  destruct (decide (_ = [])); [by apply reads_throw|].
  destruct (median_of _); [by apply reads_ret|by apply reads_lift].
Qed.

End Source.

(** ** LWMA arithmetic *)

(** [i + (i+1) + ... + (i+n-1)] *)
Fixpoint weights (n : nat) (i : Z) : Z :=
  match n with
  | O => 0
  | S n => i + weights n (i + 1)
  end.

Lemma weights_nonneg n i : 0 <= i → 0 <= weights n i.
Proof. revert i. induction n as [|n IH]; simpl; intros; [lia|]. specialize (IH (i + 1)). lia. Qed.

Lemma clamp_range t : 1 <= clamp_solvetime t <= 1800.
Proof.
  unfold clamp_solvetime, LWMAMinSolvetime, LWMAMaxSolvetime, BlockIntervalSec.
  destruct (t <? 1) eqn:?; [simpl; lia|]. destruct (300 * 6 <? t) eqn:?; lia.
Qed.

Lemma lwma_sums_weighted at_ n i ws ds ws' ds' :
  1 <= i → 0 <= ws → ws + 1800 * weights n i < 2 ^ 63 →
  lwma_sums at_ n i (ws, ds) = Some (ws', ds') →
  ws + weights n i <= ws' <= ws + 1800 * weights n i.
Proof.
  revert i ws ds. induction n as [|n IH]; intros i ws ds Hi Hws Hmax E; simpl in E.
  { simplify_eq. simpl. lia. }
  destruct (at_ i) as [cur|]; [|done]. destruct (at_ (i - 1)) as [prev|]; [|done]. simpl in E.
  cbn [weights] in *. pose proof (weights_nonneg n (i + 1)).
  set (t := clamp_solvetime _) in E. assert (1 <= t <= 1800) by apply clamp_range.
  assert (i <= t * i <= 1800 * i) by nia.
  rewrite (i64_small (t * i)), (i64_small (ws + t * i)) in E by (unfold_ints; lia).
  apply IH in E; lia.
Qed.

Lemma lwma_sums_difficulty at_ n i ws ds ws' ds' d D :
  0 <= d → 0 <= ds → ds + Z.of_nat n * D < 2 ^ 64 →
  (∀ j b, i <= j < i + Z.of_nat n → at_ j = Some b → d <= Difficulty (Header b) <= D) →
  lwma_sums at_ n i (ws, ds) = Some (ws', ds') →
  ds + Z.of_nat n * d <= ds' <= ds + Z.of_nat n * D.
Proof.
  intros Hd. revert i ws ds. induction n as [|n IH]; intros i ws ds Hds Hmax HD E; simpl in E.
  { simplify_eq. lia. }
  destruct (at_ i) as [cur|] eqn:Ei; [|done]. destruct (at_ (i - 1)) as [prev|]; [|done]. simpl in E.
  pose proof (HD i cur ltac:(lia) Ei) as Hc.
  rewrite Nat2Z.inj_succ, Z.mul_succ_l in *.
  assert (0 <= Z.of_nat n * D) by nia.
  rewrite (u64_small (ds + _)) in E by (unfold_ints; lia).
  apply IH in E; [lia|lia|lia|]. intros j b Hj. apply HD. lia.
Qed.

Lemma lwma_sums_ext at1 at2 n i acc :
  (∀ j, i - 1 <= j < i + Z.of_nat n → at1 j = at2 j) →
  lwma_sums at1 n i acc = lwma_sums at2 n i acc.
Proof.
  revert i acc. induction n as [|n IH]; intros i [ws ds] He; simpl; [done|].
  rewrite (He i), (He (i - 1)) by lia.
  destruct (at2 i); [|done]. destruct (at2 (i - 1)); [|done]. simpl.
  apply IH. intros j Hj. apply He. lia.
Qed.

(** The rule depends on the 61 blocks of its window only. *)
Lemma lwma_ext at1 at2 :
  (∀ j, 0 <= j <= Z.of_nat LWMAWindow → at1 j = at2 j) → lwma at1 = lwma at2.
Proof.
  intros He. unfold lwma. f_equal. apply lwma_sums_ext. intros j Hj. apply He. lia.
Qed.

Lemma lwma_sums_total at_ n i acc :
  (∀ j, i - 1 <= j < i + Z.of_nat n → is_Some (at_ j)) → is_Some (lwma_sums at_ n i acc).
Proof.
  revert i acc. induction n as [|n IH]; intros i [ws ds] He; simpl; [eauto|].
  destruct (He i) as [b ->]; [lia|]. destruct (He (i - 1)) as [b' ->]; [lia|]. simpl.
  apply IH. intros j Hj. apply He. lia.
Qed.

Lemma lwma_total at_ :
  (∀ j, 0 <= j <= Z.of_nat LWMAWindow → is_Some (at_ j)) → is_Some (lwma at_).
Proof.
  intros He. unfold lwma.
  destruct (lwma_sums_total at_ LWMAWindow 1 (0, 0)) as [p ->].
  - intros j Hj. apply He. lia.
  - simpl. eauto.
Qed.

Definition expectedWeighted : Z := BlockIntervalSec * weightSum.

Lemma lwma_result_value ws ds :
  1830 <= ws <= 3294000 → is_u64 ds →
  lwma_result (ws, ds)
  = Z.max MinDifficulty (u64 (ds `div` 60 * expectedWeighted) `div` ws).
Proof.
  intros Hws Hds. unfold lwma_result.
  rewrite (proj2 (Z.ltb_ge ws 1)) by lia.
  rewrite (u64_small ws) by (unfold_ints; lia).
  change (u64 (BlockIntervalSec * weightSum)) with expectedWeighted.
  change (Z.of_nat LWMAWindow) with 60.
  destruct (Z.ltb_spec (u64 (ds `div` 60 * expectedWeighted) `div` ws) MinDifficulty); lia.
Qed.

Lemma lwma_sums_u64 at_ n i ws ds ws' ds' :
  is_u64 ds → lwma_sums at_ n i (ws, ds) = Some (ws', ds') → is_u64 ds'.
Proof.
  revert i ws ds. induction n as [|n IH]; intros i ws ds Hds E; simpl in E; [by simplify_eq|].
  destruct (at_ i); [|done]. destruct (at_ (i - 1)); [|done]. simpl in E.
  eapply IH; [|exact E]. apply u64_range.
Qed.

(** The sums of a complete window: no overflow of the weighted solve times,
    and the guard against a zero divisor never fires. *)
Lemma lwma_window_sums at_ ws ds :
  lwma_sums at_ LWMAWindow 1 (0, 0) = Some (ws, ds) → 1830 <= ws <= 3294000 ∧ is_u64 ds.
Proof.
  intros E. split.
  - apply lwma_sums_weighted in E; [|vm_compute; congruence..].
    change (weights LWMAWindow 1) with 1830 in E. lia.
  - eapply lwma_sums_u64; [|exact E]. unfold_ints. lia.
Qed.

Lemma lwma_value at_ r :
  lwma at_ = Some r →
  ∃ ws ds, lwma_sums at_ LWMAWindow 1 (0, 0) = Some (ws, ds) ∧ 1830 <= ws <= 3294000 ∧ is_u64 ds ∧
           r = Z.max MinDifficulty (u64 (ds `div` 60 * expectedWeighted) `div` ws).
Proof.
  unfold lwma. destruct (lwma_sums _ _ _ _) as [[ws ds]|] eqn:E; [|done]. intros [= <-].
  pose proof (lwma_window_sums _ _ _ E) as [Hws Hds].
  exists ws, ds. split_and!; try done; try lia; try apply Hds. by apply lwma_result_value.
Qed.

Lemma lwma_factor avg ws d D :
  0 <= d → d <= avg <= D → 1830 <= ws <= 3294000 →
  d `div` 6 <= (avg * expectedWeighted) `div` ws <= 300 * D.
Proof.
  intros Hd Ha Hws. unfold expectedWeighted. change (BlockIntervalSec * weightSum) with 549000. split.
  - apply Z.div_le_lower_bound; [lia|].
    assert (6 * (d `div` 6) <= d) by (apply Z.mul_div_le; lia).
    assert (0 <= d `div` 6) by (apply Z.div_pos; lia). nia.
  - apply Z.div_le_upper_bound; [lia|]. nia.
Qed.

(** ** Median *)

Lemma sorted_timestamps l : StronglySorted Z.le (exchange_sort (λ x y, y <? x) l).
Proof.
  apply exchange_sort_sorted.
  - intros x y z. lia.
  - intros x y. lia.
  - intros x y. lia.
  - lia.
Qed.

Lemma median_perm l k : l ≡ₚ k → median_of l = median_of k.
Proof.
  intros Hp. unfold median_of. rewrite (Permutation_length Hp). f_equal.
  apply (StronglySorted_unique Z.le); [apply sorted_timestamps..|].
  by rewrite !exchange_sort_perm.
Qed.

Lemma median_total l : l ≠ [] → ∃ m, median_of l = Some m ∧ m ∈ l.
Proof.
  intros Hl. unfold median_of.
  destruct (lookup_lt_is_Some_2 (exchange_sort (λ x y : Z, y <? x) l) (length l / 2)) as [m Hm].
  - rewrite length_exchange_sort. apply Nat.div_lt; [|lia]. by destruct l; simpl; [|lia].
  - exists m. split; [done|]. apply list_elem_of_lookup_2 in Hm. by rewrite exchange_sort_perm in Hm.
Qed.

Lemma sorted_split (l1 l2 : list Z) m :
  StronglySorted Z.le (l1 ++ m :: l2) → Forall (λ t, t <= m) l1 ∧ Forall (λ t, m <= t) l2.
Proof.
  induction l1 as [|x l1 IH]; simpl; intros Hs; inversion Hs as [|?? Hs' HF]; subst; [done|].
  destruct (IH Hs') as [H1 H2]. split; [|done]. constructor; [|done].
  apply Forall_app in HF as [_ HF]. by inversion HF.
Qed.

(** The element the rule selects is a median. *)
Lemma median_middle l m :
  median_of l = Some m →
  (length l <= 2 * length (filter (λ t, (t <= m)%Z) l))%nat ∧
  (length l <= 2 * length (filter (λ t, (m <= t)%Z) l))%nat.
Proof.
  unfold median_of. set (sl := exchange_sort _ l). intros Hm.
  assert (sl ≡ₚ l) as Hp by apply exchange_sort_perm.
  assert (StronglySorted Z.le sl) as Hs by apply sorted_timestamps.
  rewrite <- !Hp. assert (length l = length sl) as Hl by by rewrite Hp.
  pose proof (take_drop_middle _ _ _ Hm) as E.
  rewrite <- E in Hs. apply sorted_split in Hs as [H1 H2].
  pose proof (lookup_lt_Some _ _ _ Hm).
  pose proof (Nat.div_mod (length l) 2 ltac:(lia)). pose proof (Nat.mod_upper_bound (length l) 2 ltac:(lia)).
  rewrite <- E, !filter_app, !filter_cons_True by lia.
  rewrite (filter_id (λ t, t <= m) (take _ sl)), (filter_id (λ t, m <= t) (drop _ sl)) by done.
  remember (length l / 2)%nat as k. rewrite !length_app. cbn [length].
  rewrite length_take, length_drop. lia.
Qed.

(** ** Windows *)

Lemma window_length v n b w : window v n b = Ok w → length w = S n.
Proof.
  revert b w. induction n as [|n IH]; intros b w E; simpl in E; [by inv_ok|].
  destruct (_ =? 0); [done|]. destruct (v _) as [p|]; [|done]. inv_ok.
  rewrite length_app, (IH p) by done. simpl. lia.
Qed.

Lemma nthZ_lookup {A} (l : list A) i x : nthZ l i = Some x → 0 <= i ∧ l !! Z.to_nat i = Some x.
Proof. unfold nthZ. destruct (Z.ltb_spec i 0); [done|]. auto. Qed.

Lemma nthZ_is_Some {A} (l : list A) i : 0 <= i < Z.of_nat (length l) → is_Some (nthZ l i).
Proof.
  intros Hi. unfold nthZ. rewrite (proj2 (Z.ltb_ge i 0)) by lia. apply lookup_lt_is_Some_2. lia.
Qed.

(** The rule on a complete window. *)
Lemma expected_difficulty_window v parent w :
  Z.of_nat LWMAWindow <= Height (Header parent) → window v LWMAWindow parent = Ok w →
  ∃ r, lwma (nthZ w) = Some r ∧ expected_difficulty v parent = Ok r.
Proof.
  intros Hh Hw. pose proof (window_length _ _ _ _ Hw) as Hl. unfold expected_difficulty.
  rewrite (proj2 (Z.ltb_ge _ _)) by done. rewrite Hw. simpl.
  destruct (lwma_total (nthZ w)) as [r Hr]; [|rewrite Hr; eauto].
  intros j Hj. apply nthZ_is_Some. lia.
Qed.

(** A window of [n] further blocks at constant pace and difficulty. *)
Lemma lwma_sums_steady at_ n i ws ds D T :
  1 <= i → 0 <= ws → 0 <= ds → 0 <= D → ws + 300 * weights n i < 2 ^ 63 →
  ds + Z.of_nat n * D < 2 ^ 64 → 0 <= T → T + 300 * (i + Z.of_nat n) < 2 ^ 63 →
  (∀ j, i - 1 <= j < i + Z.of_nat n →
     ∃ b, at_ j = Some b ∧ Timestamp (Header b) = T + 300 * j ∧ Difficulty (Header b) = D) →
  lwma_sums at_ n i (ws, ds) = Some (ws + 300 * weights n i, ds + Z.of_nat n * D).
Proof.
  revert i ws ds. induction n as [|n IH]; intros i ws ds Hi Hws Hds HD Hmw Hmd HT Hmt Hat.
  { simpl. do 2 f_equal; lia. }
  destruct (Hat i) as (b & Eb & Tb & Db); [lia|].
  destruct (Hat (i - 1)) as (b' & Eb' & Tb' & _); [lia|].
  cbn [lwma_sums weights] in *. rewrite Eb, Eb'. cbn [mbind option_bind].
  rewrite Nat2Z.inj_succ, Z.mul_succ_l in *. pose proof (weights_nonneg n (i + 1)).
  rewrite Tb, Tb', Db. replace (T + 300 * i - (T + 300 * (i - 1))) with 300 by lia.
  change (clamp_solvetime (i64 300)) with 300.
  assert (0 <= Z.of_nat n * D) by nia.
  rewrite (i64_small (300 * i)), (i64_small (ws + _)), (u64_small (ds + D)) by (unfold_ints; lia).
  rewrite IH; try lia.
  - f_equal. f_equal; lia.
  - intros j Hj. apply Hat. lia.
Qed.

(** ** Proof of work *)

Lemma validatePoW_value `{HC : Crypto} `{!CryptoLaws HC} h :
  wf_header h → 0 < Difficulty h →
  validatePoW h = true ↔
  ∃ hash, PowHash (encode_header_no_nonce h) (Nonce h) = Ok hash ∧
          be_value hash <= (2 ^ 256 - 1) `div` Difficulty h.
Proof.
  intros Hwf Hd. unfold validatePoW. rewrite SerializeForPoW_encode by done.
  destruct (PowHash _ _) as [hash| |] eqn:E; [|naive_solver..].
  assert (length hash = 32%nat) as Hl.
  { unfold PowHash in E. destruct (blocknet_pow_hash _ _) eqn:E'; [|done].
    apply pow_hash_length in E'. by simplify_eq. }
  rewrite PowCheckTarget_be_value by by rewrite Hl, DifficultyToTarget_length.
  rewrite DifficultyToTarget_value by done. rewrite Z.leb_le.
  split; [eauto|]. intros (? & [= <-] & ?). done.
Qed.

(** ** Theorems *)

(** C29. The proof-of-work check is integer division.  A header whose hash,
    read as a 256-bit big-endian integer, differs from
    [(2^256 - 1) / difficulty] passes if and only if the hash is below it, as
    the documentation of the check says.  At equality, where the documentation
    asks for a smaller hash, the code accepts the header.  A header whose hash
    cannot be computed does not pass. *)
Theorem pow_check_exact `{HC : Crypto} `{!CryptoLaws HC} h :
  wf_header h → 0 < Difficulty h →
  let target := (2 ^ 256 - 1) `div` Difficulty h in
  match PowHash (encode_header_no_nonce h) (Nonce h) with
  | Ok hash =>
      (be_value hash ≠ target → validatePoW h = true ↔ be_value hash < target) ∧
      (be_value hash = target → validatePoW h = true)
  | _ => validatePoW h = false
  end.
Proof.
  intros Hwf Hd target. pose proof (validatePoW_value h Hwf Hd) as Hv. fold target in Hv.
  destruct (PowHash _ _) as [hash|e|].
  - split; [intros Hne; rewrite Hv|intros He; apply Hv; exists hash; split; [done|lia]].
    split; [intros (? & [= <-] & ?); lia|]. intros Hlt. exists hash. split; [done|lia].
  - apply not_true_is_false. by intros (? & ? & _)%Hv.
  - apply not_true_is_false. by intros (? & ? & _)%Hv.
Qed.

Section Claims.
Context {S : Type} {inv : S → Prop} {same : S → S → Prop} `{!PreOrder same}
        {getParent : bytes → M S (option Block)} {view : S → bytes → option Block}
        `{!BlockSource inv same getParent view}.

(** C30. The difficulty rule is total and bounded: over a branch of at least
    61 blocks, if the 60 newest difficulties lie in [[d, D]] and [D] is below
    [2^64 / 549000], the expected difficulty exists and lies between a sixth
    of [d] and 300 times [D] (and is never below the minimum). *)
Theorem expected_difficulty_bounded parent s w d D :
  inv s → 60 <= Height (Header parent) → window (view s) LWMAWindow parent = Ok w →
  0 <= d → 549000 * D < 2 ^ 64 →
  (∀ i b, (0 < i)%nat → w !! i = Some b → d <= Difficulty (Header b) <= D) →
  ∃ r s', expectedDifficultyFromParent getParent parent s = (Ok r, s') ∧
          Z.max MinDifficulty (d `div` 6) <= r <= Z.max MinDifficulty (300 * D).
Proof.
  intros Hi Hh Hw Hd HD Hdiff.
  destruct (expected_difficulty_window _ _ _ Hh Hw) as (r & Hr & He).
  destruct (expectedDifficultyFromParent_reads parent s Hi) as (s' & E & _ & _). rewrite He in E.
  exists r, s'. split; [done|].
  destruct (lwma_value _ _ Hr) as (ws & ds & Hs & Hws & Hds & ->).
  destruct (Hdiff 1%nat (default parent (w !! 1%nat))) as [Hd1 HD1]; [lia| |].
  { pose proof (window_length _ _ _ _ Hw) as Hl. unfold LWMAWindow in Hl.
    destruct w as [|? [|]]; simpl in Hl |- *; [lia|lia|done]. }
  apply (lwma_sums_difficulty _ _ _ _ _ _ _ d D) in Hs; [|done|lia|change (Z.of_nat LWMAWindow) with 60; lia|].
  - change (Z.of_nat LWMAWindow) with 60 in Hs.
    assert (d <= ds `div` 60 <= D) as Ha.
    { split; [apply Z.div_le_lower_bound|apply Z.div_le_upper_bound]; lia. }
    pose proof (lwma_factor _ _ _ _ Hd Ha Hws) as Hf.
    rewrite u64_small by (unfold expectedWeighted, is_u64;
      change (BlockIntervalSec * weightSum) with 549000; nia). lia.
  - intros j b Hj Hb. apply nthZ_lookup in Hb as [_ Hb]. eapply (Hdiff (Z.to_nat j)); [lia|done].
Qed.

(** C31. The fixed point of the difficulty rule, and where it breaks: on a
    branch that produced a block every 300 seconds at constant difficulty [D],
    the expected difficulty is [D] as long as [549000 * D] fits 64 bits; from
    there on the product wraps and the expected difficulty falls below [D]. *)
Theorem expected_difficulty_steady parent s w D T :
  inv s → 60 <= Height (Header parent) → window (view s) LWMAWindow parent = Ok w →
  MinDifficulty <= D < 2 ^ 58 → 0 <= T < 2 ^ 62 →
  (∀ i b, w !! i = Some b →
     Timestamp (Header b) = T + 300 * Z.of_nat i ∧ Difficulty (Header b) = D) →
  ∃ r s', expectedDifficultyFromParent getParent parent s = (Ok r, s') ∧
          (549000 * D < 2 ^ 64 → r = D) ∧ (2 ^ 64 <= 549000 * D → r < D).
Proof.
  intros Hi Hh Hw HD HT Hat.
  destruct (expected_difficulty_window _ _ _ Hh Hw) as (r & Hr & He).
  destruct (expectedDifficultyFromParent_reads parent s Hi) as (s' & E & _ & _). rewrite He in E.
  exists r, s'. split; [done|].
  destruct (lwma_value _ _ Hr) as (ws & ds & Hs & Hws & Hds & ->). unfold MinDifficulty in *.
  rewrite (lwma_sums_steady _ _ _ _ _ D T) in Hs;
    [|try (change (Z.of_nat LWMAWindow) with 60; lia)..].
  - change (300 * weights LWMAWindow 1) with 549000 in Hs. change (Z.of_nat LWMAWindow) with 60 in Hs.
    simplify_eq. unfold expectedWeighted. change (BlockIntervalSec * weightSum) with 549000.
    rewrite !Z.add_0_l, (Z.mul_comm 60), Z.div_mul by lia. split; intros Hfit.
    + rewrite u64_small by (unfold_ints; lia). rewrite Z.div_mul by lia. lia.
    + assert (u64 (D * 549000) `div` 549000 < D); [|lia].
      apply Z.div_lt_upper_bound; [lia|]. pose proof (u64_range (D * 549000)). unfold_ints. lia.
  - vm_compute. done.
  - intros j Hj. destruct (nthZ_is_Some w j) as [b Hb].
    { rewrite (window_length _ _ _ _ Hw). lia. }
    exists b. split; [done|]. apply nthZ_lookup in Hb as [? Hb]. destruct (Hat _ _ Hb) as [-> ->].
    split; [lia|done].
Qed.

(** C32. The median time of a branch: for a known parent the median of the up
    to [n] timestamps ending at it exists, is one of them, and is the middle
    element of their sorted sequence: at least half of them are not after it
    and more than half are not before it. *)
Theorem median_timestamp_exact parent s n :
  inv s → (0 < n)%nat →
  ∃ m s', medianTimestampFromParent getParent parent n s = (Ok m, s') ∧
    let ts := back_timestamps (view s) n (Some parent) in
    m ∈ ts ∧
    (length ts <= 2 * length (filter (λ t, (t <= m)%Z) ts))%nat ∧
    (length ts <= 2 * length (filter (λ t, (m <= t)%Z) ts))%nat.
Proof.
  intros Hi Hn. set (ts := back_timestamps (view s) n (Some parent)).
  destruct (medianTimestampFromParent_reads parent n s Hi) as (s' & E & _ & _).
  unfold median_time in E. rewrite decide_False in E by lia. fold ts in E.
  assert (ts ≠ []) as Hne.
  { unfold ts. destruct n as [|n]; [lia|]. simpl. by destruct (_ =? 0). }
  rewrite decide_False in E by done. destruct (median_total ts Hne) as (m & Hm & Hin).
  rewrite Hm in E. exists m, s'. split; [done|]. split; [done|]. by apply median_middle.
Qed.

End Claims.

(** A branch of blocks every 300 seconds: [PrevHash] is the number of the
    parent. *)
Definition steady_block (D n : Z) : Block :=
  MkBlock (MkBlockHeader 1 n (le_bytes 32 (n - 1)) (zeros 32) (1771207118 + 300 * n) D 0) [].

Definition steady_view (D : Z) (_ : unit) (h : bytes) : option Block :=
  Some (steady_block D (le_value h)).

Lemma steady_source D :
  BlockSource (λ _, True) (λ _ _, True) (λ h, mret (steady_view D tt h)) (steady_view D).
Proof. constructor; [intros [] h _; by exists tt|done]. Qed.

Lemma unit_preorder : PreOrder (λ _ _ : unit, True).
Proof. by split. Qed.

Definition steady_window (D : Z) : list Block := steady_block D <$> seqZ 1 61.

Lemma steady_window_lookup D i b :
  steady_window D !! i = Some b → b = steady_block D (1 + Z.of_nat i).
Proof.
  unfold steady_window. rewrite list_lookup_fmap. intros (z & Hz & ->)%fmap_Some.
  apply lookup_seqZ in Hz as [-> _]. done.
Qed.

#[local] Existing Instance toy_crypto.
#[local] Existing Instance toy_crypto_laws.

Lemma pow_check_exact_witness :
  match PowHash (encode_header_no_nonce example_header) (Nonce example_header) with
  | Ok hash => be_value hash ≠ (2 ^ 256 - 1) `div` Difficulty example_header →
      validatePoW example_header = true ↔ be_value hash < (2 ^ 256 - 1) `div` Difficulty example_header
  | _ => False
  end.
Proof.
  pose proof (pow_check_exact example_header example_header_wf eq_refl) as H.
  assert (is_Ok (PowHash (encode_header_no_nonce example_header) (Nonce example_header)) = true) as Hk by (vm_compute; reflexivity).
  destruct (PowHash _ _) as [hash|e|]; [exact (proj1 H)|discriminate Hk|discriminate Hk].
Defined.

Lemma expected_difficulty_bounded_witness :
  ∃ r s', expectedDifficultyFromParent (λ h, mret (steady_view 1000 tt h)) (steady_block 1000 61) tt
          = (Ok r, s') ∧
          Z.max MinDifficulty (1000 `div` 6) <= r <= Z.max MinDifficulty (300 * 1000).
Proof.
  apply (expected_difficulty_bounded (PreOrder0 := unit_preorder)
           (BlockSource0 := steady_source 1000) _ tt (steady_window 1000)).
  - exact I.
  - vm_compute. congruence.
  - vm_compute. reflexivity.
  - lia.
  - lia.
  - intros i b _ ->%steady_window_lookup. simpl. lia.
Defined.

Lemma expected_difficulty_steady_witness :
  ∃ r s', expectedDifficultyFromParent (λ h, mret (steady_view (2 ^ 46) tt h))
            (steady_block (2 ^ 46) 61) tt = (Ok r, s') ∧
          (549000 * 2 ^ 46 < 2 ^ 64 → r = 2 ^ 46) ∧ (2 ^ 64 <= 549000 * 2 ^ 46 → r < 2 ^ 46).
Proof.
  apply (expected_difficulty_steady (PreOrder0 := unit_preorder)
           (BlockSource0 := steady_source (2 ^ 46)) _ tt (steady_window (2 ^ 46)) _ (1771207118 + 300)).
  - exact I.
  - vm_compute. congruence.
  - vm_compute. reflexivity.
  - vm_compute. split; congruence.
  - vm_compute. split; congruence.
  - intros i b ->%steady_window_lookup. simpl. split; [lia|done].
Defined.

Lemma median_timestamp_exact_witness :
  ∃ m s', medianTimestampFromParent (λ h, mret (steady_view 4 tt h)) (steady_block 4 61) 11 tt
          = (Ok m, s') ∧
    let ts := back_timestamps (steady_view 4 tt) 11 (Some (steady_block 4 61)) in
    m ∈ ts ∧
    (length ts <= 2 * length (filter (λ t, (t <= m)%Z) ts))%nat ∧
    (length ts <= 2 * length (filter (λ t, (m <= t)%Z) ts))%nat.
Proof.
  apply (median_timestamp_exact (PreOrder0 := unit_preorder)
           (BlockSource0 := steady_source 4) (steady_block 4 61) tt 11); [exact I|lia].
Defined.
