(* ===== verification/Memo.v ===== *)
(** * Memo envelopes and amount masks ([wallet/memo.go], [wallet/builder.go])

    The 128-byte encrypted memo of every output and the 8-byte encrypted
    amount, as both the wallet and consensus derive them. *)

From S2P Require Import Prelude Bytes Crypto Instances Transaction Block.

Definition MemoEnvelopeVersion : byte := Init.Byte.x01.
Definition memoPayloadMax : nat := 124.

Section Memo.
Context `{Crypto} `{Network}.

Definition memoChecksum (payload : bytes) : bytes :=
  sha3_256 (bytes_of_string "blocknet_memo_checksum" ++
            le_bytes 2 (Z.of_nat (length payload)) ++ payload).

Definition deriveMemoMask (sharedSecret : bytes) (outputIndex : Z) : bytes :=
  let seed := sha3_256 (sharedSecret ++ bytes_of_string "memo" ++
                        le_bytes 4 (u32 outputIndex) ++ bytes_of_string MemoBlockDomainSep) in
  concat ((λ i, sha3_256 (seed ++ le_bytes 4 i)) <$> [0; 1; 2; 3]).

(** [padding] is what [rand.Read] returned for the rest of the envelope, if
    it succeeded. *)
Definition buildMemoEnvelope (padding : nat → option bytes) (memo : bytes) : result bytes :=
  check (bool_decide (memoPayloadMax < length memo)%nat) (Errorf "memo too long: max %d bytes");;
  let checksum := memoChecksum memo in
  let prefix := [MemoEnvelopeVersion; byte_of_Z (Z.of_nat (length memo))] ++
                take 2 checksum ++ memo in
  let padStart := (4 + length memo)%nat in
  if decide (padStart < MemoSize)%nat then
    match padding (MemoSize - padStart)%nat with
    | None => Err (Errorf "memo padding rng failure")
    | Some pad =>
        check (bool_decide (length pad ≠ (MemoSize - padStart)%nat))
              (Errorf "memo padding rng short read: got %d want %d");;
        Ok (prefix ++ pad)
    end
  else Ok prefix.

Definition EncryptMemo (padding : nat → option bytes) (memo sharedSecret : bytes)
    (outputIndex : Z) : result bytes :=
  envelope ← buildMemoEnvelope padding memo;
  Ok (zip_with byte_xor envelope (deriveMemoMask sharedSecret outputIndex)).

(** [None] is the Go result [(nil, false)]. *)
Definition DecryptMemo (encrypted sharedSecret : bytes) (outputIndex : Z) : option bytes :=
  let plain := zip_with byte_xor encrypted (deriveMemoMask sharedSecret outputIndex) in
  if decide (plain !! 0%nat ≠ Some MemoEnvelopeVersion) then None
  else
    let len := Z.to_nat (default 0 (Z_of_byte <$> plain !! 1%nat)) in
    if decide (memoPayloadMax < len)%nat then None
    else
      let payload := take len (drop 4 plain) in
      let checksum := memoChecksum payload in
      if decide (plain !! 2%nat = checksum !! 0%nat ∧ plain !! 3%nat = checksum !! 1%nat)
      then Some payload
      else None.

(** *** Amounts, as the wallet computes them *)

Definition amountMask (blinding : bytes) (outputIndex : Z) : bytes :=
  sha3_256 (bytes_of_string "blocknet_amount" ++ blinding ++ le_bytes 4 (u32 outputIndex)).

Definition encryptAmount (amount : Z) (blinding : bytes) (outputIndex : Z) : bytes :=
  zip_with byte_xor (le_bytes 8 amount) (take 8 (amountMask blinding outputIndex)).

Definition DecryptAmount (encrypted blinding : bytes) (outputIndex : Z) : Z :=
  le_value (zip_with byte_xor encrypted (take 8 (amountMask blinding outputIndex))).

End Memo.

(** ** Properties *)

Lemma zip_xor_involutive (l m : bytes) :
  (length l <= length m)%nat → zip_with byte_xor (zip_with byte_xor l m) m = l.
Proof.
  revert m. induction l as [|x l IH]; intros [|y m] Hl; simpl in *; [done..|lia|].
  rewrite byte_xor_involutive, IH by lia. done.
Qed.

Lemma byte_of_Z_shift z n : 0 <= n → byte_of_Z (Z.shiftr z n) = byte_of_Z (z `div` 2 ^ n).
Proof. intros. by rewrite Z.shiftr_div_pow2. Qed.

Section MemoFacts.
Context `{HC : Crypto} `{!CryptoLaws HC} `{HN : Network}.

Lemma length_deriveMemoMask secret idx : length (deriveMemoMask secret idx) = MemoSize.
Proof. unfold deriveMemoMask. simpl. by rewrite !length_app, !sha3_256_length. Qed.

Lemma memoChecksum_split payload : ∃ a b rest, memoChecksum payload = a :: b :: rest.
Proof.
  pose proof (sha3_256_length (bytes_of_string "blocknet_memo_checksum" ++
            le_bytes 2 (Z.of_nat (length payload)) ++ payload)) as Hl.
  unfold memoChecksum. destruct (sha3_256 _) as [|a [|b rest]]; simpl in Hl; [lia|lia|eauto].
Qed.

Lemma le_bytes_8 z :
  le_bytes 8 z = [byte_of_Z z; byte_of_Z (z `div` 2 ^ 8); byte_of_Z (z `div` 2 ^ 16);
    byte_of_Z (z `div` 2 ^ 24); byte_of_Z (z `div` 2 ^ 32); byte_of_Z (z `div` 2 ^ 40);
    byte_of_Z (z `div` 2 ^ 48); byte_of_Z (z `div` 2 ^ 56)].
Proof. unfold le_bytes. rewrite !Z.div_div by lia. done. Qed.

Lemma byte_of_Z_mod z n : 8 <= n → byte_of_Z (z `mod` 2 ^ n) = byte_of_Z z.
Proof.
  intros Hn. apply Z_of_byte_inj. rewrite !Z_of_byte_of_Z.
  replace (2 ^ n) with (256 * 2 ^ (n - 8)).
  - rewrite Z.rem_mul_r by (lia || (apply Z.pow_pos_nonneg; lia)).
    rewrite Z.mul_comm, Z.mod_add by lia. apply Z.mod_mod. lia.
  - change 256 with (2 ^ 8). rewrite <- Z.pow_add_r by lia. f_equal. lia.
Qed.

Lemma le_bytes_4_index z :
  le_bytes 4 (u32 z) = [byte_of_Z z; byte_of_Z (z `div` 2 ^ 8);
                        byte_of_Z (z `div` 2 ^ 16); byte_of_Z (z `div` 2 ^ 24)].
Proof.
  unfold le_bytes, u32. rewrite !Z.div_div by lia.
  assert (∀ k, 0 <= k <= 24 → byte_of_Z ((z `mod` 2 ^ 32) `div` 2 ^ k) = byte_of_Z (z `div` 2 ^ k)) as Hk.
  { intros k Hk. rewrite <- (byte_of_Z_mod (z `div` 2 ^ k) (32 - k)) by lia. f_equal.
    apply Z.bits_inj'. intros n Hn.
    rewrite !Z.div_pow2_bits by lia.
    destruct (Z.ltb_spec (n + k) 32).
    - rewrite Z.mod_pow2_bits_low, Z.mod_pow2_bits_low, Z.div_pow2_bits by lia. done.
    - rewrite Z.mod_pow2_bits_high, Z.mod_pow2_bits_high by lia. done. }
  rewrite <- (Z.div_1_r (z `mod` _)) at 1. rewrite <- (Z.div_1_r z) at 5.
  f_equal; [exact (Hk 0 ltac:(lia))|]. f_equal; [exact (Hk 8 ltac:(lia))|].
  f_equal; [exact (Hk 16 ltac:(lia))|]. f_equal. exact (Hk 24 ltac:(lia)).
Qed.

Lemma DecryptMemo_EncryptMemo padding memo secret idx enc :
  EncryptMemo padding memo secret idx = Ok enc →
  length enc = MemoSize ∧ DecryptMemo enc secret idx = Some memo.
Proof.
  unfold EncryptMemo, buildMemoEnvelope. intros HE.
  apply bind_Ok in HE as (env & HE & [= <-]).
  apply bind_Ok in HE as (? & Hlen & HE). apply check_Ok', bool_decide_eq_false in Hlen.
  unfold memoPayloadMax in Hlen. destruct (memoChecksum_split memo) as (c0 & c1 & crest & Hc).
  assert (∃ pad, env = [MemoEnvelopeVersion; byte_of_Z (Z.of_nat (length memo)); c0; c1] ++ memo ++ pad
                 ∧ length env = MemoSize) as (pad & -> & Henv).
  { rewrite Hc in HE. unfold MemoSize in *.
    destruct (decide (4 + length memo < 128)%nat).
    - destruct (padding _) as [pad|]; [|done]. apply bind_Ok in HE as (? & Hp & [= <-]).
      apply check_Ok', bool_decide_eq_false, dec_stable in Hp. exists pad.
      simpl. rewrite length_app. split; [done|lia].
    - injection HE as <-. exists []. rewrite app_nil_r. simpl. split; [done|lia]. }
  split.
  { rewrite length_zip_with, Henv, length_deriveMemoMask. apply Nat.min_id. }
  unfold DecryptMemo. rewrite zip_xor_involutive by (rewrite length_deriveMemoMask, Henv; done).
  cbn [app lookup list_lookup fmap option_fmap option_map default drop].
  rewrite decide_False by (intros Hn; by apply Hn).
  rewrite Z_of_byte_of_Z, Z.mod_small by lia. unfold id. rewrite Nat2Z.id.
  rewrite decide_False by (unfold memoPayloadMax; lia).
  rewrite drop_0, take_app_length, Hc. rewrite decide_True by done. done.
Qed.

Lemma DecryptAmount_encryptAmount amount blinding idx :
  is_u64 amount → DecryptAmount (encryptAmount amount blinding idx) blinding idx = amount.
Proof.
  intros Ha. unfold DecryptAmount, encryptAmount. rewrite zip_xor_involutive.
  - by apply le_value_bytes_u64.
  - rewrite length_le_bytes, length_take. unfold amountMask. rewrite sha3_256_length. lia.
Qed.

Lemma EncryptAmount_wallet amount blinding idx :
  EncryptAmount amount blinding idx = encryptAmount amount blinding idx.
Proof.
  unfold EncryptAmount, encryptAmount, amountMask. rewrite le_bytes_4_index, le_bytes_8.
  by rewrite !byte_of_Z_shift by lia.
Qed.

End MemoFacts.

(** A memo survives encryption: for every payload of at most 124 bytes and
    every successful source of padding, [EncryptMemo] returns a 128-byte
    envelope that [DecryptMemo] opens, under the same secret and output index,
    to exactly the payload. *)
Theorem memo_roundtrip `{HC : Crypto} `{!CryptoLaws HC} `{Network} padding memo secret idx :
  (length memo <= 124)%nat → (∀ n, ∃ pad, padding n = Some pad ∧ length pad = n) →
  ∃ enc, EncryptMemo padding memo secret idx = Ok enc ∧ length enc = 128%nat ∧
         DecryptMemo enc secret idx = Some memo.
Proof.
  intros Hm Hpad.
  assert (∃ enc, EncryptMemo padding memo secret idx = Ok enc) as [enc HE].
  { unfold EncryptMemo, buildMemoEnvelope.
    rewrite bool_decide_false by (unfold memoPayloadMax; lia). cbn [check mbind result_bind].
    destruct (decide (4 + length memo < MemoSize)%nat); [|by eauto].
    destruct (Hpad (MemoSize - (4 + length memo))%nat) as (pad & -> & Hl).
    rewrite bool_decide_false by (intros Hn; by apply Hn). by eauto. }
  exists enc. split; [done|]. by eapply DecryptMemo_EncryptMemo.
Qed.

#[local] Existing Instance toy_crypto.
#[local] Existing Instance toy_crypto_laws.
Definition mainnet : Network := {| IsTestnet := false |}.
#[local] Existing Instance mainnet.

Lemma memo_roundtrip_witness :
  ∃ enc, EncryptMemo (λ n, Some (zeros n)) (bytes_of_string "hello") (zeros 32) 3 = Ok enc ∧
         length enc = 128%nat ∧ DecryptMemo enc (zeros 32) 3 = Some (bytes_of_string "hello").
Proof.
  apply memo_roundtrip; [vm_compute; lia|].
  intros n. exists (zeros n). split; [reflexivity|apply length_replicate].
Defined.

(** C27. Consensus and the wallet encrypt amounts identically, and the wallet's
    [DecryptAmount] recovers every 64-bit amount that consensus
    ([EncryptAmount], used for coinbase outputs) or the wallet encrypted. *)
Theorem amount_encryption_agrees `{HC : Crypto} `{!CryptoLaws HC} amount blinding idx :
  is_u64 amount →
  EncryptAmount amount blinding idx = encryptAmount amount blinding idx ∧
  DecryptAmount (EncryptAmount amount blinding idx) blinding idx = amount.
Proof.
  intros Ha. rewrite EncryptAmount_wallet. split; [done|]. by apply DecryptAmount_encryptAmount.
Qed.

Lemma amount_encryption_agrees_witness :
  EncryptAmount 72325093035 (zeros 32) 0 = encryptAmount 72325093035 (zeros 32) 0 ∧
  DecryptAmount (EncryptAmount 72325093035 (zeros 32) 0) (zeros 32) 0 = 72325093035.
Proof. apply amount_encryption_agrees. vm_compute. split; congruence. Defined.
