(* ===== verification/Emission.v ===== *)
(** * Block reward ([miner.go])

    The emission curve is computed in IEEE binary64; [SpecFloat] gives the
    operations, unfused as on amd64.  [math.Exp] and the conversion of a float
    outside the range of [uint64], which Go leaves to the implementation, are
    parameters. *)

From Corelib Require Import Floats.SpecFloat.
From S2P Require Import Prelude Block.

Class MathLib : Type := {
  math_Exp : spec_float → spec_float;
  uint64_out_of_range : spec_float → Z;
}.

Definition float64_of_Z (z : Z) : spec_float := binary_normalize 53 1024 z 0 false.
Definition fadd (x y : spec_float) : spec_float := SFadd 53 1024 x y.
Definition fmul (x y : spec_float) : spec_float := SFmul 53 1024 x y.
Definition fdiv (x y : spec_float) : spec_float := SFdiv 53 1024 x y.

(** [uint64(f)]: truncation toward zero. *)
Definition uint64_of_float `{MathLib} (f : spec_float) : Z :=
  match f with
  | S754_zero _ => 0
  | S754_finite false m e =>
      let z := if 0 <=? e then Z.shiftl (Z.pos m) e else Z.shiftr (Z.pos m) (- e) in
      if z <? 2 ^ 64 then z else uint64_out_of_range f
  | _ => uint64_out_of_range f
  end.

Definition InitialReward : Z := 72325093035.
Definition TailEmission : Z := 200000000.
Definition MonthsToTail : Z := 48.
Definition BlocksPerMonth : Z := (30 * 24 * 60 * 60) `div` BlockIntervalSec.

(** [-DecayRate], the constant [-0.75]. *)
Definition negDecayRate : spec_float := fdiv (float64_of_Z (-3)) (float64_of_Z 4).

Definition GetBlockReward `{MathLib} (height : Z) : Z :=
  let month := height `div` BlocksPerMonth in
  if MonthsToTail <=? month then TailEmission
  else
    let years := fdiv (float64_of_Z month) (float64_of_Z 12) in
    let decay := math_Exp (fmul negDecayRate years) in
    let reward := fadd (fmul (float64_of_Z (InitialReward - TailEmission)) decay)
                       (float64_of_Z TailEmission) in
    if SFltb reward (float64_of_Z TailEmission) then TailEmission
    else uint64_of_float reward.

(** The tail emission starts at block 414720 and lasts. *)
Lemma GetBlockReward_tail `{MathLib} height :
  414720 <= height → GetBlockReward height = TailEmission.
Proof.
  intros Hh. unfold GetBlockReward. change BlocksPerMonth with 8640.
  destruct (Z.leb_spec MonthsToTail (height `div` 8640)) as [|Hlt]; [done|].
  unfold MonthsToTail in Hlt.
  assert (48 <= height `div` 8640) by (apply Z.div_le_lower_bound; lia). lia.
Qed.
