(* ===== verification/Validation.v ===== *)
(** * Transaction and block validation

    [ValidateTransaction] and its parts ([transaction.go]) and the block
    validators of [block.go].  The callbacks that look up spent key images,
    canonical ring members and parent blocks are arguments, as in the source;
    they run in the state of their owner. *)

From S2P Require Import Prelude Bytes Crypto Pow Transaction Block Consensus Memo Emission.

(** [header.PrevHash != x] on arrays. *)
Definition bytes_neqb (a b : bytes) : bool := bool_decide (a ≠ b).

Section Transactions.
Context `{Crypto}.

(** ** Commitment balance *)

(** Sums commitments from left to right; [acc] is the running sum. *)
Fixpoint sum_commitments (fmt : string) (acc : bytes) (cs : list bytes) : result bytes :=
  match cs with
  | [] => Ok acc
  | c :: cs => sum ← wrap fmt (CommitmentAdd acc c); sum_commitments fmt sum cs
  end.

Definition verifyCommitmentBalance (tx : Transaction) : result unit :=
  match PseudoOutput <$> Inputs tx, Commitment <$> Outputs tx with
  | _, [] => Err (Errorf "transaction has no outputs")
  | [], _ => Err (Errorf "transaction has no inputs")
  | p :: ps, c :: cs =>
      pseudoSum ← sum_commitments "input %d: invalid pseudo-output commitment" p ps;
      outputSum ← sum_commitments "output %d: invalid commitment point" c cs;
      feeCommitment ← wrap "failed to create fee commitment" (CreateFeeCommitment (Fee tx));
      outputPlusFee ← wrap "failed to add fee commitment" (CommitmentAdd outputSum feeCommitment);
      diff ← wrap "failed to compute balance difference" (CommitmentSub pseudoSum outputPlusFee);
      check (negb (CommitmentIsZero diff))
            (Errorf "commitment balance failed: sum(pseudo_outputs) != sum(outputs) + fee")
  end.

Fixpoint verify_range_proofs (fmt : string) (outs : list TxOutput) : result unit :=
  match outs with
  | [] => Ok tt
  | out :: outs =>
      wrap fmt (VerifyRangeProof (Commitment out) (RangeProof out));;
      verify_range_proofs fmt outs
  end.

Definition zeroMemo : bytes := zeros MemoSize.

Definition validateCoinbase (tx : Transaction) : result unit :=
  check (bool_decide (Inputs tx ≠ [])) (Errorf "coinbase must have no inputs");;
  check (negb (Fee tx =? 0)) (Errorf "coinbase fee must be zero");;
  match Outputs tx with
  | [out] =>
      check (bool_decide (EncryptedMemo out = zeroMemo))
            (Errorf "coinbase output 0: encrypted memo must not be all-zero");;
      verify_range_proofs "coinbase output %d: invalid range proof" [out]
  | _ => Err (Errorf "coinbase must have exactly one output")
  end.

(** ** Key images within one transaction or block

    The loops over a map of seen key images: the first repetition is an
    error; otherwise the extended set is returned. *)
Fixpoint mark_seen (e : error) (seen : gset bytes) (kis : list bytes) : result (gset bytes) :=
  match kis with
  | [] => Ok seen
  | ki :: kis =>
      if decide (ki ∈ seen) then Err e else mark_seen e ({[ki]} ∪ seen) kis
  end.

Section WithCallbacks.
Context {S : Type} (isSpent : bytes → M S bool)
        (isCanonicalRingMember : option (bytes → bytes → M S bool)).

(** Every ring member and its commitment, at equal positions. *)
Fixpoint check_ring (checker : bytes → bytes → M S bool) (members commitments : list bytes)
    : M S unit :=
  match members with
  | [] => mret tt
  | m :: members =>
      match commitments with
      | [] => lift Panic
      | c :: commitments =>
          ok ← checker m c;
          checkM (negb ok) (Errorf "input %d ring member %d: not a canonical on-chain output");;
          check_ring checker members commitments
      end
  end.

Definition validate_input (checker : bytes → bytes → M S bool) (tx : Transaction) (input : TxInput)
    : M S unit :=
  checkM (bool_decide (length (RingMembers input) ≠ RingSize))
         (Errorf "input %d: ring size must be %d, got %d");;
  checkM (bool_decide (length (RingCommitments input) ≠ RingSize))
         (Errorf "input %d: ring commitments size must be %d, got %d");;
  check_ring checker (RingMembers input) (RingCommitments input);;
  sigHash ← lift (SigningHash tx);
  let ringSig := MkRingCTSignature (RingSignature input) (length (RingMembers input)) in
  lift (wrap "input %d: invalid RingCT signature"
          (VerifyRingCT (RingMembers input) (RingCommitments input) sigHash ringSig));;
  '(sigKeyImage, sigPseudoOutput) ←
    lift (wrap "input %d: invalid RingCT signature payload" (ExtractRingCTBinding ringSig));
  checkM (bytes_neqb sigKeyImage (KeyImage input))
         (Errorf "input %d: key image does not match signed RingCT payload");;
  checkM (bytes_neqb sigPseudoOutput (PseudoOutput input))
         (Errorf "input %d: pseudo-output does not match signed RingCT payload");;
  spent ← isSpent sigKeyImage;
  checkM spent (Errorf "input %d: key image already spent (double-spend)").

Definition ValidateTransaction (tx : Transaction) : M S unit :=
  checkM (negb (Version tx =? 1)) (Errorf "unsupported tx version: %d");;
  if IsCoinbase tx then lift (validateCoinbase tx)
  else match isCanonicalRingMember with
  | None => throw (Errorf "ring member checker is required")
  | Some checker =>
      for_each (λ out, checkM (bool_decide (EncryptedMemo out = zeroMemo))
                         (Errorf "output %d: encrypted memo must not be all-zero")) (Outputs tx);;
      (if decide (1 < length (Inputs tx))%nat
       then _ ← lift (mark_seen (Errorf "input %d: duplicate key image within transaction") ∅
                        (key_images tx)); mret tt
       else mret tt);;
      for_each (validate_input checker tx) (Inputs tx);;
      lift (verify_range_proofs "output %d: invalid range proof" (Outputs tx));;
      lift (wrap "commitment balance" (verifyCommitmentBalance tx))
  end.

End WithCallbacks.
End Transactions.

(** ** Blocks *)

Section Blocks.
Context `{Crypto} `{Network} `{MathLib}.

Definition deriveCoinbaseConsensusBlinding (txPublicKey : bytes) (blockHeight outputIndex : Z) : bytes :=
  sha3_256 (bytes_of_string "blocknet_coinbase_consensus_blinding" ++ txPublicKey ++
            le_bytes 8 blockHeight ++ le_bytes 4 (u32 outputIndex)).

Definition validateCoinbaseConsensus (coinbase : Transaction) (blockHeight : Z) : result unit :=
  match Outputs coinbase with
  | [output] =>
      let expectedReward := GetBlockReward blockHeight in
      let expectedBlinding := deriveCoinbaseConsensusBlinding (TxPublicKey coinbase) blockHeight 0 in
      expectedCommitment ← wrap "failed to derive expected commitment"
        (CreatePedersenCommitmentWithBlinding expectedReward expectedBlinding);
      check (bytes_neqb (Commitment output) expectedCommitment)
            (Errorf "output commitment does not match expected reward commitment");;
      check (bytes_neqb (EncryptedAmount output) (EncryptAmount expectedReward expectedBlinding 0))
            (Errorf "encrypted amount does not match expected reward commitment");;
      check (bool_decide (DecryptMemo (EncryptedMemo output) expectedBlinding 0 ≠ Some []))
            (Errorf "coinbase output 0: memo payload must be empty")
  | _ => Err (Errorf "expected exactly one output, got %d")
  end.

Definition validateGenesisBlock (block : Block) : result unit :=
  let header := Header block in
  check (negb (Height header =? 0)) (Errorf "invalid genesis height: expected 0, got %d");;
  check (bytes_neqb (PrevHash header) GenesisPrevHash) (Errorf "invalid genesis prev hash");;
  check (negb (Timestamp header =? ActiveGenesisTimestamp))
        (Errorf "invalid genesis timestamp: expected %d, got %d");;
  check (negb (Difficulty header =? MinDifficulty))
        (Errorf "invalid genesis difficulty: expected %d, got %d");;
  check (negb (Nonce header =? 0)) (Errorf "invalid genesis nonce: expected 0, got %d");;
  check (bool_decide (Transactions block ≠ []))
        (Errorf "invalid genesis transactions: expected 0, got %d");;
  check (bytes_neqb (MerkleRoot header) (zeros 32)) (Errorf "invalid genesis merkle root");;
  check (MaxBlockSize <? BlockSize block) (Errorf "block too large: %d > %d").

(** First transaction coinbase, no other. *)
Definition validate_coinbase_position (txs : list Transaction) : result Transaction :=
  match txs with
  | [] => Err (Errorf "block has no transactions")
  | coinbase :: rest =>
      check (negb (IsCoinbase coinbase)) (Errorf "first transaction is not coinbase");;
      check (existsb IsCoinbase rest) (Errorf "multiple coinbase transactions");;
      Ok coinbase
  end.

Definition validate_merkle_root (block : Block) : result unit :=
  merkleRoot ← wrap "failed to compute merkle root" (ComputeMerkleRoot block);
  check (bytes_neqb merkleRoot (MerkleRoot (Header block))) (Errorf "invalid merkle root").

Section WithContext.
Context {S : Type} (now : Z).

(** The loop over the transactions with the set of key images seen so far. *)
Fixpoint validate_transactions (isSpent : bytes → M S bool)
    (isCanonicalRingMember : option (bytes → bytes → M S bool))
    (seenKeyImages : gset bytes) (txs : list Transaction) : M S unit :=
  match txs with
  | [] => mret tt
  | tx :: txs =>
      wrapM "invalid transaction %d" (ValidateTransaction isSpent isCanonicalRingMember tx);;
      if IsCoinbase tx then validate_transactions isSpent isCanonicalRingMember seenKeyImages txs
      else
        seen ← lift (mark_seen (Errorf "invalid transaction %d input %d: duplicate key image in block")
                       seenKeyImages (key_images tx));
        validate_transactions isSpent isCanonicalRingMember seen txs
  end.

(** The checks of the block's contents, from its size on. *)
Definition validate_body (block : Block) (isKeyImageSpent : bytes → M S bool)
    (isCanonicalRingMember : option (bytes → bytes → M S bool)) : M S unit :=
  checkM (MaxBlockSize <? BlockSize block) (Errorf "block too large: %d > %d");;
  coinbase ← lift (validate_coinbase_position (Transactions block));
  validate_transactions isKeyImageSpent isCanonicalRingMember ∅ (Transactions block);;
  lift (wrap "invalid coinbase consensus commitment"
          (validateCoinbaseConsensus coinbase (Height (Header block))));;
  lift (validate_merkle_root block).

Definition validateBlockWithContext (block : Block) (bestHash : bytes) (tipHeight : Z)
    (getParent : bytes → M S (option Block)) (isKeyImageSpent : bytes → M S bool)
    (isCanonicalRingMember : option (bytes → bytes → M S bool)) (skipPoW : bool) : M S unit :=
  let header := Header block in
  checkM (HVersion header =? 0) (Errorf "invalid block version");;
  if Height header =? 0 then lift (validateGenesisBlock block)
  else
    parent ← getParent (PrevHash header);
    match parent with
    | None => throw ErrOrphanBlock
    | Some parent =>
        checkM (negb (Height header =? u64 (Height (Header parent) + 1)))
               (Errorf "invalid height linkage: parent=%d child=%d");;
        checkM (Timestamp header <=? Timestamp (Header parent))
               (Errorf "timestamp %d <= parent timestamp %d");;
        checkM (bool_decide (PrevHash header = bestHash) && negb (Height header =? u64 (tipHeight + 1)))
               (Errorf "invalid height: expected %d, got %d");;
        expectedDifficulty ← wrapM "failed to derive expected difficulty from parent context"
          (expectedDifficultyFromParent getParent parent);
        checkM (negb (Difficulty header =? expectedDifficulty))
               (Errorf "invalid difficulty: expected %d, got %d");;
        medianTime ← wrapM "failed to derive median timestamp from parent context"
          (medianTimestampFromParent getParent parent 11);
        lift (wrap "invalid timestamp" (validateTimestampWithMedian now header medianTime));;
        checkM (Difficulty header <? MinDifficulty) (Errorf "difficulty %d below minimum %d");;
        checkM (now + TimestampFuturLimitSec <? Timestamp header) (Errorf "timestamp too far in future");;
        checkM (negb skipPoW && negb (validatePoW header)) (Errorf "invalid proof of work");;
        validate_body block isKeyImageSpent isCanonicalRingMember
    end.

End WithContext.
End Blocks.
