(* ===== verification/Coinbase.v ===== *)
(** * Coinbase transactions ([CreateCoinbase])

    The coinbase a miner builds for the scheduled reward is one that the
    consensus checks accept. *)

From S2P Require Import Prelude Bytes Crypto Instances Transaction Block Memo Emission Validation.

Record StealthOutput : Type := MkStealthOutput {
  TxPubKey : bytes;
  OnetimePubKey : bytes;
}.

Section CreateCoinbase.
Context `{Crypto} `{Network}.

(** The calls that draw randomness: the stealth address, the range proof and
    the padding of the memo. *)
Context (DeriveStealthAddress : bytes → bytes → result StealthOutput)
        (CreateRangeProof : Z → bytes → result bytes) (padding : nat → option bytes).

Definition CreateCoinbase (recipientSpendPub recipientViewPub : bytes) (reward blockHeight : Z)
    : result Transaction :=
  stealthOut ← wrap "failed to derive stealth address"
    (DeriveStealthAddress recipientSpendPub recipientViewPub);
  let blinding := deriveCoinbaseConsensusBlinding (TxPubKey stealthOut) blockHeight 0 in
  commitment ← wrap "failed to create commitment" (CreatePedersenCommitmentWithBlinding reward blinding);
  rangeProof ← wrap "failed to create range proof" (CreateRangeProof reward blinding);
  let encryptedAmount := EncryptAmount reward blinding 0 in
  encryptedMemo ← wrap "failed to encrypt coinbase memo" (EncryptMemo padding [] blinding 0);
  Ok (MkTransaction 1 []
        [MkTxOutput commitment (OnetimePubKey stealthOut) rangeProof encryptedAmount encryptedMemo]
        0 (TxPubKey stealthOut)).

End CreateCoinbase.

(** What the miner's coinbase relies on: keys of 32 bytes, and range proofs
    that verify and whose length fits its field. *)
Record CoinbaseLaws `{Crypto} (stealth : bytes → bytes → result StealthOutput)
    (prove : Z → bytes → result bytes) : Prop := {
  cl_keys : ∀ spendPub viewPub o, stealth spendPub viewPub = Ok o →
    length (TxPubKey o) = 32%nat ∧ length (OnetimePubKey o) = 32%nat;
  cl_proof : ∀ v r proof, prove v r = Ok proof →
    VerifyRangeProof (blocknet_pedersen_commit_with_blinding v r) proof = Ok tt ∧ is_u32 (Z.of_nat (length proof));
}.

Lemma EncryptAmount_length `{HC : Crypto} `{!CryptoLaws HC} v secret i : length (EncryptAmount v secret i) = 8%nat.
Proof. unfold EncryptAmount. rewrite length_zip_with, length_take, sha3_256_length. done. Qed.

Lemma CreateCoinbase_wf `{HC : Crypto} `{!CryptoLaws HC} `{Network}
    stealth prove padding spendPub viewPub reward height tx :
  CoinbaseLaws stealth prove →
  CreateCoinbase stealth prove padding spendPub viewPub reward height = Ok tx → Version tx = 1 ∧ wf_tx tx ∧ rings_match tx.
Proof.
  intros [Hk Hp] E. unfold CreateCoinbase in E. inv_ok.
  match goal with Hm : EncryptMemo _ _ _ _ = _, Hc : CreatePedersenCommitmentWithBlinding _ _ = _,
    Hr : prove _ _ = _, Hs : stealth _ _ = _ |- _ =>
    apply DecryptMemo_EncryptMemo in Hm as [Hm _]; injection Hc as <-; apply Hp in Hr as [_ Hr]; apply Hk in Hs as [? ?] end.
  split; [done|]. split; [|constructor]. split_and!; [done|done|done|done|done|constructor|].
  constructor; [|constructor]. split_and!; [apply compress_length|done|apply EncryptAmount_length|done|done].
Qed.

Lemma CreateCoinbase_accepted `{HC : Crypto} `{!CryptoLaws HC} `{Network} `{MathLib}
    stealth prove padding spendPub viewPub height tx :
  CreateCoinbase stealth prove padding spendPub viewPub (GetBlockReward height) height = Ok tx →
  (∀ v r proof, prove v r = Ok proof →
     VerifyRangeProof (blocknet_pedersen_commit_with_blinding v r) proof = Ok tt) →
  validateCoinbaseConsensus tx height = Ok tt ∧ IsCoinbase tx = true ∧
  (Forall (λ o, EncryptedMemo o ≠ zeroMemo) (Outputs tx) → validateCoinbase tx = Ok tt).
Proof.
  intros E Hprove. unfold CreateCoinbase in E. inv_ok.
  match goal with Hm : EncryptMemo _ _ _ _ = _, Hc : CreatePedersenCommitmentWithBlinding _ _ = _,
    Hp : prove _ _ = _ |- _ =>
    apply DecryptMemo_EncryptMemo in Hm as [_ Hm]; injection Hc as <-; apply Hprove in Hp end.
  split_and!; [|done|].
  - unfold validateCoinbaseConsensus, bytes_neqb. simpl.
    rewrite !bool_decide_eq_false_2 by auto. done.
  - intros [Hz _]%Forall_cons. simpl in Hz. unfold validateCoinbase. simpl.
    rewrite bool_decide_eq_false_2 by done. simpl.
    match goal with Hp : VerifyRangeProof _ _ = _ |- _ => by rewrite Hp end.
Qed.

Lemma CreateCoinbase_version `{HC : Crypto} `{Network} stealth prove padding spendPub viewPub reward height tx :
  CreateCoinbase stealth prove padding spendPub viewPub reward height = Ok tx → Version tx = 1.
Proof. intros E. unfold CreateCoinbase in E. by inv_ok. Qed.

(** C28. A coinbase that [CreateCoinbase] builds for the scheduled reward of a
    height passes [validateCoinbaseConsensus] at that height: commitment,
    encrypted amount and memo are the ones the validators recompute.  It also
    passes [ValidateTransaction], whatever the ledger answers and with or
    without a check of ring members, provided range proofs verify for what
    they were made for and its memo does not encrypt to 128 zero bytes. *)
Theorem coinbase_accepted `{HC : Crypto} `{!CryptoLaws HC} `{Network} `{MathLib}
    stealth prove padding spendPub viewPub height tx :
  CreateCoinbase stealth prove padding spendPub viewPub (GetBlockReward height) height = Ok tx →
  (∀ v r proof, prove v r = Ok proof →
     VerifyRangeProof (blocknet_pedersen_commit_with_blinding v r) proof = Ok tt) →
  validateCoinbaseConsensus tx height = Ok tt ∧ IsCoinbase tx = true ∧
  (Forall (λ o, EncryptedMemo o ≠ zeroMemo) (Outputs tx) →
   ∀ (S : Type) (isSpent : bytes → M S bool) isCanonicalRingMember (s : S),
     ValidateTransaction isSpent isCanonicalRingMember tx s = (Ok tt, s)).
Proof.
  intros E Hp. destruct (CreateCoinbase_accepted _ _ _ _ _ _ _ E Hp) as (Hc & Hi & Hv). split_and!; [done|done|].
  intros Hz S isSpent can s. unfold ValidateTransaction. rewrite (CreateCoinbase_version _ _ _ _ _ _ _ _ E), Hi.
  cbn. unfold lift. by rewrite (Hv Hz).
Qed.

#[local] Existing Instance toy_crypto.
#[local] Existing Instance toy_crypto_laws.
#[local] Existing Instance mainnet.

(** An exponential that is exact at zero, and a conversion that saturates. *)
#[global] Instance toy_math : MathLib := {|
  math_Exp _ := float64_of_Z 1;
  uint64_out_of_range _ := MaxUint64;
|}.

Definition example_coinbase : result Transaction :=
  CreateCoinbase (λ _ _, Ok (MkStealthOutput (zeros 32) (zeros 32))) (λ _ _, Ok (zeros 5))
    (λ n, Some (zeros n)) (zeros 32) (zeros 32) (GetBlockReward 7) 7.

Lemma coinbase_accepted_witness :
  match example_coinbase with
  | Ok tx => validateCoinbaseConsensus tx 7 = Ok tt ∧ ValidateTransaction (λ _, mret true) None tx tt = (Ok tt, tt)
  | _ => False
  end.
Proof.
  destruct example_coinbase as [tx|e|] eqn:E.
  - destruct (coinbase_accepted _ _ _ _ _ _ _ E) as (Hc & _ & Hv); [intros v r proof [= <-]; reflexivity|].
    split; [exact Hc|]. apply Hv.
    assert (match example_coinbase with
            | Ok tx => bool_decide (Forall (λ o, EncryptedMemo o ≠ zeroMemo) (Outputs tx))
            | _ => false end = true) as Hz by (vm_compute; reflexivity).
    rewrite E in Hz. by apply bool_decide_eq_true in Hz.
  - assert (is_Ok example_coinbase = true) as Hk by (vm_compute; reflexivity).
    rewrite E in Hk. discriminate Hk.
  - assert (is_Ok example_coinbase = true) as Hk by (vm_compute; reflexivity).
    rewrite E in Hk. discriminate Hk.
Defined.
