(* ===== verification/Samples.v ===== *)
(** * Sample transactions and blocks

    Concrete data at which the theorems on validation and on the chain are
    evaluated, under the instances of [Instances]. *)

From S2P Require Import Prelude Bytes Crypto Instances Pow Transaction Block Consensus Memo Emission Validation Coinbase.

#[local] Existing Instance toy_crypto.
#[local] Existing Instance mainnet.

Definition sample_key (n : Z) : bytes := le_bytes 32 n.

Definition sample_output (value blinding key : Z) : TxOutput :=
  MkTxOutput (compress (pedersen value blinding)) (sample_key key) (sample_key 1)
    (le_bytes 8 value) (replicate MemoSize Init.Byte.x01).

(** One input of amount 100 with the key image [ki], outputs of 60 and 35,
    fee 5. *)
Definition sample_transfer (ki : Z) : Transaction :=
  MkTransaction 1
    [MkTxInput (sample_key ki)
       (replicate RingSize (sample_key 77)) (replicate RingSize (sample_key 78))
       (compress (pedersen 100 7))
       (replicate (32 + RingSize * 64) Init.Byte.x05 ++ sample_key ki ++ compress (pedersen 100 7))]
    [sample_output 60 3 501; sample_output 35 4 502] 5 (sample_key 9).

Definition sample_tx : Transaction := sample_transfer 300.

(** Coinbases and blocks on top of the genesis block. *)
Definition sample_coinbase (height : Z) : Transaction :=
  match CreateCoinbase (λ _ _, Ok (MkStealthOutput (sample_key 11) (sample_key (1000 + height))))
          (λ _ _, Ok (sample_key 1)) (λ n, Some (zeros n)) (sample_key 12) (sample_key 13)
          (GetBlockReward height) height with
  | Ok tx => tx
  | _ => sample_tx
  end.

(** A block on [parent] with the given transactions; the nonce is searched. *)
Fixpoint mine (fuel : nat) (h : BlockHeader) : BlockHeader :=
  match fuel with
  | O => h
  | Datatypes.S fuel =>
      if validatePoW h then h
      else mine fuel (MkBlockHeader (HVersion h) (Height h) (PrevHash h) (MerkleRoot h) (Timestamp h)
                        (Difficulty h) (Nonce h + 1))
  end.

Definition sample_block_at (parent : Block) (time : Z) (txs : list Transaction) : Block :=
  let height := Height (Header parent) + 1 in
  let txs := sample_coinbase height :: txs in
  let root := match ComputeMerkleRoot (MkBlock (Header parent) txs) with Ok r => r | _ => [] end in
  MkBlock (mine 200 (MkBlockHeader 1 height (BlockHash parent) root time MinDifficulty 0)) txs.

Definition sample_block (parent : Block) (txs : list Transaction) : Block :=
  sample_block_at parent (Timestamp (Header parent) + BlockIntervalSec) txs.

Definition block_1 : Block := sample_block GetGenesisBlock [sample_tx].
Definition block_1_alt : Block := sample_block GetGenesisBlock [].
