(* ===== verification/Validity.v ===== *)
(** * What the validators accept

    Declarative validity of transactions and blocks, and the proofs that
    [ValidateTransaction] and [validateBlockWithContext] accept exactly the
    valid ones, whatever caches the lookups they are given maintain. *)

From S2P Require Import Prelude Bytes Crypto Pow Transaction TxCodec Block Header Consensus Reads Difficulty Memo Emission Validation Instances Coinbase Samples.

(** ** The lookups a caller supplies

    The promise of the owner of the ledger to the validators: its callbacks
    answer from a fixed set of spent key images and a fixed set of canonical
    outputs. *)
Class LedgerSource {S} (inv : S → Prop) (same : S → S → Prop)
    (isSpent : bytes → M S bool) (isCanonical : bytes → bytes → M S bool)
    (spent : S → bytes → bool) (canonical : S → bytes → bytes → bool) : Prop := {
  ledger_spent : ∀ s ki, inv s → reads inv same (isSpent ki) s (Ok (spent s ki));
  ledger_canonical : ∀ s k c, inv s → reads inv same (isCanonical k c) s (Ok (canonical s k c));
  ledger_spent_same : ∀ s s' ki, same s s' → spent s' ki = spent s ki;
  ledger_canonical_same : ∀ s s' k c, same s s' → canonical s' k c = canonical s k c;
}.

(** ** Valid transactions *)

Section Specification.
Context `{Crypto} (spent : bytes → bool) (canonical : bytes → bytes → bool).

Definition input_signature (i : TxInput) : RingCTSignature :=
  MkRingCTSignature (RingSignature i) (length (RingMembers i)).

(** A ring of 16 canonical outputs, a signature of the transaction over that
    ring whose payload carries the claimed key image and pseudo-output, and
    a key image that is not spent. *)
Definition valid_input (tx : Transaction) (i : TxInput) : Prop :=
  length (RingMembers i) = RingSize ∧ length (RingCommitments i) = RingSize ∧
  Forall2 (λ m c, canonical m c = true) (RingMembers i) (RingCommitments i) ∧
  (∃ h, SigningHash tx = Ok h ∧
        VerifyRingCT (RingMembers i) (RingCommitments i) h (input_signature i) = Ok tt) ∧
  ExtractRingCTBinding (input_signature i) = Ok (KeyImage i, PseudoOutput i) ∧
  spent (KeyImage i) = false.

Definition valid_output (o : TxOutput) : Prop :=
  EncryptedMemo o ≠ zeroMemo ∧ VerifyRangeProof (Commitment o) (RangeProof o) = Ok tt.

Definition valid_coinbase (tx : Transaction) : Prop :=
  Inputs tx = [] ∧ Fee tx = 0 ∧ ∃ out, Outputs tx = [out] ∧ valid_output out.

Definition valid_transfer (tx : Transaction) : Prop :=
  Inputs tx ≠ [] ∧ NoDup (key_images tx) ∧ Forall (valid_input tx) (Inputs tx) ∧
  Forall valid_output (Outputs tx) ∧ verifyCommitmentBalance tx = Ok tt.

Definition valid_tx (tx : Transaction) : Prop :=
  Version tx = 1 ∧ (valid_coinbase tx ∨ valid_transfer tx).

End Specification.

(** ** The pure parts *)

Lemma mark_seen_Ok e kis seen seen' :
  mark_seen e seen kis = Ok seen' ↔
  NoDup kis ∧ (∀ ki, ki ∈ kis → ki ∉ seen) ∧ seen' = list_to_set kis ∪ seen.
Proof.
  revert seen. induction kis as [|ki kis IH]; intros seen; cbn [mark_seen list_to_set].
  - split; [intros [= <-]; split_and!; [constructor|set_solver|set_solver]|].
    intros (_ & _ & ->). f_equal. set_solver.
  - rewrite NoDup_cons. destruct (decide (ki ∈ seen)) as [Hin|Hin].
    + split; [done|]. intros (_ & Hn & _). set_solver.
    + rewrite IH. split; intros (? & ? & ->); (split_and!; [set_solver..|]); set_solver.
Qed.

Section Pure.
Context `{Crypto}.

Lemma verify_range_proofs_Ok fmt outs :
  verify_range_proofs fmt outs = Ok tt ↔
  Forall (λ o, VerifyRangeProof (Commitment o) (RangeProof o) = Ok tt) outs.
Proof.
  induction outs as [|o outs IH]; simpl; [done|].
  rewrite Forall_cons, <- IH. destruct (VerifyRangeProof _ _) as [[]| |]; simpl; naive_solver.
Qed.

Lemma validateCoinbase_Ok tx : validateCoinbase tx = Ok tt ↔ valid_coinbase tx.
Proof.
  unfold validateCoinbase, valid_coinbase, valid_output, bytes_neqb. split.
  - intros ?. inv_ok. simpl_bools.
    destruct (Outputs tx) as [|out [|]]; [done| |done]. inv_ok. simpl_bools.
    split_and!; [done..|]. exists out.
    match goal with Hv : verify_range_proofs _ _ = _ |- _ =>
      apply verify_range_proofs_Ok in Hv; inversion Hv; subst end. done.
  - intros (-> & -> & out & -> & Hm & Hr). simpl. rewrite (bool_decide_eq_false_2 _ Hm). simpl.
    by rewrite Hr.
Qed.

Lemma safe_VerifyRangeProof c p : safe (VerifyRangeProof c p).
Proof. unfold VerifyRangeProof. apply safe_bind; auto with safe. Qed.

Lemma safe_verify_range_proofs fmt outs : safe (verify_range_proofs fmt outs).
Proof.
  induction outs as [|o outs IH]; simpl; [done|]. apply safe_bind; [|done].
  apply safe_wrap, safe_VerifyRangeProof.
Qed.

Lemma safe_validateCoinbase tx : safe (validateCoinbase tx).
Proof.
  unfold validateCoinbase. repeat (apply safe_bind; [apply safe_check|]; intros _ _).
  destruct (Outputs tx) as [|o [|]]; [done| |done].
  apply safe_bind; [apply safe_check|]. intros. apply safe_verify_range_proofs.
Qed.

Lemma safe_mark_seen e kis seen : safe (mark_seen e seen kis).
Proof.
  revert seen. induction kis as [|ki kis IH]; intros seen; simpl; [done|]. by case_decide.
Qed.

Lemma safe_SigningHash tx : wf_tx tx → safe (SigningHash tx).
Proof. intros Hw. unfold SigningHash. by rewrite SigningPrefix_encode. Qed.

Lemma safe_VerifyRingCT keys comms msg sig : safe (VerifyRingCT keys comms msg sig).
Proof. unfold VerifyRingCT. repeat (apply safe_bind; [apply safe_check|]; intros _ _). apply safe_check. Qed.

Lemma safe_ExtractRingCTBinding sig : safe (ExtractRingCTBinding sig).
Proof.
  unfold ExtractRingCTBinding. apply safe_bind; [apply safe_check|]. intros _ _.
  apply safe_bind; [apply safe_check|]. intros ? Hl. inv_ok. simpl_bools.
  destruct (slice_no_panic (Signature sig) (32 + SigRingSize sig * 32 + SigRingSize sig * 32) 32) as [x ->];
    [lia|]. simpl.
  destruct (slice_no_panic (Signature sig) (32 + SigRingSize sig * 32 + SigRingSize sig * 32 + 32) 32)
    as [y Hy]; [lia|]. simpl in Hy. by rewrite Hy.
Qed.

Lemma safe_sum_commitments fmt acc cs : safe (sum_commitments fmt acc cs).
Proof.
  revert acc. induction cs as [|c cs IH]; intros acc; simpl; [done|].
  apply safe_bind; [|auto]. apply safe_wrap. unfold CommitmentAdd. by destruct (blocknet_commitment_add _ _).
Qed.

Lemma safe_verifyCommitmentBalance tx : safe (verifyCommitmentBalance tx).
Proof.
  unfold verifyCommitmentBalance.
  destruct (PseudoOutput <$> Inputs tx); destruct (Commitment <$> Outputs tx); try done.
  apply safe_bind; [apply safe_sum_commitments|]. intros ? _.
  apply safe_bind; [apply safe_sum_commitments|]. intros ? _. cbn [wrap CreateFeeCommitment mbind result_bind].
  apply safe_bind; [apply safe_wrap; unfold CommitmentAdd; by destruct (blocknet_commitment_add _ _)|].
  intros ? _.
  apply safe_bind; [apply safe_wrap; unfold CommitmentSub; by destruct (blocknet_commitment_sub _ _)|].
  intros ? _. apply safe_check.
Qed.

End Pure.

#[export] Hint Resolve safe_verify_range_proofs safe_validateCoinbase safe_mark_seen safe_SigningHash
  safe_VerifyRingCT safe_ExtractRingCTBinding safe_verifyCommitmentBalance : safe.

Lemma decide_two_NoDup (kis : list bytes) :
  ¬ (1 < length kis)%nat → NoDup kis.
Proof.
  destruct kis as [|? [|]]; simpl; intros; [constructor|by apply NoDup_singleton|lia].
Qed.

(** ** The transaction validator *)

Section TxValidator.
Context `{Crypto} {S : Type} {inv : S → Prop} {same : S → S → Prop} `{!PreOrder same}
  {isSpent : bytes → M S bool} {isCanonical : bytes → bytes → M S bool}
  {spent : S → bytes → bool} {canonical : S → bytes → bytes → bool}
  `{!LedgerSource inv same isSpent isCanonical spent canonical}.

Abbreviation decides := (Reads.decides inv same).

Lemma canonical_ring_same s s' ms cs :
  same s s' →
  Forall2 (λ m c, canonical s' m c = true) ms cs ↔ Forall2 (λ m c, canonical s m c = true) ms cs.
Proof.
  intros Hs. split; intros HF; (eapply Forall2_impl; [exact HF|]); intros ??; cbv beta;
    by rewrite (ledger_canonical_same s s').
Qed.

Lemma check_ring_decides ms cs s :
  inv s → length ms = length cs →
  decides (check_ring isCanonical ms cs) s (Forall2 (λ m c, canonical s m c = true) ms cs).
Proof.
  revert cs s. induction ms as [|m ms IH]; intros [|c cs] s Hi Hl; simpl in Hl; try lia; cbn [check_ring].
  { eapply decides_iff; [|by apply decides_ret]. split; [constructor|done]. }
  eapply (decides_bind_ok inv same); [by apply ledger_canonical|]. intros s' Hi' Hs.
  rewrite Forall2_cons. apply (decides_seq inv same).
  - rewrite <- (negb_false_iff (canonical s m c)). by apply decides_check.
  - intros s2 _ Hi2 Hs2. eapply decides_iff; [|apply IH; [done|lia]].
    apply canonical_ring_same. by etrans.
Qed.

Lemma bytes_neqb_false a b : bytes_neqb a b = false ↔ a = b.
Proof. unfold bytes_neqb. rewrite bool_decide_eq_false. split; [apply dec_stable|auto]. Qed.

Lemma validate_input_decides tx i s :
  wf_tx tx → inv s →
  decides (validate_input isSpent isCanonical tx i) s (valid_input (spent s) (canonical s) tx i).
Proof.
  intros Hwf Hi. unfold validate_input, valid_input.
  apply (decides_seq inv same).
  { eapply decides_iff; [|by apply decides_check]. rewrite bool_decide_eq_false.
    split; [apply dec_stable|auto]. }
  intros s1 L1 Hi1 Hs1. apply (decides_seq inv same).
  { eapply decides_iff; [|by apply decides_check]. rewrite bool_decide_eq_false.
    split; [apply dec_stable|auto]. }
  intros s2 L2 Hi2 Hs2. assert (same s s2) by by etrans.
  apply (decides_seq inv same).
  { eapply decides_iff; [|apply check_ring_decides; [done|congruence]].
    by apply canonical_ring_same. }
  intros s3 _ Hi3 Hs3. assert (same s s3) by by etrans.
  eapply decides_iff; cycle 1.
  { eapply (decides_bind inv same); [by apply reads_lift|auto with safe|]. intros h s4 _ Hi4 Hs4.
    eapply (decides_seq inv same); [apply decides_lift; auto with safe|]. intros s5 _ Hi5 Hs5.
    apply (decides_bind inv same) with (Q := λ kp : bytes * bytes,
      bytes_neqb kp.1 (KeyImage i) = false ∧ bytes_neqb kp.2 (PseudoOutput i) = false ∧
      spent s kp.1 = false); [by apply reads_lift|auto with safe|]. intros [k p] s6 _ Hi6 Hs6.
    eapply (decides_seq inv same); [by apply decides_check|]. intros s7 _ Hi7 Hs7.
    eapply (decides_seq inv same); [by apply decides_check|]. intros s8 _ Hi8 Hs8.
    assert (same s s8) by (do 5 (etrans; [done|]); done).
    eapply (decides_bind_ok inv same); [by apply ledger_spent|]. intros s9 Hi9 Hs9.
    rewrite (ledger_spent_same s s8) by done.
    by apply decides_check. }
  cbv beta. setoid_rewrite wrap_Ok. setoid_rewrite bytes_neqb_false.
  fold (input_signature i). split.
  - intros (h & ? & ? & [k p] & ? & ? & ? & ?).
    simpl in *; subst. split_and!; [by exists h|done..].
  - intros ((h & ? & ?) & ? & ?). exists h. split_and!; [done..|]. by exists (KeyImage i, PseudoOutput i).
Qed.

Lemma ValidateTransaction_decides tx s :
  wf_tx tx → inv s →
  decides (ValidateTransaction isSpent (Some isCanonical) tx) s
    (valid_tx (spent s) (canonical s) tx).
Proof.
  intros Hwf Hi. unfold ValidateTransaction, valid_tx. apply (decides_seq inv same).
  { rewrite <- Z.eqb_eq, <- negb_false_iff. by apply decides_check. }
  intros s1 _ Hi1 Hs1. unfold IsCoinbase. case_bool_decide as Hin.
  { eapply decides_iff; [|apply decides_lift; auto with safe]. rewrite validateCoinbase_Ok.
    unfold valid_transfer. tauto. }
  eapply decides_iff; cycle 1.
  { apply (decides_seq inv same);
      [eapply (decides_for_each inv same _ (λ o, EncryptedMemo o ≠ zeroMemo)); [done|];
       intros o s2 _ Hi2 _; rewrite <- bool_decide_eq_false; by apply decides_check|].
    intros s2 _ Hi2 Hs2.
    apply (decides_seq inv same) with (P := NoDup (key_images tx)); [|intros s3 _ Hi3 Hs3].
    - destruct (decide (1 < length (Inputs tx))%nat) as [|Hn]; cycle 1.
      { eapply decides_iff; [|by apply decides_ret]. split; [intros _|done].
        apply decide_two_NoDup. unfold key_images. by rewrite length_fmap. }
      eapply decides_iff; [|eapply (decides_bind inv same); [by apply reads_lift|auto with safe|];
        intros; by apply (decides_ret inv same)]. setoid_rewrite mark_seen_Ok.
      split; [naive_solver|]. intros Hd. eexists. split_and!; [exact Hd| |done|done]. set_solver.
    - assert (same s s3) by (etrans; [done|]; by etrans).
      apply (decides_seq inv same); [eapply (decides_for_each inv same _ (valid_input (spent s) (canonical s) tx));
        [done|]|].
      + intros i s4 _ Hi4 Hs4. assert (same s s4) by by etrans.
        eapply decides_iff; [|by apply validate_input_decides]. unfold valid_input.
        by rewrite (canonical_ring_same s s4), (ledger_spent_same s s4) by done.
      + intros s4 _ Hi4 Hs4. apply (decides_seq inv same); [apply decides_lift; auto with safe|].
        intros s5 _ Hi5 Hs5. apply decides_lift; auto with safe. }
  rewrite verify_range_proofs_Ok, wrap_Ok. unfold valid_transfer, valid_coinbase, valid_output.
  rewrite Forall_and. tauto.
Qed.

End TxValidator.

(** ** Valid blocks *)

Section BlockSpecification.
Context `{Crypto} `{Network} `{MathLib}.

Definition valid_genesis (b : Block) : Prop :=
  PrevHash (Header b) = GenesisPrevHash ∧ MerkleRoot (Header b) = zeros 32 ∧
  Timestamp (Header b) = ActiveGenesisTimestamp ∧ Difficulty (Header b) = MinDifficulty ∧
  Nonce (Header b) = 0 ∧ Transactions b = [].

(** What a block says about its place in the branch of its parent. *)
Definition valid_linkage (now : Z) (blocks : bytes → option Block) (b parent : Block) : Prop :=
  let h := Header b in
  Height h = u64 (Height (Header parent) + 1) ∧
  Timestamp (Header parent) < Timestamp h <= now + TimestampFuturLimitSec ∧
  expected_difficulty blocks parent = Ok (Difficulty h) ∧ MinDifficulty <= Difficulty h ∧
  ∃ m, median_time blocks parent 11 = Ok m ∧ m < Timestamp h.

(** What a block contains. *)
Definition valid_body (spent : bytes → bool) (canonical : bytes → bytes → bool) (b : Block) : Prop :=
  BlockSize b <= MaxBlockSize ∧
  (∃ coinbase rest, Transactions b = coinbase :: rest ∧ IsCoinbase coinbase = true ∧
     Forall (λ tx, IsCoinbase tx = false) rest ∧
     validateCoinbaseConsensus coinbase (Height (Header b)) = Ok tt) ∧
  Forall (valid_tx spent canonical) (Transactions b) ∧ NoDup (block_key_images b) ∧
  ComputeMerkleRoot b = Ok (MerkleRoot (Header b)).

Definition valid_block (now : Z) (blocks : bytes → option Block) (spent : bytes → bool)
    (canonical : bytes → bytes → bool) (skipPoW : bool) (b : Block) : Prop :=
  HVersion (Header b) ≠ 0 ∧
  ((Height (Header b) = 0 ∧ valid_genesis b) ∨
   (Height (Header b) ≠ 0 ∧
    ∃ parent, blocks (PrevHash (Header b)) = Some parent ∧ valid_linkage now blocks b parent ∧
              (skipPoW = false → validatePoW (Header b) = true) ∧ valid_body spent canonical b)).

(** ** The pure parts *)

Lemma validateGenesisBlock_Ok b :
  Height (Header b) = 0 → validateGenesisBlock b = Ok tt ↔ valid_genesis b.
Proof.
  intros Hh. unfold validateGenesisBlock, valid_genesis, bytes_neqb. split.
  - intros ?. inv_ok. simpl_bools. done.
  - intros (-> & -> & -> & -> & -> & E). unfold BlockSize. rewrite Hh, E.
    rewrite !bool_decide_eq_false_2 by auto. rewrite !Z.eqb_refl. done.
Qed.

Lemma validate_coinbase_position_Ok txs coinbase :
  validate_coinbase_position txs = Ok coinbase ↔
  ∃ rest, txs = coinbase :: rest ∧ IsCoinbase coinbase = true ∧
          Forall (λ tx, IsCoinbase tx = false) rest.
Proof.
  assert (∀ l, existsb IsCoinbase l = false ↔ Forall (λ tx, IsCoinbase tx = false) l) as He.
  { induction l as [|tx l IH]; simpl; [done|]. rewrite orb_false_iff, IH, Forall_cons. done. }
  destruct txs as [|tx txs]; simpl; [naive_solver|]. split.
  - intros ?. inv_ok. simpl_bools. exists txs. by rewrite <- He.
  - intros (rest & [= -> ->] & -> & Hr). apply He in Hr as ->. done.
Qed.

Lemma validate_merkle_root_Ok b :
  validate_merkle_root b = Ok tt ↔ ComputeMerkleRoot b = Ok (MerkleRoot (Header b)).
Proof.
  unfold validate_merkle_root, bytes_neqb. split.
  - intros ?. inv_ok. simpl_bools. by subst.
  - intros ->. simpl. by rewrite bool_decide_eq_false_2 by auto.
Qed.

Lemma validateTimestampWithMedian_Ok now h m :
  validateTimestampWithMedian now h m = Ok tt ↔
  m < Timestamp h <= now + TimestampFuturLimitSec.
Proof.
  unfold validateTimestampWithMedian. split.
  - intros ?. inv_ok. simpl_bools. lia.
  - intros [Hm Hf]. rewrite (proj2 (Z.leb_gt _ _) Hm). simpl.
    by rewrite (proj2 (Z.ltb_ge _ _) Hf).
Qed.

End BlockSpecification.

(** ** The block validator *)

Section BlockValidator.
Context `{Crypto} `{Network} `{MathLib}.
Context {S : Type} {inv : S → Prop} {same : S → S → Prop} `{!PreOrder same}
  {getParent : bytes → M S (option Block)} {blocks : S → bytes → option Block}
  `{!BlockSource inv same getParent blocks}
  {isSpent : bytes → M S bool} {isCanonical : bytes → bytes → M S bool}
  {spent : S → bytes → bool} {canonical : S → bytes → bytes → bool}
  `{!LedgerSource inv same isSpent isCanonical spent canonical}.

#[local] Abbreviation decides := (Reads.decides inv same).

Lemma valid_tx_same s s' tx :
  same s s' → valid_tx (spent s') (canonical s') tx ↔ valid_tx (spent s) (canonical s) tx.
Proof.
  intros Hs. unfold valid_tx, valid_transfer.
  assert (∀ i, valid_input (spent s') (canonical s') tx i ↔ valid_input (spent s) (canonical s) tx i) as Hi.
  { intros i. unfold valid_input.
    by rewrite (canonical_ring_same s s'), (ledger_spent_same s s') by done. }
  by setoid_rewrite (Forall_iff _ _ _ Hi).
Qed.

Lemma validate_transactions_decides txs seen s :
  Forall wf_tx txs → inv s →
  decides (validate_transactions isSpent (Some isCanonical) seen txs) s
    (Forall (valid_tx (spent s) (canonical s)) txs ∧
     NoDup (txs_key_images txs) ∧ ∀ ki, ki ∈ txs_key_images txs → ki ∉ seen).
Proof.
  intros Hw. revert seen s. induction Hw as [|tx txs Hwf Hw IH]; intros seen s Hi;
    cbn [validate_transactions].
  { eapply decides_iff; [|by apply decides_ret]. split; [|done]. intros _.
    split_and!; [constructor..|set_solver]. }
  eapply decides_iff; cycle 1.
  { apply (decides_seq inv same); [by apply decides_wrap, ValidateTransaction_decides|].
    intros s1 _ Hi1 Hs1.
    apply decides_iff with (P := ∃ seen', (if IsCoinbase tx then Ok seen
       else mark_seen (Errorf "invalid transaction %d input %d: duplicate key image in block") seen
              (key_images tx)) = Ok seen' ∧ Forall (valid_tx (spent s) (canonical s)) txs ∧
       NoDup (txs_key_images txs) ∧ ∀ ki, ki ∈ txs_key_images txs → ki ∉ seen'); [reflexivity|].
    assert (∀ seen' s2, inv s2 → same s1 s2 →
      decides (validate_transactions isSpent (Some isCanonical) seen' txs) s2
        (Forall (valid_tx (spent s) (canonical s)) txs ∧
         NoDup (txs_key_images txs) ∧ ∀ ki, ki ∈ txs_key_images txs → ki ∉ seen')) as Hrest.
    { intros seen' s2 Hi2 Hs2. eapply decides_iff; [|by apply IH].
      rewrite (Forall_iff _ _ (valid_tx (spent s) (canonical s))); [done|].
      intros tx'. apply valid_tx_same. by etrans. }
    destruct (IsCoinbase tx).
    - eapply decides_iff; [|by apply (Hrest seen)]. naive_solver.
    - eapply (decides_bind inv same); [by apply reads_lift|auto with safe|]. intros seen' s2 _ Hi2 Hs2.
      by apply Hrest. }
  rewrite Forall_cons. unfold txs_key_images. rewrite filter_cons.
  destruct (IsCoinbase tx) eqn:Ecb; case_decide as Hd; try congruence.
  - naive_solver.
  - cbn [fmap list_fmap concat]. setoid_rewrite mark_seen_Ok. rewrite NoDup_app.
    setoid_rewrite elem_of_app. split.
    + intros (? & seen' & (? & ? & ->) & ? & ? & Hn). split_and!; [done|done|done| |done|].
      * intros ki ??. eapply Hn; [done|]. set_solver.
      * intros ki [?|?]; [auto|]. intros ?. eapply Hn; [done|]. set_solver.
    + intros ((? & ?) & (? & Hx & ?) & Hs). split; [done|]. eexists.
      split_and!; [done|auto|done|done|done|]. intros ki ?.
      rewrite elem_of_union, elem_of_list_to_set. intros [?|?]; [by eapply Hx|]. by eapply Hs; [right|].
Qed.

Lemma expected_difficulty_same s s' p :
  same s s' → expected_difficulty (blocks s') p = expected_difficulty (blocks s) p.
Proof.
  intros Hs. unfold expected_difficulty.
  by rewrite (window_ext (blocks s') (blocks s)) by (intros; by apply block_source_same).
Qed.

Lemma median_time_same s s' p n :
  same s s' → median_time (blocks s') p n = median_time (blocks s) p n.
Proof.
  intros Hs. unfold median_time.
  by rewrite (back_timestamps_ext (blocks s') (blocks s)) by (intros; by apply block_source_same).
Qed.

Lemma safe_mapM {A B} (f : A → result B) l : Forall (λ x, safe (f x)) l → safe (mapM f l).
Proof.
  induction 1 as [|x l Hx Hl IH]; [done|]. cbn [mapM]. apply safe_bind; [done|]. intros y _.
  apply safe_bind; [done|]. done.
Qed.

Lemma safe_validate_coinbase_position txs : safe (validate_coinbase_position txs).
Proof.
  destruct txs as [|cb rest]; simpl; [done|].
  repeat (apply safe_bind; [apply safe_check|]; intros _ _). done.
Qed.

Lemma safe_validateCoinbaseConsensus tx h : safe (validateCoinbaseConsensus tx h).
Proof.
  unfold validateCoinbaseConsensus. destruct (Outputs tx) as [|o [|]]; [done| |done].
  cbn [wrap CreatePedersenCommitmentWithBlinding mbind result_bind].
  repeat (apply safe_bind; [apply safe_check|]; intros _ _). apply safe_check.
Qed.

Lemma safe_validateGenesisBlock b : safe (validateGenesisBlock b).
Proof.
  unfold validateGenesisBlock. repeat (apply safe_bind; [apply safe_check|]; intros _ _). apply safe_check.
Qed.

Lemma safe_validateTimestamp now h m : safe (validateTimestampWithMedian now h m).
Proof. unfold validateTimestampWithMedian. apply safe_bind; [apply safe_check|]. intros. apply safe_check. Qed.

Lemma valid_tx_rings_match sp can tx : valid_tx sp can tx → rings_match tx.
Proof.
  intros (_ & [(Hin & _)|(_ & _ & Hin & _)]); unfold rings_match; [by rewrite Hin|].
  eapply Forall_impl; [exact Hin|]. intros i (? & ? & _). congruence.
Qed.

Lemma safe_validate_merkle_root b :
  Forall wf_tx (Transactions b) → Forall rings_match (Transactions b) → safe (validate_merkle_root b).
Proof.
  intros Hw Hr. unfold validate_merkle_root, ComputeMerkleRoot.
  apply safe_bind; [|intros; apply safe_check]. apply safe_wrap. case_decide; [done|].
  apply safe_bind; [|done]. apply safe_mapM. rewrite Forall_forall in Hw, Hr |- *.
  intros tx Htx. apply safe_wrap. unfold TxID. rewrite Serialize_encode by auto. done.
Qed.

Lemma safe_expected_difficulty v p : safe (expected_difficulty v p).
Proof.
  unfold expected_difficulty. destruct (_ <? _); [done|]. apply safe_bind.
  - assert (∀ n b, safe (window v n b)) as Hw; [|apply Hw].
    induction n as [|n IH]; intros b; simpl; [done|]. destruct (_ =? 0); [done|].
    destruct (v _); [|done]. apply safe_bind; [apply IH|done].
  - intros w Hw. destruct (lwma_total (nthZ w)) as [r ->]; [|done]. intros j Hj.
    apply nthZ_is_Some. rewrite (window_length _ _ _ _ Hw). lia.
Qed.

Lemma safe_median_time v p n : safe (median_time v p n).
Proof.
  unfold median_time. case_decide; [done|]. cbv zeta. case_decide as Hne; [done|].
  by destruct (median_total _ Hne) as (m & -> & _).
Qed.

Lemma validate_body_decides b s s0 :
  Forall wf_tx (Transactions b) → inv s → same s0 s →
  decides (validate_body b isSpent (Some isCanonical)) s (valid_body (spent s0) (canonical s0) b).
Proof.
  intros Hwf Hi Hs0. unfold validate_body, valid_body. apply (decides_seq inv same).
  { rewrite <- Z.ltb_ge. by apply decides_check. }
  intros s1 _ Hi1 Hs1. eapply decides_iff; cycle 1.
  { eapply (decides_bind inv same); [by apply reads_lift|apply safe_validate_coinbase_position|].
    intros cb s2 _ Hi2 Hs2.
    apply (decides_seq inv same) with (P := Forall (valid_tx (spent s0) (canonical s0)) (Transactions b) ∧
      NoDup (block_key_images b)).
    - eapply decides_iff; [|by apply validate_transactions_decides].
      rewrite (Forall_iff _ _ (valid_tx (spent s0) (canonical s0))).
      + set_solver.
      + intros tx. apply valid_tx_same. do 2 (etrans; [done|]). done.
    - intros s3 [Hv _] Hi3 Hs3.
      apply (decides_seq inv same);
        [apply (decides_lift inv same); [done|apply safe_wrap, safe_validateCoinbaseConsensus]|].
      intros s4 _ Hi4 Hs4. apply (decides_lift inv same); [done|]. apply safe_validate_merkle_root; [done|].
      eapply Forall_impl; [exact Hv|]. intros tx. apply valid_tx_rings_match. }
  cbv beta. setoid_rewrite wrap_Ok. setoid_rewrite validate_merkle_root_Ok.
  setoid_rewrite validate_coinbase_position_Ok. naive_solver.
Qed.

Lemma validateBlockWithContext_decides now b bestHash tipHeight skipPoW s :
  Forall wf_tx (Transactions b) → inv s → (∀ tip, blocks s bestHash = Some tip → Height (Header tip) = tipHeight) →
  decides (validateBlockWithContext now b bestHash tipHeight getParent isSpent (Some isCanonical) skipPoW) s
    (valid_block now (blocks s) (spent s) (canonical s) skipPoW b).
Proof.
  intros Hwf Hi Htip. unfold validateBlockWithContext, valid_block. apply (decides_seq inv same).
  { rewrite <- Z.eqb_neq. by apply decides_check. }
  intros s1 _ Hi1 Hs1. destruct (Z.eqb_spec (Height (Header b)) 0) as [Hz|Hz].
  { eapply decides_iff; [|apply (decides_lift inv same); [done|apply safe_validateGenesisBlock]].
    rewrite validateGenesisBlock_Ok by done. tauto. }
  eapply (decides_bind_ok inv same); [by apply block_source|]. intros s2 Hi2 Hs2.
  rewrite (block_source_same s s1) by done.
  destruct (blocks s (PrevHash (Header b))) as [p|] eqn:Ep; cycle 1.
  { eapply decides_iff; [|by apply decides_throw]. naive_solver. }
  assert (same s s2) by by etrans. eapply decides_iff; cycle 1.
  { do 3 (apply (decides_seq inv same); [by apply decides_check|]; intros ? _ ? ?).
    eapply (decides_bind inv same) with (r := wrap _ (expected_difficulty (blocks s) p)).
    { erewrite <- expected_difficulty_same; [by apply reads_wrap, expectedDifficultyFromParent_reads|].
      repeat (etrans; [eassumption|]); reflexivity. }
    { apply safe_wrap, safe_expected_difficulty. }
    intros d s3 _ Hi3 Hs3. apply (decides_seq inv same); [by apply decides_check|]. intros s4 _ Hi4 Hs4.
    eapply (decides_bind inv same) with (r := wrap _ (median_time (blocks s) p 11)).
    { erewrite <- median_time_same; [by apply reads_wrap, medianTimestampFromParent_reads|].
      repeat (etrans; [eassumption|]); reflexivity. }
    { apply safe_wrap, safe_median_time. }
    intros m s5 _ Hi5 Hs5.
    apply (decides_seq inv same); [apply (decides_lift inv same); [done|apply safe_wrap, safe_validateTimestamp]|]. intros s6 _ Hi6 Hs6.
    do 3 (apply (decides_seq inv same); [by apply decides_check|]; intros ? _ ? ?).
    apply (validate_body_decides _ _ s); [done|done|].
    repeat (etrans; [eassumption|]); reflexivity. }
  cbv beta. setoid_rewrite wrap_Ok. setoid_rewrite validateTimestampWithMedian_Ok.
  setoid_rewrite negb_false_iff. setoid_rewrite Z.eqb_eq.
  setoid_rewrite Z.leb_gt. setoid_rewrite Z.ltb_ge.
  assert (negb skipPoW && negb (validatePoW (Header b)) = false ↔
          (skipPoW = false → validatePoW (Header b) = true)) as Hpow.
  { destruct skipPoW, (validatePoW (Header b)); naive_solver. }
  setoid_rewrite Hpow. unfold valid_linkage. split.
  - intros (? & ? & _ & d & Hd & <- & m & ? & ? & ? & ? & ? & ?). right. split; [done|].
    exists p. split_and!; [done..|lia|done|done|eauto|done|done].
    exists m. split; [done|lia].
  - intros [[? _]|(_ & p' & [= <-] & (? & ? & ? & ? & m & ? & ?) & ? & ?)]; [done|].
    split_and!; [done|lia| |].
    { destruct (decide (PrevHash (Header b) = bestHash)) as [E|E]; cycle 1.
      { by rewrite bool_decide_eq_false_2. }
      rewrite E in Ep. rewrite <- (Htip p Ep). rewrite bool_decide_eq_true_2 by done.
      simpl. by rewrite negb_false_iff, Z.eqb_eq. }
    eexists. split_and!; [done|done|]. exists m. split_and!; [done|lia|lia|done|lia|done|done].
Qed.

End BlockValidator.

(** ** Theorems *)

(** C6. [ValidateTransaction] is exact: whatever the lookups it is given do
    to the caches of their owner, it leaves the owner answering as before,
    never panics, and succeeds if and only if the transaction is valid.  Valid means version 1,
    and either a coinbase (no inputs, no fee, one output with a memo and a
    verified range proof) or a transfer with pairwise different key images,
    each input having a ring of exactly 16 canonical outputs, a verified
    signature of the transaction whose payload carries the claimed key image
    and pseudo-output, and an unspent key image; with a memo and a verified
    range proof on every output, and balanced commitments. *)
Theorem tx_validation_exact `{Crypto} {S} (inv : S → Prop) (same : S → S → Prop) `{!PreOrder same}
    isSpent isCanonical spent canonical
    `{!LedgerSource inv same isSpent isCanonical spent canonical} tx s :
  wf_tx tx → inv s →
  ∃ r s', ValidateTransaction isSpent (Some isCanonical) tx s = (r, s') ∧ inv s' ∧ same s s' ∧
          r ≠ Panic ∧ (r = Ok tt ↔ valid_tx (spent s) (canonical s) tx).
Proof.
  intros Hwf Hi.
  destruct (ValidateTransaction_decides tx s Hwf Hi) as (r & (s' & ? & ? & ?) & ? & ?). eauto 10.
Qed.

(** C5. [validateBlockWithContext] is exact: over any block source and ledger
    that answer consistently, with [bestHash] and [tipHeight] naming one block,
    it never panics and succeeds if and only if the block is a valid genesis
    block or extends
    a known parent with the right height, a timestamp after the parent's and
    the median of eleven and at most two hours ahead, the difficulty the LWMA
    rule computes from that branch, proof of work (unless skipped), a size
    within the limit, a single leading coinbase with the scheduled reward,
    valid transactions without a key image used twice, and the merkle root of
    its transactions. *)
Theorem block_validation_exact `{Crypto} `{Network} `{MathLib} {S} (inv : S → Prop)
    (same : S → S → Prop) `{!PreOrder same} getParent blocks
    `{!BlockSource inv same getParent blocks} isSpent isCanonical spent canonical
    `{!LedgerSource inv same isSpent isCanonical spent canonical}
    now b bestHash tipHeight skipPoW s :
  Forall wf_tx (Transactions b) → inv s → (∀ tip, blocks s bestHash = Some tip → Height (Header tip) = tipHeight) →
  ∃ r s', validateBlockWithContext now b bestHash tipHeight getParent isSpent (Some isCanonical)
            skipPoW s = (r, s') ∧ inv s' ∧ same s s' ∧ r ≠ Panic ∧
          (r = Ok tt ↔ valid_block now (blocks s) (spent s) (canonical s) skipPoW b).
Proof.
  intros Hwf Hi Htip.
  destruct (validateBlockWithContext_decides now b bestHash tipHeight skipPoW s Hwf Hi Htip)
    as (r & (s' & ? & ? & ?) & ? & ?). eauto 10.
Qed.

(** A ledger that keeps no state: the genesis block, no key image spent,
    every output canonical. *)
#[local] Existing Instance toy_crypto.
#[local] Existing Instance mainnet.

Definition sample_blocks (_ : unit) (h : bytes) : option Block :=
  if decide (h = BlockHash GetGenesisBlock) then Some GetGenesisBlock else None.

Lemma sample_block_source :
  BlockSource (λ _, True) (λ _ _, True) (λ h, mret (sample_blocks tt h)) sample_blocks.
Proof. constructor; [intros [] h _; by exists tt|done]. Qed.

Lemma sample_ledger_source :
  LedgerSource (λ _, True) (λ _ _, True) (λ _, mret false) (λ _ _, mret true)
    (λ (_ : unit) _, false) (λ _ _ _, true).
Proof. constructor; try done; intros [] *; by exists tt. Qed.

Lemma tx_validation_exact_witness : valid_tx (λ _, false) (λ _ _, true) sample_tx.
Proof.
  destruct (tx_validation_exact (λ _, True) (λ _ _, True) (PreOrder0 := unit_preorder) _ _ _ _
              (LedgerSource0 := sample_ledger_source) sample_tx tt
              ltac:(vm_decide) I) as (r & s' & E & _ & _ & _ & Hv).
  apply Hv. replace r with (fst (r, s')) by reflexivity. rewrite <- E.
  vm_compute; reflexivity.
Defined.

Lemma block_validation_exact_witness :
  valid_block 1771207118 (sample_blocks tt) (λ _, false) (λ _ _, true) false block_1.
Proof.
  destruct (block_validation_exact (λ _, True) (λ _ _, True) (PreOrder0 := unit_preorder) _ _
              (BlockSource0 := sample_block_source) _ _ _ _ (LedgerSource0 := sample_ledger_source)
              1771207118 block_1 (BlockHash GetGenesisBlock) 0 false tt ltac:(vm_decide) I)
    as (r & s' & E & _ & _ & _ & Hv).
  - intros tip. unfold sample_blocks. rewrite decide_True by done. intros [= <-]. reflexivity.
  - apply Hv. replace r with (fst (r, s')) by reflexivity. rewrite <- E.
    vm_compute; reflexivity.
Defined.
