(* ===== verification/Balance.v ===== *)
(** * Conservation of amounts

    [verifyCommitmentBalance] checks an equation between points.  For
    commitments with known openings the equation is one between amounts, or
    else the openings give a relation between the two generators. *)

From S2P Require Import Prelude Bytes Crypto Instances Transaction Block Emission Validation Samples.

Section Group.
Context `{HC : Crypto} `{!CryptoLaws HC}.

Fixpoint p_sum (ps : list point) : point :=
  match ps with
  | [] => p_zero
  | p :: ps => p_add p (p_sum ps)
  end.

Lemma p_add_zero_r x : p_add x p_zero = x.
Proof. rewrite p_add_comm. apply p_add_zero. Qed.

Lemma p_add_cancel x y z : p_add x z = p_add y z → x = y.
Proof.
  intros E. apply (f_equal (λ w, p_add w (p_sub p_zero z))) in E.
  rewrite <- !p_add_assoc, (p_add_comm z), p_sub_add in E. by rewrite !p_add_zero_r in E.
Qed.

Lemma p_add_swap a b c d : p_add (p_add a b) (p_add c d) = p_add (p_add a c) (p_add b d).
Proof. by rewrite <- !p_add_assoc, (p_add_assoc b), (p_add_comm b c), <- !p_add_assoc. Qed.

Lemma pedersen_add v r v' r' : p_add (pedersen v r) (pedersen v' r') = pedersen (v + v') (r + r').
Proof. unfold pedersen. by rewrite p_add_swap, <- !p_smul_add. Qed.

Lemma pedersen_zero : pedersen 0 0 = p_zero.
Proof. unfold pedersen. by rewrite !p_smul_zero, p_add_zero. Qed.

Lemma pedersen_value v : p_smul v gen_B = pedersen v 0.
Proof. unfold pedersen. by rewrite p_smul_zero, p_add_zero_r. Qed.

(** ** The sums of the balance check *)

Lemma CommitmentAdd_Ok a b c :
  CommitmentAdd a b = Ok c ↔
  ∃ x y, decompress a = Some x ∧ decompress b = Some y ∧ c = compress (p_add x y).
Proof.
  unfold CommitmentAdd, blocknet_commitment_add.
  destruct (decompress a), (decompress b); simpl; naive_solver.
Qed.

Lemma CommitmentSub_Ok a b c :
  CommitmentSub a b = Ok c ↔
  ∃ x y, decompress a = Some x ∧ decompress b = Some y ∧ c = compress (p_sub x y).
Proof.
  unfold CommitmentSub, blocknet_commitment_sub.
  destruct (decompress a), (decompress b); simpl; naive_solver.
Qed.

Lemma sum_commitments_Ok fmt cs acc r z :
  sum_commitments fmt acc cs = Ok r → decompress r = Some z →
  ∃ ps, mapM decompress (acc :: cs) = Some ps ∧ z = p_sum ps.
Proof.
  revert acc. induction cs as [|c cs IH]; intros acc E Hr; cbn [sum_commitments] in E.
  { inv_ok. exists [z]. simpl. rewrite Hr. split; [done|]. by rewrite p_add_zero_r. }
  inv_ok. match goal with Hc : CommitmentAdd _ _ = _, Hs : sum_commitments _ _ _ = _ |- _ =>
    apply CommitmentAdd_Ok in Hc as (px & py & Hx & Hy & ->); apply IH in Hs as (ps & Hps & ->) end; [|done].
  cbn [mapM] in *. rewrite decompress_compress in Hps. rewrite Hx, Hy.
  destruct (mapM decompress cs) as [qs|]; simpl in *; [|done]. injection Hps as <-.
  exists (px :: py :: qs). split; [done|]. simpl. by rewrite p_add_assoc.
Qed.

(** The points behind an accepted balance: the pseudo-outputs sum to the
    outputs and the fee. *)
Lemma verifyCommitmentBalance_points tx :
  verifyCommitmentBalance tx = Ok tt →
  ∃ ins outs, mapM decompress (PseudoOutput <$> Inputs tx) = Some ins ∧
    mapM decompress (Commitment <$> Outputs tx) = Some outs ∧ outs ≠ [] ∧
    p_sum ins = p_add (p_sum outs) (p_smul (Fee tx) gen_B).
Proof.
  unfold verifyCommitmentBalance.
  destruct (PseudoOutput <$> Inputs tx) as [|p ps]; [by destruct (Commitment <$> Outputs tx)|].
  destruct (Commitment <$> Outputs tx) as [|c cs]; [done|]. intros E. inv_ok.
  match goal with Hin : sum_commitments _ p ps = _, Hout : sum_commitments _ c cs = _,
      Hadd : CommitmentAdd _ _ = _, Hsub : CommitmentSub _ _ = _, Hz : negb _ = _,
      Hf : CreateFeeCommitment _ = _ |- _ =>
    injection Hf as <-;
    apply CommitmentAdd_Ok in Hadd as (out & fee & Do & Df & ->);
    apply CommitmentSub_Ok in Hsub as (z & opf & Dz & Dof & ->);
    apply (sum_commitments_Ok _ _ _ _ _ Hin) in Dz as (ins & Hins & ->);
    apply (sum_commitments_Ok _ _ _ _ _ Hout) in Do as (outs & Houts & ->);
    apply negb_false_iff in Hz end.
  unfold CommitmentIsZero, blocknet_commitment_is_zero, blocknet_fee_commitment in *.
  rewrite decompress_compress in *. simplify_eq. simpl_bools.
  exists ins, outs. split_and!; [done|done| |].
  - intros ->. cbn [mapM] in Houts. destruct (decompress c); simpl in Houts; [|done].
    by destruct (mapM decompress cs).
  - match goal with Hz : p_sub ?a ?b = p_zero |- _ =>
      rewrite <- (p_sub_add a b), Hz end. apply p_add_zero.
Qed.

(** ** Openings *)

(** [c] is a commitment to [v] with blinding [r]. *)
Definition opens (c : bytes) (vr : Z * Z) : Prop := decompress c = Some (pedersen vr.1 vr.2).

Lemma opens_sum cs os ps :
  Forall2 opens cs os → mapM decompress cs = Some ps →
  p_sum ps = pedersen (sumZ os.*1) (sumZ os.*2).
Proof.
  intros HF. revert ps. induction HF as [|c [v r] cs os Ho HF IH]; intros ps E; cbn [mapM] in E.
  { injection E as <-. simpl. by rewrite pedersen_zero. }
  unfold opens in Ho. rewrite Ho in E. simpl in E.
  destruct (mapM decompress cs) as [qs|]; simpl in E; [|done]. injection E as <-.
  simpl. by rewrite (IH qs eq_refl), pedersen_add.
Qed.

Lemma verifyCommitmentBalance_openings tx ins outs :
  verifyCommitmentBalance tx = Ok tt →
  Forall2 opens (PseudoOutput <$> Inputs tx) ins → Forall2 opens (Commitment <$> Outputs tx) outs →
  pedersen (sumZ ins.*1 - (sumZ outs.*1 + Fee tx))
           (sumZ ins.*2 - sumZ outs.*2) = p_zero.
Proof.
  intros E Hi Ho. destruct (verifyCommitmentBalance_points tx E) as (pi & po & Mi & Mo & _ & Hsum).
  rewrite (opens_sum _ _ _ Hi Mi), (opens_sum _ _ _ Ho Mo), pedersen_value, pedersen_add in Hsum.
  eapply p_add_cancel. rewrite p_add_zero, pedersen_add, <- Hsum. f_equal; lia.
Qed.

Lemma sumZ_u64 (l : list Z) n :
  Forall is_u64 l → (length l <= n)%nat → 0 <= sumZ l <= Z.of_nat n * (2 ^ 64 - 1).
Proof.
  intros HF. revert n. induction HF as [|x l Hx HF IH]; intros n Hn; simpl in *; [lia|].
  destruct n as [|n]; [lia|]. specialize (IH n ltac:(lia)). unfold_ints. lia.
Qed.

End Group.

(** C9. No amount is created: in a transaction whose commitment balance is
    accepted, whatever amounts (64-bit) and blindings the pseudo-outputs and
    the outputs open to, the input amounts add up to the output amounts and
    the fee, or the openings give a relation [a*B + b*B_blinding = 0] between
    the generators with [a] not a multiple of the group order.  The bound of
    256 inputs and outputs is that of the wire format. *)
Theorem amounts_conserved `{HC : Crypto} `{!CryptoLaws HC} tx ins outs :
  verifyCommitmentBalance tx = Ok tt →
  Forall2 opens (PseudoOutput <$> Inputs tx) ins → Forall2 opens (Commitment <$> Outputs tx) outs →
  Forall is_u64 ins.*1 → Forall is_u64 outs.*1 → is_u64 (Fee tx) →
  (length (Inputs tx) <= 256)%nat → (length (Outputs tx) <= 256)%nat →
  sumZ ins.*1 = sumZ outs.*1 + Fee tx ∨
  (let a := sumZ ins.*1 - (sumZ outs.*1 + Fee tx) in
   let b := sumZ ins.*2 - sumZ outs.*2 in
   a `mod` group_order ≠ 0 ∧
   p_add (p_smul a gen_B) (p_smul b gen_B_blinding) = p_zero).
Proof.
  intros E Hi Ho Ui Uo Uf Li Lo.
  pose proof (Forall2_length _ _ _ Hi) as LI. pose proof (Forall2_length _ _ _ Ho) as LO.
  rewrite length_fmap in LI. rewrite length_fmap in LO.
  pose proof (sumZ_u64 _ 256 Ui ltac:(rewrite length_fmap; lia)).
  pose proof (sumZ_u64 _ 256 Uo ltac:(rewrite length_fmap; lia)).
  destruct (decide (sumZ ins.*1 = sumZ outs.*1 + Fee tx)) as [?|Hne]; [by left|right].
  split; [|by apply verifyCommitmentBalance_openings].
  intros Hm. unfold group_order in Hm. apply Z.mod_divide in Hm as [k Hk]; [|done].
  unfold_ints. assert (k = 0) by nia. lia.
Qed.

#[local] Existing Instance toy_crypto.
#[local] Existing Instance toy_crypto_laws.

Lemma amounts_conserved_witness :
  verifyCommitmentBalance sample_tx = Ok tt ∧
  (sumZ [(100, 7)].*1 = sumZ [(60, 3); (35, 4)].*1 + Fee sample_tx ∨
   (let a := sumZ [(100, 7)].*1 - (sumZ [(60, 3); (35, 4)].*1 + Fee sample_tx) in
    let b := sumZ [(100, 7)].*2 - sumZ [(60, 3); (35, 4)].*2 in
    a `mod` group_order ≠ 0 ∧
    p_add (p_smul a gen_B) (p_smul b gen_B_blinding) = p_zero)).
Proof.
  assert (verifyCommitmentBalance sample_tx = Ok tt) as E by vm_decide.
  split; [exact E|]. apply (amounts_conserved sample_tx [(100, 7)] [(60, 3); (35, 4)] E).
  - repeat constructor; unfold opens; apply decompress_compress.
  - repeat constructor; unfold opens; apply decompress_compress.
  - repeat constructor; vm_compute; congruence.
  - repeat constructor; vm_compute; congruence.
  - vm_compute; split; congruence.
  - vm_compute; lia.
  - vm_compute; lia.
Defined.
