(* ===== verification/Binding.v ===== *)
(** * The block hash identifies the block

    The transaction format is injective and the transactions of a valid block
    are pairwise different, so that, for messages the hash separates, the
    merkle root determines the transactions and the block hash the block. *)

From S2P Require Import Prelude Bytes Crypto Instances Transaction TxCodec Block Header Merkle Consensus Reads Difficulty Memo Emission Validation Coinbase Samples Validity.

(** ** The transaction format is injective *)

Section Injective.

(** Splits off one field of equal width from both sides of [E]. *)
Ltac field E :=
  let E' := fresh E in
  apply app_inj_1 in E as [E' E]; [|first [congruence|by rewrite !length_le_bytes|by rewrite !length_encode_len]].

Lemma encode_len_inj {A B} (l : list A) (k : list B) :
  is_u32 (Z.of_nat (length l)) → is_u32 (Z.of_nat (length k)) →
  encode_len l = encode_len k → length l = length k.
Proof.
  intros Hl Hk E. unfold encode_len in E. apply le_bytes_inj in E; [lia|done..].
Qed.

Lemma concat_keys_inj (l k : list bytes) x y :
  Forall (λ b, length b = 32%nat) l → Forall (λ b, length b = 32%nat) k → length l = length k →
  concat l ++ x = concat k ++ y → l = k ∧ x = y.
Proof.
  intros Hl. revert k. induction Hl as [|a l Ha Hl IH]; intros [|b k] Hk El E; simpl in *; try done.
  apply Forall_cons in Hk as [Hb Hk]. rewrite <- !app_assoc in E. field E.
  apply IH in E as [-> ->]; [by subst|done|lia].
Qed.

Lemma encode_output_inj o o' x y :
  wf_output o → wf_output o' → encode_output o ++ x = encode_output o' ++ y → o = o' ∧ x = y.
Proof.
  intros (? & ? & ? & ? & ?) (? & ? & ? & ? & ?) E. unfold encode_output in E.
  rewrite <- !app_assoc in E. do 5 field E.
  match goal with Hn : encode_len _ = encode_len _ |- _ => apply encode_len_inj in Hn; [|done..] end.
  field E. destruct o, o'; simpl in *; by subst.
Qed.

Lemma encode_input_inj i i' x y :
  wf_input i → wf_input i' → length (RingCommitments i) = length (RingMembers i) →
  length (RingCommitments i') = length (RingMembers i') →
  encode_input i ++ x = encode_input i' ++ y → i = i' ∧ x = y.
Proof.
  intros (? & ? & ? & ? & ? & ?) (? & ? & ? & ? & ? & ?) Hr Hr' E. unfold encode_input in E.
  rewrite <- !app_assoc in E. do 3 field E.
  match goal with Hn : encode_len _ = encode_len _ |- _ => apply encode_len_inj in Hn; [|done..] end.
  apply concat_keys_inj in E as [? E]; [|done..].
  apply concat_keys_inj in E as [? E]; [|done|done|congruence]. field E.
  match goal with Hn : encode_len _ = encode_len _ |- _ => apply encode_len_inj in Hn; [|done..] end.
  field E. destruct i, i'; simpl in *; by subst.
Qed.

Lemma concat_encode_inj {A} (enc : A → bytes) (P : A → Prop) l k x y :
  (∀ a b x y, P a → P b → enc a ++ x = enc b ++ y → a = b ∧ x = y) →
  Forall P l → Forall P k → length l = length k →
  concat (enc <$> l) ++ x = concat (enc <$> k) ++ y → l = k ∧ x = y.
Proof.
  intros Henc Hl. revert k. induction Hl as [|a l Ha Hl IH]; intros [|b k] Hk El E; simpl in *; try done.
  apply Forall_cons in Hk as [Hb Hk]. rewrite <- !app_assoc in E.
  apply Henc in E as [-> E]; [|done..]. apply IH in E as [-> ->]; [done|done|lia].
Qed.

Lemma encode_inj tx tx' :
  wf_tx tx → wf_tx tx' → rings_match tx → rings_match tx' → encode tx = encode tx' → tx = tx'.
Proof.
  intros (? & ? & ? & ? & ? & Hi & Ho) (? & ? & ? & ? & ? & Hi' & Ho') Hr Hr' E.
  unfold encode, encode_prefix in E. rewrite <- !app_assoc in E. do 5 field E.
  repeat match goal with Hn : encode_len _ = encode_len _ |- _ => apply encode_len_inj in Hn; [|done..] end.
  repeat match goal with Hn : le_bytes _ _ = le_bytes _ _ |- _ => apply le_bytes_inj in Hn; [|done..] end.
  apply (concat_encode_inj encode_output wf_output) in E as [? E]; [|apply encode_output_inj|done..].
  rewrite <- (app_nil_r (concat (encode_input <$> Inputs tx))),
          <- (app_nil_r (concat (encode_input <$> Inputs tx'))) in E.
  apply (concat_encode_inj encode_input
    (λ i, wf_input i ∧ length (RingCommitments i) = length (RingMembers i))) in E as [? _].
  - destruct tx, tx'; simpl in *; by subst.
  - intros a b u v [??] [??]. by apply encode_input_inj.
  - by apply Forall_and.
  - by apply Forall_and.
  - done.
Qed.

End Injective.

(** ** The transactions of a valid block *)

Section BlockBinding.
Context `{HC : Crypto} `{!CryptoLaws HC} `{Network} `{MathLib}.

Definition txid (tx : Transaction) : bytes := sha3_256 (encode tx).

(** The messages hashed for the merkle root of a block and for its header. *)
Definition block_messages (b : Block) : list bytes :=
  encode_header (Header b) :: (encode <$> Transactions b) ++ merkle_messages (txid <$> Transactions b).

Lemma valid_tx_outputs spent canonical tx : valid_tx spent canonical tx → Outputs tx ≠ [].
Proof.
  intros (_ & [(_ & _ & out & -> & _)|(_ & _ & _ & _ & Hb)]); [done|].
  intros E. unfold verifyCommitmentBalance in Hb. rewrite E in Hb. simpl in Hb.
  by destruct (PseudoOutput <$> Inputs tx).
Qed.

Lemma Size_large tx : Outputs tx ≠ [] → (64 < Size tx)%nat.
Proof.
  intros Ho. unfold Size, tx_header_size. destruct (Outputs tx) as [|o os]; [done|].
  simpl. unfold output_size, MemoSize. lia.
Qed.

Lemma TxID_txid tx : wf_tx tx → rings_match tx → TxID tx = Ok (txid tx).
Proof. intros. unfold TxID. by rewrite Serialize_encode. Qed.

Lemma mapM_txid txs :
  Forall wf_tx txs → Forall rings_match txs →
  mapM (λ tx, wrap "failed to hash tx %d" (TxID tx)) txs = Ok (txid <$> txs).
Proof.
  induction txs as [|tx txs IH]; intros Hw Hr; [done|].
  apply Forall_cons in Hw as [? ?], Hr as [? ?]. cbn [mapM].
  rewrite TxID_txid by done. simpl. by rewrite IH.
Qed.

Lemma valid_body_NoDup spent canonical b : valid_body spent canonical b → NoDup (Transactions b).
Proof.
  intros (_ & (cb & rest & E & Hcb & Hrest & _) & _ & Hd & _).
  unfold block_key_images, txs_key_images in Hd. rewrite E in *. constructor.
  - intros Hin. rewrite Forall_forall in Hrest. specialize (Hrest _ Hin). congruence.
  - rewrite filter_cons, decide_False in Hd by congruence.
    rewrite (filter_id _ rest) in Hd by done.
    eapply NoDup_concat_nonempty; [exact Hd|]. eapply Forall_impl; [exact Hrest|].
    intros tx Ht. unfold IsCoinbase in Ht. apply bool_decide_eq_false in Ht.
    unfold key_images. by destruct (Inputs tx).
Qed.

Lemma NoDup_txid msgs txs :
  collision_free msgs → encode <$> txs ⊆ msgs → Forall wf_tx txs → Forall rings_match txs →
  NoDup txs → NoDup (txid <$> txs).
Proof.
  intros Hc Hs Hw Hr Hd. rewrite Forall_forall in Hw, Hr.
  apply NoDup_fmap_2_strong; [|done]. intros x y Hx Hy E. apply encode_inj; auto.
  apply Hc; [apply Hs; by apply list_elem_of_fmap_2..|done].
Qed.

Lemma merkle_binding spent canonical b :
  valid_body spent canonical b → wf_block b → ∀ msgs,
  collision_free msgs → block_messages b ⊆ msgs →
  let l := txid <$> Transactions b in
  l ≠ [] ∧ tree_in msgs l ∧ hashes32 l ∧ NoDup l ∧ Forall (is_leaf msgs) l ∧
  MerkleRoot (Header b) = computeMerkleRoot l.
Proof.
  intros Hv [_ Hw] msgs Hc Hs l. pose proof (valid_body_NoDup _ _ _ Hv) as Hd.
  destruct Hv as (_ & (cb & rest & E & _) & Ht & _ & Hroot).
  assert (Forall rings_match (Transactions b)) as Hr.
  { eapply Forall_impl; [exact Ht|]. intros. by eapply valid_tx_rings_match. }
  assert (Transactions b ≠ []) as Hne by by rewrite E.
  unfold block_messages in Hs. unfold ComputeMerkleRoot in Hroot.
  rewrite decide_False, mapM_txid in Hroot by done. injection Hroot as Hroot.
  split_and!.
  - unfold l. by rewrite E.
  - eapply tree_in_messages; [done|reflexivity|]. fold (merkle_messages l). set_solver.
  - apply Forall_fmap, Forall_true. intros tx. apply sha3_256_length.
  - eapply NoDup_txid; [done|set_solver|done..].
  - apply Forall_fmap, Forall_forall. intros tx Hin. exists (encode tx).
    rewrite Forall_forall in Hw, Hr, Ht. split_and!; [|rewrite length_encode by auto|done].
    + apply Hs. right. apply elem_of_app. left. by apply list_elem_of_fmap_2.
    + pose proof (Size_large tx (valid_tx_outputs _ _ _ (Ht tx Hin))). lia.
  - by symmetry.
Qed.

End BlockBinding.

(** C24. The block hash identifies the block: two blocks whose bodies are
    valid (against whatever ledgers) and that have the same hash are the same
    block, transactions included, when SHA3-256 separates the serializations
    and the tree nodes hashed for them.  The duplication of the last hash of
    an odd level of the merkle tree cannot be exploited, since a valid block
    holds no transaction twice. *)
Theorem block_hash_identifies_block `{HC : Crypto} `{!CryptoLaws HC} `{Network} `{MathLib}
    spent canonical spent' canonical' b b' :
  wf_block b → wf_block b' → valid_body spent canonical b → valid_body spent' canonical' b' →
  collision_free (block_messages b ++ block_messages b') →
  BlockHash b = BlockHash b' → b = b'.
Proof.
  intros Hw Hw' Hv Hv' Hc E.
  assert (Header b = Header b') as Eh.
  { apply HeaderHash_inj; [apply Hw|apply Hw'| |done].
    eapply collision_free_sub; [|exact Hc]. unfold block_messages. set_solver. }
  edestruct (merkle_binding _ _ _ Hv Hw _ Hc) as (? & ? & ? & ? & ? & Hm); [set_solver|].
  edestruct (merkle_binding _ _ _ Hv' Hw' _ Hc) as (? & ? & ? & ? & ? & Hm'); [set_solver|].
  rewrite Eh, Hm' in Hm. apply (merkle_root_inj _ Hc) in Hm; [|done..].
  assert (Transactions b' = Transactions b) as Et.
  { destruct Hv as (_ & _ & Ht & _), Hv' as (_ & _ & Ht' & _), Hw as [_ Hw], Hw' as [_ Hw'].
    rewrite Forall_forall in Ht, Ht', Hw, Hw'.
    apply (fmap_inj_on txid); [|done]. intros x y Hx Hy Exy.
    apply encode_inj; eauto using valid_tx_rings_match.
    apply Hc; [| |exact Exy]; unfold block_messages; rewrite elem_of_app, !elem_of_cons, !elem_of_app.
    - right; right; left. by apply list_elem_of_fmap_2.
    - left; right; left. by apply list_elem_of_fmap_2. }
  destruct b, b'; simpl in *; by subst.
Qed.

#[local] Existing Instance toy_crypto.
#[local] Existing Instance toy_crypto_laws.
#[local] Existing Instance mainnet.

Lemma sample_valid_body b :
  Forall wf_tx (Transactions b) →
  validate_body b (λ _, mret false) (Some (λ _ _, mret true)) tt = (Ok tt, tt) →
  valid_body (λ _, false) (λ _ _, true) b.
Proof.
  intros Hw E.
  eapply (decides_accepts (λ _ : unit, True) (λ _ _, True)); [|exact E].
  apply (validate_body_decides (PreOrder0 := unit_preorder) (BlockSource0 := sample_block_source)
           (LedgerSource0 := sample_ledger_source) b tt tt); done.
Qed.

#[global] Instance wf_block_dec b : Decision (wf_block b).
Proof. unfold wf_block, wf_header, wf_tx, wf_input, wf_output, is_u8, is_u32, is_u64, is_i64. apply _. Defined.

Lemma block_hash_identifies_block_witness : BlockHash block_1 ≠ BlockHash block_1_alt.
Proof.
  intros E. assert (block_1 = block_1_alt) as Eb.
  { apply (block_hash_identifies_block (λ _, false) (λ _ _, true) (λ _, false) (λ _ _, true)).
    - vm_decide.
    - vm_decide.
    - apply sample_valid_body; [vm_decide|vm_compute; reflexivity].
    - apply sample_valid_body; [vm_decide|vm_compute; reflexivity].
    - vm_decide.
    - exact E. }
  apply (f_equal (λ b, length (Transactions b))) in Eb. vm_compute in Eb. discriminate Eb.
Defined.
