(* ===== verification/Storage.v ===== *)
(** * Persistent storage ([storage.go])

    The database is five buckets of byte strings.  bbolt runs the function
    of an [Update] in a transaction whose writes become visible together if
    the function and the commit succeed, and are dropped otherwise; [Put] and
    [Delete] with the fixed-size keys used here do not fail.  JSON encoding
    is a parameter with its round-trip law. *)

From S2P Require Import Prelude Bytes Crypto Transaction Block.

(** A transaction output with its position ([transaction.go]). *)
Record UTXO : Type := MkUTXO {
  UTxID : bytes;
  OutputIndex : Z;
  Output : TxOutput;
  BlockHeight : Z;
}.

#[global] Instance UTXO_eq_dec : EqDecision UTXO.
Proof. solve_decision. Defined.

(** [json.Unmarshal] fills the target even when it fails, and makes a nil
    pointer of a [null] transaction. *)
Class JSON : Type := {
  marshal_block : Block → result bytes;
  unmarshal_wire_block : bytes → WireBlock * option error;
  marshal_utxo : UTXO → result bytes;
  unmarshal_utxo : bytes → UTXO * option error;
}.

Class JSONLaws (J : JSON) : Prop := {
  block_wire_roundtrip : ∀ b d, marshal_block b = Ok d → unmarshal_wire_block d = (wire b, None);
  utxo_roundtrip : ∀ u d, marshal_utxo u = Ok d → unmarshal_utxo d = (u, None);
  (* fixed-size arrays and machine integers *)
  block_wire_typed : ∀ d w, unmarshal_wire_block d = (w, None) → wf_wire w;
  utxo_typed : ∀ d u, unmarshal_utxo d = (u, None) → wf_output (Output u);
  marshal_block_safe : ∀ b, safe (marshal_block b);
  marshal_utxo_safe : ∀ u, safe (marshal_utxo u);
}.

(** What the database holds was marshalled from blocks without nil pointers;
    other data is an error here. *)
Definition unmarshal_block `{JSON} (data : bytes) : Block * option error :=
  let '(w, err) := unmarshal_wire_block data in
  match pointees w with
  | Some b => (b, err)
  | None => (MkBlock (WHeader w) [], Some (Errorf "null transaction in stored block"))
  end.

Lemma block_roundtrip `{HJ : JSON} `{!JSONLaws HJ} b d : marshal_block b = Ok d → unmarshal_block d = (b, None).
Proof. intros E%block_wire_roundtrip. unfold unmarshal_block. by rewrite E, pointees_wire. Qed.

Lemma block_typed `{HJ : JSON} `{!JSONLaws HJ} d b : unmarshal_block d = (b, None) → wf_block b.
Proof.
  unfold unmarshal_block. destruct (unmarshal_wire_block d) as [w err] eqn:E. destruct (pointees w) as [b'|] eqn:Ep; [|done].
  intros [= -> ->]. apply pointees_Some in Ep as ->. by apply wf_wire_wire, (block_wire_typed d).
Qed.

(** ** The database *)

Abbreviation bucket := (gmap bytes bytes).

Record DB : Type := MkDB {
  bucketBlocks : bucket;
  bucketHeights : bucket;
  bucketOutputs : bucket;
  bucketKeyImages : bucket;
  bucketMeta : bucket;
}.

Definition empty_db : DB := MkDB ∅ ∅ ∅ ∅ ∅.

Definition in_blocks (f : bucket → bucket) (d : DB) : DB :=
  MkDB (f (bucketBlocks d)) (bucketHeights d) (bucketOutputs d) (bucketKeyImages d) (bucketMeta d).
Definition in_heights (f : bucket → bucket) (d : DB) : DB :=
  MkDB (bucketBlocks d) (f (bucketHeights d)) (bucketOutputs d) (bucketKeyImages d) (bucketMeta d).
Definition in_outputs (f : bucket → bucket) (d : DB) : DB :=
  MkDB (bucketBlocks d) (bucketHeights d) (f (bucketOutputs d)) (bucketKeyImages d) (bucketMeta d).
Definition in_keyImages (f : bucket → bucket) (d : DB) : DB :=
  MkDB (bucketBlocks d) (bucketHeights d) (bucketOutputs d) (f (bucketKeyImages d)) (bucketMeta d).
Definition in_meta (f : bucket → bucket) (d : DB) : DB :=
  MkDB (bucketBlocks d) (bucketHeights d) (bucketOutputs d) (bucketKeyImages d) (f (bucketMeta d)).

(** The handle: the database and the outcomes of the commits to come; when
    the list is used up, commits succeed. *)
Record Storage : Type := MkStorage {
  db : DB;
  commits : list (option error);
}.

Definition Update (f : M DB unit) : M Storage unit := λ s,
  match f (db s) with
  | (Ok _, d) =>
      match commits s with
      | Some e :: cs => (Err e, MkStorage (db s) cs)
      | None :: cs => (Ok tt, MkStorage d cs)
      | [] => (Ok tt, MkStorage d [])
      end
  | (Err e, _) => (Err e, s)
  | (Panic, _) => (Panic, s)
  end.

(** A read: the function of a [View] cannot write. *)
Definition View {A} (f : DB → A) (s : Storage) : A := f (db s).

(** ** Keys and metadata *)

Definition heightKey (height : Z) : bytes := be_bytes 8 height.

Definition outpointKey (txid : bytes) (index : Z) : bytes := txid ++ be_bytes 4 index.

Definition metaKeyTip : bytes := bytes_of_string "tip".
Definition metaKeyHeight : bytes := bytes_of_string "height".
Definition metaKeyWork : bytes := bytes_of_string "work".

(** [None] is [found = false]. *)
Definition readTipMeta (meta : bucket) : result (option (bytes * Z)) :=
  match meta !! metaKeyTip, meta !! metaKeyHeight with
  | None, Some _ => Err (Errorf "height metadata present without tip metadata")
  | None, None => Ok None
  | Some tipData, heightData =>
      check (bool_decide (length tipData ≠ 32%nat)) (Errorf "invalid tip hash length: got %d");;
      let heightData := default [] heightData in
      check (bool_decide (length heightData ≠ 8%nat)) (Errorf "invalid tip height length: got %d");;
      Ok (Some (tipData, be_value heightData))
  end.

(** [copy(hash[:], data)] into a zeroed [[32]byte]. *)
Definition copy32 (data : bytes) : bytes := take 32 data ++ zeros (32 - length data).

Definition GetTip_db (d : DB) : option (bytes * Z * Z) :=
  let height := match bucketMeta d !! metaKeyHeight with
                | Some data => if decide (length data = 8%nat) then be_value data else 0
                | None => 0 end in
  let work := match bucketMeta d !! metaKeyWork with
              | Some data => if decide (length data = 8%nat) then be_value data else 0
              | None => 0 end in
  match bucketMeta d !! metaKeyTip with
  | Some data => Some (copy32 data, height, work)
  | None => None
  end.

Definition GetTip (s : Storage) : option (bytes * Z * Z) := View GetTip_db s.

Definition put_tip (hash : bytes) (height work : Z) : M DB unit :=
  modify (in_meta (<[metaKeyTip := hash]>));;
  modify (in_meta (<[metaKeyHeight := be_bytes 8 height]>));;
  modify (in_meta (<[metaKeyWork := be_bytes 8 work]>)).

Definition SetTip (hash : bytes) (height work : Z) : M Storage unit :=
  Update (put_tip hash height work).

(** ** Height index *)

Definition SetMainChainBlock (height : Z) (hash : bytes) : M Storage unit :=
  Update (modify (in_heights (<[heightKey height := hash]>))).

Definition GetBlockHashByHeight (s : Storage) (height : Z) : option bytes :=
  View (λ d, copy32 <$> bucketHeights d !! heightKey height) s.

Definition RemoveMainChainBlock (height : Z) : M Storage unit :=
  Update (modify (in_heights (delete (heightKey height)))).

(** ** Key images *)

Definition MarkKeyImageSpent (keyImage : bytes) (height : Z) : M Storage unit :=
  Update (modify (in_keyImages (<[keyImage := be_bytes 8 height]>))).

Definition IsKeyImageSpent_db (s : Storage) (keyImage : bytes) : bool * Z :=
  View (λ d, match bucketKeyImages d !! keyImage with
             | Some data => (true, if decide (length data = 8%nat) then be_value data else 0)
             | None => (false, 0)
             end) s.

Definition UnmarkKeyImageSpent (keyImage : bytes) : M Storage unit :=
  Update (modify (in_keyImages (delete keyImage))).

Definition GetSpentKeyImageCount (s : Storage) : nat := View (λ d, size (bucketKeyImages d)) s.

(** Every key image of the non-coinbase transactions of a block. *)
Definition unmark_key_images (block : Block) : M DB unit :=
  for_each (λ ki, modify (in_keyImages (delete ki))) (block_key_images block).

Definition mark_key_images (hKey : bytes) (kis : list bytes) : M DB unit :=
  for_each (λ ki, modify (in_keyImages (<[ki := hKey]>))) kis.

Section Storage.
Context `{Crypto} `{JSON}.

(** ** Blocks *)

Definition SaveBlock (block : Block) : M Storage unit :=
  let hash := BlockHash block in
  data ← lift (marshal_block block);
  Update (
    d ← get;
    checkM ((0 <? Height (Header block)) &&
            bool_decide (bucketBlocks d !! PrevHash (Header block) = None))
           (Errorf "block %x at height %d has missing parent %x");;
    modify (in_blocks (<[hash := data]>))).

(** The block and the error; the block is present although damaged when
    decoding fails. *)
Definition GetBlock_db (s : Storage) (hash : bytes) : option Block * option error :=
  View (λ d, match bucketBlocks d !! hash with
             | None => (None, None)
             | Some data => let '(block, err) := unmarshal_block data in (Some block, err)
             end) s.

Definition HasBlock_db (s : Storage) (hash : bytes) : bool :=
  View (λ d, bool_decide (is_Some (bucketBlocks d !! hash))) s.

(** ** Outputs *)

Definition put_output (out : UTXO) : M DB unit :=
  data ← lift (marshal_utxo out);
  modify (in_outputs (<[outpointKey (UTxID out) (OutputIndex out) := data]>)).

Definition SaveOutput (output : UTXO) : M Storage unit :=
  data ← lift (marshal_utxo output);
  Update (modify (in_outputs (<[outpointKey (UTxID output) (OutputIndex output) := data]>))).

Definition GetOutput (s : Storage) (txid : bytes) (index : Z) : option UTXO * option error :=
  View (λ d, match bucketOutputs d !! outpointKey txid index with
             | None => (None, None)
             | Some data => let '(output, err) := unmarshal_utxo data in (Some output, err)
             end) s.

(** [ForEach] visits the keys in order; [values] is the bucket in that
    order.  The first undecodable value stops it. *)
Fixpoint decode_outputs (values : list bytes) : list UTXO * option error :=
  match values with
  | [] => ([], None)
  | v :: values =>
      match unmarshal_utxo v with
      | (u, None) => let '(us, e) := decode_outputs values in (u :: us, e)
      | (_, Some e) => ([], Some e)
      end
  end.

(** Byte strings in lexicographic order. *)
Fixpoint bytes_leb (a b : bytes) : bool :=
  match a, b with
  | [], _ => true
  | _ :: _, [] => false
  | x :: a, y :: b =>
      if Z_of_byte x <? Z_of_byte y then true
      else if Z_of_byte y <? Z_of_byte x then false
      else bytes_leb a b
  end.

Definition key_le (kv kv' : bytes * bytes) : Prop := bytes_leb kv.1 kv'.1 = true.
#[global] Instance key_le_dec kv kv' : Decision (key_le kv kv').
Proof. unfold key_le. apply _. Defined.

Definition GetAllOutputs (s : Storage) : list UTXO * option error :=
  View (λ d, decode_outputs (merge_sort key_le (map_to_list (bucketOutputs d))).*2) s.

Definition CountOutputs (s : Storage) : nat := View (λ d, size (bucketOutputs d)) s.

(** ** Block commits *)

Record BlockCommit : Type := MkBlockCommit {
  CBlock : Block;
  CHeight : Z;
  CHash : bytes;
  CWork : Z;
  IsMainTip : bool;
  NewOutputs : list UTXO;
  SpentKeyImgs : list bytes;
}.

Definition check_tip_linkage (commit : BlockCommit) (meta : bucket) : result unit :=
  tip ← wrap "invalid tip metadata" (readTipMeta meta);
  match tip with
  | None => check (negb (CHeight commit =? 0))
                  (Errorf "cannot commit non-genesis tip to empty chain: height=%d")
  | Some (tipHash, tipHeight) =>
      check (negb (CHeight commit =? u64 (tipHeight + 1)))
            (Errorf "tip height linkage mismatch: current=%d new=%d");;
      check (bool_decide (PrevHash (Header (CBlock commit)) ≠ tipHash))
            (Errorf "tip hash linkage mismatch: expected prev %x got %x")
  end.

Definition CommitBlock (commit : BlockCommit) : M Storage unit :=
  let block := CBlock commit in
  checkM (negb (CHeight commit =? Height (Header block)))
         (Errorf "commit height mismatch: commit=%d block=%d");;
  checkM (bool_decide (CHash commit ≠ BlockHash block))
         (Errorf "commit hash mismatch with block header hash");;
  blockData ← lift (marshal_block block);
  let heightBytes := heightKey (CHeight commit) in
  Update (
    d ← get;
    checkM ((0 <? Height (Header block)) &&
            bool_decide (bucketBlocks d !! PrevHash (Header block) = None))
           (Errorf "main-chain commit block parent missing: height=%d prev=%x");;
    (if IsMainTip commit then lift (check_tip_linkage commit (bucketMeta d)) else mret tt);;
    modify (in_blocks (<[CHash commit := blockData]>));;
    if IsMainTip commit then
      modify (in_heights (<[heightBytes := CHash commit]>));;
      for_each put_output (NewOutputs commit);;
      mark_key_images heightBytes (SpentKeyImgs commit);;
      put_tip (CHash commit) (CHeight commit) (CWork commit)
    else mret tt).

(** ** Reorganization commits *)

Record ReorgCommit : Type := MkReorgCommit {
  Disconnect : list Block;
  Connect : list Block;
  NewTip : bytes;
  NewHeight : Z;
  NewWork : Z;
}.

(** The checks of the blocks to disconnect, from the tip down; [prev] is the
    block before in the list. *)
Fixpoint check_disconnect (heights : bucket) (expectedHeight : Z) (prev : option Block)
    (blocks : list Block) : result unit :=
  match blocks with
  | [] => Ok tt
  | block :: blocks =>
      let hash := BlockHash block in
      check (negb (Height (Header block) =? expectedHeight))
            (Errorf "disconnect[%d] height mismatch: expected=%d got=%d");;
      match heights !! heightKey expectedHeight with
      | None => Err (Errorf "main-chain height %d missing during disconnect")
      | Some mainHash =>
          check (bool_decide (copy32 mainHash ≠ hash))
                (Errorf "disconnect[%d] hash mismatch with height index at %d");;
          match prev with
          | Some prev => check (bool_decide (PrevHash (Header prev) ≠ hash))
                               (Errorf "disconnect linkage mismatch between heights %d and %d")
          | None => Ok tt
          end;;
          check_disconnect heights (u64 (expectedHeight - 1)) (Some block) blocks
      end
  end.

(** The base of the new branch: hash and height. *)
Definition reorg_base (currentTip : bytes) (currentHeight : Z) (disconnect : list Block)
    : result (bytes * Z) :=
  match last disconnect with
  | None => Ok (currentTip, currentHeight)
  | Some lowest =>
      check (Height (Header lowest) =? 0) (Errorf "reorg cannot disconnect genesis block");;
      Ok (PrevHash (Header lowest), Height (Header lowest) - 1)
  end.

(** The checks of the blocks to connect; returns the hash of the last. *)
Fixpoint check_connect (expectedPrevHash : bytes) (expectedHeight : Z) (blocks : list Block)
    : result bytes :=
  match blocks with
  | [] => Ok expectedPrevHash
  | block :: blocks =>
      check (negb (Height (Header block) =? expectedHeight))
            (Errorf "connect[%d] height mismatch: expected=%d got=%d");;
      check (bool_decide (PrevHash (Header block) ≠ expectedPrevHash))
            (Errorf "connect[%d] parent mismatch: expected prev %x got %x");;
      check_connect (BlockHash block) (u64 (expectedHeight + 1)) blocks
  end.

Definition disconnect_block (block : Block) : M DB unit :=
  modify (in_heights (delete (heightKey (Height (Header block)))));;
  unmark_key_images block.

(** [txid, _ := txn.TxID()]: serialization has no error result. *)
Definition tx_outputs (height : Z) (tx : Transaction) : result (list UTXO) :=
  txid ← TxID tx;
  Ok (imap (λ idx out, MkUTXO txid (u32 (Z.of_nat idx)) out height) (Outputs tx)).

Definition put_tx_outputs (height : Z) (tx : Transaction) : M DB unit :=
  outs ← lift (tx_outputs height tx);
  for_each (λ out, wrapM "failed to marshal output" (put_output out)) outs.

Definition connect_block (block : Block) : M DB unit :=
  let hKey := heightKey (Height (Header block)) in
  let hash := BlockHash block in
  blockData ← lift (wrap "failed to marshal block" (marshal_block block));
  modify (in_blocks (<[hash := blockData]>));;
  modify (in_heights (<[hKey := hash]>));;
  for_each (put_tx_outputs (Height (Header block))) (Transactions block);;
  mark_key_images hKey (block_key_images block).

Definition reorg_transaction (commit : ReorgCommit) : M DB unit :=
  d ← get;
  tip ← lift (wrap "invalid current tip metadata" (readTipMeta (bucketMeta d)));
  match tip with
  | None => throw (Errorf "cannot apply reorg on empty chain")
  | Some (currentTip, currentHeight) =>
      let nDisconnect := Z.of_nat (length (Disconnect commit)) in
      let nConnect := Z.of_nat (length (Connect commit)) in
      checkM (i64 (u64 (currentHeight + 1)) <? nDisconnect)
             (Errorf "disconnect set too deep for current height: disconnect=%d currentHeight=%d");;
      checkM (negb (NewHeight commit =? u64 (currentHeight - nDisconnect + nConnect)))
             (Errorf "reorg new height mismatch: expected=%d got=%d");;
      lift (check_disconnect (bucketHeights d) currentHeight None (Disconnect commit));;
      '(baseHash, baseHeight) ← lift (reorg_base currentTip currentHeight (Disconnect commit));
      checkM (bool_decide (bucketBlocks d !! baseHash = None)) (Errorf "reorg base block not found: %x");;
      expectedPrevHash ← lift (check_connect baseHash (u64 (baseHeight + 1)) (Connect commit));
      checkM (bool_decide (NewTip commit ≠ expectedPrevHash))
             (Errorf "reorg new tip mismatch: expected=%x got=%x");;
      for_each disconnect_block (reverse (Disconnect commit));;
      for_each connect_block (Connect commit);;
      put_tip (NewTip commit) (NewHeight commit) (NewWork commit)
  end.

Definition CommitReorg (commit : ReorgCommit) : M Storage unit :=
  checkM (bool_decide (Connect commit = []))
         (Errorf "reorg commit requires at least one block to connect");;
  Update (reorg_transaction commit).

End Storage.
