(* ===== verification/StorageFacts.v ===== *)
(** * The database represents a chain

    Abstract state: the main chain as a list of linked blocks from genesis.
    [represents] relates a database to it; [CommitReorg] and [CommitBlock]
    refine the replacement of a suffix and the extension of that list, and
    leave the database alone when they fail. *)

From S2P Require Import Prelude Bytes Crypto Transaction Block Storage.

(** ** Chains of blocks *)

Section Chains.
Context `{Crypto}.

(** [l] is a branch: consecutive heights from [h], each block naming the hash
    of the one before; [prev] is the hash before the first. *)
Fixpoint branch (prev : bytes) (h : Z) (l : list Block) : Prop :=
  match l with
  | [] => True
  | b :: l => PrevHash (Header b) = prev ∧ Height (Header b) = h ∧ branch (BlockHash b) (h + 1) l
  end.

(** A branch from a genesis block. *)
Definition linked (main : list Block) : Prop :=
  match main with
  | [] => True
  | g :: l => Height (Header g) = 0 ∧ branch (BlockHash g) 1 l
  end.

Definition tip_hash (prev : bytes) (l : list Block) : bytes :=
  match last l with Some b => BlockHash b | None => prev end.

Definition chain_key_images (l : list Block) : list bytes := concat (block_key_images <$> l).

Lemma tip_hash_cons prev b l : tip_hash prev (b :: l) = tip_hash (BlockHash b) l.
Proof. unfold tip_hash. rewrite last_cons. by destruct (last l). Qed.

Lemma tip_hash_app prev l k : tip_hash prev (l ++ k) = tip_hash (tip_hash prev l) k.
Proof.
  revert prev. induction l as [|b l IH]; intros prev; [done|]. simpl. by rewrite !tip_hash_cons, IH.
Qed.

Lemma branch_app prev h l k :
  branch prev h (l ++ k) ↔ branch prev h l ∧ branch (tip_hash prev l) (h + Z.of_nat (length l)) k.
Proof.
  revert prev h. induction l as [|b l IH]; intros prev h; cbn [app branch length].
  - rewrite Z.add_0_r. unfold tip_hash. simpl. tauto.
  - rewrite IH, tip_hash_cons, Nat2Z.inj_succ.
    replace (h + 1 + Z.of_nat (length l)) with (h + Z.succ (Z.of_nat (length l))) by lia. tauto.
Qed.

Lemma branch_height prev h l i b :
  branch prev h l → l !! i = Some b → Height (Header b) = h + Z.of_nat i.
Proof.
  revert prev h i. induction l as [|x l IH]; intros prev h i Hb Hi; [done|].
  destruct Hb as (_ & Hx & Hb). destruct i as [|i]; simpl in Hi; [simplify_eq; lia|].
  rewrite (IH _ _ _ Hb Hi). lia.
Qed.

Lemma branch_prev prev h l i b :
  branch prev h l → l !! i = Some b → PrevHash (Header b) = tip_hash prev (take i l).
Proof.
  revert prev h i. induction l as [|x l IH]; intros prev h i Hb Hi; [done|].
  destruct Hb as (Hp & _ & Hb). destruct i as [|i]; simpl in Hi; [by simplify_eq|].
  cbn [take]. rewrite tip_hash_cons. by eapply IH.
Qed.

(** A linked chain is a branch from its genesis' parent. *)
Lemma linked_branch main :
  linked main ↔ ∃ prev, branch prev 0 main.
Proof.
  destruct main as [|g l]; simpl.
  - split; [by exists []|done].
  - split; [intros [? ?]; by exists (PrevHash (Header g))|by intros (prev & _ & ? & ?)].
Qed.

Lemma linked_height main i b : linked main → main !! i = Some b → Height (Header b) = Z.of_nat i.
Proof. intros [prev Hb]%linked_branch Hi. by apply (branch_height _ _ _ _ _ Hb Hi). Qed.

Lemma linked_app_branch main k prev :
  main ≠ [] → linked main → branch (tip_hash prev main) (Z.of_nat (length main)) k → linked (main ++ k).
Proof.
  intros Hne Hl Hb. apply linked_branch. apply linked_branch in Hl as [p Hl]. exists p.
  apply branch_app. split; [done|].
  replace (tip_hash p main) with (tip_hash prev main); [done|].
  unfold tip_hash. destruct (last main) eqn:E; [done|]. by apply last_None in E.
Qed.

Lemma linked_prefix main k : linked (main ++ k) → linked main.
Proof. rewrite !linked_branch. intros [p Hb]. exists p. by apply branch_app in Hb as [? _]. Qed.

Lemma chain_key_images_app l k : chain_key_images (l ++ k) = chain_key_images l ++ chain_key_images k.
Proof. unfold chain_key_images. by rewrite fmap_app, concat_app. Qed.

End Chains.

(** ** Representation *)

Section Represents.
Context `{HC : Crypto} `{HJ : JSON}.

(** The block stored under a hash. *)
Definition stored (d : DB) (hash : bytes) : option Block :=
  match bucketBlocks d !! hash with
  | Some data => match unmarshal_block data with (b, None) => Some b | _ => None end
  | None => None
  end.

Record represents (d : DB) (main : list Block) (work : Z) : Prop := {
  rep_nonempty : main ≠ [];
  rep_small : Z.of_nat (length main) <= 2 ^ 62;
  rep_linked : linked main;
  rep_tip : bucketMeta d !! metaKeyTip = Some (tip_hash [] main);
  rep_height : bucketMeta d !! metaKeyHeight = Some (be_bytes 8 (Z.of_nat (length main) - 1));
  rep_work : bucketMeta d !! metaKeyWork = Some (be_bytes 8 work);
  rep_heights : ∀ h, is_u64 h →
    bucketHeights d !! heightKey h = BlockHash <$> main !! Z.to_nat h;
  rep_blocks : ∀ i b, main !! i = Some b → stored d (BlockHash b) = Some b;
  rep_spent : ∀ ki, is_Some (bucketKeyImages d !! ki) ↔ ki ∈ chain_key_images main;
}.

(** *** Key images *)

Lemma foldl_in_keyImages {A} (f : A → bucket → bucket) l d :
  foldl (λ d x, in_keyImages (f x) d) d l = in_keyImages (λ m, foldl (λ m x, f x m) m l) d.
Proof. revert d. induction l as [|x l IH]; intros d; [by destruct d|]. simpl. by rewrite IH. Qed.

Lemma lookup_foldl_delete (l : list bytes) (m : bucket) ki :
  foldl (λ m k, delete k m) m l !! ki = if decide (ki ∈ l) then None else m !! ki.
Proof.
  revert m. induction l as [|k l IH]; intros m; cbn [foldl].
  { by rewrite decide_False by set_solver. }
  rewrite IH. destruct (decide (ki ∈ l)); [by rewrite decide_True by set_solver|].
  destruct (decide (ki = k)) as [->|]; [by rewrite lookup_delete_eq, decide_True by set_solver|].
  rewrite lookup_delete_ne by done. by rewrite decide_False by set_solver.
Qed.

Lemma lookup_foldl_insert (l : list bytes) (m : bucket) v ki :
  foldl (λ m k, <[k := v]> m) m l !! ki = if decide (ki ∈ l) then Some v else m !! ki.
Proof.
  revert m. induction l as [|k l IH]; intros m; cbn [foldl].
  { by rewrite decide_False by set_solver. }
  rewrite IH. destruct (decide (ki ∈ l)); [by rewrite decide_True by set_solver|].
  destruct (decide (ki = k)) as [->|]; [by rewrite lookup_insert_eq, decide_True by set_solver|].
  rewrite lookup_insert_ne by done. by rewrite decide_False by set_solver.
Qed.

(** *** Disconnecting blocks *)

Lemma disconnect_block_run b d :
  disconnect_block b d =
  (Ok tt, in_keyImages (λ m, foldl (λ m x, delete x m) m (block_key_images b))
            (in_heights (delete (heightKey (Height (Header b)))) d)).
Proof.
  transitivity (unmark_key_images b (in_heights (delete (heightKey (Height (Header b)))) d)); [done|].
  unfold unmark_key_images. by rewrite for_each_modify, foldl_in_keyImages.
Qed.

Lemma disconnect_blocks_spec l d :
  ∃ d', for_each disconnect_block l d = (Ok tt, d') ∧
    bucketBlocks d' = bucketBlocks d ∧ bucketMeta d' = bucketMeta d ∧
    bucketOutputs d' = bucketOutputs d ∧
    (∀ k, bucketHeights d' !! k =
       if decide (k ∈ (λ b, heightKey (Height (Header b))) <$> l) then None else bucketHeights d !! k) ∧
    (∀ ki, bucketKeyImages d' !! ki =
       if decide (ki ∈ chain_key_images l) then None else bucketKeyImages d !! ki).
Proof.
  revert d. induction l as [|b l IH]; intros d.
  { exists d. split_and!; try done; intros; by rewrite decide_False by set_solver. }
  cbn [for_each]. unfold mbind, M_bind. rewrite disconnect_block_run.
  destruct (IH (in_keyImages (λ m, foldl (λ m x, delete x m) m (block_key_images b))
                 (in_heights (delete (heightKey (Height (Header b)))) d)))
    as (d' & -> & Hb & Hm & Ho & Hh & Hk).
  exists d'. split_and!; try done.
  - intros k. rewrite Hh. cbn. destruct (decide (k = heightKey (Height (Header b)))) as [->|].
    + rewrite lookup_delete_eq. repeat case_decide; first [done|set_solver].
    + rewrite lookup_delete_ne by done. apply decide_ext. set_solver.
  - intros ki. rewrite Hk. cbn. rewrite lookup_foldl_delete.
    unfold chain_key_images. cbn [fmap list_fmap concat].
    repeat case_decide; set_solver.
Qed.

(** *** Connecting blocks *)

Definition same_but_outputs (d d' : DB) : Prop :=
  bucketBlocks d' = bucketBlocks d ∧ bucketHeights d' = bucketHeights d ∧
  bucketKeyImages d' = bucketKeyImages d ∧ bucketMeta d' = bucketMeta d.

#[local] Instance same_but_outputs_preorder : PreOrder same_but_outputs.
Proof.
  split; [by intros d|]. intros d1 d2 d3 (? & ? & ? & ?) (? & ? & ? & ?).
  unfold same_but_outputs. split_and!; by etrans.
Qed.

Lemma put_output_frame o d d' u : put_output o d = (Ok u, d') → same_but_outputs d d'.
Proof. unfold put_output. intros E. inv_run. done. Qed.

Lemma put_tx_outputs_frame h tx d d' u :
  put_tx_outputs h tx d = (Ok u, d') → same_but_outputs d d'.
Proof.
  unfold put_tx_outputs. intros E. inv_run.
  eapply (for_each_preorder same_but_outputs); [|eassumption].
  intros o d1 d2 u' _ E'. apply wrapM_Ok in E'. by eapply put_output_frame.
Qed.

Lemma mark_key_images_run hKey kis d :
  mark_key_images hKey kis d =
  (Ok tt, in_keyImages (λ m, foldl (λ m k, <[k := hKey]> m) m kis) d).
Proof. unfold mark_key_images. by rewrite for_each_modify, foldl_in_keyImages. Qed.

Lemma connect_block_spec b d d' u :
  connect_block b d = (Ok u, d') →
  ∃ data, marshal_block b = Ok data ∧
    bucketBlocks d' = <[BlockHash b := data]> (bucketBlocks d) ∧
    bucketHeights d' = <[heightKey (Height (Header b)) := BlockHash b]> (bucketHeights d) ∧
    bucketMeta d' = bucketMeta d ∧
    ∀ ki, bucketKeyImages d' !! ki =
      if decide (ki ∈ block_key_images b) then Some (heightKey (Height (Header b)))
      else bucketKeyImages d !! ki.
Proof.
  unfold connect_block. intros E. inv_run.
  match goal with Hm : wrap _ (marshal_block b) = Ok ?data |- _ => apply wrap_Ok in Hm; exists data end.
  match goal with Ho : for_each (put_tx_outputs _) _ _ = _ |- _ =>
    apply (for_each_preorder same_but_outputs) in Ho as (Hb & Hh & Hk & Hm);
      [|intros; by eapply put_tx_outputs_frame] end.
  match goal with Hk : mark_key_images _ _ _ = _ |- _ =>
    rewrite mark_key_images_run in Hk; injection Hk as _ <- end.
  cbn in *. split_and!; [done|done|done|done|]. intros ki. by rewrite lookup_foldl_insert, Hk.
Qed.

Lemma heightKey_inj h h' : is_u64 h → is_u64 h' → heightKey h = heightKey h' → h = h'.
Proof. intros ??. by apply be_bytes_inj. Qed.

(** [d'] holds what [d] holds and the blocks [l], each under its hash. *)
Definition blocks_added (l : list Block) (d d' : DB) : Prop :=
  ∀ hash, if decide (hash ∈ BlockHash <$> l)
          then ∃ b data, b ∈ l ∧ BlockHash b = hash ∧ marshal_block b = Ok data ∧
                         bucketBlocks d' !! hash = Some data
          else bucketBlocks d' !! hash = bucketBlocks d !! hash.

Lemma connect_blocks_spec l prev h d d' u :
  0 <= h → h + Z.of_nat (length l) <= 2 ^ 62 → branch prev h l →
  for_each connect_block l d = (Ok u, d') →
  bucketMeta d' = bucketMeta d ∧ blocks_added l d d' ∧
  (∀ h', is_u64 h' → bucketHeights d' !! heightKey h' =
     if decide (h <= h' < h + Z.of_nat (length l)) then BlockHash <$> l !! Z.to_nat (h' - h)
     else bucketHeights d !! heightKey h') ∧
  (∀ ki, is_Some (bucketKeyImages d' !! ki) ↔
     ki ∈ chain_key_images l ∨ is_Some (bucketKeyImages d !! ki)).
Proof.
  revert prev h d. induction l as [|b l IH]; intros prev h d Hh Hl Hb E; cbn [for_each] in E.
  { inv_run. split_and!; [done|by intros hash; rewrite decide_False by set_solver|intros; by rewrite decide_False by (simpl; lia)|set_solver]. }
  destruct Hb as (_ & Hbh & Hb). cbn [length] in Hl. rewrite Nat2Z.inj_succ in Hl.
  apply M_bind_Ok in E as (u' & d1 & E1 & E).
  apply connect_block_spec in E1 as (data & Hd & Hb1 & Hh1 & Hm1 & Hk1). rewrite Hbh in Hh1.
  destruct (IH (BlockHash b) (h + 1) d1 ltac:(lia) ltac:(lia) Hb E) as (Hm2 & Hb2 & Hh2 & Hk2). split_and!.
  - congruence.
  - clear -Hb1 Hb2 Hd. intros hash. specialize (Hb2 hash). rewrite fmap_cons.
    destruct (decide (hash ∈ BlockHash <$> l)) as [Hin|Hn].
    + rewrite decide_True by by right. destruct Hb2 as (b' & data' & ? & ?).
      exists b', data'. split; [by right|done].
    + rewrite Hb1 in Hb2. destruct (decide (hash = BlockHash b)) as [->|].
      * rewrite decide_True by left. rewrite lookup_insert_eq in Hb2.
        exists b, data. split; [left|done].
      * rewrite decide_False by (by apply not_elem_of_cons). by rewrite lookup_insert_ne in Hb2.
  - intros h' Hu. rewrite Hh2, Hh1 by done. cbn [length]. rewrite Nat2Z.inj_succ.
    destruct (decide (h' = h)) as [->|Hne].
    + rewrite decide_False, lookup_insert_eq, decide_True by lia. by rewrite Z.sub_diag.
    + rewrite lookup_insert_ne by (intros Ek; apply heightKey_inj in Ek; [lia|unfold_ints; lia|done]).
      destruct (decide (h + 1 <= h' < h + 1 + Z.of_nat (length l))).
      * rewrite (decide_True (P := h <= h' < _)) by lia.
        replace (Z.to_nat (h' - h)) with (S (Z.to_nat (h' - (h + 1)))) by lia. done.
      * by rewrite (decide_False (P := h <= h' < _)) by lia.
  - intros ki. rewrite Hk2, Hk1. unfold chain_key_images. cbn [fmap list_fmap concat].
    rewrite elem_of_app. case_decide as Hin; [|tauto]. split; intros _; [left; by left|right; by eexists].
Qed.

(** *** The checks of a reorganization *)

Context `{!CryptoLaws HC}.

Lemma BlockHash_length b : length (BlockHash b) = 32%nat.
Proof.
  unfold BlockHash, HeaderHash. destruct (serializeFull _); [apply sha3_256_length|done..].
Qed.

Lemma copy32_id h : length h = 32%nat → copy32 h = h.
Proof. intros Hl. unfold copy32. rewrite firstn_all2 by lia. rewrite Hl. apply app_nil_r. Qed.

Lemma check_connect_branch prev h l r :
  0 <= h → h + Z.of_nat (length l) <= 2 ^ 62 →
  check_connect prev h l = Ok r → branch prev h l ∧ r = tip_hash prev l.
Proof.
  revert prev h. induction l as [|b l IH]; intros prev h Hh Hl E; cbn [check_connect] in E.
  { by inv_ok. }
  cbn [length] in Hl. rewrite Nat2Z.inj_succ in Hl. inv_ok. simpl_bools.
  match goal with Hc : check_connect _ _ _ = _ |- _ =>
    rewrite u64_small in Hc by (unfold_ints; lia); apply IH in Hc as [? ->]; [|lia..] end.
  rewrite tip_hash_cons. done.
Qed.

Lemma check_disconnect_suffix (view : bytes → option Block) heights disc main prev :
  Z.of_nat (length main) <= 2 ^ 62 → (length disc <= length main)%nat →
  (∀ h, 0 <= h < Z.of_nat (length main) → heights !! heightKey h = BlockHash <$> main !! Z.to_nat h) →
  (∀ b, b ∈ main → view (BlockHash b) = Some b) → (∀ b, b ∈ disc → view (BlockHash b) = Some b) →
  check_disconnect heights (Z.of_nat (length main) - 1) prev disc = Ok tt →
  ∃ base, main = base ++ reverse disc.
Proof.
  revert main prev. induction disc as [|b disc IH]; intros main prev Hs Hl Hh Hm Hd E.
  { exists main. by rewrite app_nil_r. }
  destruct main as [|x main _] using rev_ind; [simpl in Hl; lia|].
  rewrite length_app in *. cbn [length] in *. cbn [check_disconnect] in E. inv_ok.
  replace (Z.of_nat (length main + 1) - 1) with (Z.of_nat (length main)) in * by lia.
  rewrite Hh, Nat2Z.id, list_lookup_middle in * by lia. cbn [fmap option_fmap option_map] in *.
  inv_ok. simpl_bools. rewrite copy32_id in * by apply BlockHash_length.
  assert (x = b) as ->.
  { assert (view (BlockHash x) = Some x) by (apply Hm; set_solver).
    assert (view (BlockHash b) = Some b) by (apply Hd; set_solver). congruence. }
  assert (∃ base, main = base ++ reverse disc) as [base ->].
  { destruct disc as [|b' disc'] eqn:Ed; [exists main; by rewrite app_nil_r|]. rewrite <- Ed in *.
    assert (0 < length disc)%nat by (rewrite Ed; simpl; lia).
    eapply (IH main (Some b)); [lia|lia| | | |].
    - intros h Hlt. rewrite Hh by lia. by rewrite lookup_app_l by lia.
    - intros c Hc. apply Hm. set_solver.
    - intros c Hc. apply Hd. set_solver.
    - match goal with Hx : check_disconnect _ _ _ _ = _ |- _ =>
        rewrite u64_small in Hx by (unfold_ints; lia); exact Hx end. }
  exists base. by rewrite reverse_cons, app_assoc.
Qed.

Lemma readTipMeta_represents d main w :
  represents d main w →
  readTipMeta (bucketMeta d) = Ok (Some (tip_hash [] main, Z.of_nat (length main) - 1)).
Proof.
  intros R. unfold readTipMeta. rewrite (rep_tip _ _ _ R), (rep_height _ _ _ R). cbn [default id].
  pose proof (rep_small _ _ _ R). pose proof (rep_nonempty _ _ _ R) as Hne.
  assert (1 <= length main)%nat by (destruct main; [done|simpl; lia]).
  rewrite (bool_decide_eq_false_2 (length (tip_hash _ _) ≠ _)); cycle 1.
  { unfold tip_hash. destruct (last main) eqn:E; [rewrite BlockHash_length; auto|].
    by apply last_None in E. }
  rewrite bool_decide_eq_false_2 by (rewrite length_be_bytes; auto). cbn [check mbind result_bind].
  rewrite be_value_bytes_small by (change (256 ^ Z.of_nat 8) with (2 ^ 64); lia). done.
Qed.

(** A successful database transaction, and what the store holds after it. *)
Record store_grows (view : bytes → option Block) (l : list Block) (d d' : DB) : Prop := {
  grows_view : ∀ hash b, stored d' hash = Some b → view hash = Some b;
  grows_old : ∀ hash b, stored d hash = Some b → stored d' hash = Some b;
  grows_new : ∀ b, b ∈ l → stored d' (BlockHash b) = Some b;
  grows_only : ∀ hash, is_Some (bucketBlocks d' !! hash) →
    is_Some (bucketBlocks d !! hash) ∨ hash ∈ BlockHash <$> l;
  grows_decodes : (∀ hash, is_Some (bucketBlocks d !! hash) → is_Some (stored d hash)) →
    ∀ hash, is_Some (bucketBlocks d' !! hash) → is_Some (stored d' hash);
}.

Context `{!JSONLaws HJ}.

Lemma blocks_added_grows view l d d' :
  (∀ hash b, stored d hash = Some b → view hash = Some b) →
  (∀ b, b ∈ l → view (BlockHash b) = Some b) → blocks_added l d d' → store_grows view l d d'.
Proof.
  intros Hv Hl Ha.
  assert (∀ hash, if decide (hash ∈ BlockHash <$> l)
                  then ∃ b, b ∈ l ∧ BlockHash b = hash ∧ stored d' hash = Some b ∧
                            is_Some (bucketBlocks d' !! hash)
                  else stored d' hash = stored d hash ∧
                       bucketBlocks d' !! hash = bucketBlocks d !! hash) as Hs.
  { intros hash. specialize (Ha hash). case_decide.
    - destruct Ha as (b & data & ? & ? & Hm & E). exists b. unfold stored. rewrite E.
      rewrite (block_roundtrip _ _ Hm). eauto.
    - unfold stored. by rewrite Ha. }
  assert (∀ b, b ∈ l → stored d' (BlockHash b) = Some b) as Hnew.
  { intros b Hb. specialize (Hs (BlockHash b)).
    rewrite decide_True in Hs by by apply list_elem_of_fmap_2.
    destruct Hs as (b' & Hb' & E & E' & _). rewrite E'. f_equal.
    apply Hl in Hb, Hb'. congruence. }
  split.
  - intros hash b E. specialize (Hs hash). case_decide.
    + destruct Hs as (b' & Hb' & <- & E' & _). rewrite E' in E. simplify_eq. auto.
    + destruct Hs as [E' _]. rewrite E' in E. auto.
  - intros hash b E. specialize (Hs hash). case_decide.
    + destruct Hs as (b' & Hb' & <- & E' & _). rewrite E'. apply Hv in E. apply Hl in Hb'. congruence.
    + by destruct Hs as [-> _].
  - exact Hnew.
  - intros hash Hi. specialize (Ha hash). case_decide; [by right|]. rewrite Ha in Hi. by left.
  - intros Hd hash Hi. specialize (Hs hash). case_decide.
    + destruct Hs as (b' & _ & _ & -> & _). eauto.
    + destruct Hs as [-> E]. rewrite E in Hi. auto.
Qed.

Lemma tip_hash_nonempty prev prev' l : l ≠ [] → tip_hash prev l = tip_hash prev' l.
Proof. unfold tip_hash. destruct (last l) eqn:E; [done|]. by apply last_None in E. Qed.

Lemma chain_key_images_reverse ki l : ki ∈ chain_key_images (reverse l) ↔ ki ∈ chain_key_images l.
Proof.
  unfold chain_key_images. rewrite !elem_of_concat. setoid_rewrite list_elem_of_fmap.
  setoid_rewrite elem_of_reverse. done.
Qed.

(** The base under the disconnected blocks. *)
Lemma reorg_base_Ok d main w disc base baseHash baseHeight :
  represents d main w → main = base ++ reverse disc →
  reorg_base (tip_hash [] main) (Z.of_nat (length main) - 1) disc = Ok (baseHash, baseHeight) →
  base ≠ [] ∧ baseHash = tip_hash [] base ∧ baseHeight = Z.of_nat (length base) - 1.
Proof.
  intros R -> E. unfold reorg_base in E. destruct (last disc) as [low|] eqn:El; cycle 1.
  { apply last_None in El as ->. inv_ok. cbn in *. rewrite app_nil_r in *.
    split_and!; [apply (rep_nonempty _ _ _ R)|done..]. }
  inv_ok. simpl_bools. apply last_Some in El as [disc' ->]. rewrite reverse_snoc in *.
  pose proof (rep_linked _ _ _ R) as [p Hb]%linked_branch.
  assert ((base ++ low :: reverse disc') !! length base = Some low) as Hlow by by apply list_lookup_middle.
  pose proof (branch_height _ _ _ _ _ Hb Hlow). pose proof (branch_prev _ _ _ _ _ Hb Hlow) as Hp.
  rewrite take_app_length in Hp.
  assert (base ≠ []) by (intros ->; simpl in *; lia).
  split_and!; [done|rewrite Hp; by apply tip_hash_nonempty|lia].
Qed.

Lemma put_tip_run hash height work d :
  put_tip hash height work d =
  (Ok tt, in_meta (λ m, <[metaKeyWork := be_bytes 8 work]>
            (<[metaKeyHeight := be_bytes 8 height]> (<[metaKeyTip := hash]> m))) d).
Proof. done. Qed.

Lemma disconnect_keys base disc h :
  linked (base ++ disc) → is_u64 h → Z.of_nat (length (base ++ disc)) <= 2 ^ 62 →
  heightKey h ∈ (λ b, heightKey (Height (Header b))) <$> disc ↔
  Z.of_nat (length base) <= h < Z.of_nat (length (base ++ disc)).
Proof.
  intros Hl Hu Hs. rewrite length_app in *.
  assert (∀ i b, disc !! i = Some b → Height (Header b) = Z.of_nat (length base + i)) as Hh.
  { intros i b Hi. apply (linked_height _ _ _ Hl). rewrite lookup_app_r by lia.
    by replace (length base + i - length base)%nat with i by lia. }
  rewrite list_elem_of_fmap. split.
  - intros (b & E & (i & Hi)%list_elem_of_lookup). pose proof (lookup_lt_Some _ _ _ Hi).
    rewrite (Hh _ _ Hi) in E. apply heightKey_inj in E; [lia|done|unfold_ints; lia].
  - intros Hr. destruct (lookup_lt_is_Some_2 disc (Z.to_nat h - length base)) as [b Hb]; [lia|].
    exists b. rewrite (Hh _ _ Hb). split; [f_equal; lia|]. by eapply list_elem_of_lookup_2.
Qed.

(** The writes of a reorganization, once its checks passed. *)
Lemma apply_reorg_represents view d base disc conn w d1 d2 work u1 u2 :
  represents d (base ++ reverse disc) w → NoDup (chain_key_images (base ++ reverse disc)) →
  base ≠ [] → branch (tip_hash [] base) (Z.of_nat (length base)) conn →
  Z.of_nat (length base) + Z.of_nat (length conn) <= 2 ^ 62 →
  (∀ hash b, stored d hash = Some b → view hash = Some b) →
  (∀ b, b ∈ conn → view (BlockHash b) = Some b) →
  for_each disconnect_block (reverse disc) d = (Ok u1, d1) →
  for_each connect_block conn d1 = (Ok u2, d2) →
  let d' := in_meta (λ m, <[metaKeyWork := be_bytes 8 work]>
    (<[metaKeyHeight := be_bytes 8 (Z.of_nat (length (base ++ conn)) - 1)]>
      (<[metaKeyTip := tip_hash [] (base ++ conn)]> m))) d2 in
  represents d' (base ++ conn) work ∧ store_grows view conn d d'.
Proof.
  intros R Hnd Hb Hbr Hlen Hv Hvl E1 E2 d'.
  destruct (disconnect_blocks_spec (reverse disc) d) as (d1' & E1' & Bd & Md & _ & Hd & Kd).
  rewrite E1' in E1. injection E1 as _ <-.
  destruct (connect_blocks_spec conn _ (Z.of_nat (length base)) _ _ _ ltac:(lia) Hlen Hbr E2) as (_ & Bc & Hc & Kc).
  assert (store_grows view conn d d') as Hg.
  { apply blocks_added_grows; [done|done|]. intros hash. specialize (Bc hash).
    by rewrite Bd in Bc. }
  split; [|exact Hg]. pose proof (rep_linked _ _ _ R) as Hlk. split.
  - by destruct base.
  - rewrite length_app. lia.
  - by eapply linked_app_branch; [done|by eapply linked_prefix|].
  - simpl. rewrite lookup_insert_ne, lookup_insert_ne by done. by rewrite lookup_insert_eq.
  - simpl. rewrite lookup_insert_ne by done. by rewrite lookup_insert_eq.
  - simpl. by rewrite lookup_insert_eq.
  - intros h Hu. simpl. rewrite Hc, Hd by done.
    pose proof (disconnect_keys base (reverse disc) h Hlk Hu (rep_small _ _ _ R)) as Hk.
    destruct (decide (Z.of_nat (length base) <= h < Z.of_nat (length base) + Z.of_nat (length conn))).
    { rewrite lookup_app_r by lia. f_equal. f_equal. lia. }
    destruct (decide (h < Z.of_nat (length base))).
    { rewrite decide_False by (rewrite Hk; lia). rewrite (rep_heights _ _ _ R) by done.
      unfold_ints. by rewrite !lookup_app_l by lia. }
    rewrite (lookup_ge_None_2 (base ++ conn)) by (rewrite length_app; lia).
    case_decide as Hin; [done|]. rewrite Hk in Hin. rewrite (rep_heights _ _ _ R) by done.
    by rewrite lookup_ge_None_2 by lia.
  - intros i b [Hi|[_ Hi]]%lookup_app_Some.
    + apply (grows_old _ _ _ _ Hg). eapply (rep_blocks _ _ _ R i). by apply lookup_app_l_Some.
    + apply (grows_new _ _ _ _ Hg). by eapply list_elem_of_lookup_2.
  - intros ki. simpl. rewrite Kc, Kd, chain_key_images_app, elem_of_app.
    rewrite chain_key_images_app in Hnd. apply NoDup_app in Hnd as (_ & Hx & _).
    pose proof (rep_spent _ _ _ R ki) as Hs. rewrite chain_key_images_app, elem_of_app in Hs.
    case_decide as Hin.
    + split; [intros [?|[? ?]]; [by right|done]|]. intros [?|?]; [|by left]. by destruct (Hx ki).
    + rewrite Hs. tauto.
Qed.

Lemma reorg_transaction_refines view d main w commit d' u :
  represents d main w → NoDup (chain_key_images main) →
  (∀ hash b, stored d hash = Some b → view hash = Some b) →
  (∀ b, b ∈ Disconnect commit ++ Connect commit → view (BlockHash b) = Some b) →
  Z.of_nat (length main) + Z.of_nat (length (Connect commit))
    - Z.of_nat (length (Disconnect commit)) <= 2 ^ 62 →
  reorg_transaction commit d = (Ok u, d') →
  ∃ base, main = base ++ reverse (Disconnect commit) ∧ base ≠ [] ∧
    represents d' (base ++ Connect commit) (NewWork commit) ∧
    NewTip commit = tip_hash [] (base ++ Connect commit) ∧
    NewHeight commit = Z.of_nat (length (base ++ Connect commit)) - 1 ∧
    store_grows view (Connect commit) d d'.
Proof.
  intros R Hnd Hv Hvl Hlen E. unfold reorg_transaction in E. inv_run.
  match goal with Ht : wrap _ (readTipMeta _) = Ok _ |- _ =>
    apply wrap_Ok in Ht; rewrite (readTipMeta_represents _ _ _ R) in Ht; injection Ht as <- end.
  pose proof (rep_small _ _ _ R) as Hsm. pose proof (rep_nonempty _ _ _ R) as Hne.
  assert (1 <= length main)%nat by (destruct main; [done|simpl; lia]).
  inv_run. simpl_bools.
  match goal with bh : bytes * Z |- _ => destruct bh as [baseHash baseHeight] end.
  inv_run. simpl_bools.
  match goal with
  | H1 : _ <= i64 _, H2 : NewHeight _ = _, H3 : check_disconnect _ _ _ _ = Ok ?u,
    H4 : reorg_base _ _ _ = _, H5 : check_connect _ _ _ = _, H6 : NewTip _ = _,
    H7 : for_each disconnect_block _ _ = _, H8 : for_each connect_block _ _ = _,
    H9 : put_tip _ _ _ _ = _ |- _ =>
      rename H1 into Hdeep, H2 into Hnh, H3 into Hdisc, H4 into Hbase, H5 into Hconn, H6 into Htip,
        H7 into Rdisc, H8 into Rconn, H9 into Rtip; destruct u
  end.
  rewrite u64_small in Hdeep by (unfold_ints; lia). rewrite i64_small in Hdeep by (unfold_ints; lia).
  destruct (check_disconnect_suffix view (bucketHeights d) (Disconnect commit) main None Hsm ltac:(lia)
    ltac:(intros h Hh; apply (rep_heights _ _ _ R); unfold_ints; lia)
    ltac:(intros b (i & Hi)%list_elem_of_lookup; by eapply Hv, (rep_blocks _ _ _ R))
    ltac:(intros; apply Hvl; set_solver) Hdisc) as [base Emain].
  destruct (reorg_base_Ok _ _ _ _ _ _ _ R Emain Hbase) as (Hbne & -> & ->).
  assert (1 <= length base)%nat by (destruct base; [done|simpl; lia]).
  assert (length main = (length base + length (Disconnect commit))%nat) as El
    by by rewrite Emain, length_app, length_reverse.
  subst main. rewrite El in *. clear El. rewrite u64_small in Hconn by (unfold_ints; lia).
  replace (Z.of_nat (length base) - 1 + 1) with (Z.of_nat (length base)) in Hconn by lia.
  apply check_connect_branch in Hconn as [Hbr ->]; [|lia..].
  rewrite u64_small in Hnh by (unfold_ints; lia).
  assert (NewTip commit = tip_hash [] (base ++ Connect commit)) as Htip' by by rewrite Htip, tip_hash_app.
  assert (NewHeight commit = Z.of_nat (length (base ++ Connect commit)) - 1) as Hnh'
    by (rewrite length_app; lia).
  rewrite put_tip_run in Rtip. injection Rtip as _ <-. rewrite Htip', Hnh'.
  exists base. split; [done|]. split; [done|].
  destruct (apply_reorg_represents view d base (Disconnect commit) (Connect commit) w _ _
              (NewWork commit) _ _ R Hnd Hbne Hbr ltac:(lia) Hv ltac:(set_solver) Rdisc Rconn) as [HR HG].
  done.
Qed.

End Represents.
