(* ===== verification/Commit.v ===== *)
(** * Commits to the storage

    The transactions of [storage.go] against the abstract chain: they never
    panic on sound blocks, a failed one leaves the database as it was, and a
    successful one replaces a suffix of the chain, extends it, or adds a
    block to the store. *)

From S2P Require Import Prelude Bytes Crypto Instances Transaction TxCodec Block Hoare Samples Storage StorageFacts.

(** [m] panics in no state. *)
Definition never_panics {S A} (m : M S A) : Prop := triple (λ _, True) m (λ _ _, True) (λ _ _, True).

Section NeverPanics.
Context {S : Type}.

Lemma np_bind {A B} (m : M S A) (f : A → M S B) :
  never_panics m → (∀ a, never_panics (f a)) → never_panics (m ≫= f).
Proof. intros Hm Hf. by eapply triple_bind. Qed.

Lemma np_get {A} (f : S → M S A) : (∀ s, never_panics (f s)) → never_panics (get ≫= f).
Proof. intros Hf s _. by apply (Hf s). Qed.

Lemma np_lift {A} (r : result A) : safe r → never_panics (lift (S := S) r).
Proof. intros. by apply triple_lift. Qed.

Lemma np_check cond e : never_panics (S := S) (checkM cond e).
Proof. by apply triple_check. Qed.

Lemma np_modify f : never_panics (S := S) (modify f).
Proof. by apply triple_modify. Qed.

Lemma np_ret {A} (a : A) : never_panics (S := S) (mret a).
Proof. by apply triple_ret. Qed.

Lemma np_throw {A} e : never_panics (S := S) (A := A) (throw e).
Proof. by apply triple_throw. Qed.

Lemma np_wrap {A} fmt (m : M S A) : never_panics m → never_panics (wrapM fmt m).
Proof. intros Hm. by apply triple_wrap. Qed.

Lemma np_for_each {A} (f : A → M S unit) l : Forall (λ x, never_panics (f x)) l → never_panics (for_each f l).
Proof. induction 1 as [|x l Hx Hl IH]; [apply np_ret|]. by apply np_bind. Qed.

End NeverPanics.

Create HintDb np.
#[export] Hint Resolve np_lift np_check np_modify np_ret np_throw np_wrap : np.

Section Commits.
Context `{HC : Crypto} `{!CryptoLaws HC} `{HJ : JSON} `{!JSONLaws HJ}.

Lemma Update_np f : never_panics f → never_panics (Update f).
Proof.
  intros Hf s _. specialize (Hf (db s) I). unfold Update.
  destruct (f (db s)) as [[u|e|] d]; [|done|done]. by destruct (commits s) as [|[e|] cs].
Qed.

(** A write transaction commits its writes, or leaves the database alone. *)
Lemma Update_run f s :
  match Update f s with
  | (Ok _, s') => ∃ u, f (db s) = (Ok u, db s')
  | (Err _, s') => db s' = db s
  | (Panic, _) => ∃ d, f (db s) = (Panic, d)
  end.
Proof.
  unfold Update. destruct (f (db s)) as [[u|e|] d]; [|done|by exists d].
  by destruct (commits s) as [|[e|] cs]; [exists u|done|exists u].
Qed.

Lemma tx_outputs_safe h tx : wf_tx tx → rings_match tx → safe (tx_outputs h tx).
Proof.
  intros Hw Hr. unfold tx_outputs, TxID. by rewrite Serialize_encode.
Qed.

Lemma put_output_np out : never_panics (put_output out).
Proof. apply np_bind; [apply np_lift, marshal_utxo_safe|]. auto with np. Qed.

Lemma connect_block_np b :
  Forall (λ tx, wf_tx tx ∧ rings_match tx) (Transactions b) → never_panics (connect_block b).
Proof.
  intros Htx. unfold connect_block.
  apply np_bind; [apply np_lift, safe_wrap, marshal_block_safe|]. intros data.
  do 2 (apply np_bind; [auto with np|]; intros _). apply np_bind; [|intros _].
  - apply np_for_each. eapply Forall_impl; [exact Htx|]. intros tx [Hw Hr].
    apply np_bind; [by apply np_lift, tx_outputs_safe|]. intros outs.
    apply np_for_each, Forall_true. intros. apply np_wrap, put_output_np.
  - apply np_for_each, Forall_true. auto with np.
Qed.

Lemma safe_check_disconnect heights h prev l : safe (check_disconnect heights h prev l).
Proof.
  revert h prev. induction l as [|b l IH]; intros h prev; simpl; [done|].
  apply safe_bind; [auto with safe|]. intros _ _. destruct (heights !! _); [|done].
  apply safe_bind; [auto with safe|]. intros _ _.
  apply safe_bind; [destruct prev; auto with safe|]. auto.
Qed.

Lemma safe_check_connect prev h l : safe (check_connect prev h l).
Proof.
  revert prev h. induction l as [|b l IH]; intros prev h; simpl; [done|].
  do 2 (apply safe_bind; [auto with safe|]; intros _ _). apply IH.
Qed.

Lemma safe_readTipMeta m : safe (readTipMeta m).
Proof.
  unfold readTipMeta. destruct (m !! metaKeyTip), (m !! metaKeyHeight); try done;
    do 2 (apply safe_bind; [auto with safe|]; intros _ _); done.
Qed.

Lemma safe_reorg_base t h l : safe (reorg_base t h l).
Proof. unfold reorg_base. destruct (last l); [|done]. by apply safe_bind; [auto with safe|]. Qed.

Lemma reorg_transaction_np commit :
  Forall (λ b, Forall (λ tx, wf_tx tx ∧ rings_match tx) (Transactions b)) (Connect commit) →
  never_panics (reorg_transaction commit).
Proof.
  intros Hc. unfold reorg_transaction. apply np_get. intros d.
  apply np_bind; [apply np_lift, safe_wrap, safe_readTipMeta|]. intros [[tip h]|]; [|auto with np].
  do 2 (apply np_bind; [auto with np|]; intros _).
  apply np_bind; [apply np_lift, safe_check_disconnect|]. intros _.
  apply np_bind; [apply np_lift, safe_reorg_base|]. intros [bh bht].
  apply np_bind; [auto with np|]. intros _.
  apply np_bind; [apply np_lift, safe_check_connect|]. intros e.
  apply np_bind; [auto with np|]. intros _.
  apply np_bind; [apply np_for_each, Forall_true|intros _].
  { intros b. apply np_bind; [auto with np|]. intros _. apply np_for_each, Forall_true. auto with np. }
  apply np_bind; [apply np_for_each|intros _].
  - eapply Forall_impl; [exact Hc|]. apply connect_block_np.
  - do 2 (apply np_bind; [auto with np|]; intros _). auto with np.
Qed.

(** [CommitReorg] against the abstract chain. *)
Lemma CommitReorg_spec view s main w commit :
  represents (db s) main w → NoDup (chain_key_images main) →
  (∀ hash b, stored (db s) hash = Some b → view hash = Some b) →
  (∀ b, b ∈ Disconnect commit ++ Connect commit → view (BlockHash b) = Some b) →
  Z.of_nat (length main) + Z.of_nat (length (Connect commit))
    - Z.of_nat (length (Disconnect commit)) <= 2 ^ 62 →
  Forall (λ b, Forall (λ tx, wf_tx tx ∧ rings_match tx) (Transactions b)) (Connect commit) →
  match CommitReorg commit s with
  | (Ok _, s') =>
      ∃ base, main = base ++ reverse (Disconnect commit) ∧ base ≠ [] ∧ Connect commit ≠ [] ∧
        represents (db s') (base ++ Connect commit) (NewWork commit) ∧
        NewTip commit = tip_hash [] (base ++ Connect commit) ∧
        NewHeight commit = Z.of_nat (length (base ++ Connect commit)) - 1 ∧
        store_grows view (Connect commit) (db s) (db s')
  | (Err _, s') => db s' = db s
  | (Panic, _) => False
  end.
Proof.
  intros R Hnd Hv Hvl Hlen Hc. unfold CommitReorg, checkM, mbind, M_bind, lift, check.
  case_bool_decide as Hne; [done|].
  pose proof (Update_run (reorg_transaction commit) s) as Hu.
  pose proof (Update_np _ (reorg_transaction_np _ Hc) s I) as Hn.
  destruct (Update _ s) as [[u|e|] s']; [|done|done]. destruct Hu as [u' Hu].
  destruct (reorg_transaction_refines view _ _ _ _ _ _ R Hnd Hv Hvl Hlen Hu) as (base & ? & ? & ? & ? & ? & ?).
  by exists base.
Qed.

(** New blocks in the store do not affect the chain it represents. *)
Lemma represents_grows view l d d' main w :
  represents d main w → store_grows view l d d' → bucketHeights d' = bucketHeights d →
  bucketMeta d' = bucketMeta d → bucketKeyImages d' = bucketKeyImages d → represents d' main w.
Proof.
  intros [] Hg Eh Em Ek. split; rewrite ?Eh, ?Em, ?Ek; try done.
  intros i b Hi. eapply grows_old; [exact Hg|eauto].
Qed.

(** [SaveBlock] adds one block to the store. *)
Lemma SaveBlock_spec view s main w b :
  represents (db s) main w →
  (∀ hash b, stored (db s) hash = Some b → view hash = Some b) → view (BlockHash b) = Some b →
  match SaveBlock b s with
  | (Ok _, s') => represents (db s') main w ∧ store_grows view [b] (db s) (db s')
  | (Err _, s') => db s' = db s
  | (Panic, _) => False
  end.
Proof.
  intros R Hv Hb. unfold SaveBlock, mbind at 1, M_bind at 1, lift.
  pose proof (marshal_block_safe b) as Hs. destruct (marshal_block b) as [data|e|] eqn:Em; [|done|done].
  match goal with |- context [Update ?f s] => pose proof (Update_run f s) as Hu end.
  unfold mbind, M_bind, get, checkM, lift, check, modify in Hu.
  destruct (Update _ s) as [[u|e|] s']; [|done|destruct Hu as [d Hu]; by destruct (_ && _)].
  destruct Hu as [u' Hu]. destruct (_ && _); [done|]. injection Hu as _ Ed. rewrite <- Ed.
  assert (store_grows view [b] (db s) (in_blocks (<[BlockHash b := data]>) (db s))) as Hg.
  { apply blocks_added_grows; [done|by intros x ->%list_elem_of_singleton|].
    intros hash. rewrite list_fmap_singleton. cbn [in_blocks bucketBlocks]. case_decide as Hd.
    - apply list_elem_of_singleton in Hd as ->. exists b, data.
      split_and!; [by left|done|done|by rewrite lookup_insert_eq].
    - apply lookup_insert_ne. set_solver. }
  split; [by eapply represents_grows|done].
Qed.

End Commits.

(** C10. [CommitReorg] is atomic and refines the replacement of a suffix: on
    a database that represents the chain [main], a commit never panics; if it
    fails, the database is unchanged; if it succeeds, the disconnected blocks
    are the end of [main] (genesis excepted), the database represents the
    rest followed by the connected blocks, with the tip, height and work of
    the commit, and the store has gained exactly the connected blocks.
    [view] says which block each hash in use stands for. *)
Theorem reorg_commit_refines `{HC : Crypto} `{!CryptoLaws HC} `{HJ : JSON} `{!JSONLaws HJ} view s main w commit :
  represents (db s) main w → NoDup (chain_key_images main) →
  (∀ hash b, stored (db s) hash = Some b → view hash = Some b) →
  (∀ b, b ∈ Disconnect commit ++ Connect commit → view (BlockHash b) = Some b) →
  Z.of_nat (length main) + Z.of_nat (length (Connect commit))
    - Z.of_nat (length (Disconnect commit)) <= 2 ^ 62 →
  Forall (λ b, Forall (λ tx, wf_tx tx ∧ rings_match tx) (Transactions b)) (Connect commit) →
  match CommitReorg commit s with
  | (Ok _, s') =>
      ∃ base, main = base ++ reverse (Disconnect commit) ∧ base ≠ [] ∧ Connect commit ≠ [] ∧
        represents (db s') (base ++ Connect commit) (NewWork commit) ∧
        NewTip commit = tip_hash [] (base ++ Connect commit) ∧
        NewHeight commit = Z.of_nat (length (base ++ Connect commit)) - 1 ∧
        store_grows view (Connect commit) (db s) (db s')
  | (Err _, s') => db s' = db s
  | (Panic, _) => False
  end.
Proof. intros. by eapply CommitReorg_spec. Qed.
