(* ===== verification/Chain.v ===== *)
(** * The chain ([block.go])

    The in-memory state over the storage: the block cache with its LRU
    eviction, the height index, the key images, the index of canonical
    outputs; fork choice, reorganization and truncation.  Every exported
    method runs under the chain's mutex, so that a call is one step. *)

From S2P Require Import Prelude Bytes Crypto Pow Transaction Block ExchangeSort Consensus Memo Emission Validation Storage.

(** ** State *)

Record Chain : Type := MkChain {
  storage : Storage;
  blocks : gmap bytes Block;
  workAt : gmap bytes Z;
  cacheCap : Z;
  cacheLRU : list bytes;  (* front first *)
  cacheIndex : gset bytes;  (* the keys of the index into the list *)
  byHeight : gmap Z bytes;
  timestamps : list Z;  (* oldest first *)
  bestHash : bytes;
  height : Z;
  totalWork : Z;
  keyImages : gmap bytes Z;
  canonicalRingIndex : gset bytes;  (* public key and commitment, 64 bytes *)
  canonicalRingIndexDirty : bool;
  canonicalRingIndexTip : bytes;
  canonicalRingIndexReady : bool;
  trustedCheckpoints : option (gmap Z bytes);  (* None is a nil map *)
  fastSyncUntilHeight : Z;
}.

(** One updater per field. *)
Definition on_storage (f : Storage → Storage) (c : Chain) : Chain :=
  MkChain (f (storage c)) (blocks c) (workAt c) (cacheCap c) (cacheLRU c) (cacheIndex c)
    (byHeight c) (timestamps c) (bestHash c) (height c) (totalWork c) (keyImages c)
    (canonicalRingIndex c) (canonicalRingIndexDirty c) (canonicalRingIndexTip c)
    (canonicalRingIndexReady c) (trustedCheckpoints c) (fastSyncUntilHeight c).
Definition on_blocks (f : gmap bytes Block → gmap bytes Block) (c : Chain) : Chain :=
  MkChain (storage c) (f (blocks c)) (workAt c) (cacheCap c) (cacheLRU c) (cacheIndex c)
    (byHeight c) (timestamps c) (bestHash c) (height c) (totalWork c) (keyImages c)
    (canonicalRingIndex c) (canonicalRingIndexDirty c) (canonicalRingIndexTip c)
    (canonicalRingIndexReady c) (trustedCheckpoints c) (fastSyncUntilHeight c).
Definition on_workAt (f : gmap bytes Z → gmap bytes Z) (c : Chain) : Chain :=
  MkChain (storage c) (blocks c) (f (workAt c)) (cacheCap c) (cacheLRU c) (cacheIndex c)
    (byHeight c) (timestamps c) (bestHash c) (height c) (totalWork c) (keyImages c)
    (canonicalRingIndex c) (canonicalRingIndexDirty c) (canonicalRingIndexTip c)
    (canonicalRingIndexReady c) (trustedCheckpoints c) (fastSyncUntilHeight c).
Definition on_cacheLRU (f : list bytes → list bytes) (c : Chain) : Chain :=
  MkChain (storage c) (blocks c) (workAt c) (cacheCap c) (f (cacheLRU c)) (cacheIndex c)
    (byHeight c) (timestamps c) (bestHash c) (height c) (totalWork c) (keyImages c)
    (canonicalRingIndex c) (canonicalRingIndexDirty c) (canonicalRingIndexTip c)
    (canonicalRingIndexReady c) (trustedCheckpoints c) (fastSyncUntilHeight c).
Definition on_cacheIndex (f : gset bytes → gset bytes) (c : Chain) : Chain :=
  MkChain (storage c) (blocks c) (workAt c) (cacheCap c) (cacheLRU c) (f (cacheIndex c))
    (byHeight c) (timestamps c) (bestHash c) (height c) (totalWork c) (keyImages c)
    (canonicalRingIndex c) (canonicalRingIndexDirty c) (canonicalRingIndexTip c)
    (canonicalRingIndexReady c) (trustedCheckpoints c) (fastSyncUntilHeight c).
Definition on_byHeight (f : gmap Z bytes → gmap Z bytes) (c : Chain) : Chain :=
  MkChain (storage c) (blocks c) (workAt c) (cacheCap c) (cacheLRU c) (cacheIndex c)
    (f (byHeight c)) (timestamps c) (bestHash c) (height c) (totalWork c) (keyImages c)
    (canonicalRingIndex c) (canonicalRingIndexDirty c) (canonicalRingIndexTip c)
    (canonicalRingIndexReady c) (trustedCheckpoints c) (fastSyncUntilHeight c).
Definition on_timestamps (f : list Z → list Z) (c : Chain) : Chain :=
  MkChain (storage c) (blocks c) (workAt c) (cacheCap c) (cacheLRU c) (cacheIndex c) (byHeight c)
    (f (timestamps c)) (bestHash c) (height c) (totalWork c) (keyImages c) (canonicalRingIndex c)
    (canonicalRingIndexDirty c) (canonicalRingIndexTip c) (canonicalRingIndexReady c)
    (trustedCheckpoints c) (fastSyncUntilHeight c).
Definition on_bestHash (f : bytes → bytes) (c : Chain) : Chain :=
  MkChain (storage c) (blocks c) (workAt c) (cacheCap c) (cacheLRU c) (cacheIndex c) (byHeight c)
    (timestamps c) (f (bestHash c)) (height c) (totalWork c) (keyImages c) (canonicalRingIndex c)
    (canonicalRingIndexDirty c) (canonicalRingIndexTip c) (canonicalRingIndexReady c)
    (trustedCheckpoints c) (fastSyncUntilHeight c).
Definition on_height (f : Z → Z) (c : Chain) : Chain :=
  MkChain (storage c) (blocks c) (workAt c) (cacheCap c) (cacheLRU c) (cacheIndex c) (byHeight c)
    (timestamps c) (bestHash c) (f (height c)) (totalWork c) (keyImages c) (canonicalRingIndex c)
    (canonicalRingIndexDirty c) (canonicalRingIndexTip c) (canonicalRingIndexReady c)
    (trustedCheckpoints c) (fastSyncUntilHeight c).
Definition on_totalWork (f : Z → Z) (c : Chain) : Chain :=
  MkChain (storage c) (blocks c) (workAt c) (cacheCap c) (cacheLRU c) (cacheIndex c) (byHeight c)
    (timestamps c) (bestHash c) (height c) (f (totalWork c)) (keyImages c) (canonicalRingIndex c)
    (canonicalRingIndexDirty c) (canonicalRingIndexTip c) (canonicalRingIndexReady c)
    (trustedCheckpoints c) (fastSyncUntilHeight c).
Definition on_keyImages (f : gmap bytes Z → gmap bytes Z) (c : Chain) : Chain :=
  MkChain (storage c) (blocks c) (workAt c) (cacheCap c) (cacheLRU c) (cacheIndex c) (byHeight c)
    (timestamps c) (bestHash c) (height c) (totalWork c) (f (keyImages c)) (canonicalRingIndex c)
    (canonicalRingIndexDirty c) (canonicalRingIndexTip c) (canonicalRingIndexReady c)
    (trustedCheckpoints c) (fastSyncUntilHeight c).
Definition on_canonicalRingIndex (f : gset bytes → gset bytes) (c : Chain) : Chain :=
  MkChain (storage c) (blocks c) (workAt c) (cacheCap c) (cacheLRU c) (cacheIndex c) (byHeight c)
    (timestamps c) (bestHash c) (height c) (totalWork c) (keyImages c) (f (canonicalRingIndex c))
    (canonicalRingIndexDirty c) (canonicalRingIndexTip c) (canonicalRingIndexReady c)
    (trustedCheckpoints c) (fastSyncUntilHeight c).
Definition on_canonicalRingIndexDirty (f : bool → bool) (c : Chain) : Chain :=
  MkChain (storage c) (blocks c) (workAt c) (cacheCap c) (cacheLRU c) (cacheIndex c) (byHeight c)
    (timestamps c) (bestHash c) (height c) (totalWork c) (keyImages c) (canonicalRingIndex c)
    (f (canonicalRingIndexDirty c)) (canonicalRingIndexTip c) (canonicalRingIndexReady c)
    (trustedCheckpoints c) (fastSyncUntilHeight c).
Definition on_canonicalRingIndexTip (f : bytes → bytes) (c : Chain) : Chain :=
  MkChain (storage c) (blocks c) (workAt c) (cacheCap c) (cacheLRU c) (cacheIndex c) (byHeight c)
    (timestamps c) (bestHash c) (height c) (totalWork c) (keyImages c) (canonicalRingIndex c)
    (canonicalRingIndexDirty c) (f (canonicalRingIndexTip c)) (canonicalRingIndexReady c)
    (trustedCheckpoints c) (fastSyncUntilHeight c).
Definition on_canonicalRingIndexReady (f : bool → bool) (c : Chain) : Chain :=
  MkChain (storage c) (blocks c) (workAt c) (cacheCap c) (cacheLRU c) (cacheIndex c) (byHeight c)
    (timestamps c) (bestHash c) (height c) (totalWork c) (keyImages c) (canonicalRingIndex c)
    (canonicalRingIndexDirty c) (canonicalRingIndexTip c) (f (canonicalRingIndexReady c))
    (trustedCheckpoints c) (fastSyncUntilHeight c).
Definition on_trustedCheckpoints (f : option (gmap Z bytes) → option (gmap Z bytes)) (c : Chain) : Chain :=
  MkChain (storage c) (blocks c) (workAt c) (cacheCap c) (cacheLRU c) (cacheIndex c) (byHeight c)
    (timestamps c) (bestHash c) (height c) (totalWork c) (keyImages c) (canonicalRingIndex c)
    (canonicalRingIndexDirty c) (canonicalRingIndexTip c) (canonicalRingIndexReady c)
    (f (trustedCheckpoints c)) (fastSyncUntilHeight c).
Definition on_fastSyncUntilHeight (f : Z → Z) (c : Chain) : Chain :=
  MkChain (storage c) (blocks c) (workAt c) (cacheCap c) (cacheLRU c) (cacheIndex c) (byHeight c)
    (timestamps c) (bestHash c) (height c) (totalWork c) (keyImages c) (canonicalRingIndex c)
    (canonicalRingIndexDirty c) (canonicalRingIndexTip c) (canonicalRingIndexReady c)
    (trustedCheckpoints c) (f (fastSyncUntilHeight c)).

(** Runs an operation of the storage. *)
Definition on_disk {A} (m : M Storage A) : M Chain A := λ c,
  let '(r, s) := m (storage c) in (r, on_storage (λ _, s) c).

(** A read of the state. *)
Definition reading {S A} (f : S → A) : M S A := λ s, (Ok (f s), s).

(** [if err := m(); err != nil { return handler(err) }] *)
Definition on_error {S A} (m : M S A) (handler : error → M S A) : M S A := λ s,
  match m s with
  | (Err e, s') => handler e s'
  | r => r
  end.

(** ** Block cache *)

Definition defaultChainCacheCap : Z := 512.
Definition chainCacheCapMinSlack : Z := 64.
Definition chainCacheCapHardMax : Z := 100000.

Definition chainProtectedBack : Z := Z.max MaxReorgDepth (Z.of_nat LWMAWindow + 10).

(** [env] is the value of the environment variable, if it parses as an [int]. *)
Definition chainCacheCapFromEnv (env : option Z) : Z :=
  let cap := match env with
             | Some parsed => if 0 <? parsed then parsed else defaultChainCacheCap
             | None => defaultChainCacheCap
             end in
  let cap := if chainCacheCapHardMax <? cap then chainCacheCapHardMax else cap in
  let minCap := chainProtectedBack + chainCacheCapMinSlack in
  if cap <? minCap then minCap else cap.

Definition remove_hash (hash : bytes) (l : list bytes) : list bytes := filter (λ h, h ≠ hash) l.

Definition move_to_front (hash : bytes) : Chain → Chain :=
  on_cacheLRU (λ l, hash :: remove_hash hash l).

Definition cacheTouch (hash : bytes) (c : Chain) : Chain :=
  if decide (hash ∈ cacheIndex c) then move_to_front hash c
  else on_cacheIndex (λ ix, {[hash]} ∪ ix) (on_cacheLRU (λ l, hash :: l) c).

Definition cacheForget (hash : bytes) (c : Chain) : Chain :=
  let c := if decide (hash ∈ cacheIndex c)
           then on_cacheIndex (λ ix, ix ∖ {[hash]}) (on_cacheLRU (remove_hash hash) c) else c in
  on_workAt (delete hash) (on_blocks (delete hash) c).

Definition cachePinned (c : Chain) (hash : bytes) : bool :=
  match blocks c !! hash with
  | None => false
  | Some b =>
      let h := Height (Header b) in
      match byHeight c !! h with
      | Some mainHash =>
          if decide (mainHash ≠ hash) then false
          else if height c <=? chainProtectedBack then true
          else height c - chainProtectedBack <=? h
      | None => false
      end
  end.

Definition cache_over (c : Chain) : bool :=
  (cacheCap c <? Z.of_nat (size (cacheIndex c))) || (cacheCap c <? Z.of_nat (size (blocks c))).

(** The eviction loop; [None] when the fuel does not suffice. *)
Fixpoint trim_loop (fuel : nat) (c : Chain) : option Chain :=
  match fuel with
  | O => None
  | S fuel =>
      if cache_over c then
        match last (cacheLRU c) with
        | None => Some c
        | Some hash =>
            if cachePinned c hash then trim_loop fuel (move_to_front hash c)
            else trim_loop fuel (cacheForget hash c)
        end
      else Some c
  end.

(** Each removal takes at most one rotation of the list. *)
Definition trim_fuel (c : Chain) : nat := S (S (length (cacheLRU c)) * S (length (cacheLRU c))).

(** An eviction that does not end is not a result: see [cacheTrim_ends]. *)
Definition cacheTrim : M Chain unit := λ c,
  if cacheCap c <=? 0 then (Ok tt, c)
  else match trim_loop (trim_fuel c) c with
       | Some c' => (Ok tt, c')
       | None => (Panic, c)
       end.

Section Chain.
Context `{Crypto} `{Network} `{MathLib} `{JSON}.

(** ** Lookups *)

Definition cacheInsert (hash : bytes) (b : Block) : M Chain unit :=
  modify (on_blocks (<[hash := b]>));;
  modify (cacheTouch hash);;
  cacheTrim.

Definition getBlockByHash (hash : bytes) : M Chain (option Block) :=
  c ← get;
  match blocks c !! hash with
  | Some block => modify (cacheTouch hash);; mret (Some block)
  | None =>
      match fst (GetBlock_db (storage c) hash) with
      | Some block => cacheInsert hash block;; mret (Some block)
      | None => mret None
      end
  end.

(** What a lookup of [hash] finds, without the bookkeeping. *)
Definition peek (c : Chain) (hash : bytes) : option Block :=
  match blocks c !! hash with
  | Some block => Some block
  | None => fst (GetBlock_db (storage c) hash)
  end.

(** Fuel for a walk from [hash] to its ancestors: one step per height. *)
Definition walk_fuel (c : Chain) (hash : bytes) : nat :=
  S (default 0%nat ((λ b, Z.to_nat (Height (Header b))) <$> peek c hash)).

Definition getBlockByHeight (c : Chain) (h : Z) : option Block :=
  let cached := match byHeight c !! h with
                | Some hash => blocks c !! hash
                | None => None
                end in
  match cached with
  | Some block => Some block
  | None =>
      match GetBlockHashByHeight (storage c) h with
      | None => None
      | Some hash => fst (GetBlock_db (storage c) hash)
      end
  end.

(** Main-chain blocks of [count] heights from [startHeight], up to the first
    one missing. *)
Fixpoint blocks_by_height (c : Chain) (startHeight : Z) (count : nat) : list Block :=
  match count with
  | O => []
  | S count =>
      match getBlockByHeight c startHeight with
      | None => []
      | Some b => b :: blocks_by_height c (startHeight + 1) count
      end
  end.

Definition GetBlocksByHeightRange (c : Chain) (startHeight endHeight : Z) : list Block :=
  if endHeight <? startHeight then []
  else blocks_by_height c startHeight (Z.to_nat (endHeight - startHeight + 1)).

(** The exported lookup. *)
Definition GetBlock (hash : bytes) : M Chain (option Block) :=
  c ← get;
  match blocks c !! hash with
  | Some block => modify (cacheTouch hash);; mret (Some block)
  | None =>
      match fst (GetBlock_db (storage c) hash) with
      | Some block => cacheInsert hash block;; mret (Some block)
      | None => mret None
      end
  end.

Definition HasBlock (c : Chain) (hash : bytes) : bool :=
  bool_decide (is_Some (blocks c !! hash)) || HasBlock_db (storage c) hash.

Definition isKeyImageSpentLocked (c : Chain) (keyImage : bytes) : bool :=
  bool_decide (is_Some (keyImages c !! keyImage)) || fst (IsKeyImageSpent_db (storage c) keyImage).

(** ** Cumulative work *)

Fixpoint cumulativeWorkAt_fuel (fuel : nat) (hash : bytes) : M Chain Z :=
  match fuel with
  | O => lift Panic
  | S fuel =>
      c ← get;
      match workAt c !! hash with
      | Some work => mret work
      | None =>
          block ← getBlockByHash hash;
          match block with
          | None => throw (Errorf "block not found for workAt: %x")
          | Some block =>
              parentWork ← (if 0 <? Height (Header block)
                            then cumulativeWorkAt_fuel fuel (PrevHash (Header block))
                            else mret 0);
              work ← lift (addCumulativeWork parentWork (Difficulty (Header block)));
              modify (on_workAt (<[hash := work]>));;
              modify (cacheTouch hash);;
              cacheTrim;;
              mret work
          end
      end
  end.

Definition cumulativeWorkAtLocked (hash : bytes) : M Chain Z :=
  c ← get; cumulativeWorkAt_fuel (walk_fuel c hash) hash.

(** ** Canonical ring members *)

Definition canonicalRingIndexKey (pubKey commitment : bytes) : bytes :=
  take 32 pubKey ++ take 32 commitment.

Definition block_ring_keys (block : Block) : list bytes :=
  concat ((λ tx, (λ out, canonicalRingIndexKey (PublicKey out) (Commitment out)) <$> Outputs tx)
          <$> Transactions block).

(** The loop over [n] heights from [h]; the outcome is the index or an
    error, which the caller turns into "not canonical". *)
Fixpoint build_ring_index (n : nat) (h : Z) (index : gset bytes) : M Chain (gset bytes) :=
  match n with
  | O => mret index
  | S n =>
      c ← get;
      match GetBlockHashByHeight (storage c) h with
      | None => throw (Errorf "canonical ring index missing block hash at height %d")
      | Some hash =>
          block ← getBlockByHash hash;
          match block with
          | None => throw (Errorf "canonical ring index missing block data at height %d")
          | Some block => build_ring_index n (h + 1) (list_to_set (block_ring_keys block) ∪ index)
          end
      end
  end.

Definition ensureCanonicalRingIndex : M Chain unit :=
  c ← get;
  match GetTip (storage c) with
  | None =>
      modify (on_canonicalRingIndex (λ _, ∅));;
      modify (on_canonicalRingIndexTip (λ _, zeros 32));;
      modify (on_canonicalRingIndexReady (λ _, true));;
      modify (on_canonicalRingIndexDirty (λ _, false))
  | Some (tipHash, tipHeight, _) =>
      if negb (canonicalRingIndexDirty c) && canonicalRingIndexReady c &&
         bool_decide (canonicalRingIndexTip c = tipHash)
      then mret tt
      else
        index ← build_ring_index (S (Z.to_nat tipHeight)) 0 ∅;
        modify (on_canonicalRingIndex (λ _, index));;
        modify (on_canonicalRingIndexTip (λ _, tipHash));;
        modify (on_canonicalRingIndexReady (λ _, true));;
        modify (on_canonicalRingIndexDirty (λ _, false))
  end.

Definition isCanonicalRingMemberLocked (pubKey commitment : bytes) : M Chain bool :=
  on_error (
    ensureCanonicalRingIndex;;
    c ← get;
    mret (bool_decide (canonicalRingIndexKey pubKey commitment ∈ canonicalRingIndex c)))
    (λ _, mret false).

(** ** Validation of an incoming block *)

Definition SetTrustedCheckpoints (checkpoints : gmap Z bytes) (maxHeight : Z) (c : Chain) : Chain :=
  if bool_decide (checkpoints = ∅) || (maxHeight =? 0)
  then on_fastSyncUntilHeight (λ _, 0) (on_trustedCheckpoints (λ _, None) c)
  else on_fastSyncUntilHeight (λ _, maxHeight) (on_trustedCheckpoints (λ _, Some checkpoints) c).

Definition shouldSkipPoW (c : Chain) (h : Z) (extendsTip : bool) : bool :=
  if negb extendsTip then false
  else match trustedCheckpoints c with
  | None => false
  | Some _ =>
      if fastSyncUntilHeight c =? 0 then false
      else if fastSyncUntilHeight c <=? height c then false
      else (0 <? h) && (h <=? fastSyncUntilHeight c)
  end.

(** The key images of the off-main part of the branch that ends at
    [currentHash]. *)
Fixpoint branch_spent (fuel : nat) (currentHash : bytes) (branchSpent : gset bytes)
    : M Chain (gset bytes) :=
  match fuel with
  | O => lift Panic
  | S fuel =>
      parent ← getBlockByHash currentHash;
      match parent with
      | None => throw ErrOrphanBlock
      | Some parent =>
          c ← get;
          if decide (byHeight c !! Height (Header parent) = Some currentHash) then mret branchSpent
          else
            let branchSpent := list_to_set (block_key_images parent) ∪ branchSpent in
            if Height (Header parent) =? 0 then mret branchSpent
            else branch_spent fuel (PrevHash (Header parent)) branchSpent
      end
  end.

Definition branchAwareSpentChecker (parentHash : bytes) : M Chain (bytes → M Chain bool) :=
  c ← get;
  branchSpent ← branch_spent (walk_fuel c parentHash) parentHash ∅;
  mret (λ keyImage, if decide (keyImage ∈ branchSpent) then mret true
                    else reading (λ c, isKeyImageSpentLocked c keyImage)).

Definition check_checkpoint (c : Chain) (block : Block) : result unit :=
  match trustedCheckpoints c with
  | Some checkpoints =>
      if (0 <? fastSyncUntilHeight c) && (height c <? fastSyncUntilHeight c) &&
         (Height (Header block) <=? fastSyncUntilHeight c)
      then match checkpoints !! Height (Header block) with
           | Some want => check (bool_decide (BlockHash block ≠ want))
                                (Errorf "checkpoint mismatch at height %d: have %x want %x")
           | None => Ok tt
           end
      else Ok tt
  | None => Ok tt
  end.

(** [now] is the wall clock at the call. *)
Definition validateBlockForProcess (now : Z) (block : Block) : M Chain unit :=
  isSpent ← (if 0 <? Height (Header block)
             then branchAwareSpentChecker (PrevHash (Header block))
             else mret (λ keyImage, reading (λ c, isKeyImageSpentLocked c keyImage)));
  c ← get;
  lift (check_checkpoint c block);;
  let extendsTip := bool_decide (PrevHash (Header block) = bestHash c) in
  let skipPoW := shouldSkipPoW c (Height (Header block)) extendsTip in
  validateBlockWithContext now block (bestHash c) (height c) getBlockByHash isSpent
    (Some isCanonicalRingMemberLocked) skipPoW.

(** ** Genesis *)

Definition push_timestamp (t : Z) (ts : list Z) : list Z :=
  let ts := ts ++ [t] in
  if decide (LWMAWindow + 1 < length ts)%nat then drop 1 ts else ts.

Definition record_key_images (block : Block) (c : Chain) : Chain :=
  on_keyImages (λ m, foldl (λ m ki, <[ki := Height (Header block)]> m) m (block_key_images block)) c.

Definition forget_key_images (block : Block) (c : Chain) : Chain :=
  on_keyImages (λ m, foldl (λ m ki, delete ki m) m (block_key_images block)) c.

Definition addBlockInternal (block : Block) : M Chain unit :=
  let h := Height (Header block) in
  checkM (negb (h =? 0)) (Errorf "refusing unvalidated non-genesis block at height %d; use ProcessBlock");;
  c ← get;
  checkM (bool_decide (is_Some (GetTip (storage c))))
         (Errorf "refusing unvalidated add on non-empty chain; use ProcessBlock");;
  let hash := BlockHash block in
  let parentWork := if 0 <? h then default 0 (workAt c !! PrevHash (Header block)) else 0 in
  blockWork ← lift (wrap "failed to compute cumulative work"
                      (addCumulativeWork parentWork (Difficulty (Header block))));
  newOutputs ← lift (mapM (tx_outputs h) (Transactions block));
  modify (record_key_images block);;
  let commit := MkBlockCommit block h hash blockWork true (concat newOutputs) (block_key_images block) in
  wrapM "failed to persist block" (on_disk (CommitBlock commit));;
  modify (on_blocks (<[hash := block]>));;
  modify (cacheTouch hash);;
  modify (on_workAt (<[hash := blockWork]>));;
  modify (on_byHeight (<[h := hash]>));;
  modify (on_bestHash (λ _, hash));;
  modify (on_height (λ _, h));;
  modify (on_totalWork (λ _, blockWork));;
  modify (on_canonicalRingIndexDirty (λ _, true));;
  cacheTrim;;
  modify (on_timestamps (push_timestamp (Timestamp (Header block)))).

Definition addGenesisBlock (now : Z) (block : Block) : M Chain unit :=
  checkM (negb (Height (Header block) =? 0))
         (Errorf "addGenesisBlock only accepts genesis blocks (height 0), got %d");;
  c ← get;
  checkM (bool_decide (is_Some (GetTip (storage c))))
         (Errorf "genesis already exists; refusing unvalidated write path");;
  wrapM "invalid genesis block" (validateBlockForProcess now block);;
  addBlockInternal block.

(** ** Reorganization *)

Definition incomplete : error := Errorf "incomplete chain: cannot build ancestor path for reorg".
Definition incomplete_at : error :=
  Errorf "incomplete chain: cannot build ancestor path for reorg (missing hash %x)".

(** [getBlockByHash] of a block that must exist. *)
Definition must_get (hash : bytes) : M Chain Block :=
  block ← getBlockByHash hash;
  match block with
  | Some block => mret block
  | None => throw incomplete_at
  end.

(** The loop that lowers [a] to a height of at most [limit]. *)
Fixpoint descend (fuel : nat) (aHash : bytes) (aBlock : Block) (limit : Z) : M Chain (bytes * Block) :=
  match fuel with
  | O => lift Panic
  | S fuel =>
      if limit <? Height (Header aBlock) then
        checkM (Height (Header aBlock) =? 0) incomplete;;
        let aHash := PrevHash (Header aBlock) in
        aBlock ← must_get aHash;
        descend fuel aHash aBlock limit
      else mret (aHash, aBlock)
  end.

(** The loop that lowers both until the hashes agree. *)
Fixpoint descend_both (fuel : nat) (aHash bHash : bytes) (aBlock bBlock : Block) : M Chain (bytes * Block) :=
  match fuel with
  | O => lift Panic
  | S fuel =>
      if decide (aHash = bHash) then mret (aHash, aBlock)
      else
        checkM ((Height (Header aBlock) =? 0) || (Height (Header bBlock) =? 0)) incomplete;;
        let aHash := PrevHash (Header aBlock) in
        let bHash := PrevHash (Header bBlock) in
        aBlock ← getBlockByHash aHash;
        bBlock ← getBlockByHash bHash;
        match aBlock, bBlock with
        | Some aBlock, Some bBlock => descend_both fuel aHash bHash aBlock bBlock
        | _, _ => throw incomplete_at
        end
  end.

Definition findCommonAncestor (aTip bTip : bytes) : M Chain (bytes * Z) :=
  aBlock ← must_get aTip;
  bBlock ← must_get bTip;
  let fuel := S (Z.to_nat (Height (Header aBlock)) + Z.to_nat (Height (Header bBlock))) in
  '(aHash, aBlock) ← descend fuel aTip aBlock (Height (Header bBlock));
  '(bHash, bBlock) ← descend fuel bTip bBlock (Height (Header aBlock));
  '(hash, block) ← descend_both fuel aHash bHash aBlock bBlock;
  mret (hash, Height (Header block)).

Definition enforceReorgFinality (newTip : bytes) : M Chain unit :=
  c ← get;
  if height c <? MaxReorgDepth then mret tt
  else
    tip ← getBlockByHash newTip;
    checkM (bool_decide (tip = None)) (Errorf "unknown reorg tip");;
    c ← get;
    '(_, commonHeight) ← findCommonAncestor (bestHash c) newTip;
    c ← get;
    let finalizedBoundary := height c - MaxReorgDepth in
    checkM (commonHeight <? finalizedBoundary)
      (Errorf "reorg crosses finalized boundary: fork at height %d, finalized boundary %d").

(** The blocks from [current] down to, and without, [commonHash]. *)
Fixpoint connect_path_rev (fuel : nat) (commonHash current : bytes) : M Chain (list Block) :=
  match fuel with
  | O => lift Panic
  | S fuel =>
      if decide (current = commonHash) then mret []
      else
        block ← must_get current;
        checkM (Height (Header block) =? 0) incomplete;;
        rest ← connect_path_rev fuel commonHash (PrevHash (Header block));
        mret (block :: rest)
  end.

Definition collectConnectPath (commonHash newTip : bytes) : M Chain (list Block) :=
  c ← get;
  connectRev ← connect_path_rev (walk_fuel c newTip) commonHash newTip;
  mret (reverse connectRev).

(** The main-chain blocks at the heights [h], [h-1], ..., [n] of them. *)
Fixpoint collect_disconnect (c : Chain) (n : nat) (h : Z) : result (list Block) :=
  match n with
  | O => Ok []
  | S n =>
      match getBlockByHeight c h with
      | None => Err incomplete
      | Some block => rest ← collect_disconnect c n (h - 1); Ok (block :: rest)
      end
  end.

(** The tip block, from the cache or from disk. *)
Definition reorg_tip (newTip : bytes) : M Chain Block :=
  c ← get;
  match blocks c !! newTip with
  | Some block => mret block
  | None =>
      match fst (GetBlock_db (storage c) newTip) with
      | Some loaded => cacheInsert newTip loaded;; mret loaded
      | None => throw (Errorf "reorganizeTo: new tip block not found")
      end
  end.

Definition set_tip (newTip : bytes) (newHeight newTipWork : Z) (c : Chain) : Chain :=
  on_totalWork (λ _, newTipWork) (on_height (λ _, newHeight) (on_bestHash (λ _, newTip) c)).

(** Fast path: the parent of the new block is the tip. *)
Definition extend_tip (newTip : bytes) (newBlock : Block) : M Chain unit :=
  newTipWork ← wrapM "failed to compute new tip work" (cumulativeWorkAtLocked newTip);
  let h := Height (Header newBlock) in
  wrapM "failed to persist chain extension"
    (on_disk (CommitReorg (MkReorgCommit [] [newBlock] newTip h newTipWork)));;
  modify (set_tip newTip h newTipWork);;
  modify (on_byHeight (<[h := newTip]>));;
  modify (cacheTouch newTip);;
  modify (on_timestamps (push_timestamp (Timestamp (Header newBlock))));;
  modify (record_key_images newBlock);;
  modify (on_canonicalRingIndexDirty (λ _, true));;
  cacheTrim.

Definition unlink_block (c : Chain) (block : Block) : Chain :=
  forget_key_images block (on_byHeight (delete (Height (Header block))) c).

Definition link_block (c : Chain) (block : Block) : Chain :=
  let hash := BlockHash block in
  record_key_images block
    (on_timestamps (push_timestamp (Timestamp (Header block)))
       (on_byHeight (<[Height (Header block) := hash]>) (cacheTouch hash c))).

(** Commits a reorganization, on disk and then in memory. *)
Definition apply_reorg (newTip : bytes) (h newTipWork : Z) (disconnect connect : list Block) : M Chain unit :=
  wrapM "failed to persist reorg"
    (on_disk (CommitReorg (MkReorgCommit disconnect connect newTip h newTipWork)));;
  modify (λ c, foldl unlink_block c disconnect);;
  modify (λ c, foldl link_block c connect);;
  modify (set_tip newTip h newTipWork);;
  modify (on_canonicalRingIndexDirty (λ _, true));;
  modify (cacheTouch newTip);;
  cacheTrim.

(** The reorganization once the fork point is known. *)
Definition switch_at (newTip : bytes) (newBlock : Block) (commonHash : bytes) (commonHeight : Z) : M Chain unit :=
  c ← get;
  disconnect ← lift (collect_disconnect c (Z.to_nat (height c - commonHeight)) (height c));
  connect ← collectConnectPath commonHash newTip;
  newTipWork ← wrapM "failed to compute reorg tip work" (cumulativeWorkAtLocked newTip);
  apply_reorg newTip (Height (Header newBlock)) newTipWork disconnect connect.

(** Slow path: a reorganization. *)
Definition switch_branch (newTip : bytes) (newBlock : Block) : M Chain unit :=
  enforceReorgFinality newTip;;
  c ← get;
  '(commonHash, commonHeight) ← findCommonAncestor (bestHash c) newTip;
  switch_at newTip newBlock commonHash commonHeight.

Definition reorganizeTo (newTip : bytes) : M Chain unit :=
  newBlock ← reorg_tip newTip;
  c ← get;
  if decide (PrevHash (Header newBlock) = bestHash c) then extend_tip newTip newBlock
  else switch_branch newTip newBlock.

(** ** Fork choice *)

(** Keeps a validated block in memory. *)
Definition cache_block (hash : bytes) (block : Block) (blockWork : Z) : M Chain unit :=
  modify (on_blocks (<[hash := block]>));;
  modify (cacheTouch hash);;
  modify (on_workAt (<[hash := blockWork]>));;
  cacheTrim.

(** Does a validated block create a heavier chain? *)
Definition adopt (hash : bytes) (block : Block) (blockWork : Z) : M Chain (bool * bool) :=
  c ← get;
  if totalWork c <? blockWork then
    on_error (reorganizeTo hash)
      (λ e, modify (cacheForget hash);; throw (Wrapf "reorg failed" e));;
    mret (true, true)
  else
    wrapM "failed to save fork block" (on_disk (SaveBlock block));;
    mret (true, false).

(** [(accepted, isMainChain)] *)
Definition ProcessBlock (now : Z) (block : Block) : M Chain (bool * bool) :=
  let hash := BlockHash block in
  c ← get;
  if bool_decide (is_Some (blocks c !! hash)) then mret (false, false)
  else if HasBlock_db (storage c) hash then mret (false, false)
  else
    validateBlockForProcess now block;;
    parentWork ← (if 0 <? Height (Header block)
                  then wrapM "failed to compute parent work"
                         (cumulativeWorkAtLocked (PrevHash (Header block)))
                  else mret 0);
    blockWork ← lift (wrap "failed to compute cumulative work"
                        (addCumulativeWork parentWork (Difficulty (Header block))));
    cache_block hash block blockWork;;
    adopt hash block blockWork.

End Chain.
