(* ===== verification/ChainOps.v ===== *)
(** * Start-up, truncation, audits and templates of the chain ([block.go])

    The operations of the chain beside block processing: loading the state
    from disk, removing the top of the main chain, the arithmetic audit of
    the stored chain, the parameters of a block template, the choice of ring
    members. *)

From S2P Require Import Prelude Bytes Crypto Pow Transaction Block ExchangeSort Consensus Memo Emission Validation Storage Chain.

(** ** Loading *)

Definition preloadBack : Z := Z.max (Z.of_nat LWMAWindow + 10) MaxReorgDepth.

(** [c.keyImages[input.KeyImage] = h] for the non-coinbase transactions. *)
Definition record_key_images_at (h : Z) (block : Block) (c : Chain) : Chain :=
  on_keyImages (λ m, foldl (λ m ki, <[ki := h]> m) m (block_key_images block)) c.

(** The state before loading; [cacheCap] is the capacity from the
    environment. *)
Definition new_chain (s : Storage) (cap : Z) : Chain :=
  MkChain s ∅ ∅ cap [] ∅ ∅ [] (zeros 32) 0 0 ∅ ∅ true (zeros 32) false None 0.

Section ChainOps.
Context `{Crypto} `{Network} `{MathLib} `{JSON}.

(** The body of the loop over the heights. *)
Definition load_block (h : Z) : M Chain unit :=
  c ← get;
  match GetBlockHashByHeight (storage c) h with
  | None => throw (Errorf "block at height %d not found")
  | Some hash =>
      match GetBlock_db (storage c) hash with
      | (_, Some err) => throw (Wrapf "failed to load block %d" err)
      | (None, None) => throw (Errorf "block %x not found")
      | (Some block, None) =>
          modify (on_blocks (<[hash := block]>));;
          modify (cacheTouch hash);;
          modify (on_byHeight (<[h := hash]>));;
          let parentWork := if 0 <? h then default 0 (workAt c !! PrevHash (Header block)) else 0 in
          blockWork ← lift (wrap "failed to compute cumulative work at height %d"
                              (addCumulativeWork parentWork (Difficulty (Header block))));
          modify (on_workAt (<[hash := blockWork]>));;
          modify (on_timestamps (push_timestamp (Timestamp (Header block))));;
          modify (record_key_images_at h block)
      end
  end.

(** Adds [offset] to every work entry: an error if one overflows. *)
Definition offset_work (offset : Z) : M Chain unit :=
  c ← get;
  let adjusted := (λ w, addCumulativeWork w offset) <$> workAt c in
  checkM (bool_decide (map_Exists (λ _ r, is_Ok r = false) adjusted))
         (Errorf "failed to offset cumulative work for loaded chain state: %w");;
  modify (on_workAt (λ _, omap (λ r, match r with Ok w => Some w | _ => None end) adjusted)).

(** The heights are the [uint64]s from the start height to the tip's, which
    is below the largest one. *)
Definition loadFromStorage : M Chain unit :=
  c ← get;
  match GetTip (storage c) with
  | None => mret tt
  | Some (tipHash, tipHeight, tipWork) =>
      modify (set_tip tipHash tipHeight tipWork);;
      let startHeight := if preloadBack <? tipHeight then tipHeight - preloadBack else 0 in
      for_each load_block (seqZ startHeight (tipHeight - startHeight + 1));;
      cacheTrim;;
      c ← get;
      let computedTipWork := default 0 (workAt c !! bestHash c) in
      checkM (totalWork c <? computedTipWork)
        (Errorf "invalid stored cumulative work: stored tip work %d below computed tip work %d");;
      let offset := totalWork c - computedTipWork in
      (if 0 <? offset then offset_work offset else mret tt);;
      modify (on_canonicalRingIndexDirty (λ _, true))
  end.

(** On an opened storage; [env] is the capacity variable of the environment. *)
Definition NewChain (s : Storage) (env : option Z) : result Chain :=
  match loadFromStorage (new_chain s (chainCacheCapFromEnv env)) with
  | (Ok _, c) => Ok c
  | (Err e, _) => Err (Wrapf "failed to load chain state" e)
  | (Panic, _) => Panic
  end.

Definition HasGenesis (c : Chain) : bool := bool_decide (is_Some (GetTip (storage c))).

(** ** Truncation *)

(** The body of the loop for the block at height [h]. *)
Definition truncate_block (h : Z) : M Chain unit :=
  c ← get;
  match getBlockByHeight c h with
  | None =>
      wrapM "failed to remove main-chain index at height %d" (on_disk (RemoveMainChainBlock h));;
      modify (on_byHeight (delete h))
  | Some block =>
      for_each (λ ki,
        modify (on_keyImages (delete ki));;
        wrapM "failed to unmark key image at height %d" (on_disk (UnmarkKeyImageSpent ki)))
        (block_key_images block);;
      wrapM "failed to remove main-chain block at height %d" (on_disk (RemoveMainChainBlock h));;
      modify (on_byHeight (delete h));;
      modify (cacheForget (BlockHash block))
  end.

(** The timestamps of the main-chain blocks at [n] heights from [h] on. *)
Fixpoint window_timestamps (c : Chain) (h : Z) (n : nat) : list Z :=
  match n with
  | O => []
  | S n => match getBlockByHeight c h with
           | Some b => Timestamp (Header b) :: window_timestamps c (h + 1) n
           | None => window_timestamps c (h + 1) n
           end
  end.

(** From the loop on: the new tip in memory, then on disk. *)
Definition settle_tip (keepHeight : Z) : M Chain unit :=
  c ← get;
  match getBlockByHeight c keepHeight with
  | None => throw (Errorf "block at height %d not found after truncation")
  | Some newTip =>
      let newHash := BlockHash newTip in
      newWork ← wrapM "failed to compute cumulative work for new tip" (cumulativeWorkAtLocked newHash);
      modify (set_tip newHash keepHeight newWork);;
      modify (on_canonicalRingIndexDirty (λ _, true));;
      modify (cacheTouch newHash);;
      cacheTrim;;
      c ← get;
      let start := if Z.of_nat LWMAWindow <? keepHeight then keepHeight - Z.of_nat LWMAWindow else 0 in
      modify (on_timestamps (λ _, window_timestamps c start (Z.to_nat (keepHeight - start + 1))));;
      wrapM "failed to persist new tip" (on_disk (SetTip newHash keepHeight newWork))
  end.

Definition TruncateToHeight (keepHeight : Z) : M Chain unit :=
  c ← get;
  if height c <=? keepHeight then mret tt
  else
    for_each truncate_block (reverse (seqZ (keepHeight + 1) (height c - keepHeight)));;
    settle_tip keepHeight.

(** ** Templates *)

Definition medianTimestampLocked (c : Chain) (n : nat) : result Z :=
  if decide (timestamps c = []) then Ok 0
  else
    let count := if decide (length (timestamps c) < n)%nat then length (timestamps c) else n in
    let recent := drop (length (timestamps c) - count) (timestamps c) in
    match median_of recent with
    | Some m => Ok m
    | None => Panic
    end.

Definition MedianTimestamp := medianTimestampLocked.

(** [c.blocks[c.byHeight[height]]]: a height without an entry reads the zero
    hash; using the missing block panics. *)
Definition resident (c : Chain) (h : Z) : option Block :=
  blocks c !! default (zeros 32) (byHeight c !! h).

Definition nextDifficultyLocked (c : Chain) : result Z :=
  if height c <? Z.of_nat LWMAWindow then Ok MinDifficulty
  else
    match lwma (λ i, resident c (height c - Z.of_nat LWMAWindow + i)) with
    | Some d => Ok d
    | None => Panic
    end.

Definition NextDifficulty := nextDifficultyLocked.

Record BlockTemplateParams : Type := MkBlockTemplateParams {
  TPHeight : Z;
  TPPrevHash : bytes;
  TPDifficulty : Z;
}.

Definition TemplateParams (c : Chain) : result BlockTemplateParams :=
  difficulty ← nextDifficultyLocked c;
  Ok (MkBlockTemplateParams (u64 (height c + 1)) (bestHash c) difficulty).

Definition IsFinalized (c : Chain) (h : Z) : bool :=
  if height c <? h then false else MaxReorgDepth <=? height c - h.

(** ** Audits *)

Inductive violation_message : Type :=
  | BlockMissing
  | CheckpointMissing
  | InsufficientLWMA
  | InsufficientMedian
  | PrevHashMismatch (points_to actual : bytes)
  | DifficultyMismatch (have expected : Z)
  | TimestampNotAfterMedian (timestamp median : Z)
  | BlockTime (blockTime prev this : Z).

Record ChainViolation : Type := MkChainViolation {
  VHeight : Z;
  VMessage : violation_message;
}.

#[global] Instance violation_message_eq_dec : EqDecision violation_message.
Proof. solve_decision. Defined.
#[global] Instance ChainViolation_eq_dec : EqDecision ChainViolation.
Proof. solve_decision. Defined.

(** The main-chain blocks at [n] heights from [h] on, or the first height
    that has none. *)
Fixpoint load_range (c : Chain) (h : Z) (n : nat) : Z + list Block :=
  match n with
  | O => inr []
  | S n =>
      match getBlockByHeight c h with
      | None => inl h
      | Some b => match load_range c (h + 1) n with
                  | inl h' => inl h'
                  | inr bs => inr (b :: bs)
                  end
      end
  end.

Definition flag (cond : bool) (h : Z) (msg : violation_message) : list ChainViolation :=
  if cond then [MkChainViolation h msg] else [].

(** The checks of one block. *)
Definition audit_block (h : Z) (block prev : Block) (expectedDiff median : Z) : list ChainViolation :=
  let t := Timestamp (Header block) in
  let tp := Timestamp (Header prev) in
  flag (bytes_neqb (PrevHash (Header block)) (BlockHash prev)) h
    (PrevHashMismatch (PrevHash (Header block)) (BlockHash prev)) ++
  flag (negb (Difficulty (Header block) =? expectedDiff)) h
    (DifficultyMismatch (Difficulty (Header block)) expectedDiff) ++
  flag (t <=? median) h (TimestampNotAfterMedian t median) ++
  flag (i64 (t - tp) <? 1) h (BlockTime (i64 (t - tp)) tp t).

(** [medianCount]; a negative [int] cannot be a slice length. *)
Definition median_count (h : Z) : option nat :=
  let count := if i64 h <? 11 then i64 h else 11 in
  if count <? 0 then None else Some (Z.to_nat count).

(** The timestamps of the [n] blocks before height [h]. *)
Definition timestamps_before (at_ : Z → option Block) (h : Z) (n : nat) : option (list Z) :=
  mapM (λ i, (λ b, Timestamp (Header b)) <$> at_ (h - Z.of_nat n + i)) (seqZ 0 (Z.of_nat n)).

(** An index out of range panics. *)
Definition audit_at (blocks : list Block) (h : Z) : result (list ChainViolation) :=
  match nthZ blocks h, nthZ blocks (h - 1) with
  | Some block, Some prev =>
      expectedDiff ← (if h - 1 <? Z.of_nat LWMAWindow then Ok MinDifficulty else computeLWMA blocks (h - 1));
      match n ← median_count h; timestamps_before (nthZ blocks) h n with
      | None => Panic
      | Some ts =>
          match median_of ts with
          | None => Panic
          | Some median => Ok (audit_block h block prev expectedDiff median)
          end
      end
  | _, _ => Panic
  end.

Definition VerifyChain (c : Chain) : result (list ChainViolation) :=
  if height c =? 0 then Ok []
  else
    match load_range c 0 (S (Z.to_nat (height c))) with
    | inl h => Ok [MkChainViolation h BlockMissing]
    | inr blocks => violations ← mapM (audit_at blocks) (seqZ 1 (height c)); Ok (concat violations)
    end.

(** The highest checkpoint that matches the stored chain, scanning the
    heights from the last; 0 is none. *)
Fixpoint find_checkpoint (c : Chain) (checkpoints : gmap Z bytes) (heights : list Z) : ChainViolation + Z :=
  match heights with
  | [] => inr 0
  | h :: heights =>
      if (h =? 0) || (height c <? h) then find_checkpoint c checkpoints heights
      else match checkpoints !! h with
      | None => find_checkpoint c checkpoints heights
      | Some want =>
          match getBlockByHeight c h with
          | None => inl (MkChainViolation h CheckpointMissing)
          | Some b => if decide (BlockHash b = want) then inr h else find_checkpoint c checkpoints heights
          end
      end
  end.

(** [get]: the loaded block at a height, or nil. *)
Definition loaded (blocks : list Block) (startLoad h : Z) : option Block := nthZ blocks (h - startLoad).

(** The body of the loop over the tail; a violation that ends the audit is
    the left injection. *)
Definition audit_tail_at (blocks : list Block) (startLoad h : Z) : result (ChainViolation + list ChainViolation) :=
  let at_ := loaded blocks startLoad in
  match at_ h, at_ (h - 1) with
  | Some block, Some prev =>
      match (if h - 1 <? Z.of_nat LWMAWindow then Some MinDifficulty
             else lwma (λ i, at_ (h - 1 - Z.of_nat LWMAWindow + i))) with
      | None => Ok (inl (MkChainViolation h InsufficientLWMA))
      | Some expectedDiff =>
          match median_count h with
          | None => Panic
          | Some n =>
              match timestamps_before at_ h n with
              | None => Ok (inl (MkChainViolation h InsufficientMedian))
              | Some ts =>
                  match median_of ts with
                  | None => Panic
                  | Some median => Ok (inr (audit_block h block prev expectedDiff median))
                  end
              end
          end
      end
  | _, _ => Ok (inl (MkChainViolation h BlockMissing))
  end.

Fixpoint audit_tail (blocks : list Block) (startLoad : Z) (heights : list Z) (violations : list ChainViolation)
    : result (list ChainViolation) :=
  match heights with
  | [] => Ok violations
  | h :: heights =>
      r ← audit_tail_at blocks startLoad h;
      match r with
      | inl v => Ok [v]
      | inr vs => audit_tail blocks startLoad heights (violations ++ vs)
      end
  end.

(** The violations and the height of the checkpoint used. *)
Definition VerifyChainWithCheckpoints (c : Chain) (checkpoints : gmap Z bytes) (checkpointHeights : list Z)
    : result (list ChainViolation * Z) :=
  if (height c =? 0) || bool_decide (checkpoints = ∅) then Ok ([], 0)
  else
    match find_checkpoint c checkpoints (reverse checkpointHeights) with
    | inl v => Ok ([v], 0)
    | inr used =>
        if used =? 0 then Ok ([], 0)
        else
          let startVerify := used + 1 in
          if height c <? startVerify then Ok ([], used)
          else
            let needBack := if 11 <? Z.of_nat LWMAWindow + 1 then Z.of_nat LWMAWindow + 1 else 11 in
            let startLoad := if needBack <? startVerify then startVerify - needBack else 0 in
            match load_range c startLoad (Z.to_nat (height c - startLoad + 1)) with
            | inl h => Ok ([MkChainViolation h BlockMissing], used)
            | inr blocks =>
                violations ← audit_tail blocks startLoad (seqZ startVerify (height c - used)) [];
                Ok (violations, used)
            end
    end.

(** ** Search *)

(** The lower-case digit of a value below 16. *)
Definition hex_digit (n : Z) : Ascii.ascii :=
  default Ascii.zero (String.get (Z.to_nat n) "0123456789abcdef").

(** [fmt.Sprintf("%x", b)] *)
Fixpoint Sprintf_x (b : bytes) : string :=
  match b with
  | [] => ""
  | x :: b => String (hex_digit (Z_of_byte x `div` 16)) (String (hex_digit (Z_of_byte x `mod` 16)) (Sprintf_x b))
  end.

(** [txID, _ := tx.TxID()]: it has no error result. *)
Fixpoint find_tx (hashStr : string) (txs : list Transaction) : result (option Transaction) :=
  match txs with
  | [] => Ok None
  | tx :: txs =>
      id ← TxID tx;
      if decide (Sprintf_x id = hashStr) then Ok (Some tx) else find_tx hashStr txs
  end.

Fixpoint find_tx_from (c : Chain) (hashStr : string) (h : nat) : result (option (Transaction * Z)) :=
  found ← match getBlockByHeight c (Z.of_nat h) with
          | None => Ok None
          | Some block => find_tx hashStr (Transactions block)
          end;
  match found, h with
  | Some tx, _ => Ok (Some (tx, Z.of_nat h))
  | None, O => Ok None
  | None, S h => find_tx_from c hashStr h
  end.

Definition FindTxByHashStr (c : Chain) (hashStr : string) : result (option (Transaction * Z)) :=
  find_tx_from c hashStr (Z.to_nat (height c)).

(** ** Validation of a template and of a relayed block *)

Definition validateTimestamp (now : Z) (header : BlockHeader) (c : Chain) : result unit :=
  medianTime ← MedianTimestamp c 11;
  validateTimestampWithMedian now header medianTime.

Definition ValidateBlock (now : Z) (block : Block) : M Chain unit :=
  let header := Header block in
  checkM (HVersion header =? 0) (Errorf "invalid block version");;
  c ← get;
  let expectedHeight := u64 (height c + 1) in
  (if negb (Height header =? expectedHeight) then
     checkM (Height header <=? height c) (Wrapf "%w: expected height %d, got %d" ErrStaleBlock);;
     throw (Errorf "invalid height: expected %d, got %d")
   else mret tt);;
  checkM (bytes_neqb (PrevHash header) (bestHash c)) (Wrapf "%w: does not build on current tip" ErrStaleBlock);;
  lift (wrap "invalid timestamp" (validateTimestamp now header c));;
  expectedDiff ← lift (NextDifficulty c);
  checkM (negb (Difficulty header =? expectedDiff)) (Errorf "invalid difficulty: expected %d, got %d");;
  checkM (negb (validatePoW header)) (Errorf "invalid proof of work");;
  checkM (MaxBlockSize <? BlockSize block) (Errorf "block too large: %d > %d");;
  coinbase ← lift (validate_coinbase_position (Transactions block));
  lift (validate_merkle_root block);;
  for_each (λ tx, wrapM "invalid transaction %d"
    (ValidateTransaction (λ ki, reading (λ c, isKeyImageSpentLocked c ki))
       (Some isCanonicalRingMemberLocked) tx)) (Transactions block);;
  lift (wrap "invalid coinbase consensus commitment"
          (validateCoinbaseConsensus coinbase (Height header))).

Definition ValidateBlockP2P (now : Z) (block : Block) : M Chain unit :=
  c ← get;
  let extendsTip := bool_decide (PrevHash (Header block) = bestHash c) in
  let skipPoW := shouldSkipPoW c (Height (Header block)) extendsTip in
  validateBlockWithContext now block (bestHash c) (height c) GetBlock
    (λ ki, reading (λ c, isKeyImageSpentLocked c ki)) (Some isCanonicalRingMemberLocked) skipPoW.

End ChainOps.
