(* ===== verification/Cache.v ===== *)
(** * The block cache of the chain

    Touching, forgetting and trimming change the cache only; trimming ends
    and keeps the pinned blocks, because fewer blocks are pinned than the
    cache can hold. *)

From S2P Require Import Prelude Bytes Crypto Transaction Block Storage Chain.

(** ** Well-formed caches *)

(** The list has no repetition, the index its elements, and every cached
    block is in it. *)
Record lru_ok (c : Chain) : Prop := {
  lru_nodup : NoDup (cacheLRU c);
  lru_index : cacheIndex c = list_to_set (cacheLRU c);
  lru_blocks : ∀ hash, is_Some (blocks c !! hash) → hash ∈ cacheLRU c;
}.

(** [c'] is [c] with some blocks and work entries evicted. *)
Record evicts (c c' : Chain) : Prop := {
  ev_storage : storage c' = storage c;
  ev_cap : cacheCap c' = cacheCap c;
  ev_byHeight : byHeight c' = byHeight c;
  ev_timestamps : timestamps c' = timestamps c;
  ev_best : bestHash c' = bestHash c;
  ev_height : height c' = height c;
  ev_work : totalWork c' = totalWork c;
  ev_keyImages : keyImages c' = keyImages c;
  ev_ring : canonicalRingIndex c' = canonicalRingIndex c;
  ev_dirty : canonicalRingIndexDirty c' = canonicalRingIndexDirty c;
  ev_ringTip : canonicalRingIndexTip c' = canonicalRingIndexTip c;
  ev_ready : canonicalRingIndexReady c' = canonicalRingIndexReady c;
  ev_checkpoints : trustedCheckpoints c' = trustedCheckpoints c;
  ev_fastSync : fastSyncUntilHeight c' = fastSyncUntilHeight c;
  ev_blocks : blocks c' ⊆ blocks c;
  ev_workAt : workAt c' ⊆ workAt c;
}.

#[global] Instance evicts_preorder : PreOrder evicts.
Proof.
  split.
  - intros c. by split.
  - intros c1 c2 c3 [] []. split; etrans; eassumption.
Qed.

Lemma remove_hash_last hash l : NoDup (l ++ [hash]) → remove_hash hash (l ++ [hash]) = l.
Proof.
  intros (_ & Hn & _)%NoDup_app. unfold remove_hash. rewrite filter_app.
  rewrite filter_id by (apply Forall_forall; intros x Hx ->; by apply (Hn hash Hx), list_elem_of_singleton).
  rewrite filter_cons_False by auto. apply app_nil_r.
Qed.

Lemma elem_of_remove_hash x hash l : x ∈ remove_hash hash l ↔ x ≠ hash ∧ x ∈ l.
Proof. unfold remove_hash. by rewrite list_elem_of_filter. Qed.

Lemma NoDup_remove_hash hash l : NoDup l → NoDup (remove_hash hash l).
Proof. apply NoDup_filter. Qed.

(** ** Touching and forgetting *)

Lemma cacheTouch_evicts hash c : evicts c (cacheTouch hash c).
Proof. unfold cacheTouch. by case_decide. Qed.

Lemma cacheTouch_blocks hash c : blocks (cacheTouch hash c) = blocks c.
Proof. unfold cacheTouch. by case_decide. Qed.

Lemma cacheTouch_workAt hash c : workAt (cacheTouch hash c) = workAt c.
Proof. unfold cacheTouch. by case_decide. Qed.

(** Touching restores the cover of a block put into the cache. *)
Lemma cacheTouch_ok hash c :
  NoDup (cacheLRU c) → cacheIndex c = list_to_set (cacheLRU c) →
  (∀ h, is_Some (blocks c !! h) → h = hash ∨ h ∈ cacheLRU c) → lru_ok (cacheTouch hash c).
Proof.
  intros Hd Hx Hb. unfold cacheTouch. case_decide as Hin.
  - rewrite Hx, elem_of_list_to_set in Hin. split; cbn.
    + constructor; [by rewrite elem_of_remove_hash; intros [? _]|by apply NoDup_remove_hash].
    + rewrite Hx. apply set_eq. intros x.
      rewrite elem_of_union, elem_of_singleton, !elem_of_list_to_set, elem_of_remove_hash.
      destruct (decide (x = hash)); naive_solver.
    + intros h Hh. rewrite elem_of_cons, elem_of_remove_hash.
      destruct (decide (h = hash)); [by left|right]. destruct (Hb h Hh); [done|auto].
  - rewrite Hx, elem_of_list_to_set in Hin. split; cbn.
    + by constructor.
    + by rewrite Hx.
    + intros h Hh. rewrite elem_of_cons. auto.
Qed.

Lemma cacheTouch_lru hash c : lru_ok c → lru_ok (cacheTouch hash c).
Proof. intros [? ? Hb]. apply cacheTouch_ok; auto. Qed.

Lemma cacheForget_evicts hash c : evicts c (cacheForget hash c).
Proof.
  unfold cacheForget. case_decide; split; try done; cbn; apply delete_subseteq.
Qed.

Lemma cacheForget_blocks hash c : blocks (cacheForget hash c) = delete hash (blocks c).
Proof. unfold cacheForget. by case_decide. Qed.

Lemma cacheForget_lru hash c : lru_ok c → lru_ok (cacheForget hash c).
Proof.
  intros [Hd Hx Hb]. unfold cacheForget. case_decide as Hin; split; cbn; try done.
  - by apply NoDup_remove_hash.
  - rewrite Hx. apply set_eq. intros x.
    rewrite elem_of_difference, !elem_of_list_to_set, elem_of_remove_hash, elem_of_singleton. tauto.
  - intros h [b Hh]. apply lookup_delete_Some in Hh as [? Hh]. apply elem_of_remove_hash.
    split; [auto|]. apply Hb. eauto.
  - intros h [b Hh]. apply lookup_delete_Some in Hh as [? Hh]. apply Hb. eauto.
Qed.

Lemma move_to_front_lru hash c : lru_ok c → hash ∈ cacheLRU c → lru_ok (move_to_front hash c).
Proof.
  intros Hok Hin. pose proof (cacheTouch_lru hash c Hok) as Ht. unfold cacheTouch in Ht.
  rewrite decide_True in Ht; [done|]. by rewrite (lru_index _ Hok), elem_of_list_to_set.
Qed.

(** ** Trimming *)

Definition pinned_in (c : Chain) (l : list bytes) : list bytes := filter (λ h, cachePinned c h = true) l.

(** The pinned blocks fit the cache. *)
Definition pins_fit (c : Chain) : Prop :=
  Z.of_nat (length (pinned_in c (cacheLRU c))) <= cacheCap c.

Lemma cachePinned_forget c hash x :
  x ≠ hash → cachePinned (cacheForget hash c) x = cachePinned c x.
Proof.
  intros Hne. unfold cachePinned. rewrite cacheForget_blocks, lookup_delete_ne by done.
  unfold cacheForget. by case_decide.
Qed.

Lemma cachePinned_evict_le c hash x :
  cachePinned (cacheForget hash c) x = true → cachePinned c x = true.
Proof.
  destruct (decide (x = hash)) as [->|]; [|by rewrite cachePinned_forget].
  unfold cachePinned. by rewrite cacheForget_blocks, lookup_delete_eq.
Qed.

Lemma cache_over_size c : lru_ok c → cache_over c = true → cacheCap c < Z.of_nat (length (cacheLRU c)).
Proof.
  intros [Hd Hx Hb]. unfold cache_over. rewrite orb_true_iff, !Z.ltb_lt.
  rewrite Hx, size_list_to_set by done. intros [?|Hs]; [done|].
  assert (size (dom (blocks c)) <= size (list_to_set (C := gset bytes) (cacheLRU c)))%nat as Hle.
  { apply subseteq_size. intros h Hh. apply elem_of_list_to_set, Hb. by apply elem_of_dom. }
  rewrite size_dom, size_list_to_set in Hle by done. lia.
Qed.

(** A list of which not every element is pinned splits at the last one that
    is not. *)
Lemma split_unpinned c l :
  (length (pinned_in c l) < length l)%nat →
  ∃ l1 x l2, l = l1 ++ x :: l2 ∧ cachePinned c x = false ∧ Forall (λ h, cachePinned c h = true) l2.
Proof.
  induction l as [|y l IH] using rev_ind; intros Hl; [simpl in Hl; lia|].
  unfold pinned_in in *. rewrite filter_app, !length_app in Hl.
  destruct (cachePinned c y) eqn:Ey.
  - rewrite filter_cons_True in Hl by done. simpl in Hl.
    destruct IH as (l1 & x & l2 & -> & Hx & H2); [lia|].
    exists l1, x, (l2 ++ [y]). split_and!; [by rewrite <- app_assoc|done|].
    apply Forall_app. by split; [|constructor].
  - exists l, y, []. done.
Qed.

(** The rotation of the pinned tail, and the eviction that follows. *)
Lemma trim_rotation l2 c l1 x f :
  lru_ok c → cacheLRU c = l1 ++ x :: l2 → cachePinned c x = false →
  Forall (λ h, cachePinned c h = true) l2 → cache_over c = true →
  trim_loop (length l2 + S f) c =
  trim_loop f (cacheForget x (on_cacheLRU (λ _, l2 ++ l1 ++ [x]) c)).
Proof.
  revert c l1. induction l2 as [|y l2 IH] using rev_ind; intros c l1 Hok El Hx Hp Ho.
  - cbn [length Nat.add trim_loop app]. rewrite Ho, El, last_snoc, Hx. f_equal. f_equal.
    destruct c; simpl in *. by subst.
  - rewrite length_app. cbn [length]. replace (length l2 + 1 + S f)%nat with (S (length l2 + S f)) by lia.
    apply Forall_app in Hp as [Hp Hy]. inversion Hy as [|?? Hy' _]; subst.
    assert (cacheLRU c = (l1 ++ x :: l2) ++ [y]) as El' by by rewrite El, <- app_assoc.
    cbn [trim_loop]. rewrite Ho, El', last_snoc, Hy'.
    assert (NoDup ((l1 ++ x :: l2) ++ [y])) as Hnd by (rewrite <- El'; apply Hok).
    assert (move_to_front y c = on_cacheLRU (λ _, y :: l1 ++ x :: l2) c) as Em.
    { unfold move_to_front, on_cacheLRU. by rewrite El', remove_hash_last. }
    rewrite Em, (IH (on_cacheLRU (λ _, y :: l1 ++ x :: l2) c) (y :: l1)).
    + unfold on_cacheLRU. cbn. by rewrite <- !app_assoc.
    + rewrite <- Em. apply move_to_front_lru; [done|]. rewrite El'. set_solver.
    + done.
    + done.
    + done.
    + done.
Qed.

(** The loop ends, trims to the capacity and evicts nothing that is pinned. *)
Lemma trim_loop_ends n c fuel :
  lru_ok c → pins_fit c → 0 <= cacheCap c → length (cacheLRU c) = n → (n * n < fuel)%nat →
  ∃ c', trim_loop fuel c = Some c' ∧ lru_ok c' ∧ evicts c c' ∧ cache_over c' = false ∧
        ∀ h, cachePinned c h = true → blocks c' !! h = blocks c !! h.
Proof.
  revert c fuel. induction n as [|n IH]; intros c fuel Hok Hpf Hcap Hn Hf.
  { destruct fuel as [|fuel]; [lia|]. cbn [trim_loop].
    destruct (cache_over c) eqn:Ho; [apply cache_over_size in Ho; [lia|done]|].
    exists c. split_and!; done. }
  destruct (cache_over c) eqn:Ho; cycle 1.
  { destruct fuel as [|fuel]; [lia|]. exists c. cbn [trim_loop]. rewrite Ho. split_and!; done. }
  pose proof (cache_over_size _ Hok Ho) as Hs.
  destruct (split_unpinned c (cacheLRU c)) as (l1 & x & l2 & El & Hx & H2); [unfold pins_fit in Hpf; lia|].
  assert (length l1 + S (length l2) = S n)%nat as Hlen by (rewrite <- Hn, El, length_app; done).
  replace fuel with (length l2 + S (fuel - S (length l2)))%nat by nia.
  rewrite (trim_rotation l2 c l1 x) by done.
  set (c1 := on_cacheLRU (λ _, l2 ++ l1 ++ [x]) c).
  assert (lru_ok c1) as Hok1.
  { destruct Hok as [Hd Hix Hb]. rewrite El in Hd.
    assert (l2 ++ l1 ++ [x] ≡ₚ cacheLRU c) as Hp by (rewrite El; solve_Permutation).
    split; cbn.
    - by rewrite Hp, El.
    - rewrite Hix. apply set_eq. intros h. rewrite !elem_of_list_to_set. by rewrite Hp.
    - intros h Hh. rewrite Hp. auto. }
  assert (cacheLRU (cacheForget x c1) = l2 ++ l1) as El'.
  { unfold cacheForget. rewrite decide_True.
    - change (remove_hash x (l2 ++ l1 ++ [x]) = l2 ++ l1). rewrite app_assoc, remove_hash_last; [done|]. rewrite <- app_assoc. apply (lru_nodup _ Hok1).
    - cbn. rewrite (lru_index _ Hok), elem_of_list_to_set, El. set_solver. }
  destruct (IH (cacheForget x c1) (fuel - S (length l2))%nat) as (c' & E & Hok' & Hev & Ho' & Hpin).
  - by apply cacheForget_lru.
  - unfold pins_fit in *. rewrite El', (ev_cap _ _ (cacheForget_evicts x c1)). cbn [c1 cacheCap on_cacheLRU].
    eapply Z.le_trans; [|exact Hpf]. apply inj_le. unfold pinned_in. rewrite El.
    etrans; [apply (length_filter_mono _ (λ h, cachePinned c h = true));
             intros h; apply (cachePinned_evict_le c1)|].
    rewrite !filter_app, !length_app, filter_cons_False, Nat.add_comm by congruence. done.
  - by rewrite (ev_cap _ _ (cacheForget_evicts x c1)).
  - rewrite El', length_app. lia.
  - nia.
  - exists c'. split_and!; [done|done| |done|].
    + etrans; [|exact Hev]. etrans; [|apply cacheForget_evicts]. by split.
    + intros h Hh. assert (h ≠ x) by congruence.
      rewrite Hpin, cacheForget_blocks, lookup_delete_ne; [done|done|].
      by rewrite cachePinned_forget.
Qed.

(** The height index holds heights of the main chain only. *)
Definition index_ok (c : Chain) : Prop :=
  ∀ h hash, byHeight c !! h = Some hash → 0 <= h <= height c.

(** At most the blocks of 101 heights are pinned. *)
Lemma pinned_count c l : NoDup l → index_ok c → (length (pinned_in c l) <= 101)%nat.
Proof.
  intros Hd Hix.
  set (f := λ h : bytes, default 0 ((λ b, Height (Header b)) <$> blocks c !! h)).
  assert (∀ x, x ∈ pinned_in c l →
    byHeight c !! f x = Some x ∧ Z.max 0 (height c - 100) <= f x <= height c) as Hp.
  { intros x [Hx _]%list_elem_of_filter. unfold cachePinned in Hx. unfold f.
    destruct (blocks c !! x) as [b|]; [|done]. simpl.
    destruct (byHeight c !! Height (Header b)) as [mh|] eqn:E; [|done].
    case_decide as Hm; [done|]. simpl_bools. subst mh. split; [done|].
    pose proof (Hix _ _ E). change chainProtectedBack with 100 in Hx.
    destruct (Z.leb_spec (height c) 100); simpl_bools; lia. }
  rewrite <- (length_fmap f).
  replace 101%nat with (length (seqZ (Z.max 0 (height c - 100)) 101)) by by rewrite length_seqZ.
  apply submseteq_length, NoDup_submseteq.
  - apply NoDup_fmap_2_strong; [|by apply NoDup_filter]. intros x y Hx Hy E.
    apply Hp in Hx as [Hx _], Hy as [Hy _]. congruence.
  - intros h (x & -> & Hx)%list_elem_of_fmap. apply elem_of_seqZ. apply Hp in Hx. lia.
Qed.

Lemma cacheTrim_spec c :
  lru_ok c → index_ok c → 101 <= cacheCap c →
  ∃ c', cacheTrim c = (Ok tt, c') ∧ lru_ok c' ∧ evicts c c' ∧ cache_over c' = false ∧
        ∀ h, cachePinned c h = true → blocks c' !! h = blocks c !! h.
Proof.
  intros Hok Hix Hcap. unfold cacheTrim. rewrite (proj2 (Z.leb_gt _ _)) by lia.
  destruct (trim_loop_ends (length (cacheLRU c)) c (trim_fuel c)) as (c' & -> & ?); [done| |lia|done| |].
  - pose proof (pinned_count c (cacheLRU c) (lru_nodup _ Hok) Hix). unfold pins_fit. lia.
  - unfold trim_fuel. lia.
  - by exists c'.
Qed.

(** C33. Cache eviction ends and is harmless: from any well-formed cache over
    a height index within the main chain, with room for more than the 101
    heights that are protected, [cacheTrimLocked] terminates with at most
    [cacheCap] entries and blocks; it changes nothing but the cache, removes
    entries without altering any, and keeps every pinned block. *)
Theorem cache_trim_ends c :
  lru_ok c → index_ok c → 101 <= cacheCap c →
  ∃ c', cacheTrim c = (Ok tt, c') ∧ lru_ok c' ∧ evicts c c' ∧
        Z.of_nat (size (cacheIndex c')) <= cacheCap c ∧ Z.of_nat (size (blocks c')) <= cacheCap c ∧
        ∀ h, cachePinned c h = true → blocks c' !! h = blocks c !! h.
Proof.
  intros Hok Hix Hcap. destruct (cacheTrim_spec c Hok Hix Hcap) as (c' & E & Hok' & Hev & Ho & Hp).
  unfold cache_over in Ho. rewrite (ev_cap _ _ Hev) in Ho. simpl_bools. eauto 10.
Qed.

Definition empty_chain (cap : Z) : Chain :=
  MkChain (MkStorage empty_db []) ∅ ∅ cap [] ∅ ∅ [] (zeros 32) 0 0 ∅ ∅ true (zeros 32) false None 0.

(** The capacity a node runs with leaves that room. *)
Lemma chainCacheCap_room env : 164 <= chainCacheCapFromEnv env.
Proof.
  unfold chainCacheCapFromEnv. change (chainProtectedBack + chainCacheCapMinSlack) with 164.
  destruct (_ <? 164) eqn:E; simpl_bools; lia.
Qed.

Lemma cache_trim_ends_witness :
  let c := cacheTouch (zeros 32) (empty_chain (chainCacheCapFromEnv None)) in
  ∃ c', cacheTrim c = (Ok tt, c') ∧ lru_ok c' ∧ evicts c c' ∧
        Z.of_nat (size (cacheIndex c')) <= cacheCap c ∧ Z.of_nat (size (blocks c')) <= cacheCap c ∧
        ∀ h, cachePinned c h = true → blocks c' !! h = blocks c !! h.
Proof.
  apply cache_trim_ends.
  - apply cacheTouch_ok; [constructor|reflexivity|]. intros h [b Hb]. discriminate Hb.
  - intros h hash Hh. discriminate Hh.
  - vm_compute. congruence.
Defined.
