(* ===== verification/ChainInv.v ===== *)
(** * The invariant of the chain

    [core] relates the in-memory state, the database and the tree of known
    blocks.  The cached blocks, the work entries, the height index, the key
    images and the ring index are all views of that tree and of the main
    chain, a branch of it from genesis. *)

From S2P Require Import Prelude Bytes Crypto Pow Transaction Block ExchangeSort Consensus Memo Emission Validation Storage StorageFacts Chain Cache Hoare.

(** ** Branches of a tree of blocks *)

Section Tree.
Context `{HC : Crypto}.
Implicit Types known : bytes → option Block.

Definition path_to known (l : list Block) (hash : bytes) : Prop :=
  l ≠ [] ∧ linked l ∧ tip_hash [] l = hash ∧ ∀ b, b ∈ l → known (BlockHash b) = Some b.

Definition branch_work (l : list Block) : Z := sumZ ((λ b, Difficulty (Header b)) <$> l).

(** What is assumed of each block of a branch: its work counts, and its
    transactions can be serialized. *)
Definition sound_block (b : Block) : Prop :=
  MinDifficulty <= Difficulty (Header b) ∧ Forall (λ tx, wf_tx tx ∧ rings_match tx) (Transactions b).

(** A branch along which no key image repeats and the work fits 64 bits. *)
Definition good_path known (l : list Block) (hash : bytes) : Prop :=
  path_to known l hash ∧ NoDup (chain_key_images l) ∧ Forall sound_block l ∧ branch_work l < 2 ^ 64.

Definition tree_ok known : Prop :=
  ∀ hash b, known hash = Some b → ∃ l, good_path known (l ++ [b]) hash.

Lemma branch_work_app l k : branch_work (l ++ k) = branch_work l + branch_work k.
Proof. unfold branch_work. by rewrite fmap_app, sumZ_app. Qed.

Lemma branch_work_length l :
  Forall sound_block l → 4 * Z.of_nat (length l) <= branch_work l.
Proof.
  unfold branch_work. induction 1 as [|b l [Hb _] Hl IH]; [done|].
  cbn [length fmap list_fmap sumZ]. unfold MinDifficulty in Hb. lia.
Qed.

Lemma good_path_length known l hash : good_path known l hash → Z.of_nat (length l) <= 2 ^ 62.
Proof. intros (_ & _ & Hd & Hw). pose proof (branch_work_length l Hd). lia. Qed.

Lemma tip_hash_snoc prev l b : tip_hash prev (l ++ [b]) = BlockHash b.
Proof. unfold tip_hash. by rewrite last_snoc. Qed.

Lemma path_to_last known l b hash :
  path_to known (l ++ [b]) hash → BlockHash b = hash ∧ known hash = Some b.
Proof.
  intros (_ & _ & Ht & Hk). rewrite tip_hash_snoc in Ht. subst. split; [done|]. apply Hk. set_solver.
Qed.

Lemma path_to_prefix known l k hash :
  l ≠ [] → path_to known (l ++ k) hash → path_to known l (tip_hash [] l).
Proof.
  intros Hne (_ & Hl & _ & Hk). split_and!; [done|by eapply linked_prefix|done|]. set_solver.
Qed.

Lemma linked_snoc_prev l b :
  l ≠ [] → linked (l ++ [b]) → PrevHash (Header b) = tip_hash [] l.
Proof.
  intros Hne [p Hb]%linked_branch.
  assert ((l ++ [b]) !! length l = Some b) as Hlk by by apply list_lookup_middle.
  rewrite (branch_prev _ _ _ _ _ Hb Hlk), take_app_length. by apply tip_hash_nonempty.
Qed.

Lemma linked_snoc_height l b : linked (l ++ [b]) → Height (Header b) = Z.of_nat (length l).
Proof. intros Hl. apply (linked_height _ _ _ Hl). by apply list_lookup_middle. Qed.

(** A hash has one branch. *)
Lemma path_to_unique known l l' hash : path_to known l hash → path_to known l' hash → l = l'.
Proof.
  revert l' hash. induction l as [|b l IH] using rev_ind; intros l' hash Hp Hp'; [by destruct Hp|].
  destruct l' as [|b' l' _] using rev_ind; [by destruct Hp'|].
  destruct (path_to_last _ _ _ _ Hp) as [_ Eb], (path_to_last _ _ _ _ Hp') as [_ Eb'].
  rewrite Eb in Eb'. injection Eb' as <-.
  pose proof (linked_snoc_height _ _ (proj1 (proj2 Hp))) as H1.
  pose proof (linked_snoc_height _ _ (proj1 (proj2 Hp'))) as H2.
  destruct (decide (l = [])) as [->|Hne].
  { destruct l'; [done|simpl in *; lia]. }
  assert (l' ≠ []) as Hne' by (intros ->; destruct l; [done|simpl in *; lia]).
  f_equal. apply (IH _ (PrevHash (Header b))).
  - rewrite (linked_snoc_prev l b) by (done || apply Hp). by eapply path_to_prefix.
  - rewrite (linked_snoc_prev l' b) by (done || apply Hp'). by eapply path_to_prefix.
Qed.

(** The parent of a known block other than a genesis block. *)
Lemma tree_parent known hash b :
  tree_ok known → known hash = Some b → 0 < Height (Header b) →
  ∃ l p, good_path known ((l ++ [p]) ++ [b]) hash ∧ known (PrevHash (Header b)) = Some p ∧
         Height (Header b) = Height (Header p) + 1 ∧ path_to known (l ++ [p]) (PrevHash (Header b)).
Proof.
  intros Ht Hk Hh. destruct (Ht _ _ Hk) as (l & Hg). pose proof Hg as (Hp & _).
  pose proof (linked_snoc_height _ _ (proj1 (proj2 Hp))) as Hb.
  destruct l as [|p l _] using rev_ind; [simpl in Hb; lia|].
  exists l, p. split; [done|].
  assert (path_to known (l ++ [p]) (PrevHash (Header b))) as Hpp.
  { rewrite (linked_snoc_prev (l ++ [p]) b); [|by destruct l|apply Hp].
    eapply path_to_prefix; [by destruct l|done]. }
  destruct (path_to_last _ _ _ _ Hpp) as [_ Hkp].
  pose proof (linked_snoc_height _ _ (proj1 (proj2 Hpp))).
  rewrite length_app in Hb. simpl in Hb. split_and!; [done|lia|done].
Qed.

Lemma tree_height known hash b : tree_ok known → known hash = Some b → 0 <= Height (Header b) < 2 ^ 62.
Proof.
  intros Ht Hk. destruct (Ht _ _ Hk) as (l & Hg).
  pose proof (good_path_length _ _ _ Hg) as Hl. rewrite length_app in Hl. simpl in Hl.
  rewrite (linked_snoc_height l b (proj1 (proj2 (proj1 Hg)))). lia.
Qed.

Lemma tree_hash known hash b : tree_ok known → known hash = Some b → BlockHash b = hash.
Proof.
  intros Ht Hk. destruct (Ht _ _ Hk) as (l & Hg & _). by destruct (path_to_last _ _ _ _ Hg).
Qed.

End Tree.

(** ** The invariant *)

Section Invariant.
Context `{HC : Crypto} `{!CryptoLaws HC} `{HN : Network} `{HM : MathLib} `{HJ : JSON} `{!JSONLaws HJ}.

Definition ring_keys (main : list Block) : gset bytes := list_to_set (concat (block_ring_keys <$> main)).

Record core (main : list Block) (known : bytes → option Block) (c : Chain) : Prop := {
  co_rep : represents (db (storage c)) main (totalWork c);
  co_best : bestHash c = tip_hash [] main;
  co_height : height c = Z.of_nat (length main) - 1;
  co_total : totalWork c = branch_work main;
  co_main : good_path known main (bestHash c);
  co_tree : tree_ok known;
  co_cached : ∀ hash b, blocks c !! hash = Some b → known hash = Some b;
  co_stored : ∀ hash b, stored (db (storage c)) hash = Some b → known hash = Some b;
  co_decodes : ∀ hash, is_Some (bucketBlocks (db (storage c)) !! hash) →
                       is_Some (stored (db (storage c)) hash);
  co_lru : lru_ok c;
  co_cap : 101 <= cacheCap c;
  co_byHeight : ∀ h hash, byHeight c !! h = Some hash →
    0 <= h ∧ BlockHash <$> main !! Z.to_nat h = Some hash;
  co_keyImages : ∀ ki, is_Some (keyImages c !! ki) → ki ∈ chain_key_images main;
  co_workAt : ∀ hash w, workAt c !! hash = Some w → ∃ l, path_to known l hash ∧ w = branch_work l;
  co_ring : canonicalRingIndexDirty c = false → canonicalRingIndexReady c = true →
    canonicalRingIndexTip c = bestHash c → canonicalRingIndex c = ring_keys main;
}.

(** Every known block is on disk. *)
Definition settled (known : bytes → option Block) (c : Chain) : Prop :=
  ∀ hash b, known hash = Some b → stored (db (storage c)) hash = Some b.

(** [c'] differs from [c] in its caches only: blocks, work entries, LRU list
    and ring index. *)
Record same_state (c c' : Chain) : Prop := {
  ss_storage : storage c' = storage c;
  ss_cap : cacheCap c' = cacheCap c;
  ss_byHeight : byHeight c' = byHeight c;
  ss_timestamps : timestamps c' = timestamps c;
  ss_best : bestHash c' = bestHash c;
  ss_height : height c' = height c;
  ss_work : totalWork c' = totalWork c;
  ss_keyImages : keyImages c' = keyImages c;
  ss_checkpoints : trustedCheckpoints c' = trustedCheckpoints c;
  ss_fastSync : fastSyncUntilHeight c' = fastSyncUntilHeight c;
}.

#[global] Instance same_state_preorder : PreOrder same_state.
Proof.
  split.
  - intros c. by split.
  - intros c1 c2 c3 [] []. split; etrans; eassumption.
Qed.

Lemma evicts_same c c' : evicts c c' → same_state c c'.
Proof. intros []. by split. Qed.

Lemma settled_same known c c' : same_state c c' → settled known c → settled known c'.
Proof. intros Hs Hk hash b. rewrite (ss_storage _ _ Hs). apply Hk. Qed.

Lemma core_index_ok main known c : core main known c → index_ok c.
Proof.
  intros H h hash Hh. apply (co_byHeight _ _ _ H) in Hh as [? Hl].
  apply fmap_Some in Hl as (b & Hl & _). apply lookup_lt_Some in Hl.
  rewrite (co_height _ _ _ H). lia.
Qed.

(** *** Lookups *)

(** What a lookup by hash relies on: the caches and the disk hold known
    blocks.  It does not involve the main chain. *)
Record readable (known : bytes → option Block) (c : Chain) : Prop := {
  rd_tree : tree_ok known;
  rd_cached : ∀ hash b, blocks c !! hash = Some b → known hash = Some b;
  rd_stored : ∀ hash b, stored (db (storage c)) hash = Some b → known hash = Some b;
  rd_decodes : ∀ hash, is_Some (bucketBlocks (db (storage c)) !! hash) →
                       is_Some (stored (db (storage c)) hash);
  rd_lru : lru_ok c;
  rd_cap : 101 <= cacheCap c;
  rd_index : index_ok c;
  rd_workAt : ∀ hash w, workAt c !! hash = Some w → ∃ l, path_to known l hash ∧ w = branch_work l;
}.

(** [c'] differs from [c] in its caches of blocks and work only. *)
Record only_caches (c c' : Chain) : Prop := {
  oc_same : same_state c c';
  oc_ring : canonicalRingIndex c' = canonicalRingIndex c;
  oc_dirty : canonicalRingIndexDirty c' = canonicalRingIndexDirty c;
  oc_ringTip : canonicalRingIndexTip c' = canonicalRingIndexTip c;
  oc_ready : canonicalRingIndexReady c' = canonicalRingIndexReady c;
}.

#[global] Instance only_caches_preorder : PreOrder only_caches.
Proof.
  split.
  - intros c. by split.
  - intros c1 c2 c3 [] []. split; etrans; eassumption.
Qed.

Lemma evicts_caches c c' : evicts c c' → only_caches c c'.
Proof. intros Ev. pose proof (evicts_same _ _ Ev). destruct Ev. by split. Qed.

Lemma core_readable main known c : core main known c → readable known c.
Proof. intros H. pose proof (core_index_ok _ _ _ H). destruct H. by split. Qed.

(** A change of the caches that only removes or adds known entries. *)
Lemma core_caches main known c c' :
  core main known c → same_state c c' →
  (∀ hash b, blocks c' !! hash = Some b → known hash = Some b) →
  (∀ hash w, workAt c' !! hash = Some w → ∃ l, path_to known l hash ∧ w = branch_work l) →
  (canonicalRingIndexDirty c' = false → canonicalRingIndexReady c' = true →
   canonicalRingIndexTip c' = bestHash c' → canonicalRingIndex c' = ring_keys main) →
  lru_ok c' → core main known c'.
Proof.
  intros H S Hb Hw Hr Hl.
  destruct H, S. split; rewrite ?ss_storage0, ?ss_best0, ?ss_height0, ?ss_work0, ?ss_byHeight0,
    ?ss_keyImages0, ?ss_cap0; try done. by rewrite <- ss_best0.
Qed.

Lemma core_only_caches main known c c' :
  core main known c → readable known c' → only_caches c c' → core main known c'.
Proof.
  intros H [] []. eapply core_caches; try done. rewrite oc_ring0, oc_dirty0, oc_ringTip0, oc_ready0, (ss_best _ _ oc_same0).
  apply (co_ring _ _ _ H).
Qed.

Lemma readable_caches known c c' :
  readable known c → same_state c c' →
  (∀ hash b, blocks c' !! hash = Some b → known hash = Some b) →
  (∀ hash w, workAt c' !! hash = Some w → ∃ l, path_to known l hash ∧ w = branch_work l) →
  lru_ok c' → readable known c'.
Proof.
  intros [] [] Hb Hw Hl. split; rewrite ?ss_storage0, ?ss_cap0; try done.
  unfold index_ok in *. by rewrite ss_byHeight0, ss_height0.
Qed.

Lemma readable_evicts known c c' : readable known c → evicts c c' → lru_ok c' → readable known c'.
Proof.
  intros H Ev Hl. eapply readable_caches; [done|by apply evicts_same| | |done].
  - intros hash b Hb. eapply (rd_cached _ _ H), lookup_weaken; [exact Hb|apply Ev].
  - intros hash w Hw. eapply (rd_workAt _ _ H), lookup_weaken; [exact Hw|apply Ev].
Qed.

Lemma core_evicts main known c c' : core main known c → evicts c c' → lru_ok c' → core main known c'.
Proof.
  intros H Ev Hl. eapply core_only_caches; [done| |by apply evicts_caches].
  eapply readable_evicts; [by eapply core_readable|done|done].
Qed.

Lemma core_touch main known hash c : core main known c → core main known (cacheTouch hash c).
Proof.
  intros H. eapply core_evicts; [done|apply cacheTouch_evicts|by apply cacheTouch_lru, H].
Qed.

Lemma cacheTrim_readable known c :
  readable known c → ∃ c', cacheTrim c = (Ok tt, c') ∧ readable known c' ∧ evicts c c'.
Proof.
  intros H. destruct (cacheTrim_spec c) as (c' & E & Hl & Ev & _); [apply H|apply H|apply H|].
  exists c'. split_and!; [done|by eapply readable_evicts|done].
Qed.

Lemma cacheTrim_core main known c :
  core main known c →
  ∃ c', cacheTrim c = (Ok tt, c') ∧ core main known c' ∧ evicts c c'.
Proof.
  intros H. destruct (cacheTrim_readable known c) as (c' & E & H' & Ev); [by eapply core_readable|].
  exists c'. split_and!; [done|by eapply core_evicts; [| |apply H']|done].
Qed.

(** Caching a known block. *)
Lemma readable_insert_touch known hash b c :
  readable known c → known hash = Some b →
  readable known (cacheTouch hash (on_blocks (<[hash := b]>) c)) ∧
  only_caches c (cacheTouch hash (on_blocks (<[hash := b]>) c)).
Proof.
  intros H Hk. set (c1 := on_blocks (<[hash := b]>) c).
  assert (evicts c1 (cacheTouch hash c1)) as Ev by apply cacheTouch_evicts.
  assert (only_caches c (cacheTouch hash c1)) as Oc by (etrans; [|by apply evicts_caches]; by split).
  split; [|done]. eapply readable_caches; [done|apply Oc| | |].
  - intros h b'. rewrite cacheTouch_blocks. cbn.
    intros [[<- <-]|[_ Hb]]%lookup_insert_Some; [done|by apply (rd_cached _ _ H)].
  - intros h w. rewrite cacheTouch_workAt. apply (rd_workAt _ _ H).
  - pose proof (rd_lru _ _ H) as []. apply cacheTouch_ok; [done..|]. cbn. intros h [b' Hb].
    apply lookup_insert_Some in Hb as [[<- _]|[_ Hb]]; [by left|right; eauto].
Qed.

Lemma core_insert_touch main known hash b c :
  core main known c → known hash = Some b →
  core main known (cacheTouch hash (on_blocks (<[hash := b]>) c)).
Proof.
  intros H Hk. destruct (readable_insert_touch known hash b c) as [? ?]; [by eapply core_readable|done|].
  by eapply core_only_caches.
Qed.

Lemma cacheInsert_readable known hash b c :
  readable known c → known hash = Some b →
  ∃ c', cacheInsert hash b c = (Ok tt, c') ∧ readable known c' ∧ only_caches c c'.
Proof.
  intros H Hk. destruct (readable_insert_touch _ _ _ _ H Hk) as [H1 Oc].
  destruct (cacheTrim_readable _ _ H1) as (c' & E & H' & Ev).
  exists c'. split_and!; [exact E|done|]. etrans; [done|by apply evicts_caches].
Qed.

Lemma cacheInsert_core main known hash b c :
  core main known c → known hash = Some b →
  ∃ c', cacheInsert hash b c = (Ok tt, c') ∧ core main known c' ∧ same_state c c'.
Proof.
  intros H Hk. destruct (cacheInsert_readable known hash b c) as (c' & E & H' & Oc); [by eapply core_readable|done|].
  exists c'. split_and!; [done|by eapply core_only_caches|apply Oc].
Qed.

Lemma GetBlock_db_readable known c hash :
  readable known c → fst (GetBlock_db (storage c) hash) = stored (db (storage c)) hash.
Proof.
  intros H. pose proof (rd_decodes _ _ H hash) as Hd. unfold GetBlock_db, View, stored in *.
  destruct (bucketBlocks (db (storage c)) !! hash) as [data|]; [|done].
  destruct (unmarshal_block data) as [b [e|]]; [|done].
  by destruct (Hd ltac:(eauto)).
Qed.

Lemma GetBlock_db_stored main known c hash :
  core main known c → fst (GetBlock_db (storage c) hash) = stored (db (storage c)) hash.
Proof. intros H. by eapply GetBlock_db_readable, core_readable. Qed.

(** Lookups are sound, and change the caches only. *)
Lemma getBlockByHash_readable known c hash :
  readable known c →
  ∃ c', getBlockByHash hash c = (Ok (peek c hash), c') ∧ readable known c' ∧ only_caches c c' ∧
        ∀ b, peek c hash = Some b → known hash = Some b.
Proof.
  intros H. unfold getBlockByHash, peek. unfold mbind at 1, M_bind at 1. cbn [get].
  destruct (blocks c !! hash) as [b|] eqn:Eb.
  - exists (cacheTouch hash c). pose proof (cacheTouch_evicts hash c) as Ev.
    split_and!; [done| |by apply evicts_caches|].
    + eapply readable_evicts; [done|done|by apply cacheTouch_lru, H].
    + intros b' [= <-]. by apply (rd_cached _ _ H).
  - rewrite (GetBlock_db_readable _ _ _ H). destruct (stored _ hash) as [b|] eqn:Es.
    + pose proof (rd_stored _ _ H _ _ Es) as Hk.
      destruct (cacheInsert_readable _ hash b c H Hk) as (c' & E & H' & Hs).
      exists c'. unfold mbind, M_bind. rewrite E. split_and!; [done|done|done|]. by intros ? [= <-].
    + exists c. by split_and!.
Qed.

Lemma getBlockByHash_core main known c hash :
  core main known c →
  ∃ c', getBlockByHash hash c = (Ok (peek c hash), c') ∧ core main known c' ∧ same_state c c' ∧
        ∀ b, peek c hash = Some b → known hash = Some b.
Proof.
  intros H. destruct (getBlockByHash_readable known c hash) as (c' & E & H' & Oc & Hk); [by eapply core_readable|].
  exists c'. split_and!; [done|by eapply core_only_caches|apply Oc|done].
Qed.

Lemma peek_settled main known c hash : core main known c → settled known c → peek c hash = known hash.
Proof.
  intros H Hs. unfold peek. destruct (blocks c !! hash) as [b|] eqn:Eb.
  - symmetry. by apply (co_cached _ _ _ H).
  - rewrite (GetBlock_db_stored _ _ _ _ H). destruct (known hash) as [b|] eqn:Ek.
    + by apply Hs.
    + destruct (stored _ hash) eqn:Es; [|done]. apply (co_stored _ _ _ H) in Es. congruence.
Qed.

Lemma peek_readable known c hash b : readable known c → peek c hash = Some b → known hash = Some b.
Proof. intros H. destruct (getBlockByHash_readable _ _ hash H) as (_ & _ & _ & _ & Hk). apply Hk. Qed.

Lemma peek_known main known c hash b : core main known c → peek c hash = Some b → known hash = Some b.
Proof. intros H. by apply peek_readable, (core_readable main). Qed.

(** *** Calls that only read *)

(** The state is [c0] up to caches. *)
Definition browsing known (c0 c : Chain) : Prop := readable known c ∧ only_caches c0 c.

Definition reading_from main known (c0 c : Chain) : Prop := core main known c ∧ same_state c0 c.

(** A call that only browses leaves the invariant alone. *)
Lemma browse_lift {A} main known c0 (m : M Chain A) (Φ : A → Prop) :
  (∀ c1, triple (browsing known c1) m (λ a c, browsing known c1 c ∧ Φ a) (λ _ c, browsing known c1 c)) →
  triple (reading_from main known c0) m (λ a c, reading_from main known c0 c ∧ Φ a)
    (λ _ c, reading_from main known c0 c).
Proof.
  intros Hm c [H Ss]. specialize (Hm c c ltac:(by split; [eapply core_readable|])).
  assert (∀ c', browsing known c c' → reading_from main known c0 c') as Hb.
  { intros c' [H' Oc]. split; [by eapply core_only_caches|]. etrans; [done|apply Oc]. }
  destruct (m c) as [[a|e|] c']; [|by apply Hb|done]. destruct Hm. auto.
Qed.

Section Walks.
Context (known : bytes → option Block) (c0 : Chain).
#[local] Abbreviation here := (browsing known c0).

Lemma getBlockByHash_browse hash :
  triple here (getBlockByHash hash) (λ r c, here c ∧ ∀ b, r = Some b → known hash = Some b) (λ _ c, here c).
Proof.
  intros c [H Hs]. destruct (getBlockByHash_readable _ _ hash H) as (c' & -> & H' & Hs' & Hk).
  split; [split; [done|by etrans]|exact Hk].
Qed.

Lemma must_get_browse hash :
  triple here (must_get hash) (λ b c, here c ∧ known hash = Some b) (λ _ c, here c).
Proof.
  unfold must_get. eapply triple_bind; [apply getBlockByHash_browse|].
  intros [b|]; [apply triple_ret|apply triple_throw].
  - intros c [? Hk]. auto.
  - by intros c [? _].
Qed.

Lemma cacheTrim_browse : triple here cacheTrim (λ _ c, here c) (λ _ _, False).
Proof.
  intros c [H Hs]. destruct (cacheTrim_readable _ _ H) as (c' & -> & H' & Ev).
  split; [done|]. etrans; [done|by apply evicts_caches].
Qed.

Lemma browse_touch hash c : here c → here (cacheTouch hash c).
Proof.
  intros [H Hs]. pose proof (cacheTouch_evicts hash c) as Ev. split.
  - eapply readable_evicts; [done|done|by apply cacheTouch_lru, H].
  - etrans; [done|by apply evicts_caches].
Qed.

(** Enough fuel to walk from [hash] to a genesis block. *)
Definition reaches (fuel : nat) (hash : bytes) (c : Chain) : Prop :=
  (0 < fuel)%nat ∧ ∀ b, peek c hash = Some b → Height (Header b) < Z.of_nat fuel.

Lemma walk_fuel_browse hash c : readable known c → reaches (walk_fuel c hash) hash c.
Proof.
  intros H. unfold walk_fuel. split; [lia|]. intros b Hb. rewrite Hb. simpl.
  apply (peek_readable _ _ _ _ H), (tree_height _ _ _ (rd_tree _ _ H)) in Hb. lia.
Qed.

Lemma reaches_parent fuel hash b c c' :
  here c → known hash = Some b → Height (Header b) < Z.of_nat (S fuel) → 0 < Height (Header b) →
  here c' → reaches fuel (PrevHash (Header b)) c'.
Proof.
  intros [H _] Hk Hf Hh [H' _]. split; [lia|]. intros p Hp.
  apply (peek_readable _ _ _ _ H') in Hp.
  destruct (tree_parent _ _ _ (rd_tree _ _ H) Hk Hh) as (l & p' & _ & Hp' & E & _).
  simplify_eq. lia.
Qed.

Lemma addCumulativeWork_Ok w d r :
  is_u64 w → 0 <= d → addCumulativeWork w d = Ok r → r = w + d ∧ w + d < 2 ^ 64.
Proof.
  unfold addCumulativeWork. destruct (Z.ltb_spec (MaxUint64 - w) d) as [|Hle]; [done|].
  intros Hw Hd [= <-]. rewrite u64_small; unfold_ints; lia.
Qed.

Lemma browse_workAt hash w l c :
  here c → path_to known l hash → w = branch_work l → here (on_workAt (<[hash := w]>) c).
Proof.
  intros [H Hs] Hp Hw. split; [|etrans; [done|by split]].
  eapply readable_caches; [exact H|by split| | |]; cbn.
  - apply (rd_cached _ _ H).
  - intros h w' [[<- <-]|[_ Hl]]%lookup_insert_Some; [by exists l|by apply (rd_workAt _ _ H)].
  - pose proof (rd_lru _ _ H) as []. by split.
Qed.

(** The work of a branch is the sum of its difficulties. *)
Lemma cumulativeWorkAt_browse fuel hash :
  triple (λ c, here c ∧ reaches fuel hash c) (cumulativeWorkAt_fuel fuel hash)
    (λ w c, here c ∧ ∃ l, path_to known l hash ∧ w = branch_work l) (λ _ c, here c).
Proof.
  revert hash. induction fuel as [|fuel IH]; intros hash.
  { intros c [_ [? _]]. lia. }
  cbn [cumulativeWorkAt_fuel]. apply triple_get. intros c [Hc [_ Hr]].
  destruct (workAt c !! hash) as [w|] eqn:Ew.
  { apply triple_ret. intros ? ->. split; [done|]. by apply (rd_workAt _ _ (proj1 Hc)). }
  eapply triple_bind with (R := λ r c', here c' ∧ r = peek c hash).
  { intros ? ->. destruct (getBlockByHash_readable _ _ hash (proj1 Hc)) as (c' & -> & H' & Hs' & _).
    split; [|done]. split; [done|]. etrans; [apply Hc|done]. }
  intros r. destruct (peek c hash) as [b|] eqn:Ep; cycle 1.
  { intros c' [? ->]. done. }
  pose proof (peek_readable _ _ _ _ (proj1 Hc) Ep) as Hk. specialize (Hr b eq_refl).
  intros c' [Hc' ->]. revert c' Hc'. change (triple here
    (parentWork ← (if 0 <? Height (Header b) then cumulativeWorkAt_fuel fuel (PrevHash (Header b)) else mret 0);
     work ← lift (addCumulativeWork parentWork (Difficulty (Header b)));
     modify (on_workAt (<[hash := work]>));; modify (cacheTouch hash);; cacheTrim;; mret work)
    (λ w c, here c ∧ ∃ l, path_to known l hash ∧ w = branch_work l) (λ _ c, here c)).
  destruct (rd_tree _ _ (proj1 Hc) _ _ Hk) as (l & Hg).
  pose proof Hg as (Hp & _ & Hmin & Hbw). rewrite branch_work_app in Hbw.
  assert (0 <= Difficulty (Header b) ∧ 0 <= branch_work l) as [Hd Hbl].
  { apply Forall_app in Hmin as [Hml Hm]. rewrite Forall_singleton in Hm. destruct Hm as [Hm _]. unfold MinDifficulty in Hm.
    pose proof (branch_work_length l Hml). lia. }
  eapply triple_bind with (R := λ w c, here c ∧ w = branch_work l).
  - destruct (Z.ltb_spec 0 (Height (Header b))) as [Hh|Hh].
    + eapply triple_weaken; [apply (IH (PrevHash (Header b)))| | |done].
      * intros c' Hc'. split; [done|]. by eapply reaches_parent.
      * intros w c' (Hc' & l' & Hp' & ->). split; [done|].
        destruct (tree_parent _ _ _ (rd_tree _ _ (proj1 Hc)) Hk Hh) as (l2 & p & Hg2 & _ & _ & Hpp).
        pose proof (path_to_unique _ _ _ _ Hp (proj1 Hg2)) as E. apply app_inj_tail in E as [-> _].
        f_equal. by eapply path_to_unique.
    + apply triple_ret. intros c' Hc'. split; [done|].
      pose proof (linked_snoc_height _ _ (proj1 (proj2 Hp))) as Hlen.
      destruct l as [|x l]; [done|]. simpl in Hlen. lia.
  - intros w. unfold branch_work at 2 in Hbw. simpl in Hbw.
    eapply triple_bind with (R := λ w c, here c ∧ w = branch_work (l ++ [b])).
    + apply triple_lift.
      * unfold addCumulativeWork. by destruct (_ <? _).
      * intros w' c' Ew' [Hc' ->]. split; [done|].
        apply addCumulativeWork_Ok in Ew' as [-> _]; [|unfold_ints; lia|done].
        rewrite branch_work_app. unfold branch_work at 3. simpl. lia.
      * by intros e c' _ [? _].
    + intros w'. eapply triple_bind with (R := λ _ c, here c ∧ w' = branch_work (l ++ [b])).
      { apply triple_modify. intros c' [Hc' ->]. split; [|done]. by eapply browse_workAt. }
      intros _. eapply triple_bind with (R := λ _ c, here c ∧ w' = branch_work (l ++ [b])).
      { apply triple_modify. intros c' [Hc' ->]. split; [by apply browse_touch|done]. }
      intros _. eapply triple_bind with (R := λ _ c, here c ∧ w' = branch_work (l ++ [b])).
      { intros c' [Hc' E]. specialize (cacheTrim_browse c' Hc').
        by destruct (cacheTrim c') as [[[]| |] c'']. }
      intros _. apply triple_ret. intros c' [? ->]. split; [done|]. by exists (l ++ [b]).
Qed.

Lemma cumulativeWorkAtLocked_browse hash :
  triple here (cumulativeWorkAtLocked hash)
    (λ w c, here c ∧ ∃ l, path_to known l hash ∧ w = branch_work l) (λ _ c, here c).
Proof.
  unfold cumulativeWorkAtLocked. apply triple_get. intros c Hc.
  eapply triple_weaken; [apply cumulativeWorkAt_browse| |done|done].
  intros ? ->. split; [done|]. by apply walk_fuel_browse, Hc.
Qed.

End Walks.

(** The same under the invariant. *)
Section CoreWalks.
Context (main : list Block) (known : bytes → option Block) (c0 : Chain).
#[local] Abbreviation here := (reading_from main known c0).

Lemma getBlockByHash_triple hash :
  triple here (getBlockByHash hash) (λ r c, here c ∧ ∀ b, r = Some b → known hash = Some b) (λ _ _, False).
Proof.
  intros c [H Hs]. destruct (getBlockByHash_core _ _ _ hash H) as (c' & -> & H' & Hs' & Hk).
  split; [split; [done|by etrans]|exact Hk].
Qed.

Lemma must_get_triple hash :
  triple here (must_get hash) (λ b c, here c ∧ known hash = Some b) (λ _ c, here c).
Proof. apply browse_lift. intros c1. apply must_get_browse. Qed.

Lemma cumulativeWorkAtLocked_triple hash :
  triple here (cumulativeWorkAtLocked hash)
    (λ w c, here c ∧ ∃ l, path_to known l hash ∧ w = branch_work l) (λ _ c, here c).
Proof. apply browse_lift. intros c1. apply cumulativeWorkAtLocked_browse. Qed.

Lemma walk_fuel_reaches hash c : here c → reaches (walk_fuel c hash) hash c.
Proof. intros [H _]. by eapply walk_fuel_browse, core_readable. Qed.

Lemma here_workAt hash w l c :
  here c → path_to known l hash → w = branch_work l → here (on_workAt (<[hash := w]>) c).
Proof.
  intros [H Hs] Hp Hw. destruct (browse_workAt known c hash w l c) as [H' Oc]; [by split; [eapply core_readable|]|done|done|].
  split; [by eapply core_only_caches|]. etrans; [done|apply Oc].
Qed.

End CoreWalks.

End Invariant.
