(* ===== verification/Branches.v ===== *)
(** * Reading the chain during validation

    What the callbacks that [validateBlockForProcessLocked] hands to the
    validators answer: blocks from the tree of known blocks, key images from
    the branch of the parent and the main chain, ring members from the main
    chain's outputs.  The callbacks may fill and trim caches meanwhile. *)

From S2P Require Import Prelude Bytes Crypto Pow Transaction TxCodec Block ExchangeSort Consensus Hoare Reads Difficulty Memo Emission Validation Validity Storage StorageFacts Commit Chain Cache ChainInv.

Section Branches.
Context `{HC : Crypto} `{!CryptoLaws HC} `{HN : Network} `{HM : MathLib} `{HJ : JSON} `{!JSONLaws HJ}.

(** The invariant between calls. *)
Definition chain_inv (main : list Block) (known : bytes → option Block) (c : Chain) : Prop :=
  core main known c ∧ settled known c.

Context (main : list Block) (known : bytes → option Block).
#[local] Abbreviation inv := (chain_inv main known).

Lemma inv_same c c' : inv c → core main known c' → same_state c c' → inv c'.
Proof. intros [_ Hs] H' Ss. split; [done|by eapply settled_same]. Qed.

(** ** Blocks *)

Lemma getBlockByHash_reads c hash :
  inv c → reads inv same_state (getBlockByHash hash) c (Ok (known hash)).
Proof.
  intros Hi. pose proof Hi as [H Hs].
  destruct (getBlockByHash_core _ _ _ hash H) as (c' & E & H' & Ss & _).
  exists c'. rewrite E, (peek_settled _ _ _ _ H Hs). split_and!; [done|by eapply inv_same|done].
Qed.

#[export] Instance chain_block_source : BlockSource inv same_state getBlockByHash (λ _, known).
Proof. split; [intros; by apply getBlockByHash_reads|done]. Qed.

(** ** Key images *)

Lemma isKeyImageSpentLocked_main c ki :
  core main known c → isKeyImageSpentLocked c ki = bool_decide (ki ∈ chain_key_images main).
Proof.
  intros H. pose proof (rep_spent _ _ _ (co_rep _ _ _ H) ki) as Hr.
  pose proof (co_keyImages _ _ _ H ki) as Hk.
  unfold isKeyImageSpentLocked, IsKeyImageSpent_db, View.
  destruct (bucketKeyImages (db (storage c)) !! ki) as [data|]; simpl.
  - rewrite orb_true_r. symmetry. apply bool_decide_eq_true. apply Hr. by eexists.
  - rewrite orb_false_r. apply bool_decide_ext. split; [done|]. intros Hin. by apply Hr in Hin as [].
Qed.

Lemma main_path h hash :
  good_path known main (tip_hash [] main) → BlockHash <$> main !! h = Some hash →
  ∃ l k, main = l ++ k ∧ path_to known l hash.
Proof.
  intros (Hp & _) (b & Hb & ->)%fmap_Some. exists (take (S h) main), (drop (S h) main).
  split; [by rewrite take_drop|].
  assert (take (S h) main = take h main ++ [b]) as Et by by apply take_S_r.
  replace (BlockHash b) with (tip_hash [] (take (S h) main)) by by rewrite Et, tip_hash_snoc.
  eapply path_to_prefix; [by rewrite Et; destruct (take h main)|]. by rewrite take_drop.
Qed.

(** The walk down a branch collects the key images that the main chain
    lacks. *)
Lemma branch_spent_reads fuel hash acc c :
  inv c → reaches fuel hash c →
  (known hash = None ∧ reads inv same_state (branch_spent fuel hash acc) c (Err ErrOrphanBlock)) ∨
  ∃ l B, path_to known l hash ∧ reads inv same_state (branch_spent fuel hash acc) c (Ok B) ∧
    ∀ ki, ki ∈ B ∨ ki ∈ chain_key_images main ↔
          ki ∈ acc ∨ ki ∈ chain_key_images l ∨ ki ∈ chain_key_images main.
Proof.
  revert hash acc c. induction fuel as [|fuel IH]; intros hash acc c Hi [Hf Hr]; [lia|].
  rewrite (peek_settled _ _ _ _ (proj1 Hi) (proj2 Hi)) in Hr.
  pose proof (getBlockByHash_reads c hash Hi) as (c1 & E1 & Hi1 & S1).
  cbn [branch_spent]. destruct (known hash) as [b|] eqn:Ek; cycle 1.
  { left. split; [done|]. exists c1. unfold mbind, M_bind. by rewrite E1. }
  right. specialize (Hr b eq_refl).
  destruct (co_tree _ _ _ (proj1 Hi) _ _ Ek) as (l0 & Hg). pose proof (proj1 Hg) as Hp.
  destruct (decide (byHeight c1 !! Height (Header b) = Some hash)) as [Hm|Hm].
  { exists (l0 ++ [b]), acc. split_and!; [done| |].
    { exists c1. unfold mbind, M_bind. rewrite E1. cbn. by rewrite decide_True. }
    pose proof (co_byHeight _ _ _ (proj1 Hi1) _ _ Hm) as [_ Hl].
    destruct (main_path _ _ ltac:(rewrite <- (co_best _ _ _ (proj1 Hi)); apply (co_main _ _ _ (proj1 Hi))) Hl)
      as (l & k & Em & Hp').
    rewrite (path_to_unique _ _ _ _ Hp Hp'). intros ki. rewrite Em, chain_key_images_app, elem_of_app. tauto. }
  set (acc' := list_to_set (block_key_images b) ∪ acc).
  destruct (Z.eqb_spec (Height (Header b)) 0) as [Hz|Hz].
  { exists (l0 ++ [b]), acc'. split_and!; [done| |].
    { exists c1. unfold mbind, M_bind. rewrite E1. cbn. rewrite decide_False by done.
      by rewrite (proj2 (Z.eqb_eq _ _) Hz). }
    rewrite (linked_snoc_height _ _ (proj1 (proj2 Hp))) in Hz. destruct l0; [|done].
    intros ki. unfold acc', chain_key_images. simpl. rewrite app_nil_r. set_solver. }
  pose proof (tree_height _ _ _ (co_tree _ _ _ (proj1 Hi)) Ek) as Hh.
  destruct (tree_parent _ _ _ (co_tree _ _ _ (proj1 Hi)) Ek ltac:(lia)) as (l & p & Hg2 & Hkp & Hhp & Hpp).
  assert (reaches fuel (PrevHash (Header b)) c1) as Hr1.
  { split; [lia|]. intros p' Hp'. apply (peek_known _ _ _ _ _ (proj1 Hi1)) in Hp'. simplify_eq. lia. }
  destruct (IH (PrevHash (Header b)) acc' c1 Hi1 Hr1) as [[Hn _]|(l' & B & Hp' & (c2 & E2 & Hi2 & S2) & HB)];
    [congruence|].
  exists ((l ++ [p]) ++ [b]), B. split_and!; [apply Hg2| |].
  { exists c2. unfold mbind, M_bind. rewrite E1. cbn. rewrite decide_False by done.
    rewrite (proj2 (Z.eqb_neq _ _) Hz). fold acc'. split_and!; [exact E2|done|by etrans]. }
  intros ki. rewrite HB, (path_to_unique _ _ _ _ Hp' Hpp), (chain_key_images_app (l ++ [p])), elem_of_app.
  unfold acc'. rewrite elem_of_union, elem_of_list_to_set. unfold chain_key_images at 4. simpl.
  rewrite app_nil_r. tauto.
Qed.

(** ** Ring members *)

Lemma GetTip_core c :
  core main known c → GetTip (storage c) = Some (bestHash c, Z.of_nat (length main) - 1, totalWork c).
Proof.
  intros H. pose proof (co_rep _ _ _ H) as R. pose proof (rep_small _ _ _ R).
  pose proof (rep_nonempty _ _ _ R) as Hne.
  assert (1 <= length main)%nat by (destruct main; [done|simpl; lia]).
  assert (0 <= totalWork c < 2 ^ 64) as Hw.
  { rewrite (co_total _ _ _ H). pose proof (co_main _ _ _ H) as (_ & _ & Hs & ?).
    pose proof (branch_work_length main Hs). lia. }
  unfold GetTip, View, GetTip_db. rewrite (rep_tip _ _ _ R), (rep_height _ _ _ R), (rep_work _ _ _ R).
  rewrite !decide_True by apply length_be_bytes.
  rewrite !be_value_bytes_small by (change (256 ^ Z.of_nat 8) with (2 ^ 64); lia).
  rewrite (co_best _ _ _ H), copy32_id; [done|].
  unfold tip_hash. destruct (last main) eqn:E; [apply BlockHash_length|by apply last_None in E; subst].
Qed.

Lemma GetBlockHashByHeight_core c i b :
  core main known c → main !! i = Some b → GetBlockHashByHeight (storage c) (Z.of_nat i) = Some (BlockHash b).
Proof.
  intros H Hi. pose proof (co_rep _ _ _ H) as R. pose proof (rep_small _ _ _ R).
  pose proof (lookup_lt_Some _ _ _ Hi). unfold GetBlockHashByHeight, View.
  rewrite (rep_heights _ _ _ R) by (unfold_ints; lia). rewrite Nat2Z.id, Hi. simpl.
  by rewrite copy32_id by apply BlockHash_length.
Qed.

Lemma build_ring_index_reads n i acc c :
  inv c → (i + n = length main)%nat →
  reads inv same_state (build_ring_index n (Z.of_nat i) acc) c (Ok (ring_keys (drop i main) ∪ acc)).
Proof.
  revert i acc c. induction n as [|n IH]; intros i acc c Hi Hn; cbn [build_ring_index].
  { rewrite drop_ge by lia. unfold ring_keys. simpl. rewrite (left_id_L ∅ (∪)). by apply (reads_ret inv same_state). }
  destruct (lookup_lt_is_Some_2 main i ltac:(lia)) as [b Hb].
  pose proof (getBlockByHash_reads c (BlockHash b) Hi) as (c1 & E1 & Hi1 & S1).
  assert (known (BlockHash b) = Some b) as Hk.
  { apply (co_stored _ _ _ (proj1 Hi)). by apply (rep_blocks _ _ _ (co_rep _ _ _ (proj1 Hi)) i). }
  destruct (IH (S i) (list_to_set (block_ring_keys b) ∪ acc) c1 Hi1 ltac:(lia)) as (c2 & E2 & Hi2 & S2).
  exists c2. unfold mbind, M_bind, get. rewrite (GetBlockHashByHeight_core c i b (proj1 Hi) Hb), E1, Hk.
  replace (Z.of_nat i + 1) with (Z.of_nat (S i)) by lia. rewrite E2.
  split_and!; [|done|by etrans]. f_equal. f_equal. rewrite (drop_S main b i) by done.
  unfold ring_keys. rewrite fmap_cons. cbn [concat]. rewrite list_to_set_app_L. set_solver.
Qed.

Lemma ring_refreshed c index tip :
  inv c → tip = bestHash c → index = ring_keys main →
  let c' := on_canonicalRingIndexDirty (λ _, false) (on_canonicalRingIndexReady (λ _, true)
    (on_canonicalRingIndexTip (λ _, tip) (on_canonicalRingIndex (λ _, index) c))) in
  inv c' ∧ same_state c c'.
Proof.
  intros [H Hs] -> -> c'. assert (same_state c c') as Ss by by split.
  split; [|done]. split; [|done]. eapply core_caches; [exact H|done| | |done|].
  - apply (co_cached _ _ _ H).
  - apply (co_workAt _ _ _ H).
  - pose proof (co_lru _ _ _ H) as []. by split.
Qed.

Lemma isCanonicalRingMember_reads c k m :
  inv c → reads inv same_state (isCanonicalRingMemberLocked k m) c
            (Ok (bool_decide (canonicalRingIndexKey k m ∈ ring_keys main))).
Proof.
  intros Hi. pose proof (proj1 Hi) as H.
  assert (∃ c', ensureCanonicalRingIndex c = (Ok tt, c') ∧ inv c' ∧ same_state c c' ∧
                canonicalRingIndex c' = ring_keys main) as (c' & E & Hi' & Ss & Er).
  { unfold ensureCanonicalRingIndex. unfold mbind at 1, M_bind at 1, get.
    rewrite (GetTip_core c H). cbv beta iota.
    destruct (negb (canonicalRingIndexDirty c) && canonicalRingIndexReady c &&
              bool_decide (canonicalRingIndexTip c = bestHash c)) eqn:Ef.
    - simpl_bools. exists c. split_and!; [done|done|done|]. by apply (co_ring _ _ _ H).
    - pose proof (rep_nonempty _ _ _ (co_rep _ _ _ H)) as Hne.
      assert (1 <= length main)%nat by (destruct main; [done|simpl; lia]).
      replace (S (Z.to_nat (Z.of_nat (length main) - 1))) with (length main) by lia.
      destruct (build_ring_index_reads (length main) 0 ∅ c Hi ltac:(lia)) as (c1 & E1 & Hi1 & S1).
      rewrite drop_0, (right_id_L ∅ (∪)) in E1.
      destruct (ring_refreshed c1 (ring_keys main) (bestHash c) Hi1) as [Hi2 S2];
        [symmetry; apply S1|done|].
      eexists. unfold mbind, M_bind. change 0 with (Z.of_nat 0); rewrite E1. split_and!; [done|exact Hi2|by etrans|done]. }
  exists c'. unfold isCanonicalRingMemberLocked, on_error, mbind, M_bind. rewrite E. cbn.
  by rewrite Er.
Qed.

(** ** What the validators are told *)

(** The key images spent on the branch [l] or on the main chain. *)
Definition branch_spends (l : list Block) (ki : bytes) : bool :=
  bool_decide (ki ∈ chain_key_images l ++ chain_key_images main).

Definition main_ring_member (k m : bytes) : bool := bool_decide (canonicalRingIndexKey k m ∈ ring_keys main).

Lemma chain_ledger_source (l : list Block) (B : gset bytes) :
  (∀ ki : bytes, ki ∈ B ∨ ki ∈ chain_key_images main ↔ ki ∈ chain_key_images l ∨ ki ∈ chain_key_images main) →
  LedgerSource inv same_state
    (λ ki, if decide (ki ∈ B) then mret true else reading (λ c, isKeyImageSpentLocked c ki))
    isCanonicalRingMemberLocked (λ _, branch_spends l) (λ _, main_ring_member).
Proof.
  intros HB. split; [| |done|done].
  - intros c ki Hi. exists c. split; [|done]. unfold branch_spends.
    case_decide as Hd.
    + rewrite bool_decide_eq_true_2; [done|]. rewrite elem_of_app, <- HB. by left.
    + unfold reading. rewrite (isKeyImageSpentLocked_main c ki (proj1 Hi)). f_equal. f_equal.
      apply bool_decide_ext. rewrite elem_of_app, <- HB. tauto.
  - intros c k m Hi. by apply isCanonicalRingMember_reads.
Qed.

(** The branch of the parent of [b]: none for a genesis block. *)
Definition parent_branch (b : Block) (l : list Block) : Prop :=
  if 0 <? Height (Header b) then path_to known l (PrevHash (Header b)) else l = [].

(** What [ProcessBlock] requires of a new block in the state [c]. *)
Definition acceptable (now : Z) (c : Chain) (b : Block) : Prop :=
  check_checkpoint c b = Ok tt ∧
  ∃ l, parent_branch b l ∧
       valid_block now known (branch_spends l) main_ring_member
         (shouldSkipPoW c (Height (Header b)) (bool_decide (PrevHash (Header b) = bestHash c))) b.

Lemma check_checkpoint_same c c' b : same_state c c' → check_checkpoint c' b = check_checkpoint c b.
Proof. intros []. unfold check_checkpoint. by rewrite ss_checkpoints, ss_fastSync, ss_height. Qed.

Lemma shouldSkipPoW_same c c' h e : same_state c c' → shouldSkipPoW c' h e = shouldSkipPoW c h e.
Proof. intros []. unfold shouldSkipPoW. by rewrite ss_checkpoints, ss_fastSync, ss_height. Qed.

Lemma safe_check_checkpoint c b : safe (check_checkpoint c b).
Proof.
  unfold check_checkpoint. destruct (trustedCheckpoints c) as [cps|]; [|done].
  destruct (_ && _); [|done]. destruct (cps !! _); auto with safe.
Qed.

Lemma known_tip c tip : core main known c → known (bestHash c) = Some tip → Height (Header tip) = height c.
Proof.
  intros H Hk. pose proof (co_main _ _ _ H) as (Hp & _). pose proof Hp as (Hne & Hl & _).
  destruct main as [|t l _] eqn:Em using rev_ind; [done|].
  destruct (path_to_last _ _ _ _ Hp) as [_ Hk']. simplify_eq.
  rewrite (co_height _ _ _ H), (linked_snoc_height _ _ Hl), length_app. simpl. lia.
Qed.

(** The rest of the validation, once the spent checker is built. *)
Lemma validate_rest_decides now b c c1 (l : list Block) isSpent :
  Forall wf_tx (Transactions b) → inv c → inv c1 → same_state c c1 →
  LedgerSource inv same_state isSpent isCanonicalRingMemberLocked (λ _, branch_spends l) (λ _, main_ring_member) →
  decides inv same_state
    (c ← get;
     lift (check_checkpoint c b);;
     let extendsTip := bool_decide (PrevHash (Header b) = bestHash c) in
     let skipPoW := shouldSkipPoW c (Height (Header b)) extendsTip in
     validateBlockWithContext now b (bestHash c) (height c) getBlockByHash isSpent
       (Some isCanonicalRingMemberLocked) skipPoW) c1
    (check_checkpoint c b = Ok tt ∧
     valid_block now known (branch_spends l) main_ring_member
       (shouldSkipPoW c (Height (Header b)) (bool_decide (PrevHash (Header b) = bestHash c))) b).
Proof.
  intros Hwf Hi Hi1 Ss HL.
  eapply (decides_bind_ok inv same_state _ _ c1 c1); [by exists c1|]. intros c2 Hi2 S2.
  rewrite (check_checkpoint_same c c1) by done. cbv zeta. rewrite (shouldSkipPoW_same c c1) by done.
  rewrite (ss_best _ _ Ss), (ss_height _ _ Ss).
  apply (decides_seq inv same_state); [apply (decides_lift inv same_state); [done|apply safe_check_checkpoint]|].
  intros c3 _ Hi3 S3.
  apply (validateBlockWithContext_decides (blocks := λ _, known) (spent := λ _, branch_spends l)
           (canonical := λ _, main_ring_member)); [done|done|].
  intros tip. apply (known_tip c tip (proj1 Hi)).
Qed.

Lemma validateBlockForProcess_decides now b c :
  Forall wf_tx (Transactions b) → inv c →
  decides inv same_state (validateBlockForProcess now b) c (acceptable now c b).
Proof.
  intros Hwf Hi. unfold validateBlockForProcess, acceptable, parent_branch.
  destruct (Z.ltb_spec 0 (Height (Header b))) as [Hh|Hh]; cycle 1.
  { eapply (decides_bind_ok inv same_state); [by apply (reads_ret inv same_state)|]. intros c1 Hi1 S1.
    eapply decides_iff; cycle 1.
    { apply (validate_rest_decides now b c c1 []); [done..|].
      pose proof (chain_ledger_source [] ∅ ltac:(unfold chain_key_images; set_solver)) as [L1 L2 L3 L4].
      split; [|done..]. intros c2 ki Hi2. specialize (L1 c2 ki Hi2). cbv beta in L1.
      by rewrite decide_False in L1 by set_solver. }
    naive_solver. }
  assert (∀ l, path_to known l (PrevHash (Header b)) → is_Some (known (PrevHash (Header b)))) as Hpk.
  { intros l Hp. destruct l as [|x l _] using rev_ind; [by destruct Hp|].
    apply path_to_last in Hp as [_ Hp]. eauto. }
  assert (reaches (walk_fuel c (PrevHash (Header b))) (PrevHash (Header b)) c) as Hr.
  { by apply (walk_fuel_reaches main known c); split; [apply Hi|]. }
  destruct (branch_spent_reads _ (PrevHash (Header b)) ∅ c Hi Hr) as [[Hn (c1 & E1 & Hi1 & S1)]|(l & B & Hp & (c1 & E1 & Hi1 & S1) & HB)].
  { exists (Err ErrOrphanBlock). split_and!; [|done|].
    - exists c1. unfold branchAwareSpentChecker, mbind, M_bind, get. by rewrite E1.
    - split; [done|]. intros (_ & l & Hp & _). destruct (Hpk l Hp). congruence. }
  eapply decides_iff; cycle 1.
  { eapply (decides_bind_ok inv same_state).
    { exists c1. unfold branchAwareSpentChecker, mbind, M_bind, get. by rewrite E1. }
    intros c2 Hi2 S2. apply (validate_rest_decides now b c c2 l); [done..|by etrans|].
    apply chain_ledger_source. set_solver. }
  split; [intros [? ?]; eauto|]. intros (? & l' & Hp' & Hv). split; [done|].
  by rewrite (path_to_unique _ _ _ _ Hp Hp').
Qed.

End Branches.

(** C8. The context of validation is exact: in a chain in its invariant,
    [validateBlockForProcessLocked] never panics, leaves the chain as it was
    up to its caches, and accepts exactly the blocks that match the trusted
    checkpoints and are valid over the tree of known blocks, the key images
    spent on the parent's branch or the main chain, and the outputs of the
    main chain, with proof of work skipped only below the last checkpoint on
    top of the tip.  No eviction from the block cache affects the verdict. *)
Theorem process_validation_exact `{HC : Crypto} `{!CryptoLaws HC} `{HN : Network} `{HM : MathLib} `{HJ : JSON}
    `{!JSONLaws HJ} now b main known c :
  Forall wf_tx (Transactions b) → chain_inv main known c →
  ∃ r c', validateBlockForProcess now b c = (r, c') ∧ chain_inv main known c' ∧ same_state c c' ∧ r ≠ Panic ∧
          (r = Ok tt ↔ acceptable main known now c b).
Proof.
  intros Hwf Hi. destruct (validateBlockForProcess_decides main known now b c Hwf Hi) as (r & (c' & ? & ? & ?) & ? & ?).
  eauto 10.
Qed.
