(* ===== verification/Ancestors.v ===== *)
(** * Walks down the tree of blocks

    The loops of a reorganization: the highest common ancestor of two tips,
    the blocks to connect and the blocks to disconnect. *)

From S2P Require Import Prelude Bytes Crypto Pow Transaction TxCodec Block ExchangeSort Consensus Hoare Reads Difficulty Memo Emission Validation Validity Storage StorageFacts Commit Chain Cache ChainInv Branches.

(** ** Common prefixes *)

(** [p] is the longest common prefix of [la] and [lb]. *)
Definition longest_common {A} (la lb p : list A) : Prop :=
  p `prefix_of` la ∧ p `prefix_of` lb ∧
  ∀ q, q `prefix_of` la → q `prefix_of` lb → (length q <= length p)%nat.

Section Common.
Context {A : Type}.
Implicit Types l p q : list A.

Lemma longest_common_unique la lb p p' :
  longest_common la lb p → longest_common la lb p' → p = p'.
Proof.
  intros (H1 & H2 & H3) (H1' & H2' & H3').
  pose proof (H3 _ H1' H2'). pose proof (H3' _ H1 H2).
  destruct (prefix_weak_total p p' la) as [Hp|Hp]; [done|done| |];
    [|symmetry]; apply (prefix_length_eq _ _ Hp); lia.
Qed.

Lemma longest_common_same l : longest_common l l l.
Proof. split_and!; [done|done|]. intros q Hq _. by apply prefix_length. Qed.

Lemma prefix_snoc_cases q l x : q `prefix_of` l ++ [x] → q = l ++ [x] ∨ q `prefix_of` l.
Proof.
  intros [k Hk]. destruct k as [|y k _] using rev_ind; [left; by rewrite app_nil_r in Hk|].
  right. rewrite app_assoc in Hk. apply app_inj_tail in Hk as [-> _]. by exists k.
Qed.

Lemma longest_common_snoc la lb a b p :
  length la = length lb → la ++ [a] ≠ lb ++ [b] → longest_common la lb p →
  longest_common (la ++ [a]) (lb ++ [b]) p.
Proof.
  intros Hl Hne (Ha & Hb & Hm). split_and!; [by apply prefix_app_r|by apply prefix_app_r|].
  intros q Hqa Hqb. apply prefix_snoc_cases in Hqa as [->|Hqa].
  { destruct Hne. apply (prefix_length_eq _ _ Hqb). rewrite !length_app. simpl. lia. }
  apply prefix_snoc_cases in Hqb as [->|Hqb]; [|by apply Hm].
  apply prefix_length in Hqa. rewrite length_app in Hqa. simpl in Hqa. lia.
Qed.

Lemma prefix_take q l n : q `prefix_of` l → (length q <= n)%nat → q `prefix_of` take n l.
Proof. intros [k ->] Hn. rewrite take_app_ge by done. by exists (take (n - length q) k). Qed.

Lemma longest_common_take la lb n p :
  (length la <= n ∨ length lb <= n)%nat → longest_common (take n la) (take n lb) p → longest_common la lb p.
Proof.
  intros Hn (Ha & Hb & Hm). split_and!.
  - etrans; [exact Ha|]. by exists (drop n la); rewrite take_drop.
  - etrans; [exact Hb|]. by exists (drop n lb); rewrite take_drop.
  - intros q Hqa Hqb. assert (length q <= n)%nat.
    { apply prefix_length in Hqa, Hqb. lia. }
    apply Hm; by apply prefix_take.
Qed.

End Common.

Section Ancestors.
Context `{HC : Crypto} `{!CryptoLaws HC} `{HN : Network} `{HM : MathLib} `{HJ : JSON} `{!JSONLaws HJ}.

Context (main : list Block) (known : bytes → option Block) (c0 : Chain).
#[local] Abbreviation here := (reading_from main known c0).

Lemma path_last l hash b :
  path_to known l hash → known hash = Some b → ∃ k, l = k ++ [b] ∧ Height (Header b) = Z.of_nat (length k).
Proof.
  intros Hp Hk. destruct l as [|x k _] using rev_ind; [by destruct Hp|].
  destruct (path_to_last _ _ _ _ Hp) as [_ Hx]. simplify_eq. exists k. split; [done|].
  by apply linked_snoc_height, Hp.
Qed.

Lemma path_parent k b hash :
  path_to known (k ++ [b]) hash → k ≠ [] → path_to known k (PrevHash (Header b)).
Proof.
  intros Hp Hne. rewrite (linked_snoc_prev k b); [|done|apply Hp]. by eapply path_to_prefix.
Qed.

Lemma path_take l hash n :
  path_to known l hash → (0 < n)%nat → path_to known (take n l) (tip_hash [] (take n l)).
Proof.
  intros Hp Hn. apply (path_to_prefix known (take n l) (drop n l) hash); [|by rewrite take_drop].
  destruct Hp as [Hne _]. destruct l, n; try done; lia.
Qed.

(** [a] stands at the end of a path. *)
Definition at_tip (l : list Block) (hash : bytes) (b : Block) : Prop :=
  path_to known l hash ∧ known hash = Some b.

Lemma at_tip_height l hash b : at_tip l hash b → length l = S (Z.to_nat (Height (Header b))) ∧ 0 <= Height (Header b).
Proof.
  intros [Hp Hk]. destruct (path_last _ _ _ Hp Hk) as (k & -> & Hh). rewrite length_app, Hh. simpl. lia.
Qed.

(** One step down. *)
Lemma at_tip_parent l hash b p :
  at_tip l hash b → known (PrevHash (Header b)) = Some p → 0 < Height (Header b) →
  ∃ k, l = k ++ [b] ∧ at_tip k (PrevHash (Header b)) p.
Proof.
  intros [Hp Hk] Hpk Hh. destruct (path_last _ _ _ Hp Hk) as (k & -> & Hhk). exists k. split; [done|].
  split; [|done]. apply (path_parent _ _ _ Hp). intros ->. simpl in Hhk. lia.
Qed.

Lemma descend_triple fuel l hash b limit :
  at_tip l hash b → Height (Header b) < Z.of_nat fuel → 0 <= limit →
  triple here (descend fuel hash b limit)
    (λ '(hash', b') c, here c ∧ at_tip (take (S (Z.to_nat limit)) l) hash' b') (λ _ c, here c).
Proof.
  revert l hash b. induction fuel as [|fuel IH]; intros l hash b Ht Hf Hlim.
  { pose proof (at_tip_height _ _ _ Ht). lia. }
  pose proof (at_tip_height _ _ _ Ht) as [Hlen _]. cbn [descend].
  destruct (Z.ltb_spec limit (Height (Header b))) as [Hlt|Hge]; cycle 1.
  { apply triple_ret. intros c Hc. split; [done|]. rewrite take_ge by lia. done. }
  eapply triple_bind with (R := λ _, here); [by apply triple_check|]. intros _.
  eapply triple_bind; [apply must_get_triple|]. intros p c [Hc Hp].
  destruct (at_tip_parent _ _ _ _ Ht Hp ltac:(lia)) as (k & -> & Htp).
  pose proof (at_tip_height _ _ _ Htp) as [Hlk _]. rewrite length_app in Hlen. simpl in Hlen.
  rewrite take_app_le by lia. apply (IH k); [done|lia|done|done].
Qed.

Lemma descend_both_triple fuel la lb aHash bHash a b :
  at_tip la aHash a → at_tip lb bHash b → length la = length lb → (length la <= fuel)%nat →
  triple here (descend_both fuel aHash bHash a b)
    (λ '(hash, x) c, here c ∧ ∃ p, longest_common la lb p ∧ at_tip p hash x) (λ _ c, here c).
Proof.
  revert la lb aHash bHash a b. induction fuel as [|fuel IH]; intros la lb aHash bHash a b Ha Hb Hl Hf.
  { destruct Ha as [[] _]. by destruct la; simpl in Hf; [|lia]. }
  cbn [descend_both]. case_decide as Heq.
  { subst bHash. apply triple_ret. intros c Hc. split; [done|]. exists la.
    rewrite (path_to_unique _ _ _ _ (proj1 Hb) (proj1 Ha)). split; [apply longest_common_same|done]. }
  pose proof (at_tip_height _ _ _ Ha) as [Hla Hga]. pose proof (at_tip_height _ _ _ Hb) as [Hlb Hgb].
  eapply triple_bind with (R := λ _ c, here c ∧ 0 < Height (Header a) ∧ 0 < Height (Header b)).
  { apply triple_check; [|done]. intros c Hz Hc. simpl_bools. split; [done|lia]. }
  intros _. eapply triple_bind with (R := λ r c, here c ∧ (0 < Height (Header a) ∧ 0 < Height (Header b)) ∧
    ∀ x, r = Some x → known (PrevHash (Header a)) = Some x).
  { intros c [Hc Hz]. specialize (getBlockByHash_triple main known c0 (PrevHash (Header a)) c Hc).
    destruct (getBlockByHash _ c) as [[r|e|] c']; [|done|done]. by intros [? ?]. }
  intros ra. eapply triple_bind with (R := λ r c, here c ∧ (0 < Height (Header a) ∧ 0 < Height (Header b)) ∧
    (∀ x, ra = Some x → known (PrevHash (Header a)) = Some x) ∧
    (∀ x, r = Some x → known (PrevHash (Header b)) = Some x)).
  { intros c (Hc & Hz & Hra). specialize (getBlockByHash_triple main known c0 (PrevHash (Header b)) c Hc).
    destruct (getBlockByHash _ c) as [[r|e|] c']; [|done|done]. by intros [? ?]. }
  intros rb c (Hc & [Hza Hzb] & Hra & Hrb).
  destruct ra as [xa|]; [|done]. destruct rb as [xb|]; [|done].
  specialize (Hra xa eq_refl). specialize (Hrb xb eq_refl).
  destruct (at_tip_parent _ _ _ _ Ha Hra Hza) as (ka & -> & Hka).
  destruct (at_tip_parent _ _ _ _ Hb Hrb Hzb) as (kb & -> & Hkb).
  rewrite !length_app in Hl. rewrite length_app in Hf. simpl in Hl, Hf.
  specialize (IH ka kb _ _ _ _ Hka Hkb ltac:(lia) ltac:(lia) c Hc).
  destruct (descend_both fuel _ _ xa xb c) as [[[hash x]|e|] c']; [|done|done].
  destruct IH as (Hc' & p & Hlc & Hp). split; [done|]. exists p. split; [|done].
  apply longest_common_snoc; [lia| |done]. intros E. apply Heq.
  destruct Ha as [(_ & _ & <- & _) _], Hb as [(_ & _ & <- & _) _]. by rewrite E.
Qed.

(** [findCommonAncestorLocked] finds the end of the longest common prefix of
    the two branches. *)
Lemma findCommonAncestor_triple aTip bTip :
  triple here (findCommonAncestor aTip bTip)
    (λ '(hash, h) c, here c ∧ ∃ la lb p, path_to known la aTip ∧ path_to known lb bTip ∧
       longest_common la lb p ∧ path_to known p hash ∧ h = Z.of_nat (length p) - 1) (λ _ c, here c).
Proof.
  unfold findCommonAncestor. eapply triple_bind; [apply must_get_triple|]. intros a.
  intros c [Hc Ha]. revert c Hc. eapply triple_bind; [apply must_get_triple|]. intros b.
  intros c [Hc Hb]. pose proof (co_tree _ _ _ (proj1 Hc)) as Ht. revert c Hc.
  destruct (Ht _ _ Ha) as (ka & Hga & _). destruct (Ht _ _ Hb) as (kb & Hgb & _).
  assert (at_tip (ka ++ [a]) aTip a) as Hta by done. assert (at_tip (kb ++ [b]) bTip b) as Htb by done.
  set (la := ka ++ [a]) in *. set (lb := kb ++ [b]) in *.
  pose proof (at_tip_height _ _ _ Hta) as [Hla Hha]. pose proof (at_tip_height _ _ _ Htb) as [Hlb Hhb].
  eapply triple_bind; [apply (descend_triple _ _ _ _ _ Hta); [|done]|].
  { rewrite Nat2Z.inj_succ, Nat2Z.inj_add. lia. }
  intros [aHash a']. intros c [Hc Hta']. revert c Hc.
  pose proof (at_tip_height _ _ _ Hta') as [Hla' Hha']. rewrite length_take in Hla'.
  eapply triple_bind; [apply (descend_triple _ _ _ _ _ Htb); [|done]|].
  { rewrite Nat2Z.inj_succ, Nat2Z.inj_add. lia. }
  intros [bHash b']. intros c [Hc Htb']. revert c Hc.
  set (n := S (Z.to_nat (Height (Header a')))) in *.
  assert (take (S (Z.to_nat (Height (Header b)))) la = take n la) as Et.
  { rewrite <- Hlb. destruct (decide (length la <= length lb)%nat).
    - rewrite !take_ge by lia. done.
    - replace n with (length lb) by lia. done. }
  rewrite Et in Hta'.
  eapply triple_bind; [apply (descend_both_triple _ _ _ _ _ _ _ Hta' Htb'); rewrite !length_take; lia|].
  intros [hash x]. apply triple_ret. intros c (Hc & p & Hlc & Hp). split; [done|].
  exists la, lb, p. split_and!; [apply Hta|apply Htb| |apply Hp|].
  - apply (longest_common_take la lb n); [|done]. lia.
  - pose proof (at_tip_height _ _ _ Hp) as [-> ?]. lia.
Qed.

(** ** Blocks to connect *)

Lemma connect_path_triple fuel l commonHash lc current :
  path_to known l current → path_to known lc commonHash → (length l <= fuel)%nat →
  triple here (connect_path_rev fuel commonHash current)
    (λ r c, here c ∧ l = lc ++ reverse r) (λ _ c, here c).
Proof.
  revert l current. induction fuel as [|fuel IH]; intros l current Hl Hlc Hf.
  { destruct Hl as [Hne _]. by destruct l; simpl in Hf; [|lia]. }
  cbn [connect_path_rev]. case_decide as Heq.
  { subst. apply triple_ret. intros c Hc. split; [done|]. rewrite app_nil_r. by eapply path_to_unique. }
  eapply triple_bind; [apply must_get_triple|]. intros b c [Hc Hb]. revert c Hc.
  destruct (path_last _ _ _ Hl Hb) as (k & -> & Hh). rewrite length_app in Hf. simpl in Hf.
  eapply triple_bind with (R := λ _ c, here c ∧ 0 < Height (Header b)).
  { apply triple_check; [|done]. intros c Hz Hc. simpl_bools. split; [done|]. lia. }
  intros _ c [Hc Hz]. revert c Hc.
  assert (path_to known k (PrevHash (Header b))) as Hk.
  { apply (path_parent _ _ _ Hl). intros ->. simpl in Hh. lia. }
  eapply triple_bind; [apply (IH k _ Hk Hlc); lia|]. intros r. apply triple_ret. intros c [Hc ->].
  split; [done|]. rewrite reverse_cons, app_assoc. done.
Qed.

Lemma collectConnectPath_triple l commonHash lc newTip :
  path_to known l newTip → path_to known lc commonHash →
  triple here (collectConnectPath commonHash newTip) (λ r c, here c ∧ l = lc ++ r) (λ _ c, here c).
Proof.
  intros Hl Hlc. unfold collectConnectPath. apply triple_get. intros c Hc.
  eapply triple_bind with (R := λ r c, here c ∧ l = lc ++ reverse r); [|intros r; by apply triple_ret].
  unfold walk_fuel. destruct (peek c newTip) as [b|] eqn:Hp.
  - pose proof (peek_known _ _ _ _ _ (proj1 Hc) Hp) as Hb.
    destruct (path_last _ _ _ Hl Hb) as (k & El & Hh).
    eapply triple_weaken; [apply (connect_path_triple _ _ _ _ _ Hl Hlc)| |done|done]; [|by intros ? ->].
    simpl. rewrite El, length_app. simpl. lia.
  - intros ? ->. cbn [connect_path_rev fmap option_fmap option_map default]. case_decide as Heq.
    { subst. cbn. split; [done|]. rewrite app_nil_r. by eapply path_to_unique. }
    destruct (getBlockByHash_core _ _ _ newTip (proj1 Hc)) as (c' & E & H' & Hs & _).
    unfold must_get, mbind, M_bind. rewrite E, Hp. cbn. split; [done|]. etrans; [apply Hc|done].
Qed.

(** ** Blocks to disconnect *)

Lemma getBlockByHeight_known c h b : core main known c → getBlockByHeight c h = Some b → known (BlockHash b) = Some b.
Proof.
  intros H E. pose proof (co_tree _ _ _ H) as Ht.
  assert (∃ hash, known hash = Some b) as [hash Hk]; [|by rewrite (tree_hash _ _ _ Ht Hk)].
  unfold getBlockByHeight in E.
  destruct (match byHeight c !! h with Some hash => blocks c !! hash | None => None end) as [x|] eqn:Ec.
  - destruct (byHeight c !! h) as [hash|]; [|done]. simplify_eq. exists hash. by apply (co_cached _ _ _ H).
  - destruct (GetBlockHashByHeight _ _) as [hash|]; [|done]. exists hash.
    rewrite (GetBlock_db_stored _ _ _ _ H) in E. by apply (co_stored _ _ _ H).
Qed.

(** The main-chain block at a height. *)
Lemma getBlockByHeight_main c i : core main known c → is_u64 i → getBlockByHeight c i = main !! Z.to_nat i.
Proof.
  intros H Hi. pose proof (co_rep _ _ _ H) as R.
  pose proof (co_main _ _ _ H) as ((_ & _ & _ & Hk) & _). unfold getBlockByHeight.
  destruct (match byHeight c !! i with Some hash => blocks c !! hash | None => None end) as [x|] eqn:Ec.
  - destruct (byHeight c !! i) as [hash|] eqn:Eb; [|done]. apply (co_cached _ _ _ H) in Ec.
    apply (co_byHeight _ _ _ H) in Eb as [_ (y & Hy & ->)%fmap_Some].
    rewrite (Hk y) in Ec by (by eapply list_elem_of_lookup_2). by simplify_eq.
  - unfold GetBlockHashByHeight, View. rewrite (rep_heights _ _ _ R) by done.
    destruct (main !! Z.to_nat i) as [b|] eqn:Eb; [|done]. cbn [fmap option_fmap option_map].
    rewrite copy32_id by apply BlockHash_length. rewrite (GetBlock_db_stored _ _ _ _ H).
    by rewrite (rep_blocks _ _ _ R _ _ Eb).
Qed.

Lemma collect_disconnect_spec c n h :
  core main known c →
  match collect_disconnect c n h with
  | Ok r => length r = n ∧ ∀ b, b ∈ r → known (BlockHash b) = Some b
  | Err _ => True
  | Panic => False
  end.
Proof.
  intros H. revert h. induction n as [|n IH]; intros h; cbn [collect_disconnect]; [split; [done|set_solver]|].
  destruct (getBlockByHeight c h) as [b|] eqn:E; [|done]. specialize (IH (h - 1)).
  destruct (collect_disconnect c n (h - 1)) as [r|e|]; simpl; [|done|done].
  destruct IH as [<- Hr]. split; [done|]. intros x [->|Hx]%elem_of_cons; [|by apply Hr].
  by eapply getBlockByHeight_known.
Qed.

Lemma tree_sound hash b : tree_ok known → known hash = Some b → sound_block b.
Proof.
  intros Ht Hk. destruct (Ht _ _ Hk) as (l & _ & _ & Hs & _). apply Forall_app in Hs as [_ Hs].
  by rewrite Forall_singleton in Hs.
Qed.

End Ancestors.
