(* ===== verification/Windows.v ===== *)
(** * Windows of a branch

    The rules for difficulty and time are stated over a walk from a block to
    its ancestors.  Along a branch of the tree the walk is the end of the
    branch, so that every way the code computes a rule — from the parent
    links, from the height index, or from a flat slice of the main chain —
    is a function of the same list of blocks. *)

From S2P Require Import Prelude Bytes Crypto Pow Transaction Block ExchangeSort Consensus Hoare Reads Difficulty Memo Emission Validation Storage StorageFacts Chain Cache ChainInv Branches Ancestors.

(** The last [n] elements. *)
Definition lastn {A} (n : nat) (l : list A) : list A := drop (length l - n) l.

Lemma lastn_snoc {A} n (l : list A) x : lastn (S n) (l ++ [x]) = lastn n l ++ [x].
Proof. unfold lastn. rewrite length_app. cbn [length]. rewrite drop_app_le by lia. do 2 f_equal. lia. Qed.

Lemma lastn_snoc_push {A} n (l : list A) x :
  lastn (S n) (l ++ [x]) = (if decide (S n < S (length (lastn (S n) l)))%nat then drop 1 (lastn (S n) l) else lastn (S n) l) ++ [x].
Proof.
  rewrite lastn_snoc. f_equal. unfold lastn. rewrite length_drop. case_decide.
  - rewrite drop_drop. f_equal. lia.
  - destruct (decide (length l = S n)); [lia|]. f_equal. lia.
Qed.

Lemma lastn_drop {A} n k (l : list A) : (k + n <= length l)%nat ∨ k = 0%nat → lastn n (drop k l) = lastn n l.
Proof.
  intros [Hk| ->]; [|by rewrite drop_0]. unfold lastn. rewrite length_drop, drop_drop. f_equal. lia.
Qed.

Lemma length_lastn {A} n (l : list A) : length (lastn n l) = Nat.min n (length l).
Proof. unfold lastn. rewrite length_drop. lia. Qed.

Lemma fmap_lastn {A B} (f : A → B) n (l : list A) : f <$> lastn n l = lastn n (f <$> l).
Proof. unfold lastn. by rewrite fmap_drop, length_fmap. Qed.

(** ** The rules on a list of blocks, oldest first *)

(** The difficulty required after the branch [l]. *)
Definition branch_difficulty (l : list Block) : result Z :=
  if Z.of_nat (length l) <=? Z.of_nat LWMAWindow then Ok MinDifficulty
  else match lwma (nthZ (lastn (S LWMAWindow) l)) with Some d => Ok d | None => Panic end.

(** The median time after the branch [l]. *)
Definition branch_median (l : list Block) (n : nat) : option Z :=
  median_of (lastn n ((λ b, Timestamp (Header b)) <$> l)).

Lemma branch_difficulty_total l : ∃ d, branch_difficulty l = Ok d.
Proof.
  unfold branch_difficulty. destruct (Z.leb_spec (Z.of_nat (length l)) (Z.of_nat LWMAWindow)); [eauto|].
  destruct (lwma_total (nthZ (lastn (S LWMAWindow) l))) as [d ->]; [|eauto].
  intros j Hj. apply nthZ_is_Some. rewrite length_lastn. lia.
Qed.

Section Windows.
Context `{HC : Crypto} `{!CryptoLaws HC} (known : bytes → option Block).

Lemma path_snoc_parent l b hash :
  path_to known (l ++ [b]) hash → l ≠ [] →
  ∃ k p, l = k ++ [p] ∧ path_to known (k ++ [p]) (PrevHash (Header b)) ∧ known (PrevHash (Header b)) = Some p.
Proof.
  intros Hp Hne. destruct l as [|p k _] using rev_ind; [done|]. exists k, p. split; [done|].
  pose proof (path_parent known _ _ _ Hp Hne) as Hpp. split; [done|]. by destruct (path_to_last _ _ _ _ Hpp).
Qed.

Lemma window_path n l b hash :
  path_to known (l ++ [b]) hash → (n <= length l)%nat → window known n b = Ok (lastn (S n) (l ++ [b])).
Proof.
  revert l b hash. induction n as [|n IH]; intros l b hash Hp Hn; cbn [window].
  { rewrite lastn_snoc. unfold lastn. by rewrite drop_ge by lia. }
  pose proof (linked_snoc_height _ _ (proj1 (proj2 Hp))) as Hh. rewrite (proj2 (Z.eqb_neq _ _)) by lia.
  destruct (path_snoc_parent _ _ _ Hp) as (k & p & -> & Hpp & ->); [by destruct l; simpl in Hn; [lia|]|].
  rewrite length_app in Hn. cbn in Hn. rewrite (IH _ _ _ Hpp) by lia. cbn. by rewrite (lastn_snoc (S n)).
Qed.

Lemma back_timestamps_path n l b hash :
  path_to known (l ++ [b]) hash →
  back_timestamps known n (Some b) = reverse (lastn n ((λ b, Timestamp (Header b)) <$> l ++ [b])).
Proof.
  revert l b hash. induction n as [|n IH]; intros l b hash Hp; cbn [back_timestamps].
  { unfold lastn. by rewrite drop_ge by lia. }
  pose proof (linked_snoc_height _ _ (proj1 (proj2 Hp))) as Hh.
  rewrite fmap_app. cbn [fmap list_fmap]. rewrite lastn_snoc, reverse_snoc.
  destruct (Z.eqb_spec (Height (Header b)) 0) as [E|E].
  - destruct l; [|simpl in Hh; lia]. by unfold lastn.
  - destruct (path_snoc_parent _ _ _ Hp) as (k & p & -> & Hpp & ->); [by intros ->; simpl in Hh; lia|].
    f_equal. by eapply IH.
Qed.

(** The consensus rules of a branch. *)
Lemma expected_difficulty_path l b hash :
  path_to known (l ++ [b]) hash → expected_difficulty known b = branch_difficulty (l ++ [b]).
Proof.
  intros Hp. pose proof (linked_snoc_height _ _ (proj1 (proj2 Hp))) as Hh.
  unfold expected_difficulty, branch_difficulty. rewrite Hh, length_app. cbn [length].
  destruct (Z.ltb_spec (Z.of_nat (length l)) (Z.of_nat LWMAWindow));
    destruct (Z.leb_spec (Z.of_nat (length l + 1)) (Z.of_nat LWMAWindow)); try lia; [done|].
  rewrite (window_path _ _ _ _ Hp) by lia. done.
Qed.

Lemma median_time_path l b hash n :
  path_to known (l ++ [b]) hash → n ≠ 0%nat →
  ∃ m, median_time known b n = Ok m ∧ branch_median (l ++ [b]) n = Some m.
Proof.
  intros Hp Hn. unfold median_time, branch_median. rewrite decide_False by done.
  rewrite (back_timestamps_path _ _ _ _ Hp).
  set (ts := lastn n _). assert (ts ≠ []) as Hne.
  { intros E. assert (length ts = 0%nat) as El by by rewrite E.
    unfold ts in El. rewrite length_lastn, length_fmap, length_app in El. simpl in El. lia. }
  destruct (median_total ts Hne) as (m & Em & _). exists m. split; [|done].
  rewrite decide_False by (intros E%(f_equal reverse); rewrite reverse_involutive in E; done).
  by rewrite (median_perm _ ts (reverse_Permutation ts)), Em.
Qed.

End Windows.
