(* ===== verification/Learn.v ===== *)
(** * A new block in the tree

    A block that passes validation extends the tree of known blocks by one
    branch.  Until it is on disk it is [pending]: it lives in the block cache
    only, and forgetting it restores the invariant of the tree before. *)

From S2P Require Import Prelude Bytes Crypto Pow Transaction TxCodec Block ExchangeSort Consensus Hoare Reads Difficulty Memo Emission Validation Validity Storage StorageFacts Commit Chain Cache ChainInv Branches Ancestors.

Section Learn.
Context `{HC : Crypto} `{!CryptoLaws HC} `{HN : Network} `{HM : MathLib} `{HJ : JSON} `{!JSONLaws HJ}.
Implicit Types known : bytes → option Block.

(** The tree with one more block. *)
Definition learn known (b : Block) : bytes → option Block :=
  λ hash, if decide (hash = BlockHash b) then Some b else known hash.

Definition extends known known' : Prop := ∀ hash b, known hash = Some b → known' hash = Some b.

Lemma learn_extends known b : known (BlockHash b) = None → extends known (learn known b).
Proof. intros Hn hash x Hx. unfold learn. case_decide; [congruence|done]. Qed.

Lemma learn_self known b : learn known b (BlockHash b) = Some b.
Proof. unfold learn. by rewrite decide_True. Qed.

Lemma path_to_mono known known' l hash : extends known known' → path_to known l hash → path_to known' l hash.
Proof. intros He (? & ? & ? & Hk). split_and!; [done..|]. intros b Hb. by apply He, Hk. Qed.

Lemma good_path_mono known known' l hash : extends known known' → good_path known l hash → good_path known' l hash.
Proof. intros He (Hp & ?). split; [by eapply path_to_mono|done]. Qed.

Lemma core_mono main known known' c : extends known known' → tree_ok known' → core main known c → core main known' c.
Proof.
  intros He Ht []. split; try done; eauto using good_path_mono.
  intros hash w Hw. destruct (co_workAt hash w Hw) as (l & ? & ?). eauto using path_to_mono.
Qed.

Lemma tree_learn known b l :
  tree_ok known → known (BlockHash b) = None → good_path (learn known b) (l ++ [b]) (BlockHash b) →
  tree_ok (learn known b).
Proof.
  intros Ht Hn Hg hash x Hx. unfold learn in Hx. case_decide as Hd.
  - simplify_eq. by exists l.
  - destruct (Ht _ _ Hx) as (k & Hk). exists k. by eapply good_path_mono; [apply learn_extends|].
Qed.

(** ** Valid blocks extend the tree *)

Lemma elem_of_block_key_images b ki :
  ki ∈ block_key_images b → ∃ tx i, tx ∈ Transactions b ∧ IsCoinbase tx = false ∧ i ∈ Inputs tx ∧ KeyImage i = ki.
Proof.
  unfold block_key_images, txs_key_images. rewrite elem_of_concat. intros (kis & Hk & (tx & -> & Htx)%list_elem_of_fmap).
  apply list_elem_of_filter in Htx as [Hc Htx]. unfold key_images in Hk.
  apply list_elem_of_fmap in Hk as (i & -> & Hi). eauto 10.
Qed.

Lemma valid_unspent sp can b ki :
  Forall (valid_tx sp can) (Transactions b) → ki ∈ block_key_images b → sp ki = false.
Proof.
  intros Hv (tx & i & Htx & Hc & Hi & <-)%elem_of_block_key_images.
  rewrite Forall_forall in Hv. destruct (Hv _ Htx) as (_ & [(Hin & _)|(_ & _ & Hin & _)]).
  - rewrite Hin in Hi. set_solver.
  - rewrite Forall_forall in Hin. apply Hin in Hi. apply Hi.
Qed.

Lemma chain_key_images_snoc l b : chain_key_images (l ++ [b]) = chain_key_images l ++ block_key_images b.
Proof. rewrite chain_key_images_app. unfold chain_key_images at 2. simpl. by rewrite app_nil_r. Qed.

Lemma branch_work_snoc l b : branch_work (l ++ [b]) = branch_work l + Difficulty (Header b).
Proof. rewrite branch_work_app. unfold branch_work at 2. simpl. lia. Qed.

Lemma valid_extends main known now skip b l :
  tree_ok known → known (BlockHash b) = None → Forall wf_tx (Transactions b) → parent_branch known b l →
  valid_block now known (branch_spends main l) (main_ring_member main) skip b →
  branch_work l + Difficulty (Header b) < 2 ^ 64 →
  good_path (learn known b) (l ++ [b]) (BlockHash b).
Proof.
  intros Ht Hn Hwf Hpb [_ Hv] Hw. pose proof (learn_extends known b Hn) as He.
  assert (∀ x, x ∈ [b] → learn known b (BlockHash x) = Some x) as Hlb.
  { intros x ->%list_elem_of_singleton. apply learn_self. }
  unfold parent_branch in Hpb. destruct Hv as [[Hz (_ & _ & _ & Hd & _ & Htx)]|(Hz & p & Hp & Hl & _ & Hbody)].
  { rewrite Hz in Hpb. cbn in Hpb. subst l. split; [|split_and!].
    - by split_and!; [| |apply (tip_hash_snoc [] [])|].
    - rewrite chain_key_images_snoc. unfold block_key_images. rewrite Htx. constructor.
    - apply Forall_singleton. split; [lia|]. by rewrite Htx.
    - by rewrite branch_work_snoc. }
  destruct Hl as (Hh & _ & _ & Hmin & _). pose proof (tree_height _ _ _ Ht Hp) as Hph.
  rewrite u64_small in Hh by (unfold_ints; lia). rewrite (proj2 (Z.ltb_lt _ _)) in Hpb by lia.
  destruct (path_last _ _ _ _ Hpb Hp) as (k & El & Hk).
  destruct (Ht _ _ Hp) as (k' & Hg). pose proof (path_to_unique _ _ _ _ Hpb (proj1 Hg)) as E. rewrite <- E in Hg.
  destruct Hg as (_ & Hnd & Hs & _). destruct Hbody as (_ & _ & Htxs & Hndb & _).
  split; [|split_and!].
  - split_and!; [by destruct l| |by rewrite tip_hash_snoc|].
    + apply (linked_app_branch l [b] []); [apply Hpb|apply Hpb|]. destruct Hpb as (_ & _ & -> & _).
      split; [done|]. split; [|done]. rewrite Hh, Hk, El, length_app. simpl. lia.
    + intros x [Hx|Hx]%elem_of_app; [|by apply Hlb]. by apply He, Hpb.
  - rewrite chain_key_images_snoc. apply NoDup_app. split_and!; [done| |done].
    intros ki Hki Hb. pose proof (valid_unspent _ _ _ _ Htxs Hb) as Hsp.
    unfold branch_spends in Hsp. rewrite bool_decide_eq_false, elem_of_app in Hsp. tauto.
  - apply Forall_app. split; [done|]. apply Forall_singleton. split; [done|].
    apply Forall_forall. intros tx Hin. rewrite Forall_forall in Hwf, Htxs.
    split; [by apply Hwf|]. by eapply valid_tx_rings_match, Htxs.
  - by rewrite branch_work_snoc.
Qed.

(** ** Pending blocks *)

Record pending main known b c : Prop := {
  pe_core : core main (learn known b) c;
  pe_settled : settled known c;
  pe_stored : ∀ hash x, stored (db (storage c)) hash = Some x → known hash = Some x;
}.

Lemma pending_reading main known b c0 c :
  pending main known b c0 → reading_from main (learn known b) c0 c → pending main known b c.
Proof.
  intros [_ Hs Hst] [H Ss]. split; [done|by eapply settled_same|]. by rewrite (ss_storage _ _ Ss).
Qed.

(** The path of an old block stays in the old tree. *)
Lemma path_to_old known b l hash :
  tree_ok known → known (BlockHash b) = None → hash ≠ BlockHash b →
  path_to (learn known b) l hash → path_to known l hash.
Proof.
  intros Ht Hn Hne Hp. destruct l as [|x l _] using rev_ind; [by destruct Hp|].
  destruct (path_to_last _ _ _ _ Hp) as [_ Hx]. unfold learn in Hx. rewrite decide_False in Hx by done.
  destruct (Ht _ _ Hx) as (k & Hk & _).
  assert (path_to (learn known b) (k ++ [x]) hash) as Hk' by (eapply path_to_mono; [by apply learn_extends|done]).
  by rewrite (path_to_unique _ _ _ _ Hp Hk').
Qed.

Lemma cacheForget_core main known b c :
  tree_ok known → known (BlockHash b) = None → good_path known main (tip_hash [] main) → pending main known b c →
  chain_inv main known (cacheForget (BlockHash b) c).
Proof.
  intros Ht Hn Hm [H Hs Hst]. pose proof (cacheForget_evicts (BlockHash b) c) as Ev.
  assert (core main (learn known b) (cacheForget (BlockHash b) c)) as H'.
  { eapply core_evicts; [done|done|]. apply cacheForget_lru, H. }
  pose proof (evicts_same _ _ Ev) as Ss.
  split; [|by eapply settled_same]. rewrite <- (co_best _ _ _ H') in Hm. destruct H'. split; try done.
  - intros hash x Hx. pose proof (co_cached hash x Hx) as Hl. unfold learn in Hl. case_decide as Hd; [|done].
    subst hash. by rewrite cacheForget_blocks, lookup_delete_eq in Hx.
  - by rewrite (ss_storage _ _ Ss).
  - intros hash w Hx. destruct (co_workAt hash w Hx) as (l & Hp & ->). exists l. split; [|done].
    apply (path_to_old _ b); [done|done| |done]. intros ->. revert Hx.
    unfold cacheForget. case_decide; cbn; by rewrite lookup_delete_eq.
Qed.

End Learn.
