(* ===== verification/Reorg.v ===== *)
(** * Reorganizations

    [reorganizeTo] replaces a suffix of the main chain: on disk by one
    transaction, then in memory.  If it fails, nothing but caches changed. *)

From S2P Require Import Prelude Bytes Crypto Pow Transaction TxCodec Block ExchangeSort Consensus Hoare Reads Difficulty Memo Emission Validation Validity Storage StorageFacts Commit Chain Cache ChainInv Branches Ancestors Learn.

(** ** The in-memory loops *)

Lemma lookup_foldl_record (l : list bytes) (m : gmap bytes Z) v ki :
  is_Some ((foldl (λ m k, <[k := v]> m) m l) !! ki) → ki ∈ l ∨ is_Some (m !! ki).
Proof.
  revert m. induction l as [|k l IH]; intros m; cbn [foldl]; [by right|].
  intros [?|Hi]%IH; [left; by right|]. destruct (decide (ki = k)) as [->|]; [left; by left|].
  right. by rewrite lookup_insert_ne in Hi.
Qed.

Lemma lookup_foldl_forget (l : list bytes) (m : gmap bytes Z) ki :
  is_Some ((foldl (λ m k, delete k m) m l) !! ki) → (ki ∉ l) ∧ is_Some (m !! ki).
Proof.
  revert m. induction l as [|k l IH]; intros m; cbn [foldl]; [by split; [apply not_elem_of_nil|]|].
  intros [Hl Hi]%IH. destruct (decide (ki = k)) as [->|]; [by rewrite lookup_delete_eq in Hi; destruct Hi|].
  rewrite lookup_delete_ne in Hi by done. by rewrite not_elem_of_cons.
Qed.

Section Memory.
Context `{HC : Crypto}.

(** [c'] differs from [c] in the height index, the key images, the recent
    timestamps and the order of the cache. *)
Record relinked (c c' : Chain) : Prop := {
  rl_storage : storage c' = storage c;
  rl_blocks : blocks c' = blocks c;
  rl_workAt : workAt c' = workAt c;
  rl_cap : cacheCap c' = cacheCap c;
  rl_best : bestHash c' = bestHash c;
  rl_height : height c' = height c;
  rl_work : totalWork c' = totalWork c;
  rl_checkpoints : trustedCheckpoints c' = trustedCheckpoints c;
  rl_fastSync : fastSyncUntilHeight c' = fastSyncUntilHeight c;
  rl_lru : lru_ok c → lru_ok c';
}.

#[global] Instance relinked_preorder : PreOrder relinked.
Proof. split; [by split|]. intros c1 c2 c3 [] []. split; try (etrans; eassumption). auto. Qed.

Lemma cacheTouch_relinked hash c : relinked c (cacheTouch hash c).
Proof.
  pose proof (cacheTouch_evicts hash c) as Ev. destruct Ev.
  split; try done; [apply cacheTouch_blocks|apply cacheTouch_workAt|apply cacheTouch_lru].
Qed.

Lemma unlink_relinked c b : relinked c (unlink_block c b).
Proof. split; try done. by intros []. Qed.

Lemma link_relinked c b : relinked c (link_block c b).
Proof.
  etrans; [apply (cacheTouch_relinked (BlockHash b))|]. split; try done. by intros [].
Qed.

Lemma set_tip_relinked newTip h w c c' : relinked c c' → relinked (set_tip newTip h w c) (set_tip newTip h w c').
Proof.
  intros []. split; try done. intros [Hd Hi Hb]. by destruct (rl_lru0 ltac:(by split)).
Qed.

Lemma unlink_blocks_spec l c :
  relinked c (foldl unlink_block c l) ∧
  (∀ h hash, byHeight (foldl unlink_block c l) !! h = Some hash →
     byHeight c !! h = Some hash ∧ ∀ b, b ∈ l → Height (Header b) ≠ h) ∧
  (∀ ki, is_Some (keyImages (foldl unlink_block c l) !! ki) →
     is_Some (keyImages c !! ki) ∧ ki ∉ chain_key_images l).
Proof.
  revert c. induction l as [|b l IH]; intros c; cbn [foldl].
  { split_and!; [done|intros; split; [done|set_solver]|intros; split; [done|apply not_elem_of_nil]]. }
  destruct (IH (unlink_block c b)) as (Hr & Hh & Hk). split_and!.
  - etrans; [apply unlink_relinked|done].
  - intros h hash Hx. apply Hh in Hx as [Hx Hl]. cbn in Hx.
    apply lookup_delete_Some in Hx as [Hne Hx]. split; [done|]. intros x [->|Hi]%elem_of_cons; auto.
  - intros ki Hx. apply Hk in Hx as [Hx Hl]. cbn in Hx. apply lookup_foldl_forget in Hx as [Hn Hx].
    split; [done|]. unfold chain_key_images in *. cbn. rewrite elem_of_app. tauto.
Qed.

Lemma link_blocks_spec l c :
  relinked c (foldl link_block c l) ∧
  (∀ h hash, byHeight (foldl link_block c l) !! h = Some hash →
     byHeight c !! h = Some hash ∨ ∃ b, b ∈ l ∧ Height (Header b) = h ∧ BlockHash b = hash) ∧
  (∀ ki, is_Some (keyImages (foldl link_block c l) !! ki) →
     is_Some (keyImages c !! ki) ∨ ki ∈ chain_key_images l).
Proof.
  revert c. induction l as [|b l IH]; intros c; cbn [foldl].
  { split_and!; [done|by left|by left]. }
  destruct (IH (link_block c b)) as (Hr & Hh & Hk).
  pose proof (cacheTouch_evicts (BlockHash b) c) as Ev. split_and!.
  - etrans; [apply link_relinked|done].
  - intros h hash Hx. apply Hh in Hx as [Hx|(x & Hi & ?)].
    + cbn in Hx. apply lookup_insert_Some in Hx as [[<- <-]|[_ Hx]].
      * right. exists b. split; [by left|done].
      * left. by rewrite (ev_byHeight _ _ Ev) in Hx.
    + right. exists x. split; [by right|done].
  - intros ki Hx. unfold chain_key_images in *. cbn. rewrite elem_of_app. apply Hk in Hx as [Hx|Hx]; [|tauto].
    cbn in Hx. apply lookup_foldl_record in Hx as [Hx|Hx]; [tauto|].
    left. by rewrite (ev_keyImages _ _ Ev) in Hx.
Qed.

End Memory.

Section Reorg.
Context `{HC : Crypto} `{!CryptoLaws HC} `{HN : Network} `{HM : MathLib} `{HJ : JSON} `{!JSONLaws HJ}.

(** ** The new state *)

(** The main chain switches from [base ++ reverse disc] to [base ++ conn]. *)
Lemma core_switch main known c base disc conn hash w c' :
  core main known c → main = base ++ reverse disc →
  represents (db (storage c')) (base ++ conn) w → store_grows known conn (db (storage c)) (db (storage c')) →
  good_path known (base ++ conn) hash → w = branch_work (base ++ conn) →
  bestHash c' = hash → height c' = Z.of_nat (length (base ++ conn)) - 1 → totalWork c' = w →
  blocks c' = blocks c → workAt c' = workAt c → cacheCap c' = cacheCap c → lru_ok c' →
  canonicalRingIndexDirty c' = true →
  (∀ h x, byHeight c' !! h = Some x →
     (byHeight c !! h = Some x ∧ ∀ b, b ∈ disc → Height (Header b) ≠ h) ∨
     ∃ b, b ∈ conn ∧ Height (Header b) = h ∧ BlockHash b = x) →
  (∀ ki, is_Some (keyImages c' !! ki) →
     (is_Some (keyImages c !! ki) ∧ ki ∉ chain_key_images disc) ∨ ki ∈ chain_key_images conn) →
  core (base ++ conn) known c'.
Proof.
  intros H Em R Hg Hp Hw Eb Eh Et Ebl Ewk Ecap Hl Hd Hbh Hki. subst hash w.
  split; rewrite ?Ebl, ?Ewk, ?Ecap; try done.
  - by rewrite Et.
  - symmetry. apply Hp.
  - apply H.
  - apply H.
  - apply (grows_view _ _ _ _ Hg).
  - apply (grows_decodes _ _ _ _ Hg), (co_decodes _ _ _ H).
  - apply H.
  - intros h x [[Hx Hn]|(b & Hb & <- & <-)]%Hbh.
    + apply (co_byHeight _ _ _ H) in Hx as [Hh Hx]. split; [done|]. rewrite Em in Hx.
      destruct (decide (Z.to_nat h < length base)%nat) as [Hlt|Hge].
      { by rewrite lookup_app_l in Hx |- * by done. }
      apply fmap_Some in Hx as (b & Hb & ->). destruct (Hn b); cycle 1.
      * pose proof (co_main _ _ _ H) as ((_ & Hlk & _) & _). rewrite Em in Hlk.
        rewrite (linked_height _ _ _ Hlk Hb). lia.
      * rewrite lookup_app_r in Hb by lia. apply list_elem_of_lookup_2 in Hb. by rewrite elem_of_reverse in Hb.
    + apply list_elem_of_lookup in Hb as [i Hi]. assert ((base ++ conn) !! (length base + i)%nat = Some b) as Hb.
      { rewrite lookup_app_r by lia. by replace (length base + i - length base)%nat with i by lia. }
      rewrite (linked_height _ _ _ (proj1 (proj2 (proj1 Hp))) Hb). rewrite Nat2Z.id, Hb. split; [lia|done].
  - intros ki Hk. rewrite chain_key_images_app, elem_of_app. apply Hki in Hk as [[Hk Hn]|Hk]; [left|by right].
    apply (co_keyImages _ _ _ H) in Hk. rewrite Em, chain_key_images_app, elem_of_app, chain_key_images_reverse in Hk.
    tauto.
  - apply (co_workAt _ _ _ H).
  - by rewrite Hd.
Qed.

(** ** The commit *)

Context (main : list Block) (known : bytes → option Block) (c0 : Chain).
#[local] Abbreviation here := (reading_from main known c0).

(** The database is as before the call. *)
Definition stalled (c : Chain) : Prop := core main known c ∧ db (storage c) = db (storage c0).

Lemma here_stalled c : here c → stalled c.
Proof. intros [H Ss]. split; [done|]. by rewrite (ss_storage _ _ Ss). Qed.

Lemma stalled_on_storage c s : here c → db s = db (storage c) → stalled (on_storage (λ _, s) c).
Proof.
  intros [H Ss] Es. split; [|cbn; by rewrite Es, (ss_storage _ _ Ss)].
  destruct H. split; cbn; rewrite ?Es; try done. destruct co_lru. by split.
Qed.

(** The main chain ends in [newTip], differs from [main] in at most
    [MaxReorgDepth] blocks, and is on disk. *)
Definition switched (newTip : bytes) (c : Chain) : Prop :=
  ∃ base disc conn, main = base ++ disc ∧ base ≠ [] ∧ conn ≠ [] ∧
    Z.of_nat (length disc) <= MaxReorgDepth ∧ core (base ++ conn) known c ∧ bestHash c = newTip ∧
    (∀ hash b, stored (db (storage c0)) hash = Some b → stored (db (storage c)) hash = Some b) ∧
    (∀ b, b ∈ conn → stored (db (storage c)) (BlockHash b) = Some b).

Lemma on_disk_CommitReorg c commit l :
  here c → path_to known l (NewTip commit) →
  Z.of_nat (length main) + Z.of_nat (length (Connect commit)) - Z.of_nat (length (Disconnect commit)) <= 2 ^ 62 →
  (∀ b, b ∈ Disconnect commit ++ Connect commit → known (BlockHash b) = Some b) →
  match on_disk (CommitReorg commit) c with
  | (Ok _, c') =>
      ∃ base s, c' = on_storage (λ _, s) c ∧ main = base ++ reverse (Disconnect commit) ∧ base ≠ [] ∧
        Connect commit ≠ [] ∧ represents (db s) (base ++ Connect commit) (NewWork commit) ∧
        store_grows known (Connect commit) (db (storage c0)) (db s) ∧
        l = base ++ Connect commit ∧ good_path known l (NewTip commit) ∧
        NewHeight commit = Z.of_nat (length (base ++ Connect commit)) - 1
  | (Err _, c') => stalled c'
  | (Panic, _) => False
  end.
Proof.
  intros Hc Hl Hlen Hv. pose proof Hc as [H Ss]. pose proof (co_tree _ _ _ H) as Ht. unfold on_disk.
  pose proof (CommitReorg_spec known (storage c) main (totalWork c) commit (co_rep _ _ _ H)
    (proj1 (proj2 (co_main _ _ _ H))) (co_stored _ _ _ H) Hv Hlen) as Hsp.
  destruct (CommitReorg commit (storage c)) as [r s].
  specialize (Hsp ltac:(apply Forall_forall; intros b Hb; apply (tree_sound known (BlockHash b) b Ht), Hv; set_solver)).
  destruct r as [u|e|]; [|by apply stalled_on_storage|done].
  destruct Hsp as (base & Em & Hb & Hco & R & Htip & Hh & Hg).
  exists base, s. rewrite (ss_storage _ _ Ss) in Hg.
  assert (path_to known (base ++ Connect commit) (NewTip commit)) as Hp.
  { split_and!; [by destruct base|apply R|by rewrite Htip|]. intros b [Hi|Hi]%elem_of_app; [|apply Hv; set_solver].
    pose proof (co_main _ _ _ H) as ((_ & _ & _ & Hk) & _). apply Hk. rewrite Em. set_solver. }
  split_and!; try done.
  - by eapply path_to_unique.
  - destruct l as [|t l _] using rev_ind; [by destruct Hl|]. destruct (path_to_last _ _ _ _ Hl) as [_ Hk].
    destruct (Ht _ _ Hk) as (k & Hg'). by rewrite (path_to_unique _ _ _ _ Hl (proj1 Hg')).
Qed.

(** ** Extending the tip *)

Lemma path_extends l newTip b :
  path_to known l newTip → known newTip = Some b → path_to known main (PrevHash (Header b)) →
  0 < Height (Header b) → l = main ++ [b].
Proof.
  intros Hl Hb Hm Hh. destruct (path_last _ _ _ _ Hl Hb) as (k & -> & Hk). f_equal.
  apply (path_to_unique known _ _ (PrevHash (Header b))); [|done].
  apply (path_parent _ _ _ _ Hl). intros ->. simpl in Hk. lia.
Qed.

Lemma cacheTrim_switched newTip c : switched newTip c → triple (λ c', c' = c) cacheTrim (λ _, switched newTip) (λ _ _, False).
Proof.
  intros (base & disc & conn & Em & Hb & Hco & Hd & H & Ebest & Hold & Hnew) ? ->.
  destruct (cacheTrim_core _ _ _ H) as (c' & -> & H' & Ev). exists base, disc, conn.
  rewrite (ev_best _ _ Ev), (ev_storage _ _ Ev). split_and!; done.
Qed.

(** The memory follows the disk. *)
Lemma relinked_switched c s base disc conn newTip w c' :
  here c → main = base ++ reverse disc → base ≠ [] → conn ≠ [] → Z.of_nat (length disc) <= MaxReorgDepth →
  represents (db s) (base ++ conn) w → store_grows known conn (db (storage c0)) (db s) →
  good_path known (base ++ conn) newTip → w = branch_work (base ++ conn) →
  relinked (set_tip newTip (Z.of_nat (length (base ++ conn)) - 1) w (on_storage (λ _, s) c)) c' →
  canonicalRingIndexDirty c' = true →
  (∀ h x, byHeight c' !! h = Some x →
     (byHeight c !! h = Some x ∧ ∀ b, b ∈ disc → Height (Header b) ≠ h) ∨
     ∃ b, b ∈ conn ∧ Height (Header b) = h ∧ BlockHash b = x) →
  (∀ ki, is_Some (keyImages c' !! ki) →
     (is_Some (keyImages c !! ki) ∧ ki ∉ chain_key_images disc) ∨ ki ∈ chain_key_images conn) →
  switched newTip c'.
Proof.
  intros [H Ss] Em Hb Hco Hd R Hg Hgp Hw [] Hdirty Hbh Hki. cbn in *.
  exists base, (reverse disc), conn. rewrite rl_storage0, length_reverse.
  split_and!; try done; [|apply (grows_old _ _ _ _ Hg)|apply (grows_new _ _ _ _ Hg)].
  eapply (core_switch main known c base disc conn newTip w c'); rewrite ?rl_storage0, ?(ss_storage _ _ Ss); try done.
  apply rl_lru0. pose proof (co_lru _ _ _ H) as []. by split.
Qed.

Lemma extend_tip_triple newTip b :
  known newTip = Some b → path_to known main (PrevHash (Header b)) → 0 < Height (Header b) →
  triple here (extend_tip newTip b) (λ _, switched newTip) (λ _, stalled).
Proof.
  intros Hb Hm Hh. unfold extend_tip.
  eapply triple_bind with (R := λ w c, here c ∧ w = branch_work (main ++ [b]) ∧ path_to known (main ++ [b]) newTip).
  { apply triple_wrap. eapply triple_weaken; [apply cumulativeWorkAtLocked_triple|done| |].
    - intros w c (Hc & l & Hl & ->). pose proof (path_extends _ _ _ Hl Hb Hm Hh) as ->. done.
    - intros e c Hc. by apply here_stalled. }
  intros w c (Hc & -> & Hl). pose proof (co_tree _ _ _ (proj1 Hc)) as Ht.
  pose proof (on_disk_CommitReorg c (MkReorgCommit [] [b] newTip (Height (Header b)) (branch_work (main ++ [b])))
    (main ++ [b]) Hc Hl) as Hd. cbn [Connect Disconnect NewTip NewHeight NewWork] in Hd.
  destruct (Ht _ _ Hb) as (k & Hk). pose proof (good_path_length _ _ _ Hk) as Hlen.
  rewrite <- (path_to_unique _ _ _ _ Hl (proj1 Hk)), length_app in Hlen.
  specialize (Hd ltac:(simpl in *; lia)).
  specialize (Hd ltac:(intros x ->%list_elem_of_singleton; by rewrite (tree_hash _ _ _ Ht Hb))).
  unfold mbind at 1, M_bind at 1, wrapM. revert Hd.
  destruct (on_disk (CommitReorg _) c) as [[u|e|] c1]; [|done|done].
  intros (base & s & -> & Em & Hbne & _ & R & Hg & El & Hgp & Hnh).
  rewrite reverse_nil, app_nil_r in Em. subst base.
  match goal with |- match ?run with _ => _ end => change run with (cacheTrim
    (on_canonicalRingIndexDirty (λ _, true) (record_key_images b (on_timestamps (push_timestamp (Timestamp (Header b)))
    (cacheTouch newTip (on_byHeight (<[Height (Header b) := newTip]>)
      (set_tip newTip (Height (Header b)) (branch_work (main ++ [b])) (on_storage (λ _, s) c)))))))) end.
  set (ct := on_byHeight _ _). pose proof (cacheTouch_evicts newTip ct) as Ev.
  eapply triple_weaken; [eapply (cacheTrim_switched newTip)|by intros ?; apply id|done|done|reflexivity].
  eapply (relinked_switched c s main [] [b]); try done.
  - by rewrite app_nil_r.
  - rewrite <- Hnh. transitivity ct; [split; try done; by intros []|].
    etrans; [apply cacheTouch_relinked|]. split; try done. by intros [].
  - intros h x Hx. change (byHeight (cacheTouch newTip ct) !! h = Some x) in Hx. rewrite (ev_byHeight _ _ Ev) in Hx.
    cbn in Hx. apply lookup_insert_Some in Hx as [[<- <-]|[_ Hx]].
    + right. exists b. split_and!; [by left|done|by apply (tree_hash _ _ _ Ht)].
    + left. split; [done|]. intros y Hy. by apply not_elem_of_nil in Hy.
  - intros ki Hx. apply lookup_foldl_record in Hx as [Hx|Hx].
    + right. unfold chain_key_images. cbn. by rewrite app_nil_r.
    + left. split; [|apply not_elem_of_nil]. change (is_Some (keyImages (cacheTouch newTip ct) !! ki)) in Hx.
      by rewrite (ev_keyImages _ _ Ev) in Hx.
Qed.

(** ** Switching branches *)

Context (l : list Block) (newTip : bytes) (Hl : path_to known l newTip).

Lemma here_main c : here c → path_to known main (bestHash c) ∧ height c = Z.of_nat (length main) - 1.
Proof. intros [H _]. split; [apply H|apply (co_height _ _ _ H)]. Qed.

Lemma commonAncestor_triple :
  triple here (c ← get; findCommonAncestor (bestHash c) newTip)
    (λ '(hash, h) c, here c ∧ ∃ p, longest_common main l p ∧ path_to known p hash ∧ h = Z.of_nat (length p) - 1)
    (λ _ c, here c).
Proof.
  apply triple_get. intros c Hc. pose proof (here_main _ Hc) as [Hm _].
  eapply triple_weaken; [apply findCommonAncestor_triple|by intros ? ->| |done].
  intros [hash h] c' (Hc' & la & lb & p & Ha & Hb & Hp). split; [done|]. exists p.
  by rewrite (path_to_unique _ _ _ _ Hm Ha), (path_to_unique _ _ _ _ Hl Hb).
Qed.

(** The fork point is at most [MaxReorgDepth] blocks below the tip. *)
Definition fork_allowed : Prop :=
  ∀ p, longest_common main l p → p ≠ [] → Z.of_nat (length main) - Z.of_nat (length p) <= MaxReorgDepth.

Lemma enforceReorgFinality_triple :
  triple here (enforceReorgFinality newTip) (λ _ c, here c ∧ fork_allowed) (λ _ c, here c).
Proof.
  unfold enforceReorgFinality. apply triple_get. intros c Hc. pose proof (here_main _ Hc) as [_ Hh].
  destruct (Z.ltb_spec (height c) MaxReorgDepth) as [Hlt|_].
  { apply triple_ret. intros ? ->. split; [done|]. intros p _ Hp. destruct p; [done|]. simpl. lia. }
  eapply triple_bind with (R := λ _ c, here c).
  { eapply triple_weaken; [apply (getBlockByHash_triple main known c0 newTip)|by intros ? ->|by intros ?? [? _]|done]. }
  intros tip. eapply triple_bind with (R := λ _ c, here c); [by apply triple_check|]. intros _.
  intros c1 Hc1. pose proof (commonAncestor_triple c1 Hc1) as Ht. revert Ht. unfold mbind, M_bind, get.
  destruct (findCommonAncestor _ _ c1) as [[[hash h]|e|] c2]; [|done|done].
  intros (Hc2 & p & Hp & _ & ->). pose proof (here_main _ Hc2) as [_ Hh2]. unfold checkM, lift, check.
  destruct (Z.ltb_spec (Z.of_nat (length p) - 1) (height c2 - MaxReorgDepth)) as [|Hle]; [done|].
  split; [done|]. intros p' Hp' _. rewrite <- (longest_common_unique _ _ _ _ Hp Hp'). lia.
Qed.

Lemma switched_memory c s b disc conn p :
  here c → main = p ++ reverse disc → p ≠ [] → conn ≠ [] → Z.of_nat (length disc) <= MaxReorgDepth →
  represents (db s) (p ++ conn) (branch_work l) → store_grows known conn (db (storage c0)) (db s) →
  l = p ++ conn → good_path known l newTip → Height (Header b) = Z.of_nat (length (p ++ conn)) - 1 →
  switched newTip (cacheTouch newTip (on_canonicalRingIndexDirty (λ _, true)
    (set_tip newTip (Height (Header b)) (branch_work l)
      (foldl link_block (foldl unlink_block (on_storage (λ _, s) c) disc) conn)))).
Proof.
  intros Hc Em Hp Hco Hd R Hg -> Hgp Hh.
  destruct (unlink_blocks_spec disc (on_storage (λ _, s) c)) as (Ru & Hu & Ku).
  destruct (link_blocks_spec conn (foldl unlink_block (on_storage (λ _, s) c) disc)) as (Rl & Hlk & Kl).
  set (c1 := on_canonicalRingIndexDirty _ _). pose proof (cacheTouch_evicts newTip c1) as Ev.
  eapply (relinked_switched c s p disc conn); try done.
  - etrans; [|apply cacheTouch_relinked]. rewrite <- Hh.
    etrans; [apply set_tip_relinked; etrans; [exact Ru|exact Rl]|]. split; try done. by intros [].
  - by rewrite (ev_dirty _ _ Ev).
  - intros h x. rewrite (ev_byHeight _ _ Ev). intros [Hx|Hx]%Hlk; [|by right]. left. by apply Hu in Hx.
  - intros ki. rewrite (ev_keyImages _ _ Ev). intros [Hx|Hx]%Kl; [|by right]. left. by apply Ku in Hx.
Qed.

Lemma apply_reorg_triple b disc conn p :
  known newTip = Some b → l = p ++ conn → p ≠ [] →
  Z.of_nat (length disc) = Z.of_nat (length main) - Z.of_nat (length p) → Z.of_nat (length disc) <= MaxReorgDepth →
  (∀ x, x ∈ disc → known (BlockHash x) = Some x) →
  triple here (apply_reorg newTip (Height (Header b)) (branch_work l) disc conn) (λ _, switched newTip) (λ _, stalled).
Proof.
  intros Hb El Hp Hlen Hd Hdk c Hc. pose proof (co_tree _ _ _ (proj1 Hc)) as Ht. unfold apply_reorg.
  pose proof (on_disk_CommitReorg c (MkReorgCommit disc conn newTip (Height (Header b)) (branch_work l)) l Hc Hl) as Hcm.
  cbn [Connect Disconnect NewTip NewHeight NewWork] in Hcm. destruct (Ht _ _ Hb) as (k & Hk).
  pose proof (good_path_length _ _ _ Hk) as Hll. rewrite <- (path_to_unique _ _ _ _ Hl (proj1 Hk)), El, length_app in Hll.
  specialize (Hcm ltac:(lia)). specialize (Hcm ltac:(intros x [Hx|Hx]%elem_of_app; [by apply Hdk|];
    apply Hl; rewrite El; apply elem_of_app; by right)).
  unfold mbind at 1, M_bind at 1, wrapM. revert Hcm.
  destruct (on_disk (CommitReorg _) c) as [[u|e|] c1]; [|done|done].
  intros (base & s & -> & Em & Hbne & Hco & R & Hg & El' & Hgp & Hnh).
  assert (base = p) as -> by (rewrite El in El'; by apply app_inv_tail in El').
  match goal with |- match ?run with _ => _ end => change run with (cacheTrim
    (cacheTouch newTip (on_canonicalRingIndexDirty (λ _, true) (set_tip newTip (Height (Header b)) (branch_work l)
      (foldl link_block (foldl unlink_block (on_storage (λ _, s) c) disc) conn))))) end.
  eapply triple_weaken; [eapply (cacheTrim_switched newTip)|by intros ?; apply id|done|done|reflexivity].
  by apply (switched_memory c s b disc conn p).
Qed.

Lemma switch_at_triple b hash p :
  known newTip = Some b → longest_common main l p → path_to known p hash → fork_allowed →
  triple here (switch_at newTip b hash (Z.of_nat (length p) - 1)) (λ _, switched newTip) (λ _, stalled).
Proof.
  intros Hb Hp Hpp Hf. unfold switch_at. apply triple_get. intros c Hc. pose proof (here_main _ Hc) as [_ ->].
  pose proof (proj1 Hpp) as Hne. pose proof (prefix_length _ _ (proj1 Hp)) as Hpl.
  set (n := Z.to_nat _). pose proof (collect_disconnect_spec main known c n (Z.of_nat (length main) - 1) (proj1 Hc)) as Hdis.
  eapply triple_bind with (R := λ disc c, here c ∧ length disc = n ∧ ∀ x, x ∈ disc → known (BlockHash x) = Some x).
  { apply triple_lift.
    - by destruct (collect_disconnect c n _).
    - intros disc ? E ->. rewrite E in Hdis. done.
    - intros e ? _ ->. by apply here_stalled. }
  intros disc c' (Hc' & Hlen & Hdk). revert c' Hc'.
  eapply triple_bind with (R := λ conn c, here c ∧ l = p ++ conn).
  { eapply triple_weaken; [apply (collectConnectPath_triple main known c0 l hash p newTip Hl Hpp)|done|done|].
    intros e c'. apply here_stalled. }
  intros conn c' [Hc' El]. revert c' Hc'.
  eapply triple_bind with (R := λ w c, here c ∧ w = branch_work l).
  { apply triple_wrap. eapply triple_weaken; [apply cumulativeWorkAtLocked_triple|done| |].
    - intros w c' (Hc' & l' & Hl' & ->). split; [done|]. by rewrite (path_to_unique _ _ _ _ Hl Hl').
    - intros e c' Hc'. by apply here_stalled. }
  intros w c' [Hc' ->]. specialize (Hf p Hp Hne).
  apply (apply_reorg_triple b disc conn p); [done|done|done|lia|lia|done|done].
Qed.

Lemma switch_branch_triple b :
  known newTip = Some b → triple here (switch_branch newTip b) (λ _, switched newTip) (λ _, stalled).
Proof.
  intros Hb. unfold switch_branch. eapply triple_bind with (R := λ _ c, here c ∧ fork_allowed).
  { eapply triple_weaken; [apply enforceReorgFinality_triple|done|done|]. intros e c. apply here_stalled. }
  intros _ c [Hc Hf]. pose proof (commonAncestor_triple c Hc) as Ht. revert Ht. unfold mbind, M_bind, get.
  destruct (findCommonAncestor _ _ c) as [[[hash h]|e|] c1]; [|apply here_stalled|done].
  intros (Hc1 & p & Hp & Hpp & ->). by apply (switch_at_triple b hash p).
Qed.

Lemma reorganizeTo_triple b :
  known newTip = Some b → 0 < Height (Header b) →
  triple here (reorganizeTo newTip) (λ _, switched newTip) (λ _, stalled).
Proof.
  intros Hb Hw. unfold reorganizeTo.
  eapply triple_bind with (R := λ x c, here c ∧ x = b).
  { unfold reorg_tip. apply triple_get. intros c Hc ? ->. pose proof Hc as [H Ss].
    destruct (blocks c !! newTip) as [x|] eqn:Ex.
    { apply (co_cached _ _ _ H) in Ex. cbn. split; [done|]. congruence. }
    rewrite (GetBlock_db_stored _ _ _ _ H). destruct (stored _ newTip) as [x|] eqn:Es; [|by apply here_stalled].
    apply (co_stored _ _ _ H) in Es. destruct (cacheInsert_core _ _ newTip x c H Es) as (c' & E & H' & Ss').
    unfold mbind, M_bind. rewrite E. cbn. split; [|congruence]. split; [done|by etrans]. }
  intros x c [Hc ->]. revert c Hc. apply triple_get. intros c Hc. pose proof (here_main _ Hc) as [Hm _].
  case_decide as Hd.
  - eapply triple_weaken; [apply (extend_tip_triple newTip b Hb)| |done|done].
    + by rewrite Hd.
    + done.
    + by intros ? ->.
  - eapply triple_weaken; [by apply switch_branch_triple|by intros ? ->|done|done].
Qed.

End Reorg.
