(* ===== verification/Restart.v ===== *)
(** * Restarting a node

    [NewChain] on the storage of a running chain restores its invariant: the
    same main chain, the same tree of blocks, exact cumulative work for every
    block it preloads, and the window of blocks and timestamps that block
    templates are computed from. *)

From S2P Require Import Prelude Bytes Crypto Pow Transaction TxCodec Block ExchangeSort Consensus Hoare Reads Difficulty Memo Emission Validation Validity Storage StorageFacts Commit Chain ChainOps Cache ChainInv Branches Ancestors Windows Learn Reorg.

Section Restart.
Context `{HC : Crypto} `{!CryptoLaws HC} `{HN : Network} `{HM : MathLib} `{HJ : JSON} `{!JSONLaws HJ}.

Lemma push_timestamp_lastn t ts :
  push_timestamp t (lastn (LWMAWindow + 1) ts) = lastn (LWMAWindow + 1) (ts ++ [t]).
Proof.
  change (LWMAWindow + 1)%nat with 61%nat. rewrite lastn_snoc_push. unfold push_timestamp.
  change (LWMAWindow + 1)%nat with 61%nat. rewrite length_app. cbn [length].
  rewrite Nat.add_1_r. case_decide; [|done]. rewrite drop_app_le; [done|lia].
Qed.

(** The main-chain blocks of the last 101 heights are in memory with the
    height index. *)
Definition recent (main : list Block) (c : Chain) : Prop :=
  ∀ i b, main !! i = Some b → (length main - 101 <= i)%nat →
    byHeight c !! Z.of_nat i = Some (BlockHash b) ∧ blocks c !! BlockHash b = Some b.

(** The timestamps are those of the last 61 blocks. *)
Definition timely (main : list Block) (c : Chain) : Prop :=
  timestamps c = lastn (LWMAWindow + 1) ((λ b, Timestamp (Header b)) <$> main).

Record windowed (main : list Block) (c : Chain) : Prop := {
  wd_recent : recent main c;
  wd_timely : timely main c;
}.

Context (main : list Block) (known : bytes → option Block) (c0 : Chain).
Context (Hc0 : chain_inv main known c0) (cap : Z) (Hcap : 101 <= cap).
#[local] Abbreviation start := (length main - 101)%nat.

(** What is in memory when [k] blocks from [start] on have been loaded. *)
Record preloaded (k : nat) (c : Chain) : Prop := {
  pl_storage : storage c = storage c0;
  pl_cap : cacheCap c = cap;
  pl_best : bestHash c = bestHash c0;
  pl_height : height c = height c0;
  pl_total : totalWork c = totalWork c0;
  pl_lru : lru_ok c;
  pl_sizes : (size (blocks c) <= k)%nat ∧ (size (cacheIndex c) <= k)%nat;
  pl_cached : ∀ hash b, blocks c !! hash = Some b → known hash = Some b;
  pl_byHeight : ∀ h hash, byHeight c !! h = Some hash → 0 <= h ∧ BlockHash <$> main !! Z.to_nat h = Some hash;
  pl_keyImages : ∀ ki, is_Some (keyImages c !! ki) → ki ∈ chain_key_images main;
  pl_resident : ∀ i b, main !! i = Some b → (start <= i < start + k)%nat →
    byHeight c !! Z.of_nat i = Some (BlockHash b) ∧ blocks c !! BlockHash b = Some b;
  pl_workAt : ∀ hash w, workAt c !! hash = Some w ↔
    ∃ i b, main !! i = Some b ∧ (start <= i < start + k)%nat ∧ hash = BlockHash b ∧
           w = branch_work (take (S i) main) - branch_work (take start main);
  pl_timestamps : timestamps c = lastn (LWMAWindow + 1) ((λ b, Timestamp (Header b)) <$> take k (drop start main));
}.

Lemma main_hash_inj i j x y :
  main !! i = Some x → main !! j = Some y → BlockHash x = BlockHash y → i = j.
Proof.
  intros Hx Hy E. pose proof (co_main _ _ _ (proj1 Hc0)) as ((_ & Hl & _ & Hk) & _).
  assert (x = y) as ->.
  { pose proof (Hk x ltac:(by eapply list_elem_of_lookup_2)) as K1.
    pose proof (Hk y ltac:(by eapply list_elem_of_lookup_2)) as K2. rewrite E, K2 in K1. by injection K1. }
  pose proof (linked_height _ _ _ Hl Hx). pose proof (linked_height _ _ _ Hl Hy). lia.
Qed.

Lemma main_prev i b p : main !! S i = Some b → main !! i = Some p → PrevHash (Header b) = BlockHash p.
Proof.
  intros Hb Hp. pose proof (co_main _ _ _ (proj1 Hc0)) as ((_ & Hl & _) & _).
  apply linked_branch in Hl as [p0 Hl]. rewrite (branch_prev _ _ _ _ _ Hl Hb).
  rewrite (take_S_r _ _ _ Hp). apply tip_hash_snoc.
Qed.

Lemma branch_work_take_S i b :
  main !! i = Some b → branch_work (take (S i) main) = branch_work (take i main) + Difficulty (Header b).
Proof. intros Hb. by rewrite (take_S_r _ _ _ Hb), branch_work_snoc. Qed.

Lemma branch_work_take_le i j :
  (i <= j)%nat → 0 <= branch_work (take i main) <= branch_work (take j main).
Proof.
  intros Hij. pose proof (co_main _ _ _ (proj1 Hc0)) as (_ & _ & Hs & _).
  assert (Forall sound_block (take j main)) as Hj by by apply Forall_take. rewrite <- (take_drop i (take j main)) in Hj |- *.
  rewrite take_take, Nat.min_l in Hj |- * by done. apply Forall_app in Hj as [H1 H2].
  rewrite branch_work_app. pose proof (branch_work_length _ H1). pose proof (branch_work_length _ H2). lia.
Qed.

Lemma branch_work_take_main i : branch_work (take i main) <= branch_work main < 2 ^ 64.
Proof.
  pose proof (co_main _ _ _ (proj1 Hc0)) as (_ & _ & _ & Hw).
  pose proof (branch_work_take_le (Nat.min i (length main)) (length main) ltac:(lia)) as Hle.
  rewrite (take_ge main (length main)) in Hle by done.
  destruct (decide (i <= length main)%nat); [rewrite Nat.min_l in Hle by done; lia|]. rewrite (take_ge main i) by lia. lia.
Qed.

(** ** One block *)

Lemma load_reads i b c k :
  preloaded k c → main !! i = Some b →
  GetBlockHashByHeight (storage c) (Z.of_nat i) = Some (BlockHash b) ∧
  GetBlock_db (storage c) (BlockHash b) = (Some b, None) ∧ known (BlockHash b) = Some b.
Proof.
  intros P Hb. rewrite (pl_storage _ _ P). pose proof (proj1 Hc0) as H.
  pose proof (rep_blocks _ _ _ (co_rep _ _ _ H) _ _ Hb) as Hst. split_and!.
  - by eapply GetBlockHashByHeight_core.
  - unfold stored in Hst. unfold GetBlock_db, View. destruct (bucketBlocks _ !! _) as [data|]; [|done].
    destruct (unmarshal_block data) as [x [e|]]; [done|]. by injection Hst as ->.
  - by apply (co_stored _ _ _ H).
Qed.

(** The work of the block loaded next. *)
Lemma load_work k b c :
  preloaded k c → main !! (start + k)%nat = Some b →
  addCumulativeWork (if 0 <? Z.of_nat (start + k) then default 0 (workAt c !! PrevHash (Header b)) else 0)
    (Difficulty (Header b)) = Ok (branch_work (take (S (start + k)) main) - branch_work (take start main)).
Proof.
  intros P Hb. pose proof (branch_work_take_S _ _ Hb) as Hs.
  assert ((if 0 <? Z.of_nat (start + k) then default 0 (workAt c !! PrevHash (Header b)) else 0) =
          branch_work (take (start + k) main) - branch_work (take start main)) as ->.
  { destruct (Z.ltb_spec 0 (Z.of_nat (start + k))) as [Hlt|Hle]; cycle 1.
    { replace (start + k)%nat with 0%nat by lia. replace start with 0%nat by lia. simpl. lia. }
    destruct k as [|k].
    - rewrite Nat.add_0_r. destruct (workAt c !! _) as [w|] eqn:Ew; [|simpl; lia].
      apply (pl_workAt _ _ P) in Ew as (i & x & _ & Hi & _). lia.
    - rewrite Nat.add_succ_r in *. destruct (lookup_lt_is_Some_2 main (start + k)) as [p Hp].
      { apply lookup_lt_Some in Hb. lia. }
      rewrite (main_prev _ _ _ Hb Hp).
      replace (workAt c !! BlockHash p) with
        (Some (branch_work (take (S (start + k)) main) - branch_work (take start main))); [done|].
      symmetry. apply (pl_workAt _ _ P). exists (start + k)%nat, p. split_and!; [done|lia|lia|done|done]. }
  pose proof (branch_work_take_le start (start + k) ltac:(lia)).
  pose proof (branch_work_take_main (S (start + k))).
  pose proof (branch_work_take_le (start + k) (S (start + k)) ltac:(lia)).
  unfold addCumulativeWork. rewrite (proj2 (Z.ltb_ge _ _)) by (unfold MaxUint64; lia).
  rewrite u64_small by (unfold_ints; lia). f_equal. lia.
Qed.

Lemma size_touch hash c : (size (cacheIndex (cacheTouch hash c)) <= S (size (cacheIndex c)))%nat.
Proof.
  unfold cacheTouch. case_decide; [cbn; lia|]. cbn. rewrite size_union by set_solver. by rewrite size_singleton.
Qed.

Lemma size_insert_le {A} (m : gmap bytes A) k x : (size (<[k := x]> m) <= S (size m))%nat.
Proof.
  destruct (m !! k) eqn:E; [rewrite map_size_insert_Some by eauto; lia|by rewrite map_size_insert_None by done].
Qed.

(** The state after one turn of the loop. *)
Definition after_load (h : Z) (b : Block) (w : Z) (c : Chain) : Chain :=
  record_key_images_at h b
    (on_timestamps (push_timestamp (Timestamp (Header b)))
       (on_workAt (<[BlockHash b := w]>)
          (on_byHeight (<[h := BlockHash b]>)
             (cacheTouch (BlockHash b) (on_blocks (<[BlockHash b := b]>) c))))).

Lemma load_block_run k b c :
  preloaded k c → main !! (start + k)%nat = Some b →
  load_block (Z.of_nat (start + k)) c =
    (Ok tt, after_load (Z.of_nat (start + k)) b (branch_work (take (S (start + k)) main) - branch_work (take start main)) c).
Proof.
  intros P Hb. destruct (load_reads _ _ _ _ P Hb) as (E1 & E2 & _). pose proof (load_work _ _ _ P Hb) as Ew.
  unfold load_block, mbind, M_bind, get. rewrite E1, E2. cbv beta iota zeta. unfold modify at 1 2 3.
  cbv beta iota zeta. unfold lift. rewrite Ew. reflexivity.
Qed.

Lemma after_load_preloaded k b c :
  preloaded k c → main !! (start + k)%nat = Some b →
  preloaded (S k) (after_load (Z.of_nat (start + k)) b
    (branch_work (take (S (start + k)) main) - branch_work (take start main)) c).
Proof.
  intros P Hb. destruct (load_reads _ _ _ _ P Hb) as (_ & _ & Hk). pose proof (proj1 Hc0) as H.
  set (c1 := on_blocks (<[BlockHash b := b]>) c). pose proof (cacheTouch_evicts (BlockHash b) c1) as Ev.
  assert (lru_ok (cacheTouch (BlockHash b) c1)) as Hlru.
  { pose proof (pl_lru _ _ P) as []. apply cacheTouch_ok; [done..|]. intros h [x Hx]. cbn in Hx.
    apply lookup_insert_Some in Hx as [[<- _]|[_ Hx]]; [by left|right; eauto]. }
  pose proof (cacheTouch_blocks (BlockHash b) c1) as Eb. pose proof (cacheTouch_workAt (BlockHash b) c1) as Ew.
  pose proof (size_touch (BlockHash b) c1) as Hsz.
  unfold after_load. fold c1. set (c2 := cacheTouch (BlockHash b) c1) in *. clearbody c2.
  split; cbn.
  - rewrite (ev_storage _ _ Ev). apply P.
  - rewrite (ev_cap _ _ Ev). apply P.
  - rewrite (ev_best _ _ Ev). apply P.
  - rewrite (ev_height _ _ Ev). apply P.
  - rewrite (ev_work _ _ Ev). apply P.
  - destruct Hlru. by split.
  - destruct (pl_sizes _ _ P). rewrite Eb. split.
    + etrans; [apply size_insert_le|]. lia.
    + etrans; [exact Hsz|]. cbn. lia.
  - intros hash x. rewrite Eb. cbn.
    intros [[<- <-]|[_ Hx]]%lookup_insert_Some; [done|by apply (pl_cached _ _ P)].
  - intros h hash. rewrite (ev_byHeight _ _ Ev). cbn.
    intros [[<- <-]|[_ Hx]]%lookup_insert_Some; [|by apply (pl_byHeight _ _ P)].
    rewrite Nat2Z.id, Hb. split; [lia|done].
  - intros ki. rewrite (ev_keyImages _ _ Ev). cbn. intros [Hin|Hin]%lookup_foldl_record.
    + rewrite <- (take_drop_middle _ _ _ Hb), chain_key_images_app. apply elem_of_app. right.
      unfold chain_key_images. cbn. apply elem_of_app. by left.
    + by apply (pl_keyImages _ _ P).
  - intros i x Hx Hi. rewrite (ev_byHeight _ _ Ev), Eb. cbn.
    destruct (decide (i = start + k)%nat) as [->|Hne].
    + assert (x = b) as -> by congruence. by rewrite !lookup_insert_eq.
    + destruct (pl_resident _ _ P i x Hx ltac:(lia)) as [? ?].
      rewrite !lookup_insert_ne; [done| |lia]. intros E. apply Hne. symmetry. by eapply main_hash_inj.
  - intros hash w. rewrite Ew. cbn. rewrite lookup_insert_Some. rewrite (pl_workAt _ _ P). split.
    + intros [[<- <-]|[_ (i & x & Hx & Hi & -> & ->)]].
      * exists (start + k)%nat, b. split_and!; [done|lia|lia|done|done].
      * exists i, x. split_and!; [done|lia|lia|done|done].
    + intros (i & x & Hx & Hi & -> & ->). destruct (decide (i = start + k)%nat) as [->|Hne].
      * left. assert (x = b) as -> by congruence. done.
      * right. split; [|exists i, x; split_and!; [done|lia|lia|done|done]].
        intros E. apply Hne. symmetry. by eapply main_hash_inj.
  - rewrite (ev_timestamps _ _ Ev). cbn. rewrite (pl_timestamps _ _ P), push_timestamp_lastn. f_equal.
    rewrite (take_S_r _ _ b), fmap_app; [done|]. by rewrite lookup_drop.
Qed.

(** ** The whole load *)

Lemma cacheTrim_idle c : cache_over c = false → cacheTrim c = (Ok tt, c).
Proof.
  intros Ho. unfold cacheTrim. destruct (cacheCap c <=? 0); [done|].
  unfold trim_fuel. cbn [trim_loop]. by rewrite Ho.
Qed.

Lemma load_blocks_triple :
  triple (preloaded 0) (for_each load_block (seqZ (Z.of_nat start) (Z.of_nat (length main - start))))
    (λ _, preloaded (length main - start)) (λ _ _, False).
Proof.
  pose proof (triple_for_seqZ load_block (λ i, preloaded (Z.to_nat i)) (λ _ _, False)
    (Z.of_nat start) (Z.of_nat (length main - start)) ltac:(lia)) as Hl.
  cbv beta in Hl. rewrite Nat2Z.id in Hl. apply Hl. intros i Hi c P.
  destruct (lookup_lt_is_Some_2 main (start + Z.to_nat i) ltac:(lia)) as [b Hb].
  replace (Z.of_nat start + i) with (Z.of_nat (start + Z.to_nat i)) by lia.
  rewrite (load_block_run _ _ _ P Hb). replace (Z.to_nat (i + 1)) with (S (Z.to_nat i)) by lia.
  by apply after_load_preloaded.
Qed.

(** Work entries corrected by the work below the preloaded blocks. *)
Lemma offset_work_run c :
  preloaded (length main - start) c →
  ∃ c', (if 0 <? branch_work (take start main) then offset_work (branch_work (take start main)) else mret tt) c = (Ok tt, c') ∧
    c' = on_workAt (λ _, workAt c') c ∧
    ∀ hash w, workAt c' !! hash = Some w → ∃ i b, main !! i = Some b ∧ hash = BlockHash b ∧ w = branch_work (take (S i) main).
Proof.
  intros P. set (o := branch_work (take start main)).
  assert (∀ hash w, workAt c !! hash = Some w →
    ∃ i b, main !! i = Some b ∧ hash = BlockHash b ∧ w + o = branch_work (take (S i) main) ∧
           addCumulativeWork w o = Ok (w + o)) as Hw.
  { intros hash w Ew. apply (pl_workAt _ _ P) in Ew as (i & b & Hb & Hi & -> & ->).
    exists i, b. split_and!; [done|done|lia|].
    pose proof (branch_work_take_le start (S i) ltac:(lia)). pose proof (branch_work_take_main (S i)).
    unfold addCumulativeWork. fold o in H, H0 |- *. rewrite (proj2 (Z.ltb_ge _ _)) by (unfold MaxUint64; lia).
    by rewrite u64_small by (unfold_ints; lia). }
  destruct (Z.ltb_spec 0 o) as [Ho|Ho].
  - unfold offset_work, mbind, M_bind, get, checkM, lift.
    assert (map_Exists (λ (_ : bytes) (r : result Z), is_Ok r = false) ((λ w, addCumulativeWork w o) <$> workAt c) → False) as Hne.
    { intros (hash & r & (w & <- & Ew)%lookup_fmap_Some & Hr). destruct (Hw _ _ Ew) as (_ & _ & _ & _ & _ & E).
      by rewrite E in Hr. }
    rewrite bool_decide_eq_false_2 by exact Hne. cbn [check].
    eexists. split_and!; [reflexivity|by destruct c|].
    intros hash w. cbn. rewrite lookup_omap, lookup_fmap.
    destruct (workAt c !! hash) as [w0|] eqn:Ew; [|done]. destruct (Hw _ _ Ew) as (i & b & Hb & -> & E & Ea).
    cbn [fmap option_fmap option_map]. rewrite Ea. cbn. intros [= <-]. by exists i, b.
  - exists c. split_and!; [done|by destruct c|].
    intros hash w Ew. destruct (Hw _ _ Ew) as (i & b & Hb & -> & E & _). exists i, b. split_and!; [done|done|].
    pose proof (branch_work_take_le start start ltac:(lia)). lia.
Qed.

Lemma preloaded_new : preloaded 0 (set_tip (bestHash c0) (height c0) (totalWork c0) (new_chain (storage c0) cap)).
Proof.
  split; cbn; try done.
  - split; cbn; [constructor|done|]. intros hash [x Hx]. by rewrite lookup_empty in Hx.
  - intros ki [x Hx]. by rewrite lookup_empty in Hx.
  - intros i b _ Hi. lia.
  - intros hash w. rewrite lookup_empty. split; [done|]. intros (i & b & _ & Hi & _). lia.
Qed.

(** The state when everything is loaded. *)
Lemma preloaded_inv c c' :
  preloaded (length main - start) c → c' = on_workAt (λ _, workAt c') c →
  (∀ hash w, workAt c' !! hash = Some w → ∃ i b, main !! i = Some b ∧ hash = BlockHash b ∧ w = branch_work (take (S i) main)) →
  let c2 := on_canonicalRingIndexDirty (λ _, true) c' in
  chain_inv main known c2 ∧ windowed main c2 ∧ storage c2 = storage c0.
Proof.
  intros P E Hw c2. pose proof Hc0 as [H Hs]. subst c2. rewrite E. generalize (workAt c') E Hw. clear E Hw.
  intros wa _ Hw. split_and!; [split|split|].
  - split; cbn; rewrite ?(pl_storage _ _ P), ?(pl_best _ _ P), ?(pl_height _ _ P), ?(pl_total _ _ P), ?(pl_cap _ _ P);
      try apply H; try done; try apply P.
    + pose proof (pl_lru _ _ P) as []. by split.
    + intros hash w (i & b & Hb & -> & ->)%Hw. exists (take (S i) main). split; [|done].
      rewrite <- (take_drop_middle _ _ _ Hb). replace (BlockHash b) with (tip_hash [] (take (S i) main)).
      * pose proof (co_main _ _ _ H) as (Hp & _). rewrite <- (take_drop (S i) main) in Hp.
        apply path_to_prefix in Hp; [|rewrite (take_S_r _ _ _ Hb); by destruct (take i main)].
        by rewrite (take_drop_middle _ _ _ Hb).
      * by rewrite (take_S_r _ _ _ Hb), tip_hash_snoc.
  - intros hash x Hx. cbn. rewrite (pl_storage _ _ P). by apply Hs.
  - intros i b Hb Hi. cbn. apply (pl_resident _ _ P); [done|]. apply lookup_lt_Some in Hb. lia.
  - unfold timely. cbn. rewrite (pl_timestamps _ _ P), take_ge by (rewrite length_drop; lia). rewrite fmap_drop, lastn_drop; [done|].
    rewrite length_fmap. change (LWMAWindow + 1)%nat with 61%nat. lia.
  - cbn. apply P.
Qed.

End Restart.

Lemma loadFromStorage_spec `{HC : Crypto} `{!CryptoLaws HC} `{HN : Network} `{HM : MathLib} `{HJ : JSON} `{!JSONLaws HJ}
    main known c0 cap :
  chain_inv main known c0 → 101 <= cap →
  ∃ c', loadFromStorage (new_chain (storage c0) cap) = (Ok tt, c') ∧
        chain_inv main known c' ∧ windowed main c' ∧ storage c' = storage c0.
Proof.
  intros Hc0 Hcap. pose proof Hc0 as [H Hs]. set (start := (length main - 101)%nat).
  pose proof (rep_nonempty _ _ _ (co_rep _ _ _ H)) as Hne.
  assert (1 <= length main)%nat by (destruct main; [done|simpl; lia]).
  pose proof (co_height _ _ _ H) as Hh.
  assert ((if preloadBack <? height c0 then height c0 - preloadBack else 0) = Z.of_nat start) as Est.
  { change preloadBack with 100. unfold start. destruct (Z.ltb_spec 100 (height c0)); lia. }
  unfold loadFromStorage. unfold mbind at 1, M_bind at 1, get. change (storage (new_chain (storage c0) cap)) with (storage c0).
  rewrite (GetTip_core main known c0 H), <- Hh. cbv beta iota zeta. rewrite Est.
  replace (height c0 - Z.of_nat start + 1) with (Z.of_nat (length main - start)) by (unfold start; lia).
  unfold mbind at 1, M_bind at 1, modify at 1. cbv beta iota.
  pose proof (load_blocks_triple main known c0 Hc0 cap Hcap _ (preloaded_new main known c0 cap)) as Hl.
  unfold mbind at 1, M_bind at 1. fold start in Hl.
  destruct (for_each load_block (seqZ (Z.of_nat start) (Z.of_nat (length main - start)))
              (set_tip (bestHash c0) (height c0) (totalWork c0) (new_chain (storage c0) cap))) as [[[]|e|] c1]; [|done|done].
  assert (cache_over c1 = false) as Ho.
  { unfold cache_over. destruct (pl_sizes _ _ _ _ _ _ Hl) as [S1 S2]. rewrite (pl_cap _ _ _ _ _ _ Hl).
    rewrite !(proj2 (Z.ltb_ge _ _)) by (unfold start in *; lia). done. }
  unfold mbind at 1, M_bind at 1. rewrite (cacheTrim_idle _ Ho). unfold mbind at 1, M_bind at 1, get.
  destruct (last main) as [tip|] eqn:Etip; [|by apply last_None in Etip].
  assert (bestHash c1 = BlockHash tip) as Eb.
  { rewrite (pl_best _ _ _ _ _ _ Hl), (co_best _ _ _ H). unfold tip_hash. by rewrite Etip. }
  assert (workAt c1 !! bestHash c1 = Some (branch_work main - branch_work (take start main))) as Ew.
  { rewrite last_lookup in Etip. apply (pl_workAt _ _ _ _ _ _ Hl). exists (Nat.pred (length main)), tip.
    rewrite Nat.succ_pred, (take_ge main (length main)) by lia. unfold start. split_and!; [done|lia|lia|done|done]. }
  rewrite Ew. cbv beta iota zeta. change (default 0 (Some ?x)) with x.
  pose proof (branch_work_take_le main known c0 Hc0 start start ltac:(done)).
  assert (totalWork c1 = branch_work main) as Et by (rewrite (pl_total _ _ _ _ _ _ Hl); apply (co_total _ _ _ H)).
  unfold mbind at 1, M_bind at 1, checkM, lift. rewrite (proj2 (Z.ltb_ge _ _)) by lia. cbn [check].
  replace (totalWork c1 - (branch_work main - branch_work (take start main))) with (branch_work (take start main)) by lia.
  destruct (offset_work_run main known c0 Hc0 cap c1 Hl) as (c2 & E2 & Ec2 & Hw). fold start in E2.
  unfold mbind at 1, M_bind at 1. rewrite E2.
  eexists. split; [reflexivity|]. by apply (preloaded_inv main known c0 Hc0 cap Hcap c1 c2).
Qed.

(** ** Templates *)

Section Templates.
Context `{HC : Crypto} `{!CryptoLaws HC} `{HN : Network} `{HM : MathLib} `{HJ : JSON} `{!JSONLaws HJ}.

Lemma recent_resident main c i b :
  recent main c → main !! i = Some b → (length main - 101 <= i)%nat → resident c (Z.of_nat i) = Some b.
Proof. intros W Hb Hi. destruct (W _ _ Hb Hi) as [E1 E2]. unfold resident. by rewrite E1. Qed.

Lemma nextDifficulty_recent main known c :
  core main known c → recent main c → nextDifficultyLocked c = branch_difficulty main.
Proof.
  intros H W. pose proof (rep_nonempty _ _ _ (co_rep _ _ _ H)) as Hne.
  assert (1 <= length main)%nat by (destruct main; [done|simpl; lia]).
  unfold nextDifficultyLocked, branch_difficulty. rewrite (co_height _ _ _ H).
  destruct (Z.ltb_spec (Z.of_nat (length main) - 1) (Z.of_nat LWMAWindow));
    destruct (Z.leb_spec (Z.of_nat (length main)) (Z.of_nat LWMAWindow)); try lia; [done|].
  rewrite (lwma_ext _ (nthZ (lastn (S LWMAWindow) main))); [done|]. change LWMAWindow with 60%nat in *.
  intros j Hj. destruct (lookup_lt_is_Some_2 main (length main - 61 + Z.to_nat j) ltac:(lia)) as [b Hb].
  replace (Z.of_nat (length main) - 1 - Z.of_nat 60 + j) with (Z.of_nat (length main - 61 + Z.to_nat j)) by lia.
  rewrite (recent_resident _ _ _ _ W Hb) by lia. unfold nthZ, lastn.
  rewrite (proj2 (Z.ltb_ge _ _)) by lia. by rewrite lookup_drop.
Qed.

Lemma medianTimestamp_timely main c :
  main ≠ [] → timely main c → ∃ m, medianTimestampLocked c 11 = Ok m ∧ branch_median main 11 = Some m.
Proof.
  intros Hne W. unfold medianTimestampLocked. rewrite W.
  set (ts := (λ b, Timestamp (Header b)) <$> main).
  assert (1 <= length ts)%nat by (unfold ts; rewrite length_fmap; destruct main; [done|simpl; lia]).
  change (LWMAWindow + 1)%nat with 61%nat.
  rewrite decide_False by (intros E%(f_equal length); rewrite length_lastn in E; cbn [length] in E; lia).
  replace (if decide (length (lastn 61 ts) < 11)%nat then length (lastn 61 ts) else 11%nat)
    with (Nat.min 11 (length (lastn 61 ts))) by (case_decide; lia).
  replace (drop _ (lastn 61 ts)) with (lastn 11 ts).
  - destruct (median_total (lastn 11 ts)) as (m & Em & _).
    + intros E%(f_equal length). rewrite length_lastn in E. cbn [length] in E. lia.
    + exists m. by rewrite Em.
  - rewrite length_lastn. unfold lastn. rewrite drop_drop. f_equal. lia.
Qed.

(** The median that the node reports is the one of the tip's branch. *)
Lemma median_timely main known c tip :
  core main known c → timely main c → known (bestHash c) = Some tip →
  ∃ m, median_time known tip 11 = Ok m ∧ MedianTimestamp c 11 = Ok m.
Proof.
  intros H W Htip. pose proof (co_main _ _ _ H) as (Hp & _). destruct main as [|x l _] using rev_ind; [by destruct Hp|].
  destruct (path_to_last _ _ _ _ Hp) as [_ Hk]. assert (x = tip) as -> by congruence.
  destruct (median_time_path known l tip _ 11 Hp) as (m & Em & Em'); [done|].
  destruct (medianTimestamp_timely (l ++ [tip]) c) as (m' & Em1 & Em2); [by destruct l|done|].
  exists m. split; [done|]. unfold MedianTimestamp. congruence.
Qed.

End Templates.

(** C34. Templates ask for what block validation requires.  While the last 101
    blocks of the main chain are in memory with the height index, a template
    extends the tip and its difficulty is the one that the consensus rule
    derives from the tip's branch.  While the window of timestamps is that of
    the last 61 blocks of the main chain, the median time that the node
    reports is the one that a new block's timestamp is compared with.  Both
    conditions hold after a start-up.  They are conditions: a reorganization
    that does not extend the tip leaves timestamps of both branches in the
    window. *)
Theorem template_matches_consensus `{HC : Crypto} `{!CryptoLaws HC} `{HN : Network} `{HM : MathLib} `{HJ : JSON}
    `{!JSONLaws HJ} main known c :
  core main known c →
  ∃ tip, known (bestHash c) = Some tip ∧
    (recent main c → ∃ d, expected_difficulty known tip = Ok d ∧
       TemplateParams c = Ok (MkBlockTemplateParams (Height (Header tip) + 1) (BlockHash tip) d)) ∧
    (timely main c → ∃ m, median_time known tip 11 = Ok m ∧ MedianTimestamp c 11 = Ok m).
Proof.
  intros H. pose proof (co_main _ _ _ H) as Hg. pose proof (good_path_length _ _ _ Hg) as Hlen.
  pose proof (co_height _ _ _ H) as Hh. pose proof Hg as (Hp & _). destruct (snoc_cases main) as [->|(l & tip & E)]; [by destruct Hp|].
  rewrite E in Hp, Hlen, Hh. destruct (path_to_last _ _ _ _ Hp) as [Eb Hk]. exists tip. split_and!; [done| |].
  - intros W. pose proof (linked_snoc_height _ _ (proj1 (proj2 Hp))) as Hht.
    destruct (branch_difficulty_total (l ++ [tip])) as [d Ed]. exists d. split; [by rewrite (expected_difficulty_path known l tip _ Hp)|].
    unfold TemplateParams. rewrite (nextDifficulty_recent _ _ _ H W), E, Ed. cbn. rewrite Eb, Hh, Hht.
    rewrite length_app in *. simpl in *. rewrite u64_small by (unfold_ints; lia). do 2 f_equal. lia.
  - intros W. by apply (median_timely main).
Qed.

(** C11. A restart loses nothing: [NewChain] on the storage of a chain in its
    invariant succeeds whatever the configured cache size, does not write,
    and yields a chain in the invariant with the same main chain and tree of
    blocks: same tip, height and total work, the same key images spent, the
    same blocks at every height; the recent blocks are in memory again. *)
Theorem restart_restores `{HC : Crypto} `{!CryptoLaws HC} `{HN : Network} `{HM : MathLib} `{HJ : JSON}
    `{!JSONLaws HJ} main known c env :
  chain_inv main known c →
  ∃ c', NewChain (storage c) env = Ok c' ∧ storage c' = storage c ∧
    chain_inv main known c' ∧ windowed main c' ∧
    bestHash c' = bestHash c ∧ height c' = height c ∧ totalWork c' = totalWork c ∧
    (∀ ki, isKeyImageSpentLocked c' ki = isKeyImageSpentLocked c ki) ∧
    (∀ i, is_u64 i → getBlockByHeight c' i = getBlockByHeight c i).
Proof.
  intros Hi. assert (101 <= chainCacheCapFromEnv env) as Hcap.
  { pose proof (chainCacheCap_room env). unfold chainProtectedBack in *. change MaxReorgDepth with 100 in *. lia. }
  destruct (loadFromStorage_spec main known c _ Hi Hcap) as (c' & E & Hi' & W & Es).
  exists c'. unfold NewChain. rewrite E. pose proof Hi as [H _]. pose proof Hi' as [H' _].
  split_and!; try done.
  - by rewrite (co_best _ _ _ H), (co_best _ _ _ H').
  - by rewrite (co_height _ _ _ H), (co_height _ _ _ H').
  - by rewrite (co_total _ _ _ H), (co_total _ _ _ H').
  - intros ki. by rewrite (isKeyImageSpentLocked_main main known c' ki H'), (isKeyImageSpentLocked_main main known c ki H).
  - intros i Hu. by rewrite (getBlockByHeight_main main known c' i H' Hu), (getBlockByHeight_main main known c i H Hu).
Qed.
