(* ===== verification/ForkChoice.v ===== *)
(** * Fork choice

    [ProcessBlock] against the abstract state: the main chain and the tree of
    known blocks. *)

From S2P Require Import Prelude Bytes Crypto Pow Transaction TxCodec Block ExchangeSort Consensus Hoare Reads Difficulty Memo Emission Validation Validity Storage StorageFacts Commit Chain Cache ChainInv Branches Ancestors Learn Reorg.

Section ForkChoice.
Context `{HC : Crypto} `{!CryptoLaws HC} `{HN : Network} `{HM : MathLib} `{HJ : JSON} `{!JSONLaws HJ}.

(** A lookup of the presence of a block is exact. *)
Lemma HasBlock_known main known c hash :
  chain_inv main known c →
  bool_decide (is_Some (blocks c !! hash)) || HasBlock_db (storage c) hash = bool_decide (is_Some (known hash)).
Proof.
  intros [H Hs]. unfold HasBlock_db, View. apply eq_true_iff_eq.
  rewrite orb_true_iff, !bool_decide_eq_true. split.
  - intros [[b Hb]|Hb]; [apply (co_cached _ _ _ H) in Hb; eauto|].
    apply (co_decodes _ _ _ H) in Hb as [b Hb]. apply (co_stored _ _ _ H) in Hb. eauto.
  - intros [b Hb]. right. apply Hs in Hb. unfold stored in Hb.
    destruct (bucketBlocks _ !! hash); [eauto|done].
Qed.

(** The new block in the cache, with its work. *)
Lemma insert_pending main known c b l :
  chain_inv main known c → known (BlockHash b) = None → good_path (learn known b) (l ++ [b]) (BlockHash b) →
  ∃ c', cache_block (BlockHash b) b (branch_work (l ++ [b])) c = (Ok tt, c') ∧
        pending main known b c' ∧ same_state c c'.
Proof.
  intros [H Hs] Hn Hg. pose proof (learn_extends known b Hn) as He.
  pose proof (tree_learn _ _ _ (co_tree _ _ _ H) Hn Hg) as Ht.
  pose proof (core_mono _ _ _ _ He Ht H) as H1.
  pose proof (core_insert_touch _ _ _ _ _ H1 (learn_self known b)) as H2.
  set (c2 := cacheTouch (BlockHash b) (on_blocks (<[BlockHash b := b]>) c)) in *.
  assert (same_state c c2) as S2.
  { etrans; [|apply evicts_same, cacheTouch_evicts]. by split. }
  destruct (here_workAt main (learn known b) c2 (BlockHash b) _ (l ++ [b]) c2 ltac:(by split) (proj1 Hg) eq_refl) as [H3 S3].
  destruct (cacheTrim_core _ _ _ H3) as (c' & E & H' & Ev).
  assert (same_state c c') as Ss by (etrans; [exact S2|]; etrans; [exact S3|]; by apply evicts_same).
  exists c'. split_and!; [exact E| |done]. split; [done|by eapply settled_same|].
  rewrite (ss_storage _ _ Ss). apply (co_stored _ _ _ H).
Qed.

(** ** Outcomes *)

(** The heavier branch became the main chain. *)
Definition advanced (main : list Block) (known : bytes → option Block) (b : Block) (c' : Chain) : Prop :=
  ∃ base disc conn, main = base ++ disc ∧ base ≠ [] ∧ last conn = Some b ∧
    Z.of_nat (length disc) <= MaxReorgDepth ∧ branch_work main < branch_work (base ++ conn) ∧
    chain_inv (base ++ conn) (learn known b) c'.

Lemma switched_advanced main known b c0 c l :
  pending main known b c0 → path_to (learn known b) l (BlockHash b) → branch_work main < branch_work l →
  switched main (learn known b) c0 (BlockHash b) c → advanced main known b c.
Proof.
  intros [_ Hs _] Hl Hw (base & disc & conn & Em & Hb & Hco & Hd & H & Ebest & Hold & Hnew).
  pose proof (co_main _ _ _ H) as (Hp & _). rewrite Ebest in Hp.
  rewrite (path_to_unique _ _ _ _ Hl Hp) in Hw.
  assert (last conn = Some b) as Hlast.
  { destruct conn as [|x conn _] using rev_ind; [done|]. rewrite last_snoc. rewrite app_assoc in Hp.
    destruct (path_to_last _ _ _ _ Hp) as [_ Hx]. by rewrite learn_self in Hx. }
  exists base, disc, conn. split_and!; try done. split; [done|]. intros hash x Hx. unfold learn in Hx.
  case_decide as Hd'; [|by apply Hold, Hs]. simplify_eq. apply Hnew. by apply last_Some_elem_of.
Qed.

(** The block joined the tree beside the main chain. *)
Lemma SaveBlock_fork main known b c :
  pending main known b c →
  match on_disk (SaveBlock b) c with
  | (Ok _, c') => chain_inv main (learn known b) c'
  | (Err _, c') => core main (learn known b) c' ∧ settled known c'
  | (Panic, _) => False
  end.
Proof.
  intros [H Hs _]. unfold on_disk.
  pose proof (SaveBlock_spec (learn known b) (storage c) main (totalWork c) b (co_rep _ _ _ H)
    (co_stored _ _ _ H) (learn_self known b)) as Hsp.
  destruct (SaveBlock b (storage c)) as [[u|e|] s]; [| |done].
  - destruct Hsp as [R Hg]. split.
    + destruct H. split; cbn; try done.
      * apply (grows_view _ _ _ _ Hg).
      * by apply (grows_decodes _ _ _ _ Hg).
      * destruct co_lru. by split.
    + intros hash x Hx. cbn. unfold learn in Hx. case_decide.
      * simplify_eq. apply (grows_new _ _ _ _ Hg). by left.
      * by apply (grows_old _ _ _ _ Hg), Hs.
  - split.
    + destruct H. split; cbn; rewrite ?Hsp; try done. destruct co_lru. by split.
    + intros hash x Hx. cbn. rewrite Hsp. by apply Hs.
Qed.

(** What a call may do to the chain. *)
Definition outcome (now : Z) (b : Block) (main : list Block) (known : bytes → option Block) (c : Chain)
    (r : result (bool * bool)) (c' : Chain) : Prop :=
  match r with
  | Ok (false, m) => m = false ∧ c' = c ∧ is_Some (known (BlockHash b))
  | Ok (true, m) =>
      known (BlockHash b) = None ∧ acceptable main known now c b ∧
      ∃ l, parent_branch known b l ∧
           if m then branch_work main < branch_work (l ++ [b]) ∧ advanced main known b c'
           else branch_work (l ++ [b]) <= branch_work main ∧ chain_inv main (learn known b) c'
  | Err e =>
      chain_inv main known c' ∨
      ∃ e', e = Wrapf "failed to save fork block" e' ∧ core main (learn known b) c' ∧ settled known c'
  | Panic => False
  end.

Lemma adopt_spec main known c b l :
  tree_ok known → known (BlockHash b) = None → good_path known main (tip_hash [] main) →
  pending main known b c → path_to (learn known b) (l ++ [b]) (BlockHash b) →
  (branch_work main < branch_work (l ++ [b]) → 0 < Height (Header b)) →
  match adopt (BlockHash b) b (branch_work (l ++ [b])) c with
  | (Ok (true, true), c') => branch_work main < branch_work (l ++ [b]) ∧ advanced main known b c'
  | (Ok (true, false), c') => branch_work (l ++ [b]) <= branch_work main ∧ chain_inv main (learn known b) c'
  | (Err e, c') =>
      chain_inv main known c' ∨
      ∃ e', e = Wrapf "failed to save fork block" e' ∧ core main (learn known b) c' ∧ settled known c'
  | _ => False
  end.
Proof.
  intros Ht Hn Hm Hp Hl Hh. pose proof (pe_core _ _ _ _ Hp) as H.
  unfold adopt, mbind at 1, M_bind at 1, get. rewrite (co_total _ _ _ H).
  destruct (Z.ltb_spec (branch_work main) (branch_work (l ++ [b]))) as [Hw|Hw].
  - pose proof (reorganizeTo_triple main (learn known b) c (l ++ [b]) (BlockHash b) Hl b (learn_self _ _) (Hh Hw) c
      ltac:(by split)) as Hr.
    unfold mbind at 1, M_bind at 1, on_error. destruct (reorganizeTo _ c) as [[u|e|] c1]; [|left|done].
    + split; [done|]. by eapply switched_advanced.
    + destruct Hr as [H1 E1]. apply (cacheForget_core main known b c1); [done..|].
      destruct Hp as [_ Hs Hst]. split; [done|by intros ??; rewrite E1; apply Hs|by rewrite E1].
  - pose proof (SaveBlock_fork _ _ _ _ Hp) as Hs. unfold mbind, M_bind, wrapM.
    destruct (on_disk (SaveBlock b) c) as [[u|e|] c1]; [done| |done]. right. eauto.
Qed.

Lemma valid_height main known now c b : tree_ok known → acceptable main known now c b → 0 <= Height (Header b).
Proof.
  intros Ht (_ & l & _ & _ & [[-> _]|(_ & p & Hp & (-> & _) & _)]); [done|]. apply u64_range.
Qed.

(** A genesis block does not outweigh a chain. *)
Lemma genesis_light main known now c b l :
  good_path known main (tip_hash [] main) → acceptable main known now c b → parent_branch known b l →
  0 <= Height (Header b) → branch_work main < branch_work (l ++ [b]) → 0 < Height (Header b).
Proof.
  intros ((Hne & _) & _ & Hs & _) (_ & l' & Hl' & _ & Hv) Hl Hh Hw.
  destruct (decide (Height (Header b) = 0)) as [Hz|]; [|lia]. unfold parent_branch in Hl. rewrite Hz in Hl. cbn in Hl.
  subst l. destruct Hv as [[_ (_ & _ & _ & Hd & _)]|[? _]]; [|done].
  pose proof (branch_work_length main Hs). rewrite branch_work_snoc, Hd in Hw. unfold branch_work at 2, MinDifficulty in Hw.
  destruct main; [done|]. simpl in *. lia.
Qed.

(** The part of [ProcessBlock] after validation. *)
Definition process_valid (block : Block) : M Chain (bool * bool) :=
  parentWork ← (if 0 <? Height (Header block)
                then wrapM "failed to compute parent work"
                       (cumulativeWorkAtLocked (PrevHash (Header block)))
                else mret 0);
  blockWork ← lift (wrap "failed to compute cumulative work"
                      (addCumulativeWork parentWork (Difficulty (Header block))));
  cache_block (BlockHash block) block blockWork;;
  adopt (BlockHash block) block blockWork.

Lemma parentWork_triple main known c b l :
  parent_branch known b l →
  triple (reading_from main known c)
    (if 0 <? Height (Header b)
     then wrapM "failed to compute parent work" (cumulativeWorkAtLocked (PrevHash (Header b))) else mret 0)
    (λ w c', reading_from main known c c' ∧ w = branch_work l) (λ _ c', reading_from main known c c').
Proof.
  unfold parent_branch. intros Hpb. destruct (0 <? Height (Header b)).
  - apply triple_wrap. eapply triple_weaken; [apply cumulativeWorkAtLocked_triple|done| |done].
    intros w c' (Hc' & l' & Hl' & ->). split; [done|]. by rewrite (path_to_unique _ _ _ _ Hpb Hl').
  - apply triple_ret. intros c' Hc'. by subst l.
Qed.

Lemma branch_work_u64 known l hash : good_path known l hash → is_u64 (branch_work l).
Proof. intros (_ & _ & Hs & ?). pose proof (branch_work_length l Hs). unfold is_u64. lia. Qed.

Lemma parent_branch_work known b l : tree_ok known → parent_branch known b l → is_u64 (branch_work l).
Proof.
  unfold parent_branch. intros Ht Hp. destruct (0 <? _); [|subst l; unfold is_u64, branch_work; simpl; lia].
  destruct l as [|x l _] using rev_ind; [by destruct Hp|]. destruct (path_to_last _ _ _ _ Hp) as [_ Hk].
  destruct (Ht _ _ Hk) as (k & Hg). rewrite (path_to_unique _ _ _ _ Hp (proj1 Hg)). by eapply branch_work_u64.
Qed.

Lemma process_valid_triple now b main known c :
  Forall wf_tx (Transactions b) → chain_inv main known c → known (BlockHash b) = None → acceptable main known now c b →
  triple (reading_from main known c) (process_valid b)
    (λ r c', outcome now b main known c (Ok r) c') (λ e c', outcome now b main known c (Err e) c').
Proof.
  intros Hwf Hi Hn Hacc. pose proof Hacc as (_ & l & Hpb & Hv). pose proof Hi as [H Hs].
  pose proof (co_tree _ _ _ H) as Ht. pose proof (valid_height _ _ _ _ _ Ht Hacc) as Hh.
  pose proof (co_main _ _ _ H) as Hm. rewrite (co_best _ _ _ H) in Hm.
  unfold process_valid. eapply triple_bind.
  { eapply triple_weaken; [by apply parentWork_triple|done|done|]. intros e c' [H' S']. left. by eapply inv_same. }
  intros w c1 [[H1 S1] ->]. pose proof (inv_same _ _ _ _ Hi H1 S1) as Hi1.
  unfold mbind at 1, M_bind at 1, lift.
  destruct (addCumulativeWork (branch_work l) (Difficulty (Header b))) as [w|e|] eqn:Ew; [|by left|].
  2: { unfold addCumulativeWork in Ew. by destruct (_ <? _). }
  assert (0 <= Difficulty (Header b)) as Hd.
  { destruct Hv as (_ & [[_ (_ & _ & _ & -> & _)]|(_ & p & _ & (_ & _ & _ & ? & _) & _)]); unfold MinDifficulty in *; lia. }
  apply addCumulativeWork_Ok in Ew as [-> Hlt]; [|by eapply parent_branch_work|done].
  pose proof (valid_extends _ _ _ _ _ _ Ht Hn Hwf Hpb Hv Hlt) as Hg.
  cbn [wrap]. rewrite <- branch_work_snoc.
  destruct (insert_pending _ _ _ _ _ Hi1 Hn Hg) as (c2 & E2 & Hp & S2). unfold mbind, M_bind. rewrite E2.
  pose proof (adopt_spec main known c2 b l Ht Hn Hm Hp (proj1 Hg)
    ltac:(by eapply genesis_light)) as Ha.
  destruct (adopt _ _ _ c2) as [[[[] []]|e|] c3]; [| |done|done|exact Ha|done].
  - split_and!; [done|done|]. by exists l.
  - split_and!; [done|done|]. by exists l.
Qed.

Lemma ProcessBlock_spec now b main known c :
  Forall wf_tx (Transactions b) → chain_inv main known c →
  outcome now b main known c (fst (ProcessBlock now b c)) (snd (ProcessBlock now b c)).
Proof.
  intros Hwf Hi. pose proof (HasBlock_known _ _ _ (BlockHash b) Hi) as Hhas.
  change (ProcessBlock now b) with (c ← get;
    if bool_decide (is_Some (blocks c !! BlockHash b)) then mret (false, false)
    else if HasBlock_db (storage c) (BlockHash b) then mret (false, false)
    else validateBlockForProcess now b;; process_valid b).
  unfold mbind at 1 3, M_bind at 1 3, get. destruct (decide (is_Some (known (BlockHash b)))) as [Hk|Hk].
  { rewrite (bool_decide_eq_true_2 (is_Some (known _))) in Hhas by done.
    destruct (bool_decide _); [|simpl in Hhas; rewrite Hhas]; done. }
  rewrite (bool_decide_eq_false_2 (is_Some (known _))) in Hhas by done.
  apply orb_false_iff in Hhas as [-> ->]. unfold mbind, M_bind.
  assert (known (BlockHash b) = None) as Hn by (destruct (known _); [destruct Hk; eauto|done]).
  destruct (validateBlockForProcess_decides main known now b c Hwf Hi) as (r & (c1 & E1 & Hi1 & S1) & Hsafe & Hr).
  rewrite E1. destruct r as [[]|e|]; [|by left|done].
  pose proof (process_valid_triple now b main known c Hwf Hi Hn (proj1 Hr eq_refl) c1 ltac:(by split; [apply Hi1|])) as Hp.
  by destruct (process_valid b c1) as [[]].
Qed.

End ForkChoice.

(** C2. [ProcessBlock] refines the abstract step of the fork choice.  On a
    chain in its invariant, with main chain [main] and tree of blocks
    [known], a call never panics, and: it reports a duplicate exactly for a
    known block and then changes nothing; a block it accepts is new, matches
    the checkpoints and is valid in the context of its parent's branch (key
    images unspent on that branch and on the main chain, ring members outputs
    of the main chain); if the branch that ends in the block has more work
    than the main chain, the main chain becomes a branch that ends in the
    block, by disconnecting at most 100 blocks; otherwise it stays, and the
    block joins the tree.  An error leaves main chain and tree as they were,
    except when saving a fork block fails: then the block stays in memory. *)
Theorem process_block_outcome `{HC : Crypto} `{!CryptoLaws HC} `{HN : Network} `{HM : MathLib} `{HJ : JSON}
    `{!JSONLaws HJ} now b main known c :
  Forall wf_tx (Transactions b) → chain_inv main known c →
  ∃ r c', ProcessBlock now b c = (r, c') ∧ r ≠ Panic ∧ outcome now b main known c r c'.
Proof.
  intros Hwf Hi. pose proof (ProcessBlock_spec now b main known c Hwf Hi) as Ho.
  destruct (ProcessBlock now b c) as [r c']. exists r, c'. split_and!; [done| |done]. by intros ->.
Qed.
