(* ===== verification/Lawful.v ===== *)
(** * Blocks that obey the rules of their branch

    Every block of the tree was validated against the branch of its parent
    when it came in.  The rules read that branch only, so that they still
    hold whatever blocks came later. *)

From S2P Require Import Prelude Bytes Crypto Pow Transaction Block ExchangeSort Consensus Hoare Reads Difficulty Memo Emission Validation Validity Storage StorageFacts Chain Cache ChainInv Branches Ancestors Windows Learn ForkChoice.

Section Lawful.
Context `{HC : Crypto} `{!CryptoLaws HC} `{HN : Network} `{HM : MathLib}.
Implicit Types known : bytes → option Block.

(** The header rules that relate a block to its parent's branch. *)
Definition obeys_parent known (b p : Block) : Prop :=
  expected_difficulty known p = Ok (Difficulty (Header b)) ∧
  (∃ m, median_time known p 11 = Ok m ∧ m < Timestamp (Header b)) ∧
  Timestamp (Header p) < Timestamp (Header b).

Definition lawful known : Prop := ∀ hash b, known hash = Some b →
  0 <= Timestamp (Header b) < 2 ^ 63 ∧
  (Height (Header b) ≠ 0 → ∃ p, known (PrevHash (Header b)) = Some p ∧ obeys_parent known b p).

(** The rules at a block whose branch is known. *)
Lemma rules_mono known known' p hash :
  tree_ok known → extends known known' → known hash = Some p →
  expected_difficulty known' p = expected_difficulty known p ∧ median_time known' p 11 = median_time known p 11.
Proof.
  intros Ht He Hp. destruct (Ht _ _ Hp) as (l & (Hpath & _)).
  pose proof (path_to_mono _ _ _ _ He Hpath) as Hpath'.
  rewrite (expected_difficulty_path known l p hash Hpath), (expected_difficulty_path known' l p hash Hpath').
  split; [done|]. destruct (median_time_path known l p hash 11 Hpath) as (m & -> & Em); [done|].
  destruct (median_time_path known' l p hash 11 Hpath') as (m' & -> & Em'); [done|]. congruence.
Qed.

Lemma obeys_mono known known' b p hash :
  tree_ok known → extends known known' → known hash = Some p → obeys_parent known b p → obeys_parent known' b p.
Proof.
  intros Ht He Hp (Hd & Hm & Hts). destruct (rules_mono _ _ _ _ Ht He Hp) as [E1 E2].
  unfold obeys_parent. by rewrite E1, E2.
Qed.

Lemma genesis_timestamp : 0 <= ActiveGenesisTimestamp < 2 ^ 63.
Proof. unfold ActiveGenesisTimestamp, GenesisTimestamp, TestnetGenesisTimestamp. destruct IsTestnet; lia. Qed.

(** A valid block keeps the tree lawful. *)
Lemma lawful_learn known now sp can skip b :
  tree_ok known → lawful known → known (BlockHash b) = None → wf_block b →
  valid_block now known sp can skip b → lawful (learn known b).
Proof.
  intros Ht Hl Hn [Hwf _] Hv hash x Hx. pose proof (learn_extends known b Hn) as He.
  unfold learn in Hx. case_decide as Hd.
  - simplify_eq. destruct Hv as [_ [[Hz (_ & _ & Hts & _)]|(Hz & p & Hp & Hlink & _)]].
    + rewrite Hts. split; [apply genesis_timestamp|done].
    + destruct Hlink as (_ & [Hts _] & Hd & _ & Hm). destruct (Hl _ _ Hp) as [Htp _].
      assert (is_i64 (Timestamp (Header x))) as Hi by apply Hwf. unfold is_i64 in Hi. split; [lia|].
      intros _. exists p. split; [by apply He|]. by eapply obeys_mono.
  - destruct (Hl _ _ Hx) as [Hts Hp]. split; [done|]. intros Hz. destruct (Hp Hz) as (p & Hk & Ho).
    exists p. split; [by apply He|]. by eapply obeys_mono.
Qed.

(** Along a branch: the rule for each block in terms of the blocks below. *)
Lemma lawful_path known l b hash :
  lawful known → path_to known (l ++ [b]) hash → l ≠ [] →
  branch_difficulty l = Ok (Difficulty (Header b)) ∧
  (∃ m, branch_median l 11 = Some m ∧ m < Timestamp (Header b)) ∧
  (∃ p, last l = Some p ∧ 0 <= Timestamp (Header p) < Timestamp (Header b)) ∧ Timestamp (Header b) < 2 ^ 63.
Proof.
  intros Hl Hp Hne. destruct (path_to_last _ _ _ _ Hp) as [_ Hk].
  pose proof (linked_snoc_height _ _ (proj1 (proj2 Hp))) as Hh.
  destruct (path_snoc_parent known _ _ _ Hp Hne) as (k & p & -> & Hpp & Hkp).
  destruct (Hl _ _ Hk) as [Hts Hob]. destruct Hob as (p' & Hkp' & Hd & (m & Hm & Hmt) & Hpt).
  { rewrite length_app in Hh. simpl in Hh. lia. }
  assert (p' = p) as -> by congruence. rewrite (expected_difficulty_path known k p _ Hpp) in Hd.
  destruct (median_time_path known k p _ 11 Hpp) as (m' & Em & Em'); [done|].
  split_and!; [done| | |lia].
  - exists m'. split; [done|]. congruence.
  - exists p. rewrite last_snoc. split; [done|]. destruct (Hl _ _ Hkp) as [? _]. lia.
Qed.

End Lawful.
