(* ===== verification/Verify.v ===== *)
(** * The audit of the stored chain

    [VerifyChain] and [VerifyChainWithCheckpoints] recompute the header rules
    of the main chain from flat slices of blocks.  They agree with the rules
    block validation applies, so that a chain built by validation has no
    violations. *)

From S2P Require Import Prelude Bytes Crypto Pow Transaction TxCodec Block ExchangeSort Consensus Hoare Reads Difficulty Memo Emission Validation Validity Storage StorageFacts Chain ChainOps Cache ChainInv Branches Ancestors Windows Learn ForkChoice Lawful.

Section Audit.
Context `{HC : Crypto} `{!CryptoLaws HC} `{HN : Network} `{HM : MathLib} `{HJ : JSON} `{!JSONLaws HJ}.

(** ** Slices *)

Lemma load_range_list c l n i :
  (∀ j, (i <= j < i + n)%nat → getBlockByHeight c (Z.of_nat j) = l !! j) → (i + n <= length l)%nat →
  load_range c (Z.of_nat i) n = inr (take n (drop i l)).
Proof.
  revert i. induction n as [|n IH]; intros i Hl Hn; cbn [load_range]; [done|].
  destruct (lookup_lt_is_Some_2 l i ltac:(lia)) as [b Hb]. rewrite Hl, Hb by lia.
  replace (Z.of_nat i + 1) with (Z.of_nat (S i)) by lia.
  rewrite (IH (S i)); [by rewrite (drop_S _ _ _ Hb)| |lia]. intros j Hj. apply Hl. lia.
Qed.

Lemma nthZ_nat {A} (l : list A) i : nthZ l (Z.of_nat i) = l !! i.
Proof. unfold nthZ. rewrite (proj2 (Z.ltb_ge _ _)) by lia. by rewrite Nat2Z.id. Qed.

(** The two rules computed from any slice [at_] that agrees with the branch
    [l] on the window. *)
Lemma lwma_slice at_ l :
  (LWMAWindow < length l)%nat →
  (∀ j, (length l - S LWMAWindow <= j < length l)%nat → at_ (Z.of_nat j) = l !! j) →
  lwma (λ i, at_ (Z.of_nat (length l) - 1 - Z.of_nat LWMAWindow + i)) = lwma (nthZ (lastn (S LWMAWindow) l)).
Proof.
  intros Hl Hat. apply lwma_ext. intros j Hj. change LWMAWindow with 60%nat in *.
  replace (Z.of_nat (length l) - 1 - Z.of_nat 60 + j) with (Z.of_nat (length l - 61 + Z.to_nat j)) by lia.
  rewrite Hat by lia. rewrite <- (Z2Nat.id j) at 2 by lia. rewrite nthZ_nat. unfold lastn. by rewrite lookup_drop.
Qed.

Lemma timestamps_slice at_ l n :
  (n <= length l)%nat → (∀ j, (length l - n <= j < length l)%nat → at_ (Z.of_nat j) = l !! j) →
  timestamps_before at_ (Z.of_nat (length l)) n = Some (lastn n ((λ b, Timestamp (Header b)) <$> l)).
Proof.
  intros Hn Hat. apply mapM_Some_2, Forall2_same_length_lookup_2.
  - rewrite length_lastn, length_seqZ, length_fmap. lia.
  - intros i x y Hx Hy. apply lookup_seqZ in Hx as [-> Hi]. unfold lastn in Hy.
    rewrite lookup_drop, length_fmap, list_lookup_fmap in Hy.
    replace (Z.of_nat (length l) - Z.of_nat n + (0 + Z.of_nat i)) with (Z.of_nat (length l - n + i)) by lia.
    by rewrite Hat by lia.
Qed.

Lemma median_count_spec (h : nat) : Z.of_nat h < 2 ^ 63 → median_count (Z.of_nat h) = Some (Nat.min 11 h).
Proof.
  intros Hh. unfold median_count. rewrite i64_small by (unfold_ints; lia).
  destruct (Z.ltb_spec (Z.of_nat h) 11); rewrite (proj2 (Z.ltb_ge _ 0)) by lia; f_equal; lia.
Qed.

Lemma lastn_min {A} n (l : list A) : lastn (Nat.min n (length l)) l = lastn n l.
Proof. unfold lastn. f_equal. lia. Qed.

(** ** One block *)

(** The violations of [b] on top of the branch [l]. *)
Definition violations_of (l : list Block) (b : Block) : list ChainViolation :=
  match branch_difficulty l, branch_median l 11, last l with
  | Ok d, Some m, Some p => audit_block (Z.of_nat (length l)) b p d m
  | _, _, _ => []
  end.

Lemma branch_median_total l : l ≠ [] → ∃ m, branch_median l 11 = Some m.
Proof.
  intros Hne. unfold branch_median. destruct (median_total (lastn 11 ((λ b, Timestamp (Header b)) <$> l))) as (m & -> & _); [|eauto].
  intros E%(f_equal length). rewrite length_lastn, length_fmap in E. destruct l; [done|]. cbn [length] in E. lia.
Qed.

Lemma audit_at_list l b blocks :
  l ≠ [] → l ++ [b] `prefix_of` blocks → Z.of_nat (length l) < 2 ^ 62 →
  audit_at blocks (Z.of_nat (length l)) = Ok (violations_of l b).
Proof.
  intros Hne [rest ->] Hlen. destruct l as [|p l' _] eqn:El using rev_ind; [done|]. rewrite <- El in *.
  assert (∀ j, (j < length l)%nat → nthZ ((l ++ [b]) ++ rest) (Z.of_nat j) = l !! j) as Hat.
  { intros j Hj. rewrite nthZ_nat, <- app_assoc. by rewrite lookup_app_l. }
  assert (nthZ ((l ++ [b]) ++ rest) (Z.of_nat (length l)) = Some b) as Hb.
  { rewrite nthZ_nat, <- app_assoc. by apply list_lookup_middle. }
  unfold audit_at, violations_of. rewrite Hb.
  assert (length l = S (length l')) as Elen by (rewrite El, length_app; simpl; lia).
  replace (Z.of_nat (length l) - 1) with (Z.of_nat (length l')) by lia.
  rewrite Hat by lia. replace (l !! length l') with (Some p) by (by rewrite El, list_lookup_middle).
  replace (last l) with (Some p) by (by rewrite El, last_snoc).
  destruct (branch_difficulty_total l) as [d Ed]. destruct (branch_median_total l Hne) as [m Em]. rewrite Ed, Em.
  assert ((if Z.of_nat (length l') <? Z.of_nat LWMAWindow then Ok MinDifficulty
           else computeLWMA ((l ++ [b]) ++ rest) (Z.of_nat (length l'))) = Ok d) as ->.
  { rewrite <- Ed. unfold branch_difficulty, computeLWMA.
    destruct (Z.ltb_spec (Z.of_nat (length l')) (Z.of_nat LWMAWindow));
      destruct (Z.leb_spec (Z.of_nat (length l)) (Z.of_nat LWMAWindow)); try lia; [done|].
    rewrite (lwma_ext _ (λ i, nthZ ((l ++ [b]) ++ rest) (Z.of_nat (length l) - 1 - Z.of_nat LWMAWindow + i))).
    - rewrite lwma_slice; [done|lia|]. intros j Hj. apply Hat. lia.
    - intros j Hj. f_equal. rewrite u64_small by (unfold_ints; lia). lia. }
  cbn [mbind result_bind]. rewrite median_count_spec by lia. cbn [mbind option_bind].
  rewrite timestamps_slice by (lia || (intros; apply Hat; lia)).
  pose proof (lastn_min 11 ((λ b, Timestamp (Header b)) <$> l)) as Emin. rewrite length_fmap in Emin. rewrite Emin.
  fold (branch_median l 11). by rewrite Em.
Qed.

(** The same from a slice that starts at height [s], if it holds the window. *)
Lemma audit_tail_at_list l b blocks s :
  l ≠ [] → l ++ [b] `prefix_of` blocks → Z.of_nat (length l) < 2 ^ 62 →
  (s <= length l - S LWMAWindow)%nat →
  audit_tail_at (drop s blocks) (Z.of_nat s) (Z.of_nat (length l)) = Ok (inr (violations_of l b)).
Proof.
  intros Hne [rest ->] Hlen Hs. destruct l as [|p l' _] eqn:El using rev_ind; [done|]. rewrite <- El in *.
  assert (length l = S (length l')) as Elen by (rewrite El, length_app; simpl; lia).
  assert (∀ j, (s <= j)%nat → loaded (drop s ((l ++ [b]) ++ rest)) (Z.of_nat s) (Z.of_nat j) = ((l ++ [b]) ++ rest) !! j) as Hld.
  { intros j Hj. unfold loaded. replace (Z.of_nat j - Z.of_nat s) with (Z.of_nat (j - s)) by lia.
    rewrite nthZ_nat, lookup_drop. f_equal. lia. }
  assert (∀ j, (s <= j < length l)%nat → loaded (drop s ((l ++ [b]) ++ rest)) (Z.of_nat s) (Z.of_nat j) = l !! j) as Hat.
  { intros j Hj. rewrite Hld by lia. rewrite <- app_assoc. by rewrite lookup_app_l by lia. }
  change LWMAWindow with 60%nat in Hs.
  unfold audit_tail_at, violations_of. rewrite Hld by lia. rewrite <- app_assoc.
  replace ((l ++ [b] ++ rest) !! length l) with (Some b) by (symmetry; by apply list_lookup_middle). rewrite app_assoc.
  replace (Z.of_nat (length l) - 1) with (Z.of_nat (length l')) by lia.
  rewrite Hat by lia. replace (l !! length l') with (Some p) by (by rewrite El, list_lookup_middle).
  replace (last l) with (Some p) by (by rewrite El, last_snoc).
  destruct (branch_difficulty_total l) as [d Ed]. destruct (branch_median_total l Hne) as [m Em]. rewrite Ed, Em.
  assert ((if Z.of_nat (length l') <? Z.of_nat LWMAWindow then Some MinDifficulty
           else lwma (λ i, loaded (drop s ((l ++ [b]) ++ rest)) (Z.of_nat s) (Z.of_nat (length l') - Z.of_nat LWMAWindow + i))) = Some d) as ->.
  { unfold branch_difficulty in Ed. replace (Z.of_nat (length l')) with (Z.of_nat (length l) - 1) by lia.
    destruct (Z.ltb_spec (Z.of_nat (length l) - 1) (Z.of_nat LWMAWindow));
      destruct (Z.leb_spec (Z.of_nat (length l)) (Z.of_nat LWMAWindow)); try lia; [congruence|].
    rewrite lwma_slice; [by destruct (lwma _); [f_equal; congruence|]|lia|].
    change LWMAWindow with 60%nat. intros j Hj. apply Hat. lia. }
  rewrite median_count_spec by lia.
  rewrite timestamps_slice by (lia || (intros; apply Hat; lia)).
  pose proof (lastn_min 11 ((λ b, Timestamp (Header b)) <$> l)) as Emin. rewrite length_fmap in Emin. rewrite Emin.
  fold (branch_median l 11). by rewrite Em.
Qed.

(** ** The whole chain *)

Lemma mapM_Ok {A B} (f : A → result B) (g : A → B) l : (∀ x, x ∈ l → f x = Ok (g x)) → mapM f l = Ok (g <$> l).
Proof.
  induction l as [|x l IH]; intros Hf; cbn; [done|].
  rewrite (Hf x) by set_solver. cbn. rewrite IH by set_solver. done.
Qed.

(** The violations of the block at index [i]. *)
Definition violations_at (main : list Block) (i : nat) : list ChainViolation :=
  match main !! i with
  | Some b => violations_of (take i main) b
  | None => []
  end.

Lemma take_snoc_prefix {A} (l : list A) i b : l !! i = Some b → take i l ++ [b] `prefix_of` l.
Proof. intros Hb. rewrite <- (take_S_r _ _ _ Hb). exists (drop (S i) l). by rewrite take_drop. Qed.

Lemma VerifyChain_core main known c :
  core main known c →
  VerifyChain c = Ok (concat ((λ h, violations_at main (Z.to_nat h)) <$> seqZ 1 (height c))).
Proof.
  intros H. pose proof (co_height _ _ _ H) as Hh. pose proof (good_path_length _ _ _ (co_main _ _ _ H)) as Hlen.
  pose proof (rep_nonempty _ _ _ (co_rep _ _ _ H)) as Hne.
  assert (1 <= length main)%nat by (destruct main; [done|simpl; lia]).
  unfold VerifyChain. destruct (Z.eqb_spec (height c) 0) as [E|E]; [by rewrite E|].
  change 0 with (Z.of_nat 0) at 1. rewrite (load_range_list c main (S (Z.to_nat (height c))) 0); [| |lia].
  - rewrite drop_0, take_ge by lia. rewrite (mapM_Ok _ (λ h, violations_at main (Z.to_nat h))); [done|].
    intros h [Hh1 Hh2]%elem_of_seqZ. unfold violations_at.
    destruct (lookup_lt_is_Some_2 main (Z.to_nat h) ltac:(lia)) as [b Hb]. rewrite Hb.
    assert (Z.of_nat (length (take (Z.to_nat h) main)) = h) as El by (rewrite length_take; lia).
    rewrite <- El at 1. apply audit_at_list; [|by apply take_snoc_prefix|lia].
    intros E'. rewrite E' in El. simpl in El. lia.
  - intros j Hj. rewrite (getBlockByHeight_main main known) by (done || (unfold_ints; lia)). by rewrite Nat2Z.id.
Qed.

Lemma flag_nil cond h msg : flag cond h msg = [] ↔ cond = false.
Proof. by destruct cond. Qed.

Lemma app_nil_iff {A} (l k : list A) : l ++ k = [] ↔ l = [] ∧ k = [].
Proof. destruct l; naive_solver. Qed.

(** A block without violations. *)
Lemma violations_of_nil known l b hash :
  path_to known (l ++ [b]) hash → l ≠ [] →
  violations_of l b = [] ↔
  ∃ p, last l = Some p ∧ branch_difficulty l = Ok (Difficulty (Header b)) ∧
       (∃ m, branch_median l 11 = Some m ∧ m < Timestamp (Header b)) ∧
       1 <= i64 (Timestamp (Header b) - Timestamp (Header p)).
Proof.
  intros Hp Hne. destruct (branch_difficulty_total l) as [d Ed]. destruct (branch_median_total l Hne) as [m Em].
  destruct (path_snoc_parent known _ _ _ Hp Hne) as (k & p & El & Hpp & _).
  destruct (path_to_last _ _ _ _ Hpp) as [Eh _].
  assert (last l = Some p) as Elast by by rewrite El, last_snoc.
  unfold violations_of. rewrite Ed, Em, Elast. unfold audit_block. rewrite !app_nil_iff, !flag_nil.
  unfold bytes_neqb. rewrite Eh, bool_decide_eq_false_2 by auto. rewrite negb_false_iff, Z.eqb_eq, Z.leb_gt, Z.ltb_ge.
  split.
  - intros (_ & -> & Hm & Ht). exists p. split_and!; [done|done|by exists m|done].
  - intros (p' & [= <-] & [= ->] & (m' & [= <-] & Hm) & Ht). done.
Qed.

Lemma lawful_violations known l b hash :
  lawful known → path_to known (l ++ [b]) hash → l ≠ [] → violations_of l b = [].
Proof.
  intros Hl Hp Hne. destruct (lawful_path known l b hash Hl Hp Hne) as (Hd & Hm & (p & Hlast & Ht) & Hb).
  apply (violations_of_nil known l b hash); [done|done|]. exists p. split_and!; [done|done|done|].
  rewrite i64_small by (unfold_ints; lia). lia.
Qed.

Lemma lawful_at main known hash i :
  lawful known → path_to known main hash → (0 < i)%nat → violations_at main i = [].
Proof.
  intros Hl Hp Hi. unfold violations_at. destruct (main !! i) as [b|] eqn:Hb; [|done].
  pose proof (path_take known _ _ (S i) Hp ltac:(lia)) as Hpi. rewrite (take_S_r _ _ _ Hb) in Hpi.
  eapply lawful_violations; [done|exact Hpi|]. apply lookup_lt_Some in Hb.
  destruct main; [simpl in Hb; lia|]. by destruct i; [lia|].
Qed.

Lemma concat_nil {A} (l : list (list A)) : Forall (λ x, x = []) l → concat l = [].
Proof. induction 1 as [|x l -> _ IH]; [done|]. exact IH. Qed.

(** ** The audit behind a checkpoint *)

Lemma find_checkpoint_core main known c cps heights :
  core main known c → Forall is_u64 heights →
  ∃ used, find_checkpoint c cps heights = inr used ∧ 0 <= used <= height c.
Proof.
  intros H Hu. pose proof (co_height _ _ _ H) as Hh. pose proof (good_path_length _ _ _ (co_main _ _ _ H)) as Hlen.
  pose proof (rep_nonempty _ _ _ (co_rep _ _ _ H)) as Hne.
  assert (1 <= length main)%nat by (destruct main; [done|simpl; lia]).
  induction Hu as [|h heights Hr _ IH]; cbn [find_checkpoint]; [exists 0; split; [done|lia]|].
  destruct ((h =? 0) || (height c <? h)) eqn:Eh; [done|]. simpl_bools.
  destruct (cps !! h) as [want|]; [|done].
  rewrite (getBlockByHeight_main main known) by done. unfold is_u64 in Hr.
  destruct (lookup_lt_is_Some_2 main (Z.to_nat h) ltac:(lia)) as [b ->].
  case_decide; [|done]. exists h. split; [done|lia].
Qed.

Lemma audit_tail_clean main known c hash s heights :
  core main known c → lawful known → path_to known main hash →
  (∀ h, h ∈ heights → Z.of_nat s + Z.of_nat (S LWMAWindow) <= h ∨ s = 0%nat) →
  (∀ h, h ∈ heights → 0 < h <= height c) →
  audit_tail (drop s main) (Z.of_nat s) heights [] = Ok [].
Proof.
  intros H Hl Hp Hs Hr. pose proof (co_height _ _ _ H) as Hh.
  pose proof (good_path_length _ _ _ (co_main _ _ _ H)) as Hlen.
  induction heights as [|h heights IH]; cbn [audit_tail]; [done|].
  pose proof (Hr h ltac:(by left)) as Hrh. pose proof (Hs h ltac:(by left)) as Hsh.
  destruct (lookup_lt_is_Some_2 main (Z.to_nat h) ltac:(lia)) as [b Hb].
  assert (Z.of_nat (length (take (Z.to_nat h) main)) = h) as El by (rewrite length_take; lia).
  assert (take (Z.to_nat h) main ≠ []) as Hne by (intros E; rewrite E in El; simpl in El; lia).
  pose proof (audit_tail_at_list (take (Z.to_nat h) main) b main s Hne (take_snoc_prefix _ _ _ Hb) ltac:(lia)) as Ha.
  rewrite El in Ha. rewrite Ha by (rewrite length_take; lia). cbn [mbind result_bind].
  pose proof (lawful_at main known hash (Z.to_nat h) Hl Hp ltac:(lia)) as Hv. unfold violations_at in Hv.
  rewrite Hb in Hv. rewrite Hv. apply IH.
  - intros x Hx. apply Hs. by right.
  - intros x Hx. apply Hr. by right.
Qed.

Lemma VerifyChain_lawful main known c : core main known c → lawful known → VerifyChain c = Ok [].
Proof.
  intros H Hl. pose proof (co_main _ _ _ H) as (Hp & _). rewrite (VerifyChain_core main known c H), concat_nil; [done|].
  apply Forall_fmap, Forall_forall. intros h [? ?]%elem_of_seqZ. cbn.
  eapply lawful_at; [done|exact Hp|lia].
Qed.

Lemma VerifyChainWithCheckpoints_lawful main known c cps heights :
  core main known c → lawful known → Forall is_u64 heights →
  ∃ used, VerifyChainWithCheckpoints c cps heights = Ok ([], used).
Proof.
  intros H Hl Hu. pose proof (co_main _ _ _ H) as (Hp & _). pose proof (co_height _ _ _ H) as Hh.
  pose proof (good_path_length _ _ _ (co_main _ _ _ H)) as Hlen.
  unfold VerifyChainWithCheckpoints. destruct ((height c =? 0) || _); [by exists 0|].
  destruct (find_checkpoint_core main known c cps (reverse heights) H) as (used & -> & Hr).
  { by apply Forall_reverse. }
  exists used. destruct (Z.eqb_spec used 0) as [->|Hz]; [done|].
  destruct (Z.ltb_spec (height c) (used + 1)) as [|Hle]; [done|].
  change (if 11 <? Z.of_nat LWMAWindow + 1 then Z.of_nat LWMAWindow + 1 else 11) with 61.
  set (s := Z.to_nat (used + 1 - 61)).
  assert ((if 61 <? used + 1 then used + 1 - 61 else 0) = Z.of_nat s) as ->
    by (unfold s; destruct (Z.ltb_spec 61 (used + 1)); lia).
  rewrite (load_range_list c main (Z.to_nat (height c - Z.of_nat s + 1)) s); [| |unfold s; lia].
  - rewrite take_ge by (rewrite length_drop; unfold s; lia).
    rewrite (audit_tail_clean main known c _ s _ H Hl Hp); [done| |].
    + intros h [? ?]%elem_of_seqZ. change LWMAWindow with 60%nat. unfold s. lia.
    + intros h [? ?]%elem_of_seqZ. lia.
  - intros j Hj. rewrite (getBlockByHeight_main main known) by (done || (unfold_ints; unfold s in *; lia)). by rewrite Nat2Z.id.
Qed.

End Audit.

(** C21. The audit is exact: on a chain in its invariant [VerifyChain], which
    recomputes the rules from a flat slice of the stored blocks, reports no
    violation if and only if every block of the main chain above genesis has
    the difficulty that block validation derives by walking the links of its
    parent, a timestamp after the median of the parent's branch, and at
    least one second after its parent's timestamp.  It never panics. *)
Theorem verify_chain_exact `{HC : Crypto} `{!CryptoLaws HC} `{HN : Network} `{HM : MathLib} `{HJ : JSON}
    `{!JSONLaws HJ} main known c :
  core main known c →
  ∃ violations, VerifyChain c = Ok violations ∧
  (violations = [] ↔
   ∀ i p b, main !! i = Some p → main !! S i = Some b →
     expected_difficulty known p = Ok (Difficulty (Header b)) ∧
     (∃ m, median_time known p 11 = Ok m ∧ m < Timestamp (Header b)) ∧
     1 <= i64 (Timestamp (Header b) - Timestamp (Header p))).
Proof.
  intros H. eexists. split; [by eapply VerifyChain_core|].
  pose proof (co_main _ _ _ H) as (Hp & _). pose proof (co_height _ _ _ H) as Hh.
  assert (∀ i p b, main !! i = Some p → main !! S i = Some b →
    violations_at main (S i) = [] ↔
     expected_difficulty known p = Ok (Difficulty (Header b)) ∧
     (∃ m, median_time known p 11 = Ok m ∧ m < Timestamp (Header b)) ∧
     1 <= i64 (Timestamp (Header b) - Timestamp (Header p))) as Hv.
  { intros i p b Hi Hb. unfold violations_at. rewrite Hb.
    pose proof (path_take known _ _ (S (S i)) Hp ltac:(lia)) as Hpb. rewrite (take_S_r _ _ _ Hb) in Hpb.
    pose proof (take_S_r _ _ _ Hi) as Ei.
    pose proof (path_parent known _ _ _ Hpb ltac:(rewrite Ei; by destruct (take i main))) as Hpp. rewrite Ei in Hpp.
    rewrite (violations_of_nil known _ _ _ Hpb) by (rewrite Ei; by destruct (take i main)). rewrite Ei, last_snoc.
    rewrite (expected_difficulty_path known _ _ _ Hpp).
    destruct (median_time_path known _ _ _ 11 Hpp) as (m & Em & Em'); [done|]. rewrite Em, Em'. naive_solver. }
  split.
  - intros Hc i p b Hi Hb. apply (Hv i p b Hi Hb). apply lookup_lt_Some in Hb.
    destruct (violations_at main (S i)) as [|v vs] eqn:E; [done|]. exfalso.
    assert (v ∈ concat ((λ h, violations_at main (Z.to_nat h)) <$> seqZ 1 (height c))) as Hin; [|rewrite Hc in Hin; set_solver].
    apply list_elem_of_In, in_concat. exists (violations_at main (S i)). rewrite E. split; [|by left].
    rewrite <- E. apply list_elem_of_In, list_elem_of_fmap. exists (Z.of_nat (S i)). rewrite Nat2Z.id. split; [done|].
    apply elem_of_seqZ. lia.
  - intros Hall. apply concat_nil, Forall_fmap, Forall_forall. intros h [? ?]%elem_of_seqZ. cbn.
    destruct (lookup_lt_is_Some_2 main (Z.to_nat h) ltac:(lia)) as [b Hb].
    destruct (lookup_lt_is_Some_2 main (Z.to_nat (h - 1)) ltac:(lia)) as [p Hp'].
    replace (Z.to_nat h) with (S (Z.to_nat (h - 1))) in Hb |- * by lia.
    apply (Hv _ p b Hp' Hb). by eapply Hall.
Qed.
