(* ===== verification/Genesis.v ===== *)
(** * The first block

    [addGenesisBlock] on an empty database establishes the invariant that
    [ProcessBlock] preserves. *)

From S2P Require Import Prelude Bytes Crypto Pow Transaction TxCodec Block ExchangeSort Consensus Hoare Reads Difficulty Memo Emission Validation Validity Storage StorageFacts Commit Chain Cache ChainInv Branches Ancestors Learn Reorg ForkChoice.

Section Genesis.
Context `{HC : Crypto} `{!CryptoLaws HC} `{HN : Network} `{HM : MathLib} `{HJ : JSON} `{!JSONLaws HJ}.

(** A chain just opened on an empty database. *)
Record fresh (c : Chain) : Prop := {
  fr_db : db (storage c) = empty_db;
  fr_blocks : blocks c = ∅;
  fr_workAt : workAt c = ∅;
  fr_byHeight : byHeight c = ∅;
  fr_keyImages : keyImages c = ∅;
  fr_lru : lru_ok c;
  fr_cap : 101 <= cacheCap c;
}.

(** Nothing is known but one block. *)
Definition only (b : Block) : bytes → option Block := learn (λ _, None) b.

(** Validation of a genesis block reads nothing but the checkpoints. *)
Lemma validateBlockForProcess_genesis now b c u c' :
  Height (Header b) = 0 → validateBlockForProcess now b c = (Ok u, c') → c' = c ∧ valid_genesis b.
Proof.
  intros Hz. unfold validateBlockForProcess. rewrite Hz. cbn [Z.ltb Z.compare].
  unfold mbind, M_bind, mret, M_ret, get, lift. cbv beta iota. cbn [fst snd].
  destruct (check_checkpoint c b) as [[]|e|]; [|done|done].
  unfold validateBlockWithContext, checkM, check, mbind, M_bind, lift. rewrite Hz. cbn [Z.eqb].
  destruct (HVersion (Header b) =? 0); [done|].
  destruct (validateGenesisBlock b) as [[]|e|] eqn:E; [|done|done]. intros [= <- <-].
  split; [done|]. by apply validateGenesisBlock_Ok.
Qed.

Definition genesis_db (b : Block) (data : bytes) (work : Z) : DB :=
  MkDB {[BlockHash b := data]} {[heightKey 0 := BlockHash b]} ∅ ∅
    (<[metaKeyWork := be_bytes 8 work]> (<[metaKeyHeight := be_bytes 8 0]> {[metaKeyTip := BlockHash b]})).

Lemma genesis_commit b s work u s' :
  Height (Header b) = 0 → db s = empty_db →
  CommitBlock (MkBlockCommit b 0 (BlockHash b) work true [] []) s = (Ok u, s') →
  ∃ data, marshal_block b = Ok data ∧ db s' = genesis_db b data work.
Proof.
  intros Hz Hd. unfold CommitBlock, checkM, check, mbind, M_bind, lift. cbn [CHeight CBlock CHash IsMainTip NewOutputs SpentKeyImgs CWork].
  rewrite Hz. cbn [Z.eqb negb]. rewrite bool_decide_eq_false_2 by auto.
  destruct (marshal_block b) as [data|e|]; [|done|done]. intros E.
  match type of E with Update ?f s = _ => pose proof (Update_run f s) as Hu end. rewrite E in Hu.
  destruct Hu as [u' Hu]. exists data. split; [done|]. rewrite Hd in Hu. cbn in Hu.
  unfold check_tip_linkage, readTipMeta in Hu. cbn in Hu. injection Hu as _ <-. reflexivity.
Qed.

Lemma only_good b : valid_genesis b → Height (Header b) = 0 → good_path (only b) [b] (BlockHash b).
Proof.
  intros (_ & _ & _ & Hd & _ & Htx) Hz. split_and!.
  - split_and!; [done|by split|done|]. intros x ->%list_elem_of_singleton. apply learn_self.
  - unfold chain_key_images, block_key_images. simpl. rewrite Htx. constructor.
  - apply Forall_singleton. split; [lia|]. by rewrite Htx.
  - unfold branch_work. simpl. rewrite Hd. done.
Qed.

Lemma genesis_represents b data w :
  valid_genesis b → Height (Header b) = 0 → marshal_block b = Ok data → 
  represents (genesis_db b data w) [b] w.
Proof.
  intros (_ & _ & _ & _ & _ & Htx) Hz Hm. split.
  - done.
  - simpl. lia.
  - by split.
  - cbn [bucketMeta bucketHeights bucketBlocks bucketKeyImages genesis_db]. rewrite lookup_insert_ne, lookup_insert_ne by done. apply lookup_singleton_eq.
  - cbn [bucketMeta bucketHeights bucketBlocks bucketKeyImages genesis_db]. by rewrite lookup_insert_ne, lookup_insert_eq by done.
  - cbn [bucketMeta bucketHeights bucketBlocks bucketKeyImages genesis_db]. by rewrite lookup_insert_eq.
  - intros h Hh. cbn [bucketMeta bucketHeights bucketBlocks bucketKeyImages genesis_db]. destruct (decide (h = 0)) as [->|Hne]; [by rewrite lookup_singleton_eq|].
    rewrite lookup_singleton_ne; [|intros E; apply heightKey_inj in E; [lia|unfold_ints; lia|done]].
    unfold_ints. destruct (Z.to_nat h) eqn:E; [lia|done].
  - intros [|i] x Hx; [|done]. simplify_eq/=. unfold stored. cbn [bucketMeta bucketHeights bucketBlocks bucketKeyImages genesis_db]. rewrite lookup_singleton_eq.
    by rewrite (block_roundtrip _ _ Hm).
  - intros ki. cbn [bucketMeta bucketHeights bucketBlocks bucketKeyImages genesis_db]. unfold chain_key_images, block_key_images. simpl. rewrite Htx. cbn.
    split; [by intros [? ?]|]. intros Hx. by apply not_elem_of_nil in Hx.
Qed.

Lemma genesis_stored b data w hash :
  marshal_block b = Ok data → stored (genesis_db b data w) hash = only b hash.
Proof.
  intros Hm. unfold stored, only, learn. cbn [bucketMeta bucketHeights bucketBlocks bucketKeyImages genesis_db]. case_decide as Hd.
  - subst. by rewrite lookup_singleton_eq, (block_roundtrip _ _ Hm).
  - by rewrite lookup_singleton_ne by auto.
Qed.

(** The state after the commit, before the cache is trimmed. *)
Lemma genesis_core b data c c' :
  fresh c → valid_genesis b → Height (Header b) = 0 → marshal_block b = Ok data →
  db (storage c') = genesis_db b data 4 → blocks c' = {[BlockHash b := b]} → workAt c' = {[BlockHash b := 4]} →
  byHeight c' = {[0 := BlockHash b]} → keyImages c' = ∅ → lru_ok c' → cacheCap c' = cacheCap c →
  bestHash c' = BlockHash b → height c' = 0 → totalWork c' = 4 → canonicalRingIndexDirty c' = true →
  core [b] (only b) c'.
Proof.
  intros Hf Hv Hz Hm Ed Ebl Ew Eh Ek Hl Ecap Eb Eht Et Edirty. pose proof (only_good b Hv Hz) as Hg.
  assert (branch_work [b] = 4) as Hw.
  { destruct Hv as (_ & _ & _ & Hd & _). unfold branch_work. simpl. by rewrite Hd. }
  split; rewrite ?Ed, ?Eb, ?Et, ?Eht, ?Ebl, ?Ew, ?Eh, ?Ek, ?Ecap; try done.
  - by apply genesis_represents.
  - intros hash x Hx. unfold only, learn in Hx. case_decide as Hd; [|done]. simplify_eq. by exists [].
  - intros hash x [<- <-]%lookup_singleton_Some. apply learn_self.
  - intros hash x. by rewrite genesis_stored.
  - intros hash [d Hd]. rewrite genesis_stored by done. cbn in Hd.
    apply lookup_singleton_Some in Hd as [<- _]. unfold only. rewrite learn_self. eauto.
  - apply Hf.
  - intros h hash [<- <-]%lookup_singleton_Some. done.
  - intros ki [? ?]. done.
  - intros hash w [<- <-]%lookup_singleton_Some. exists [b]. split; [apply Hg|done].
  - by rewrite Edirty.
Qed.

(** The in-memory state of [addBlockInternal] after its commit. *)
Definition after_genesis (b : Block) (s : Storage) (c : Chain) : Chain :=
  on_canonicalRingIndexDirty (λ _, true) (on_totalWork (λ _, 4) (on_height (λ _, 0)
    (on_bestHash (λ _, BlockHash b) (on_byHeight (<[0 := BlockHash b]>) (on_workAt (<[BlockHash b := 4]>)
      (cacheTouch (BlockHash b) (on_blocks (<[BlockHash b := b]>) (on_storage (λ _, s) (record_key_images b c))))))))).

Lemma addBlockInternal_run b c u c' :
  valid_genesis b → addBlockInternal b c = (Ok u, c') →
  ∃ s x y c1, Height (Header b) = 0 ∧
    CommitBlock (MkBlockCommit b 0 (BlockHash b) 4 true [] []) (storage c) = (Ok x, s) ∧
    cacheTrim (after_genesis b s c) = (Ok y, c1) ∧ c' = on_timestamps (push_timestamp (Timestamp (Header b))) c1.
Proof.
  intros (_ & _ & _ & Hd & _ & Htx) E. unfold addBlockInternal in E. inv_run. simpl_bools.
  match goal with H : Height (Header b) = 0 |- _ => rename H into Hz; rewrite Hz in * end.
  match goal with H : wrap _ (addCumulativeWork _ _) = Ok _ |- _ => apply wrap_Ok in H; rewrite Hd in H; injection H as <- end.
  match goal with H : mapM _ _ = Ok _ |- _ => rewrite Htx in H; injection H as <- end.
  match goal with H : on_disk _ _ = _ |- _ => rename H into Hc end. unfold on_disk in Hc.
  assert (block_key_images b = []) as Hk by by unfold block_key_images; rewrite Htx.
  rewrite Hk in Hc. destruct (CommitBlock _ _) as [r s] eqn:Ec. injection Hc as -> <-.
  change (u64 (0 + MinDifficulty)) with 4 in *. change (storage (record_key_images b c)) with (storage c) in Ec.
  do 4 eexists. split_and!; [done|reflexivity|eassumption|done].
Qed.

Lemma addGenesisBlock_Ok now b c u c' :
  fresh c → addGenesisBlock now b c = (Ok u, c') → chain_inv [b] (only b) c' ∧ valid_genesis b.
Proof.
  intros Hf E. unfold addGenesisBlock in E. inv_run. simpl_bools.
  match goal with H : validateBlockForProcess _ _ _ = _ |- _ =>
    apply validateBlockForProcess_genesis in H as [-> Hv]; [|done] end.
  split; [|done].
  match goal with H : addBlockInternal _ _ = _ |- _ =>
    apply addBlockInternal_run in H as (s & v1 & v2 & c3 & Hz & Ec & E3 & ->); [|done] end.
  apply genesis_commit in Ec as (data & Hm & Ed); [|done|apply Hf].
  assert (keyImages (record_key_images b c) = ∅) as Ek.
  { unfold record_key_images, block_key_images. destruct Hv as (_ & _ & _ & _ & _ & ->). apply Hf. }
  set (ci := on_blocks (<[BlockHash b := b]>) (on_storage (λ _, s) (record_key_images b c))).
  pose proof (cacheTouch_evicts (BlockHash b) ci) as Et. pose proof (fr_lru _ Hf) as [Hl1 Hl2 Hl3].
  assert (core [b] (only b) (after_genesis b s c)) as H2.
  { apply (genesis_core b data c); try done; unfold after_genesis; fold ci; cbn.
    - by rewrite (ev_storage _ _ Et).
    - rewrite cacheTouch_blocks. cbn. by rewrite (fr_blocks _ Hf).
    - rewrite cacheTouch_workAt. cbn. by rewrite (fr_workAt _ Hf).
    - rewrite (ev_byHeight _ _ Et). cbn. by rewrite (fr_byHeight _ Hf).
    - by rewrite (ev_keyImages _ _ Et).
    - assert (lru_ok (cacheTouch (BlockHash b) ci)) as []; [|by split].
      apply cacheTouch_ok; [done..|]. intros hash [z Hy]. cbn in Hy. rewrite (fr_blocks _ Hf) in Hy.
      apply lookup_singleton_Some in Hy as [-> _]. by left.
    - apply (ev_cap _ _ Et). }
  destruct (cacheTrim_core _ _ _ H2) as (c4 & E4 & H4 & Ev). rewrite E4 in E3. injection E3 as _ <-. split.
  - destruct H4. split; cbn; try done. destruct co_lru. by split.
  - intros hash z Hy. change (stored (db (storage c4)) hash = Some z). rewrite (ev_storage _ _ Ev).
    change (stored (db (storage (cacheTouch (BlockHash b) ci))) hash = Some z). rewrite (ev_storage _ _ Et).
    change (stored (db s) hash = Some z). by rewrite Ed, genesis_stored.
Qed.

End Genesis.
