(* ===== verification/Truncate.v ===== *)
(** * Truncation

    [TruncateToHeight] removes the top of the main chain, one height and one
    key image per write.  When it succeeds the chain is in its invariant with
    the shorter main chain, and the removed blocks are still known. *)

From S2P Require Import Prelude Bytes Crypto Pow Transaction TxCodec Block ExchangeSort Consensus Hoare Reads Difficulty Memo Emission Validation Validity Storage StorageFacts Commit Chain ChainOps Cache ChainInv Branches Ancestors Windows Learn Reorg ForkChoice Restart.

Section Truncate.
Context `{HC : Crypto} `{!CryptoLaws HC} `{HN : Network} `{HM : MathLib} `{HJ : JSON} `{!JSONLaws HJ}.
Context (main : list Block) (known : bytes → option Block).

(** A write of one key. *)
Lemma on_disk_Update (f : DB → DB) (c : Chain) :
  match on_disk (Update (modify f)) c with
  | (Ok _, c') => ∃ s, c' = on_storage (λ _, s) c ∧ db s = f (db (storage c))
  | (Err _, c') => ∃ s, c' = on_storage (λ _, s) c ∧ db s = db (storage c)
  | (Panic, _) => False
  end.
Proof.
  unfold on_disk. pose proof (Update_run (modify f) (storage c)) as Hu.
  destruct (Update (modify f) (storage c)) as [[u|e|] s].
  - destruct Hu as [u' [= _ E]]. by exists s.
  - by exists s.
  - by destruct Hu.
Qed.

(** Lookups do not depend on the other buckets. *)
Lemma stored_blocks d d' hash : bucketBlocks d' = bucketBlocks d → stored d' hash = stored d hash.
Proof. intros E. unfold stored. by rewrite E. Qed.

Lemma readable_disk c c' :
  readable known c → bucketBlocks (db (storage c')) = bucketBlocks (db (storage c)) →
  blocks c' = blocks c → workAt c' = workAt c → cacheCap c' = cacheCap c → lru_ok c' → index_ok c' →
  readable known c'.
Proof.
  intros [] Ed Eb Ew Ec Hl Hx. split; rewrite ?Ed, ?Eb, ?Ew, ?Ec; try done.
  - intros hash b. rewrite (stored_blocks _ _ _ Ed). auto.
  - intros hash. rewrite (stored_blocks _ _ _ Ed). auto.
Qed.

(** Every block is still on disk and every lookup sound. *)
Definition intact (c : Chain) : Prop := readable known c ∧ settled known c.

Lemma intact_disk c c' :
  intact c → bucketBlocks (db (storage c')) = bucketBlocks (db (storage c)) →
  blocks c' = blocks c → workAt c' = workAt c → cacheCap c' = cacheCap c → lru_ok c' → index_ok c' → intact c'.
Proof.
  intros [H Hs] Ed Eb Ew Ec Hl Hx. split; [by eapply readable_disk|].
  intros hash b Hb. rewrite (stored_blocks _ _ _ Ed). by apply Hs.
Qed.

(** ** The loop *)

(** The top of the main chain is removed down to its first [i] blocks; the
    tip is not updated yet. *)
Record cut (c0 : Chain) (i : nat) (c : Chain) : Prop := {
  cut_intact : intact c;
  cut_meta : bucketMeta (db (storage c)) = bucketMeta (db (storage c0));
  cut_heights : ∀ h, is_u64 h → bucketHeights (db (storage c)) !! heightKey h = BlockHash <$> take i main !! Z.to_nat h;
  cut_spent : ∀ ki, is_Some (bucketKeyImages (db (storage c)) !! ki) ↔ ki ∈ chain_key_images (take i main);
  cut_byHeight : ∀ h hash, byHeight c !! h = Some hash → 0 <= h ∧ BlockHash <$> take i main !! Z.to_nat h = Some hash;
  cut_keyImages : ∀ ki, is_Some (keyImages c !! ki) → ki ∈ chain_key_images (take i main);
  cut_height : height c = height c0;
}.

Lemma cut_start c : chain_inv main known c → cut c (length main) c.
Proof.
  intros [H Hs]. split; rewrite ?take_ge by lia; try done.
  - by split; [eapply core_readable|].
  - apply (rep_heights _ _ _ (co_rep _ _ _ H)).
  - apply (rep_spent _ _ _ (co_rep _ _ _ H)).
  - apply (co_byHeight _ _ _ H).
  - apply (co_keyImages _ _ _ H).
Qed.

Lemma cut_lookup c0 i c h :
  (∀ b, b ∈ main → known (BlockHash b) = Some b) → cut c0 i c → is_u64 h →
  getBlockByHeight c h = take i main !! Z.to_nat h.
Proof.
  intros Hk C Hh. destruct (cut_intact _ _ _ C) as [R Hs]. unfold getBlockByHeight.
  assert (∀ x, take i main !! Z.to_nat h = Some x → known (BlockHash x) = Some x) as Hx.
  { intros x [E _]%lookup_take_Some. by eapply Hk, list_elem_of_lookup_2. }
  destruct (match byHeight c !! h with Some hash => blocks c !! hash | None => None end) as [x|] eqn:Ec.
  - destruct (byHeight c !! h) as [hash|] eqn:Eb; [|done]. apply (rd_cached _ _ R) in Ec.
    apply (cut_byHeight _ _ _ C) in Eb as [_ (y & Hy & ->)%fmap_Some].
    rewrite (Hx y Hy) in Ec. by simplify_eq.
  - unfold GetBlockHashByHeight, View. rewrite (cut_heights _ _ _ C) by done.
    destruct (take i main !! Z.to_nat h) as [b|] eqn:Eb; [|done]. cbn [fmap option_fmap option_map].
    rewrite copy32_id by apply BlockHash_length. rewrite (GetBlock_db_readable _ _ _ R).
    by apply Hs, Hx.
Qed.

(** Removing the key images of a block. *)
Definition unmark_loop (kis : list bytes) : M Chain unit :=
  for_each (λ ki,
    modify (on_keyImages (delete ki));;
    wrapM "failed to unmark key image at height %d" (on_disk (UnmarkKeyImageSpent ki))) kis.

Lemma unmark_loop_run kis c :
  match unmark_loop kis c with
  | (Ok _, c') => ∃ s, c' = on_keyImages (λ m, foldl (λ m k, delete k m) m kis) (on_storage (λ _, s) c) ∧
      db s = in_keyImages (λ m, foldl (λ m k, delete k m) m kis) (db (storage c))
  | (Err _, c') => ∃ m s, c' = on_keyImages (λ _, m) (on_storage (λ _, s) c) ∧
      bucketBlocks (db s) = bucketBlocks (db (storage c))
  | (Panic, _) => False
  end.
Proof.
  revert c. induction kis as [|ki kis IH]; intros c.
  { cbn. exists (storage c). destruct c as [[d cs]], d. done. }
  cbn [unmark_loop for_each]. unfold mbind, M_bind, modify, wrapM, UnmarkKeyImageSpent.
  pose proof (on_disk_Update (in_keyImages (delete ki)) (on_keyImages (delete ki) c)) as Hu.
  destruct (on_disk _ _) as [[u|e|] c1]; [|destruct Hu as (s & -> & E)|done].
  - destruct Hu as (s & -> & E). specialize (IH (on_storage (λ _, s) (on_keyImages (delete ki) c))).
    unfold unmark_loop, mbind, M_bind, modify, wrapM, UnmarkKeyImageSpent in IH.
    destruct (for_each _ kis _) as [[u'|e|] c2]; [| |done].
    + destruct IH as (s' & -> & E'). exists s'. split; [done|]. cbn [foldl]. rewrite E'. cbn. rewrite E. reflexivity.
    + destruct IH as (m & s' & -> & E'). exists m, s'. split; [done|]. rewrite E'. cbn. by rewrite E.
  - exists (delete ki (keyImages c)), s. split; [done|]. by rewrite E.
Qed.

(** Taking one block off a prefix. *)
Lemma take_S_other i (h : Z) (hash : bytes) :
  BlockHash <$> take (S i) main !! Z.to_nat h = Some hash → Z.to_nat h ≠ i →
  BlockHash <$> take i main !! Z.to_nat h = Some hash.
Proof.
  intros (b & [Hb Hi]%lookup_take_Some & ->)%fmap_Some Hne. apply fmap_Some. exists b. split; [|done].
  apply lookup_take_Some. split; [done|lia].
Qed.

Lemma take_S_key_images i b ki :
  NoDup (chain_key_images main) → main !! i = Some b →
  ki ∈ chain_key_images (take i main) ↔ ki ∈ chain_key_images (take (S i) main) ∧ ki ∉ block_key_images b.
Proof.
  intros Hnd Hb. rewrite (take_S_r _ _ _ Hb), chain_key_images_snoc, elem_of_app.
  assert (NoDup (chain_key_images (take i main) ++ block_key_images b)) as Hn.
  { rewrite <- chain_key_images_snoc, <- (take_S_r _ _ _ Hb). rewrite <- (take_drop (S i) main), chain_key_images_app in Hnd.
    by apply NoDup_app in Hnd as [? _]. }
  apply NoDup_app in Hn as (_ & Hd & _). split; [|tauto]. intros Hk. split; [by left|by apply Hd].
Qed.

Lemma is_Some_foldl_delete {A} (kis : list bytes) (m : gmap bytes A) ki :
  is_Some (foldl (λ m k, delete k m) m kis !! ki) ↔ is_Some (m !! ki) ∧ ki ∉ kis.
Proof.
  revert m. induction kis as [|k kis IH]; intros m; cbn [foldl]; [set_solver|].
  rewrite IH, not_elem_of_cons. destruct (decide (ki = k)) as [->|Hne].
  - rewrite lookup_delete_eq. split; [by intros [[? ?] _]|by intros (_ & ? & _)].
  - rewrite lookup_delete_ne by done. tauto.
Qed.

(** The state after one height. *)
Lemma cut_step c0 i b c s :
  NoDup (chain_key_images main) → main !! i = Some b → Z.of_nat i < 2 ^ 63 → cut c0 (S i) c →
  db s = in_heights (delete (heightKey (Z.of_nat i)))
    (in_keyImages (λ m, foldl (λ m k, delete k m) m (block_key_images b)) (db (storage c))) →
  cut c0 i (cacheForget (BlockHash b) (on_byHeight (delete (Z.of_nat i))
    (on_keyImages (λ m, foldl (λ m k, delete k m) m (block_key_images b)) (on_storage (λ _, s) c)))).
Proof.
  intros Hnd Hb Hi C Es.
  set (c1 := on_byHeight (delete (Z.of_nat i)) (on_keyImages (λ m, foldl (λ m k, delete k m) m (block_key_images b))
    (on_storage (λ _, s) c))).
  pose proof (cut_intact _ _ _ C) as [R Hs].
  assert (intact c1) as H1.
  { eapply (intact_disk c); try done.
    - cbn. by rewrite Es.
    - pose proof (rd_lru _ _ R) as []. by split.
    - intros h hash Hh. cbn in Hh. apply lookup_delete_Some in Hh as [_ Hh]. apply (rd_index _ _ R _ _ Hh). }
  pose proof (cacheForget_evicts (BlockHash b) c1) as Ev.
  assert (lru_ok (cacheForget (BlockHash b) c1)) as Hl by apply cacheForget_lru, H1.
  split; rewrite ?(ev_storage _ _ Ev), ?(ev_byHeight _ _ Ev), ?(ev_keyImages _ _ Ev), ?(ev_height _ _ Ev);
    cbn [c1 storage on_storage on_byHeight on_keyImages byHeight keyImages height]; rewrite ?Es;
    cbn [in_heights in_keyImages bucketMeta bucketHeights bucketKeyImages].
  - split; [by eapply readable_evicts; [apply H1| |]|]. intros hash x Hx.
    rewrite (ev_storage _ _ Ev). by apply H1.
  - apply C.
  - intros h Hh. destruct (decide (h = Z.of_nat i)) as [->|Hne].
    + rewrite lookup_delete_eq, Nat2Z.id. by rewrite lookup_take_ge.
    + rewrite lookup_delete_ne by (intros E%heightKey_inj; [done|unfold_ints; lia|done]).
      rewrite (cut_heights _ _ _ C) by done. unfold is_u64 in Hh.
      destruct (decide (Z.to_nat h < i)%nat).
      * by rewrite !lookup_take_lt by lia.
      * by rewrite !lookup_take_ge by lia.
  - intros ki. by rewrite is_Some_foldl_delete, (cut_spent _ _ _ C), (take_S_key_images _ _ _ Hnd Hb).
  - intros h hash [Hne Hh]%lookup_delete_Some. apply (cut_byHeight _ _ _ C) in Hh as [H0 Hh].
    split; [done|]. apply take_S_other; [done|]. lia.
  - intros ki [Hk Hn]%is_Some_foldl_delete. apply (take_S_key_images _ _ _ Hnd Hb). split; [|done].
    by apply (cut_keyImages _ _ _ C).
  - apply C.
Qed.

Lemma intact_storage c m s :
  intact c → bucketBlocks (db s) = bucketBlocks (db (storage c)) →
  intact (on_keyImages m (on_storage (λ _, s) c)).
Proof.
  intros Hc E. eapply (intact_disk c); try done.
  - destruct Hc as [[] _]. destruct rd_lru. by split.
  - apply (rd_index _ _ (proj1 Hc)).
Qed.

Lemma truncate_block_triple c0 i b :
  NoDup (chain_key_images main) → (∀ x, x ∈ main → known (BlockHash x) = Some x) →
  main !! i = Some b → Z.of_nat i < 2 ^ 63 →
  triple (cut c0 (S i)) (truncate_block (Z.of_nat i)) (λ _, cut c0 i) (λ _, intact).
Proof.
  intros Hnd Hk Hb Hi c C. unfold truncate_block. unfold mbind at 1, M_bind at 1, get.
  rewrite (cut_lookup c0 (S i) c _ Hk C) by (unfold_ints; lia).
  assert (take (S i) main !! i = Some b) as Et by (apply lookup_take_Some; split; [done|lia]). rewrite Nat2Z.id, Et.
  change (for_each _ (block_key_images b)) with (unmark_loop (block_key_images b)).
  pose proof (unmark_loop_run (block_key_images b) c) as Hu. unfold mbind at 1, M_bind at 1.
  pose proof (cut_intact _ _ _ C) as Hin.
  destruct (unmark_loop _ c) as [[u|e|] c1]; [|destruct Hu as (m & s & -> & E); by apply intact_storage|done].
  destruct Hu as (s & -> & E). unfold mbind at 1, M_bind at 1, wrapM, RemoveMainChainBlock.
  match goal with |- context [on_disk _ ?x] =>
    pose proof (on_disk_Update (in_heights (delete (heightKey (Z.of_nat i)))) x) as Hr end.
  destruct (on_disk _ _) as [[u'|e|] c2]; [| |done].
  - destruct Hr as (s' & -> & E'). cbn [wrap]. cbn in E'. rewrite E in E'.
    exact (cut_step c0 i b c s' Hnd Hb Hi C E').
  - destruct Hr as (s' & -> & E'). cbn [wrap].
    change (on_storage (λ _, s') (on_keyImages ?f (on_storage (λ _, s) c))) with (on_keyImages f (on_storage (λ _, s') c)).
    apply intact_storage; [done|]. cbn in E'. by rewrite E', E.
Qed.

Lemma truncate_loop_triple c0 keep :
  NoDup (chain_key_images main) → (∀ x, x ∈ main → known (BlockHash x) = Some x) →
  Z.of_nat (length main) <= 2 ^ 62 → (keep < length main)%nat →
  triple (cut c0 (length main))
    (for_each truncate_block (reverse (seqZ (Z.of_nat keep) (Z.of_nat (length main) - Z.of_nat keep))))
    (λ _, cut c0 keep) (λ _, intact).
Proof.
  intros Hnd Hk Hlen Hkeep.
  pose proof (triple_for_seqZ_rev truncate_block (λ i, cut c0 (keep + Z.to_nat i)) (λ _, intact)
    (Z.of_nat keep) (Z.of_nat (length main) - Z.of_nat keep) ltac:(lia)) as Hl. cbv beta in Hl.
  replace (keep + Z.to_nat (Z.of_nat (length main) - Z.of_nat keep))%nat with (length main) in Hl by lia.
  rewrite Nat.add_0_r in Hl. apply Hl. intros i Hi.
  destruct (lookup_lt_is_Some_2 main (keep + Z.to_nat i) ltac:(lia)) as [b Hb].
  replace (keep + Z.to_nat (i + 1))%nat with (S (keep + Z.to_nat i)) by lia.
  replace (Z.of_nat keep + i) with (Z.of_nat (keep + Z.to_nat i)) by lia.
  eapply truncate_block_triple; [done|done|done|lia].
Qed.

(** ** The new tip *)

Lemma cut_rebase c0 c1 i c c' :
  cut c0 i c → intact c' → storage c' = storage c → byHeight c' = byHeight c → keyImages c' = keyImages c →
  bucketMeta (db (storage c')) = bucketMeta (db (storage c1)) → height c' = height c1 → cut c1 i c'.
Proof. intros [] Hi Es Eb Ek Em Eh. split; rewrite ?Eb, ?Ek; try done; by rewrite Es. Qed.

Lemma window_timestamps_main l c n i :
  (∀ j, (j < i + n)%nat → getBlockByHeight c (Z.of_nat j) = l !! j) → (i + n <= length l)%nat →
  window_timestamps c (Z.of_nat i) n = (λ b, Timestamp (Header b)) <$> take n (drop i l).
Proof.
  revert i. induction n as [|n IH]; intros i Hl Hn; cbn [window_timestamps]; [done|].
  destruct (lookup_lt_is_Some_2 l i ltac:(lia)) as [b Hb]. rewrite Hl, Hb by lia.
  rewrite (drop_S _ _ _ Hb). cbn. f_equal. replace (Z.of_nat i + 1) with (Z.of_nat (S i)) by lia.
  apply IH; [|lia]. intros j Hj. apply Hl. lia.
Qed.

Lemma cut_core c0 keep b c s w :
  good_path known main (tip_hash [] main) → tree_ok known → main !! keep = Some b → Z.of_nat keep < 2 ^ 62 →
  cut c0 (S keep) c → bestHash c = BlockHash b → height c = Z.of_nat keep → totalWork c = w →
  w = branch_work (take (S keep) main) → canonicalRingIndexDirty c = true →
  db s = in_meta (λ m, <[metaKeyWork := be_bytes 8 w]>
            (<[metaKeyHeight := be_bytes 8 (Z.of_nat keep)]> (<[metaKeyTip := BlockHash b]> m))) (db (storage c)) →
  chain_inv (take (S keep) main) known (on_storage (λ _, s) c).
Proof.
  intros Hg Ht Hb Hk C Eb Eh Et Ew Ed Es. pose proof (cut_intact _ _ _ C) as [R Hs].
  pose proof (take_S_r _ _ _ Hb) as Etk. pose proof (lookup_lt_Some _ _ _ Hb) as Hlt.
  assert (take (S keep) main ≠ []) as Hne by (rewrite Etk; by destruct (take keep main)).
  assert (tip_hash [] (take (S keep) main) = BlockHash b) as Etip by by rewrite Etk, tip_hash_snoc.
  assert (length (take (S keep) main) = S keep) as Elen by (rewrite length_take; lia).
  assert (good_path known (take (S keep) main) (BlockHash b)) as Hg'.
  { destruct Hg as (Hp & Hnd & Hsd & Hw). rewrite <- (take_drop (S keep) main) in Hp, Hnd, Hsd, Hw.
    rewrite branch_work_app in Hw. rewrite chain_key_images_app in Hnd. apply NoDup_app in Hnd as [? _].
    apply Forall_app in Hsd as [? Hs2]. pose proof (branch_work_length _ Hs2). rewrite <- Etip.
    split_and!; [by eapply path_to_prefix|done|done|lia]. }
  assert (settled known (on_storage (λ _, s) c)) as Hs'.
  { intros hash x Hx. cbn. rewrite Es. cbn. by apply Hs. }
  split; [|done]. split; cbn; rewrite ?Eb, ?Et; try done.
  - pose proof Hg' as ((_ & Hl & _ & Hin) & _). rewrite Es. split; cbn; rewrite ?Etip, ?Elen; try done.
    + lia.
    + rewrite !lookup_insert_ne by done. by rewrite lookup_insert_eq.
    + rewrite lookup_insert_ne by done. rewrite lookup_insert_eq. do 2 f_equal. lia.
    + by rewrite lookup_insert_eq.
    + apply C.
    + intros i x Hx. apply Hs, Hin. by eapply list_elem_of_lookup_2.
    + apply C.
  - rewrite Elen. lia.
  - apply R.
  - intros hash x. rewrite Es. cbn. apply R.
  - intros hash. rewrite Es. cbn. apply R.
  - pose proof (rd_lru _ _ R) as []. by split.
  - apply R.
  - apply C.
  - apply C.
  - apply R.
  - by rewrite Ed.
Qed.

(** The new tip in memory, with the cache trimmed. *)
Lemma set_tip_cut c0 keep c c1 hash w :
  cut c0 (S keep) c → browsing known c c1 →
  ∃ c2, cacheTrim (cacheTouch hash (on_canonicalRingIndexDirty (λ _, true) (set_tip hash (Z.of_nat keep) w c1))) = (Ok tt, c2) ∧
    cut c2 (S keep) c2 ∧ bestHash c2 = hash ∧ height c2 = Z.of_nat keep ∧ totalWork c2 = w ∧
    canonicalRingIndexDirty c2 = true.
Proof.
  intros C [R1 [Ss _ _ _ _]]. destruct (cut_intact _ _ _ C) as [_ Hs].
  set (c1' := on_canonicalRingIndexDirty (λ _, true) (set_tip hash (Z.of_nat keep) w c1)).
  assert (readable known c1') as R1'.
  { eapply (readable_disk c1); try done.
    - pose proof (rd_lru _ _ R1) as []. by split.
    - intros h x Hx. cbn in Hx. rewrite (ss_byHeight _ _ Ss) in Hx. cbn.
      apply (cut_byHeight _ _ _ C) in Hx as [H0 (b & [_ Hb]%lookup_take_Some & _)%fmap_Some]. lia. }
  pose proof (cacheTouch_evicts hash c1') as Ev.
  assert (readable known (cacheTouch hash c1')) as R2.
  { eapply readable_evicts; [done|done|]. apply cacheTouch_lru, R1'. }
  destruct (cacheTrim_readable _ _ R2) as (c2 & E & R3 & Ev2). exists c2. split; [exact E|].
  assert (storage c2 = storage c) as Est by (rewrite (ev_storage _ _ Ev2), (ev_storage _ _ Ev); apply Ss).
  split_and!.
  - eapply (cut_rebase c0 c2 (S keep) c c2); try done.
    + split; [done|]. intros h x Hx. rewrite Est. by apply Hs.
    + rewrite (ev_byHeight _ _ Ev2), (ev_byHeight _ _ Ev). apply Ss.
    + rewrite (ev_keyImages _ _ Ev2), (ev_keyImages _ _ Ev). apply Ss.
  - by rewrite (ev_best _ _ Ev2), (ev_best _ _ Ev).
  - by rewrite (ev_height _ _ Ev2), (ev_height _ _ Ev).
  - by rewrite (ev_work _ _ Ev2), (ev_work _ _ Ev).
  - by rewrite (ev_dirty _ _ Ev2), (ev_dirty _ _ Ev).
Qed.

Lemma on_disk_SetTip hash h w c :
  match on_disk (SetTip hash h w) c with
  | (Ok _, c') => ∃ s, c' = on_storage (λ _, s) c ∧
      db s = in_meta (λ m, <[metaKeyWork := be_bytes 8 w]>
               (<[metaKeyHeight := be_bytes 8 h]> (<[metaKeyTip := hash]> m))) (db (storage c))
  | (Err _, c') => ∃ s, c' = on_storage (λ _, s) c ∧ db s = db (storage c)
  | (Panic, _) => False
  end.
Proof.
  unfold on_disk, SetTip. pose proof (Update_run (put_tip hash h w) (storage c)) as Hu.
  destruct (Update _ (storage c)) as [[u|e|] s].
  - destruct Hu as [u' Hu]. rewrite put_tip_run in Hu. injection Hu as _ E. by exists s.
  - by exists s.
  - destruct Hu as [d Hu]. by rewrite put_tip_run in Hu.
Qed.

(** What a completed truncation leaves. *)
Definition truncated (keep : nat) (c : Chain) : Prop :=
  chain_inv (take (S keep) main) known c ∧
  timestamps c = lastn (LWMAWindow + 1) ((λ b, Timestamp (Header b)) <$> take (S keep) main).

Lemma settle_timestamps keep c :
  (∀ x, x ∈ main → known (BlockHash x) = Some x) → (keep < length main)%nat → Z.of_nat keep < 2 ^ 62 →
  cut c (S keep) c →
  let start := if Z.of_nat LWMAWindow <? Z.of_nat keep then Z.of_nat keep - Z.of_nat LWMAWindow else 0 in
  window_timestamps c start (Z.to_nat (Z.of_nat keep - start + 1)) =
    lastn (LWMAWindow + 1) ((λ b, Timestamp (Header b)) <$> take (S keep) main).
Proof.
  intros Hk Hlt Hs C start. change LWMAWindow with 60%nat in *.
  assert (start = Z.of_nat (keep - 60)) as -> by (unfold start; destruct (Z.ltb_spec (Z.of_nat 60) (Z.of_nat keep)); lia).
  rewrite (window_timestamps_main (take (S keep) main)).
  - rewrite <- fmap_lastn. f_equal. unfold lastn. rewrite take_ge.
    + f_equal. rewrite length_take. lia.
    + rewrite length_drop, length_take. lia.
  - intros j Hj. rewrite (cut_lookup c (S keep) c _ Hk C) by (unfold_ints; lia). by rewrite Nat2Z.id.
  - rewrite length_take. lia.
Qed.

Lemma settle_tip_triple c0 keep :
  good_path known main (tip_hash [] main) → tree_ok known → (keep < length main)%nat → Z.of_nat (length main) <= 2 ^ 62 →
  triple (cut c0 (S keep)) (settle_tip (Z.of_nat keep)) (λ _, truncated keep) (λ _, intact).
Proof.
  intros Hg Ht Hlt Hlen c C. pose proof Hg as ((_ & _ & _ & Hk) & _).
  destruct (lookup_lt_is_Some_2 main keep Hlt) as [b Hb]. pose proof (take_S_r _ _ _ Hb) as Etk.
  unfold settle_tip. unfold mbind at 1, M_bind at 1, get.
  rewrite (cut_lookup c0 (S keep) c _ Hk C) by (unfold_ints; lia).
  rewrite Nat2Z.id, (proj2 (lookup_take_Some main (S keep) keep b)) by (split; [done|lia]).
  pose proof (cumulativeWorkAtLocked_browse known c (BlockHash b) c ltac:(by split; [apply C|])) as Hw.
  unfold mbind at 1, M_bind at 1, wrapM at 1.
  destruct (cumulativeWorkAtLocked (BlockHash b) c) as [[w|e|] c1]; cbn [wrap]; [| |done].
  2: { destruct Hw as [R1 [Ss _ _ _ _]]. split; [done|]. intros h x Hx. rewrite (ss_storage _ _ Ss). by apply C. }
  destruct Hw as [Hbr (l & Hl & ->)].
  assert (path_to known (take (S keep) main) (BlockHash b)) as Hp.
  { replace (BlockHash b) with (tip_hash [] (take (S keep) main)) by by rewrite Etk, tip_hash_snoc.
    eapply path_take; [apply Hg|lia]. }
  rewrite (path_to_unique _ _ _ _ Hl Hp).
  destruct (set_tip_cut c0 keep c c1 (BlockHash b) (branch_work (take (S keep) main)) C Hbr)
    as (c2 & E2 & C2 & Eb & Eh & Et & Ed).
  unfold mbind, M_bind, modify, get. rewrite E2. unfold wrapM.
  rewrite (settle_timestamps keep c2 Hk Hlt ltac:(lia) C2). set (ts := lastn _ _).
  set (c3 := on_timestamps (λ _, ts) c2).
  assert (intact c3) as Hi3.
  { pose proof (cut_intact _ _ _ C2) as [R Hs]. apply (intact_disk c2); try done; [|apply R].
    pose proof (rd_lru _ _ R) as []. by split. }
  pose proof (on_disk_SetTip (BlockHash b) (Z.of_nat keep) (branch_work (take (S keep) main)) c3) as Hd.
  destruct (on_disk _ c3) as [[u|e|] c4]; cbn [wrap]; [| |done].
  - destruct Hd as (s & -> & Es). split; [|done].
    eapply (cut_core c3 keep b c3 s); try done; [lia|]. by eapply (cut_rebase c2 c3 (S keep) c2 c3).
  - destruct Hd as (s & -> & Es). destruct Hi3 as [R Hs]. eapply (intact_disk c3); try done; cbn; rewrite ?Es; try done.
    + pose proof (rd_lru _ _ R) as []. by split.
    + apply R.
Qed.

(** ** The operation *)

Lemma TruncateToHeight_spec c keep :
  chain_inv main known c → 0 <= keep →
  match TruncateToHeight keep c with
  | (Ok _, c') => if height c <=? keep then c' = c else truncated (Z.to_nat keep) c'
  | (Err _, c') => keep < height c ∧ intact c'
  | (Panic, _) => False
  end.
Proof.
  intros Hi Hk. pose proof Hi as [H Hs]. pose proof (co_height _ _ _ H) as Hh.
  pose proof (co_main _ _ _ H) as Hg. rewrite (co_best _ _ _ H) in Hg.
  pose proof (good_path_length _ _ _ Hg) as Hlen. pose proof Hg as ((_ & _ & _ & Hin) & Hnd & _).
  unfold TruncateToHeight, mbind at 1, M_bind at 1, get.
  destruct (Z.leb_spec (height c) keep) as [|Hlt]; [done|].
  replace (keep + 1) with (Z.of_nat (S (Z.to_nat keep))) by lia.
  replace (height c - keep) with (Z.of_nat (length main) - Z.of_nat (S (Z.to_nat keep))) by lia.
  pose proof (truncate_loop_triple c (S (Z.to_nat keep)) Hnd Hin Hlen ltac:(lia) c (cut_start c Hi)) as Hl.
  unfold mbind, M_bind. destruct (for_each _ _ c) as [[u|e|] c1]; [|by split|done].
  pose proof (settle_tip_triple c (Z.to_nat keep) Hg (co_tree _ _ _ H) ltac:(lia) Hlen c1 Hl) as Hst.
  rewrite Z2Nat.id in Hst by done. by destruct (settle_tip keep c1) as [[u'|e|] c2].
Qed.

End Truncate.

(** C19. Truncation is exact when it succeeds: on a chain in its invariant,
    [TruncateToHeight keep] never panics; it does nothing if the chain is not
    higher; otherwise success leaves the chain in its invariant with exactly
    the blocks up to height [keep] as its main chain, on disk and in memory
    (tip, work, height index, key images, recent timestamps), while the tree
    of known blocks is unchanged; an error, possible only in that case, may
    leave a partly removed top but never loses a block. *)
Theorem truncate_exact `{HC : Crypto} `{!CryptoLaws HC} `{HN : Network} `{HM : MathLib} `{HJ : JSON}
    `{!JSONLaws HJ} main known c keep :
  chain_inv main known c → 0 <= keep →
  ∃ r c', TruncateToHeight keep c = (r, c') ∧ r ≠ Panic ∧
    (height c <= keep → r = Ok tt ∧ c' = c) ∧
    (keep < height c → r = Ok tt →
       chain_inv (take (S (Z.to_nat keep)) main) known c' ∧ height c' = keep ∧
       timestamps c' = lastn (LWMAWindow + 1) ((λ b, Timestamp (Header b)) <$> take (S (Z.to_nat keep)) main)) ∧
    (∀ e, r = Err e → keep < height c ∧ settled known c').
Proof.
  intros Hi Hk. pose proof (TruncateToHeight_spec main known c keep Hi Hk) as Hs.
  pose proof (co_height _ _ _ (proj1 Hi)) as Hh.
  destruct (TruncateToHeight keep c) as [r c']. exists r, c'. split; [done|].
  destruct r as [[]|e|]; [| |done]; (split; [done|]); destruct (Z.leb_spec (height c) keep) as [Hle|Hlt].
  - split_and!; [done|lia|done].
  - split_and!; [lia| |done]. intros _ _. destruct Hs as [Hi' Ht]. split_and!; [done| |done].
    rewrite (co_height _ _ _ (proj1 Hi')), length_take. lia.
  - destruct Hs as [? _]. lia.
  - split_and!; [lia|done|]. intros e' _. split; [done|apply Hs].
Qed.

(** A truncated block cannot come back on its own: after a successful
    truncation [ProcessBlock] reports every removed block as already known
    and leaves the chain as it is. *)
Theorem truncated_block_is_duplicate `{HC : Crypto} `{!CryptoLaws HC} `{HN : Network} `{HM : MathLib} `{HJ : JSON}
    `{!JSONLaws HJ} main known c keep c' now b :
  chain_inv main known c → 0 <= keep → TruncateToHeight keep c = (Ok tt, c') → b ∈ main →
  ProcessBlock now b c' = (Ok (false, false), c').
Proof.
  intros Hi Hk E Hb. pose proof (TruncateToHeight_spec main known c keep Hi Hk) as Hs. rewrite E in Hs.
  assert (∃ main', chain_inv main' known c') as [main' Hi'].
  { destruct (height c <=? keep); [subst; by exists main|]. destruct Hs as [? _]. by eexists. }
  pose proof (co_main _ _ _ (proj1 Hi)) as ((_ & _ & _ & Hin) & _).
  pose proof (HasBlock_known _ _ _ (BlockHash b) Hi') as Hhas.
  rewrite (bool_decide_eq_true_2 (is_Some (known _))) in Hhas by (rewrite (Hin _ Hb); eauto).
  unfold ProcessBlock. unfold mbind at 1, M_bind at 1, get.
  destruct (bool_decide _); [done|]. simpl in Hhas. by rewrite Hhas.
Qed.
