(* ===== verification/Reachable.v ===== *)
(** * Runs of the chain

    The states a node can reach from an empty database by adding the genesis
    block and then processing blocks, looking blocks up, checking ring members
    and setting trusted checkpoints in any order.  Two things are left out: a
    fork block whose write to disk fails, which stays in memory without its
    file, and [TruncateToHeight], which [Truncate] describes and which the
    histories of [Startup] include. *)

From S2P Require Import Prelude Bytes Crypto Pow Transaction TxCodec Block ExchangeSort Consensus Hoare Reads Difficulty Memo Emission Validation Validity Storage StorageFacts Commit Chain Cache ChainInv Branches Ancestors Windows Learn Reorg ForkChoice Lawful Genesis.

Section Reachable.
Context `{HC : Crypto} `{!CryptoLaws HC} `{HN : Network} `{HM : MathLib} `{HJ : JSON} `{!JSONLaws HJ}.

Definition save_failed {A} (r : result A) : Prop := ∃ e, r = Err (Wrapf "failed to save fork block" e).

(** One call. *)
Inductive step : Chain → Chain → Prop :=
  | step_process now b c r c' :
      wf_block b → ProcessBlock now b c = (r, c') → ¬ save_failed r → step c c'
  | step_get hash c r c' : GetBlock hash c = (r, c') → step c c'
  | step_ring k m c r c' : isCanonicalRingMemberLocked k m c = (r, c') → step c c'
  | step_checkpoints cps h c : step c (SetTrustedCheckpoints cps h c).

Inductive reachable : Chain → Prop :=
  | reach_genesis now b c c' u : fresh c → addGenesisBlock now b c = (Ok u, c') → reachable c'
  | reach_step c c' : reachable c → step c c' → reachable c'.

(** ** One step of the abstract chain *)

(** The new main chain keeps all but the last [MaxReorgDepth] blocks, and
    more work if anything changed. *)
Definition follows (main main' : list Block) : Prop :=
  main' = main ∨
  ∃ base disc conn, main = base ++ disc ∧ main' = base ++ conn ∧ base ≠ [] ∧
    Z.of_nat (length disc) <= MaxReorgDepth ∧ branch_work main < branch_work main'.

(** The chain and its tree of blocks, every one lawful. *)
Definition consistent (main : list Block) (known : bytes → option Block) (c : Chain) : Prop :=
  chain_inv main known c ∧ lawful known.

Lemma outcome_follows now b main known c r c' :
  wf_block b → consistent main known c → outcome now b main known c r c' → ¬ save_failed r →
  ∃ main' known', consistent main' known' c' ∧ follows main main'.
Proof.
  intros Hwf [Hi Hl] Ho Hs. destruct r as [[[] m]|e|]; [| | |done].
  - destruct Ho as (Hn & (_ & l0 & _ & Hv) & l & _ & Hm).
    assert (lawful (learn known b)) as Hl' by (eapply lawful_learn; [apply Hi|done|done|done|exact Hv]). destruct m.
    + destruct Hm as (Hw & base & disc & conn & -> & Hb & _ & Hd & Hw' & Hi').
      exists (base ++ conn), (learn known b). split; [by split|]. right. by exists base, disc, conn.
    + destruct Hm as [_ Hi']. exists main, (learn known b). split; [by split|by left].
  - destruct Ho as (_ & -> & _). exists main, known. split; [by split|by left].
  - destruct Ho as [Hi'|(e' & -> & _)]; [|destruct Hs; by exists e'].
    exists main, known. split; [by split|by left].
Qed.

Lemma inv_checkpoints main known cps h c :
  chain_inv main known c → chain_inv main known (SetTrustedCheckpoints cps h c).
Proof.
  intros [H Hs]. unfold SetTrustedCheckpoints.
  destruct (_ || _); (split; [|exact Hs]); (destruct H; split; cbn; try done; destruct co_lru; by split).
Qed.

Lemma step_follows c c' main known :
  consistent main known c → step c c' → ∃ main' known', consistent main' known' c' ∧ follows main main'.
Proof.
  intros [Hi Hl] Hs. destruct Hs as [now b c r c' Hwf E Hns|hash c r c' E|k m c r c' E|cps h c].
  - pose proof (ProcessBlock_spec now b main known c (proj2 Hwf) Hi) as Ho. rewrite E in Ho.
    by eapply outcome_follows.
  - change (GetBlock hash c) with (getBlockByHash hash c) in E.
    destruct (getBlockByHash_reads main known c hash Hi) as (c1 & E1 & Hi1 & _). rewrite E1 in E. injection E as _ <-.
    exists main, known. split; [by split|by left].
  - destruct (isCanonicalRingMember_reads main known c k m Hi) as (c1 & E1 & Hi1 & _). rewrite E1 in E. injection E as _ <-.
    exists main, known. split; [by split|by left].
  - exists main, known. split; [by split; [apply inv_checkpoints|]|by left].
Qed.

Lemma follows_head main main' : follows main main' → head main' = head main.
Proof. intros [->|(base & disc & conn & -> & -> & Hb & _)]; [done|]. by destruct base. Qed.

Lemma follows_work main main' : follows main main' → branch_work main <= branch_work main'.
Proof. intros [->|(base & disc & conn & -> & -> & _ & _ & ?)]; lia. Qed.

Lemma lawful_only b : valid_genesis b → Height (Header b) = 0 → lawful (only b).
Proof.
  intros (_ & _ & Hts & _) Hz hash x Hx. unfold only, learn in Hx. case_decide; [|done]. simplify_eq.
  rewrite Hts. split; [apply genesis_timestamp|done].
Qed.

(** What every reachable state is. *)
Lemma reachable_chain c :
  reachable c → ∃ main known g, consistent main known c ∧ head main = Some g ∧ valid_genesis g.
Proof.
  induction 1 as [now b c c' u Hf E|c c' _ IH Hs].
  - apply addGenesisBlock_Ok in E as [Hi Hv]; [|done]. exists [b], (only b), b. split; [|done]. split; [done|].
    apply lawful_only; [done|]. pose proof (co_main _ _ _ (proj1 Hi)) as ((_ & [Hz _] & _) & _). exact Hz.
  - destruct IH as (main & known & g & Hi & Hh & Hv).
    destruct (step_follows _ _ _ _ Hi Hs) as (main' & known' & Hi' & Hf). exists main', known', g.
    split_and!; [done| |done]. by rewrite (follows_head _ _ Hf).
Qed.

End Reachable.

(** ** Theorems *)

(** C1. Every run keeps the ledger consistent: in every state that is
    reachable from the empty database, memory and disk describe one chain of
    blocks, linked by hash from a valid genesis block with consecutive
    heights; the tip, the height and the total work (the exact sum of the
    difficulties, without wrap-around) are those of that chain; no key image
    occurs twice in it; a key image counts as spent if and only if it
    occurs in it; and the block stored at each height is the chain's. *)
Theorem reachable_consistent `{HC : Crypto} `{!CryptoLaws HC} `{HN : Network} `{HM : MathLib} `{HJ : JSON} `{!JSONLaws HJ} c :
  reachable c →
  ∃ main g, head main = Some g ∧ valid_genesis g ∧ linked main ∧ bestHash c = tip_hash [] main ∧
    height c = Z.of_nat (length main) - 1 ∧ totalWork c = branch_work main ∧ branch_work main < 2 ^ 64 ∧
    GetTip (storage c) = Some (bestHash c, height c, totalWork c) ∧
    NoDup (chain_key_images main) ∧
    (∀ ki, isKeyImageSpentLocked c ki = true ↔ ki ∈ chain_key_images main) ∧
    (∀ i, 0 <= i < 2 ^ 64 → getBlockByHeight c i = main !! Z.to_nat i).
Proof.
  intros (main & known & g & [Hi _] & Hh & Hv)%reachable_chain. pose proof Hi as [H Hs]. exists main, g.
  pose proof (co_main _ _ _ H) as ((_ & Hl & _) & Hnd & _ & Hw). pose proof (co_height _ _ _ H) as Eh.
  split_and!; try done; [apply (co_best _ _ _ H)|apply (co_total _ _ _ H)| | |].
  - by rewrite (GetTip_core main known c H), Eh.
  - intros ki. by rewrite (isKeyImageSpentLocked_main main known c ki H), bool_decide_eq_true.
  - intros i Hi'. by apply (getBlockByHeight_main main known).
Qed.

(** C7. Finality and fork choice over one call of [ProcessBlock], [GetBlock], a
    ring check or [SetTrustedCheckpoints] from a reachable state, where the
    write of a fork block does not fail: the total work is the same or larger,
    a main-chain block that lies [MaxReorgDepth] (100) or more blocks below
    the tip stays, and blocks are replaced only by a branch with strictly more
    work.  [TruncateToHeight] is not one of these calls: it removes blocks. *)
Theorem finalized_blocks_stay `{HC : Crypto} `{!CryptoLaws HC} `{HN : Network} `{HM : MathLib} `{HJ : JSON} `{!JSONLaws HJ} c c' i b :
  reachable c → step c c' → 0 <= i → getBlockByHeight c i = Some b → i < 2 ^ 64 →
  totalWork c <= totalWork c' ∧
  (i + MaxReorgDepth <= height c → getBlockByHeight c' i = Some b) ∧
  (getBlockByHeight c' i ≠ Some b → totalWork c < totalWork c').
Proof.
  intros (main & known & g & [[H Hs] Hl] & _)%reachable_chain Hst Hi Hb Hu.
  destruct (step_follows _ _ _ _ (conj (conj H Hs) Hl) Hst) as (main' & known' & [[H' _] _] & Hf).
  rewrite (getBlockByHeight_main main known) in Hb by done.
  rewrite (getBlockByHeight_main main' known') by done.
  rewrite (co_total _ _ _ H), (co_total _ _ _ H'), (co_height _ _ _ H).
  destruct Hf as [->|(base & disc & conn & -> & -> & _ & Hd & Hw)]; [by split_and!; [lia|done|done]|].
  split_and!; [lia| |done]. rewrite length_app. intros Hdeep. rewrite lookup_app_l in Hb |- * by lia. done.
Qed.
