(* ===== verification/Startup.v ===== *)
(** * The life of a node

    The start-up of the daemon ([daemon.go]): audit of the loaded chain and
    truncation to the last clean block; and the states a node goes through
    over restarts, truncations and calls. *)

From S2P Require Import Prelude Bytes Crypto Pow Transaction TxCodec Block ExchangeSort Consensus Hoare Reads Difficulty Memo Emission Validation Validity Storage StorageFacts Commit Chain ChainOps Cache ChainInv Branches Ancestors Windows Learn Reorg ForkChoice Lawful Verify Restart Genesis Truncate Reachable.

Section Startup.
Context `{HC : Crypto} `{HN : Network} `{HM : MathLib} `{HJ : JSON}.

(** Which audit runs: a full one without checkpoints, or if none of them
    matches. *)
Definition startup_audit (fullSync : bool) (checkpoints : gmap Z bytes) (checkpointHeights : list Z) (c : Chain)
    : result (list ChainViolation) :=
  if fullSync || bool_decide (checkpoints = ∅) then VerifyChain c
  else
    '(violations, usedHeight) ← VerifyChainWithCheckpoints c checkpoints checkpointHeights;
    if usedHeight =? 0 then VerifyChain c else Ok violations.

Record Repair : Type := MkRepair {
  repairTruncatedTo : Z;
  repairViolations : nat;
  repairFailed : bool;
}.

Definition verify_and_repair (fullSync : bool) (checkpoints : gmap Z bytes) (checkpointHeights : list Z) : M Chain Repair :=
  c ← get;
  if negb (0 <? height c) then mret (MkRepair 0 0 false)
  else
    violations ← lift (startup_audit fullSync checkpoints checkpointHeights c);
    match violations with
    | [] => mret (MkRepair 0 0 false)
    | first :: _ =>
        let truncateTo := u64 (VHeight first - 1) in
        on_error (TruncateToHeight truncateTo;; mret (MkRepair truncateTo (length violations) false))
          (λ _, mret (MkRepair 0 (length violations) true))
    end.

(** ** States of a node *)

Inductive life : Chain → Prop :=
  | life_reach c : reachable c → life c
  | life_call c c' : life c → step c c' → life c'
  | life_restart c env c' : life c → NewChain (storage c) env = Ok c' → life c'
  | life_truncate c keep c' : life c → 0 <= keep → TruncateToHeight keep c = (Ok tt, c') → life c'.

Context `{!CryptoLaws HC} `{!JSONLaws HJ}.

Lemma life_consistent c : life c → ∃ main known, consistent main known c.
Proof.
  induction 1 as [c Hr|c c' _ IH Hs|c env c' _ IH E|c keep c' _ IH Hk E].
  - destruct (reachable_chain c Hr) as (main & known & _ & Hc & _). by exists main, known.
  - destruct IH as (main & known & Hc). destruct (step_follows _ _ _ _ Hc Hs) as (main' & known' & Hc' & _).
    by exists main', known'.
  - destruct IH as (main & known & Hi & Hl).
    destruct (loadFromStorage_spec main known c (chainCacheCapFromEnv env) Hi) as (c1 & E1 & Hi1 & _).
    { pose proof (chainCacheCap_room env). lia. }
    unfold NewChain in E. rewrite E1 in E. injection E as <-. by exists main, known.
  - destruct IH as (main & known & Hi & Hl). pose proof (TruncateToHeight_spec main known c keep Hi Hk) as Hs.
    rewrite E in Hs. destruct (height c <=? keep).
    + subst. by exists main, known.
    + destruct Hs as [Hi' _]. by exists (take (S (Z.to_nat keep)) main), known.
Qed.

Lemma startup_audit_lawful main known c fullSync cps heights :
  core main known c → lawful known → Forall is_u64 heights → startup_audit fullSync cps heights c = Ok [].
Proof.
  intros H Hl Hu. unfold startup_audit. destruct (fullSync || _); [by eapply VerifyChain_lawful|].
  destruct (VerifyChainWithCheckpoints_lawful main known c cps heights H Hl Hu) as (used & ->). cbn.
  destruct (used =? 0); [by eapply VerifyChain_lawful|done].
Qed.

End Startup.

(** C20. A node never damages a chain it built: whatever calls, restarts and
    successful truncations led to a state, the audit at the next start-up,
    with or without checkpoints, finds no violation, and the repair step
    leaves the chain exactly as it is. *)
Theorem startup_repair_idle `{HC : Crypto} `{!CryptoLaws HC} `{HN : Network} `{HM : MathLib} `{HJ : JSON} `{!JSONLaws HJ}
    c fullSync checkpoints checkpointHeights :
  life c → Forall is_u64 checkpointHeights →
  startup_audit fullSync checkpoints checkpointHeights c = Ok [] ∧
  verify_and_repair fullSync checkpoints checkpointHeights c = (Ok (MkRepair 0 0 false), c).
Proof.
  intros (main & known & [H _] & Hl)%life_consistent Hu.
  pose proof (startup_audit_lawful main known c fullSync checkpoints checkpointHeights H Hl Hu) as Ha.
  split; [done|]. unfold verify_and_repair, mbind, M_bind, get, lift. destruct (negb _); [done|]. by rewrite Ha.
Qed.
