(* ===== verification/Mempool.v ===== *)
(** * The mempool ([mempool.go])

    Entries are shared objects: the index by transaction id and the priority
    queue hold pointers to them, and the queue keeps each entry's position in
    the entry.  The model has a store of entries and uses their addresses.

    The loops over a Go map visit its entries in an order the language leaves
    open; [iterate] is that order. *)

From S2P Require Import Prelude Bytes Crypto Transaction Block ExchangeSort Memo Emission Validation.

Record MempoolConfig : Type := MkMempoolConfig {
  MaxSize : Z;
  MaxSizeBytes : Z;
  MinFeeRate : Z;
  ExpirationTime : Z;  (* nanoseconds *)
}.

Definition DefaultMempoolConfig : MempoolConfig :=
  MkMempoolConfig 5000 (100 * 1024 * 1024) 1 (24 * 3600 * 1000000000).

Record MempoolEntry : Type := MkMempoolEntry {
  ETx : Transaction;
  ETxID : bytes;
  ETxData : bytes;
  EFee : Z;
  EFeeRate : Z;
  ESize : Z;
  EAddedAt : Z;
  EIndex : Z;
}.

Definition with_index (i : Z) (e : MempoolEntry) : MempoolEntry :=
  MkMempoolEntry (ETx e) (ETxID e) (ETxData e) (EFee e) (EFeeRate e) (ESize e) (EAddedAt e) i.

Abbreviation address := nat (only parsing).

Record Mempool : Type := MkMempool {
  config : MempoolConfig;
  heap : gmap address MempoolEntry;  (* the entries *)
  txByID : gmap bytes address;
  txByImage : gmap bytes bytes;
  priorityQueue : list address;
  totalSize : Z;
}.

Definition on_heap (f : gmap address MempoolEntry → gmap address MempoolEntry) (m : Mempool) : Mempool :=
  MkMempool (config m) (f (heap m)) (txByID m) (txByImage m) (priorityQueue m) (totalSize m).
Definition on_txByID (f : gmap bytes address → gmap bytes address) (m : Mempool) : Mempool :=
  MkMempool (config m) (heap m) (f (txByID m)) (txByImage m) (priorityQueue m) (totalSize m).
Definition on_txByImage (f : gmap bytes bytes → gmap bytes bytes) (m : Mempool) : Mempool :=
  MkMempool (config m) (heap m) (txByID m) (f (txByImage m)) (priorityQueue m) (totalSize m).
Definition on_priorityQueue (f : list address → list address) (m : Mempool) : Mempool :=
  MkMempool (config m) (heap m) (txByID m) (txByImage m) (f (priorityQueue m)) (totalSize m).
Definition on_totalSize (f : Z → Z) (m : Mempool) : Mempool :=
  MkMempool (config m) (heap m) (txByID m) (txByImage m) (priorityQueue m) (f (totalSize m)).

Definition NewMempool (cfg : MempoolConfig) : Mempool := MkMempool cfg ∅ ∅ ∅ [] 0.

(** The entry behind an id. *)
Definition entry (m : Mempool) (txID : bytes) : option MempoolEntry :=
  p ← txByID m !! txID; heap m !! p.

(** ** Priority queue

    [container/heap] over the queue's [Less], [Swap], [Push] and [Pop].  The
    positions it passes are in range. *)

Definition fee_rate_at (m : Mempool) (i : nat) : Z :=
  default 0 (EFeeRate <$> (p ← priorityQueue m !! i; heap m !! p)).

Definition Less (m : Mempool) (i j : nat) : bool := fee_rate_at m j <? fee_rate_at m i.

Definition Swap (i j : nat) (m : Mempool) : Mempool :=
  match priorityQueue m !! i, priorityQueue m !! j with
  | Some p, Some q =>
      on_heap (λ h, alter (with_index (Z.of_nat j)) p (alter (with_index (Z.of_nat i)) q h))
        (on_priorityQueue (λ l, <[j := p]> (<[i := q]> l)) m)
  | _, _ => m
  end.

Definition Push (p : address) (m : Mempool) : Mempool :=
  on_priorityQueue (λ l, l ++ [p])
    (on_heap (alter (with_index (Z.of_nat (length (priorityQueue m)))) p) m).

Definition Pop (m : Mempool) : Mempool :=
  match last (priorityQueue m) with
  | Some p =>
      on_priorityQueue (λ l, take (length l - 1) l) (on_heap (alter (with_index (-1)) p) m)
  | None => m
  end.

(** [up]: a step halves the position. *)
Fixpoint up (fuel : nat) (j : nat) (m : Mempool) : Mempool :=
  match fuel with
  | O => m
  | S fuel =>
      let i := ((j - 1) / 2)%nat in
      if decide (i = j) then m
      else if negb (Less m j i) then m
      else up fuel i (Swap i j m)
  end.

(** [down]: the position grows; returns whether it moved. *)
Fixpoint down (fuel : nat) (i n : nat) (m : Mempool) : nat * Mempool :=
  match fuel with
  | O => (i, m)
  | S fuel =>
      let j1 := (2 * i + 1)%nat in
      if decide (n <= j1)%nat then (i, m)
      else
        let j := if decide (j1 + 1 < n)%nat then (if Less m (j1 + 1) j1 then (j1 + 1)%nat else j1) else j1 in
        if negb (Less m j i) then (i, m)
        else down fuel j n (Swap i j m)
  end.

Definition heap_Push (p : address) (m : Mempool) : Mempool :=
  let m := Push p m in
  up (length (priorityQueue m)) (length (priorityQueue m) - 1) m.

Definition heap_Remove (i : nat) (m : Mempool) : Mempool :=
  let n := (length (priorityQueue m) - 1)%nat in
  let m := if decide (n ≠ i) then
             let m := Swap i n m in
             let '(i', m) := down (length (priorityQueue m)) i n m in
             if decide (i < i')%nat then m else up (length (priorityQueue m)) i m
           else m in
  Pop m.

(** ** Removal *)

Definition removeTxByID (txID : bytes) (m : Mempool) : Mempool :=
  match txByID m !! txID with
  | None => m
  | Some p =>
      match heap m !! p with
      | None => m
      | Some e =>
          let m := on_txByID (delete txID) m in
          let m := on_txByImage (λ ims, foldl (λ ims ki, delete ki ims) ims (key_images (ETx e))) m in
          let m := on_totalSize (λ t, t - ESize e) m in
          if (0 <=? EIndex e) && (EIndex e <? Z.of_nat (length (priorityQueue m)))
          then heap_Remove (Z.to_nat (EIndex e)) m else m
      end
  end.

Definition RemoveTransaction := removeTxByID.

Definition RemoveTransactions (txIDs : list bytes) (m : Mempool) : Mempool :=
  foldl (λ m txID, removeTxByID txID m) m txIDs.

Definition RemoveByKeyImage (keyImage : bytes) (m : Mempool) : Mempool :=
  match txByImage m !! keyImage with
  | Some txID => removeTxByID txID m
  | None => m
  end.

Definition GetTransaction (m : Mempool) (txID : bytes) : option Transaction := ETx <$> entry m txID.

Definition HasTransaction (m : Mempool) (txID : bytes) : bool := bool_decide (is_Some (txByID m !! txID)).

Definition HasKeyImage (m : Mempool) (keyImage : bytes) : bool := bool_decide (is_Some (txByImage m !! keyImage)).

Definition MempoolSize (m : Mempool) : Z := Z.of_nat (size (txByID m)).

Definition SizeBytes (m : Mempool) : Z := totalSize m.

Definition Clear (m : Mempool) : Mempool := MkMempool (config m) (heap m) ∅ ∅ [] 0.

(** ** Iteration *)

(** The order in which a loop visits a map. *)
Class MapOrder : Type := { iterate : gmap bytes address → list (bytes * address) }.

Class MapOrderLaws (O : MapOrder) : Prop := {
  iterate_perm : ∀ ids, iterate ids ≡ₚ map_to_list ids;
}.

Section Mempool.
Context `{Crypto} `{MapOrder}.

(** All entries with their ids, in the order of a loop. *)
Definition entries (m : Mempool) : list (bytes * MempoolEntry) :=
  omap (λ '(id, p), (λ e, (id, e)) <$> heap m !! p) (iterate (txByID m)).

(** ** Eviction *)

(** The first of the oldest entries. *)
Definition oldest (m : Mempool) : option (bytes * MempoolEntry) :=
  foldl (λ best x, match best with
                   | None => Some x
                   | Some b => if EAddedAt x.2 <? EAddedAt b.2 then Some x else best
                   end) None (entries m).

Definition evictLowest (minFeeRate : Z) (m : Mempool) : bool * Mempool :=
  if decide (priorityQueue m = []) then (false, m)
  else match oldest m with
       | Some (oldestID, e) =>
           if EFeeRate e <? minFeeRate then (true, removeTxByID oldestID m) else (false, m)
       | None => (false, m)
       end.

(** The loop that makes room for [sz] bytes; [false] if it gave up. *)
Fixpoint make_room (fuel : nat) (feeRate sz : Z) (m : Mempool) : bool * Mempool :=
  match fuel with
  | O => (true, m)
  | S fuel =>
      if (MaxSizeBytes (config m) <? totalSize m + sz) && bool_decide (priorityQueue m ≠ []) then
        let '(ok, m) := evictLowest feeRate m in
        if ok then make_room fuel feeRate sz m else (false, m)
      else (true, m)
  end.

(** The new entry, in every index. *)
Definition insert_entry (tx : Transaction) (txID txData : bytes) (feeRate now : Z) (m : Mempool) : Mempool :=
  let sz := Z.of_nat (length txData) in
  let p := fresh (dom (heap m)) in
  let m := on_heap (<[p := MkMempoolEntry tx txID txData (Fee tx) feeRate sz now 0]>) m in
  let m := on_txByID (<[txID := p]>) m in
  let m := on_txByImage (λ ims, foldl (λ ims ki, <[ki := txID]> ims) ims (key_images tx)) m in
  let m := heap_Push p m in
  on_totalSize (λ t, t + sz) m.

(** The checks of the limits and the insertion; an error may follow
    evictions. *)
Definition admit_tx (parsedTx : Transaction) (txID txData : bytes) (feeRate now : Z) : M Mempool unit :=
  let sz := Z.of_nat (length txData) in
  m ← get;
  checkM (feeRate <? MinFeeRate (config m)) (Errorf "fee rate too low: %d < %d");;
  (if MaxSize (config m) <=? Z.of_nat (size (txByID m)) then
     let '(ok, m) := evictLowest feeRate m in
     modify (λ _, m);; checkM (negb ok) (Errorf "mempool full")
   else mret tt);;
  m ← get;
  let '(ok, m) := make_room (length (priorityQueue m)) feeRate sz m in
  modify (λ _, m);;
  checkM (negb ok) (Errorf "mempool size limit exceeded");;
  modify (insert_entry parsedTx txID txData feeRate now).

(** ** Admission *)

Section WithChain.
Context {S : Type} (isKeyImageSpent : bytes → M S bool) (isCanonicalRingMember : bytes → bytes → M S bool).

(** The chain and the mempool; a call on one of them. *)
Definition on_chain {A} (f : M S A) : M (S * Mempool) A := λ s,
  let '(r, c) := f s.1 in (r, (c, s.2)).
Definition on_pool {A} (f : M Mempool A) : M (S * Mempool) A := λ s,
  let '(r, m) := f s.2 in (r, (s.1, m)).

(** [now] is the clock in nanoseconds; [tx] the caller's transaction. *)
Definition AddTransaction (now : Z) (tx : Transaction) (txData : bytes) : M (S * Mempool) unit :=
  parsedTx ← lift (wrap "invalid transaction data" (DeserializeTx txData));
  checkM (IsCoinbase parsedTx) (Errorf "coinbase transaction cannot be added to mempool");;
  txID ← lift (wrap "failed to get tx ID" (TxID parsedTx));
  s ← get;
  if HasTransaction s.2 txID then mret tt
  else
    checkM (existsb (HasKeyImage s.2) (key_images parsedTx))
           (Errorf "double-spend: key image already in mempool (tx %x...)");;
    on_chain (wrapM "validation failed"
                (ValidateTransaction isKeyImageSpent (Some isCanonicalRingMember) parsedTx));;
    let feeRate := Fee tx `div` Z.of_nat (length txData) in
    on_pool (admit_tx parsedTx txID txData feeRate now).

(** ** Blocks *)

(** [tx.TxID()] has no error result. *)
Definition connect_tx (tx : Transaction) : M Mempool unit :=
  txID ← lift (TxID tx);
  modify (removeTxByID txID);;
  modify (λ m, foldl (λ m ki, RemoveByKeyImage ki m) m (key_images tx)).

Definition OnBlockConnected (block : Block) : M Mempool unit := for_each connect_tx (Transactions block).

(** Is some input of [txID] spent by another transaction of the mempool or on
    the chain? *)
Fixpoint conflicts (txID : bytes) (kis : list bytes) : M (S * Mempool) bool :=
  match kis with
  | [] => mret false
  | ki :: kis =>
      s ← get;
      if match txByImage s.2 !! ki with Some id => bool_decide (id ≠ txID) | None => false end then mret true
      else
        on_chain (isKeyImageSpent ki) ≫= λ spent : bool,
        if spent then mret true else conflicts txID kis
  end.

Definition disconnect_tx (now : Z) (txDataMap : gmap bytes bytes) (tx : Transaction) : M (S * Mempool) unit :=
  if IsCoinbase tx then mret tt
  else
    txID ← lift (TxID tx);
    s ← get;
    if HasTransaction s.2 txID then mret tt
    else
      txData ← match txDataMap !! txID with
               | Some d => mret d
               | None => lift (Serialize tx)
               end;
      conflicts txID (key_images tx) ≫= λ bad : bool,
      if bad then mret tt
      else if decide (txData = []) then mret tt
      else on_pool (modify (insert_entry tx txID txData (Fee tx `div` Z.of_nat (length txData)) now)).

Definition OnBlockDisconnected (now : Z) (block : Block) (txDataMap : gmap bytes bytes) : M (S * Mempool) unit :=
  for_each (disconnect_tx now txDataMap) (Transactions block).

End WithChain.

(** ** Expiry, selection, listing *)

Definition expired (now : Z) (m : Mempool) : list bytes :=
  (filter (λ x : bytes * MempoolEntry, EAddedAt x.2 < now - ExpirationTime (config m)) (entries m)).*1.

(** The number of transactions removed. *)
Definition RemoveExpired (now : Z) (m : Mempool) : nat * Mempool :=
  let toRemove := expired now m in
  (length toRemove, RemoveTransactions toRemove m).

(** Higher fee rate first. *)
Definition by_fee_rate (x y : MempoolEntry) : bool := EFeeRate x <? EFeeRate y.

Definition GetAllEntries (m : Mempool) : list MempoolEntry := exchange_sort by_fee_rate (entries m).*2.

(** The selection loop: what is taken so far has [count] transactions and
    [total] bytes. *)
Fixpoint select (maxSize maxCount : Z) (count total : Z) (l : list MempoolEntry) : list MempoolEntry :=
  match l with
  | [] => []
  | e :: l =>
      if maxCount <=? count then []
      else if maxSize <? total + ESize e then select maxSize maxCount count total l
      else e :: select maxSize maxCount (count + 1) (total + ESize e) l
  end.

Definition GetTransactionsForBlock (m : Mempool) (maxSize maxCount : Z) : list Transaction :=
  ETx <$> select maxSize maxCount 0 0 (GetAllEntries m).

Definition GetAllTransactionData (m : Mempool) : list bytes := ETxData <$> (entries m).*2.

Record MempoolStats : Type := MkMempoolStats {
  Count : Z;
  StSizeBytes : Z;
  MinFee : Z;
  MaxFee : Z;
  TotalFee : Z;  (* the numerator of the average *)
}.

Definition Stats (m : Mempool) : MempoolStats :=
  let s := MkMempoolStats (MempoolSize m) (totalSize m) 0 0 0 in
  foldl (λ s e,
    MkMempoolStats (Count s) (StSizeBytes s)
      (if (MinFee s =? 0) || (EFee e <? MinFee s) then EFee e else MinFee s)
      (if MaxFee s <? EFee e then EFee e else MaxFee s)
      (u64 (TotalFee s + EFee e))) s (entries m).*2.

End Mempool.
