(* ===== verification/MempoolQueue.v ===== *)
(** * The mempool's priority queue

    The heap operations permute the queue and keep every entry's recorded
    position right, so that [heap.Remove] at an entry's position removes that
    entry. *)

From S2P Require Import Prelude Bytes Crypto Transaction Block ExchangeSort Memo Emission Validation Mempool.

(** Each queued entry knows its position. *)
Definition queue_ok (m : Mempool) : Prop :=
  NoDup (priorityQueue m) ∧
  ∀ i p, priorityQueue m !! i = Some p → ∃ e, heap m !! p = Some e ∧ EIndex e = Z.of_nat i.

(** [m'] is [m] up to the queue and the recorded positions. *)
Record reindexed (m m' : Mempool) : Prop := {
  ri_config : config m' = config m;
  ri_txByID : txByID m' = txByID m;
  ri_txByImage : txByImage m' = txByImage m;
  ri_totalSize : totalSize m' = totalSize m;
  ri_heap : ∀ p, with_index 0 <$> heap m' !! p = with_index 0 <$> heap m !! p;
}.

#[global] Instance reindexed_preorder : PreOrder reindexed.
Proof.
  split.
  - by intros m.
  - intros m1 m2 m3 [] []. split; try (etrans; eassumption). intros p. by rewrite ri_heap1.
Qed.

Lemma with_index_idem i j e : with_index i (with_index j e) = with_index i e.
Proof. done. Qed.

Lemma alter_index_heap (h : gmap nat MempoolEntry) p i q :
  with_index 0 <$> alter (with_index i) p h !! q = with_index 0 <$> h !! q.
Proof.
  destruct (decide (p = q)) as [->|]; [|by rewrite lookup_alter_ne].
  rewrite lookup_alter_eq. by destruct (h !! q).
Qed.

Lemma alter_index_Some (h : gmap nat MempoolEntry) p i q e :
  h !! q = Some e → alter (with_index i) p h !! q = Some (if decide (p = q) then with_index i e else e).
Proof.
  intros E. case_decide as Hd; [subst; by rewrite lookup_alter_eq, E|by rewrite lookup_alter_ne].
Qed.

(** ** Swapping *)

(** What the loops of the heap do: they permute the queue below [n]. *)
Definition shuffles (n : nat) (m m' : Mempool) : Prop :=
  queue_ok m' ∧ reindexed m m' ∧ priorityQueue m' ≡ₚ priorityQueue m ∧
  ∀ k, (n <= k)%nat → priorityQueue m' !! k = priorityQueue m !! k.

Lemma shuffles_refl n m : queue_ok m → shuffles n m m.
Proof. intros Hq. by split; [|split_and!]. Qed.

Lemma shuffles_trans n m1 m2 m3 : shuffles n m1 m2 → shuffles n m2 m3 → shuffles n m1 m3.
Proof.
  intros (_ & R1 & P1 & K1) (Q & R2 & P2 & K2). unfold shuffles. split_and!; [done|by etrans|by rewrite P2|].
  intros k Hk. by rewrite K2, K1.
Qed.

Lemma Swap_shuffles n i j m :
  queue_ok m → (i < length (priorityQueue m))%nat → (j < length (priorityQueue m))%nat →
  (i < n)%nat → (j < n)%nat → shuffles n m (Swap i j m).
Proof.
  intros [Hnd Hix] Hi Hj Hin Hjn. unfold Swap.
  destruct (lookup_lt_is_Some_2 _ _ Hi) as [p Hp], (lookup_lt_is_Some_2 _ _ Hj) as [q Hq]. rewrite Hp, Hq.
  assert (∀ k x, <[j := p]> (<[i := q]> (priorityQueue m)) !! k = Some x →
    priorityQueue m !! (if decide (k = j) then i else if decide (k = i) then j else k) = Some x) as Hlk.
  { intros k x Hx. destruct (decide (k = j)) as [->|Hkj].
    - rewrite list_lookup_insert_eq in Hx by (rewrite length_insert; done). by simplify_eq.
    - rewrite list_lookup_insert_ne in Hx by done. destruct (decide (k = i)) as [->|Hki].
      + rewrite list_lookup_insert_eq in Hx by done. by simplify_eq.
      + by rewrite list_lookup_insert_ne in Hx. }
  assert (<[j := p]> (<[i := q]> (priorityQueue m)) ≡ₚ priorityQueue m) as Hperm.
  { by apply Permutation_insert_swap. }
  unfold shuffles. split_and!.
  - split; cbn; [by rewrite Hperm|]. intros k x Hx. pose proof (Hlk _ _ Hx) as Hx'.
    destruct (Hix _ _ Hx') as (e & He & Ee).
    rewrite (alter_index_Some _ p _ x (if decide (q = x) then with_index (Z.of_nat i) e else e))
      by by apply alter_index_Some.
    eexists. split; [done|]. destruct (decide (k = j)) as [->|Hkj].
    { assert (x = p) as -> by congruence. by rewrite (decide_True _ _ eq_refl). }
    destruct (decide (k = i)) as [->|Hki].
    + assert (x = q) as -> by congruence. rewrite (decide_True _ _ eq_refl).
      rewrite decide_False; [done|]. intros ->. by apply Hkj, (NoDup_lookup _ _ _ q Hnd).
    + rewrite !decide_False; [done| |].
      * intros ->. by apply Hkj, (NoDup_lookup _ _ _ x Hnd).
      * intros ->. by apply Hki, (NoDup_lookup _ _ _ x Hnd).
  - split; try done. intros x. cbn. by rewrite !alter_index_heap.
  - done.
  - intros k Hk. cbn. by rewrite !list_lookup_insert_ne by lia.
Qed.

Lemma shuffles_length n m m' : shuffles n m m' → length (priorityQueue m') = length (priorityQueue m).
Proof. intros (_ & _ & Hp & _). by rewrite Hp. Qed.

Lemma up_shuffles fuel n j m :
  queue_ok m → (j < n)%nat → (n <= length (priorityQueue m))%nat → shuffles n m (up fuel j m).
Proof.
  revert j m. induction fuel as [|fuel IH]; intros j m Hq Hj Hn; cbn [up]; [by apply shuffles_refl|].
  assert ((j - 1) / 2 <= j)%nat by (transitivity (j - 1)%nat; [apply Nat.Div0.div_le_upper_bound; lia|lia]).
  case_decide; [by apply shuffles_refl|]. destruct (negb _); [by apply shuffles_refl|].
  pose proof (Swap_shuffles n ((j - 1) / 2) j m Hq ltac:(lia) ltac:(lia) ltac:(lia) Hj) as Hs.
  eapply shuffles_trans; [exact Hs|]. apply IH; [apply Hs|lia|]. by rewrite (shuffles_length _ _ _ Hs).
Qed.

Lemma down_shuffles fuel n i m :
  queue_ok m → (i < n)%nat → (n <= length (priorityQueue m))%nat → shuffles n m (down fuel i n m).2.
Proof.
  revert i m. induction fuel as [|fuel IH]; intros i m Hq Hi Hn; cbn [down]; [by apply shuffles_refl|].
  case_decide; [by apply shuffles_refl|].
  set (j := if decide (2 * i + 1 + 1 < n)%nat then _ else _).
  assert (i < j < n)%nat as Hj.
  { unfold j. case_decide; [destruct (Less _ _ _)|]; lia. }
  destruct (negb _); [by apply shuffles_refl|].
  pose proof (Swap_shuffles n i j m Hq ltac:(lia) ltac:(lia) Hi ltac:(lia)) as Hs.
  eapply shuffles_trans; [exact Hs|]. apply IH; [apply Hs|lia|]. by rewrite (shuffles_length _ _ _ Hs).
Qed.

(** ** Insertion and removal *)

Lemma heap_Push_spec p m :
  queue_ok m → p ∉ priorityQueue m → is_Some (heap m !! p) →
  queue_ok (heap_Push p m) ∧ reindexed m (heap_Push p m) ∧ priorityQueue (heap_Push p m) ≡ₚ p :: priorityQueue m.
Proof.
  intros [Hnd Hix] Hp [e He]. unfold heap_Push.
  assert (queue_ok (Push p m) ∧ reindexed m (Push p m)) as [Hq Hr].
  { split; [split|split; try done]; cbn.
    - apply NoDup_app. split_and!; [done| |apply NoDup_singleton]. set_solver.
    - intros i q [Hq|[Hi Hq]]%lookup_app_Some.
      + destruct (Hix _ _ Hq) as (e' & He' & Ei). exists e'. split; [|done].
        rewrite (alter_index_Some _ _ _ _ _ He'), decide_False; [done|].
        intros ->. apply Hp. by eapply list_elem_of_lookup_2.
      + apply list_lookup_singleton_Some in Hq as [Hz ->].
        rewrite (alter_index_Some _ _ _ _ _ He), (decide_True _ _ eq_refl). eexists. split; [done|]. cbn. lia.
    - intros q. by rewrite alter_index_heap. }
  pose proof (up_shuffles (length (priorityQueue (Push p m))) (length (priorityQueue (Push p m)))
    (length (priorityQueue (Push p m)) - 1) (Push p m) Hq) as Hs.
  assert (1 <= length (priorityQueue (Push p m)))%nat by (cbn; rewrite length_app; simpl; lia).
  destruct Hs as (Hq' & Hr' & Hperm & _); [lia|lia|].
  split_and!; [done|by etrans|]. rewrite Hperm. cbn. by rewrite Permutation_app_comm.
Qed.

Lemma Pop_spec p l m :
  queue_ok m → priorityQueue m = l ++ [p] →
  queue_ok (Pop m) ∧ reindexed m (Pop m) ∧ priorityQueue (Pop m) = l.
Proof.
  intros [Hnd Hix] El. unfold Pop. rewrite El, last_snoc. cbn. rewrite El in Hnd, Hix |- *.
  rewrite length_app, Nat.add_sub, take_app_length. apply NoDup_app in Hnd as (Hnd & Hd & _).
  split_and!; [|split; try done; intros q; cbn; by rewrite alter_index_heap|done].
  split; cbn; rewrite El, length_app, Nat.add_sub, take_app_length; [done|].
  intros i q Hq. destruct (Hix i q) as (e & He & Ei); [by apply lookup_app_l_Some|].
  exists e. split; [|done]. rewrite (alter_index_Some _ _ _ _ _ He), decide_False; [done|].
  intros ->. apply (Hd q); [by eapply list_elem_of_lookup_2|by left].
Qed.

Lemma heap_Remove_spec i p m :
  queue_ok m → priorityQueue m !! i = Some p →
  queue_ok (heap_Remove i m) ∧ reindexed m (heap_Remove i m) ∧ p :: priorityQueue (heap_Remove i m) ≡ₚ priorityQueue m.
Proof.
  intros Hq Hp. unfold heap_Remove. pose proof (lookup_lt_Some _ _ _ Hp) as Hi.
  set (n := (length (priorityQueue m) - 1)%nat).
  set (m1 := if decide (n ≠ i) then _ else m).
  assert (queue_ok m1 ∧ reindexed m m1 ∧ priorityQueue m1 ≡ₚ priorityQueue m ∧ priorityQueue m1 !! n = Some p) as (Hq1 & Hr1 & Hp1 & Hl1).
  { unfold m1. case_decide as Hne; cycle 1.
    { rewrite Hne. by split_and!. }
    pose proof (Swap_shuffles (S n) i n m Hq ltac:(lia) ltac:(lia) ltac:(lia) ltac:(lia)) as Hs.
    assert (priorityQueue (Swap i n m) !! n = Some p) as Hn.
    { unfold Swap. destruct (lookup_lt_is_Some_2 (priorityQueue m) n ltac:(lia)) as [q Hn]. rewrite Hp, Hn. cbn.
      apply list_lookup_insert_eq. rewrite length_insert. lia. }
    pose proof Hs as (Hqs & Hrs & Hps & _). pose proof (shuffles_length _ _ _ Hs) as Hls.
    pose proof (down_shuffles (length (priorityQueue (Swap i n m))) n i (Swap i n m) Hqs ltac:(lia) ltac:(lia)) as Hd.
    destruct (down _ i n (Swap i n m)) as [i' m2]. cbn [snd] in Hd.
    pose proof (shuffles_length _ _ _ Hd) as Hld.
    assert (shuffles n (Swap i n m) (if decide (i < i')%nat then m2 else up (length (priorityQueue m2)) i m2)) as (Hq2 & Hr2 & Hp2 & Hk2).
    { case_decide; [done|]. eapply shuffles_trans; [exact Hd|]. apply up_shuffles; [apply Hd|lia|lia]. }
    split_and!; [done|by etrans|by rewrite Hp2|]. by rewrite Hk2. }
  assert (priorityQueue m1 = take n (priorityQueue m1) ++ [p]) as El.
  { rewrite <- (take_drop_middle _ _ _ Hl1) at 1. f_equal. f_equal. apply drop_ge. rewrite Hp1. lia. }
  destruct (Pop_spec p _ m1 Hq1 El) as (Hq3 & Hr3 & Ep). split_and!; [done|by etrans|].
  rewrite Ep, <- Hp1. rewrite El at 2. by rewrite Permutation_app_comm.
Qed.
