(* ===== verification/MempoolInv.v ===== *)
(** * The mempool as a set of transactions

    The two indexes, the queue and the byte count are views of one map from
    transaction ids to entries, in which no key image occurs twice.  Every
    operation is an operation on that map. *)

From S2P Require Import Prelude Bytes Crypto Transaction TxCodec Block ExchangeSort Hoare Reads Memo Emission Validation Storage StorageFacts Mempool MempoolQueue.

Section MempoolInv.
Context `{HC : Crypto}.

(** What the pool holds under an id, up to the position in the queue. *)
Definition content (m : Mempool) (id : bytes) : option MempoolEntry := with_index 0 <$> entry m id.

Definition good_entry (id : bytes) (e : MempoolEntry) : Prop :=
  ETxID e = id ∧ TxID (ETx e) = Ok id ∧ IsCoinbase (ETx e) = false ∧
  wf_tx (ETx e) ∧ rings_match (ETx e) ∧ sha3_256 (ETxData e) = id ∧
  ESize e = Z.of_nat (length (ETxData e)) ∧ EFee e = Fee (ETx e).

Definition size_of (m : Mempool) (p : nat) : Z := default 0 (ESize <$> heap m !! p).

Record pool_ok (m : Mempool) : Prop := {
  po_queue : queue_ok m;
  po_live : priorityQueue m ≡ₚ (map_to_list (txByID m)).*2;
  po_entry : ∀ id p, txByID m !! id = Some p → ∃ e, heap m !! p = Some e ∧ good_entry id e;
  po_images : ∀ ki id, txByImage m !! ki = Some id ↔ ∃ e, content m id = Some e ∧ ki ∈ key_images (ETx e);
  po_total : totalSize m = sumZ (size_of m <$> priorityQueue m);
}.

Lemma good_entry_index id i e : good_entry id (with_index i e) ↔ good_entry id e.
Proof. done. Qed.

Lemma content_Some m id e :
  content m id = Some e ↔ ∃ p e', txByID m !! id = Some p ∧ heap m !! p = Some e' ∧ e = with_index 0 e'.
Proof.
  unfold content, entry. rewrite fmap_Some. setoid_rewrite bind_Some. naive_solver.
Qed.

Lemma content_good m id e : pool_ok m → content m id = Some e → good_entry id e.
Proof.
  intros P (p & e' & Hp & He & ->)%content_Some. destruct (po_entry _ P _ _ Hp) as (e'' & He'' & Hg). by simplify_eq.
Qed.

Lemma content_None m id : pool_ok m → content m id = None ↔ txByID m !! id = None.
Proof.
  intros P. unfold content, entry. destruct (txByID m !! id) as [p|] eqn:E; [|done].
  destruct (po_entry _ P _ _ E) as (e & He & _). cbn [mbind option_bind]. by rewrite He.
Qed.

(** Addresses are not shared. *)
Lemma txByID_inj m id id' p : pool_ok m → txByID m !! id = Some p → txByID m !! id' = Some p → id = id'.
Proof.
  intros P H1 H2. destruct (po_entry _ P _ _ H1) as (e & He & (<- & _)).
  destruct (po_entry _ P _ _ H2) as (e' & He' & (<- & _)). by simplify_eq.
Qed.

Lemma elem_of_queue m p : pool_ok m → p ∈ priorityQueue m ↔ ∃ id, txByID m !! id = Some p.
Proof.
  intros P. rewrite (po_live _ P), list_elem_of_fmap. split.
  - intros ([id q] & -> & Hq%elem_of_map_to_list). by exists id.
  - intros [id Hid]. exists (id, p). split; [done|]. by apply elem_of_map_to_list.
Qed.

(** A mempool holds at most one transaction per key image. *)
Lemma content_disjoint m id id' e e' ki :
  pool_ok m → content m id = Some e → content m id' = Some e' →
  ki ∈ key_images (ETx e) → ki ∈ key_images (ETx e') → id = id'.
Proof.
  intros P H1 H2 K1 K2. assert (txByImage m !! ki = Some id) as E1 by (apply (po_images _ P); eauto).
  assert (txByImage m !! ki = Some id') as E2 by (apply (po_images _ P); eauto). congruence.
Qed.

Lemma length_queue m : pool_ok m → length (priorityQueue m) = size (txByID m).
Proof. intros P. by rewrite (po_live _ P), length_fmap, length_map_to_list. Qed.

(** ** Reindexing *)

Lemma reindexed_size m m' p : reindexed m m' → size_of m' p = size_of m p.
Proof.
  intros R. unfold size_of. pose proof (ri_heap _ _ R p) as E.
  destruct (heap m' !! p) as [e'|], (heap m !! p) as [e|]; cbn in *; try done.
  injection E as _ _ _ _ _ E _. exact E.
Qed.

Lemma reindexed_entry m m' p e :
  reindexed m m' → heap m !! p = Some e → ∃ i, heap m' !! p = Some (with_index i e).
Proof.
  intros R He. pose proof (ri_heap _ _ R p) as E. rewrite He in E. cbn in E.
  apply fmap_Some in E as (e' & He' & E). exists (EIndex e'). rewrite He'. f_equal.
  change (with_index (EIndex e') e) with (with_index (EIndex e') (with_index 0 e)). rewrite E. by destruct e'.
Qed.

Lemma reindexed_content m m' id : reindexed m m' → content m' id = content m id.
Proof.
  intros R. unfold content, entry. rewrite (ri_txByID _ _ R). destruct (txByID m !! id) as [p|]; [|done].
  cbn. apply (ri_heap _ _ R).
Qed.

(** ** Removal *)

(** The pool without the transaction [id]. *)
Definition without (id : bytes) (m m' : Mempool) : Prop :=
  config m' = config m ∧ ∀ id', content m' id' = if decide (id' = id) then None else content m id'.

(** The indexes after an entry is taken out, before the queue is. *)
Definition unindexed (id : bytes) (e : MempoolEntry) (m : Mempool) : Mempool :=
  on_totalSize (λ t, t - ESize e)
    (on_txByImage (λ ims, foldl (λ ims ki, delete ki ims) ims (key_images (ETx e))) (on_txByID (delete id) m)).

Lemma removeTxByID_run m id p e :
  pool_ok m → txByID m !! id = Some p → heap m !! p = Some e →
  ∃ i, priorityQueue m !! i = Some p ∧ removeTxByID id m = heap_Remove i (unindexed id e m).
Proof.
  intros P Hp He. assert (p ∈ priorityQueue m) as [i Hi]%list_elem_of_lookup by (apply elem_of_queue; eauto).
  destruct (proj2 (po_queue _ P) _ _ Hi) as (e' & He' & Ei). assert (e' = e) as -> by congruence.
  exists i. split; [done|]. unfold removeTxByID. rewrite Hp, He. cbn zeta. rewrite Ei.
  pose proof (lookup_lt_Some _ _ _ Hi). cbn [on_totalSize on_txByImage on_txByID priorityQueue].
  rewrite (proj2 (Z.leb_le _ _)), (proj2 (Z.ltb_lt _ _)) by lia. by rewrite Nat2Z.id.
Qed.

Lemma removeTxByID_spec m id :
  pool_ok m → pool_ok (removeTxByID id m) ∧ without id m (removeTxByID id m).
Proof.
  intros P. destruct (txByID m !! id) as [p|] eqn:Hp; cycle 1.
  { assert (removeTxByID id m = m) as -> by (unfold removeTxByID; by rewrite Hp).
    split; [done|]. split; [done|]. intros id'. case_decide; [subst; by apply content_None|done]. }
  destruct (po_entry _ P _ _ Hp) as (e & He & Hg).
  destruct (removeTxByID_run _ _ _ _ P Hp He) as (i & Hi & ->). set (m1 := unindexed id e m).
  destruct (heap_Remove_spec i p m1 (po_queue _ P) Hi) as (Hq & R & Hperm).
  set (m2 := heap_Remove i m1) in *.
  assert (∀ id', content m2 id' = if decide (id' = id) then None else content m id') as Hc.
  { intros id'. rewrite (reindexed_content _ _ _ R). unfold content, entry. cbn. case_decide as Hd.
    - subst. by rewrite lookup_delete_eq.
    - by rewrite lookup_delete_ne. }
  split; [|split; [apply (ri_config _ _ R)|done]]. split; [done| | | |].
  - rewrite (ri_txByID _ _ R). cbn. apply (Permutation_cons_inv (a := p)). rewrite Hperm. cbn.
    rewrite (po_live _ P), <- (map_to_list_delete _ _ _ Hp). done.
  - intros id' q. rewrite (ri_txByID _ _ R). cbn. intros [_ Hid]%lookup_delete_Some.
    destruct (po_entry _ P _ _ Hid) as (e' & He' & Hg'). destruct (reindexed_entry m1 m2 q e' R He') as [j Hj].
    exists (with_index j e'). split; [done|]. by apply good_entry_index.
  - intros ki id'. rewrite (ri_txByImage _ _ R), Hc. cbn. rewrite lookup_foldl_delete.
    assert (content m id = Some (with_index 0 e)) as Hce by (apply content_Some; eauto).
    case_decide as Hin.
    + split; [done|]. intros (e' & Hce' & Hki). case_decide; [done|].
      by destruct (content_disjoint m id id' _ _ ki P Hce Hce' Hin Hki).
    + rewrite (po_images _ P). case_decide as Hd; [subst|done]. split; [|naive_solver].
      intros (e' & Hce' & Hki). rewrite Hce in Hce'. by simplify_eq.
  - rewrite (ri_totalSize _ _ R). cbn. rewrite (po_total _ P).
    rewrite (sumZ_perm (size_of m <$> priorityQueue m) (size_of m <$> p :: priorityQueue m2)) by (by rewrite Hperm).
    cbn. unfold size_of at 1. rewrite He. cbn.
    rewrite (list_fmap_ext (size_of m2) (size_of m)); [lia|]. intros _ q _. apply (reindexed_size _ _ _ R).
Qed.

(** ** Insertion *)

Definition new_entry (tx : Transaction) (txID txData : bytes) (feeRate now : Z) : MempoolEntry :=
  MkMempoolEntry tx txID txData (Fee tx) feeRate (Z.of_nat (length txData)) now 0.

(** The pool with a new entry. *)
Definition extended (id : bytes) (e : MempoolEntry) (m m' : Mempool) : Prop :=
  config m' = config m ∧ ∀ id', content m' id' = if decide (id' = id) then Some e else content m id'.

Lemma insert_entry_spec `{MapOrder} m tx id data feeRate now :
  pool_ok m → txByID m !! id = None → good_entry id (new_entry tx id data feeRate now) →
  (∀ ki, ki ∈ key_images tx → txByImage m !! ki = None) →
  let m' := insert_entry tx id data feeRate now m in
  pool_ok m' ∧ extended id (new_entry tx id data feeRate now) m m' ∧ totalSize m' = totalSize m + Z.of_nat (length data).
Proof.
  intros P Hid Hg Hki m'. set (e := new_entry tx id data feeRate now) in *.
  set (p := fresh (dom (heap m))).
  assert (heap m !! p = None) as Hp by (apply not_elem_of_dom, is_fresh).
  set (m1 := on_txByImage (λ ims, foldl (λ ims ki, <[ki := id]> ims) ims (key_images tx))
    (on_txByID (<[id := p]>) (on_heap (<[p := e]>) m))).
  assert (p ∉ priorityQueue m) as Hpq.
  { intros [i Hi]%list_elem_of_lookup. destruct (proj2 (po_queue _ P) _ _ Hi) as (x & Hx & _). congruence. }
  assert (queue_ok m1) as Hq1.
  { destruct (po_queue _ P) as [Hnd Hix]. split; [done|]. cbn. intros i q Hq.
    destruct (Hix _ _ Hq) as (x & Hx & Ex). exists x. split; [|done].
    rewrite lookup_insert_ne; [done|]. intros <-. congruence. }
  destruct (heap_Push_spec p m1 Hq1 Hpq) as (Hq2 & R & Hperm); [cbn; rewrite lookup_insert_eq; eauto|].
  change m' with (on_totalSize (λ t, t + Z.of_nat (length data)) (heap_Push p m1)).
  set (m2 := heap_Push p m1) in *. clearbody m2. clear m'.
  assert (∀ id', content (on_totalSize (λ t, t + Z.of_nat (length data)) m2) id' = if decide (id' = id) then Some e else content m id') as Hc.
  { intros id'. change (content (on_totalSize _ m2) id') with (content m2 id').
    rewrite (reindexed_content _ _ _ R). unfold content, entry. cbn. case_decide as Hd.
    - subst. rewrite lookup_insert_eq. cbn. by rewrite lookup_insert_eq.
    - rewrite lookup_insert_ne by done. destruct (txByID m !! id') as [q|] eqn:Eq; [|done]. cbn.
      rewrite lookup_insert_ne; [done|]. intros <-. destruct (po_entry _ P _ _ Eq) as (x & Hx & _). congruence. }
  split; [|split; [split; [apply (ri_config _ _ R)|done]|cbn; by rewrite (ri_totalSize _ _ R)]]. split; [done| | | |].
  - cbn. rewrite (ri_txByID _ _ R), Hperm. cbn. rewrite map_to_list_insert by done. cbn. by rewrite (po_live _ P).
  - cbn. intros id' q. rewrite (ri_txByID _ _ R). cbn. intros [[<- <-]|[Hne Hq]]%lookup_insert_Some.
    + destruct (reindexed_entry m1 m2 p e R) as [j Hj]; [cbn; by rewrite lookup_insert_eq|].
      exists (with_index j e). split; [done|]. by apply good_entry_index.
    + destruct (po_entry _ P _ _ Hq) as (x & Hx & Hgx).
      destruct (reindexed_entry m1 m2 q x R) as [j Hj].
      { cbn. rewrite lookup_insert_ne; [done|]. intros <-. congruence. }
      exists (with_index j x). split; [done|]. by apply good_entry_index.
  - intros ki id'. rewrite Hc. cbn. rewrite (ri_txByImage _ _ R). cbn. rewrite lookup_foldl_insert.
    case_decide as Hin.
    + split.
      * intros [= <-]. rewrite decide_True by done. eauto.
      * case_decide as Hd; [by subst|]. intros (x & Hx & Hk).
        assert (txByImage m !! ki = Some id') as E by (apply (po_images _ P); eauto). by rewrite Hki in E.
    + rewrite (po_images _ P). case_decide as Hd; [subst|done]. rewrite (proj2 (content_None m id P) Hid).
      split; [naive_solver|]. intros (x & [= <-] & Hk). done.
  - cbn. rewrite (ri_totalSize _ _ R). cbn. rewrite (po_total _ P).
    rewrite (sumZ_perm (size_of _ <$> priorityQueue m2) (size_of m2 <$> p :: priorityQueue m)) by (by rewrite Hperm).
    cbn. rewrite (reindexed_size _ _ _ R). unfold size_of at 2. cbn. rewrite lookup_insert_eq. cbn.
    rewrite (list_fmap_ext (size_of m2) (size_of m)); [lia|]. intros i q Hq. rewrite (reindexed_size _ _ _ R).
    unfold size_of. cbn. rewrite lookup_insert_ne; [done|]. intros <-. apply Hpq. by eapply list_elem_of_lookup_2.
Qed.

End MempoolInv.
