(* ===== verification/MempoolOps.v ===== *)
(** * The operations of the mempool

    Admission with its limits, eviction, expiry, blocks connected and
    disconnected, and the selection for a block, on the mempool as a set of
    transactions. *)

From S2P Require Import Prelude Bytes Crypto Transaction TxCodec Block ExchangeSort Hoare Reads Difficulty Memo Emission Validation Validity Storage StorageFacts Mempool MempoolQueue MempoolInv.

Section Ops.
Context `{HC : Crypto} `{HO : MapOrder} `{!MapOrderLaws HO}.

(** [m'] holds nothing [m] does not. *)
Definition subpool (m m' : Mempool) : Prop :=
  config m' = config m ∧ ∀ id e, content m' id = Some e → content m id = Some e.

#[global] Instance subpool_preorder : PreOrder subpool.
Proof. split; [by split|]. intros m1 m2 m3 [E1 H1] [E2 H2]. split; [congruence|auto]. Qed.

Lemma without_subpool id m m' : without id m m' → subpool m m'.
Proof. intros [Ec Hc]. split; [done|]. intros id' e. rewrite Hc. by case_decide. Qed.

Lemma subpool_id m m' id : pool_ok m → pool_ok m' → subpool m m' → txByID m !! id = None → txByID m' !! id = None.
Proof.
  intros P P' [_ Hs] Hn. apply (content_None _ _ P'). destruct (content m' id) as [e|] eqn:E; [|done].
  apply Hs in E. by rewrite (proj2 (content_None _ _ P) Hn) in E.
Qed.

Lemma subpool_image m m' ki : pool_ok m → pool_ok m' → subpool m m' → txByImage m !! ki = None → txByImage m' !! ki = None.
Proof.
  intros P P' [_ Hs] Hn. destruct (txByImage m' !! ki) as [id|] eqn:E; [|done].
  apply (po_images _ P') in E as (e & He & Hk).
  assert (txByImage m !! ki = Some id) as E by (apply (po_images _ P); eauto). congruence.
Qed.

(** ** Loops over the entries *)

Lemma elem_of_entries m id e : (id, e) ∈ entries m ↔ entry m id = Some e.
Proof.
  unfold entries, entry. rewrite list_elem_of_omap. split.
  - intros ([id' p] & Hin & Hx). rewrite iterate_perm in Hin. apply elem_of_map_to_list in Hin.
    apply fmap_Some in Hx as (e' & He & [= -> ->]). rewrite Hin. exact He.
  - intros (p & Hp & He)%bind_Some. exists (id, p). rewrite iterate_perm. split; [by apply elem_of_map_to_list|].
    by rewrite He.
Qed.

Lemma entries_perm m :
  pool_ok m → (entries m).*1 ≡ₚ (map_to_list (txByID m)).*1 ∧ length (entries m) = size (txByID m).
Proof.
  intros P. assert ((entries m).*1 = (iterate (txByID m)).*1) as E.
  { unfold entries. assert (∀ id p, (id, p) ∈ iterate (txByID m) → is_Some (heap m !! p)) as Hl.
    { intros id p Hp. rewrite iterate_perm in Hp. apply elem_of_map_to_list in Hp.
      destruct (po_entry _ P _ _ Hp) as (e & -> & _). eauto. }
    induction (iterate (txByID m)) as [|[id p] l IH]; [done|]. cbn.
    destruct (Hl id p ltac:(by left)) as [e ->]. cbn. f_equal. apply IH. intros id' p' Hp. apply (Hl id' p'). by right. }
  split; [by rewrite E, iterate_perm|].
  rewrite <- (length_fmap fst), E, iterate_perm, length_fmap. by rewrite length_map_to_list.
Qed.

Lemma entries_NoDup m : pool_ok m → NoDup (entries m).*1.
Proof. intros P. rewrite (proj1 (entries_perm m P)). apply NoDup_fst_map_to_list. Qed.

(** ** Eviction *)

Lemma foldl_oldest (l : list (bytes * MempoolEntry)) best r :
  foldl (λ best x, match best with
                   | None => Some x
                   | Some b => if EAddedAt x.2 <? EAddedAt b.2 then Some x else best
                   end) best l = Some r →
  (Some r = best ∨ r ∈ l) ∧ (∀ b, best = Some b → EAddedAt r.2 <= EAddedAt b.2) ∧
  Forall (λ x, EAddedAt r.2 <= EAddedAt x.2) l.
Proof.
  revert best. induction l as [|x l IH]; intros best E; cbn [foldl] in E.
  { split_and!; [by left| |constructor]. intros b ->. injection E as ->. lia. }
  apply IH in E as (Hin & Hb & Hl). destruct best as [b|].
  - destruct (Z.ltb_spec (EAddedAt x.2) (EAddedAt b.2)).
    + specialize (Hb x eq_refl). split_and!.
      * right. destruct Hin as [[= ->]|]; [by left|by right].
      * intros b' [= <-]. lia.
      * by constructor.
    + specialize (Hb b eq_refl). split_and!.
      * destruct Hin as [|]; [by left|right; by right].
      * intros b' [= <-]. lia.
      * constructor; [lia|done].
  - specialize (Hb x eq_refl). split_and!; [|done|by constructor].
    right. destruct Hin as [[= ->]|]; [by left|by right].
Qed.

(** Eviction takes an entry that no other one is older than, and only if its
    rate is lower than the newcomer's. *)
Lemma evictLowest_spec m rate :
  pool_ok m →
  let '(ok, m') := evictLowest rate m in
  pool_ok m' ∧ subpool m m' ∧ (ok = false → m' = m) ∧
  (ok = true → ∃ id e, content m id = Some e ∧ EFeeRate e < rate ∧ without id m m' ∧
     (∀ id' e', content m id' = Some e' → EAddedAt e <= EAddedAt e')) ∧
  (ok = true → S (length (priorityQueue m')) = length (priorityQueue m)).
Proof.
  intros P. unfold evictLowest. case_decide; [by split_and!|].
  destruct (oldest m) as [[id e]|] eqn:Eo; [|by split_and!].
  apply foldl_oldest in Eo as ([|Hin] & _ & Hl); [done|]. apply elem_of_entries in Hin.
  assert (content m id = Some (with_index 0 e)) as Hc by (unfold content; by rewrite Hin).
  destruct (Z.ltb_spec (EFeeRate e) rate) as [Hr|]; [|by split_and!].
  destruct (removeTxByID_spec m id P) as [P' Hw]. split_and!; [done|by eapply without_subpool|done| |].
  - intros _. exists id, (with_index 0 e). split_and!; [done|done|done|].
    intros id' e' (p & x & Hp & Hx & ->)%content_Some. rewrite Forall_forall in Hl.
    apply (Hl (id', x)), elem_of_entries. unfold entry. by rewrite Hp.
  - intros _. apply bind_Some in Hin as (p & Hp & He).
    destruct (removeTxByID_run m id p e P Hp He) as (i & Hi & ->).
    destruct (heap_Remove_spec i p (unindexed id e m) (po_queue _ P) Hi) as (_ & _ & Hperm).
    apply Permutation_length in Hperm. exact Hperm.
Qed.

Lemma make_room_spec fuel m rate sz :
  pool_ok m → (length (priorityQueue m) <= fuel)%nat →
  let '(ok, m') := make_room fuel rate sz m in
  pool_ok m' ∧ subpool m m' ∧ (length (priorityQueue m') <= length (priorityQueue m))%nat ∧
  (ok = true → totalSize m' + sz <= MaxSizeBytes (config m) ∨ priorityQueue m' = []).
Proof.
  revert m. induction fuel as [|fuel IH]; intros m P Hf; cbn [make_room].
  { split_and!; [done|done|lia|]. intros _. right. by apply nil_length_inv; lia. }
  destruct ((MaxSizeBytes (config m) <? totalSize m + sz) && bool_decide (priorityQueue m ≠ [])) eqn:E; cycle 1.
  { split_and!; [done|done|lia|]. intros _. apply andb_false_iff in E as [E|E]; simpl_bools; [left; lia|by right]. }
  simpl_bools. pose proof (evictLowest_spec m rate P) as He. destruct (evictLowest rate m) as [[] m1].
  - destruct He as (P1 & S1 & _ & _ & Hlen). specialize (Hlen eq_refl).
    specialize (IH m1 P1 ltac:(lia)). destruct (make_room fuel rate sz m1) as [ok m2].
    destruct IH as (P2 & S2 & Hl2 & Hok). split_and!; [done|by etrans|lia|]. by rewrite <- (proj1 S1).
  - destruct He as (P1 & S1 & Em & _ & _). rewrite (Em eq_refl) in *. by split_and!.
Qed.

(** ** Admission *)

(** The limits of the configuration. *)
Definition within_limits (m : Mempool) : Prop :=
  MempoolSize m <= MaxSize (config m) ∧ SizeBytes m <= MaxSizeBytes (config m).

Lemma good_new_entry tx id data rate now :
  DeserializeTx data = Ok tx → TxID tx = Ok id → IsCoinbase tx = false → good_entry id (new_entry tx id data rate now).
Proof.
  intros (Hwf & Hlim & ->)%DeserializeTx_consumed Hid Hcb. pose proof (tx_in_limits_rings _ Hlim).
  split_and!; [done..| |done|done]. cbn. unfold TxID in Hid. rewrite Serialize_encode in Hid by done. by injection Hid.
Qed.

Lemma extended_size id e m m' :
  pool_ok m → pool_ok m' → txByID m !! id = None → extended id e m m' → size (txByID m') = S (size (txByID m)).
Proof.
  intros P P' Hn [_ Hc].
  assert (dom (txByID m') = {[id]} ∪ dom (txByID m)) as Ed.
  { apply set_eq. intros x. rewrite elem_of_union, elem_of_singleton, !elem_of_dom.
    rewrite <- !not_eq_None_Some, <- !content_None by done. rewrite Hc. case_decide; naive_solver. }
  rewrite <- !size_dom, Ed, size_union by (apply not_elem_of_dom in Hn; set_solver). by rewrite size_singleton.
Qed.

(** An admitted transaction: some entries made room, the new one joined, and
    the pool stays within the limits if the newcomer alone is. *)
Definition admitted (id : bytes) (e : MempoolEntry) (m m' : Mempool) : Prop :=
  pool_ok m' ∧ (∃ m1, subpool m m1 ∧ extended id e m1 m') ∧
  (within_limits m → ESize e <= MaxSizeBytes (config m) → within_limits m') ∧
  MinFeeRate (config m) <= EFeeRate e.

Lemma insert_admitted m m1 tx id data rate now :
  pool_ok m → pool_ok m1 → subpool m m1 → txByID m !! id = None → good_entry id (new_entry tx id data rate now) →
  (∀ ki, ki ∈ key_images tx → txByImage m !! ki = None) →
  (totalSize m1 + Z.of_nat (length data) <= MaxSizeBytes (config m) ∨ priorityQueue m1 = []) →
  Z.of_nat (S (size (txByID m1))) <= Z.max (Z.of_nat (size (txByID m))) (MaxSize (config m)) →
  MinFeeRate (config m) <= rate →
  admitted id (new_entry tx id data rate now) m (insert_entry tx id data rate now m1).
Proof.
  intros P P1 S1 Hid Hg Hki Hroom Hsz Hrate. pose proof (subpool_id m m1 id P P1 S1 Hid) as Hid1.
  destruct (insert_entry_spec m1 tx id data rate now P1 Hid1 Hg) as (P' & Hx & Ht).
  { intros ki Hk. eapply (subpool_image m m1); auto. }
  set (m' := insert_entry tx id data rate now m1) in *.
  pose proof (extended_size _ _ _ _ P1 P' Hid1 Hx) as Hs. split_and!; [done|by exists m1| |done].
  unfold within_limits, MempoolSize, SizeBytes. cbn [ESize new_entry]. rewrite (proj1 Hx), (proj1 S1). intros [Hn _] Hd.
  split; [lia|]. destruct Hroom as [Hr|Hr]; [lia|]. rewrite Ht, (po_total _ P1), Hr. cbn. lia.
Qed.

Lemma admit_tx_triple m tx id data rate now :
  pool_ok m → txByID m !! id = None → good_entry id (new_entry tx id data rate now) →
  (∀ ki, ki ∈ key_images tx → txByImage m !! ki = None) →
  triple (λ m0, m0 = m) (admit_tx tx id data rate now)
    (λ _ m', admitted id (new_entry tx id data rate now) m m') (λ _ m', pool_ok m' ∧ subpool m m').
Proof.
  intros P Hid Hg Hki. unfold admit_tx. apply triple_get. intros ? ->.
  eapply triple_bind with (R := λ _ m0, m0 = m ∧ MinFeeRate (config m) <= rate).
  { apply triple_check; intros ? E ->; [split; [done|by simpl_bools]|by split]. }
  intros _. eapply triple_bind with (R := λ _ m1, pool_ok m1 ∧ subpool m m1 ∧ MinFeeRate (config m) <= rate ∧
    Z.of_nat (S (length (priorityQueue m1))) <= Z.max (Z.of_nat (size (txByID m))) (MaxSize (config m))).
  { intros ? [-> Hr]. destruct (Z.leb_spec (MaxSize (config m)) (Z.of_nat (size (txByID m)))) as [Hle|Hlt].
    - pose proof (evictLowest_spec m rate P) as He. destruct (evictLowest rate m) as [[] m1]; cbn.
      + destruct He as (P1 & S1 & _ & _ & Hlen). specialize (Hlen eq_refl).
        rewrite (length_queue m P) in Hlen. split_and!; [done|done|done|lia].
      + by destruct He as (P1 & S1 & _).
    - cbn. split_and!; [done|done|done|]. rewrite (length_queue m P). lia. }
  intros _. apply triple_get. intros m1 (P1 & S1 & Hr & Hsz).
  pose proof (make_room_spec (length (priorityQueue m1)) m1 rate (Z.of_nat (length data)) P1 ltac:(done)) as Hroom.
  destruct (make_room _ rate _ m1) as [ok m2]. destruct Hroom as (P2 & S2 & Hl2 & Hok).
  intros ? ->. unfold mbind, M_bind, modify, checkM, lift. destruct ok; cbn [negb check].
  - apply insert_admitted; [done|done|by etrans|done|done|done| | |done].
    + rewrite <- (proj1 S1). by apply Hok.
    + rewrite <- (length_queue m2 P2). lia.
  - split; [done|by etrans].
Qed.

End Ops.
