(* ===== verification/MempoolChain.v ===== *)
(** * The mempool against the chain

    What admission, the loss and the arrival of blocks and expiry do to the
    set of pending transactions, for any chain that answers the mempool's
    two callbacks consistently. *)

From S2P Require Import Prelude Bytes Crypto Transaction TxCodec Block ExchangeSort Hoare Reads Difficulty Memo Emission Validation Validity Storage StorageFacts Mempool MempoolQueue MempoolInv MempoolOps.

(** ** Removals *)

Section Removals.
Context `{HC : Crypto} `{HO : MapOrder} `{!MapOrderLaws HO}.

(** [m'] holds the entries of [m] that satisfy [K], unchanged. *)
Definition keeps (K : bytes → MempoolEntry → Prop) (m m' : Mempool) : Prop :=
  pool_ok m' ∧ config m' = config m ∧ ∀ id e, content m' id = Some e ↔ content m id = Some e ∧ K id e.

Lemma keeps_refl K m : pool_ok m → (∀ id e, content m id = Some e → K id e) → keeps K m m.
Proof. intros P HK. split_and!; [done..|]. naive_solver. Qed.

Lemma keeps_trans K K' m m1 m2 :
  keeps K m m1 → keeps K' m1 m2 → keeps (λ id e, K id e ∧ K' id e) m m2.
Proof. intros (_ & E1 & H1) (P2 & E2 & H2). split_and!; [done|congruence|]. intros id e. rewrite H2, H1. tauto. Qed.

Lemma keeps_iff K K' m m' :
  (∀ id e, content m id = Some e → K id e ↔ K' id e) → keeps K m m' → keeps K' m m'.
Proof.
  intros HK (P & E & Hc). split_and!; [done|done|]. intros id e. rewrite Hc. split; intros [He ?]; (split; [done|]).
  - by apply HK.
  - by apply HK in He as [_ ?]; auto.
Qed.

Lemma keeps_subpool K m m' : keeps K m m' → subpool m m'.
Proof. intros (_ & E & Hc). split; [done|]. intros id e ?%Hc. tauto. Qed.

Lemma removeTxByID_keeps id m : pool_ok m → keeps (λ id' _, id' ≠ id) m (removeTxByID id m).
Proof.
  intros P. destruct (removeTxByID_spec m id P) as (P' & E & Hc). split_and!; [done|done|].
  intros id' e. rewrite Hc. case_decide; naive_solver.
Qed.

Lemma RemoveTransactions_keeps ids m : pool_ok m → keeps (λ id _, id ∉ ids) m (RemoveTransactions ids m).
Proof.
  revert m. induction ids as [|id ids IH]; intros m P; cbn; [apply keeps_refl; set_solver|].
  pose proof (removeTxByID_keeps id m P) as K1. eapply keeps_iff; [|eapply keeps_trans; [exact K1|apply IH, K1]]. cbn. set_solver.
Qed.

Lemma RemoveByKeyImage_keeps ki m :
  pool_ok m → keeps (λ _ e, ki ∉ key_images (ETx e)) m (RemoveByKeyImage ki m).
Proof.
  intros P. unfold RemoveByKeyImage. destruct (txByImage m !! ki) as [id|] eqn:E.
  - eapply keeps_iff; [|by apply removeTxByID_keeps]. intros id' e He. apply (po_images _ P) in E as (e' & He' & Hk).
    split.
    + intros Hne Hin. by destruct (content_disjoint m id id' e' e ki P He' He Hk Hin).
    + intros Hn ->. by simplify_eq.
  - apply keeps_refl; [done|]. intros id e He Hin.
    assert (txByImage m !! ki = Some id) by (apply (po_images _ P); eauto). congruence.
Qed.

Lemma remove_images_keeps kis m :
  pool_ok m → keeps (λ _ e, ∀ ki, ki ∈ kis → ki ∉ key_images (ETx e)) m
                (foldl (λ m ki, RemoveByKeyImage ki m) m kis).
Proof.
  revert m. induction kis as [|ki kis IH]; intros m P; cbn; [apply keeps_refl; set_solver|].
  pose proof (RemoveByKeyImage_keeps ki m P) as K1. eapply keeps_iff; [|eapply keeps_trans; [exact K1|apply IH, K1]]. cbn. set_solver.
Qed.

Lemma TxID_encode tx : wf_tx tx → rings_match tx → TxID tx = Ok (sha3_256 (encode tx)).
Proof. intros Hwf Hr. unfold TxID. by rewrite (Serialize_encode tx Hwf Hr). Qed.

(** What a connected transaction leaves. *)
Definition unaffected (tx : Transaction) (id : bytes) (e : MempoolEntry) : Prop :=
  TxID tx ≠ Ok id ∧ ∀ ki, ki ∈ key_images tx → ki ∉ key_images (ETx e).

Lemma connect_tx_run tx m :
  wf_tx tx → rings_match tx → pool_ok m → ∃ m', connect_tx tx m = (Ok tt, m') ∧ keeps (unaffected tx) m m'.
Proof.
  intros Hwf Hr P. pose proof (TxID_encode tx Hwf Hr) as Eid. unfold connect_tx. rewrite Eid. cbn. eexists. split; [done|].
  pose proof (removeTxByID_keeps (sha3_256 (encode tx)) m P) as K1.
  eapply keeps_iff; [|eapply keeps_trans; [exact K1|apply remove_images_keeps, K1]].
  intros id e _. unfold unaffected. rewrite Eid. naive_solver.
Qed.

Lemma OnBlockConnected_run b m :
  Forall wf_tx (Transactions b) → Forall rings_match (Transactions b) → pool_ok m →
  ∃ m', OnBlockConnected b m = (Ok tt, m') ∧
        keeps (λ id e, Forall (λ tx, unaffected tx id e) (Transactions b)) m m'.
Proof.
  unfold OnBlockConnected. intros Hwf Hr. revert m. induction Hr as [|tx txs Htx _ IH]; intros m P; cbn [for_each].
  { exists m. split; [done|]. apply keeps_refl; [done|]. constructor. }
  apply Forall_cons in Hwf as [Hw Hwf]. specialize (IH Hwf).
  destruct (connect_tx_run tx m Hw Htx P) as (m1 & E1 & K1). destruct (IH m1 (proj1 K1)) as (m2 & E2 & K2).
  exists m2. unfold mbind, M_bind. rewrite E1. split; [done|].
  eapply keeps_iff; [|by eapply keeps_trans]. intros id e _. by rewrite Forall_cons.
Qed.

Lemma RemoveExpired_keeps now m :
  pool_ok m →
  keeps (λ _ e, now - ExpirationTime (config m) <= EAddedAt e) m (RemoveExpired now m).2.
Proof.
  intros P. eapply keeps_iff; [|apply (RemoveTransactions_keeps (expired now m) m P)]. cbn.
  intros id e (p & e' & Hp & He & ->)%content_Some. assert (entry m id = Some e') as Hen by (unfold entry; by rewrite Hp).
  unfold expired. rewrite list_elem_of_fmap. setoid_rewrite list_elem_of_filter. cbn. split.
  - intros Hn. apply Z.nlt_ge. intros Hlt. apply Hn. exists (id, e'). split; [done|]. split; [done|].
    by apply elem_of_entries.
  - intros Hle ([id' x] & -> & Hlt & Hin%elem_of_entries). cbn in *. simplify_eq. lia.
Qed.

(** The empty pool, whatever entries are left unreferenced. *)
Lemma empty_ok cfg h : pool_ok (MkMempool cfg h ∅ ∅ [] 0) ∧ ∀ id, content (MkMempool cfg h ∅ ∅ [] 0) id = None.
Proof.
  assert (∀ id, content (MkMempool cfg h ∅ ∅ [] 0) id = None) as Hn
    by (intros id; unfold content, entry; cbn; by rewrite lookup_empty).
  split; [split; cbn|done].
  - split; [constructor|]. intros i p. cbn. by rewrite lookup_nil.
  - by rewrite map_to_list_empty.
  - intros id p. by rewrite lookup_empty.
  - intros ki id. rewrite lookup_empty. setoid_rewrite Hn. naive_solver.
  - done.
Qed.

Lemma Clear_keeps m : pool_ok m → keeps (λ _ _, False) m (Clear m).
Proof.
  intros P. destruct (empty_ok (config m) (heap m)) as [P' Hn]. split_and!; [done|done|].
  intros id e. unfold Clear. rewrite Hn. naive_solver.
Qed.

End Removals.

(** ** Calls on the pair of chain and pool *)

Section Pair.
Context {S : Type} (inv : S → Prop) (same : S → S → Prop).

(** The chain is [c] up to what its lookups may change. *)
Definition still (c : S) (s : S * Mempool) : Prop := inv s.1 ∧ same c s.1.

Lemma on_chain_reads {A} (f : M S A) c m r (Q : A → S * Mempool → Prop) E :
  reads inv same f c r → safe r →
  (∀ a s, r = Ok a → still c s → s.2 = m → Q a s) → (∀ e s, r = Err e → still c s → s.2 = m → E e s) →
  triple (λ s, s = (c, m)) (on_chain f) Q E.
Proof.
  intros (c' & Ef & Hi & Hs) Hr HQ HE s ->. unfold on_chain. cbn [fst snd]. rewrite Ef.
  assert (still c (c', m)) by by split. destruct r as [a|e|]; [by apply HQ|by apply HE|done].
Qed.

Lemma on_chain_decides (f : M S unit) c m P (Q : unit → S * Mempool → Prop) E :
  decides inv same f c P →
  (∀ s, P → still c s → s.2 = m → Q tt s) → (∀ e s, still c s → s.2 = m → E e s) →
  triple (λ s, s = (c, m)) (on_chain f) Q E.
Proof.
  intros (r & Hr & Hs & HP) HQ HE. eapply on_chain_reads; [exact Hr|done| |eauto].
  intros [] s -> ??. apply HQ; [by apply HP|done|done].
Qed.

Lemma on_pool_triple {A} (f : M Mempool A) (R : S → Prop) m (Q : A → Mempool → Prop) E :
  triple (λ m0, m0 = m) f Q E →
  triple (λ s : S * Mempool, R s.1 ∧ s.2 = m) (on_pool f) (λ a s, R s.1 ∧ Q a s.2) (λ e s, R s.1 ∧ E e s.2).
Proof.
  intros Hf [c m'] [HR Em]. cbn in *. subst m'. unfold on_pool. specialize (Hf m eq_refl). cbn [fst snd].
  destruct (f m) as [[a|e|] m1]; [by split..|done].
Qed.

End Pair.

(** ** Admission *)

Section Admission.
Context `{HC : Crypto} `{HO : MapOrder} `{!MapOrderLaws HO}.
Context {S : Type} (inv : S → Prop) (same : S → S → Prop) `{!PreOrder same}.
Context {isSpent : bytes → M S bool} {isCanonical : bytes → bytes → M S bool}.
Context {spent : S → bytes → bool} {canonical : S → bytes → bytes → bool}.
Context `{!LedgerSource inv same isSpent isCanonical spent canonical}.

(** What an accepted payload is: a transaction the pool has already, or a
    valid one that joins it. *)
Definition added (now : Z) (tx : Transaction) (data : bytes) (c : S) (m m' : Mempool) : Prop :=
  ∃ ptx id, DeserializeTx data = Ok ptx ∧ TxID ptx = Ok id ∧ IsCoinbase ptx = false ∧
    if decide (content m id = None) then
      valid_tx (spent c) (canonical c) ptx ∧ (∀ ki, ki ∈ key_images ptx → txByImage m !! ki = None) ∧
      admitted id (new_entry ptx id data (Fee tx `div` Z.of_nat (length data)) now) m m'
    else m' = m.

Lemma HasKeyImage_none m kis :
  existsb (HasKeyImage m) kis = false → ∀ ki, ki ∈ kis → txByImage m !! ki = None.
Proof.
  intros E ki Hk. rewrite <- not_true_iff_false, existsb_exists in E.
  destruct (txByImage m !! ki) as [id|] eqn:Ei; [|done]. exfalso. apply E. exists ki.
  split; [by apply list_elem_of_In|]. unfold HasKeyImage. rewrite Ei. by apply bool_decide_eq_true.
Qed.

Lemma AddTransaction_triple now tx data c m :
  inv c → pool_ok m →
  triple (λ s, s = (c, m)) (AddTransaction isSpent isCanonical now tx data)
    (λ _ s, still inv same c s ∧ added now tx data c m s.2)
    (λ _ s, still inv same c s ∧ pool_ok s.2 ∧ subpool m s.2).
Proof.
  intros Hi P. assert (still inv same c (c, m)) as Hc by by split.
  unfold AddTransaction. eapply triple_bind with (R := λ ptx s, s = (c, m) ∧ DeserializeTx data = Ok ptx).
  { apply triple_lift; [apply safe_wrap, safe_DeserializeTx|by intros ptx s ?%wrap_Ok ->|intros e s _ ->; by split_and!]. }
  intros ptx. eapply triple_bind with (R := λ _ s, s = (c, m) ∧ DeserializeTx data = Ok ptx ∧ IsCoinbase ptx = false).
  { apply triple_check; [by intros s ? [-> ?]|]. intros s _ [-> _]. by split_and!. }
  intros []. eapply triple_bind with
    (R := λ id s, s = (c, m) ∧ DeserializeTx data = Ok ptx ∧ IsCoinbase ptx = false ∧ TxID ptx = Ok id ∧ wf_tx ptx).
  { intros s (-> & Hp & Hcb). pose proof (DeserializeTx_consumed _ _ Hp) as (Hwf & Hlim & Hd).
    rewrite (TxID_encode ptx Hwf (tx_in_limits_rings _ Hlim)). cbn. by split_and!. }
  intros id. apply triple_get. intros s0 (-> & Hp & Hcb & Hid & Hwf). cbn [snd]. unfold HasTransaction.
  case_bool_decide as Hin.
  { apply triple_ret. intros s ->. split; [done|]. exists ptx, id. split_and!; [done..|]. rewrite decide_False; [done|].
    rewrite (content_None _ _ P). by apply not_eq_None_Some. }
  rewrite <- not_eq_None_Some in Hin. apply dec_stable in Hin.
  eapply triple_bind with (R := λ _ s, s = (c, m) ∧ ∀ ki, ki ∈ key_images ptx → txByImage m !! ki = None).
  { apply triple_check; [intros s E ->; split; [done|by apply HasKeyImage_none]|intros s _ ->; by split_and!]. }
  intros []. eapply triple_bind with (R := λ _ s, (valid_tx (spent c) (canonical c) ptx ∧
    (∀ ki, ki ∈ key_images ptx → txByImage m !! ki = None) ∧ inv s.1 ∧ same c s.1) ∧ s.2 = m).
  { intros s [-> Hk].
    refine (on_chain_decides inv same _ c m _ (λ _ s, (_ ∧ _ ∧ _ ∧ _) ∧ _) _ (decides_wrap inv same _ _ c _
      (ValidateTransaction_decides ptx c Hwf Hi)) _ _ (c, m) eq_refl).
    - intros s Hv [] Hm. by split_and!.
    - intros _ s [? ?] ->. by split_and!. }
  intros []. intros s [(Hv & Hk & Hst) Hm].
  pose proof (on_pool_triple _ (λ c', inv c' ∧ same c c') m _ _ (admit_tx_triple m ptx id data
    (Fee tx `div` Z.of_nat (length data)) now P Hin (good_new_entry _ _ _ _ _ Hp Hid Hcb) Hk) s (conj Hst Hm)) as Ht.
  cbn zeta. destruct (on_pool _ s) as [[u|e|] s']; [|done|done]. destruct Ht as [? ?]. split; [done|].
  exists ptx, id. split_and!; [done..|]. rewrite decide_True by by apply content_None. by split_and!.
Qed.

(** With room left, admission is exactly validity, an affordable fee rate and
    no conflict; nothing is evicted. *)
Lemma admit_tx_room m tx id data rate now :
  MinFeeRate (config m) <= rate → Z.of_nat (size (txByID m)) < MaxSize (config m) →
  totalSize m + Z.of_nat (length data) <= MaxSizeBytes (config m) →
  admit_tx tx id data rate now m = (Ok tt, insert_entry tx id data rate now m).
Proof.
  intros Hr Hs Ht. unfold admit_tx, mbind, M_bind, get, modify, checkM, lift, check.
  rewrite (proj2 (Z.ltb_ge _ _)), (proj2 (Z.leb_gt _ _)) by lia. cbn [mret M_ret].
  assert (∀ fuel, make_room fuel rate (Z.of_nat (length data)) m = (true, m)) as ->; [|done].
  intros [|fuel]; [done|]. cbn [make_room]. by rewrite (proj2 (Z.ltb_ge _ _)) by lia.
Qed.

Lemma AddTransaction_room now tx data c m ptx id :
  inv c → pool_ok m → DeserializeTx data = Ok ptx → TxID ptx = Ok id → IsCoinbase ptx = false →
  content m id = None → (∀ ki, ki ∈ key_images ptx → txByImage m !! ki = None) →
  valid_tx (spent c) (canonical c) ptx →
  let rate := Fee tx `div` Z.of_nat (length data) in
  MinFeeRate (config m) <= rate → Z.of_nat (size (txByID m)) < MaxSize (config m) →
  totalSize m + Z.of_nat (length data) <= MaxSizeBytes (config m) →
  ∃ c', AddTransaction isSpent isCanonical now tx data (c, m) = (Ok tt, (c', insert_entry ptx id data rate now m)) ∧
        inv c' ∧ same c c'.
Proof.
  intros Hi P Hp Hid Hcb Hn Hk Hv rate Hr Hs Ht. pose proof (DeserializeTx_consumed _ _ Hp) as (Hwf & _).
  destruct (decides_complete inv same _ _ _ (decides_wrap inv same "validation failed" _ c _
    (ValidateTransaction_decides ptx c Hwf Hi)) Hv) as (c' & Ec & Hi' & Hs').
  exists c'. split; [|done]. unfold AddTransaction. rewrite Hp. unfold mbind, M_bind, lift, wrap, checkM, check, get.
  rewrite Hcb, Hid. unfold lift. cbn [snd]. unfold HasTransaction. apply (content_None _ _ P) in Hn. rewrite Hn.
  rewrite bool_decide_eq_false_2 by (by intros [? ?]).
  destruct (existsb _ _) eqn:Ex.
  { apply existsb_exists in Ex as (ki & Hin%list_elem_of_In & Hh). unfold HasKeyImage in Hh.
    rewrite (Hk ki Hin) in Hh. apply bool_decide_eq_true in Hh as [? ?]. done. }
  cbn [lift]. unfold on_chain. cbn [fst snd]. rewrite Ec. unfold on_pool. cbn [fst snd].
  change (Fee tx `div` Z.of_nat (length data)) with rate. by rewrite (admit_tx_room m ptx id data rate now).
Qed.

(** ** Lost blocks *)

(** May the transaction of a lost block return? *)
Definition readmits (c : S) (m : Mempool) (tx : Transaction) : Prop :=
  IsCoinbase tx = false ∧ content m (sha3_256 (encode tx)) = None ∧
  Forall (λ ki, txByImage m !! ki = None ∧ spent c ki = false) (key_images tx).

#[global] Instance readmits_dec c m tx : Decision (readmits c m tx).
Proof. unfold readmits. apply _. Defined.

(** The pool after one transaction of a lost block. *)
Definition requeued (now : Z) (c : S) (tx : Transaction) (m m' : Mempool) : Prop :=
  pool_ok m' ∧
  if decide (readmits c m tx) then
    ∃ data, extended (sha3_256 (encode tx))
              (new_entry tx (sha3_256 (encode tx)) data (Fee tx `div` Z.of_nat (length data)) now) m m'
  else m' = m.

(** A map of serialized transactions by id. *)
Definition data_map_ok (txDataMap : gmap bytes bytes) : Prop :=
  map_Forall (λ id data, sha3_256 data = id ∧ data ≠ []) txDataMap.

Lemma conflicts_triple id kis c m :
  inv c → txByID m !! id = None → pool_ok m →
  triple (λ s, still inv same c s ∧ s.2 = m) (conflicts isSpent id kis)
    (λ bad s, (still inv same c s ∧ s.2 = m) ∧
       (bad = false ↔ Forall (λ ki, txByImage m !! ki = None ∧ spent c ki = false) kis)) (λ _ _, False).
Proof.
  intros Hi Hn P. induction kis as [|ki kis IH]; cbn [conflicts].
  { by apply triple_ret. }
  apply triple_get. intros s0 [Hst Hm]. rewrite Hm.
  assert (match txByImage m !! ki with Some id' => bool_decide (id' ≠ id) | None => false end
          = bool_decide (is_Some (txByImage m !! ki))) as ->.
  { destruct (txByImage m !! ki) as [id'|] eqn:E; [|done]. apply bool_decide_ext.
    apply (po_images _ P) in E as (e & He & _). split; [eauto|]. intros _ ->.
    by rewrite (proj2 (content_None _ _ P) Hn) in He. }
  case_bool_decide as Hk.
  { apply triple_ret. intros s ->. split; [done|]. split; [done|]. intros Hall.
    apply Forall_cons in Hall as [[E _] _]. rewrite E in Hk. by destruct Hk. }
  rewrite <- not_eq_None_Some in Hk. apply dec_stable in Hk.
  destruct s0 as [c0 m0]. cbn in Hm. subst m0. destruct Hst as [Hi0 Hs0]. cbn in Hi0, Hs0.
  eapply triple_bind with (R := λ b s, (still inv same c s ∧ s.2 = m) ∧ b = spent c ki).
  { eapply on_chain_reads; [by apply ledger_spent|done| |done]. intros b s [= <-] [? ?] ?. split.
    - split; [split; [done|by etrans]|done].
    - by apply ledger_spent_same. }
  intros b s [Hs ->]. destruct (spent c ki) eqn:Esp.
  - split; [done|]. split; [done|]. intros [[_ ?] _]%Forall_cons. congruence.
  - specialize (IH s Hs). destruct (conflicts isSpent id kis s) as [[bad|e|] s']; [|done|done].
    destruct IH as [? IH]. split; [done|]. rewrite IH, Forall_cons. tauto.
Qed.

Lemma encode_nonempty tx : encode tx ≠ [].
Proof. done. Qed.

(** The entry of a lost transaction that returns. *)
Lemma requeue_insert now tx data c m :
  pool_ok m → wf_tx tx → rings_match tx → readmits c m tx → sha3_256 data = sha3_256 (encode tx) →
  requeued now c tx m (insert_entry tx (sha3_256 (encode tx)) data (Fee tx `div` Z.of_nat (length data)) now m).
Proof.
  intros P Hwf Hr Hre Hd. pose proof Hre as (Hcb & Hn & Hk). rewrite Forall_forall in Hk.
  destruct (insert_entry_spec m tx (sha3_256 (encode tx)) data (Fee tx `div` Z.of_nat (length data)) now P)
    as (P' & Hx & _).
  - by apply content_None.
  - split_and!; [done|by apply TxID_encode|done..].
  - intros ki Hki. by apply Hk.
  - split; [done|]. rewrite decide_True by done. eauto.
Qed.

Lemma disconnect_tx_triple now txDataMap tx c m :
  inv c → pool_ok m → wf_tx tx → rings_match tx → data_map_ok txDataMap →
  triple (λ s, still inv same c s ∧ s.2 = m) (disconnect_tx isSpent now txDataMap tx)
    (λ _ s, still inv same c s ∧ requeued now c tx m s.2) (λ _ _, False).
Proof.
  intros Hi P Hwf Hr Hmap. assert (¬ readmits c m tx → requeued now c tx m m) as Hno
    by (intros Hre; split; [done|]; by rewrite decide_False by done).
  unfold disconnect_tx. destruct (IsCoinbase tx) eqn:Hcb.
  { apply triple_ret. intros s [? ->]. split; [done|]. apply Hno. intros [? _]. congruence. }
  rewrite (TxID_encode tx Hwf Hr). set (id := sha3_256 (encode tx)).
  eapply triple_bind with (R := λ id' s, (still inv same c s ∧ s.2 = m) ∧ id' = id); [by apply triple_lift; [done|intros ?? [= <-]|]|].
  intros id'. apply triple_get. intros s0 [[Hst Hm] ->]. rewrite Hm. unfold HasTransaction.
  case_bool_decide as Hin.
  { apply triple_ret. intros s ->. split; [done|]. rewrite Hm. apply Hno. intros (_ & Hn & _).
    apply (content_None _ _ P) in Hn. unfold id in Hin. rewrite Hn in Hin. by destruct Hin. }
  rewrite <- not_eq_None_Some in Hin. apply dec_stable in Hin.
  eapply triple_bind with (R := λ data s, (still inv same c s ∧ s.2 = m) ∧ sha3_256 data = id ∧ data ≠ []).
  { intros s ->. destruct (txDataMap !! id) as [d|] eqn:Ed.
    - split; [done|]. by apply (Hmap id d).
    - rewrite (Serialize_encode tx Hwf Hr). split; [done|]. split; [done|]. apply encode_nonempty. }
  intros data. eapply triple_bind with (R := λ bad s, ((still inv same c s ∧ s.2 = m) ∧
    (bad = false ↔ Forall (λ ki, txByImage m !! ki = None ∧ spent c ki = false) (key_images tx))) ∧ sha3_256 data = id ∧ data ≠ []).
  { intros s [Hs Hd]. pose proof (conflicts_triple id (key_images tx) c m Hi Hin P s Hs) as Ht.
    by destruct (conflicts isSpent id (key_images tx) s) as [[bad|e|] s']. }
  intros bad s ([[Hs Hsm] Hbad] & Hd & Hne). apply (content_None _ _ P) in Hin. destruct bad.
  { split; [done|]. rewrite Hsm. apply Hno. intros (_ & _ & ?%Hbad). done. }
  rewrite decide_False by done. cbn. split; [done|]. rewrite Hsm. apply requeue_insert; [done..| |done].
  split_and!; [done|done|by apply Hbad].
Qed.

(** What the loss of the transactions [txs] does to the pool: nothing leaves;
    what joins is among them and unspent; and each of them is in the pool
    unless it spends a key image that is spent on the chain or used by
    another transaction of the pool. *)
Record regained (c : S) (txs : list Transaction) (m m' : Mempool) : Prop := {
  rg_ok : pool_ok m';
  rg_kept : subpool m' m;
  rg_new : ∀ id e, content m' id = Some e → content m id = Some e ∨
             ETx e ∈ txs ∧ Forall (λ ki, spent c ki = false) (key_images (ETx e));
  rg_back : Forall (λ tx, IsCoinbase tx = true ∨ is_Some (content m' (sha3_256 (encode tx))) ∨
             Exists (λ ki, spent c ki = true ∨ is_Some (txByImage m' !! ki)) (key_images tx)) txs;
}.

Lemma image_grows m m' ki : pool_ok m → pool_ok m' → subpool m' m → is_Some (txByImage m !! ki) → is_Some (txByImage m' !! ki).
Proof.
  intros P P' Hs [id (e & He & Hk)%(po_images _ P)]. exists id. apply (po_images _ P'). exists e.
  split; [by apply Hs|done].
Qed.

Lemma requeued_regained now c tx m m' : pool_ok m → requeued now c tx m m' → regained c [tx] m m'.
Proof.
  intros P [P' Hre]. case_decide as Hd.
  - destruct Hre as (data & Ec & Hx). pose proof Hd as (Hcb & Hn & Hk). split; [done| | |].
    + split; [done|]. intros id e He. rewrite Hx. rewrite decide_False; [done|]. intros ->. congruence.
    + intros id e. rewrite Hx. case_decide; [|by left]. intros [= <-]. right. split; [by left|].
      by eapply Forall_impl; [exact Hk|intros ? []].
    + apply Forall_singleton. right; left. rewrite Hx, decide_True by done. eauto.
  - subst m'. split; [done|done|by left|]. apply Forall_singleton. destruct (IsCoinbase tx) eqn:Hcb; [by left|right].
    destruct (content m (sha3_256 (encode tx))) as [e|] eqn:En; [left; eauto|right].
    assert (¬ Forall (λ ki, txByImage m !! ki = None ∧ spent c ki = false) (key_images tx)) as Hf by (intros ?; by apply Hd).
    apply not_Forall_Exists in Hf; [|apply _]. eapply Exists_impl; [exact Hf|]. cbn. intros ki Hki.
    destruct (spent c ki); [by left|right]. apply not_eq_None_Some. naive_solver.
Qed.

Lemma regained_trans c l k m m1 m2 :
  pool_ok m → regained c l m m1 → regained c k m1 m2 → regained c (l ++ k) m m2.
Proof.
  intros P [P1 K1 N1 B1] [P2 K2 N2 B2]. split; [done|by etrans| |].
  - intros id e He. destruct (N2 _ _ He) as [He1|[Hin Hu]]; [destruct (N1 _ _ He1) as [?|[Hin Hu]]|].
    + by left.
    + right. split; [set_solver|done].
    + right. split; [set_solver|done].
  - apply Forall_app. split; [|done]. eapply Forall_impl; [exact B1|]. cbn. intros tx [?|[[e He]|Hx]]; [by left|right; left|right; right].
    + exists e. by apply K2.
    + eapply Exists_impl; [exact Hx|]. cbn. intros ki [?|?]; [by left|right]. by eapply (image_grows m1).
Qed.

Lemma regained_nil c m : pool_ok m → regained c [] m m.
Proof. intros P. split; [done|done|by left|constructor]. Qed.

Lemma OnBlockDisconnected_triple now b txDataMap c m :
  inv c → pool_ok m → Forall wf_tx (Transactions b) → Forall rings_match (Transactions b) → data_map_ok txDataMap →
  triple (λ s, still inv same c s ∧ s.2 = m) (OnBlockDisconnected isSpent now b txDataMap)
    (λ _ s, still inv same c s ∧ regained c (Transactions b) m s.2) (λ _ _, False).
Proof.
  intros Hi P Hwf Hr Hmap. unfold OnBlockDisconnected. revert m P Hwf.
  induction Hr as [|tx txs Htx _ IH]; intros m P Hwf; cbn [for_each].
  { apply triple_ret. intros s [? ->]. split; [done|]. by apply regained_nil. }
  apply Forall_cons in Hwf as [Hw Hwf].
  eapply triple_bind; [by apply disconnect_tx_triple|]. cbn. intros [] [c1 m1] [Hst Hre]. cbn in Hre.
  pose proof (requeued_regained now c tx m m1 P Hre) as Hg.
  pose proof (IH m1 (rg_ok _ _ _ _ Hg) Hwf (c1, m1) (conj Hst eq_refl)) as Ht.
  destruct (for_each _ txs (c1, m1)) as [[u|e|] s']; [|done|done]. destruct Ht as [? Ht]. split; [done|].
  by apply (regained_trans c [tx] txs m m1).
Qed.

End Admission.
