(* ===== verification/MempoolSelect.v ===== *)
(** * The choice of transactions for a block

    The selection loop over the sorted entries: its bounds, its order, and
    that nothing is left out that would still fit. *)

From S2P Require Import Prelude Bytes Crypto Transaction TxCodec Block ExchangeSort Hoare Reads Memo Emission Validation Validity Storage StorageFacts Mempool MempoolQueue MempoolInv MempoolOps MempoolChain.

Definition sizes (l : list MempoolEntry) : Z := sumZ (ESize <$> l).

(** Higher fee rates first. *)
Definition pays_more (x y : MempoolEntry) : Prop := EFeeRate y <= EFeeRate x.

#[global] Instance pays_more_trans : Transitive pays_more.
Proof. intros x y z. unfold pays_more. lia. Qed.

Lemma Forall_sublist {A} (P : A → Prop) l k : Forall P k → l `sublist_of` k → Forall P l.
Proof. intros Hk Hl. revert Hk. induction Hl; rewrite ?Forall_cons; intuition. Qed.

(** ** The loop *)

Lemma select_sublist maxSize maxCount count total l : select maxSize maxCount count total l `sublist_of` l.
Proof.
  revert count total. induction l as [|e l IH]; intros count total; cbn [select]; [constructor|].
  destruct (maxCount <=? count); [apply sublist_nil_l|]. destruct (maxSize <? _); by constructor.
Qed.

(** [count] and [total] bound what is still taken. *)
Lemma select_bounds maxSize maxCount count total l :
  0 <= count <= maxCount → total <= maxSize →
  count + Z.of_nat (length (select maxSize maxCount count total l)) <= maxCount ∧
  total + sizes (select maxSize maxCount count total l) <= maxSize.
Proof.
  revert count total. induction l as [|e l IH]; intros count total Hc Ht; cbn [select]; [cbn; lia|].
  destruct (Z.leb_spec maxCount count); [cbn; lia|].
  destruct (Z.ltb_spec maxSize (total + ESize e)); [by apply IH|].
  destruct (IH (count + 1) (total + ESize e)) as [IH1 IH2]; [lia|lia|]. unfold sizes in *. cbn [length fmap list_fmap sumZ foldr] in *.
  rewrite Nat2Z.inj_succ. cbn in *. lia.
Qed.

(** An entry that is left out came when the block was full, or does not fit
    beside those chosen. *)
Lemma select_greedy maxSize maxCount count total l e :
  Forall (λ e, 0 <= ESize e) l → count <= maxCount → e ∈ l →
  e ∈ select maxSize maxCount count total l ∨
  count + Z.of_nat (length (select maxSize maxCount count total l)) = maxCount ∨
  maxSize < total + sizes (select maxSize maxCount count total l) + ESize e.
Proof.
  assert (∀ l, Forall (λ e, 0 <= ESize e) l → 0 <= sizes l) as Hpos.
  { induction 1; unfold sizes in *; cbn in *; lia. }
  intros Hl. revert count total. induction Hl as [|x l Hx Hl IH]; intros count total Hc Hin; [by apply not_elem_of_nil in Hin|].
  cbn [select]. destruct (Z.leb_spec maxCount count); [right; left; cbn; lia|].
  destruct (Z.ltb_spec maxSize (total + ESize x)).
  - apply elem_of_cons in Hin as [->|Hin]; [|by apply IH]. right; right.
    assert (0 <= sizes (select maxSize maxCount count total l)); [|lia].
    apply Hpos. eapply Forall_sublist; [exact Hl|apply select_sublist].
  - apply elem_of_cons in Hin as [->|Hin]; [left; by left|].
    destruct (IH (count + 1) (total + ESize x) ltac:(lia) Hin) as [?|[?|?]]; [left; by right|right; left|right; right].
    + cbn [length]. lia.
    + unfold sizes in *. cbn in *. lia.
Qed.

Lemma StronglySorted_sublist {A} (R : relation A) l k : StronglySorted R k → l `sublist_of` k → StronglySorted R l.
Proof.
  intros Hk Hl. revert Hk. induction Hl as [|x l k Hl IH|x l k Hl IH]; intros Hk; [done| |].
  - apply StronglySorted_inv in Hk as [Hk Hf]. constructor; [by apply IH|]. by eapply Forall_sublist.
  - apply StronglySorted_inv in Hk as [Hk _]. by apply IH.
Qed.

Section Select.
Context `{HC : Crypto} `{HO : MapOrder} `{!MapOrderLaws HO}.

Lemma GetAllEntries_perm m : GetAllEntries m ≡ₚ (entries m).*2.
Proof. apply exchange_sort_perm. Qed.

Lemma GetAllEntries_sorted m : StronglySorted pays_more (GetAllEntries m).
Proof.
  apply exchange_sort_sorted; unfold by_fee_rate, pays_more; [apply _|..]; intros; simpl_bools; lia.
Qed.

(** The pool's entries and their ids. *)
Lemma entries_ids m : pool_ok m → ETxID <$> (entries m).*2 = (entries m).*1.
Proof.
  intros P. assert (Forall (λ x, ETxID x.2 = x.1) (entries m)) as Hf.
  { apply Forall_forall. intros [id e] He%elem_of_entries. apply bind_Some in He as (p & Hp & He).
    destruct (po_entry _ P _ _ Hp) as (e' & He' & Hg & _). by simplify_eq. }
  induction Hf as [|x l Hx _ IH]; [done|]. cbn. by rewrite Hx, IH.
Qed.

Lemma GetAllEntries_NoDup m : pool_ok m → NoDup (ETxID <$> GetAllEntries m).
Proof. intros P. rewrite GetAllEntries_perm, entries_ids by done. by apply entries_NoDup. Qed.

Lemma elem_of_GetAllEntries m e :
  pool_ok m → e ∈ GetAllEntries m ↔ entry m (ETxID e) = Some e.
Proof.
  intros P. rewrite GetAllEntries_perm, list_elem_of_fmap. split.
  - intros ([id x] & -> & Hx). cbn. pose proof Hx as He%elem_of_entries. pose proof He as (p & Hp & Hh)%bind_Some.
    destruct (po_entry _ P _ _ Hp) as (e' & He' & <- & _). by simplify_eq.
  - intros He. exists (ETxID e, e). split; [done|]. by apply elem_of_entries.
Qed.

Lemma entry_content m id e : entry m id = Some e → content m id = Some (with_index 0 e).
Proof. intros E. unfold content. by rewrite E. Qed.

(** No key image occurs in two transactions of a selection. *)
Lemma selection_key_images m l :
  pool_ok m → (∀ e, e ∈ l → entry m (ETxID e) = Some e ∧ NoDup (key_images (ETx e))) →
  NoDup (ETxID <$> l) → NoDup (concat (key_images <$> (ETx <$> l))).
Proof.
  intros P. induction l as [|e l IH]; intros Hl Hnd; cbn; [constructor|].
  apply NoDup_cons in Hnd as [Hni Hnd]. apply NoDup_app. split_and!.
  - by apply Hl; left.
  - intros ki Hki. rewrite elem_of_concat. intros (kis & Hkis & Hin).
    apply list_elem_of_fmap in Hin as (tx & -> & (e' & -> & He')%list_elem_of_fmap).
    destruct (Hl e ltac:(by left)) as [Ee _], (Hl e' ltac:(by right)) as [Ee' _].
    pose proof (content_disjoint m _ _ _ _ ki P (entry_content _ _ _ Ee) (entry_content _ _ _ Ee') Hki Hkis) as E.
    apply Hni. rewrite E. by apply list_elem_of_fmap_2.
  - apply IH; [|done]. intros e' He'. apply Hl. by right.
Qed.

End Select.
