(* ===== verification/MempoolSpec.v ===== *)
(** * What the mempool promises

    Admission, confirmation and loss of blocks, and the choice of transactions
    for a block, stated on the map from transaction ids to entries that the
    mempool represents; a sample pool. *)

From S2P Require Import Prelude Bytes Crypto Instances Transaction TxCodec Block ExchangeSort Hoare Reads Difficulty Memo Emission Validation Samples Validity Storage StorageFacts Mempool MempoolQueue MempoolInv MempoolOps MempoolChain MempoolSelect.

(** C13. Admission.  On a consistent mempool and any chain that answers its
    lookups, [AddTransaction] never panics and leaves the mempool consistent:
    the two indexes, the queue and the byte count agree, and no key image is
    used twice.  If it succeeds, the payload is a canonical encoding of a
    transfer; either the pool already held it and nothing changed, or it is
    valid on the chain and pays the minimal rate, and its entry has joined at
    the cost of evictions only.  A pool within [MaxSize] and [MaxSizeBytes]
    stays within them, provided the payload alone is not larger than
    [MaxSizeBytes] (a larger one can still get in, by evicting all others).
    If the call fails, nothing joined. *)
Theorem mempool_admission `{HC : Crypto} `{HO : MapOrder} `{!MapOrderLaws HO} {S} (inv : S → Prop)
    (same : S → S → Prop) `{!PreOrder same} isSpent isCanonical spent canonical
    `{!LedgerSource inv same isSpent isCanonical spent canonical} now tx data c m r c' m' :
  inv c → pool_ok m → AddTransaction isSpent isCanonical now tx data (c, m) = (r, (c', m')) →
  inv c' ∧ same c c' ∧ r ≠ Panic ∧ pool_ok m' ∧
  (r = Ok tt → added (spent := spent) (canonical := canonical) now tx data c m m') ∧
  (r ≠ Ok tt → subpool m m').
Proof.
  intros Hi P E. pose proof (triple_elim _ _ _ _ _ _ _ (AddTransaction_triple inv same now tx data c m Hi P) eq_refl E) as Ht.
  destruct r as [[]|e|]; [| |done].
  - destruct Ht as [[? ?] Ha]. split_and!; [done..| |done|done].
    destruct Ha as (ptx & id & _ & _ & _ & Ha). cbn in Ha. case_decide; [apply Ha|by subst].
  - destruct Ht as ([? ?] & ? & ?). by split_and!.
Qed.

(** C35. Admission is complete: a canonical payload of a valid transfer that
    the pool does not hold, that conflicts with nothing in it and pays the
    minimal rate is accepted when there is room, and exactly its entry is
    added. *)
Theorem mempool_accepts_valid `{HC : Crypto} `{HO : MapOrder} `{!MapOrderLaws HO} {S} (inv : S → Prop)
    (same : S → S → Prop) `{!PreOrder same} isSpent isCanonical spent canonical
    `{!LedgerSource inv same isSpent isCanonical spent canonical} now tx data c m ptx id :
  inv c → pool_ok m → DeserializeTx data = Ok ptx → TxID ptx = Ok id → IsCoinbase ptx = false →
  HasTransaction m id = false → Forall (λ ki, HasKeyImage m ki = false) (key_images ptx) →
  valid_tx (spent c) (canonical c) ptx → MinFeeRate (config m) <= Fee tx `div` Z.of_nat (length data) →
  MempoolSize m < MaxSize (config m) → SizeBytes m + Z.of_nat (length data) <= MaxSizeBytes (config m) →
  ∃ c' m', AddTransaction isSpent isCanonical now tx data (c, m) = (Ok tt, (c', m')) ∧ inv c' ∧ same c c' ∧ pool_ok m' ∧
    extended id (new_entry ptx id data (Fee tx `div` Z.of_nat (length data)) now) m m' ∧
    SizeBytes m' = SizeBytes m + Z.of_nat (length data).
Proof.
  intros Hi P Hp Hid Hcb Hh Hk Hv Hr Hs Ht.
  assert (txByID m !! id = None) as Hn.
  { unfold HasTransaction in Hh. apply bool_decide_eq_false in Hh. destruct (txByID m !! id); [|done]. destruct Hh; eauto. }
  assert (∀ ki, ki ∈ key_images ptx → txByImage m !! ki = None) as Hk'.
  { rewrite Forall_forall in Hk. intros ki Hki. specialize (Hk ki Hki). apply bool_decide_eq_false in Hk.
    destruct (txByImage m !! ki); [|done]. destruct Hk; eauto. }
  destruct (AddTransaction_room inv same now tx data c m ptx id Hi P Hp Hid Hcb) as (c' & E & ? & ?); [|done..|].
  - by apply content_None.
  - destruct (insert_entry_spec m ptx id data (Fee tx `div` Z.of_nat (length data)) now P Hn
      (good_new_entry _ _ _ _ _ Hp Hid Hcb) Hk') as (? & ? & ?). eauto 10.
Qed.

(** C15. Confirmation and loss.  When a block is connected, exactly the entries
    go that it contains or that share a key image with one of its
    transactions.  When a block is disconnected, nothing goes; what comes is a
    transaction of the block that is unspent on the chain, and every transfer of
    the block is in the pool afterwards unless one of its key images is spent
    on the chain or used by a pending transaction.  Neither ever fails. *)
Theorem mempool_follows_blocks `{HC : Crypto} `{HO : MapOrder} `{!MapOrderLaws HO} {S} (inv : S → Prop)
    (same : S → S → Prop) `{!PreOrder same} isSpent isCanonical spent canonical
    `{!LedgerSource inv same isSpent isCanonical spent canonical} now b txDataMap c m :
  inv c → pool_ok m → Forall wf_tx (Transactions b) → Forall rings_match (Transactions b) → data_map_ok txDataMap →
  (∃ m', OnBlockConnected b m = (Ok tt, m') ∧ pool_ok m' ∧
     ∀ id e, content m' id = Some e ↔ content m id = Some e ∧ Forall (λ tx, unaffected tx id e) (Transactions b)) ∧
  (∃ c' m', OnBlockDisconnected isSpent now b txDataMap (c, m) = (Ok tt, (c', m')) ∧ inv c' ∧ same c c' ∧
     regained (spent := spent) c (Transactions b) m m').
Proof.
  intros Hi P Hwf Hr Hmap. split.
  - destruct (OnBlockConnected_run b m Hwf Hr P) as (m' & E & P' & _ & Hc). eauto.
  - pose proof (OnBlockDisconnected_triple inv same now b txDataMap c m Hi P Hwf Hr Hmap (c, m)
      (conj (conj Hi (reflexivity c)) eq_refl)) as Ht.
    destruct (OnBlockDisconnected _ _ _ _ _) as [[[]|e|] [c' m']]; [|done|done]. destruct Ht as [[? ?] ?].
    exists c', m'. by split_and!.
Qed.

(** C36. The choice for a block.  [GetTransactionsForBlock] takes different
    entries of the pool, at most [maxCount] of them and at most [maxSize] bytes,
    highest fee rate first; an entry it leaves out would not have fitted beside
    the chosen ones, unless the count was reached.  No key image is used by two
    of the chosen transactions. *)
Theorem block_selection `{HC : Crypto} `{HO : MapOrder} `{!MapOrderLaws HO} m maxSize maxCount :
  pool_ok m → 0 <= maxSize → 0 <= maxCount →
  ∃ l, GetTransactionsForBlock m maxSize maxCount = ETx <$> l ∧
    StronglySorted pays_more l ∧ NoDup (ETxID <$> l) ∧ Forall (λ e, entry m (ETxID e) = Some e) l ∧
    Z.of_nat (length l) <= maxCount ∧ sizes l <= maxSize ∧
    (∀ id e, entry m id = Some e → e ∈ l ∨ Z.of_nat (length l) = maxCount ∨ maxSize < sizes l + ESize e) ∧
    (Forall (λ e, NoDup (key_images (ETx e))) l → NoDup (concat (key_images <$> GetTransactionsForBlock m maxSize maxCount))).
Proof.
  intros P Hs Hc. pose proof (select_sublist maxSize maxCount 0 0 (GetAllEntries m)) as Hsub.
  destruct (select_bounds maxSize maxCount 0 0 (GetAllEntries m)) as [Hb1 Hb2]; [lia|lia|].
  assert (Forall (λ e, entry m (ETxID e) = Some e) (GetAllEntries m)) as Hall
    by (apply Forall_forall; intros e; by apply elem_of_GetAllEntries).
  pose proof (Forall_sublist _ _ _ Hall Hsub) as Hl.
  assert (NoDup (ETxID <$> select maxSize maxCount 0 0 (GetAllEntries m))) as Hnd.
  { eapply sublist_NoDup; [by apply GetAllEntries_NoDup|]. by apply fmap_sublist. }
  eexists. split; [done|]. split_and!; [|done|done|lia|lia| |].
  - by eapply StronglySorted_sublist; [apply GetAllEntries_sorted|].
  - intros id e He. assert (ETxID e = id) as Eid.
    { apply bind_Some in He as (p & Hp & He). destruct (po_entry _ P _ _ Hp) as (e' & He' & <- & _). by simplify_eq. }
    apply (select_greedy maxSize maxCount 0 0 (GetAllEntries m) e); [|lia|apply elem_of_GetAllEntries; by rewrite ?Eid].
    eapply Forall_impl; [exact Hall|]. intros x (p & Hp & Hx)%bind_Some.
    destruct (po_entry _ P _ _ Hp) as (x' & Hx' & (_ & _ & _ & _ & _ & _ & Hsz & _)). simplify_eq. lia.
  - intros Hk. apply (selection_key_images m); [done| |done]. intros e He. rewrite Forall_forall in Hl, Hk. auto.
Qed.

(** ** A sample pool *)

#[local] Existing Instance toy_crypto.
#[local] Existing Instance toy_crypto_laws.

Definition sample_order : MapOrder := {| iterate := map_to_list |}.

Lemma sample_order_laws : MapOrderLaws sample_order.
Proof. by constructor. Qed.

#[local] Existing Instance sample_order.
#[local] Existing Instance sample_order_laws.

(** A free relay of at most two transactions. *)
Definition sample_config : MempoolConfig := MkMempoolConfig 2 100000 0 (24 * 3600 * 1000000000).

Definition sample_add (now : Z) (tx : Transaction) (m : Mempool) : result unit * (unit * Mempool) :=
  AddTransaction (λ _, mret false) (λ _ _, mret true) now tx (encode tx) (tt, m).

Definition pool_0 : Mempool := NewMempool sample_config.
Definition pool_1 : Mempool := (sample_add 100 (sample_transfer 300) pool_0).2.2.
Definition pool_2 : Mempool := (sample_add 200 (sample_transfer 301) pool_1).2.2.

Lemma sample_add_ok now tx m : pool_ok m → pool_ok (sample_add now tx m).2.2.
Proof.
  intros P. unfold sample_add.
  pose proof (AddTransaction_triple (λ _, True) (λ _ _, True) (PreOrder0 := unit_preorder)
    (LedgerSource0 := sample_ledger_source) now tx (encode tx) tt m I P (tt, m) eq_refl) as Ht.
  destruct (AddTransaction _ _ _ _ _ _) as [[u|e|] [[] m']]; cbn in *; [|apply Ht|done].
  destruct Ht as [_ (ptx & id & _ & _ & _ & Ha)]. case_decide; [apply Ha|by subst].
Qed.

Lemma pool_0_ok : pool_ok pool_0.
Proof. apply empty_ok. Qed.

Lemma pool_2_ok : pool_ok pool_2.
Proof. apply sample_add_ok, sample_add_ok, pool_0_ok. Qed.

(** The full pool refuses a transaction that pays no more than the oldest one. *)
Lemma mempool_admission_witness :
  (sample_add 300 (sample_transfer 302) pool_2).1 = Err (Errorf "mempool full") ∧
  subpool pool_2 (sample_add 300 (sample_transfer 302) pool_2).2.2.
Proof.
  assert ((sample_add 300 (sample_transfer 302) pool_2).1 = Err (Errorf "mempool full")) as E by (vm_compute; reflexivity).
  split; [exact E|]. revert E. generalize pool_2_ok. generalize pool_2 (sample_transfer 302). intros m tx Hm E.
  destruct (sample_add 300 tx m) as [r [c' m']] eqn:Er.
  apply (mempool_admission (λ _, True) (λ _ _, True) (PreOrder0 := unit_preorder) _ _ _ _
    (LedgerSource0 := sample_ledger_source) _ _ _ _ _ _ _ _ I Hm Er). cbn in E. by rewrite E.
Defined.

Lemma sample_transfer_valid ki :
  wf_tx (sample_transfer ki) →
  ValidateTransaction (λ _, mret false) (Some (λ _ _, mret true)) (sample_transfer ki) tt = (Ok tt, tt) →
  valid_tx (λ _, false) (λ _ _, true) (sample_transfer ki).
Proof.
  intros Hw E. eapply (decides_accepts (λ _ : unit, True) (λ _ _, True)); [|exact E].
  by apply (ValidateTransaction_decides (PreOrder0 := unit_preorder) (LedgerSource0 := sample_ledger_source)).
Qed.

Lemma mempool_accepts_valid_witness :
  ∃ c' m', sample_add 100 (sample_transfer 300) pool_0 = (Ok tt, (c', m')) ∧ SizeBytes m' = SizeBytes pool_0 + 2737.
Proof.
  destruct (mempool_accepts_valid (λ _, True) (λ _ _, True) (PreOrder0 := unit_preorder) (λ _, mret false) (λ _ _, mret true)
    _ _ (LedgerSource0 := sample_ledger_source) 100 (sample_transfer 300) (encode (sample_transfer 300)) tt pool_0
    (sample_transfer 300) (sha3_256 (encode (sample_transfer 300))) I pool_0_ok) as (c' & m' & E & _ & _ & _ & _ & Hs).
  1-4: vm_compute; reflexivity.
  1: vm_decide.
  1: apply sample_transfer_valid; [vm_decide|vm_compute; reflexivity].
  1-3: vm_decide.
  exists c', m'. split; [exact E|exact Hs].
Defined.

Lemma mempool_follows_blocks_witness :
  (∃ m', OnBlockConnected block_1 pool_2 = (Ok tt, m') ∧ MempoolSize m' = 1) ∧
  (∃ m', OnBlockDisconnected (λ _, mret false) 400 block_1 ∅ (tt, pool_0) = (Ok tt, (tt, m')) ∧ MempoolSize m' = 1).
Proof.
  assert (Forall wf_tx (Transactions block_1)) as Hw by vm_decide.
  assert (Forall rings_match (Transactions block_1)) as Hr by vm_decide.
  pose proof (λ m P, mempool_follows_blocks (λ _, True) (λ _ _, True) (PreOrder0 := unit_preorder) (λ _, mret false) (λ _ _, mret true)
    _ _ (LedgerSource0 := sample_ledger_source) 400 block_1 ∅ tt m I P Hw Hr (map_Forall_empty _)) as Hf.
  destruct (Hf pool_2 pool_2_ok) as [(m1 & E1 & _) _]. destruct (Hf pool_0 pool_0_ok) as [_ ([] & m2 & E2 & _)].
  split.
  - exists m1. split; [exact E1|]. change m1 with (snd (Ok tt, m1)). rewrite <- E1. vm_compute; reflexivity.
  - exists m2. split; [exact E2|]. change m2 with (snd (snd (Ok tt, (tt, m2)))). rewrite <- E2. vm_compute; reflexivity.
Defined.

Lemma block_selection_witness :
  ∃ l, GetTransactionsForBlock pool_2 3000 10 = ETx <$> l ∧ sizes l <= 3000 ∧ length (GetTransactionsForBlock pool_2 3000 10) = 1%nat.
Proof.
  destruct (block_selection pool_2 3000 10 pool_2_ok ltac:(lia) ltac:(lia)) as (l & E & _ & _ & _ & _ & Hs & _).
  exists l. split; [exact E|]. split; [exact Hs|]. vm_compute; reflexivity.
Defined.
