(* ===== verification/CoinSelect.v ===== *)
(** * Input selection ([wallet/coinselect.go])

    Outputs are selected as pointers: two outputs of the same amount are
    different choices, so the lists here are of addresses, with the fields
    read through them.  Random draws come from a source that may fail;
    [sort.Slice] leaves the order of equal elements open. *)

From Stdlib Require Import Sorting.Sorted.
From S2P Require Import Prelude ExchangeSort.

Definition pointer : Type := nat.

(** [rand.Int(rand.Reader, n)] *)
Class Entropy (R : Type) : Type := { rand_Int : nat → R → option nat * R }.

Class EntropyLaws {R} (E : Entropy R) : Prop := {
  rand_Int_range : ∀ n r j r', rand_Int n r = (Some j, r') → (j < n)%nat;
}.

Class SliceSort : Type := { sort_Slice : (pointer → pointer → bool) → list pointer → list pointer }.

Definition weak_order (less : pointer → pointer → bool) : Prop :=
  (∀ x y, less x y = true → less y x = false) ∧
  (∀ x y z, less y x = false → less z y = false → less z x = false).

Class SliceSortLaws (O : SliceSort) : Prop := {
  sort_Slice_perm : ∀ less l, sort_Slice less l ≡ₚ l;
  sort_Slice_sorted : ∀ less l, weak_order less → StronglySorted (λ x y, less y x = false) (sort_Slice less l);
}.

Definition ErrInsufficientFunds : error := Errorf "insufficient funds".
Definition ErrNoSpendableOutputs : error := Errorf "no spendable outputs".
Definition ErrInputLimitExceeded : error := Errorf "input limit exceeded".
Definition maxSelectedInputs : nat := 256.

Section CoinSelect.
Context {R : Type} `{HE : Entropy R} `{HS : SliceSort}.
Context (Amount : pointer → Z) (Spent : pointer → bool).

(** [total += out.Amount] over a list, in 64 bits. *)
Definition add_amounts (total : Z) (l : list pointer) : Z := foldl (λ t p, u64 (t + Amount p)) total l.

(** ** Random draws *)

Definition randIndex (n : nat) : M R (option nat) := λ r,
  if decide (n = 0%nat) then (Ok None, r)
  else let '(j, r') := rand_Int n r in (Ok j, r').

Definition swap {A} (i j : nat) (l : list A) : list A :=
  match l !! i, l !! j with
  | Some x, Some y => <[j := x]> (<[i := y]> l)
  | _, _ => l
  end.

(** From position [i] down to 1; a failed draw ends the shuffle. *)
Fixpoint shuffle_from (i : nat) (l : list pointer) : M R (list pointer) := λ r,
  match i with
  | O => (Ok l, r)
  | S i' =>
      match rand_Int (S i) r with
      | (Some j, r') => shuffle_from i' (swap i j l) r'
      | (None, r') => (Ok l, r')
      end
  end.

Definition RandomShuffle (l : list pointer) : M R (list pointer) :=
  if decide (length l <= 1)%nat then mret l else shuffle_from (length l - 1) l.

(** ** Exact matches *)

Definition pairs_with (target : Z) (a : pointer) (rest : list pointer) : list (pointer * pointer) :=
  (λ b, (a, b)) <$> filter (λ b, u64 (Amount a + Amount b) = target) rest.

Fixpoint exact_pairs (target : Z) (l : list pointer) : list (pointer * pointer) :=
  match l with
  | [] => []
  | a :: rest => pairs_with target a rest ++ exact_pairs target rest
  end.

(** A random element, the first one when the draw fails. *)
Definition pick {A} (l : list A) : M R (option A) :=
  j ← randIndex (length l);
  mret (match j with Some j => l !! j | None => head l end).

Definition findExactMatch (outputs : list pointer) (target : Z) : M R (option (list pointer)) :=
  let singles := filter (λ p, Amount p = target) outputs in
  if decide (singles = []) then
    let pairs := exact_pairs target outputs in
    if decide (pairs = []) then mret None
    else pick pairs ≫= λ p : option (pointer * pointer), mret ((λ '(a, b), [a; b]) <$> p)
  else pick singles ≫= λ p : option pointer, mret ((λ a, [a]) <$> p).

(** ** Greedy strategies *)

(** Outputs are taken in order until the target is reached. *)
Fixpoint take_until (target : Z) (maxInputs : nat) (selected : list pointer) (total : Z)
    (l : list pointer) : option (list pointer) :=
  match l with
  | [] => None
  | out :: l =>
      if decide (maxInputs <= length selected)%nat then None
      else
        let selected := selected ++ [out] in
        let total := u64 (total + Amount out) in
        if target <=? total then Some selected else take_until target maxInputs selected total l
  end.

Definition smaller (x y : pointer) : bool := negb (Amount x =? Amount y) && (Amount x <? Amount y).
Definition larger (x y : pointer) : bool := negb (Amount x =? Amount y) && (Amount y <? Amount x).

Definition selectSmallestFirstCapped (outputs : list pointer) (target : Z) (maxInputs : nat) : option (list pointer) :=
  if decide (maxInputs = 0%nat) then None
  else take_until target maxInputs [] 0 (sort_Slice smaller outputs).

Definition selectLargestFirstCapped (outputs : list pointer) (target : Z) (maxInputs : nat) : option (list pointer) :=
  if decide (maxInputs = 0%nat) then None
  else take_until target maxInputs [] 0 (sort_Slice larger outputs).

(** The first input that [small] can replace. *)
Fixpoint replace_first (target : Z) (small : pointer) (total : Z) (selected : list pointer)
    : option (list pointer * Z) :=
  match selected with
  | [] => None
  | large :: rest =>
      let newTotal := u64 (u64 (total - Amount large) + Amount small) in
      if (Amount large <=? Amount small) || (newTotal <? target)
      then (λ '(rest, t), (large :: rest, t)) <$> replace_first target small total rest
      else Some (small :: rest, newTotal)
  end.

Definition try_replace (target : Z) (s : list pointer * Z) (small : pointer) : list pointer * Z :=
  default s (replace_first target small s.2 s.1).

Definition selectMixed (outputs : list pointer) (target : Z) (maxInputs : nat) : option (list pointer) :=
  base ← selectLargestFirstCapped outputs target maxInputs;
  let total := add_amounts 0 base in
  let candidates := sort_Slice smaller (filter (λ p, p ∉ base) outputs) in
  let selected := sort_Slice larger base in
  Some (foldl (try_replace target) (selected, total) candidates).1.

(** ** Selection *)

Definition SelectInputs (available : list pointer) (targetAmount : Z) : M R (list pointer) :=
  if decide (available = []) then throw ErrNoSpendableOutputs
  else
    let spendable := filter (λ p, Spent p = false) available in
    let totalAvailable := add_amounts 0 spendable in
    if totalAvailable <? targetAmount then throw ErrInsufficientFunds
    else
      RandomShuffle spendable ≫= λ spendable : list pointer,
      findExactMatch spendable targetAmount ≫= λ exact : option (list pointer),
      match exact with
      | Some sel => mret sel
      | None =>
          match selectSmallestFirstCapped spendable targetAmount maxSelectedInputs with
          | Some sel => mret sel
          | None =>
              match selectMixed spendable targetAmount maxSelectedInputs with
              | Some sel => mret sel
              | None => throw ErrInputLimitExceeded
              end
          end
      end.

Definition SelectInputsWithDecoys (available : list pointer) (targetAmount : Z)
    (countDecoys : pointer → Z) (minDecoys : Z) : M R (list pointer) :=
  if decide (available = []) then throw ErrNoSpendableOutputs
  else
    let spendable := filter (λ p, Spent p = false ∧ minDecoys <= countDecoys p) available in
    let totalAvailable := add_amounts 0 spendable in
    if totalAvailable <? targetAmount then throw ErrInsufficientFunds
    else SelectInputs spendable targetAmount.

End CoinSelect.
