(* ===== verification/CoinSpec.v ===== *)
(** * Input selection is sound and complete

    A selection is a part of the unspent outputs, with at most 256 elements,
    that reaches the target; one is found whenever there is one. *)

From Stdlib Require Import Sorting.Sorted.
From S2P Require Import Prelude ExchangeSort CoinSelect.

Lemma submseteq_NoDup {A} (l k : list A) : l ⊆+ k → NoDup k → NoDup l.
Proof. intros (x & ->)%submseteq_Permutation. by intros [? _]%NoDup_app. Qed.

Lemma swap_perm {A} i j (l : list A) : swap i j l ≡ₚ l.
Proof.
  unfold swap. destruct (l !! i) eqn:E1; [|done]. destruct (l !! j) eqn:E2; [|done]. by apply Permutation_insert_swap.
Qed.

Lemma submseteq_elem_of {A} (l k : list A) x : l ⊆+ k → x ∈ l → x ∈ k.
Proof. intros (y & ->)%submseteq_Permutation ?. apply elem_of_app. by left. Qed.

Section CoinSpec.
Context {R : Type} `{HE : Entropy R} `{!EntropyLaws HE} `{HS : SliceSort} `{!SliceSortLaws HS}.
Context (Amount : pointer → Z) (Spent : pointer → bool).
Context (Hpos : ∀ p, 0 <= Amount p).

Definition total (l : list pointer) : Z := sumZ (Amount <$> l).

Lemma total_app l k : total (l ++ k) = total l + total k.
Proof. unfold total. by rewrite fmap_app, sumZ_app. Qed.

Lemma total_cons p l : total (p :: l) = Amount p + total l.
Proof. done. Qed.

Lemma total_snoc l p : total (l ++ [p]) = total l + Amount p.
Proof. rewrite total_app, total_cons. change (total []) with 0. lia. Qed.

Lemma total_nonneg l : 0 <= total l.
Proof. apply sumZ_nonneg, Forall_fmap, Forall_true. done. Qed.

#[local] Instance total_perm : Proper ((≡ₚ) ==> (=)) total.
Proof. intros l k E. unfold total. by rewrite (sumZ_perm _ (Amount <$> k)) by by rewrite E. Qed.

Lemma total_submseteq l k : l ⊆+ k → total l <= total k.
Proof. intros (x & ->)%submseteq_Permutation. rewrite total_app. pose proof (total_nonneg x). lia. Qed.

Lemma add_amounts_exact t l : 0 <= t → t + total l < 2 ^ 64 → add_amounts Amount t l = t + total l.
Proof.
  revert t. induction l as [|p l IH]; intros t Ht Hl; [unfold add_amounts, total; cbn; lia|].
  rewrite total_cons in Hl |- *. pose proof (Hpos p). pose proof (total_nonneg l). unfold add_amounts. cbn [foldl].
  rewrite u64_small by (unfold is_u64; lia). fold (add_amounts Amount (t + Amount p) l).
  rewrite IH; lia.
Qed.

(** ** Shuffling *)

Lemma shuffle_from_perm i l r : ∃ l' r', shuffle_from i l r = (Ok l', r') ∧ l' ≡ₚ l.
Proof.
  revert l r. induction i as [|i IH]; intros l r; cbn [shuffle_from]; [eauto|].
  destruct (rand_Int (S (S i)) r) as [[j|] r1]; [|eauto].
  destruct (IH (swap (S i) j l) r1) as (l' & r' & -> & Hp). eexists _, _. split; [done|]. rewrite Hp. apply swap_perm.
Qed.

Lemma RandomShuffle_perm l r : ∃ l' r', RandomShuffle l r = (Ok l', r') ∧ l' ≡ₚ l.
Proof. unfold RandomShuffle. case_decide; [by exists l, r|apply shuffle_from_perm]. Qed.

Lemma pick_spec {A} (l : list A) r : l ≠ [] → ∃ x r', pick l r = (Ok (Some x), r') ∧ x ∈ l.
Proof.
  intros Hne. unfold pick, mbind, M_bind, randIndex. rewrite decide_False by (by destruct l).
  destruct (rand_Int (length l) r) as [[j|] r1] eqn:E.
  - apply rand_Int_range in E. destruct (lookup_lt_is_Some_2 _ _ E) as [x Hx]. exists x, r1. unfold mret, M_ret.
    rewrite Hx. split; [done|]. by eapply list_elem_of_lookup_2.
  - destruct l as [|x l]; [done|]. exists x, r1. split; [done|]. by left.
Qed.

(** ** Exact matches *)

Lemma exact_pairs_spec target l a b :
  (a, b) ∈ exact_pairs Amount target l → [a; b] ⊆+ l ∧ u64 (Amount a + Amount b) = target.
Proof.
  induction l as [|x l IH]; cbn [exact_pairs]; [by intros ?%not_elem_of_nil|]. rewrite elem_of_app. intros [Hin|Hin].
  - apply list_elem_of_fmap in Hin as (b' & [= -> ->] & [Et Hb]%list_elem_of_filter). split; [|done].
    apply submseteq_skip. by apply singleton_submseteq_l.
  - destruct (IH Hin) as [? ?]. split; [by apply submseteq_cons|done].
Qed.

Lemma findExactMatch_spec l target r :
  total l < 2 ^ 64 →
  ∃ o r', findExactMatch Amount l target r = (Ok o, r') ∧
    ∀ sel, o = Some sel → sel ⊆+ l ∧ (0 < length sel <= 2)%nat ∧ total sel = target.
Proof.
  intros Hl. unfold findExactMatch. case_decide as Hs; [case_decide as Hp|].
  - by exists None, r.
  - destruct (pick_spec _ r Hp) as ([a b] & r' & E & Hin). unfold mbind, M_bind. rewrite E.
    eexists _, _. split; [done|]. intros sel [= <-]. apply exact_pairs_spec in Hin as [Hsub Ht].
    split_and!; [done|cbn; lia|cbn; lia|]. pose proof (total_submseteq _ _ Hsub). unfold total in *. cbn [fmap list_fmap sumZ] in *.
    pose proof (Hpos a). pose proof (Hpos b). rewrite u64_small in Ht by (unfold is_u64; lia). lia.
  - destruct (pick_spec _ r Hs) as (a & r' & E & Hin). unfold mbind, M_bind. rewrite E.
    eexists _, _. split; [done|]. intros sel [= <-]. apply list_elem_of_filter in Hin as [Ha Hin].
    split_and!; [by apply singleton_submseteq_l|cbn; lia|cbn; lia|]. unfold total. cbn. lia.
Qed.

(** ** The greedy loop *)

Lemma take_until_Some target maxInputs sel t l sel' :
  t = total sel → total sel + total l < 2 ^ 64 →
  take_until Amount target maxInputs sel t l = Some sel' →
  ∃ pre, pre ≠ [] ∧ pre `prefix_of` l ∧ sel' = sel ++ pre ∧ (length sel' <= maxInputs)%nat ∧ target <= total sel'.
Proof.
  revert sel t. induction l as [|p l IH]; intros sel t -> Hl; cbn [take_until]; [done|]. case_decide as Hm; [done|].
  rewrite total_cons in Hl. pose proof (Hpos p). pose proof (total_nonneg l). pose proof (total_nonneg sel).
  assert (u64 (total sel + Amount p) = total (sel ++ [p])) as ->.
  { rewrite total_snoc, u64_small by (unfold is_u64; lia). done. }
  destruct (Z.leb_spec target (total (sel ++ [p]))).
  - intros [= <-]. exists [p]. rewrite length_app. cbn [length]. split_and!; [done|by exists l|done|lia|lia].
  - intros E. apply IH in E as (pre & Hne & Hpre & -> & Hlen & Ht); [|done|rewrite total_snoc; lia].
    exists (p :: pre). rewrite <- app_assoc in *. split_and!; [done|by apply prefix_cons|done|done|done].
Qed.

Lemma take_until_None target maxInputs sel t l :
  t = total sel → total sel + total l < 2 ^ 64 →
  take_until Amount target maxInputs sel t l = None →
  take (maxInputs - length sel) l = [] ∨ total (sel ++ take (maxInputs - length sel) l) < target.
Proof.
  revert sel t. induction l as [|p l IH]; intros sel t -> Hl; cbn [take_until]; [by left; rewrite take_nil|].
  case_decide as Hm; [left; by replace (maxInputs - length sel)%nat with 0%nat by lia|].
  rewrite total_cons in Hl. pose proof (Hpos p). pose proof (total_nonneg l). pose proof (total_nonneg sel).
  pose proof (total_snoc sel p) as Et.
  assert (u64 (total sel + Amount p) = total (sel ++ [p])) as -> by (rewrite Et; apply u64_small; unfold is_u64; lia).
  destruct (Z.leb_spec target (total (sel ++ [p]))); [done|]. intros E. right.
  replace (maxInputs - length sel)%nat with (S (maxInputs - length (sel ++ [p]))) by (rewrite length_app; cbn [length]; lia).
  cbn [take]. apply IH in E as [E|E]; [| |done|lia].
  - rewrite E. lia.
  - by rewrite <- app_assoc in E.
Qed.

(** ** The largest outputs *)

Lemma top_maximal k l sel :
  StronglySorted (λ x y, Amount y <= Amount x) l → sel ⊆+ l → (length sel <= k)%nat → total sel <= total (take k l).
Proof.
  intros Hs. revert k sel. induction Hs as [|x l Hs IH Hx]; intros k sel Hsub Hk.
  { apply submseteq_nil_r in Hsub as ->. rewrite take_nil. lia. }
  destruct sel as [|y sel0]; [apply total_nonneg|]. destruct k as [|k]; [cbn in Hk; lia|]. cbn [take]. rewrite (total_cons x).
  apply submseteq_cons_r in Hsub as [Hsub|(k' & Ep & Hsub)].
  - rewrite (total_cons y). cbn [length] in Hk. apply submseteq_cons_l in Hsub as (l' & El & Hsub).
    specialize (IH k sel0 ltac:(etrans; [exact Hsub|rewrite El; by apply submseteq_cons]) ltac:(lia)).
    rewrite Forall_forall in Hx. specialize (Hx y ltac:(rewrite El; by left)). cbn in Hx. lia.
  - assert (length (y :: sel0) = S (length k')) as El by by rewrite Ep.
    rewrite (total_perm _ _ Ep), (total_cons x k'). specialize (IH k k' Hsub ltac:(lia)). lia.
Qed.

Lemma larger_order : weak_order (larger Amount).
Proof.
  assert (∀ x y, larger Amount x y = (Amount y <? Amount x)) as E.
  { intros x y. unfold larger. destruct (Z.eqb_spec (Amount x) (Amount y)), (Z.ltb_spec (Amount y) (Amount x)); cbn; lia || done. }
  split; intros *; rewrite !E; rewrite ?Z.ltb_lt, ?Z.ltb_ge; lia.
Qed.

Lemma selectLargest_None l target k :
  total l < 2 ^ 64 → selectLargestFirstCapped Amount l target (S k) = None →
  ∀ sel, sel ⊆+ l → sel ≠ [] → (length sel <= S k)%nat → total sel < target.
Proof.
  intros Hl. unfold selectLargestFirstCapped. rewrite decide_False by done. set (sorted := sort_Slice _ l).
  assert (sorted ≡ₚ l) as Ep by apply sort_Slice_perm. intros E sel Hsub Hne Hk.
  assert (StronglySorted (λ x y, Amount y <= Amount x) sorted) as Hs.
  { pose proof (sort_Slice_sorted _ l larger_order) as Hs. fold sorted in Hs. clear -Hs. induction Hs as [|x s Hs IH Hx]; constructor; [done|].
    eapply Forall_impl; [exact Hx|]. cbn. intros y. unfold larger.
    destruct (Z.eqb_spec (Amount y) (Amount x)), (Z.ltb_spec (Amount x) (Amount y)); cbn; lia || done. }
  rewrite <- Ep in Hsub. pose proof (top_maximal (S k) sorted sel Hs Hsub Hk) as Ht.
  apply take_until_None in E; [|done|by rewrite Ep]. cbn [length app] in E. rewrite Nat.sub_0_r in E. destruct E as [E|E].
  - destruct sorted; [|done]. by apply submseteq_nil_r in Hsub.
  - lia.
Qed.

Lemma selectLargest_Some l target k sel :
  total l < 2 ^ 64 → selectLargestFirstCapped Amount l target k = Some sel →
  sel ⊆+ l ∧ sel ≠ [] ∧ (length sel <= k)%nat ∧ target <= total sel.
Proof.
  intros Hl. unfold selectLargestFirstCapped. case_decide; [done|]. intros E.
  apply take_until_Some in E as (pre & Hne & Hp & -> & Hk & Ht); [|done|by rewrite sort_Slice_perm].
  cbn [app] in *. split_and!; [|done|done|done]. rewrite <- (sort_Slice_perm (larger Amount) l).
  destruct Hp as [post ->]. by apply submseteq_inserts_r.
Qed.

Lemma selectSmallest_Some l target k sel :
  total l < 2 ^ 64 → selectSmallestFirstCapped Amount l target k = Some sel →
  sel ⊆+ l ∧ sel ≠ [] ∧ (length sel <= k)%nat ∧ target <= total sel.
Proof.
  intros Hl. unfold selectSmallestFirstCapped. case_decide; [done|]. intros E.
  apply take_until_Some in E as (pre & Hne & Hp & -> & Hk & Ht); [|done|by rewrite sort_Slice_perm].
  cbn [app] in *. split_and!; [|done|done|done]. rewrite <- (sort_Slice_perm (smaller Amount) l).
  destruct Hp as [post ->]. by apply submseteq_inserts_r.
Qed.

(** ** Replacements *)

Lemma replace_first_spec target small t sel sel' t' :
  replace_first Amount target small t sel = Some (sel', t') →
  ∃ pre large post, sel = pre ++ large :: post ∧ sel' = pre ++ small :: post ∧
    t' = u64 (u64 (t - Amount large) + Amount small) ∧ target <= t'.
Proof.
  revert sel'. induction sel as [|x sel IH]; intros sel'; cbn [replace_first]; [done|].
  destruct ((Amount x <=? Amount small) || _) eqn:Eb.
  - intros ([s2 t2] & E & [= -> ->])%fmap_Some. destruct (IH _ E) as (pre & large & post & -> & -> & ? & ?).
    by exists (x :: pre), large, post.
  - intros [= <- <-]. apply orb_false_iff in Eb as [_ Eb%Z.ltb_ge]. by exists [], x, sel.
Qed.

(** The selection, its total and the candidates left. *)
Record mixing (l : list pointer) (target : Z) (k : nat) (s : list pointer * Z) (candidates : list pointer) : Prop := {
  mx_part : s.1 ++ candidates ⊆+ l;
  mx_total : s.2 = total s.1;
  mx_enough : target <= s.2;
  mx_length : (0 < length s.1 <= k)%nat;
}.

Lemma try_replace_mixing l target k s small candidates :
  total l < 2 ^ 64 → mixing l target k s (small :: candidates) → mixing l target k (try_replace Amount target s small) candidates.
Proof.
  intros Hl [Hp Ht He Hk]. destruct s as [sel t]. cbn [fst snd] in *. unfold try_replace. cbn [fst snd].
  destruct (replace_first Amount target small t sel) as [[sel' t']|] eqn:E; cbn [default from_option id].
  - apply replace_first_spec in E as (pre & large & post & -> & -> & -> & Ht').
    assert (pre ++ small :: post ++ candidates ⊆+ l) as Hp'.
    { etrans; [|exact Hp]. rewrite <- app_assoc. cbn [app]. apply submseteq_app; [done|].
      rewrite <- Permutation_middle. by apply submseteq_cons. }
    pose proof (total_submseteq _ _ Hp') as Hb. rewrite total_app, total_cons, total_app in Hb.
    pose proof (total_nonneg candidates). pose proof (total_nonneg pre). pose proof (total_nonneg post).
    pose proof (Hpos small). pose proof (Hpos large). pose proof (total_submseteq _ _ Hp) as Hb2.
    rewrite !total_app, !total_cons in Hb2. rewrite total_app, total_cons in Ht.
    split; cbn [fst snd].
    + rewrite <- app_assoc. exact Hp'.
    + rewrite total_app, total_cons. rewrite (u64_small (t - _)) by (unfold is_u64; lia). rewrite u64_small by (unfold is_u64; lia). lia.
    + done.
    + rewrite length_app in *. cbn [length] in *. lia.
  - split; cbn [fst snd]; try done. etrans; [|exact Hp]. apply submseteq_app; [done|]. by apply submseteq_cons.
Qed.

Lemma mixing_fold l target k s candidates :
  total l < 2 ^ 64 → mixing l target k s candidates →
  mixing l target k (foldl (try_replace Amount target) s candidates) [].
Proof.
  intros Hl. revert s. induction candidates as [|c cs IH]; intros s Hm; cbn [foldl]; [done|].
  apply IH. by apply try_replace_mixing.
Qed.

Lemma selectMixed_Some l target k sel :
  NoDup l → total l < 2 ^ 64 → selectMixed Amount l target k = Some sel →
  sel ⊆+ l ∧ sel ≠ [] ∧ (length sel <= k)%nat ∧ target <= total sel.
Proof.
  intros Hnd Hl. unfold selectMixed. intros (base & Eb & [= <-])%bind_Some.
  destruct (selectLargest_Some _ _ _ _ Hl Eb) as (Hsub & Hne & Hk & Ht).
  set (cs := sort_Slice (smaller Amount) _). set (s0 := sort_Slice (larger Amount) base).
  assert (mixing l target k (s0, add_amounts Amount 0 base) cs) as Hm.
  { pose proof (total_submseteq _ _ Hsub). split; cbn [fst snd].
    - unfold s0, cs. rewrite !sort_Slice_perm. apply NoDup_submseteq.
      + apply NoDup_app. split_and!; [by eapply submseteq_NoDup| |by apply NoDup_filter].
        intros x Hx. rewrite list_elem_of_filter. tauto.
      + intros x [Hx|Hx]%elem_of_app; [by eapply submseteq_elem_of|]. by apply list_elem_of_filter in Hx as [_ ?].
    - unfold s0. rewrite sort_Slice_perm. rewrite add_amounts_exact by lia. lia.
    - rewrite add_amounts_exact by lia. lia.
    - unfold s0. rewrite sort_Slice_perm. destruct base; [done|cbn in *; lia]. }
  destruct (mixing_fold _ _ _ _ _ Hl Hm) as [Hp Et He Hlen]. rewrite app_nil_r in Hp. rewrite Et in He.
  split_and!; [done| |lia|done]. intros E. rewrite E in Hlen. cbn in Hlen. lia.
Qed.

(** ** The whole selection *)

Definition unspent (available : list pointer) : list pointer := filter (λ p, Spent p = false) available.

(** What a selection is. *)
Definition selection (available : list pointer) (target : Z) (sel : list pointer) : Prop :=
  sel ⊆+ unspent available ∧ sel ≠ [] ∧ (length sel <= maxSelectedInputs)%nat ∧ target <= total sel.

Definition select_outcome (available : list pointer) (target : Z) (r : result (list pointer)) : Prop :=
  match r with
  | Ok sel => selection available target sel
  | Err e =>
      (available = [] ∧ e = ErrNoSpendableOutputs) ∨
      (available ≠ [] ∧ total (unspent available) < target ∧ e = ErrInsufficientFunds) ∨
      (available ≠ [] ∧ target <= total (unspent available) ∧ e = ErrInputLimitExceeded ∧
       ¬ ∃ sel, selection available target sel)
  | Panic => False
  end.

Lemma SelectInputs_outcome available target r :
  NoDup available → total (unspent available) < 2 ^ 64 →
  select_outcome available target (SelectInputs Amount Spent available target r).1.
Proof.
  intros Hnd Hl. unfold SelectInputs. case_decide as Hne; [by left|]. fold (unspent available).
  pose proof (total_nonneg (unspent available)) as Hp. rewrite add_amounts_exact by lia.
  destruct (Z.ltb_spec (0 + total (unspent available)) target) as [Hlt|Hge]; [right; left; split_and!; [done|lia|done]|].
  destruct (RandomShuffle_perm (unspent available) r) as (l & r1 & E1 & Ep). unfold mbind, M_bind. rewrite E1.
  assert (total l < 2 ^ 64) as Hl1 by by rewrite Ep.
  assert (NoDup l) as Hnd1 by (rewrite Ep; by apply NoDup_filter).
  destruct (findExactMatch_spec l target r1 Hl1) as (o & r2 & E2 & Ho). rewrite E2.
  assert (∀ sel, sel ⊆+ l ∧ sel ≠ [] ∧ (length sel <= maxSelectedInputs)%nat ∧ target <= total sel → selection available target sel) as Hsel.
  { intros sel (? & ?). split; [by rewrite <- Ep|done]. }
  destruct o as [sel|]; cbn [select_outcome fst].
  { destruct (Ho sel eq_refl) as (Hs & Hk & Ht). apply Hsel. unfold maxSelectedInputs.
    split_and!; [done| |lia|lia]. intros ->. cbn in Hk. lia. }
  destruct (selectSmallestFirstCapped _ _ _ _) as [sel|] eqn:E3.
  { apply Hsel. by eapply selectSmallest_Some. }
  destruct (selectMixed _ _ _ _) as [sel|] eqn:E4.
  { apply Hsel. by eapply selectMixed_Some. }
  right; right. split_and!; [done|lia|done|]. intros (sel & Hs & Hsn & Hk & Ht). unfold selectMixed in E4.
  destruct (selectLargestFirstCapped Amount l target maxSelectedInputs) as [base|] eqn:E5; [done|].
  unfold maxSelectedInputs in *. pose proof (selectLargest_None l target 255 Hl1 E5 sel ltac:(by rewrite Ep) Hsn Hk). lia.
Qed.

End CoinSpec.

(** ** Theorem *)

(** C17. Input selection is sound and complete.  Whatever the random source and
    the order of equal amounts, [SelectInputs] never panics; it returns
    different unspent outputs, at least one and at most 256, that reach the
    target; it fails with "no spendable outputs" only on an empty list, with
    "insufficient funds" only when all unspent outputs together stay below
    the target, and with "input limit exceeded" only when no choice of at most
    256 of them reaches it.  Amounts do not add up to 2^64. *)
Theorem coin_selection_exact {R} `{HE : Entropy R} `{!EntropyLaws HE} `{HS : SliceSort} `{!SliceSortLaws HS}
    (Amount : pointer → Z) (Spent : pointer → bool) available target r :
  (∀ p, 0 <= Amount p) → NoDup available → total Amount (unspent Spent available) < 2 ^ 64 →
  select_outcome Amount Spent available target (SelectInputs Amount Spent available target r).1 ∧
  (∀ sel, (SelectInputs Amount Spent available target r).1 = Ok sel → NoDup sel ∧ sel ⊆ available).
Proof.
  intros Hp Hnd Hl. pose proof (SelectInputs_outcome Amount Spent Hp available target r Hnd Hl) as Ho. split; [done|].
  intros sel E. rewrite E in Ho. destruct Ho as [Hs _]. split.
  - eapply submseteq_NoDup; [exact Hs|]. by apply NoDup_filter.
  - intros x Hx. by apply (submseteq_elem_of _ _ _ Hs), list_elem_of_filter in Hx as [_ ?].
Qed.

(** ** A sample selection *)

(** A counter as the source of draws, and a sort. *)
Definition sample_entropy : Entropy nat :=
  {| rand_Int n r := (if decide (n = 0%nat) then None else Some (r `mod` n)%nat, S r) |}.
Definition sample_sort : SliceSort := {| sort_Slice less := exchange_sort (λ x y, less y x) |}.

Lemma sample_entropy_laws : EntropyLaws sample_entropy.
Proof. split. intros n r j r'. cbn. case_decide; intros [= <- _]. by apply Nat.mod_upper_bound. Qed.

Lemma sample_sort_laws : SliceSortLaws sample_sort.
Proof.
  split; [intros; apply exchange_sort_perm|]. intros less l [Ha Ht].
  assert (Transitive (λ x y, less y x = false)) by (intros x y z H1 H2; by apply (Ht x y z)).
  apply (exchange_sort_sorted _ (λ x y, less y x = false)).
  - done.
  - intros x y. apply Ha.
  - intros x. destruct (less x x) eqn:E; [|done]. by rewrite (Ha _ _ E) in E.
Qed.

#[local] Existing Instance sample_entropy.
#[local] Existing Instance sample_sort.
#[local] Existing Instance sample_entropy_laws.
#[local] Existing Instance sample_sort_laws.

Definition sample_amount (p : pointer) : Z := nth p [70; 20; 5; 40; 5] 0.
Definition sample_spent (p : pointer) : bool := bool_decide (p = 1%nat).
Definition sample_select (target : Z) : result (list pointer) :=
  (SelectInputs sample_amount sample_spent [0; 1; 2; 3; 4]%nat target 7%nat).1.

(** The output of 20 is spent: 60 takes the small ones and then the 70; 121
    is out of reach. *)
Lemma coin_selection_exact_witness :
  sample_select 60 = Ok [2; 4; 3; 0]%nat ∧ selection sample_amount sample_spent [0; 1; 2; 3; 4]%nat 60 [2; 4; 3; 0]%nat ∧
  sample_select 121 = Err ErrInsufficientFunds.
Proof.
  assert (sample_select 60 = Ok [2; 4; 3; 0]%nat) as E by (vm_compute; reflexivity).
  split; [exact E|]. split; [|vm_compute; reflexivity].
  destruct (coin_selection_exact sample_amount sample_spent [0; 1; 2; 3; 4]%nat 60 7%nat) as [Ho _].
  - intros p. do 5 (destruct p as [|p]; [vm_compute; discriminate|]). unfold sample_amount. by destruct p.
  - vm_decide.
  - vm_compute. reflexivity.
  - unfold sample_select in E. rewrite E in Ho. exact Ho.
Defined.
