(* ===== verification/Wallet.v ===== *)
(** * The wallet's outputs ([wallet/wallet.go])

    Owned outputs, balances, spends confirmed and unconfirmed, rewinds, and
    the leases that keep concurrent senders from choosing the same inputs.
    Every method runs under the wallet's mutex, so it is one step.  Times are
    in nanoseconds.  The null entries that a hand-edited wallet file could
    contain are not modelled, nor is the file itself. *)

From S2P Require Import Prelude Bytes CoinSelect.

(** ** State *)

Record StealthKeys : Type := MkStealthKeys {
  SpendPrivKey : bytes;
  SpendPubKey : bytes;
  ViewPrivKey : bytes;
  ViewPubKey : bytes;
}.

Record OwnedOutput : Type := MkOwnedOutput {
  TxID : bytes;
  OutputIndex : Z;
  Amount : Z;
  Blinding : bytes;
  OneTimePrivKey : bytes;
  OneTimePubKey : bytes;
  Commitment : bytes;
  BlockHeight : Z;
  IsCoinbase : bool;
  Spent : bool;
  SpentHeight : Z;
  SpentTxID : bytes;
  Memo : bytes;
}.

#[global] Instance OwnedOutput_eq_dec : EqDecision OwnedOutput.
Proof. solve_decision. Defined.

Record PendingCredit : Type := MkPendingCredit {
  CreditTxID : bytes;
  CreditAmount : Z;
  AddedAt : Z;
}.

Definition reservedOutpoint : Type := bytes * Z.

Record inputReservation : Type := MkReservation {
  lease_of : Z;
  expiresAt : Z;
}.

Record Wallet : Type := MkWallet {
  Keys : StealthKeys;
  Outputs : list OwnedOutput;
  PendingCredits : list PendingCredit;
  SyncedHeight : Z;
  inputReservations : gmap reservedOutpoint inputReservation;
  nextLease : Z;
  inputFilter : option (OwnedOutput → bool);
}.

Definition on_outputs (f : list OwnedOutput → list OwnedOutput) (w : Wallet) : Wallet :=
  MkWallet (Keys w) (f (Outputs w)) (PendingCredits w) (SyncedHeight w) (inputReservations w) (nextLease w) (inputFilter w).
Definition on_credits (f : list PendingCredit → list PendingCredit) (w : Wallet) : Wallet :=
  MkWallet (Keys w) (Outputs w) (f (PendingCredits w)) (SyncedHeight w) (inputReservations w) (nextLease w) (inputFilter w).
Definition on_reservations (f : gmap reservedOutpoint inputReservation → gmap reservedOutpoint inputReservation)
    (w : Wallet) : Wallet :=
  MkWallet (Keys w) (Outputs w) (PendingCredits w) (SyncedHeight w) (f (inputReservations w)) (nextLease w) (inputFilter w).
Definition SetSyncedHeight (height : Z) (w : Wallet) : Wallet :=
  MkWallet (Keys w) (Outputs w) (PendingCredits w) height (inputReservations w) (nextLease w) (inputFilter w).
Definition SetInputFilter (fn : option (OwnedOutput → bool)) (w : Wallet) : Wallet :=
  MkWallet (Keys w) (Outputs w) (PendingCredits w) (SyncedHeight w) (inputReservations w) (nextLease w) fn.

Definition outpoint (out : OwnedOutput) : reservedOutpoint := (TxID out, OutputIndex out).

Definition mark (spent : bool) (height : Z) (txID : bytes) (out : OwnedOutput) : OwnedOutput :=
  MkOwnedOutput (TxID out) (OutputIndex out) (Amount out) (Blinding out) (OneTimePrivKey out) (OneTimePubKey out)
    (Commitment out) (BlockHeight out) (IsCoinbase out) spent height txID (Memo out).

(** ** Maturity and balances *)

Definition CoinbaseMaturity : Z := 60.
Definition SafeConfirmations : Z := 10.

Definition confirmations (out : OwnedOutput) (currentHeight : Z) : Z :=
  if BlockHeight out <=? currentHeight then currentHeight - BlockHeight out else 0.

Definition IsOutputMature (out : OwnedOutput) (currentHeight : Z) : bool :=
  if Spent out then false
  else if IsCoinbase out then CoinbaseMaturity <=? confirmations out currentHeight
  else SafeConfirmations <=? confirmations out currentHeight.

(** [total += out.Amount] over the outputs that satisfy [P]. *)
Definition sum_where (P : OwnedOutput → bool) (l : list OwnedOutput) : Z :=
  foldl (λ t o, if P o then u64 (t + Amount o) else t) 0 l.

Definition Balance (w : Wallet) : Z := sum_where (λ o, negb (Spent o)) (Outputs w).
Definition SpendableBalance (w : Wallet) (h : Z) : Z := sum_where (λ o, IsOutputMature o h) (Outputs w).
Definition PendingBalance (w : Wallet) (h : Z) : Z :=
  sum_where (λ o, negb (Spent o) && negb (IsOutputMature o h)) (Outputs w).
Definition PendingUnconfirmedBalance (w : Wallet) : Z :=
  foldl (λ t pc, u64 (t + CreditAmount pc)) 0 (PendingCredits w).

Definition OutputCount (w : Wallet) : nat * nat :=
  (length (Outputs w), length (filter (λ o, Spent o = false) (Outputs w))).

(** ** Listings *)

Definition AllOutputs (w : Wallet) : list OwnedOutput := Outputs w.
Definition SpendableOutputs (w : Wallet) : list OwnedOutput := filter (λ o, Spent o = false) (Outputs w).
Definition MatureOutputs (w : Wallet) (h : Z) : list OwnedOutput := filter (λ o, IsOutputMature o h = true) (Outputs w).

Definition noTx : bytes := zeros 32.

Definition outputsForKeyImageScan (w : Wallet) : list OwnedOutput :=
  filter (λ o, ¬ (Spent o = true ∧ SpentTxID o = noTx)) (Outputs w).

(** ** Outputs come and go *)

Definition drop_credits (dead : bytes → bool) (l : list PendingCredit) : list PendingCredit :=
  filter (λ pc, dead (CreditTxID pc) = false) l.

Definition AddOutput (out : OwnedOutput) (w : Wallet) : Wallet :=
  if existsb (λ o, bool_decide (outpoint o = outpoint out)) (Outputs w) then w
  else on_credits (drop_credits (λ id, bool_decide (id = TxID out))) (on_outputs (λ l, l ++ [out]) w).

Fixpoint update_credit (txID : bytes) (amount now : Z) (l : list PendingCredit) : option (list PendingCredit) :=
  match l with
  | [] => None
  | pc :: l =>
      if decide (CreditTxID pc = txID) then Some (MkPendingCredit txID amount now :: l)
      else cons pc <$> update_credit txID amount now l
  end.

Definition AddPendingCredit (now : Z) (txID : bytes) (amount : Z) (w : Wallet) : Wallet :=
  if amount =? 0 then w
  else on_credits (λ l, default (l ++ [MkPendingCredit txID amount now]) (update_credit txID amount now l)) w.

(** The first output with the key decides; [Some] is the new list, whether
    the reservation of the output is dropped with it. *)
Fixpoint mark_spent (key : bytes) (height : Z) (l : list OwnedOutput) : option (list OwnedOutput * option reservedOutpoint) :=
  match l with
  | [] => None
  | out :: l =>
      if decide (OneTimePubKey out ≠ key) then (λ '(l, op), (out :: l, op)) <$> mark_spent key height l
      else if Spent out && bool_decide (SpentTxID out ≠ noTx) then Some (mark true height noTx out :: l, None)
      else if negb (Spent out) then Some (mark true height (SpentTxID out) out :: l, Some (outpoint out))
      else None
  end.

Definition MarkSpent (oneTimePubKey : bytes) (height : Z) (w : Wallet) : bool * Wallet :=
  match mark_spent oneTimePubKey height (Outputs w) with
  | None => (false, w)
  | Some (l, op) => (true, on_reservations (λ m, match op with Some op => delete op m | None => m end) (on_outputs (λ _, l) w))
  end.

Fixpoint mark_spent_by (key txID : bytes) (l : list OwnedOutput) : option (list OwnedOutput * reservedOutpoint) :=
  match l with
  | [] => None
  | out :: l =>
      if bool_decide (OneTimePubKey out = key) && negb (Spent out) then Some (mark true 0 txID out :: l, outpoint out)
      else (λ '(l, op), (out :: l, op)) <$> mark_spent_by key txID l
  end.

Definition MarkSpentByTx (oneTimePubKey txID : bytes) (w : Wallet) : bool * Wallet :=
  match mark_spent_by oneTimePubKey txID (Outputs w) with
  | None => (false, w)
  | Some (l, op) => (true, on_reservations (delete op) (on_outputs (λ _, l) w))
  end.

Definition is_dead (isTxAlive : bytes → bool) (out : OwnedOutput) : bool :=
  Spent out && bool_decide (SpentTxID out ≠ noTx) && negb (isTxAlive (SpentTxID out)).

Definition ReconcileUnconfirmedSpends (isTxAlive : bytes → bool) (w : Wallet) : nat * Wallet :=
  let dead := filter (λ o, is_dead isTxAlive o = true) (Outputs w) in
  let w' := on_outputs (fmap (λ o, if is_dead isTxAlive o then mark false 0 noTx o else o)) w in
  (length dead, on_credits (drop_credits (λ id, bool_decide (id ∈ SpentTxID <$> dead))) w').

Definition rewind_output (height : Z) (out : OwnedOutput) : OwnedOutput :=
  if Spent out && (height <? SpentHeight out) then mark false 0 (SpentTxID out) out else out.

Definition RewindToHeight (height : Z) (w : Wallet) : nat * Wallet :=
  let kept := filter (λ o, BlockHeight o <= height) (Outputs w) in
  let w' := on_outputs (λ _, rewind_output height <$> kept) w in
  ((length (Outputs w) - length kept)%nat,
   if height <? SyncedHeight w then SetSyncedHeight height w' else w').

(** ** Leases *)

Definition defaultTTL : Z := 2 * 60 * 1000000000.

Definition drop_expired (now : Z) (w : Wallet) : Wallet :=
  on_reservations (filter (λ x, now <= expiresAt x.2)) w.

Definition candidate (w : Wallet) (h : Z) (out : OwnedOutput) : bool :=
  negb (Spent out) && IsOutputMature out h && bool_decide (inputReservations w !! outpoint out = None) &&
  match inputFilter w with Some f => negb (f out) | None => true end.

Definition deref (w : Wallet) (p : nat) : OwnedOutput :=
  default (MkOwnedOutput noTx 0 0 noTx noTx noTx noTx 0 false true 0 noTx []) (Outputs w !! p).

(** Pointers to the outputs that may be spent now. *)
Definition candidates (w : Wallet) (h : Z) : list pointer :=
  filter (λ p, candidate w h (deref w p) = true) (seq 0 (length (Outputs w))).

Definition reserve (lease expires : Z) (out : OwnedOutput) (w : Wallet) : Wallet :=
  on_reservations (<[outpoint out := MkReservation lease expires]>) w.

Definition take_lease (w : Wallet) : Z * Wallet :=
  let lease := u64 (nextLease w + 1) in
  (lease, MkWallet (Keys w) (Outputs w) (PendingCredits w) (SyncedHeight w) (inputReservations w) lease (inputFilter w)).

Definition ReleaseInputLease (lease : Z) (w : Wallet) : Wallet :=
  if lease =? 0 then w else on_reservations (filter (λ x, lease_of x.2 ≠ lease)) w.

(** The loop that reserves, closed against a reservation that is still live. *)
Fixpoint reserve_all (now lease expires : Z) (outs : list OwnedOutput) (w : Wallet) : result unit * Wallet :=
  match outs with
  | [] => (Ok tt, w)
  | out :: outs =>
      match inputReservations w !! outpoint out with
      | Some existing =>
          if now <? expiresAt existing
          then (Err (Errorf "selected output already reserved"),
                on_reservations (filter (λ x, lease_of x.2 ≠ lease)) w)
          else reserve_all now lease expires outs (reserve lease expires out w)
      | None => reserve_all now lease expires outs (reserve lease expires out w)
      end
  end.

Definition ttl_or_default (ttl : Z) : Z := if ttl <=? 0 then defaultTTL else ttl.

Section Reserve.
Context {R : Type} `{Entropy R} `{SliceSort}.

Definition ReserveMatureInputs (now currentHeight targetAmount ttl : Z) : M (Wallet * R) (Z * list OwnedOutput) := λ s,
  let w := drop_expired now s.1 in
  match SelectInputs (λ p, Amount (deref w p)) (λ p, Spent (deref w p)) (candidates w currentHeight) targetAmount s.2 with
  | (Ok selected, r) =>
      let outs := deref w <$> selected in
      let '(lease, w1) := take_lease w in
      match reserve_all now lease (now + ttl_or_default ttl) outs w1 with
      | (Ok _, w2) => (Ok (lease, outs), (w2, r))
      | (Err e, w2) => (Err e, (w2, r))
      | (Panic, w2) => (Panic, (w2, r))
      end
  | (Err e, r) => (Err e, (w, r))
  | (Panic, r) => (Panic, (w, r))
  end.

Definition ReserveAllMatureInputs (now currentHeight ttl : Z) : M (Wallet * R) (Z * list OwnedOutput) := λ s,
  let w := drop_expired now s.1 in
  let outs := deref w <$> candidates w currentHeight in
  if decide (outs = []) then (Err ErrNoSpendableOutputs, (w, s.2))
  else
    let '(lease, w1) := take_lease w in
    (Ok (lease, outs), (foldl (λ w o, reserve lease (now + ttl_or_default ttl) o w) w1 outs, s.2)).

Definition OutputRef : Type := reservedOutpoint.

(** [byKey]: the last output with the reference. *)
Definition by_key (w : Wallet) (ref : OutputRef) : option OwnedOutput :=
  last (filter (λ o, outpoint o = ref) (Outputs w)).

Definition check_ref (w : Wallet) (currentHeight : Z) (ref : OutputRef) : result OwnedOutput :=
  match by_key w ref with
  | None => Err (Errorf "input %d: output not found (txid %x, index %d)")
  | Some out =>
      check (Spent out) (Errorf "input %d: output already spent (txid %x, index %d)");;
      check (negb (IsOutputMature out currentHeight))
        (Errorf "input %d: immature, has %d confirmations, needs %d (txid %x, index %d)");;
      check (bool_decide (inputReservations w !! outpoint out ≠ None))
        (Errorf "input %d: reserved by another in-flight transaction (txid %x, index %d)");;
      check (match inputFilter w with Some f => f out | None => false end)
        (Errorf "input %d: key image already in mempool (txid %x, index %d)");;
      Ok out
  end.

Definition ReserveSpecificInputs (refs : list OutputRef) (now currentHeight ttl : Z)
    : M (Wallet * R) (Z * list OwnedOutput) := λ s,
  if decide (refs = []) then (Err (Errorf "no inputs specified"), s)
  else
    let w := drop_expired now s.1 in
    match
      check (bool_decide (¬ NoDup refs)) (Errorf "input %d: duplicate of input %d (txid %x, index %d)");;
      mapM (check_ref w currentHeight) refs
    with
    | Ok outs =>
        let '(lease, w1) := take_lease w in
        (Ok (lease, outs), (foldl (λ w o, reserve lease (now + ttl_or_default ttl) o w) w1 outs, s.2))
    | Err e => (Err e, (w, s.2))
    | Panic => (Panic, (w, s.2))
    end.

End Reserve.
