(* ===== verification/WalletSpec.v ===== *)
(** * Leases are exclusive

    The outputs that a reservation hands out are distinct, unspent, mature and
    free; until the lease is released, runs out, or its output is marked as
    spent, no other reservation hands out the same output. *)

From S2P Require Import Prelude Bytes CoinSelect CoinSpec Wallet.

(** Outputs are identified by transaction and index. *)
Definition wallet_ok (w : Wallet) : Prop := NoDup (outpoint <$> Outputs w).

(** ** Leases *)

Lemma Outputs_reserve_fold lease e outs w :
  Outputs (foldl (λ w o, reserve lease e o w) w outs) = Outputs w ∧
  nextLease (foldl (λ w o, reserve lease e o w) w outs) = nextLease w ∧
  ∀ op, inputReservations (foldl (λ w o, reserve lease e o w) w outs) !! op =
        if decide (op ∈ outpoint <$> outs) then Some (MkReservation lease e) else inputReservations w !! op.
Proof.
  revert w. induction outs as [|o outs IH]; intros w; cbn [foldl]; [split_and!; [done..|]; intros op; by rewrite decide_False by set_solver|].
  destruct (IH (reserve lease e o w)) as (-> & -> & Hl). split_and!; [done..|]. intros op. rewrite Hl. cbn [fmap list_fmap reserve on_reservations inputReservations].
  destruct (decide (op ∈ outpoint <$> outs)); [by rewrite decide_True by set_solver|].
  destruct (decide (outpoint o = op)) as [<-|Hne]; [rewrite lookup_insert_eq, decide_True by set_solver; done|].
  rewrite lookup_insert_ne by done. by rewrite decide_False by set_solver.
Qed.

Lemma reserve_all_free now lease e outs w :
  NoDup (outpoint <$> outs) → Forall (λ o, inputReservations w !! outpoint o = None) outs →
  reserve_all now lease e outs w = (Ok tt, foldl (λ w o, reserve lease e o w) w outs).
Proof.
  revert w. induction outs as [|o outs IH]; intros w Hnd Hf; cbn [reserve_all foldl]; [done|].
  cbn [fmap list_fmap] in Hnd. apply NoDup_cons in Hnd as [Hni Hnd]. apply Forall_cons in Hf as [-> Hf]. apply IH; [done|].
  apply Forall_forall. intros x Hx. rewrite Forall_forall in Hf. cbn. rewrite lookup_insert_ne; [by apply Hf|].
  intros E. apply Hni. rewrite E. by apply list_elem_of_fmap_2.
Qed.

Lemma lookup_drop_expired now w op res :
  inputReservations (drop_expired now w) !! op = Some res ↔ inputReservations w !! op = Some res ∧ now <= expiresAt res.
Proof. cbn. rewrite map_lookup_filter_Some. done. Qed.

(** ** Candidates *)

Lemma deref_lookup w (p : nat) o : Outputs w !! p = Some o → deref w p = o.
Proof. intros E. unfold deref. by rewrite E. Qed.

Lemma elem_of_candidates w h (p : nat) :
  p ∈ candidates w h → ∃ o, Outputs w !! p = Some o ∧ deref w p = o ∧ candidate w h o = true.
Proof.
  unfold candidates. rewrite list_elem_of_filter, elem_of_seq. intros [Hc [_ Hp]].
  destruct (lookup_lt_is_Some_2 (Outputs w) p ltac:(lia)) as [o Ho]. exists o. pose proof (deref_lookup _ _ _ Ho) as E.
  rewrite E in Hc. done.
Qed.

Lemma candidates_NoDup w h : NoDup (candidates w h).
Proof. apply NoDup_filter, NoDup_seq. Qed.

(** Different candidates have different outpoints. *)
Lemma deref_outpoints w h (l : list nat) :
  wallet_ok w → NoDup l → l ⊆ candidates w h → NoDup (outpoint <$> (deref w <$> l)).
Proof.
  intros Hw. induction l as [|p l IH]; intros Hnd Hsub; cbn [fmap list_fmap]; [constructor|].
  apply NoDup_cons in Hnd as [Hni Hnd]. constructor; [|apply IH; set_solver].
  intros (o & Eo & (q & -> & Hq)%list_elem_of_fmap)%list_elem_of_fmap.
  destruct (elem_of_candidates w h p ltac:(set_solver)) as (x & Hx & Ex & _).
  destruct (elem_of_candidates w h q ltac:(set_solver)) as (y & Hy & Ey & _). rewrite Ex, Ey in Eo.
  assert (p = q); [|congruence]. apply (NoDup_lookup (outpoint <$> Outputs w) p q (outpoint x) Hw).
  - by rewrite list_lookup_fmap, Hx.
  - by rewrite list_lookup_fmap, Hy, Eo.
Qed.

(** ** The three ways to reserve *)

Inductive request : Type :=
  | ReqAmount (target : Z)
  | ReqAll
  | ReqOutputs (refs : list OutputRef).

Section Reserve.
Context {R : Type} `{HE : Entropy R} `{!EntropyLaws HE} `{HS : SliceSort} `{!SliceSortLaws HS}.

Definition reserve_inputs (req : request) (now h ttl : Z) : M (Wallet * R) (Z * list OwnedOutput) :=
  match req with
  | ReqAmount target => ReserveMatureInputs now h target ttl
  | ReqAll => ReserveAllMatureInputs now h ttl
  | ReqOutputs refs => ReserveSpecificInputs refs now h ttl
  end.

(** What a reservation that succeeds hands out and does. *)
Record granted (now h ttl : Z) (w : Wallet) (lease : Z) (ins : list OwnedOutput) (w' : Wallet) : Prop := {
  gr_lease : lease = u64 (nextLease w + 1);
  gr_distinct : NoDup (outpoint <$> ins);
  gr_owned : Forall (λ o, o ∈ Outputs w ∧ candidate (drop_expired now w) h o = true) ins;
  gr_outputs : Outputs w' = Outputs w;
  gr_next : nextLease w' = lease;
  gr_held : ∀ op, inputReservations w' !! op =
    if decide (op ∈ outpoint <$> ins) then Some (MkReservation lease (now + ttl_or_default ttl))
    else inputReservations (drop_expired now w) !! op;
}.

Lemma candidate_free w h o : candidate w h o = true → inputReservations w !! outpoint o = None.
Proof. unfold candidate. rewrite !andb_true_iff, bool_decide_eq_true. tauto. Qed.

(** The reservations made with the next lease. *)
Definition lend (now ttl : Z) (w : Wallet) (outs : list OwnedOutput) : Wallet :=
  foldl (λ w' o, reserve (u64 (nextLease w + 1)) (now + ttl_or_default ttl) o w') (take_lease (drop_expired now w)).2 outs.

Lemma lend_granted now h ttl w outs :
  NoDup (outpoint <$> outs) → Forall (λ o, o ∈ Outputs w ∧ candidate (drop_expired now w) h o = true) outs →
  granted now h ttl w (u64 (nextLease w + 1)) outs (lend now ttl w outs).
Proof.
  intros Hnd Ho. unfold lend. destruct (Outputs_reserve_fold (u64 (nextLease w + 1)) (now + ttl_or_default ttl) outs
    (take_lease (drop_expired now w)).2) as (E1 & E2 & E3). split; [done|done|done|by rewrite E1|by rewrite E2|exact E3].
Qed.

Lemma ReserveMatureInputs_spec now h target ttl w r :
  wallet_ok w → total (λ p, Amount (deref w p)) (candidates (drop_expired now w) h) < 2 ^ 64 → Forall (λ o, 0 <= Amount o) (Outputs w) →
  match ReserveMatureInputs now h target ttl (w, r) with
  | (Ok (lease, ins), (w', _)) =>
      granted now h ttl w lease ins w' ∧ target <= sumZ (Amount <$> ins) ∧ ins ≠ [] ∧ (length ins <= maxSelectedInputs)%nat
  | (Err e, (w', _)) => w' = drop_expired now w
  | (Panic, _) => False
  end.
Proof.
  intros Hw Ht Hp. unfold ReserveMatureInputs. cbn [fst snd]. set (w1 := drop_expired now w).
  assert (wallet_ok w1) as Hw1 by exact Hw. assert (∀ p, 0 <= Amount (deref w1 p)) as Hpos.
  { intros p. unfold deref. change (Outputs w1) with (Outputs w). destruct (Outputs w !! p) eqn:E; [|done].
    rewrite Forall_lookup in Hp. by apply (Hp p). }
  pose proof (SelectInputs_outcome (λ p, Amount (deref w1 p)) (λ p, Spent (deref w1 p)) Hpos (candidates w1 h) target r
    (candidates_NoDup _ _)) as Ho.
  assert (unspent (λ p, Spent (deref w1 p)) (candidates w1 h) = candidates w1 h) as Eu.
  { apply filter_id, Forall_forall. intros p (o & _ & -> & Hc)%elem_of_candidates. unfold candidate in Hc. by destruct (Spent o). }
  unfold select_outcome, selection in Ho. rewrite Eu in Ho. specialize (Ho Ht).
  destruct (SelectInputs _ _ _ _ _) as [[sel|e|] r']; [|done|done]. cbn [fst] in Ho. destruct Ho as (Hsub & Hne & Hlen & Hsum).
  assert (NoDup sel) as Hnd by (eapply submseteq_NoDup; [exact Hsub|apply candidates_NoDup]).
  assert (sel ⊆ candidates w1 h) as Hin by (intros x; by apply submseteq_elem_of).
  pose proof (deref_outpoints w1 h sel Hw1 Hnd Hin) as Hd.
  assert (Forall (λ o, o ∈ Outputs w ∧ candidate w1 h o = true) (deref w1 <$> sel)) as Hc.
  { apply Forall_fmap, Forall_forall. intros p Hps. apply Hin in Hps. apply elem_of_candidates in Hps as (o & Hl & E & Hc).
    cbn. rewrite E. split; [by eapply list_elem_of_lookup_2|done]. }
  cbn [take_lease]. rewrite reserve_all_free; [|done|eapply Forall_impl; [exact Hc|]; intros o [_ ?]; by eapply candidate_free].
  split_and!; [exact (lend_granted now h ttl w _ Hd Hc)| |by destruct sel|by rewrite length_fmap].
  unfold total in Hsum. rewrite <- list_fmap_compose. exact Hsum.
Qed.

Lemma ReserveAllMatureInputs_spec now h ttl w (r : R) :
  wallet_ok w →
  match ReserveAllMatureInputs now h ttl (w, r) with
  | (Ok (lease, ins), (w', _)) => granted now h ttl w lease ins w'
  | (Err e, (w', _)) => w' = drop_expired now w
  | (Panic, _) => False
  end.
Proof.
  intros Hw. unfold ReserveAllMatureInputs. cbn [fst snd]. case_decide; [done|].
  set (w1 := drop_expired now w) in *. cbn [take_lease]. apply (lend_granted now h ttl w (deref w1 <$> candidates w1 h)).
  - by apply (deref_outpoints w1 h); [|apply candidates_NoDup|].
  - apply Forall_fmap, Forall_forall. intros p (o & Hl & E & Hc)%elem_of_candidates. cbn. rewrite E.
    split; [by eapply list_elem_of_lookup_2|done].
Qed.

Lemma check_ref_Ok w h ref o : check_ref w h ref = Ok o → o ∈ Outputs w ∧ outpoint o = ref ∧ candidate w h o = true.
Proof.
  unfold check_ref. destruct (by_key w ref) as [x|] eqn:E; [|done]. unfold by_key in E.
  assert (x ∈ filter (λ o, outpoint o = ref) (Outputs w)) as [Hr Hx]%list_elem_of_filter.
  { apply last_Some in E as [l ->]. set_solver. }
  intros Hk. inv_ok. simpl_bools. split_and!; [done|done|]. unfold candidate.
  match goal with Hs : Spent _ = false, Hm : IsOutputMature _ _ = true, Hr : _ !! _ = None, Hf : match inputFilter _ with _ => _ end = _ |- _ =>
    rewrite Hs, Hm, bool_decide_eq_true_2 by exact Hr; revert Hf end.
  by destruct (inputFilter w) as [f|]; [destruct (f _)|].
Qed.

Lemma ReserveSpecificInputs_spec refs now h ttl w (r : R) :
  match ReserveSpecificInputs refs now h ttl (w, r) with
  | (Ok (lease, ins), (w', _)) => granted now h ttl w lease ins w' ∧ outpoint <$> ins = refs
  | (Err e, (w', _)) => w' = drop_expired now w ∨ w' = w
  | (Panic, _) => False
  end.
Proof.
  unfold ReserveSpecificInputs. cbn [fst snd]. case_decide; [by right|]. set (w1 := drop_expired now w).
  unfold check. case_bool_decide as Hd; cbn [mbind result_bind]; [by left|].
  assert (∀ l, match mapM (check_ref w1 h) l with
               | Ok outs => outpoint <$> outs = l ∧ Forall (λ o, o ∈ Outputs w ∧ candidate w1 h o = true) outs
               | Err _ => True | Panic => False end) as Hm.
  { induction l as [|ref l IH]; [done|]. cbn [mapM]. destruct (check_ref w1 h ref) as [o|e|] eqn:E; cbn [mbind result_bind]; [|done|].
    - apply check_ref_Ok in E as (Ho & Er & Hc). destruct (mapM (check_ref w1 h) l) as [outs|e|]; cbn [mbind result_bind]; [|done|done].
      destruct IH as [IH1 IH2]. cbn. rewrite Er, IH1. split; [done|]. by constructor.
    - revert E. unfold check_ref, check. destruct (by_key w1 ref) as [x|]; [|done].
      destruct (Spent x), (IsOutputMature x h), (bool_decide _), (inputFilter w1) as [f|]; cbn; try done; by destruct (f x). }
  specialize (Hm refs). destruct (mapM (check_ref w1 h) refs) as [outs|e|]; cbn [take_lease]; [|by left|done].
  destruct Hm as [Er Hc]. split; [|done]. apply (lend_granted now h ttl w outs); [rewrite Er|done].
  destruct (decide (NoDup refs)); tauto.
Qed.

(** All three at once; the amounts matter to the first only. *)
Definition amounts_fit (w : Wallet) : Prop :=
  Forall (λ o, 0 <= Amount o) (Outputs w) ∧ sumZ (Amount <$> Outputs w) < 2 ^ 64.

Lemma candidates_total w w1 h :
  Outputs w1 = Outputs w → amounts_fit w → total (λ p, Amount (deref w p)) (candidates w1 h) < 2 ^ 64.
Proof.
  intros E [Hp Hs]. assert (∀ p, 0 <= Amount (deref w p)) as Hpos.
  { intros p. unfold deref. destruct (Outputs w !! p) eqn:El; [|done]. rewrite Forall_lookup in Hp. by apply (Hp p). }
  eapply Z.le_lt_trans; [apply (total_submseteq _ Hpos _ (seq 0 (length (Outputs w))))|].
  - unfold candidates. rewrite E. apply sublist_submseteq, sublist_filter.
  - unfold total. replace ((λ p, Amount (deref w p)) <$> seq 0 (length (Outputs w))) with (Amount <$> Outputs w); [done|].
    apply list_eq. intros i. rewrite !list_lookup_fmap. destruct (Outputs w !! i) as [o|] eqn:El.
    + rewrite lookup_seq_lt by by eapply lookup_lt_Some. cbn. by rewrite (deref_lookup _ _ _ El).
    + rewrite lookup_seq_ge by by apply lookup_ge_None_1. done.
Qed.

Lemma reserve_inputs_spec req now h ttl w (r : R) :
  wallet_ok w → amounts_fit w →
  match reserve_inputs req now h ttl (w, r) with
  | (Ok (lease, ins), (w', _)) => granted now h ttl w lease ins w' ∧
      match req with
      | ReqAmount target => target <= sumZ (Amount <$> ins)
      | ReqAll => True
      | ReqOutputs refs => outpoint <$> ins = refs
      end
  | (Err e, (w', _)) => w' = drop_expired now w ∨ w' = w
  | (Panic, _) => False
  end.
Proof.
  intros Hw Ha. destruct req as [target| |refs]; cbn [reserve_inputs].
  - pose proof (ReserveMatureInputs_spec now h target ttl w r Hw (candidates_total w (drop_expired now w) h eq_refl Ha) (proj1 Ha)) as H.
    destruct (ReserveMatureInputs now h target ttl (w, r)) as [[[lease ins]|e|] [w' r']]; [naive_solver|by left|done].
  - pose proof (ReserveAllMatureInputs_spec now h ttl w r Hw) as H.
    destruct (ReserveAllMatureInputs now h ttl (w, r)) as [[[lease ins]|e|] [w' r']]; [done|by left|done].
  - apply ReserveSpecificInputs_spec.
Qed.

(** ** Calls of the wallet *)

(** The calls that neither release the lease [lease] nor mark the output [op]
    as spent, up to the time [deadline]. *)
Inductive wallet_step (lease : Z) (op : reservedOutpoint) (deadline : Z) : Wallet → Wallet → Prop :=
  | ws_add out w : wallet_step lease op deadline w (AddOutput out w)
  | ws_credit now txID amount w : wallet_step lease op deadline w (AddPendingCredit now txID amount w)
  | ws_spent key height w :
      Forall (λ o, OneTimePubKey o = key → outpoint o ≠ op) (Outputs w) →
      wallet_step lease op deadline w (MarkSpent key height w).2
  | ws_spent_by key txID w :
      Forall (λ o, OneTimePubKey o = key → outpoint o ≠ op) (Outputs w) →
      wallet_step lease op deadline w (MarkSpentByTx key txID w).2
  | ws_reconcile isTxAlive w : wallet_step lease op deadline w (ReconcileUnconfirmedSpends isTxAlive w).2
  | ws_rewind height w : wallet_step lease op deadline w (RewindToHeight height w).2
  | ws_synced height w : wallet_step lease op deadline w (SetSyncedHeight height w)
  | ws_filter fn w : wallet_step lease op deadline w (SetInputFilter fn w)
  | ws_release other w : other ≠ lease → wallet_step lease op deadline w (ReleaseInputLease other w)
  | ws_reserve req now h ttl w (r : R) w' r' res :
      now <= deadline → amounts_fit w → reserve_inputs req now h ttl (w, r) = (res, (w', r')) →
      wallet_step lease op deadline w w'.

(** Marks leave the outpoints alone. *)
Lemma mark_spent_outpoints key height l l' o :
  mark_spent key height l = Some (l', o) → outpoint <$> l' = outpoint <$> l ∧
  ∀ op, o = Some op → ∃ out, out ∈ l ∧ OneTimePubKey out = key ∧ outpoint out = op.
Proof.
  revert l'. induction l as [|out l IH]; intros l'; cbn [mark_spent]; [done|]. case_decide as Hk.
  - intros ([l1 o1] & E & [= -> ->])%fmap_Some. destruct (IH _ E) as [IH1 IH2]. cbn. rewrite IH1. split; [done|].
    intros op Eo. destruct (IH2 op Eo) as (x & ? & ? & ?). exists x. split; [by right|done].
  - destruct (Spent out && _); [by intros [= <- <-]|]. destruct (negb _); [|done].
    intros [= <- <-]. split; [done|]. intros op [= <-]. exists out. split; [by left|done].
Qed.

Lemma mark_spent_by_outpoints key txID l l' op :
  mark_spent_by key txID l = Some (l', op) → outpoint <$> l' = outpoint <$> l ∧
  ∃ out, out ∈ l ∧ OneTimePubKey out = key ∧ outpoint out = op.
Proof.
  revert l'. induction l as [|out l IH]; intros l'; cbn [mark_spent_by]; [done|]. destruct (bool_decide _ && _) eqn:Hk.
  - intros [= <- <-]. split; [done|]. exists out. simpl_bools. split; [by left|done].
  - intros ([l1 o1] & E & [= -> ->])%fmap_Some. destruct (IH _ E) as [IH1 (x & ? & ? & ?)]. cbn. rewrite IH1.
    split; [done|]. exists x. split; [by right|done].
Qed.

(** Every call keeps the outpoints different and the lease in force. *)
Lemma wallet_step_ok lease op deadline w w' :
  wallet_step lease op deadline w w' → wallet_ok w → wallet_ok w'.
Proof.
  intros Hs Hw. unfold wallet_ok in *. destruct Hs as [out w|now txID amount w|key height w _|key txID w _|alive w|height w|height w|fn w|other w _|req now h ttl w r w' r' res _ Ha E].
  - unfold AddOutput. destruct (existsb _ _) eqn:E; [done|]. cbn. rewrite fmap_app. apply NoDup_app. split_and!; [done| |apply NoDup_singleton].
    intros x Hx ->%list_elem_of_singleton. apply list_elem_of_fmap in Hx as (o & Eo & Ho).
    apply not_true_iff_false in E. apply E. apply existsb_exists. exists o. split; [by apply list_elem_of_In|]. by apply bool_decide_eq_true.
  - unfold AddPendingCredit. by destruct (_ =? _).
  - unfold MarkSpent. destruct (mark_spent _ _ _) as [[l o]|] eqn:E; [|done]. cbn. by rewrite (proj1 (mark_spent_outpoints _ _ _ _ _ E)).
  - unfold MarkSpentByTx. destruct (mark_spent_by _ _ _) as [[l o]|] eqn:E; [|done]. cbn.
    by rewrite (proj1 (mark_spent_by_outpoints _ _ _ _ _ E)).
  - cbn. rewrite <- list_fmap_compose. erewrite list_fmap_ext; [exact Hw|]. intros i o _. cbn. by destruct (is_dead _ _).
  - unfold RewindToHeight. cbn. assert (NoDup (outpoint <$> (rewind_output height <$> filter (λ o, BlockHeight o <= height) (Outputs w)))) as Hn.
    { rewrite <- list_fmap_compose. erewrite list_fmap_ext with (g := outpoint).
      - eapply sublist_NoDup; [exact Hw|]. apply fmap_sublist, sublist_filter.
      - intros i o _. cbn. unfold rewind_output. by destruct (_ && _). }
    by destruct (_ <? _).
  - done.
  - done.
  - unfold ReleaseInputLease. by destruct (_ =? _).
  - pose proof (reserve_inputs_spec req now h ttl w r Hw Ha) as H. rewrite E in H. destruct res as [[l ins]|e|]; [|destruct H as [->| ->]; exact Hw|done].
    destruct H as [[_ _ _ -> _ _] _]. exact Hw.
Qed.

Lemma wallet_step_held lease op deadline w w' :
  wallet_step lease op deadline w w' → wallet_ok w →
  inputReservations w !! op = Some (MkReservation lease deadline) → inputReservations w' !! op = Some (MkReservation lease deadline).
Proof.
  intros Hs Hw Hop. destruct Hs as [out w|now txID amount w|key height w Hk|key txID w Hk|alive w|height w|height w|fn w|other w Hne|req now h ttl w r w' r' res Hn Ha E].
  - unfold AddOutput. by destruct (existsb _ _).
  - unfold AddPendingCredit. by destruct (_ =? _).
  - unfold MarkSpent. destruct (mark_spent _ _ _) as [[l o]|] eqn:E; [|done]. cbn. destruct o as [op'|]; [|done].
    destruct (proj2 (mark_spent_outpoints _ _ _ _ _ E) op' eq_refl) as (out & Ho & Ek & Eo).
    rewrite Forall_forall in Hk. rewrite lookup_delete_ne; [done|]. rewrite <- Eo. by apply Hk.
  - unfold MarkSpentByTx. destruct (mark_spent_by _ _ _) as [[l op']|] eqn:E; [|done]. cbn.
    destruct (mark_spent_by_outpoints _ _ _ _ _ E) as (_ & out & Ho & Ek & Eo).
    rewrite Forall_forall in Hk. rewrite lookup_delete_ne; [done|]. rewrite <- Eo. by apply Hk.
  - done.
  - unfold RewindToHeight. cbn. by destruct (_ <? _).
  - done.
  - done.
  - unfold ReleaseInputLease. destruct (_ =? _); [done|]. cbn. apply map_lookup_filter_Some. split; [done|]. cbn. congruence.
  - pose proof (reserve_inputs_spec req now h ttl w r Hw Ha) as H. rewrite E in H.
    assert (inputReservations (drop_expired now w) !! op = Some (MkReservation lease deadline)) as Hd by by apply lookup_drop_expired.
    destruct res as [[l ins]|e|]; [|destruct H as [->| ->]; done|done]. destruct H as [[_ _ Ho _ _ ->] _].
    rewrite decide_False; [done|]. intros (o & -> & Hin)%list_elem_of_fmap. rewrite Forall_forall in Ho.
    destruct (Ho o Hin) as [_ Hc%candidate_free]. congruence.
Qed.

Lemma wallet_steps_held lease op deadline w w' :
  rtc (wallet_step lease op deadline) w w' → wallet_ok w →
  inputReservations w !! op = Some (MkReservation lease deadline) →
  wallet_ok w' ∧ inputReservations w' !! op = Some (MkReservation lease deadline).
Proof.
  induction 1 as [|w w1 w' Hs _ IH]; intros Hw Hop; [done|]. apply IH; [by eapply wallet_step_ok|by eapply wallet_step_held].
Qed.

End Reserve.

(** ** Theorem *)

(** C16. A lease is exclusive.  The inputs that [ReserveMatureInputs],
    [ReserveAllMatureInputs] or [ReserveSpecificInputs] hand out are different
    outputs of the wallet, unspent and mature, and reach the amount or are the
    ones asked for; and until the lease ends, whatever other calls the wallet
    serves in the meantime (scans, rewinds, reconciliations, other leases),
    none of these functions hands out one of them again, unless the lease was
    released or the output was marked as spent. *)
Theorem leases_exclusive {R} `{HE : Entropy R} `{!EntropyLaws HE} `{HS : SliceSort} `{!SliceSortLaws HS}
    req now h ttl w (r : R) lease ins w1 r1 :
  wallet_ok w → amounts_fit w → reserve_inputs req now h ttl (w, r) = (Ok (lease, ins), (w1, r1)) →
  NoDup (outpoint <$> ins) ∧ Forall (λ o, o ∈ Outputs w ∧ IsOutputMature o h = true) ins ∧
  match req with
  | ReqAmount target => target <= sumZ (Amount <$> ins)
  | ReqAll => True
  | ReqOutputs refs => outpoint <$> ins = refs
  end ∧
  ∀ out w2 req' now' h' ttl' (r2 : R) lease' ins' s',
    out ∈ ins → rtc (wallet_step (R := R) lease (outpoint out) (now + ttl_or_default ttl)) w1 w2 →
    amounts_fit w2 → now' <= now + ttl_or_default ttl →
    reserve_inputs req' now' h' ttl' (w2, r2) = (Ok (lease', ins'), s') → outpoint out ∉ outpoint <$> ins'.
Proof.
  intros Hw Ha E. pose proof (reserve_inputs_spec req now h ttl w r Hw Ha) as H. rewrite E in H. destruct H as [[_ Hd Ho Eo _ Hh] Hreq].
  split_and!; [done| |done|].
  { eapply Forall_impl; [exact Ho|]. intros o [? Hc]. split; [done|]. unfold candidate in Hc. simpl_bools. done. }
  intros out w2 req' now' h' ttl' r2 lease' ins' [w3 r3] Hin Hs Ha2 Hn E2.
  assert (inputReservations w1 !! outpoint out = Some (MkReservation lease (now + ttl_or_default ttl))) as Hop.
  { rewrite Hh, decide_True; [done|]. by apply list_elem_of_fmap_2. }
  destruct (wallet_steps_held _ _ _ _ _ Hs ltac:(unfold wallet_ok; by rewrite Eo) Hop) as [Hw2 Hop2].
  pose proof (reserve_inputs_spec req' now' h' ttl' w2 r2 Hw2 Ha2) as H2. rewrite E2 in H2. destruct H2 as [[_ _ Ho2 _ _ _] _].
  intros (o & E3 & Hi)%list_elem_of_fmap. rewrite Forall_forall in Ho2. destruct (Ho2 o Hi) as [_ Hc%candidate_free].
  rewrite <- E3 in Hc. pose proof (proj2 (lookup_drop_expired now' w2 _ _) (conj Hop2 Hn)). congruence.
Qed.

(** ** A sample wallet *)

#[local] Existing Instance sample_entropy.
#[local] Existing Instance sample_sort.
#[local] Existing Instance sample_entropy_laws.
#[local] Existing Instance sample_sort_laws.

Definition sample_owned (i : Z) (amount : Z) : OwnedOutput :=
  MkOwnedOutput (zeros 32) i amount noTx noTx (le_bytes 32 i) noTx 5 false false 0 noTx [].

Definition sample_wallet : Wallet :=
  MkWallet (MkStealthKeys noTx noTx noTx noTx) [sample_owned 0 70; sample_owned 1 20; sample_owned 2 5] [] 100 ∅ 0 None.

Definition first_reservation : result (Z * list OwnedOutput) * (Wallet * nat) :=
  reserve_inputs (ReqAmount 25) 0 100 0 (sample_wallet, 3%nat).
Definition second_reservation : result (Z * list OwnedOutput) * (Wallet * nat) :=
  reserve_inputs ReqAll 1000 100 0 first_reservation.2.

(** Lease 1 takes the outputs of 20 and 5, lease 2 gets the rest. *)
Lemma leases_exclusive_witness :
  first_reservation.1 = Ok (1, [sample_owned 1 20; sample_owned 2 5]) ∧
  second_reservation.1 = Ok (2, [sample_owned 0 70]) ∧
  outpoint (sample_owned 1 20) ∉ outpoint <$> [sample_owned 0 70].
Proof.
  assert (first_reservation = (Ok (1, [sample_owned 1 20; sample_owned 2 5]), first_reservation.2)) as E1 by (vm_compute; reflexivity).
  assert (second_reservation = (Ok (2, [sample_owned 0 70]), second_reservation.2)) as E2 by (vm_compute; reflexivity).
  split; [by rewrite E1|]. split; [by rewrite E2|].
  destruct (leases_exclusive (ReqAmount 25) 0 100 0 sample_wallet 3%nat 1 [sample_owned 1 20; sample_owned 2 5]
    first_reservation.2.1 first_reservation.2.2) as (_ & _ & _ & H).
  - unfold wallet_ok. vm_decide.
  - split; [vm_decide|vm_compute; reflexivity].
  - unfold first_reservation in E1. rewrite E1 at 1. by destruct (_.2).
  - eapply (H (sample_owned 1 20) first_reservation.2.1 ReqAll 1000 100 0 first_reservation.2.2 2 _ second_reservation.2).
    + by left.
    + reflexivity.
    + split; [vm_decide|vm_compute; reflexivity].
    + vm_compute. discriminate.
    + rewrite <- E2. unfold second_reservation. by destruct first_reservation as [? []].
Defined.
