(* ===== verification/Builder.v ===== *)
(** * Building transactions ([wallet/builder.go])

    A builder takes reserved inputs, derives the outputs, their blindings and
    the pseudo-outputs that balance them, signs every input and serializes
    the result.  Its configuration is a record of functions, as in the
    source; those that draw randomness or read the chain run in the state [R]
    of their surroundings.  The wallet's own randomness is the padding of
    memos. *)

From S2P Require Import Prelude Bytes Crypto Transaction Block Memo CoinSelect.
From S2P Require Wallet.

Definition IndexedDerivationHeight `{Network} : Z := if IsTestnet then 375 else 6500.

(** [AddU64]: the sum, if it does not overflow. *)
Definition addU64 (a b : Z) : option Z := if a + b <? 2 ^ 64 then Some (a + b) else None.

(** ** Data *)

Record Recipient : Type := MkRecipient {
  RSpendPubKey : bytes;
  RViewPubKey : bytes;
  RAmount : Z;
  RMemo : bytes;
}.

Record TransferResult : Type := MkTransferResult {
  TxData : bytes;
  ResultTxID : bytes;
  TxPrivKey : bytes;
  SpentOutputs : list Wallet.OwnedOutput;
  InputLease : Z;
  ResultFee : Z;
  Change : Z;
}.

Record inputData : Type := MkInputData {
  in_keyImage : bytes;
  in_ringMembers : list bytes;
  in_ringCommitments : list bytes;
  in_pseudoOutput : bytes;
  in_signature : bytes;
}.

Record outputData : Type := MkOutputData {
  out_pubKey : bytes;
  out_commitment : bytes;
  out_rangeProof : bytes;
  out_encryptedAmount : bytes;
  out_encryptedMemo : bytes;
  out_blinding : bytes;
  out_amount : Z;
}.

(** The fields that the builder reads: [DeriveStealthAddressWithKey] and [FeePerByte] are not among them. *)
Record TransferConfig (R : Type) : Type := MkTransferConfig {
  SelectRingMembers : bytes → bytes → M R (list bytes * list bytes * Z);
  CreateCommitment : Z → bytes → bytes;
  CreateRangeProof : Z → bytes → M R bytes;
  SignRingCT : list bytes → list bytes → Z → bytes → bytes → bytes → bytes → bytes → M R (bytes * bytes);
  GenerateBlinding : R → bytes * R;
  ComputeTxID : bytes → result bytes;
  BlindingAdd : bytes → bytes → result bytes;
  BlindingSub : bytes → bytes → result bytes;
  DeriveStealthAddress : bytes → bytes → M R (bytes * bytes * bytes);
  DeriveDeterministicTxKey : option (bytes → list bytes → result bytes);
  GenerateKeyImage : option (bytes → result bytes);
  DeriveSharedSecret : bytes → bytes → result bytes;
  DeriveSharedSecretIndexed : option (bytes → bytes → Z → result bytes);
  ScalarToPoint : option (bytes → result bytes);
  PointAdd : bytes → bytes → result bytes;
  ConfigRingSize : Z;
  MinFee : Z;
}.
Arguments SelectRingMembers {R}. Arguments CreateCommitment {R}. Arguments CreateRangeProof {R}.
Arguments SignRingCT {R}. Arguments GenerateBlinding {R}. Arguments ComputeTxID {R}.
Arguments BlindingAdd {R}. Arguments BlindingSub {R}. Arguments DeriveStealthAddress {R}.
Arguments DeriveDeterministicTxKey {R}. Arguments GenerateKeyImage {R}. Arguments DeriveSharedSecret {R}.
Arguments DeriveSharedSecretIndexed {R}. Arguments ScalarToPoint {R}. Arguments PointAdd {R}.
Arguments ConfigRingSize {R}. Arguments MinFee {R}.

(** ** Serialization *)

Definition out_size (out : outputData) : nat := 32 + 32 + 8 + MemoSize + 4 + length (out_rangeProof out).

Definition write_out (out : outputData) : writer → result writer :=
  w_copy (out_pubKey out) 32 ≫>
  w_copy (out_commitment out) 32 ≫>
  w_copy (out_encryptedAmount out) 8 ≫>
  w_copy (out_encryptedMemo out) MemoSize ≫>
  put_len (out_rangeProof out) ≫>
  w_copy (out_rangeProof out) (length (out_rangeProof out)).

Definition serializeTxPrefix (txPubKey : bytes) (inputCount : nat) (outputs : list outputData) (fee : Z) : result bytes :=
  let size := (1 + 32 + 4 + 4 + 8 + sum_list (out_size <$> outputs))%nat in
  w ← (w_put 1 1 ≫>
       w_copy txPubKey 32 ≫>
       w_put 4 (u32 (Z.of_nat inputCount)) ≫>
       w_put 4 (u32 (Z.of_nat (length outputs))) ≫>
       w_put 8 fee ≫>
       w_each write_out outputs) (Writer (zeros size) 0);
  Ok (w_buf w).

Definition in_size (inp : inputData) : nat :=
  32 + 32 + 4 + length (in_ringMembers inp) * 32 + length (in_ringCommitments inp) * 32 + 4 + length (in_signature inp).

Definition write_in (inp : inputData) : writer → result writer :=
  w_copy (in_keyImage inp) 32 ≫>
  w_copy (in_pseudoOutput inp) 32 ≫>
  put_len (in_ringMembers inp) ≫>
  w_each (λ pk, w_copy pk 32) (in_ringMembers inp) ≫>
  w_each (λ c, w_copy c 32) (in_ringCommitments inp) ≫>
  put_len (in_signature inp) ≫>
  w_copy (in_signature inp) (length (in_signature inp)).

Definition serializeTx (txPubKey : bytes) (inputs : list inputData) (outputs : list outputData) (fee : Z) : result bytes :=
  prefix ← serializeTxPrefix txPubKey (length inputs) outputs fee;
  let size := (length prefix + sum_list (in_size <$> inputs))%nat in
  w ← (w_copy prefix (length prefix) ≫> w_each write_in inputs) (Writer (zeros size) 0);
  Ok (w_buf w).

Definition estimateTxSizeBytes (inputCount outputCount ringSize : Z) : Z :=
  let size := 1 + 32 + 4 + 4 + 8 in
  let maxRangeProofBytes := 1024 in
  let size := size + outputCount * (32 + 32 + 8 + Z.of_nat MemoSize + 4 + maxRangeProofBytes) in
  let ringSigBytes := 96 + 64 * ringSize in
  size + inputCount * (32 + 32 + 4 + ringSize * 32 + ringSize * 32 + 4 + ringSigBytes).

Section Builder.
Context `{Crypto} `{Network} {R : Type} (cfg : TransferConfig R).
(** What [rand.Read] gives for the padding of one memo. *)
Context (draw_padding : R → (nat → option bytes) * R).

(** [scanner.go] *)
Definition DeriveBlinding (sharedSecret : bytes) (outputIndex : Z) : bytes :=
  sha3_256 (bytes_of_string "blocknet_blinding" ++ sharedSecret ++ le_bytes 4 (u32 outputIndex)).

Definition callM {A B} (f : option (A → result B)) (a : A) : result B :=
  match f with Some f => f a | None => Panic end.

Fixpoint sum_amounts (e : error) (total : Z) (l : list Z) : result Z :=
  match l with
  | [] => Ok total
  | x :: l => match addU64 total x with Some t => sum_amounts e t l | None => Err e end
  end.

(** ** Keys *)

Definition deriveDeterministicR (keys : Wallet.StealthKeys) (inputs : list Wallet.OwnedOutput) : M R (bytes * bytes) :=
  match DeriveDeterministicTxKey cfg, GenerateKeyImage cfg, ScalarToPoint cfg with
  | Some derive, Some image, Some to_point =>
      keyImages ← lift (mapM (λ inp, wrap "key image for input %d" (image (Wallet.OneTimePrivKey inp))) inputs);
      txPriv ← lift (wrap "deterministic tx key" (derive (Wallet.ViewPrivKey keys) keyImages));
      txPub ← lift (wrap "scalar to point for R" (to_point txPriv));
      mret (txPriv, txPub)
  | _, _, _ =>
      DeriveStealthAddress cfg (Wallet.SpendPubKey keys) (Wallet.ViewPubKey keys) ≫= λ k : bytes * bytes * bytes,
      let '(rPriv, rPub, _) := k in mret (rPriv, rPub)
  end.

Definition deriveSecret (useIndexed : bool) (txPriv viewPub : bytes) (outputIndex : Z) : result bytes :=
  if useIndexed then
    match DeriveSharedSecretIndexed cfg with
    | Some f => f txPriv viewPub (u32 outputIndex)
    | None => Panic
    end
  else DeriveSharedSecret cfg txPriv viewPub.

(** ** Outputs *)

(** The error messages of the five steps. *)
Record messages : Type := MkMessages {
  msg_secret : string; msg_point : string; msg_key : string; msg_proof : string; msg_memo : string;
}.

Definition encrypt_memo (msg : string) (memo sharedSecret : bytes) (i : Z) : M R bytes := λ r,
  let '(padding, r') := draw_padding r in (wrap msg (EncryptMemo padding memo sharedSecret i), r').

Definition build_output (msgs : messages) (useIndexed : bool) (txPriv spendPub viewPub : bytes) (amount : Z)
    (memo : bytes) (i : Z) : M R outputData :=
  sharedSecret ← lift (wrap (msg_secret msgs) (deriveSecret useIndexed txPriv viewPub i));
  sharedPoint ← lift (wrap (msg_point msgs) (callM (ScalarToPoint cfg) sharedSecret));
  oneTimePub ← lift (wrap (msg_key msgs) (PointAdd cfg sharedPoint spendPub));
  let blinding := DeriveBlinding sharedSecret i in
  let commitment := CreateCommitment cfg amount blinding in
  rangeProof ← wrapM (msg_proof msgs) (CreateRangeProof cfg amount blinding);
  let encryptedAmount := encryptAmount amount blinding i in
  encryptedMemo ← encrypt_memo (msg_memo msgs) memo sharedSecret i;
  mret (MkOutputData oneTimePub commitment rangeProof encryptedAmount encryptedMemo blinding amount).

Definition recipient_messages : messages :=
  MkMessages "failed to derive shared secret for recipient %d" "failed to derive shared point for recipient %d"
    "failed to derive one-time key for recipient %d" "failed to create range proof" "failed to encrypt memo for recipient %d".

Definition change_messages : messages :=
  MkMessages "failed to derive shared secret for change output %d" "failed to derive shared point for change output %d"
    "failed to derive one-time key for change output %d" "failed to create range proof for change output %d"
    "failed to encrypt memo for change output %d".

Fixpoint recipient_outputs (useIndexed : bool) (txPriv : bytes) (outputs : list outputData) (rs : list Recipient)
    : M R (list outputData) :=
  match rs with
  | [] => mret outputs
  | r :: rs =>
      build_output recipient_messages useIndexed txPriv (RSpendPubKey r) (RViewPubKey r) (RAmount r) (RMemo r)
        (Z.of_nat (length outputs)) ≫= λ out : outputData,
      recipient_outputs useIndexed txPriv (outputs ++ [out]) rs
  end.

(** [amounts]: what each of the remaining change outputs receives. *)
Fixpoint change_outputs (useIndexed : bool) (txPriv : bytes) (keys : Wallet.StealthKeys) (outputs : list outputData)
    (amounts : list Z) : M R (list outputData) :=
  match amounts with
  | [] => mret outputs
  | amt :: amounts =>
      build_output change_messages useIndexed txPriv (Wallet.SpendPubKey keys) (Wallet.ViewPubKey keys) amt []
        (Z.of_nat (length outputs)) ≫= λ out : outputData,
      change_outputs useIndexed txPriv keys (outputs ++ [out]) amounts
  end.

(** [perOutput] each, the remainder with the first. *)
Definition split_change (change changeSplit : Z) : list Z :=
  if 0 <? change then
    let n := if change <? changeSplit then change else changeSplit in
    let perOutput := change `div` n in
    let remainder := change `mod` n in
    (λ c, if decide (c = 0%nat) then u64 (perOutput + remainder) else perOutput) <$> seq 0 (Z.to_nat n)
  else [].

(** ** Blindings *)

Fixpoint add_blindings (fmt : string) (sum : bytes) (l : list bytes) : result bytes :=
  match l with
  | [] => Ok sum
  | b :: l => sum ← wrap fmt (BlindingAdd cfg sum b); add_blindings fmt sum l
  end.

Definition sumBlindings (blindings : list bytes) : result bytes :=
  match blindings with
  | [] => Ok (zeros 32)
  | b :: rest => add_blindings "scalar add failed at index %d" b rest
  end.

(** [n] random blindings and their sum. *)
Fixpoint random_blindings (n : nat) (sum : bytes) : M R (list bytes * bytes) := λ r,
  match n with
  | O => (Ok ([], sum), r)
  | S n =>
      let '(b, r1) := GenerateBlinding cfg r in
      match wrap "scalar add failed" (BlindingAdd cfg sum b) with
      | Ok sum =>
          match random_blindings n sum r1 with
          | (Ok (bs, sum), r2) => (Ok (b :: bs, sum), r2)
          | x => x
          end
      | Err e => (Err e, r1)
      | Panic => (Panic, r1)
      end
  end.

Definition distributeBlindings (target : bytes) (count : nat) : M R (list bytes) :=
  match count with
  | O => mret []
  | S O => mret [target]
  | S n =>
      random_blindings n (zeros 32) ≫= λ x : list bytes * bytes,
      last ← lift (wrap "scalar sub failed" (BlindingSub cfg target x.2));
      mret (x.1 ++ [last])
  end.

(** ** Inputs *)

Fixpoint sign_inputs (prefixHash : bytes) (inputs : list Wallet.OwnedOutput) (pseudoBlindings : list bytes)
    : M R (list inputData) :=
  match inputs with
  | [] => mret []
  | inp :: inputs =>
      wrapM "failed to select ring members" (SelectRingMembers cfg (Wallet.OneTimePubKey inp) (Wallet.Commitment inp))
        ≫= λ ring : list bytes * list bytes * Z,
      let '(ringKeys, ringCommitments, secretIndex) := ring in
      match pseudoBlindings with
      | [] => lift Panic
      | pb :: pseudoBlindings =>
          let pseudoCommitment := CreateCommitment cfg (Wallet.Amount inp) pb in
          wrapM "failed to sign input %d"
            (SignRingCT cfg ringKeys ringCommitments secretIndex (Wallet.OneTimePrivKey inp) (Wallet.Blinding inp)
               pseudoCommitment pb prefixHash) ≫= λ sk : bytes * bytes,
          rest ← sign_inputs prefixHash inputs pseudoBlindings;
          mret (MkInputData sk.2 ringKeys ringCommitments pseudoCommitment sk.1 :: rest)
      end
  end.

(** Blindings, signatures and serialization, for given outputs. *)
Definition finish_transaction (txPriv txPub : bytes) (inputs : list Wallet.OwnedOutput) (outputs : list outputData)
    (fee lease change : Z) : M R TransferResult :=
  totalOutputBlinding ← lift (wrap "failed to sum output blindings" (sumBlindings (out_blinding <$> outputs)));
  pseudoBlindings ← wrapM "failed to distribute blindings" (distributeBlindings totalOutputBlinding (length inputs));
  txPrefix ← lift (serializeTxPrefix txPub (length inputs) outputs fee);
  let txPrefixHash := sha3_256 txPrefix in
  inputsData ← sign_inputs txPrefixHash inputs pseudoBlindings;
  txData ← lift (serializeTx txPub inputsData outputs fee);
  txID ← lift (wrap "failed to compute tx ID" (ComputeTxID cfg txData));
  mret (MkTransferResult txData txID txPriv inputs lease fee change).

(** ** The transaction *)

Definition use_indexed (currentHeight : Z) : bool :=
  (IndexedDerivationHeight <=? currentHeight) && bool_decide (is_Some (DeriveSharedSecretIndexed cfg)).

Definition buildTransaction (keys : Wallet.StealthKeys) (inputs : list Wallet.OwnedOutput) (recipients : list Recipient)
    (totalSend fee lease changeSplit currentHeight : Z) : M R TransferResult :=
  totalInput ← lift (sum_amounts (Errorf "input amount sum overflows uint64") 0 (Wallet.Amount <$> inputs));
  match addU64 totalSend fee with
  | None => throw (Errorf "send amount + fee overflows uint64")
  | Some need =>
      checkM (totalInput <? need) (Errorf "insufficient funds after fee adjustment: have %d need %d");;
      let change := totalInput - totalSend - fee in
      let changeSplit := if changeSplit <? 1 then 1 else changeSplit in
      let useIndexed := use_indexed currentHeight in
      wrapM "failed to derive tx key" (deriveDeterministicR keys inputs) ≫= λ k : bytes * bytes,
      recipient_outputs useIndexed k.1 [] recipients ≫= λ outputs : list outputData,
      change_outputs useIndexed k.1 keys outputs (split_change change changeSplit) ≫= λ outputs : list outputData,
      finish_transaction k.1 k.2 inputs outputs fee lease change
  end.

End Builder.

(** ** The configuration the node gives ([createTxBuilder])

    The commitments, the scalar arithmetic and the parser are the node's own;
    the rest are the arguments. *)
Section Wiring.
Context `{Crypto} {R : Type}.

(** 0.00001 BNT *)
Definition sendMinFee : Z := 1000.

Definition createTxBuilder
    (select : bytes → bytes → M R (list bytes * list bytes * Z)) (prove : Z → bytes → M R bytes)
    (sign : list bytes → list bytes → Z → bytes → bytes → bytes → bytes → bytes → M R (bytes * bytes))
    (blinding : R → bytes * R) (stealth : bytes → bytes → M R (bytes * bytes * bytes))
    (txKey : bytes → list bytes → result bytes) (keyImage : bytes → result bytes)
    (secret : bytes → bytes → result bytes) (secretIndexed : bytes → bytes → Z → result bytes)
    (scalarToPubKey : bytes → result bytes) : TransferConfig R :=
  MkTransferConfig R select
    (λ amount b, match CreatePedersenCommitmentWithBlinding amount b with Ok c => c | _ => zeros 32 end)
    prove sign blinding
    (λ txData, tx ← DeserializeTx txData; TxID tx)
    (λ a b, Ok (blocknet_blinding_add a b)) (λ a b, Ok (blocknet_blinding_sub a b))
    stealth (Some txKey) (Some keyImage) secret (Some secretIndexed) (Some scalarToPubKey)
    CommitmentAdd (Z.of_nat RingSize) sendMinFee.

End Wiring.
