(* ===== verification/Transfer.v ===== *)
(** * Transfers ([wallet/builder.go])

    The three ways to send: inputs chosen by amount with a fee that is
    estimated from their number, inputs chosen by the caller, and all inputs.
    Each releases its lease when it fails. *)

From S2P Require Import Prelude Bytes Crypto Transaction Block Memo CoinSelect Builder.
From S2P Require Wallet.

Section Transfer.
Context `{Crypto} `{Network} {R : Type} `{Entropy R} `{SliceSort} (cfg : TransferConfig R).
Context (draw_padding : R → (nat → option bytes) * R).

Definition twoMinutes : Z := 2 * 60 * 1000000000.

(** [max(b.config.MinFee, uint64(estimatedSize)*feeRate)] *)
Definition required_fee (inputs outputs : nat) (feeRate : Z) : Z :=
  let estimatedSize := estimateTxSizeBytes (Z.of_nat inputs) (Z.of_nat outputs) (ConfigRingSize cfg) in
  let f := u64 (u64 estimatedSize * feeRate) in
  if f <? MinFee cfg then MinFee cfg else f.

Definition in_builder {A} (f : M R A) : M (Wallet.Wallet * R) A := λ s,
  let '(x, r) := f s.2 in (x, (s.1, r)).

Definition build (inputs : list Wallet.OwnedOutput) (recipients : list Recipient)
    (totalSend fee lease changeSplit currentHeight : Z) : M (Wallet.Wallet * R) TransferResult := λ s,
  in_builder (buildTransaction cfg draw_padding (Wallet.Keys s.1) inputs recipients totalSend fee lease changeSplit currentHeight) s.

Definition release (lease : Z) (s : Wallet.Wallet * R) : Wallet.Wallet * R :=
  (Wallet.ReleaseInputLease lease s.1, s.2).

(** [defer]: on an error the lease that is held at the end is released. *)
Definition releasing {A} (f : Wallet.Wallet * R → (Z * result A) * (Wallet.Wallet * R)) : M (Wallet.Wallet * R) A := λ s,
  let '((lease, r), s') := f s in
  match r with
  | Err e => (Err e, if negb (lease =? 0) then release lease s' else s')
  | _ => (r, s')
  end.

(** The iterations of input selection and fee estimation; [clock] is the time
    of each. *)
Fixpoint fee_loop (fuel : nat) (clock : nat → Z) (recipients : nat) (totalSend feeRate currentHeight : Z)
    (fee lease : Z) (inputs : list Wallet.OwnedOutput) (s : Wallet.Wallet * R)
    : (Z * result (list Wallet.OwnedOutput * Z)) * (Wallet.Wallet * R) :=
  match fuel with
  | O => ((lease, Ok (inputs, fee)), s)
  | S fuel =>
      match addU64 totalSend fee with
      | None => ((lease, Err (Errorf "send amount + fee overflows uint64")), s)
      | Some need =>
          let s := if negb (lease =? 0) then release lease s else s in
          match Wallet.ReserveMatureInputs (clock fuel) currentHeight need twoMinutes s with
          | (Err e, s) => ((0, Err (Wrapf "insufficient funds: %w" e)), s)
          | (Panic, s) => ((0, Panic), s)
          | (Ok (lease, inputs), s) =>
              match sum_amounts (Errorf "input amount sum overflows uint64") 0 (Wallet.Amount <$> inputs) with
              | Ok totalInput =>
                  if totalInput <? need
                  then ((lease, Err (Errorf "insufficient funds after selection: have %d need %d")), s)
                  else
                    let change := totalInput - totalSend - fee in
                    let outputCount := if 0 <? change then S recipients else recipients in
                    let requiredFee := required_fee (length inputs) outputCount feeRate in
                    if requiredFee <=? fee then ((lease, Ok (inputs, fee)), s)
                    else fee_loop fuel clock recipients totalSend feeRate currentHeight requiredFee lease inputs s
              | Err e => ((lease, Err e), s)
              | Panic => ((lease, Panic), s)
              end
          end
      end
  end.

Definition total_send (recipients : list Recipient) : result Z :=
  sum_amounts (Errorf "recipient amount sum overflows uint64") 0 (RAmount <$> recipients).

Definition Transfer (clock : nat → Z) (recipients : list Recipient) (feeRate currentHeight : Z)
    : M (Wallet.Wallet * R) TransferResult :=
  if decide (recipients = []) then throw (Errorf "no recipients specified")
  else
    totalSend ← lift (total_send recipients);
    releasing (λ s,
      match fee_loop 4 clock (length recipients) totalSend feeRate currentHeight (MinFee cfg) 0 [] s with
      | ((lease, Ok (inputs, fee)), s) =>
          let '(r, s) := build inputs recipients totalSend fee lease 1 currentHeight s in ((lease, r), s)
      | ((lease, Err e), s) => ((lease, Err e), s)
      | ((lease, Panic), s) => ((lease, Panic), s)
      end).

Definition TransferWithInputs (inputs : list Wallet.OwnedOutput) (lease : Z) (recipients : list Recipient)
    (feeRate changeSplit currentHeight : Z) : M (Wallet.Wallet * R) TransferResult :=
  releasing (λ s,
    let '(r, s) :=
      (if decide (recipients = []) then throw (Errorf "no recipients specified")
       else if decide (inputs = []) then throw (Errorf "no inputs specified")
       else
         totalSend ← lift (total_send recipients);
         let changeSplit := if changeSplit <? 1 then 1 else changeSplit in
         let fee := required_fee (length inputs) (length recipients + Z.to_nat changeSplit) feeRate in
         build inputs recipients totalSend fee lease changeSplit currentHeight) s in
    ((lease, r), s)).

Definition all_messages : messages :=
  MkMessages "failed to derive shared secret" "failed to derive shared point" "failed to derive one-time key"
    "failed to create range proof" "failed to encrypt memo".

(** The part of [TransferAll] after the inputs are reserved. *)
Definition sweep (keys : Wallet.StealthKeys) (inputs : list Wallet.OwnedOutput) (recipient : Recipient)
    (lease feeRate currentHeight : Z) : M R TransferResult :=
  checkM (bool_decide (256 < length inputs)%nat) (Errorf "too many outputs to sweep in one transaction (%d, max 256)");;
  totalInput ← lift (sum_amounts (Errorf "input amount sum overflows uint64") 0 (Wallet.Amount <$> inputs));
  let fee := required_fee (length inputs) 1 feeRate in
  checkM (totalInput <=? fee) (Errorf "balance too small to cover fee: have %d, fee %d");;
  let sendAmount := totalInput - fee in
  wrapM "failed to derive tx key" (deriveDeterministicR cfg keys inputs) ≫= λ k : bytes * bytes,
  build_output cfg draw_padding all_messages (use_indexed cfg currentHeight) k.1 (RSpendPubKey recipient) (RViewPubKey recipient)
    sendAmount (RMemo recipient) 0 ≫= λ out : outputData,
  finish_transaction cfg k.1 k.2 inputs [out] fee lease 0.

Definition TransferAll (now : Z) (recipient : Recipient) (feeRate currentHeight : Z) : M (Wallet.Wallet * R) TransferResult :=
  releasing (λ s,
    match Wallet.ReserveAllMatureInputs now currentHeight twoMinutes s with
    | (Ok (lease, inputs), s) =>
        let '(r, s) := in_builder (sweep (Wallet.Keys s.1) inputs recipient lease feeRate currentHeight) s in ((lease, r), s)
    | (Err e, s) => ((0, Err (Wrapf "no spendable outputs: %w" e)), s)
    | (Panic, s) => ((0, Panic), s)
    end).

End Transfer.
