(* ===== verification/RingSelect.v ===== *)
(** * Ring members ([block.go], [SelectRingMembersWithCommitments])

    The decoys of an input are outputs of the main chain other than the real
    one, chosen by a shuffle; the real output takes a random place among
    them. *)

From S2P Require Import Prelude Bytes Crypto Pow Transaction TxCodec Block ExchangeSort Consensus Hoare Reads Difficulty Memo Emission Validation Validity Storage StorageFacts Commit Chain Cache ChainInv Branches CoinSelect CoinSpec.

Record RingMemberData : Type := MkRingMemberData {
  Keys : list bytes;
  Commitments : list bytes;
  SecretIndex : Z;
}.

Section RingSelect.
Context `{HC : Crypto} `{HN : Network} `{HM : MathLib} `{HJ : JSON} {R : Type} `{HE : Entropy R}.

(** The outputs with another key that are on the main chain. *)
Fixpoint decoy_pool (realPubKey : bytes) (allOutputs : list UTXO) : M Chain (list UTXO) :=
  match allOutputs with
  | [] => mret []
  | utxo :: rest =>
      (if decide (PublicKey (Output utxo) = realPubKey) then mret false
       else isCanonicalRingMemberLocked (PublicKey (Output utxo)) (Commitment (Output utxo))) ≫= λ keep : bool,
      pool ← decoy_pool realPubKey rest;
      mret (if keep then utxo :: pool else pool)
  end.

Definition on_chain {A} (f : M Chain A) : M (Chain * R) A := λ s,
  let '(x, c) := f s.1 in (x, (c, s.2)).

Definition all_outputs : M (Chain * R) (list UTXO) := λ s,
  match GetAllOutputs (storage s.1) with
  | (us, None) => (Ok us, s)
  | (_, Some e) => (Err (Wrapf "failed to get outputs: %w" e), s)
  end.

Definition draw (n : nat) : M (Chain * R) nat := λ s,
  match rand_Int n s.2 with
  | (Some j, r) => (Ok j, (s.1, r))
  | (None, r) => (Err (Errorf "secure random failed: %w"), (s.1, r))
  end.

(** Fisher-Yates, from position [i] down to 1. *)
Fixpoint shuffle_pool (i : nat) (l : list UTXO) : M (Chain * R) (list UTXO) :=
  match i with
  | O => mret l
  | S i' => draw (S i) ≫= λ j : nat, shuffle_pool i' (swap i j l)
  end.

(** The places [i], [i+1], ..., [n] of them. *)
Fixpoint place (n i secretIndex : nat) (real : bytes * bytes) (decoys : list UTXO) : result (list (bytes * bytes)) :=
  match n with
  | O => Ok []
  | S n =>
      if decide (i = secretIndex) then rest ← place n (S i) secretIndex real decoys; Ok (real :: rest)
      else
        match decoys with
        | [] => Panic
        | d :: decoys =>
            rest ← place n (S i) secretIndex real decoys;
            Ok ((PublicKey (Output d), Commitment (Output d)) :: rest)
        end
  end.

Definition SelectRingMembersWithCommitments (realPubKey realCommitment : bytes) : M (Chain * R) RingMemberData :=
  all_outputs ≫= λ allOutputs : list UTXO,
  on_chain (decoy_pool realPubKey allOutputs) ≫= λ decoyPool : list UTXO,
  checkM (bool_decide (length decoyPool < RingSize - 1)%nat) (Errorf "not enough outputs for ring (need %d, have %d)");;
  shuffle_pool (length decoyPool - 1) decoyPool ≫= λ decoyPool : list UTXO,
  let decoys := take (RingSize - 1) decoyPool in
  draw RingSize ≫= λ secretIndex : nat,
  ring ← lift (place RingSize 0 secretIndex (realPubKey, realCommitment) decoys);
  mret (MkRingMemberData ring.*1 ring.*2 (Z.of_nat secretIndex)).

(** The wallet's view of it: the chain [c] with its caches, read only. *)
Definition chain_ring (c : Chain) (realPubKey realCommitment : bytes) : M R (list bytes * list bytes * Z) := λ r,
  match SelectRingMembersWithCommitments realPubKey realCommitment (c, r) with
  | (Ok d, (_, r')) => (Ok (Keys d, Commitments d, SecretIndex d), r')
  | (Err e, (_, r')) => (Err e, r')
  | (Panic, (_, r')) => (Panic, r')
  end.

(** ** The ring *)

Section Ring.
Context `{!CryptoLaws HC} `{!JSONLaws HJ} `{!EntropyLaws HE} (main : list Block) (known : bytes → option Block).
#[local] Abbreviation inv := (chain_inv main known).

Definition member (p : bytes * bytes) : Prop :=
  length p.1 = 32%nat ∧ length p.2 = 32%nat ∧ main_ring_member main p.1 p.2 = true.

Definition decoy (u : UTXO) : bytes * bytes := (PublicKey (Output u), Commitment (Output u)).

Lemma decode_outputs_typed vs us : decode_outputs vs = (us, None) → Forall (λ u, wf_output (Output u)) us.
Proof.
  revert us. induction vs as [|v vs IH]; intros us; cbn [decode_outputs]; [intros [= <-]; constructor|].
  destruct (unmarshal_utxo v) as [u [e|]] eqn:E; [done|]. destruct (decode_outputs vs) as [us' e]. intros [= <- ->].
  constructor; [by eapply utxo_typed|by apply IH].
Qed.

Lemma decoy_pool_reads k us c :
  inv c → reads inv same_state (decoy_pool k us) c
    (Ok (filter (λ u, PublicKey (Output u) ≠ k ∧ main_ring_member main (PublicKey (Output u)) (Commitment (Output u)) = true) us)).
Proof.
  revert c. induction us as [|u us IH]; intros c Hi; cbn [decoy_pool]; [by apply (reads_ret inv same_state)|].
  eapply (reads_bind_ok inv same_state _ _ _ (bool_decide (PublicKey (Output u) ≠ k ∧
    main_ring_member main (PublicKey (Output u)) (Commitment (Output u)) = true))).
  { destruct (decide (PublicKey (Output u) = k)) as [Ek|Hne].
    - rewrite bool_decide_eq_false_2 by tauto. by apply (reads_ret inv same_state).
    - destruct (isCanonicalRingMember_reads main known c (PublicKey (Output u)) (Commitment (Output u)) Hi) as (c' & E & H).
      exists c'. rewrite E. split; [|done]. unfold main_ring_member. f_equal. f_equal. apply bool_decide_ext. rewrite bool_decide_eq_true. tauto. }
  intros c1 Hi1 _. eapply (reads_bind_ok inv same_state); [by apply IH|]. intros c2 Hi2 _.
  rewrite filter_cons. case_decide as Hd; [rewrite bool_decide_eq_true_2 by done|rewrite bool_decide_eq_false_2 by done]; by apply (reads_ret inv same_state).
Qed.

Lemma shuffle_pool_perm i l s l' s' : shuffle_pool i l s = (Ok l', s') → l' ≡ₚ l.
Proof.
  revert l s. induction i as [|i IH]; intros l s; cbn [shuffle_pool]; [by intros [= -> _]|].
  intros (j & s1 & _ & E)%M_bind_Ok. apply IH in E. by rewrite E, swap_perm.
Qed.

Lemma place_spec n i k real decoys :
  (n <= length decoys + (if decide (i <= k < i + n)%nat then 1 else 0))%nat →
  ∃ ring, place n i k real decoys = Ok ring ∧ length ring = n ∧
    ((i <= k < i + n)%nat → ring !! (k - i)%nat = Some real) ∧
    Forall (λ p, p = real ∨ p ∈ decoy <$> decoys) ring.
Proof.
  revert i decoys. induction n as [|n IH]; intros i decoys Hl; cbn [place]; [exists []; split_and!; [done|done|lia|constructor]|].
  destruct (decide (i = k)) as [->|Hne].
  - destruct (IH (S k) decoys) as (ring & -> & Lr & _ & HF).
    { rewrite decide_False by lia. rewrite decide_True in Hl by lia. lia. }
    exists (real :: ring). split_and!; [done|by cbn; rewrite Lr|by rewrite Nat.sub_diag|]. constructor; [by left|done].
  - destruct decoys as [|d decoys]; [cbn in Hl; case_decide; lia|].
    destruct (IH (S i) decoys) as (ring & -> & Lr & Hk & HF).
    { cbn [length] in Hl. destruct (decide (i <= k < i + S n)%nat); [rewrite decide_True by lia; lia|]. rewrite decide_False by lia. lia. }
    exists (decoy d :: ring). split_and!; [done|by cbn; rewrite Lr| |].
    + intros Hin. replace (k - i)%nat with (S (k - S i))%nat by lia. cbn. apply Hk. lia.
    + constructor; [right; set_solver|]. eapply Forall_impl; [exact HF|]. intros p [->|Hp]; [by left|]. right. cbn. set_solver.
Qed.

Lemma all_outputs_Ok s us s' : all_outputs s = (Ok us, s') → s' = s ∧ Forall (λ u, wf_output (Output u)) us.
Proof.
  unfold all_outputs, GetAllOutputs, View. destruct (decode_outputs _) as [us' [e|]] eqn:E; [done|]. intros [= <- <-].
  split; [done|]. by eapply decode_outputs_typed.
Qed.

Lemma draw_Ok n s j s' : draw n s = (Ok j, s') → (j < n)%nat.
Proof. unfold draw. destruct (rand_Int n s.2) as [[i|] r] eqn:E; [|done]. intros [= <- _]. by eapply rand_Int_range. Qed.

Lemma SelectRingMembers_ring k cm c r d s' :
  inv c → member (k, cm) → SelectRingMembersWithCommitments k cm (c, r) = (Ok d, s') →
  ∃ ring, Keys d = ring.*1 ∧ Commitments d = ring.*2 ∧ length ring = RingSize ∧
    ring !! Z.to_nat (SecretIndex d) = Some (k, cm) ∧ Forall member ring.
Proof.
  intros Hi Hm E. unfold SelectRingMembersWithCommitments in E.
  apply M_bind_Ok in E as (us & s1 & [-> Ht]%all_outputs_Ok & E). apply M_bind_Ok in E as (pool & s2 & Ep & E).
  unfold on_chain in Ep. cbn [fst snd] in Ep. destruct (decoy_pool_reads k us c Hi) as (c' & E1 & _). rewrite E1 in Ep.
  injection Ep as <- <-. set (pool := filter _ us) in *.
  apply M_bind_Ok in E as (? & ? & [Hl%bool_decide_eq_false ->]%checkM_Ok & E).
  apply M_bind_Ok in E as (pool' & s3 & Hp%shuffle_pool_perm & E). apply M_bind_Ok in E as (i & s4 & Hd%draw_Ok & E).
  apply M_bind_Ok in E as (ring & s5 & [Er _]%lift_Ok & E). injection E as <- _.
  assert (length pool' = length pool) as Lp by by rewrite Hp.
  destruct (place_spec RingSize 0 i (k, cm) (take (RingSize - 1) pool')) as (ring' & Er' & Lr & Hk & HF).
  { rewrite length_take, Lp, decide_True by lia. change RingSize with 16%nat in *. lia. }
  rewrite Er in Er'. injection Er' as <-. exists ring. cbn [Keys Commitments SecretIndex]. rewrite Nat2Z.id.
  split_and!; [done|done|done|by rewrite <- (Nat.sub_0_r i); apply Hk; lia|].
  eapply Forall_impl; [exact HF|]. intros p [->|(u & -> & Hu)%list_elem_of_fmap]; [done|].
  apply elem_of_take in Hu as (n & Hu%list_elem_of_lookup_2 & _). rewrite Hp in Hu.
  apply list_elem_of_filter in Hu as [[_ Hc] Hin]. rewrite Forall_forall in Ht. by destruct (Ht u Hin) as (? & ? & _).
Qed.

End Ring.
End RingSelect.
