(* ===== verification/Scanner.v ===== *)
(** * Scanning blocks for the wallet's outputs ([wallet/scanner.go])

    The scanner derives the shared secret of every output, recognizes its own
    one-time keys, recovers amount, blinding and memo, and notices key images
    of its own outputs.  A callback that returns an error is [None]: the
    scanner only tests for errors.  [blockToScanData] of [cli.go] is the
    conversion the node uses. *)

From S2P Require Import Prelude Bytes Crypto Transaction Block Memo Validation CoinSelect.
From S2P Require Wallet Builder.

(** ** Data *)

Record OutputData : Type := MkOutputData {
  Index : Z;
  PubKey : bytes;
  OutCommitment : bytes;
  OutEncryptedAmount : bytes;
  OutEncryptedMemo : bytes;
}.

Record TxData : Type := MkTxData {
  ScanTxID : bytes;
  TxPubKey : bytes;
  TxIsCoinbase : bool;
  TxOutputs : list OutputData;
  KeyImages : list bytes;
}.

Record BlockData : Type := MkBlockData {
  DataHeight : Z;
  DataTransactions : list TxData;
}.

(** [None]: the callback is nil. *)
Record ScannerConfig : Type := MkScannerConfig {
  GenerateKeyImage : bytes → option bytes;
  CreateCommitment : option (Z → bytes → option bytes);
  ScalarToPoint : option (bytes → option bytes);
  PointAdd : option (bytes → bytes → option bytes);
  BlindingAdd : option (bytes → bytes → option bytes);
}.

(** The wallet's own callbacks. *)
Record WalletCallbacks : Type := MkWalletCallbacks {
  checkStealthOutput : bytes → bytes → bytes → bytes → bool;
  deriveSpendKey : bytes → bytes → bytes → option bytes;
  deriveOutputSecret : bytes → bytes → option bytes;
  deriveOutputSecretIndexed : option (bytes → bytes → Z → option bytes);
}.

(** What a scan changes: the wallet, its counters of undecodable memos, the
    index of key images, and the two results. *)
Record scan : Type := MkScan {
  sc_wallet : Wallet.Wallet;
  memoDecryptFailures : Z;
  memoDecryptLastHeight : Z;
  spendableByKeyImage : gmap bytes (list bytes);
  sc_found : nat;
  sc_spent : nat;
}.

Definition index_add (keyImage pubKey : bytes) (m : gmap bytes (list bytes)) : gmap bytes (list bytes) :=
  <[keyImage := default [] (m !! keyImage) ++ [pubKey]]> m.

Definition DeriveCoinbaseConsensusBlinding `{Crypto} (txPubKey : bytes) (blockHeight outputIndex : Z) : bytes :=
  sha3_256 (bytes_of_string "blocknet_coinbase_consensus_blinding" ++ txPubKey ++ le_bytes 8 blockHeight ++ le_bytes 4 (u32 outputIndex)).

Section Scanner.
Context `{Crypto} `{Network} (cb : WalletCallbacks) (cfg : ScannerConfig).

Definition buildSpendableKeyImageIndex (w : Wallet.Wallet) : gmap bytes (list bytes) :=
  foldl (λ m out,
    match GenerateKeyImage cfg (Wallet.OneTimePrivKey out) with
    | Some keyImage => index_add keyImage (Wallet.OneTimePubKey out) m
    | None => m
    end) ∅ (Wallet.outputsForKeyImageScan w).

(** ** Recognizing an output *)

(** The secret, if it leads to the output's key. *)
Definition try_secret (toPoint : bytes → option bytes) (add : bytes → bytes → option bytes) (spendPub pubKey : bytes)
    (secret : option bytes) : option bytes :=
  secret ← secret;
  point ← toPoint secret;
  expected ← add point spendPub;
  if decide (expected = pubKey) then Some secret else None.

Definition matched_secret (keys : Wallet.StealthKeys) (tx : TxData) (out : OutputData) : option bytes :=
  match ScalarToPoint cfg, PointAdd cfg, BlindingAdd cfg with
  | Some toPoint, Some add, Some _ =>
      let try := try_secret toPoint add (Wallet.SpendPubKey keys) (PubKey out) in
      match (derive ← deriveOutputSecretIndexed cb; try (derive (TxPubKey tx) (Wallet.ViewPrivKey keys) (u32 (Index out)))) with
      | Some secret => Some secret
      | None => try (deriveOutputSecret cb (TxPubKey tx) (Wallet.ViewPrivKey keys))
      end
  | _, _, _ =>
      if checkStealthOutput cb (TxPubKey tx) (PubKey out) (Wallet.ViewPrivKey keys) (Wallet.SpendPubKey keys)
      then deriveOutputSecret cb (TxPubKey tx) (Wallet.ViewPrivKey keys)
      else None
  end.

Definition one_time_priv (keys : Wallet.StealthKeys) (tx : TxData) (secret : bytes) : option bytes :=
  match ScalarToPoint cfg, PointAdd cfg, BlindingAdd cfg with
  | Some _, Some _, Some add => add secret (Wallet.SpendPrivKey keys)
  | _, _, _ => deriveSpendKey cb (TxPubKey tx) (Wallet.ViewPrivKey keys) (Wallet.SpendPrivKey keys)
  end.

(** The opening does not have to fit when there is no callback to test it. *)
Definition commitment_fits (amount : Z) (blinding : bytes) (out : OutputData) : bool :=
  match CreateCommitment cfg with
  | None => true
  | Some commit =>
      match commit amount blinding with
      | None => false
      | Some commitment => bool_decide (commitment = OutCommitment out)
      end
  end.

(** An owned output without its memo, and the secret that decrypts it. *)
Definition recognize (keys : Wallet.StealthKeys) (height : Z) (tx : TxData) (out : OutputData) : option (bytes * Wallet.OwnedOutput) :=
  secret ← matched_secret keys tx out;
  oneTimePriv ← one_time_priv keys tx secret;
  let blinding :=
    if TxIsCoinbase tx then DeriveCoinbaseConsensusBlinding (TxPubKey tx) height (Index out)
    else Builder.DeriveBlinding secret (Index out) in
  let amount := DecryptAmount (OutEncryptedAmount out) blinding (Index out) in
  if commitment_fits amount blinding out then
    Some (secret, Wallet.MkOwnedOutput (ScanTxID tx) (Index out) amount blinding oneTimePriv (PubKey out) (OutCommitment out)
                    height (TxIsCoinbase tx) false 0 Wallet.noTx [])
  else None.

Definition with_memo (memo : bytes) (o : Wallet.OwnedOutput) : Wallet.OwnedOutput :=
  Wallet.MkOwnedOutput (Wallet.TxID o) (Wallet.OutputIndex o) (Wallet.Amount o) (Wallet.Blinding o) (Wallet.OneTimePrivKey o)
    (Wallet.OneTimePubKey o) (Wallet.Commitment o) (Wallet.BlockHeight o) (Wallet.IsCoinbase o) (Wallet.Spent o)
    (Wallet.SpentHeight o) (Wallet.SpentTxID o) memo.

(** ** One block *)

Definition scan_output (keys : Wallet.StealthKeys) (height : Z) (tx : TxData) (s : scan) (out : OutputData) : scan :=
  match recognize keys height tx out with
  | None => s
  | Some (secret, owned) =>
      let memo := if TxIsCoinbase tx then Some [] else DecryptMemo (OutEncryptedMemo out) secret (Index out) in
      let owned := with_memo (default [] memo) owned in
      let failed := bool_decide (memo = None) in
      MkScan (Wallet.AddOutput owned (sc_wallet s))
        (if failed then u64 (memoDecryptFailures s + 1) else memoDecryptFailures s)
        (if failed then height else memoDecryptLastHeight s)
        (match GenerateKeyImage cfg (Wallet.OneTimePrivKey owned) with
         | Some keyImage => index_add keyImage (Wallet.OneTimePubKey owned) (spendableByKeyImage s)
         | None => spendableByKeyImage s
         end) (S (sc_found s)) (sc_spent s)
  end.

Definition mark_owned (height : Z) (s : scan) (pubKey : bytes) : scan :=
  let '(marked, w) := Wallet.MarkSpent pubKey height (sc_wallet s) in
  MkScan w (memoDecryptFailures s) (memoDecryptLastHeight s) (spendableByKeyImage s) (sc_found s)
    (if marked then S (sc_spent s) else sc_spent s).

Definition scan_key_image (height : Z) (s : scan) (keyImage : bytes) : scan :=
  let s := foldl (mark_owned height) s (default [] (spendableByKeyImage s !! keyImage)) in
  MkScan (sc_wallet s) (memoDecryptFailures s) (memoDecryptLastHeight s) (delete keyImage (spendableByKeyImage s))
    (sc_found s) (sc_spent s).

Definition scan_tx (keys : Wallet.StealthKeys) (height : Z) (s : scan) (tx : TxData) : scan :=
  foldl (scan_key_image height) (foldl (scan_output keys height tx) s (TxOutputs tx)) (KeyImages tx).

Definition ScanBlock (block : BlockData) (w : Wallet.Wallet) (failures lastHeight : Z) : scan :=
  foldl (scan_tx (Wallet.Keys w) (DataHeight block)) (MkScan w failures lastHeight (buildSpendableKeyImageIndex w) 0 0)
    (DataTransactions block).

(** The counters run on; the results add up. *)
Definition ScanBlocks (blocks : list BlockData) (w : Wallet.Wallet) (failures lastHeight : Z) : scan :=
  foldl (λ s block,
    let s' := ScanBlock block (sc_wallet s) (memoDecryptFailures s) (memoDecryptLastHeight s) in
    MkScan (Wallet.SetSyncedHeight (DataHeight block) (sc_wallet s')) (memoDecryptFailures s') (memoDecryptLastHeight s') ∅
      (sc_found s + sc_found s') (sc_spent s + sc_spent s')) (MkScan w failures lastHeight ∅ 0 0) blocks.

End Scanner.

(** ** The node's conversion and configuration ([cli.go]) *)

Section Node.
Context `{Crypto}.

Definition output_data (j : nat) (out : TxOutput) : OutputData :=
  MkOutputData (Z.of_nat j) (PublicKey out) (Commitment out) (EncryptedAmount out) (EncryptedMemo out).

Definition tx_data (tx : Transaction) : TxData :=
  MkTxData (match TxID tx with Ok id => id | _ => zeros 32 end) (TxPublicKey tx) (IsCoinbase tx)
    (imap output_data (Outputs tx)) (KeyImage <$> Inputs tx).

Definition blockToScanData (block : Block) : BlockData :=
  MkBlockData (Height (Header block)) (tx_data <$> Transactions block).

Definition ok_of {A} (r : result A) : option A := match r with Ok a => Some a | _ => None end.

Definition defaultScannerConfig (keyImage : bytes → result bytes) (scalarToPubKey : bytes → result bytes) : ScannerConfig :=
  MkScannerConfig (λ k, ok_of (keyImage k)) (Some (λ amount blinding, ok_of (CreatePedersenCommitmentWithBlinding amount blinding)))
    (Some (λ k, ok_of (scalarToPubKey k))) (Some (λ p q, ok_of (CommitmentAdd p q))) (Some (λ a b, Some (blocknet_blinding_add a b))).

End Node.
