(* ===== verification/BuilderSpec.v ===== *)
(** * What the wallet builds

    The builder's serializer writes the node's wire format, its blindings
    balance, and the message it signs is the one the node verifies: a
    transaction it builds is one that the node's validation accepts. *)

From S2P Require Import Prelude Bytes Crypto Instances Pow Transaction TxCodec Block Consensus Reads Difficulty Memo Emission Validation Coinbase Samples Validity Balance CoinSelect Builder.
From S2P Require Wallet.

(** ** Wire format *)

Definition tx_input (i : inputData) : TxInput :=
  MkTxInput (in_keyImage i) (in_ringMembers i) (in_ringCommitments i) (in_pseudoOutput i) (in_signature i).

Definition tx_output (o : outputData) : TxOutput :=
  MkTxOutput (out_commitment o) (out_pubKey o) (out_rangeProof o) (out_encryptedAmount o) (out_encryptedMemo o).

Definition built_tx (txPub : bytes) (ins : list inputData) (outs : list outputData) (fee : Z) : Transaction :=
  MkTransaction 1 (tx_input <$> ins) (tx_output <$> outs) fee txPub.

Definition encode_built_prefix (txPub : bytes) (n : nat) (outs : list outputData) (fee : Z) : bytes :=
  le_bytes 1 1 ++ txPub ++ le_bytes 4 (u32 (Z.of_nat n)) ++ le_bytes 4 (u32 (Z.of_nat (length outs))) ++ le_bytes 8 fee ++
  concat (encode_output <$> (tx_output <$> outs)).

Lemma writes_out o : wf_output (tx_output o) → writes (write_out o) (encode_output (tx_output o)).
Proof. intros (? & ? & ? & ? & ?). unfold write_out, encode_output. cbn in *. auto 10 with writes. Qed.

Lemma writes_in i : wf_input (tx_input i) → writes (write_in i) (encode_input (tx_input i)).
Proof. intros (? & ? & ? & ? & ? & ?). unfold write_in, encode_input. cbn in *. auto 10 with writes. Qed.

Lemma writes_outs outs :
  Forall wf_output (tx_output <$> outs) →
  writes (w_each write_out outs) (concat (encode_output <$> (tx_output <$> outs))).
Proof.
  intros Ho. rewrite <- list_fmap_compose.
  apply (writes_each _ (encode_output ∘ tx_output) (λ o, wf_output (tx_output o))); [intros; by apply writes_out|].
  exact (proj1 (Forall_fmap _ _ _) Ho).
Qed.

Lemma writes_ins ins :
  Forall wf_input (tx_input <$> ins) → writes (w_each write_in ins) (concat (encode_input <$> (tx_input <$> ins))).
Proof.
  intros Hi. rewrite <- list_fmap_compose.
  apply (writes_each _ (encode_input ∘ tx_input) (λ i, wf_input (tx_input i))); [intros; by apply writes_in|].
  exact (proj1 (Forall_fmap _ _ _) Hi).
Qed.

Lemma sum_out_size outs : Forall wf_output (tx_output <$> outs) →
  length (concat (encode_output <$> (tx_output <$> outs))) = sum_list (out_size <$> outs).
Proof. intros Ho. rewrite length_encode_outputs by done. by rewrite <- list_fmap_compose. Qed.

Lemma serializeTxPrefix_encode txPub n outs fee :
  length txPub = 32%nat → Forall wf_output (tx_output <$> outs) →
  serializeTxPrefix txPub n outs fee = Ok (encode_built_prefix txPub n outs fee).
Proof.
  intros Hk Ho. unfold serializeTxPrefix.
  assert (1 + 32 + 4 + 4 + 8 + sum_list (out_size <$> outs) = length (encode_built_prefix txPub n outs fee))%nat as ->.
  { unfold encode_built_prefix. rewrite !length_app, !length_le_bytes, sum_out_size by done. lia. }
  apply writes_all. unfold encode_built_prefix.
  repeat apply writes_seq; try apply writes_put; [by apply writes_copy|by apply writes_outs].
Qed.

Lemma encode_built txPub ins outs fee :
  is_u32 (Z.of_nat (length ins)) → is_u32 (Z.of_nat (length outs)) →
  encode_built_prefix txPub (length ins) outs fee ++ concat (encode_input <$> (tx_input <$> ins))
  = encode (built_tx txPub ins outs fee).
Proof.
  intros Hi Ho. unfold encode_built_prefix, encode, encode_prefix, encode_len. cbn.
  rewrite !length_fmap, !u32_small by done. by rewrite <- !app_assoc.
Qed.

Lemma serializeTx_encode txPub ins outs fee :
  length txPub = 32%nat → Forall wf_output (tx_output <$> outs) → Forall wf_input (tx_input <$> ins) →
  rings_match (built_tx txPub ins outs fee) →
  is_u32 (Z.of_nat (length ins)) → is_u32 (Z.of_nat (length outs)) →
  serializeTx txPub ins outs fee = Ok (encode (built_tx txPub ins outs fee)).
Proof.
  intros Hk Ho Hi Hr Li Lo. unfold serializeTx. rewrite serializeTxPrefix_encode by done. cbn [mbind result_bind].
  rewrite <- encode_built by done. set (p := encode_built_prefix _ _ _ _). set (q := concat _).
  assert (sum_list (in_size <$> ins) = length q) as ->.
  { unfold q. unfold rings_match in Hr. cbn [Inputs built_tx] in Hr. rewrite Forall_fmap in Hr. clear -Hi Hr.
    induction ins as [|i ins IH]; [done|]. rewrite !fmap_cons in *. cbn [concat]. apply Forall_cons in Hi as [Hi His], Hr as [Hm Hms].
    rewrite length_app, length_encode_input, <- IH by done. unfold in_size, input_size. cbn in *. lia. }
  rewrite <- length_app. apply writes_all, writes_seq; [by apply writes_copy|by apply writes_ins].
Qed.

(** ** Balance *)

Section Balance.
Context `{HC : Crypto} `{!CryptoLaws HC}.

Lemma p_sub_self x : p_sub x x = p_zero.
Proof. apply (p_add_cancel _ _ x). by rewrite p_sub_add, p_add_zero. Qed.

Lemma pedersen_cong v r r' : r `mod` group_order = r' `mod` group_order → pedersen v r = pedersen v r'.
Proof. intros E. unfold pedersen. by rewrite <- (p_smul_order r), E, p_smul_order. Qed.

Lemma sum_commitments_openings fmt cs os acc v r :
  opens acc (v, r) → Forall2 opens cs os →
  ∃ c, sum_commitments fmt acc cs = Ok c ∧ opens c (v + sumZ os.*1, r + sumZ os.*2).
Proof.
  intros Ha HF. revert acc v r Ha. induction HF as [|c [v' r'] cs os Hc HF IH]; intros acc v r Ha; cbn [sum_commitments].
  { exists acc. split; [done|]. unfold opens in *. cbn in *. rewrite Ha. do 2 f_equal; lia. }
  unfold opens in Ha, Hc. cbn [fst snd] in Ha, Hc.
  assert (CommitmentAdd acc c = Ok (compress (pedersen (v + v') (r + r')))) as E.
  { apply CommitmentAdd_Ok. exists (pedersen v r), (pedersen v' r'). by rewrite pedersen_add. }
  rewrite E. cbn [wrap mbind result_bind].
  destruct (IH (compress (pedersen (v + v') (r + r'))) (v + v') (r + r')) as (c' & -> & Hc').
  { unfold opens. by rewrite decompress_compress. }
  exists c'. split; [done|]. unfold opens in *. cbn in *. rewrite Hc'. do 2 f_equal; lia.
Qed.

Lemma verifyCommitmentBalance_complete tx ins outs :
  Inputs tx ≠ [] → Outputs tx ≠ [] →
  Forall2 opens (PseudoOutput <$> Inputs tx) ins → Forall2 opens (Commitment <$> Outputs tx) outs →
  sumZ ins.*1 = sumZ outs.*1 + Fee tx → (sumZ ins.*2) `mod` group_order = (sumZ outs.*2) `mod` group_order →
  verifyCommitmentBalance tx = Ok tt.
Proof.
  intros Hi Ho Oi Oo Hv Hr. unfold verifyCommitmentBalance.
  destruct (PseudoOutput <$> Inputs tx) as [|p ps] eqn:Ep; [by destruct (Inputs tx)|].
  destruct (Commitment <$> Outputs tx) as [|c cs] eqn:Ec; [by destruct (Outputs tx)|].
  apply Forall2_cons_inv_l in Oi as ([vi ri] & ins' & Oi & Ois & ->).
  apply Forall2_cons_inv_l in Oo as ([vo ro] & outs' & Oo & Oos & ->).
  destruct (sum_commitments_openings "input %d: invalid pseudo-output commitment" _ _ _ _ _ Oi Ois) as (ci & -> & Hci).
  destruct (sum_commitments_openings "output %d: invalid commitment point" _ _ _ _ _ Oo Oos) as (co & -> & Hco).
  cbn [mbind result_bind]. unfold CreateFeeCommitment, blocknet_fee_commitment. cbn [wrap mbind result_bind].
  unfold opens in Hci, Hco. cbn in Hci, Hco, Hv, Hr. set (a := pedersen (vi + _) _) in *. set (b := pedersen (vo + _) _) in *.
  assert (CommitmentAdd co (compress (p_smul (Fee tx) gen_B)) = Ok (compress (p_add b (p_smul (Fee tx) gen_B)))) as ->.
  { apply CommitmentAdd_Ok. exists b, (p_smul (Fee tx) gen_B). by rewrite decompress_compress. }
  cbn [wrap mbind result_bind].
  assert (CommitmentSub ci (compress (p_add b (p_smul (Fee tx) gen_B))) =
    Ok (compress (p_sub a (p_add b (p_smul (Fee tx) gen_B))))) as ->.
  { apply CommitmentSub_Ok. eexists _, _. by rewrite decompress_compress. }
  cbn [wrap mbind result_bind]. unfold CommitmentIsZero, blocknet_commitment_is_zero. rewrite decompress_compress.
  replace (p_add b (p_smul (Fee tx) gen_B)) with a; [by rewrite p_sub_self, bool_decide_eq_true_2|].
  unfold a, b. rewrite pedersen_value, pedersen_add. rewrite (pedersen_cong _ (ri + sumZ ins'.*2) (ro + sumZ outs'.*2)) by done.
  f_equal; lia.
Qed.

(** *** Scalars *)

#[local] Abbreviation scalars l := (sumZ (scalar_mod_order <$> l)).

Lemma scalar_of_le z : scalar_mod_order (le_bytes 32 (z `mod` group_order)) = z `mod` group_order.
Proof.
  unfold scalar_mod_order. rewrite le_value_bytes.
  pose proof (Z.mod_pos_bound z group_order ltac:(done)) as Hb.
  rewrite (Z.mod_small _ (256 ^ _)); [by rewrite Z.mod_mod|]. split; [lia|].
  eapply Z.lt_trans; [apply Hb|]. vm_compute. reflexivity.
Qed.

Lemma scalar_add a b :
  scalar_mod_order (blocknet_blinding_add a b) = (scalar_mod_order a + scalar_mod_order b) `mod` group_order.
Proof. apply scalar_of_le. Qed.

Lemma scalar_sub a b :
  scalar_mod_order (blocknet_blinding_sub a b) = (scalar_mod_order a - scalar_mod_order b) `mod` group_order.
Proof. apply scalar_of_le. Qed.

Lemma scalar_reduced b : scalar_mod_order b `mod` group_order = scalar_mod_order b.
Proof. unfold scalar_mod_order. by apply Z.mod_mod. Qed.

End Balance.

(** ** What the node's cryptography promises the builder *)

Section Built.
Context `{HC : Crypto} `{!CryptoLaws HC} `{HN : Network} {R : Type}.
Context (select : bytes → bytes → M R (list bytes * list bytes * Z)) (prove : Z → bytes → M R bytes)
        (sign : list bytes → list bytes → Z → bytes → bytes → bytes → bytes → bytes → M R (bytes * bytes))
        (blinding : R → bytes * R) (stealth : bytes → bytes → M R (bytes * bytes * bytes))
        (txKey : bytes → list bytes → result bytes) (keyImage : bytes → result bytes)
        (secret : bytes → bytes → result bytes) (secretIndexed : bytes → bytes → Z → result bytes)
        (scalarToPubKey : bytes → result bytes)
        (draw_padding : R → (nat → option bytes) * R).
(** [owns priv pub]: the private key of an output; [canonical]: the outputs of
    the main chain. *)
Context (owns : bytes → bytes → Prop) (canonical : bytes → bytes → bool).

#[local] Abbreviation cfg := (createTxBuilder select prove sign blinding stealth txKey keyImage secret secretIndexed scalarToPubKey).
#[local] Abbreviation commit := blocknet_pedersen_commit_with_blinding.

(** What the wallet relies on when it asks for a ring: the real output is at the
    secret index, among outputs of the main chain. *)
Definition RingLaw : Prop :=
  ∀ k c r ks cs i r', length k = 32%nat → length c = 32%nat → canonical k c = true → select k c r = (Ok (ks, cs, i), r') →
    length ks = RingSize ∧ length cs = RingSize ∧
    Forall (λ x, length x = 32%nat) ks ∧ Forall (λ x, length x = 32%nat) cs ∧
    ks !! Z.to_nat i = Some k ∧ cs !! Z.to_nat i = Some c ∧ Forall2 (λ m c, canonical m c = true) ks cs.

Record TransferLaws : Prop := {
  (* a range proof verifies for the commitment it was made for *)
  tl_proof : ∀ v b r p r', prove v b r = (Ok p, r') →
    VerifyRangeProof (commit v b) p = Ok tt ∧ Z.of_nat (length p) <= maxProofSize;
  (* a signature made with the key and the openings of the real member verifies and carries
     its key image and the pseudo-output *)
  tl_sign : ∀ ks cs i priv b pseudo pb msg r sig ki r',
    sign ks cs i priv b pseudo pb msg r = (Ok (sig, ki), r') →
    length ki = 32%nat ∧ Z.of_nat (length sig) <= maxSigSize ∧
    (∀ v pub, ks !! Z.to_nat i = Some pub → owns priv pub → cs !! Z.to_nat i = Some (commit v b) → pseudo = commit v pb →
       VerifyRingCT ks cs msg (MkRingCTSignature sig (length ks)) = Ok tt ∧
       ExtractRingCTBinding (MkRingCTSignature sig (length ks)) = Ok (ki, pseudo));
  tl_point : ∀ k p, scalarToPubKey k = Ok p → length p = 32%nat;
}.

(** An output the wallet found: it knows the opening and the key. *)
Definition owned_ok (o : Wallet.OwnedOutput) : Prop :=
  Wallet.Commitment o = commit (Wallet.Amount o) (Wallet.Blinding o) ∧ is_u64 (Wallet.Amount o) ∧
  owns (Wallet.OneTimePrivKey o) (Wallet.OneTimePubKey o) ∧ length (Wallet.OneTimePubKey o) = 32%nat ∧
  canonical (Wallet.OneTimePubKey o) (Wallet.Commitment o) = true.

Context (TL : TransferLaws) (RL : RingLaw).

(** ** Outputs *)

Record good_output (i : Z) (o : outputData) : Prop := {
  go_wf : wf_output (tx_output o);
  go_limit : output_in_limits (tx_output o);
  go_commitment : out_commitment o = commit (out_amount o) (out_blinding o);
  go_proof : VerifyRangeProof (out_commitment o) (out_rangeProof o) = Ok tt;
  go_amount : is_u64 (out_amount o) → DecryptAmount (out_encryptedAmount o) (out_blinding o) i = out_amount o;
}.

Lemma length_encryptAmount v b i : length (encryptAmount v b i) = 8%nat.
Proof. unfold encryptAmount, amountMask. rewrite length_zip_with, length_le_bytes, length_take, sha3_256_length. done. Qed.

(** What the holder of the view key of [vp] finds in the output [o] at index [i]. *)
Definition addressed (ui : bool) (priv sp vp : bytes) (amt : Z) (memo : bytes) (i : Z) (o : TxOutput) : Prop :=
  ∃ s point, deriveSecret cfg ui priv vp i = Ok s ∧ scalarToPubKey s = Ok point ∧ CommitmentAdd point sp = Ok (PublicKey o) ∧
    Commitment o = commit amt (DeriveBlinding s i) ∧
    (is_u64 amt → DecryptAmount (EncryptedAmount o) (DeriveBlinding s i) i = amt) ∧
    DecryptMemo (EncryptedMemo o) s i = Some memo.

Lemma build_output_good msgs ui priv sp vp amt memo i r o r' :
  build_output cfg draw_padding msgs ui priv sp vp amt memo i r = (Ok o, r') →
  good_output i o ∧ out_amount o = amt ∧ addressed ui priv sp vp amt memo i (tx_output o).
Proof.
  unfold build_output. intros E. inv_run. inv_ok.
  match goal with Hp : CreateRangeProof _ _ _ _ = _ |- _ => apply (tl_proof TL) in Hp as [Hv Hl] end.
  match goal with Hm : encrypt_memo _ _ _ _ _ _ = _ |- _ =>
    unfold encrypt_memo in Hm; destruct (draw_padding _) as [pad r2]; injection Hm as Hm _; apply wrap_Ok in Hm;
    apply DecryptMemo_EncryptMemo in Hm as [Hm Hmemo] end.
  match goal with |- _ ∧ _ ∧ ?A => assert A as Had end.
  { eexists _, _. split_and!; [done..| |done]. intros Hu. by apply DecryptAmount_encryptAmount. }
  match goal with Hp : PointAdd _ _ _ = _ |- _ => apply CommitmentAdd_Ok in Hp as (px & py & _ & _ & ->) end.
  split_and!; [|done|exact Had]. split; cbn [tx_output out_commitment out_rangeProof out_amount out_blinding out_encryptedAmount].
  - split_and!; cbn; [apply compress_length|apply compress_length|apply length_encryptAmount|done|].
    unfold is_u32, maxProofSize in *. lia.
  - exact Hl.
  - done.
  - exact Hv.
  - intros Hu. by apply DecryptAmount_encryptAmount.
Qed.

Definition good_outputs (outs : list outputData) : Prop := ∀ i o, outs !! i = Some o → good_output (Z.of_nat i) o.

Lemma good_outputs_snoc outs o : good_outputs outs → good_output (Z.of_nat (length outs)) o → good_outputs (outs ++ [o]).
Proof.
  intros Hs Ho i x [Hx|[Hge Hx]]%lookup_app_Some; [by apply Hs|].
  apply list_lookup_singleton_Some in Hx as [Hi ->]. by replace i with (length outs) by lia.
Qed.

Definition addressed_to (ui : bool) (priv : bytes) (i : nat) (rc : Recipient) (o : outputData) : Prop :=
  addressed ui priv (RSpendPubKey rc) (RViewPubKey rc) (RAmount rc) (RMemo rc) (Z.of_nat i) (tx_output o).

Lemma recipient_outputs_good ui priv outs rs r outs' r' :
  recipient_outputs cfg draw_padding ui priv outs rs r = (Ok outs', r') → good_outputs outs →
  good_outputs outs' ∧ ∃ new, outs' = outs ++ new ∧ out_amount <$> new = RAmount <$> rs ∧
    ∀ k rc, rs !! k = Some rc → ∃ o, new !! k = Some o ∧ addressed_to ui priv (length outs + k) rc o.
Proof.
  revert outs r. induction rs as [|rc rs IH]; intros outs r E Hg; cbn [recipient_outputs] in E.
  { inv_run. injection E as ->. split; [done|]. exists []. by rewrite app_nil_r. }
  apply M_bind_Ok in E as (o & r1 & E1 & E2). apply build_output_good in E1 as (Ho & Ea & Had).
  destruct (IH _ _ E2) as (H1 & new & -> & Hn & Hr); [by apply good_outputs_snoc|]. split; [done|].
  exists (o :: new). rewrite <- app_assoc. cbn. split_and!; [done|by rewrite Ea, Hn|].
  intros [|k] x Hx; cbn in Hx |- *; [injection Hx as <-; exists o; by rewrite Nat.add_0_r|].
  destruct (Hr k x Hx) as (y & Hy & Hadr). exists y. split; [done|]. rewrite length_app in Hadr. cbn in Hadr.
  by replace (length outs + S k)%nat with (length outs + 1 + k)%nat by lia.
Qed.

Lemma change_outputs_good ui priv keys outs amts r outs' r' :
  change_outputs cfg draw_padding ui priv keys outs amts r = (Ok outs', r') → good_outputs outs →
  good_outputs outs' ∧ ∃ new, outs' = outs ++ new ∧ out_amount <$> new = amts.
Proof.
  revert outs r. induction amts as [|amt amts IH]; intros outs r E Hg; cbn [change_outputs] in E.
  { inv_run. injection E as ->. split; [done|]. exists []. by rewrite app_nil_r. }
  apply M_bind_Ok in E as (o & r1 & E1 & E2). apply build_output_good in E1 as (Ho & Ea & _).
  destruct (IH _ _ E2) as (H1 & new & -> & Hn); [by apply good_outputs_snoc|]. split; [done|].
  exists (o :: new). rewrite <- app_assoc. cbn. by rewrite Ea, Hn.
Qed.

(** ** Amounts *)

Lemma sum_amounts_Ok e t l s : 0 <= t → Forall (λ x, 0 <= x) l → sum_amounts e t l = Ok s → s = t + sumZ l ∧ (l = [] ∨ s < 2 ^ 64).
Proof.
  intros Ht HF. revert t Ht. induction HF as [|x l Hx HF IH]; intros t Ht; cbn [sum_amounts]; [intros [= <-]; cbn; split; [lia|by left]|].
  unfold addU64. destruct (Z.ltb_spec (t + x) (2 ^ 64)); [|done]. intros E. apply IH in E as [-> Hl]; [|lia].
  split; [cbn; lia|]. right. destruct Hl as [->|]; [cbn; lia|lia].
Qed.

Lemma sum_amounts_safe e t l : sum_amounts e t l ≠ Panic.
Proof. revert t. induction l as [|x l IH]; intros t; cbn [sum_amounts]; [done|]. by destruct (addU64 t x). Qed.

Lemma sumZ_const n c (l : list nat) : length l = n → sumZ ((λ _, c) <$> l) = Z.of_nat n * c.
Proof. revert n. induction l as [|x l IH]; intros n <-; cbn [fmap list_fmap sumZ length]; [lia|]. rewrite (IH _ eq_refl). lia. Qed.

Lemma split_change_sum change k :
  0 <= change < 2 ^ 64 → 1 <= k → sumZ (split_change change k) = change ∧ Forall is_u64 (split_change change k).
Proof.
  intros Hc Hk. unfold split_change. destruct (Z.ltb_spec 0 change); [|split; [cbn; lia|constructor]].
  set (n := if change <? k then change else k). assert (1 <= n <= change) as Hn.
  { unfold n. destruct (Z.ltb_spec change k); lia. }
  clearbody n. pose proof (Z.div_mod change n ltac:(lia)) as Ed. pose proof (Z.mod_pos_bound change n ltac:(lia)) as Hm.
  pose proof (Z.div_pos change n ltac:(lia) ltac:(lia)) as Hq.
  assert (change `div` n <= change) as Hle by (apply Z.div_le_upper_bound; nia).
  set (q := change `div` n) in *. set (m := change `mod` n) in *. clearbody q m.
  assert (q + m <= change) as Hqm by nia.
  replace (Z.to_nat n) with (S (Z.to_nat (n - 1))) by lia. cbn [seq]. rewrite fmap_cons. cbn [sumZ]. rewrite decide_True by done.
  assert (∀ (a : nat) (l : list nat), (∀ x, x ∈ l → (a <= x)%nat) → (0 < a)%nat → (λ c, if decide (c = 0%nat) then u64 (q + m) else q) <$> l = (λ _, q) <$> l) as Hf.
  { intros a l Hl Ha. apply list_fmap_ext. intros i x Hx%list_elem_of_lookup_2. rewrite decide_False; [done|]. specialize (Hl x Hx). lia. }
  rewrite (Hf 1%nat) by (try lia; intros x; rewrite elem_of_seq; lia). rewrite u64_small by (unfold is_u64; lia). split.
  - rewrite (sumZ_const (Z.to_nat (n - 1))) by apply length_seq. nia.
  - constructor; [unfold is_u64; lia|]. apply Forall_fmap, Forall_true. intros x. unfold is_u64. cbn. lia.
Qed.

(** ** Blindings *)

#[local] Abbreviation scalars l := (sumZ (scalar_mod_order <$> l)).

Lemma add_blindings_scalar fmt l b :
  ∃ s, add_blindings cfg fmt b l = Ok s ∧
       scalar_mod_order s `mod` group_order = (scalar_mod_order b + scalars l) `mod` group_order.
Proof.
  revert b. induction l as [|x l IH]; intros b; cbn [add_blindings]; [exists b; split; [done|]; cbn; by rewrite Z.add_0_r|].
  destruct (IH (blocknet_blinding_add b x)) as (s & Es & Hs). exists s. split; [exact Es|]. rewrite Hs, scalar_add.
  rewrite Zplus_mod_idemp_l. cbn. f_equal. lia.
Qed.

Lemma sumBlindings_scalar bs : ∃ s, sumBlindings cfg bs = Ok s ∧ scalar_mod_order s `mod` group_order = scalars bs `mod` group_order.
Proof.
  destruct bs as [|b bs]; cbn [sumBlindings]; [by exists (zeros 32)|]. destruct (add_blindings_scalar "scalar add failed at index %d" bs b) as (s & -> & Hs).
  by exists s.
Qed.

Lemma random_blindings_scalar n sum r :
  ∃ bs s r', random_blindings cfg n sum r = (Ok (bs, s), r') ∧ length bs = n ∧
    scalar_mod_order s `mod` group_order = (scalar_mod_order sum + scalars bs) `mod` group_order.
Proof.
  revert sum r. induction n as [|n IH]; intros sum r; cbn [random_blindings].
  { exists [], sum, r. split_and!; [done|done|]. cbn. by rewrite Z.add_0_r. }
  cbn [GenerateBlinding createTxBuilder]. destruct (blinding r) as [b r1] eqn:Eb. cbn [BlindingAdd createTxBuilder wrap].
  destruct (IH (blocknet_blinding_add sum b) r1) as (bs & s & r2 & E & Hl & Hs). rewrite E.
  exists (b :: bs), s, r2. split_and!; [done|by cbn; rewrite Hl|]. rewrite Hs, scalar_add, Zplus_mod_idemp_l. cbn. f_equal. lia.
Qed.

Lemma distributeBlindings_scalar target n r :
  n ≠ 0%nat → ∃ bs r', distributeBlindings cfg target n r = (Ok bs, r') ∧ length bs = n ∧
    scalars bs `mod` group_order = scalar_mod_order target `mod` group_order.
Proof.
  intros Hn. destruct n as [|[|n]]; [done| |].
  { exists [target], r. split_and!; [done|done|]. cbn. by rewrite Z.add_0_r. }
  unfold distributeBlindings. destruct (random_blindings_scalar (S n) (zeros 32) r) as (bs & s & r' & E & Hl & Hs).
  unfold mbind, M_bind. rewrite E. cbn [lift wrap BlindingSub createTxBuilder].
  exists (bs ++ [blocknet_blinding_sub target s]), r'. split_and!; [done|rewrite length_app, Hl; cbn; lia|].
  rewrite fmap_app, sumZ_app. cbn [fmap list_fmap sumZ snd]. rewrite Z.add_0_r, scalar_sub, Zplus_mod_idemp_r.
  change (scalar_mod_order (zeros 32)) with 0 in Hs. rewrite Z.add_0_l in Hs.
  rewrite <- Zplus_mod_idemp_l, <- Hs, Zplus_mod_idemp_l. f_equal. lia.
Qed.

(** ** Inputs *)

Record signed_input (msg : bytes) (inp : Wallet.OwnedOutput) (pb : bytes) (d : inputData) : Prop := {
  si_wf : wf_input (tx_input d);
  si_ring : length (in_ringMembers d) = RingSize ∧ length (in_ringCommitments d) = RingSize;
  si_limit : input_in_limits (tx_input d);
  si_pseudo : in_pseudoOutput d = commit (Wallet.Amount inp) pb;
  si_canonical : Forall2 (λ m c, canonical m c = true) (in_ringMembers d) (in_ringCommitments d);
  si_signature : VerifyRingCT (in_ringMembers d) (in_ringCommitments d) msg (input_signature (tx_input d)) = Ok tt;
  si_binding : ExtractRingCTBinding (input_signature (tx_input d)) = Ok (in_keyImage d, in_pseudoOutput d);
}.

Lemma sign_inputs_signed msg inputs pbs r ds r' :
  Forall owned_ok inputs → sign_inputs cfg msg inputs pbs r = (Ok ds, r') → length pbs = length inputs →
  length ds = length inputs ∧
  ∀ i inp pb d, inputs !! i = Some inp → pbs !! i = Some pb → ds !! i = Some d → signed_input msg inp pb d.
Proof.
  intros HF. revert pbs r ds. induction HF as [|inp inputs Ho HF IH]; intros pbs r ds E Hl; cbn [sign_inputs] in E.
  { inv_run. injection E as <-. by split. }
  apply M_bind_Ok in E as ([[ks cs] i] & r1 & E1 & E). apply wrapM_Ok in E1. destruct pbs as [|pb pbs]; [done|].
  apply M_bind_Ok in E as ([sig ki] & r2 & E2 & E). apply wrapM_Ok in E2.
  apply M_bind_Ok in E as (ds' & r3 & E3 & E). inv_run. injection E as <-. cbn [fst snd].
  destruct Ho as (Hcm & Hu & Hk & Lpub & Hcan).
  assert (length (Wallet.Commitment inp) = 32%nat) as Lcm by (rewrite Hcm; apply compress_length).
  destruct (RL _ _ _ _ _ _ _ Lpub Lcm Hcan E1) as (Lk & Lc & Fk & Fc & Ik & Ic & Hr).
  destruct (tl_sign TL _ _ _ _ _ _ _ _ _ _ _ _ E2) as (Lki & Lsig & Hsig). rewrite Hcm in Ic.
  destruct (Hsig _ _ Ik Hk Ic eq_refl) as [Hv Hb]. cbn [length] in Hl. injection Hl as Hl.
  destruct (IH pbs r2 ds' E3 Hl) as [Ld Hd]. split; [by cbn; rewrite Ld|].
  assert (length (commit (Wallet.Amount inp) pb) = 32%nat) as Lp by apply compress_length.
  intros [|j] x y d Hx Hy Hdj; cbn in Hx, Hy, Hdj; [|by eapply Hd]. simplify_eq. split; cbn.
  - unfold maxSigSize in Lsig. split_and!; cbn; [done|done|done|done|rewrite Lk; done|unfold is_u32; change RingSize with 16%nat in *; lia].
  - done.
  - split_and!; cbn; [rewrite Lk; done|congruence|done].
  - done.
  - done.
  - exact Hv.
  - exact Hb.
Qed.

(** ** The finished transaction *)

(** The counts are part of the encoding. *)
Lemma encode_counts tx tx' :
  length (TxPublicKey tx) = 32%nat → length (TxPublicKey tx') = 32%nat →
  is_u32 (Z.of_nat (length (Inputs tx))) → is_u32 (Z.of_nat (length (Outputs tx))) →
  is_u32 (Z.of_nat (length (Inputs tx'))) → is_u32 (Z.of_nat (length (Outputs tx'))) →
  encode tx = encode tx' → length (Inputs tx) = length (Inputs tx') ∧ length (Outputs tx) = length (Outputs tx').
Proof.
  intros Hk Hk' Hi Ho Hi' Ho' E. unfold encode, encode_prefix, encode_len in E. rewrite <- !app_assoc in E.
  apply app_inj_1 in E as [_ E]; [|by rewrite !length_le_bytes]. apply app_inj_1 in E as [_ E]; [|congruence].
  apply app_inj_1 in E as [E1 E]; [|by rewrite !length_le_bytes]. apply app_inj_1 in E as [E2 _]; [|by rewrite !length_le_bytes].
  apply le_bytes_inj in E1, E2; [|done..]. lia.
Qed.

Lemma good_outputs_Forall (P : outputData → Prop) outs :
  good_outputs outs → (∀ i o, good_output i o → P o) → Forall P outs.
Proof. intros Hg HP. apply Forall_lookup. intros i o Ho. eauto. Qed.

Lemma signed_Forall (P : inputData → Prop) msg inputs pbs ds :
  length ds = length inputs → length pbs = length inputs →
  (∀ i inp pb d, inputs !! i = Some inp → pbs !! i = Some pb → ds !! i = Some d → signed_input msg inp pb d) →
  (∀ inp pb d, signed_input msg inp pb d → P d) → Forall P ds.
Proof.
  intros L1 L2 Hs HP. apply Forall_lookup. intros i d Hd. pose proof (lookup_lt_Some _ _ _ Hd) as Hi.
  destruct (lookup_lt_is_Some_2 inputs i ltac:(lia)) as [x Hx], (lookup_lt_is_Some_2 pbs i ltac:(lia)) as [y Hy]. eauto.
Qed.

Lemma pseudo_openings msg inputs pbs ds :
  length ds = length inputs → length pbs = length inputs →
  (∀ i inp pb d, inputs !! i = Some inp → pbs !! i = Some pb → ds !! i = Some d → signed_input msg inp pb d) →
  Forall2 opens (PseudoOutput <$> (tx_input <$> ds)) (zip (Wallet.Amount <$> inputs) (scalar_mod_order <$> pbs)).
Proof.
  intros L1 L2 Hs. apply Forall2_same_length_lookup. split; [rewrite length_zip_with, !length_fmap; lia|].
  intros i c [v r] Hc Hz. rewrite !list_lookup_fmap in Hc. apply lookup_zip_with_Some in Hz as (x & y & Ezv & Hx & Hy).
  injection Ezv as -> ->. rewrite list_lookup_fmap in Hx. rewrite list_lookup_fmap in Hy. destruct (ds !! i) as [d|] eqn:Ed; [|done]. injection Hc as <-.
  destruct (inputs !! i) as [inp|] eqn:Ei; [|done]. injection Hx as <-. destruct (pbs !! i) as [pb|] eqn:Ep; [|done]. injection Hy as <-.
  unfold opens. cbn. rewrite (si_pseudo _ _ _ _ (Hs i _ _ _ Ei Ep Ed)). apply decompress_compress.
Qed.

Lemma output_openings outs :
  good_outputs outs →
  Forall2 opens (Commitment <$> (tx_output <$> outs)) (zip (out_amount <$> outs) (scalar_mod_order <$> (out_blinding <$> outs))).
Proof.
  intros Hg. apply Forall2_same_length_lookup. split; [rewrite length_zip_with, !length_fmap; lia|].
  intros i c [v r] Hc Hz. rewrite !list_lookup_fmap in Hc. apply lookup_zip_with_Some in Hz as (x & y & Ezv & Hx & Hy).
  injection Ezv as -> ->. rewrite list_lookup_fmap in Hx. rewrite !list_lookup_fmap in Hy. destruct (outs !! i) as [o|] eqn:Eo; [|done]. injection Hc as <-. injection Hx as <-. injection Hy as <-.
  unfold opens. cbn. rewrite (go_commitment _ _ (Hg _ _ Eo)). apply decompress_compress.
Qed.

(** What is true of a finished transaction. *)
Record finished (txPub : bytes) (inputs : list Wallet.OwnedOutput) (outs : list outputData) (fee : Z) (res : TransferResult)
    (tx : Transaction) : Prop := {
  fi_data : DeserializeTx (TxData res) = Ok tx;
  fi_id : TxID tx = Ok (ResultTxID res);
  fi_tx : ∃ ds, tx = built_tx txPub ds outs fee ∧ length ds = length inputs;
  fi_wf : wf_tx tx;
  fi_balance : verifyCommitmentBalance tx = Ok tt;
  fi_inputs : ∀ spent, Forall (λ ki, spent ki = false) (key_images tx) → Forall (valid_input spent canonical tx) (Inputs tx);
}.

Lemma signing_hash txPub ds outs fee :
  wf_tx (built_tx txPub ds outs fee) → is_u32 (Z.of_nat (length ds)) → is_u32 (Z.of_nat (length outs)) →
  SigningHash (built_tx txPub ds outs fee) = Ok (sha3_256 (encode_built_prefix txPub (length ds) outs fee)).
Proof.
  intros Hwf Hi Ho. unfold SigningHash. rewrite SigningPrefix_encode by done. cbn [mbind result_bind]. do 2 f_equal.
  unfold encode_built_prefix, encode_prefix, encode_len. cbn. rewrite !length_fmap, !u32_small by done. by rewrite <- !app_assoc.
Qed.

Lemma built_wf txPub ds outs fee :
  length txPub = 32%nat → is_u64 fee → Forall (λ d, wf_input (tx_input d)) ds → good_outputs outs →
  is_u32 (Z.of_nat (length ds)) → is_u32 (Z.of_nat (length outs)) → wf_tx (built_tx txPub ds outs fee).
Proof.
  intros Hk Hf Hi Hg Li Lo. split_and!; cbn; rewrite ?length_fmap; [done|done..| |].
  - by apply Forall_fmap.
  - apply Forall_fmap, good_outputs_Forall; [done|]. intros i o Ho. apply (go_wf _ _ Ho).
Qed.

(** A well-formed transaction whose encoding parses is the one parsed. *)
Lemma DeserializeTx_built txPub ds outs fee tx :
  wf_tx (built_tx txPub ds outs fee) → Forall (λ d, input_in_limits (tx_input d)) ds → good_outputs outs →
  DeserializeTx (encode (built_tx txPub ds outs fee)) = Ok tx → tx = built_tx txPub ds outs fee.
Proof.
  intros Hwf Hl Hg E. pose proof (DeserializeTx_consumed _ _ E) as (Hwf' & (Ni & No & _) & Ee).
  pose proof Hwf as (Hv & Hf & Hk & Li & Lo & Hi & Ho). destruct Hwf' as (_ & _ & Hk' & Li' & Lo' & _).
  destruct (encode_counts _ _ Hk Hk' Li Lo Li' Lo' Ee) as [Ei Eo].
  rewrite DeserializeTx_encode in E; [by injection E|done|]. split_and!; [by rewrite Ei|by rewrite Eo| |].
  - by apply Forall_fmap.
  - apply Forall_fmap, good_outputs_Forall; [done|]. intros i o Hg'. apply (go_limit _ _ Hg').
Qed.

Lemma fst_zip_same {A B} (l : list A) (k : list B) : length l = length k → (zip l k).*1 = l.
Proof. intros E. apply fst_zip. lia. Qed.

Lemma snd_zip_same {A B} (l : list A) (k : list B) : length l = length k → (zip l k).*2 = k.
Proof. intros E. apply snd_zip. lia. Qed.

(** What the wallet puts in balances: the pseudo-outputs hide the inputs, their blindings
    add up to those of the outputs. *)
Lemma built_balance msg txPub inputs pbs ds outs fee :
  inputs ≠ [] → outs ≠ [] → good_outputs outs → length ds = length inputs → length pbs = length inputs →
  (∀ i inp pb d, inputs !! i = Some inp → pbs !! i = Some pb → ds !! i = Some d → signed_input msg inp pb d) →
  sumZ (Wallet.Amount <$> inputs) = sumZ (out_amount <$> outs) + fee →
  scalars pbs `mod` group_order = scalars (out_blinding <$> outs) `mod` group_order →
  verifyCommitmentBalance (built_tx txPub ds outs fee) = Ok tt.
Proof.
  intros Hin Hout Hg Ld Lp Hs Hsum Hb.
  apply (verifyCommitmentBalance_complete _ (zip (Wallet.Amount <$> inputs) (scalar_mod_order <$> pbs))
    (zip (out_amount <$> outs) (scalar_mod_order <$> (out_blinding <$> outs)))); cbn.
  - destruct inputs; [done|]. by destruct ds.
  - by destruct outs.
  - by eapply pseudo_openings.
  - by apply output_openings.
  - by rewrite !fst_zip_same by (rewrite !length_fmap; lia).
  - by rewrite !snd_zip_same by (rewrite !length_fmap; lia).
Qed.

Lemma good_outputs_wf outs : good_outputs outs → Forall wf_output (tx_output <$> outs).
Proof. intros Hg. apply Forall_fmap, good_outputs_Forall; [done|]. intros i o Ho. apply (go_wf _ _ Ho). Qed.

Lemma signed_inputs_valid txPub inputs pbs ds outs fee msg spent :
  wf_tx (built_tx txPub ds outs fee) → SigningHash (built_tx txPub ds outs fee) = Ok msg →
  length ds = length inputs → length pbs = length inputs →
  (∀ i inp pb d, inputs !! i = Some inp → pbs !! i = Some pb → ds !! i = Some d → signed_input msg inp pb d) →
  Forall (λ ki, spent ki = false) (key_images (built_tx txPub ds outs fee)) →
  Forall (valid_input spent canonical (built_tx txPub ds outs fee)) (Inputs (built_tx txPub ds outs fee)).
Proof.
  intros Hwf Hh L1 L2 Hs Hsp. unfold key_images in Hsp. cbn in Hsp |- *. rewrite !Forall_fmap in Hsp. apply Forall_fmap.
  assert (Forall (λ d, ∃ inp pb, signed_input msg inp pb d) ds) as Hd by (eapply signed_Forall; eauto).
  eapply Forall_impl; [exact (proj2 (Forall_and _ _) (conj Hd Hsp))|]. intros d [(inp & pb & S) Hd']. cbn.
  destruct (si_ring _ _ _ _ S). split_and!; cbn; [done|done|by eapply si_canonical|exists msg; split; [done|by eapply si_signature]| |done].
  by eapply si_binding.
Qed.

Lemma finished_intro txPub inputs pbs ds outs fee data id txPriv lease change :
  length txPub = 32%nat → is_u64 fee → inputs ≠ [] → outs ≠ [] → good_outputs outs →
  is_u32 (Z.of_nat (length inputs)) → is_u32 (Z.of_nat (length outs)) →
  sumZ (Wallet.Amount <$> inputs) = sumZ (out_amount <$> outs) + fee →
  scalars pbs `mod` group_order = scalars (out_blinding <$> outs) `mod` group_order →
  length ds = length inputs → length pbs = length inputs →
  (∀ i inp pb d, inputs !! i = Some inp → pbs !! i = Some pb → ds !! i = Some d →
     signed_input (sha3_256 (encode_built_prefix txPub (length inputs) outs fee)) inp pb d) →
  serializeTx txPub ds outs fee = Ok data → ComputeTxID cfg data = Ok id →
  ∃ tx, finished txPub inputs outs fee (MkTransferResult data id txPriv inputs lease fee change) tx.
Proof.
  intros Hk Hf Hin Hout Hg Li Lo Hsum Hb Ld Lp Hs Edata Eid.
  assert (is_u32 (Z.of_nat (length ds))) as Lds by by rewrite Ld.
  assert (Forall (λ d, wf_input (tx_input d)) ds) as Wi by (eapply signed_Forall; eauto using si_wf).
  assert (Forall (λ d, input_in_limits (tx_input d)) ds) as Wl by (eapply signed_Forall; eauto using si_limit).
  pose proof (built_wf txPub ds outs fee Hk Hf Wi Hg Lds Lo) as Hwf.
  rewrite serializeTx_encode in Edata; [|done|by apply good_outputs_wf|by apply Forall_fmap| |done|done].
  2: { unfold rings_match. cbn. apply Forall_fmap. eapply Forall_impl; [exact Wl|]. by intros d (_ & ? & _). }
  injection Edata as <-. cbn [ComputeTxID createTxBuilder] in Eid. apply bind_Ok in Eid as (tx & Etx & Eid).
  pose proof (DeserializeTx_built _ _ _ _ _ Hwf Wl Hg Etx) as ->.
  exists (built_tx txPub ds outs fee). split; cbn [TxData ResultTxID]; [done|done|by exists ds|done| |].
  - by eapply built_balance.
  - intros spent Hsp. eapply signed_inputs_valid; [done| |done|exact Lp| |done]; [by rewrite signing_hash by done|]. by rewrite Ld.
Qed.

Lemma finish_transaction_spec txPriv txPub inputs outs fee lease change r res r' :
  length txPub = 32%nat → is_u64 fee → inputs ≠ [] → outs ≠ [] → Forall owned_ok inputs → good_outputs outs →
  is_u32 (Z.of_nat (length inputs)) → is_u32 (Z.of_nat (length outs)) →
  sumZ (Wallet.Amount <$> inputs) = sumZ (out_amount <$> outs) + fee →
  finish_transaction cfg txPriv txPub inputs outs fee lease change r = (Ok res, r') →
  (∃ tx, finished txPub inputs outs fee res tx) ∧
  res = MkTransferResult (TxData res) (ResultTxID res) txPriv inputs lease fee change.
Proof.
  intros Hk Hf Hin Hout Ho Hg Li Lo Hsum E. unfold finish_transaction in E. inv_run. inv_ok.
  match goal with H : sumBlindings _ _ = Ok ?b |- _ => rename b into ob;
    destruct (sumBlindings_scalar (out_blinding <$> outs)) as (ob' & Eob & Hob); rewrite H in Eob; injection Eob as <- end.
  match goal with H : distributeBlindings _ _ _ _ = (Ok ?b, _) |- _ => rename b into pbs;
    destruct (distributeBlindings_scalar ob (length inputs) r) as (pbs' & r1 & Epb & Lpb & Hpb); [by destruct inputs|];
    rewrite H in Epb; injection Epb as <- <- end.
  match goal with H : serializeTxPrefix _ _ _ _ = _ |- _ =>
    rewrite serializeTxPrefix_encode in H by (done || by apply good_outputs_wf); injection H as <- end.
  match goal with H : sign_inputs _ _ _ _ _ = _ |- _ => apply sign_inputs_signed in H as [Ld Hs]; [|done|done] end.
  split; [|done]. eapply finished_intro with (pbs := pbs); eauto; congruence.
Qed.

(** ** The transaction *)

Record paid (h : Z) (recipients : list Recipient) (res : TransferResult) (tx : Transaction) : Prop := {
  pd_data : DeserializeTx (TxData res) = Ok tx;
  pd_id : TxID tx = Ok (ResultTxID res);
  pd_fee : Fee tx = ResultFee res;
  pd_key : scalarToPubKey (TxPrivKey res) = Ok (TxPublicKey tx);
  pd_inputs : Inputs tx ≠ [];
  pd_amounts : sumZ (Wallet.Amount <$> SpentOutputs res) = sumZ (RAmount <$> recipients) + Change res + ResultFee res;
  pd_change : 0 <= Change res;
  pd_recipients : ∀ k rc, recipients !! k = Some rc → ∃ o, Outputs tx !! k = Some o ∧
    addressed (use_indexed cfg h) (TxPrivKey res) (RSpendPubKey rc) (RViewPubKey rc) (RAmount rc) (RMemo rc) (Z.of_nat k) o;
  pd_valid : ∀ spent,
    NoDup (key_images tx) → Forall (λ ki, spent ki = false) (key_images tx) →
    Forall (λ o, EncryptedMemo o ≠ zeroMemo) (Outputs tx) → valid_tx spent canonical tx;
}.

Lemma deriveDeterministicR_point keys inputs r k r' :
  deriveDeterministicR cfg keys inputs r = (Ok k, r') → scalarToPubKey k.1 = Ok k.2 ∧ length k.2 = 32%nat.
Proof. unfold deriveDeterministicR. cbn [DeriveDeterministicTxKey GenerateKeyImage ScalarToPoint createTxBuilder]. intros E. inv_run. inv_ok. split; [done|by eapply (tl_point TL)]. Qed.

Lemma good_outputs_nil : good_outputs [].
Proof. by intros i o. Qed.

Lemma finished_valid txPub inputs outs fee res tx spent :
  finished txPub inputs outs fee res tx → good_outputs outs → inputs ≠ [] →
  NoDup (key_images tx) → Forall (λ ki, spent ki = false) (key_images tx) →
  Forall (λ o, EncryptedMemo o ≠ zeroMemo) (Outputs tx) → valid_tx spent canonical tx.
Proof.
  intros F Hg Hin Hnd Hsp Hm. pose proof (fi_inputs _ _ _ _ _ _ F spent Hsp) as Hv. pose proof (fi_balance _ _ _ _ _ _ F) as Hb.
  destruct (fi_tx _ _ _ _ _ _ F) as (ds & -> & Ld). split; [done|]. right. split_and!; [|done|done| |done].
  - cbn. destruct inputs; [done|]. by destruct ds.
  - apply Forall_and. split; [done|]. cbn. apply Forall_fmap, good_outputs_Forall; [done|]. intros i o Ho. apply (go_proof _ _ Ho).
Qed.

Lemma length_split_change change k : 1 <= k → Z.of_nat (length (split_change change k)) <= k.
Proof.
  intros Hk. unfold split_change. destruct (0 <? change); [|cbn; lia]. rewrite length_fmap, length_seq.
  destruct (Z.ltb_spec change k); lia.
Qed.

Lemma buildTransaction_paid keys inputs recipients totalSend fee lease changeSplit h r res r' :
  Forall owned_ok inputs → inputs ≠ [] → recipients ≠ [] → is_u64 fee → is_u32 (Z.of_nat (length inputs)) →
  Forall is_u64 (RAmount <$> recipients) → totalSend = sumZ (RAmount <$> recipients) →
  is_u32 (Z.of_nat (length recipients) + Z.max 1 changeSplit) →
  buildTransaction cfg draw_padding keys inputs recipients totalSend fee lease changeSplit h r = (Ok res, r') →
  (∃ tx, paid h recipients res tx) ∧ SpentOutputs res = inputs ∧ InputLease res = lease ∧ ResultFee res = fee.
Proof.
  intros Ho Hin Hrc Hf Li Hu -> Lr E. unfold buildTransaction in E.
  apply M_bind_Ok in E as (tot & r0 & [Et ->]%lift_Ok & E).
  assert (Forall (λ x, 0 <= x) (Wallet.Amount <$> inputs)) as Hpos.
  { apply Forall_fmap. eapply Forall_impl; [exact Ho|]. intros o (_ & Hu' & _). unfold is_u64 in Hu'. cbn. lia. }
  apply sum_amounts_Ok in Et as [Et Hlt]; [|lia|done]. rewrite Z.add_0_l in Et.
  destruct Hlt as [Hlt|Hlt]; [by destruct inputs|]. unfold addU64 in E. set (ts := sumZ (RAmount <$> recipients)) in *.
  destruct (Z.ltb_spec (ts + fee) (2 ^ 64)); [|done]. apply M_bind_Ok in E as (? & ? & [Hge%Z.ltb_ge ->]%checkM_Ok & E).
  set (k := if changeSplit <? 1 then 1 else changeSplit) in *.
  assert (k = Z.max 1 changeSplit) as Ek by (unfold k; destruct (Z.ltb_spec changeSplit 1); lia).
  assert (0 <= ts) as Hts by (apply sumZ_nonneg; eapply Forall_impl; [exact Hu|]; intros y [? _]; done).
  destruct (split_change_sum (tot - ts - fee) k) as [Hsum _]; [unfold is_u64 in Hf; lia|lia|].
  pose proof (length_split_change (tot - ts - fee) k ltac:(lia)) as Hsl. clearbody k.
  apply M_bind_Ok in E as (kp & r1 & [Ekp Lkp]%wrapM_Ok%deriveDeterministicR_point & E).
  apply M_bind_Ok in E as (o1 & r2 & Eo1 & E). apply M_bind_Ok in E as (o2 & r3 & Eo2 & E).
  apply recipient_outputs_good in Eo1 as (Hg1 & new1 & -> & Hn1 & Hadr); [|apply good_outputs_nil]. rewrite app_nil_l in *.
  apply change_outputs_good in Eo2 as (Hg2 & new2 & -> & Hn2); [|done].
  assert (length new1 = length recipients) as L1 by (by rewrite <- (length_fmap out_amount), Hn1, length_fmap).
  assert (length new2 = length (split_change (tot - ts - fee) k)) as L2 by (by rewrite <- Hn2, length_fmap).
  apply finish_transaction_spec in E as [[tx F] ->]; [|done|done|done| |done|done|done| |].
  - split; [|done]. exists tx. split; cbn; [by eapply fi_data|by eapply fi_id| | | |lia|unfold is_u64 in Hf; lia| |].
    + by destruct (fi_tx _ _ _ _ _ _ F) as (ds & -> & _).
    + by destruct (fi_tx _ _ _ _ _ _ F) as (ds & -> & _).
    + destruct (fi_tx _ _ _ _ _ _ F) as (ds & -> & Ld). cbn. destruct inputs; [done|]. by destruct ds.
    + intros i rc Hi. destruct (Hadr i rc Hi) as (o & Hl & Had). destruct (fi_tx _ _ _ _ _ _ F) as (ds & -> & _). exists (tx_output o).
      split; [|exact Had]. cbn. rewrite list_lookup_fmap. by rewrite (lookup_app_l_Some _ _ _ _ Hl).
    + intros spent. by eapply finished_valid.
  - destruct recipients; [done|]. by destruct new1.
  - unfold is_u32 in *. rewrite length_app. lia.
  - rewrite fmap_app, sumZ_app, Hn1, Hn2, Hsum. fold ts. lia.
Qed.

End Built.
