(* ===== verification/TransferSpec.v ===== *)
(** * Transfers

    [Transfer] as a whole: the inputs it selects and leases, the fee it
    settles on, the transaction it builds, and the lease it gives back when
    it fails. *)

From S2P Require Import Prelude Bytes Crypto Instances Pow Transaction TxCodec Block Consensus Reads Difficulty Memo Emission Validation Coinbase Samples Validity Balance Storage StorageFacts Commit Chain Cache ChainInv Branches CoinSelect CoinSpec RingSelect Builder Transfer BuilderSpec.
From S2P Require Wallet WalletSpec.

Section TransferSpec.
Context `{HC : Crypto} `{!CryptoLaws HC} `{HN : Network} {R : Type} `{HE : Entropy R} `{!EntropyLaws HE} `{HS : SliceSort} `{!SliceSortLaws HS}.

(** ** Leases during the search for a fee *)

(** Against the wallet [w0] at the start only reservations with [lease] are new. *)
Definition only_lease (w0 : Wallet.Wallet) (lease : Z) (w : Wallet.Wallet) : Prop :=
  Wallet.Outputs w = Wallet.Outputs w0 ∧
  ∀ op x, Wallet.inputReservations w !! op = Some x →
    Wallet.inputReservations w0 !! op = Some x ∨ (lease ≠ 0 ∧ Wallet.lease_of x = lease).

(** Different unspent mature outputs, all of them leased. *)
Record leased (w0 : Wallet.Wallet) (h lease : Z) (ins : list Wallet.OwnedOutput) (w : Wallet.Wallet) : Prop := {
  ls_some : ins ≠ [];
  ls_count : (length ins <= maxSelectedInputs)%nat;
  ls_distinct : NoDup (Wallet.outpoint <$> ins);
  ls_owned : Forall (λ o, o ∈ Wallet.Outputs w0 ∧ Wallet.Spent o = false ∧ Wallet.IsOutputMature o h = true) ins;
  ls_held : Forall (λ o, ∃ e, Wallet.inputReservations w !! Wallet.outpoint o = Some (Wallet.MkReservation lease e)) ins;
}.

Lemma only_lease_release w0 lease w :
  only_lease w0 lease w → only_lease w0 0 (if negb (lease =? 0) then Wallet.ReleaseInputLease lease w else w).
Proof.
  intros [Ho Hr]. unfold Wallet.ReleaseInputLease. destruct (Z.eqb_spec lease 0) as [->|Hne]; cbn [negb]; [by split|]. split; [done|].
  cbn. intros op x [Hx Hl]%map_lookup_filter_Some. cbn in Hl. destruct (Hr op x Hx) as [|[_ ?]]; [by left|done].
Qed.

(** The wallet after [defer] on an error. *)
Lemma failed_released w0 lease w (r : R) :
  only_lease w0 lease w →
  let '(w', _) := if negb (lease =? 0) then release lease (w, r) else (w, r) in
  Wallet.Outputs w' = Wallet.Outputs w0 ∧
  ∀ op x, Wallet.inputReservations w' !! op = Some x → Wallet.inputReservations w0 !! op = Some x.
Proof.
  intros [Ho Hr]%only_lease_release. unfold release. destruct (negb _); cbn in *; (split; [done|]); intros op x Hx; by destruct (Hr op x Hx) as [|[? _]].
Qed.

Lemma only_lease_drop w0 now w : only_lease w0 0 w → only_lease w0 0 (Wallet.drop_expired now w).
Proof. intros [Ho Hr]. split; [done|]. intros op x [Hx _]%WalletSpec.lookup_drop_expired. by apply Hr. Qed.

Lemma only_lease_granted w0 now h ttl w lease ins w' :
  only_lease w0 0 w → lease ≠ 0 → WalletSpec.granted now h ttl w lease ins w' → only_lease w0 lease w'.
Proof.
  intros Hd%(only_lease_drop _ now) Hl [_ _ _ Eo _ Hh]. split; [by rewrite Eo; apply Hd|]. intros op x. rewrite Hh.
  case_decide; [intros [= <-]; by right|]. intros Hx. by destruct (proj2 Hd op x Hx) as [|[? _]]; [left|].
Qed.

Lemma granted_leased w0 now h ttl w lease ins w' :
  Wallet.Outputs w = Wallet.Outputs w0 → WalletSpec.granted now h ttl w lease ins w' → ins ≠ [] → (length ins <= maxSelectedInputs)%nat →
  leased w0 h lease ins w'.
Proof.
  intros Ew [_ Hd Ho _ _ Hh] Hne Hl. split; [done..| |].
  - eapply Forall_impl; [exact Ho|]. intros o [Hin Hc]. rewrite <- Ew. unfold Wallet.candidate in Hc. simpl_bools. done.
  - apply Forall_forall. intros o Hin. exists (now + Wallet.ttl_or_default ttl). rewrite Hh, decide_True; [done|]. by apply list_elem_of_fmap_2.
Qed.

Context (cfg : TransferConfig R).

Lemma required_fee_bounds n m rate : 0 <= MinFee cfg → is_u64 (MinFee cfg) → MinFee cfg <= required_fee cfg n m rate ∧ is_u64 (required_fee cfg n m rate).
Proof.
  intros H0 Hm. unfold required_fee. set (f := u64 _). assert (is_u64 f) as Hf by apply u64_range.
  destruct (Z.ltb_spec f (MinFee cfg)); split; (done || lia).
Qed.

(** What the search returns, after any number of rounds. *)
Definition fee_found (w0 : Wallet.Wallet) (h : Z) (x : (Z * result (list Wallet.OwnedOutput * Z)) * (Wallet.Wallet * R)) : Prop :=
  let '((lease, res), (w, _)) := x in
  only_lease w0 lease w ∧
  match res with
  | Ok (ins, fee) => leased w0 h lease ins w ∧ is_u64 fee ∧ MinFee cfg <= fee
  | Err _ => True
  | Panic => False
  end.

Lemma fee_loop_found fuel clock n totalSend rate h fee lease ins w0 w r :
  is_u64 (MinFee cfg) → WalletSpec.wallet_ok w0 → WalletSpec.amounts_fit w0 →
  only_lease w0 lease w → is_u64 fee → MinFee cfg <= fee →
  0 <= Wallet.nextLease w → Wallet.nextLease w + Z.of_nat fuel < 2 ^ 64 → (fuel = 0%nat → leased w0 h lease ins w) →
  fee_found w0 h (fee_loop cfg fuel clock n totalSend rate h fee lease ins (w, r)).
Proof.
  intros Hm Hw0 Ha0. revert fee lease ins w r. induction fuel as [|fuel IH]; intros fee lease ins w r Hs Hf Hmf Hn Hlt Hl; cbn [fee_loop].
  { split; [done|]. split_and!; [by apply Hl|done..]. }
  destruct (addU64 totalSend fee) as [need|]; [|by split].
  set (w1 := if negb (lease =? 0) then Wallet.ReleaseInputLease lease w else w).
  replace (if negb (lease =? 0) then release lease (w, r) else (w, r)) with (w1, r) by (unfold w1, release; by destruct (lease =? 0)).
  assert (only_lease w0 0 w1) as Hs1 by by apply only_lease_release.
  assert (Wallet.nextLease w1 = Wallet.nextLease w) as En by (unfold w1, Wallet.ReleaseInputLease; by destruct (lease =? 0)).
  pose proof (proj1 Hs1) as Eo. assert (WalletSpec.wallet_ok w1) as Hw1 by (unfold WalletSpec.wallet_ok; by rewrite Eo).
  assert (WalletSpec.amounts_fit w1) as Ha1 by (unfold WalletSpec.amounts_fit; by rewrite Eo).
  pose proof (WalletSpec.ReserveMatureInputs_spec (clock fuel) h need twoMinutes w1 r Hw1
    (WalletSpec.candidates_total w1 (Wallet.drop_expired (clock fuel) w1) h eq_refl Ha1) (proj1 Ha1)) as Hsel.
  destruct (Wallet.ReserveMatureInputs _ _ _ _ _) as [[[l sel]|e|] [w2 r2]]; [|subst w2; split; [by apply only_lease_drop|done]|done].
  destruct Hsel as (Hg & Hsum & Hne & Hlen). pose proof (WalletSpec.gr_lease _ _ _ _ _ _ _ Hg) as El.
  rewrite u64_small in El by (unfold is_u64; lia). pose proof (WalletSpec.gr_next _ _ _ _ _ _ _ Hg) as Enx.
  assert (only_lease w0 l w2) as Hs2 by (eapply only_lease_granted; [done|lia|done]).
  assert (leased w0 h l sel w2) as Hl2 by by eapply granted_leased.
  destruct (sum_amounts _ _ _) as [total|e|] eqn:Et; [|by split|by apply sum_amounts_safe in Et].
  destruct (total <? need); [by split|]. set (f := required_fee _ _ _ _).
  destruct (Z.leb_spec f fee); [split; [done|by split_and!]|].
  destruct (required_fee_bounds (length sel) (if 0 <? total - totalSend - fee then S n else n) rate) as [Hb1 Hb2]; [unfold is_u64 in Hm; lia|done|].
  apply IH; [done..|lia|lia|done].
Qed.

End TransferSpec.

(** ** Theorem *)

Section Paid.
Context `{HC : Crypto} `{!CryptoLaws HC} `{HN : Network} `{HM : MathLib} `{HJ : JSON} `{!JSONLaws HJ}.
Context {R : Type} `{HE : Entropy R} `{!EntropyLaws HE} `{HS : SliceSort} `{!SliceSortLaws HS}.
Context (prove : Z → bytes → M R bytes)
        (sign : list bytes → list bytes → Z → bytes → bytes → bytes → bytes → bytes → M R (bytes * bytes))
        (blinding : R → bytes * R) (stealth : bytes → bytes → M R (bytes * bytes * bytes))
        (txKey : bytes → list bytes → result bytes) (keyImage : bytes → result bytes)
        (secret : bytes → bytes → result bytes) (secretIndexed : bytes → bytes → Z → result bytes)
        (scalarToPubKey : bytes → result bytes) (draw_padding : R → (nat → option bytes) * R)
        (owns : bytes → bytes → Prop) (main : list Block) (known : bytes → option Block) (c : Chain).

#[local] Abbreviation canonical := (main_ring_member main).
#[local] Abbreviation cfg := (createTxBuilder (chain_ring c) prove sign blinding stealth txKey keyImage secret secretIndexed scalarToPubKey).
#[local] Abbreviation laws := (TransferLaws prove sign scalarToPubKey owns).
#[local] Abbreviation paid := (paid (chain_ring c) prove sign blinding stealth txKey keyImage secret secretIndexed scalarToPubKey canonical).

(** The chain gives the wallet the rings it relies on. *)
Lemma chain_ring_law : chain_inv main known c → RingLaw (chain_ring c) canonical.
Proof.
  intros Hi k cm r ks cs i r' Lk Lc Hm. unfold chain_ring.
  destruct (SelectRingMembersWithCommitments k cm (c, r)) as [[d|e|] [c' r1]] eqn:E; [|done|done]. intros [= <- <- <- _].
  destruct (SelectRingMembers_ring main known _ _ _ _ _ _ Hi (conj Lk (conj Lc Hm)) E) as (ring & -> & -> & Lr & Hs & HF).
  rewrite !length_fmap, !list_lookup_fmap, Hs. split_and!; [done|done| | |done|done|].
  - apply Forall_fmap. eapply Forall_impl; [exact HF|]. by intros p (? & _).
  - apply Forall_fmap. eapply Forall_impl; [exact HF|]. by intros p (_ & ? & _).
  - apply Forall2_fmap_l, Forall2_fmap_r, Forall_Forall2_diag. eapply Forall_impl; [exact HF|]. by intros p (_ & _ & ?).
Qed.

Lemma build_paid ins recipients totalSend fee lease h w r res s' :
  laws → chain_inv main known c → Forall (owned_ok owns canonical) ins → ins ≠ [] → (length ins <= maxSelectedInputs)%nat → recipients ≠ [] → is_u64 fee →
  Forall is_u64 (RAmount <$> recipients) → totalSend = sumZ (RAmount <$> recipients) → is_u32 (Z.of_nat (length recipients) + 1) →
  build cfg draw_padding ins recipients totalSend fee lease 1 h (w, r) = (Ok res, s') →
  s'.1 = w ∧ (∃ tx, paid h recipients res tx) ∧ SpentOutputs res = ins ∧ InputLease res = lease ∧ ResultFee res = fee.
Proof.
  intros TL RL%chain_ring_law Ho Hne Hl Hr Hf Hu Ht Hc. unfold build, in_builder. cbn [fst snd]. destruct (buildTransaction _ _ _ _ _ _ _ _ _ _ _) as [x r'] eqn:E.
  intros [= -> <-]. split; [done|]. assert (is_u32 (Z.of_nat (length ins))) by (unfold is_u32, maxSelectedInputs in *; lia).
  by eapply buildTransaction_paid; eauto.
Qed.

Lemma build_wallet ins recipients totalSend fee lease k h s : (build cfg draw_padding ins recipients totalSend fee lease k h s).2.1 = s.1.
Proof. unfold build, in_builder. by destruct (buildTransaction _ _ _ _ _ _ _ _ _ _ _). Qed.

(** What a transfer of the wallet [w] at height [h] comes to. *)
Definition transfer_result (h : Z) (recipients : list Recipient) (w : Wallet.Wallet)
    (x : result TransferResult * (Wallet.Wallet * R)) : Prop :=
  match x with
  | (Ok res, (w', _)) =>
      Wallet.Outputs w' = Wallet.Outputs w ∧ leased w h (InputLease res) (SpentOutputs res) w' ∧
      sendMinFee <= ResultFee res ∧ ∃ tx, paid h recipients res tx
  | (Err _, (w', _)) =>
      Wallet.Outputs w' = Wallet.Outputs w ∧
      ∀ op x, Wallet.inputReservations w' !! op = Some x → Wallet.inputReservations w !! op = Some x
  | (Panic, (w', _)) => Wallet.Outputs w' = Wallet.Outputs w
  end.

Lemma transfer_outcome clock recipients feeRate h w r :
  laws → chain_inv main known c → WalletSpec.wallet_ok w → WalletSpec.amounts_fit w → Forall (owned_ok owns canonical) (Wallet.Outputs w) →
  0 <= Wallet.nextLease w → Wallet.nextLease w + 4 < 2 ^ 64 →
  Forall is_u64 (RAmount <$> recipients) → is_u32 (Z.of_nat (length recipients) + 1) →
  transfer_result h recipients w (Transfer cfg draw_padding clock recipients feeRate h (w, r)).
Proof.
  intros TL Hi Hw Ha Ho H0 H1 Hu Hc. unfold transfer_result, Transfer. case_decide as Hr; [by split|].
  unfold mbind, M_bind, lift. destruct (total_send recipients) as [ts|e|] eqn:Et; [|by split|by apply sum_amounts_safe in Et].
  apply sum_amounts_Ok in Et as [-> _]; [|lia|eapply Forall_impl; [exact Hu|]; by intros y [? _]].
  pose proof (fee_loop_found cfg 4 clock (length recipients) (0 + sumZ (RAmount <$> recipients)) feeRate h (MinFee cfg) 0 [] w w r
    ltac:(done) Hw Ha ltac:(split; auto) ltac:(done) ltac:(done) H0 H1 ltac:(done)) as Hfee.
  unfold releasing. destruct (fee_loop _ _ _ _ _ _ _ _ _ _ _) as [[lease res] [w1 r1]]. destruct Hfee as [Hs Hfee].
  destruct res as [[ins fee]|e|]; [| |done].
  - destruct Hfee as (Hl & Hf & Hmf). pose proof (build_wallet ins recipients (0 + sumZ (RAmount <$> recipients)) fee lease 1 h (w1, r1)) as Eb.
    destruct (build _ _ _ _ _ _ _ _ _ _) as [[res|e|] [w2 r2]] eqn:E; cbn in Eb; subst w2.
    + eapply build_paid in E as (_ & Hp & -> & -> & ->); [split_and!; [apply Hs|done..]|exact TL|exact Hi| |apply Hl|apply Hl|done..].
      eapply Forall_impl; [apply Hl|]. cbn. intros o [Hin _]. rewrite Forall_forall in Ho. by apply Ho.
    + exact (failed_released _ _ _ r2 Hs).
    + apply Hs.
  - exact (failed_released _ _ _ r1 Hs).
Qed.

(** C4. A transfer pays or leaves nothing behind.  When [Transfer] succeeds, the
    inputs it spends are different unspent mature outputs of the wallet, all
    held under the lease it reports; what goes in is what the recipients get
    plus change plus the fee, at least the minimum fee; the bytes it returns
    parse to a transaction with the reported ID and fee, in which the
    recipient at position [k] owns output [k]: the shared secret gives the
    one-time key, opens the commitment to the amount and decrypts amount and
    memo; and the node's validation accepts it, if its key images are
    different and unspent and no encrypted memo happens to be all zeros.  When it fails,
    no reservation is left that was not there before.  Either way the
    wallet's outputs are unchanged.  The chain, from which the rings are
    taken, is in its invariant; range proofs and signatures are as
    [TransferLaws] says, the wallet's outputs are ones it can spend, and their
    amounts do not add up to 2^64. *)
Theorem transfer_pays clock recipients feeRate h w r :
  laws → chain_inv main known c → WalletSpec.wallet_ok w → WalletSpec.amounts_fit w → Forall (owned_ok owns canonical) (Wallet.Outputs w) →
  0 <= Wallet.nextLease w → Wallet.nextLease w + 4 < 2 ^ 64 →
  Forall is_u64 (RAmount <$> recipients) → is_u32 (Z.of_nat (length recipients) + 1) →
  transfer_result h recipients w (Transfer cfg draw_padding clock recipients feeRate h (w, r)).
Proof. exact (transfer_outcome clock recipients feeRate h w r). Qed.

End Paid.
