(* ===== verification/ScanSpec.v ===== *)
(** * What a scan finds

    A scan keeps the wallet's outputs spendable: each opens its commitment and
    has its one-time key.  And it finds every payment that a transfer of
    [Builder] makes to the wallet. *)

From S2P Require Import Prelude Bytes Crypto Instances Pow Transaction TxCodec Block Consensus Reads Difficulty Memo Emission Validation Coinbase Samples Validity Balance Storage StorageFacts Commit Chain Cache ChainInv Branches CoinSelect Builder BuilderSpec.
From S2P Require Wallet WalletSpec Scanner.

(** ** Folds *)

Lemma foldl_inv {A B} (P : A → Prop) (f : A → B → A) l a :
  P a → (∀ a b, b ∈ l → P a → P (f a b)) → P (foldl f a l).
Proof.
  revert a. induction l as [|b l IH]; intros a Ha Hf; [done|]. cbn [foldl]. apply IH; [apply Hf; [by left|done]|].
  intros a' b' Hb. apply Hf. by right.
Qed.

Lemma foldl_middle {A B} (P Q : A → Prop) (f : A → B → A) l i x a :
  l !! i = Some x → P a → (∀ a j y, l !! j = Some y → j ≠ i → P a → P (f a y)) → (∀ a, P a → Q (f a x)) →
  (∀ a y, y ∈ l → Q a → Q (f a y)) → Q (foldl f a l).
Proof.
  intros Hi Ha Hp Hx Hq. rewrite <- (take_drop_middle _ _ _ Hi), foldl_app. cbn [foldl].
  apply foldl_inv; [apply Hx|].
  - apply foldl_inv; [done|]. intros a' y (j & Hj & Hlt)%elem_of_take Ha'. apply (Hp a' j y); [done|lia|done].
  - intros a' y (j & Hj)%list_elem_of_lookup Hq'. rewrite lookup_drop in Hj. apply Hq; [|done]. by eapply list_elem_of_lookup_2.
Qed.

(** ** The wallet under a scan *)

(** The same coin, perhaps with another spend. *)
Definition same_coin (o o' : Wallet.OwnedOutput) : Prop := ∃ sp h t, o' = Wallet.mark sp h t o.

Lemma same_coin_refl o : same_coin o o.
Proof. exists (Wallet.Spent o), (Wallet.SpentHeight o), (Wallet.SpentTxID o). by destruct o. Qed.

Lemma mark_spent_coins key h l l' op : Wallet.mark_spent key h l = Some (l', op) → Forall2 same_coin l l'.
Proof.
  revert l' op. induction l as [|o l IH]; intros l' op; cbn [Wallet.mark_spent]; [done|].
  assert (Forall2 same_coin l l) as Hrefl by (apply Forall2_same_length_lookup; split; [done|]; intros i x y Hx Hy; simplify_eq; apply same_coin_refl).
  case_decide.
  - intros ([l1 o1] & E & [= -> _])%fmap_Some. constructor; [apply same_coin_refl|by eapply IH].
  - destruct (_ && _); [intros [= <- _]; constructor; [by eexists _, _, _|done]|].
    destruct (negb _); [|done]. intros [= <- _]. constructor; [by eexists _, _, _|done].
Qed.

Lemma MarkSpent_coins key h w :
  Forall2 same_coin (Wallet.Outputs w) (Wallet.Outputs (Wallet.MarkSpent key h w).2) ∧ Wallet.Keys (Wallet.MarkSpent key h w).2 = Wallet.Keys w.
Proof.
  unfold Wallet.MarkSpent. destruct (Wallet.mark_spent _ _ _) as [[l op]|] eqn:E; cbn; [split; [by eapply mark_spent_coins|done]|].
  split; [|done]. apply Forall2_same_length_lookup. split; [done|]. intros i x y Hx Hy. simplify_eq. apply same_coin_refl.
Qed.

(** What does not depend on spends. *)
Definition coin_property (P : Wallet.OwnedOutput → Prop) : Prop := ∀ o o', same_coin o o' → P o → P o'.

Lemma Forall_coins P l l' : coin_property P → Forall2 same_coin l l' → Forall P l → Forall P l'.
Proof. intros HP. induction 1 as [|x y l l' Hs _ IH]; intros HF; [done|]. apply Forall_cons in HF as [Hx HF]. constructor; eauto. Qed.

Lemma Exists_coins P l l' : coin_property P → Forall2 same_coin l l' → Exists P l → Exists P l'.
Proof.
  intros HP. induction 1 as [|x y l l' Hs _ IH]; intros HE; [by apply Exists_nil in HE|].
  apply Exists_cons in HE as [Hx|HE]; [left; eauto|right; auto].
Qed.

Lemma outpoint_coins l l' : Forall2 same_coin l l' → Wallet.outpoint <$> l' = Wallet.outpoint <$> l.
Proof. induction 1 as [|x y l l' (sp & h & t & ->) _ IH]; [done|]. rewrite !fmap_cons, IH. done. Qed.

Lemma AddOutput_outputs o w :
  (Wallet.Outputs (Wallet.AddOutput o w) = Wallet.Outputs w ∧ Wallet.outpoint o ∈ Wallet.outpoint <$> Wallet.Outputs w) ∨
  (Wallet.Outputs (Wallet.AddOutput o w) = Wallet.Outputs w ++ [o] ∧ Wallet.outpoint o ∉ Wallet.outpoint <$> Wallet.Outputs w).
Proof.
  unfold Wallet.AddOutput. destruct (existsb _ _) eqn:E; [left|right]; (split; [done|]).
  - apply existsb_exists in E as (x & Hx & Ex%bool_decide_eq_true). rewrite <- Ex. by apply list_elem_of_fmap_2, list_elem_of_In.
  - intros (x & Ex & Hx)%list_elem_of_fmap. assert (existsb (λ y, bool_decide (Wallet.outpoint y = Wallet.outpoint o)) (Wallet.Outputs w) = true) as Et; [|congruence].
    apply existsb_exists. exists x. split; [by apply list_elem_of_In|]. by apply bool_decide_eq_true.
Qed.

Section Scan.
Context `{HC : Crypto} `{!CryptoLaws HC} `{HN : Network}.
Context (keyImage : bytes → result bytes) (secret : bytes → bytes → result bytes) (secretIndexed : bytes → bytes → Z → result bytes)
        (scalarToPubKey : bytes → result bytes) (checkStealth : bytes → bytes → bytes → bytes → bool)
        (spendKey : bytes → bytes → bytes → option bytes) (outSecret : bytes → bytes → option bytes)
        (outSecretIndexed : bytes → bytes → Z → option bytes) (canonical : bytes → bytes → bool).

#[local] Abbreviation cb := (Scanner.MkWalletCallbacks checkStealth spendKey outSecret (Some outSecretIndexed)).
#[local] Abbreviation scfg := (Scanner.defaultScannerConfig keyImage scalarToPubKey).

(** Stealth addresses: the key of a sum is the sum of the keys; sender and
    receiver derive the same secrets; the point of a derived secret determines it. *)
Record StealthLaws : Prop := {
  st_add : ∀ a b p q c, scalarToPubKey a = Ok p → scalarToPubKey b = Ok q → CommitmentAdd p q = Ok c →
    scalarToPubKey (blocknet_blinding_add a b) = Ok c;
  st_shared : ∀ r rG v vG s, scalarToPubKey r = Ok rG → scalarToPubKey v = Ok vG → secret r vG = Ok s → outSecret rG v = Some s;
  st_indexed : ∀ r rG v vG i s, scalarToPubKey r = Ok rG → scalarToPubKey v = Ok vG → secretIndexed r vG i = Ok s →
    outSecretIndexed rG v i = Some s;
  st_point : ∀ rG v i s s' p p', outSecret rG v = Some s → outSecretIndexed rG v i = Some s' →
    scalarToPubKey s = Ok p → scalarToPubKey s' = Ok p' → decompress p = decompress p' → s' = s;
}.

Definition owns (priv pub : bytes) : Prop := scalarToPubKey priv = Ok pub.

Definition key_pairs (keys : Wallet.StealthKeys) : Prop :=
  owns (Wallet.SpendPrivKey keys) (Wallet.SpendPubKey keys) ∧ owns (Wallet.ViewPrivKey keys) (Wallet.ViewPubKey keys).

Context (SL : StealthLaws) (keys : Wallet.StealthKeys) (HK : key_pairs keys).

(** ** Recognizing outputs *)

Lemma ok_of_Some {A} (r : result A) a : Scanner.ok_of r = Some a ↔ r = Ok a.
Proof. destruct r; cbn; naive_solver. Qed.

Lemma try_secret_Some toPoint add sp pk so s :
  Scanner.try_secret toPoint add sp pk so = Some s ↔ so = Some s ∧ ∃ p, toPoint s = Some p ∧ add p sp = Some pk.
Proof.
  unfold Scanner.try_secret. destruct so as [s0|]; cbn; [|naive_solver]. destruct (toPoint s0) as [p|] eqn:Ep; cbn; [|naive_solver].
  destruct (add p sp) as [e|] eqn:Ea; cbn; [|naive_solver]. case_decide; naive_solver.
Qed.

Lemma matched_secret_sound tx out s :
  Scanner.matched_secret cb scfg keys tx out = Some s →
  ∃ p, scalarToPubKey s = Ok p ∧ CommitmentAdd p (Wallet.SpendPubKey keys) = Ok (Scanner.PubKey out).
Proof.
  unfold Scanner.matched_secret. cbn -[Scanner.try_secret].
  destruct (Scanner.try_secret _ _ _ _ (outSecretIndexed _ _ _)) as [s'|] eqn:E; [intros [= ->]|intros E2].
  - apply try_secret_Some in E as (_ & p & Ep%ok_of_Some & Ea%ok_of_Some). by exists p.
  - apply try_secret_Some in E2 as (_ & p & Ep%ok_of_Some & Ea%ok_of_Some). by exists p.
Qed.

Lemma recognize_owned h tx out s o :
  length (Scanner.PubKey out) = 32%nat → length (Scanner.OutEncryptedAmount out) = 8%nat →
  canonical (Scanner.PubKey out) (Scanner.OutCommitment out) = true →
  Scanner.recognize cb scfg keys h tx out = Some (s, o) →
  owned_ok owns canonical o ∧ Wallet.outpoint o = (Scanner.ScanTxID tx, Scanner.Index out).
Proof.
  intros Lp La Hc. unfold Scanner.recognize.
  destruct (Scanner.matched_secret cb scfg keys tx out) as [s0|] eqn:Em; cbn -[Scanner.commitment_fits]; [|done].
  apply matched_secret_sound in Em as (p & Ep & Ea). set (b := if Scanner.TxIsCoinbase tx then _ else _). set (v := DecryptAmount _ _ _).
  unfold Scanner.commitment_fits. cbn. case_bool_decide as Hcm; [|done]. intros [= <- <-]. split; [|done].
  split_and!; cbn; [done| |by eapply (st_add SL); [..|exact Ea]; [|apply HK]|done|done].
  pose proof (le_value_range (zip_with byte_xor (Scanner.OutEncryptedAmount out) (take 8 (amountMask b (Scanner.Index out))))) as Hr.
  unfold v, DecryptAmount, is_u64. rewrite length_zip_with, La in Hr. eapply (conj (proj1 Hr)), Z.lt_le_trans; [apply Hr|].
  transitivity (256 ^ 8); [|done]. apply Z.pow_le_mono_r; lia.
Qed.

(** An output addressed to the wallet, as [Builder] makes it. *)
Record mine (tx : Scanner.TxData) (out : Scanner.OutputData) (s : bytes) (amount : Z) (memo : bytes) : Prop := {
  mi_secret : outSecretIndexed (Scanner.TxPubKey tx) (Wallet.ViewPrivKey keys) (u32 (Scanner.Index out)) = Some s ∨
              outSecret (Scanner.TxPubKey tx) (Wallet.ViewPrivKey keys) = Some s;
  mi_key : ∃ p, scalarToPubKey s = Ok p ∧ CommitmentAdd p (Wallet.SpendPubKey keys) = Ok (Scanner.PubKey out);
  mi_commitment : Scanner.OutCommitment out = blocknet_pedersen_commit_with_blinding amount (DeriveBlinding s (Scanner.Index out));
  mi_amount : DecryptAmount (Scanner.OutEncryptedAmount out) (DeriveBlinding s (Scanner.Index out)) (Scanner.Index out) = amount;
  mi_memo : DecryptMemo (Scanner.OutEncryptedMemo out) s (Scanner.Index out) = Some memo;
}.

Lemma matched_secret_mine tx out s amount memo :
  mine tx out s amount memo → Scanner.matched_secret cb scfg keys tx out = Some s.
Proof.
  intros [Hs (p & Ep & Ea) _ _ _]. unfold Scanner.matched_secret. cbn -[Scanner.try_secret].
  destruct (Scanner.try_secret _ _ _ _ (outSecretIndexed _ _ _)) as [s'|] eqn:E; cycle 1.
  - destruct Hs as [Hi|Hl]; [exfalso; assert (None = Some s) as [=]; rewrite <- E|];
      apply try_secret_Some; (split; [done|]); exists p; by rewrite !ok_of_Some.
  - apply try_secret_Some in E as (Hi' & p' & Ep'%ok_of_Some & Ea'%ok_of_Some). f_equal. destruct Hs as [Hi|Hl]; [congruence|].
    eapply (st_point SL); [done..|]. apply CommitmentAdd_Ok in Ea as (x & y & Dx & Dy & Exy), Ea' as (x' & y' & Dx' & Dy' & Exy').
    rewrite Dx, Dx'. f_equal. rewrite Dy in Dy'. injection Dy' as <-. apply (p_add_cancel _ _ y).
    assert (decompress (compress (p_add x y)) = decompress (compress (p_add x' y))) as Ed by congruence.
    rewrite !decompress_compress in Ed. by injection Ed.
Qed.

Lemma recognize_mine h tx out s amount memo :
  mine tx out s amount memo → Scanner.TxIsCoinbase tx = false →
  ∃ priv, Scanner.recognize cb scfg keys h tx out =
    Some (s, Wallet.MkOwnedOutput (Scanner.ScanTxID tx) (Scanner.Index out) amount (DeriveBlinding s (Scanner.Index out)) priv
               (Scanner.PubKey out) (Scanner.OutCommitment out) h false false 0 Wallet.noTx []).
Proof.
  intros Hm Hc. unfold Scanner.recognize. rewrite (matched_secret_mine _ _ _ _ _ Hm), Hc. cbn -[Scanner.commitment_fits].
  rewrite (mi_amount _ _ _ _ _ Hm). unfold Scanner.commitment_fits. cbn.
  rewrite bool_decide_eq_true_2 by (symmetry; apply (mi_commitment _ _ _ _ _ Hm)). by eexists.
Qed.

(** ** The scan *)

(** The outputs that a scan may be given. *)
Definition scannable (out : Scanner.OutputData) : Prop :=
  length (Scanner.PubKey out) = 32%nat ∧ length (Scanner.OutEncryptedAmount out) = 8%nat ∧
  canonical (Scanner.PubKey out) (Scanner.OutCommitment out) = true.

Record sound (s : Scanner.scan) : Prop := {
  so_keys : Wallet.Keys (Scanner.sc_wallet s) = keys;
  so_wallet : WalletSpec.wallet_ok (Scanner.sc_wallet s);
  so_owned : Forall (owned_ok owns canonical) (Wallet.Outputs (Scanner.sc_wallet s));
}.

Lemma owned_coin : coin_property (owned_ok owns canonical).
Proof. intros o o' (sp & h & t & ->). by destruct o. Qed.

Lemma mark_owned_coins h s key :
  Forall2 same_coin (Wallet.Outputs (Scanner.sc_wallet s)) (Wallet.Outputs (Scanner.sc_wallet (Scanner.mark_owned h s key))) ∧
  Wallet.Keys (Scanner.sc_wallet (Scanner.mark_owned h s key)) = Wallet.Keys (Scanner.sc_wallet s).
Proof. unfold Scanner.mark_owned. pose proof (MarkSpent_coins key h (Scanner.sc_wallet s)) as Hm. by destruct (Wallet.MarkSpent _ _ _) as [b w]. Qed.

Lemma scan_key_image_inv (P : Scanner.scan → Prop) h s ki :
  (∀ s m, P s → P (Scanner.MkScan (Scanner.sc_wallet s) (Scanner.memoDecryptFailures s) (Scanner.memoDecryptLastHeight s) m
     (Scanner.sc_found s) (Scanner.sc_spent s))) →
  (∀ s key, P s → P (Scanner.mark_owned h s key)) → P s → P (Scanner.scan_key_image h s ki).
Proof. intros Hm Hk Hs. unfold Scanner.scan_key_image. apply Hm. apply foldl_inv; [done|]. intros s' key _. apply Hk. Qed.

Lemma sound_mark h s key : sound s → sound (Scanner.mark_owned h s key).
Proof.
  intros [H1 H2 H3]. destruct (mark_owned_coins h s key) as [Hc Hk]. split; [by rewrite Hk| |].
  - unfold WalletSpec.wallet_ok. by rewrite (outpoint_coins _ _ Hc).
  - eapply Forall_coins; [apply owned_coin|done|done].
Qed.

Lemma scan_output_cases h tx s out :
  Scanner.scan_output cb scfg keys h tx s out = s ∨
  ∃ sec o memo, Scanner.recognize cb scfg keys h tx out = Some (sec, o) ∧
    Scanner.sc_wallet (Scanner.scan_output cb scfg keys h tx s out) = Wallet.AddOutput (Scanner.with_memo memo o) (Scanner.sc_wallet s).
Proof. unfold Scanner.scan_output. destruct (Scanner.recognize _ _ _ _ _ _) as [[sec o]|]; [|by left]. right. by eexists _, _, _. Qed.

Lemma Keys_AddOutput o w : Wallet.Keys (Wallet.AddOutput o w) = Wallet.Keys w.
Proof. unfold Wallet.AddOutput. by destruct (existsb _ _). Qed.

Lemma sound_output h tx s out : scannable out → sound s → sound (Scanner.scan_output cb scfg keys h tx s out).
Proof.
  intros (L1 & L2 & Hc) [H1 H2 H3]. destruct (scan_output_cases h tx s out) as [->|(sec & o & memo & Er & Ew)]; [by split|].
  destruct (recognize_owned _ _ _ _ _ L1 L2 Hc Er) as [Ho _]. split; [by rewrite Ew, Keys_AddOutput| |].
  - unfold WalletSpec.wallet_ok. rewrite Ew. destruct (AddOutput_outputs (Scanner.with_memo memo o) (Scanner.sc_wallet s)) as [[-> _]|[-> Hn]]; [done|].
    rewrite fmap_app. apply NoDup_app. split; [done|]. split; [|apply NoDup_singleton].
    intros x Hx ->%list_elem_of_singleton. done.
  - rewrite Ew. destruct (AddOutput_outputs (Scanner.with_memo memo o) (Scanner.sc_wallet s)) as [[-> _]|[-> _]]; [done|].
    apply Forall_app. split; [done|]. by apply Forall_singleton.
Qed.

Lemma sound_index s m : sound s → sound (Scanner.MkScan (Scanner.sc_wallet s) (Scanner.memoDecryptFailures s)
  (Scanner.memoDecryptLastHeight s) m (Scanner.sc_found s) (Scanner.sc_spent s)).
Proof. by intros [? ? ?]. Qed.

Lemma sound_tx h s tx : Forall scannable (Scanner.TxOutputs tx) → sound s → sound (Scanner.scan_tx cb scfg keys h s tx).
Proof.
  intros HF Hs. unfold Scanner.scan_tx. apply foldl_inv.
  - apply foldl_inv; [done|]. intros s' out Hin. apply sound_output. rewrite Forall_forall in HF. by apply HF.
  - intros s' ki _ Hs'. apply scan_key_image_inv; [intros; by apply sound_index|intros; by apply sound_mark|done].
Qed.

(** *** The output that is looked for *)

Section Found.
Context (P : Wallet.OwnedOutput → Prop) (HP : coin_property P) (op : Wallet.reservedOutpoint).

Definition seen (s : Scanner.scan) : Prop := Exists P (Wallet.Outputs (Scanner.sc_wallet s)).
Definition unseen (s : Scanner.scan) : Prop := op ∉ Wallet.outpoint <$> Wallet.Outputs (Scanner.sc_wallet s).

Lemma seen_mark h s key : seen s → seen (Scanner.mark_owned h s key).
Proof. intros Hs. eapply Exists_coins; [exact HP|apply mark_owned_coins|done]. Qed.

Lemma unseen_mark h s key : unseen s → unseen (Scanner.mark_owned h s key).
Proof. unfold unseen. by rewrite (outpoint_coins _ _ (proj1 (mark_owned_coins h s key))). Qed.

Lemma seen_output h tx s out : seen s → seen (Scanner.scan_output cb scfg keys h tx s out).
Proof.
  intros Hs. destruct (scan_output_cases h tx s out) as [->|(sec & o & memo & _ & Ew)]; [done|]. unfold seen. rewrite Ew.
  destruct (AddOutput_outputs (Scanner.with_memo memo o) (Scanner.sc_wallet s)) as [[-> _]|[-> _]]; [done|]. apply Exists_app. by left.
Qed.

Lemma recognize_outpoint h tx out sec o :
  Scanner.recognize cb scfg keys h tx out = Some (sec, o) → Wallet.outpoint o = (Scanner.ScanTxID tx, Scanner.Index out).
Proof.
  unfold Scanner.recognize. destruct (Scanner.matched_secret _ _ _ _ _); cbn -[Scanner.commitment_fits]; [|done].
  destruct (Scanner.commitment_fits _ _ _ _); [|done]. by intros [= _ <-].
Qed.

Lemma unseen_output h tx s out :
  (Scanner.ScanTxID tx, Scanner.Index out) ≠ op → unseen s → unseen (Scanner.scan_output cb scfg keys h tx s out).
Proof.
  intros Hne Hs. destruct (scan_output_cases h tx s out) as [->|(sec & o & memo & Er%recognize_outpoint & Ew)]; [done|]. unfold unseen. rewrite Ew.
  destruct (AddOutput_outputs (Scanner.with_memo memo o) (Scanner.sc_wallet s)) as [[-> _]|[-> _]]; [done|].
  rewrite fmap_app. intros [Hin|Hin]%elem_of_app; [done|]. apply list_elem_of_singleton in Hin. apply Hne. rewrite Hin. by rewrite <- Er.
Qed.

Lemma seen_tx h s tx : seen s → seen (Scanner.scan_tx cb scfg keys h s tx).
Proof.
  intros Hs. unfold Scanner.scan_tx. apply foldl_inv; [apply foldl_inv; [done|]; intros; by apply seen_output|].
  intros s' ki _ Hs'. apply scan_key_image_inv; [done|intros; by apply seen_mark|done].
Qed.

Lemma unseen_tx h s tx : Scanner.ScanTxID tx ≠ op.1 → unseen s → unseen (Scanner.scan_tx cb scfg keys h s tx).
Proof.
  intros Hne Hs. unfold Scanner.scan_tx. apply foldl_inv; [apply foldl_inv; [done|]; intros; apply unseen_output; [by intros <-|done]|].
  intros s' ki _ Hs'. apply scan_key_image_inv; [done|intros; by apply unseen_mark|done].
Qed.

End Found.

(** What is recorded of a payment. *)
Definition payment (op : Wallet.reservedOutpoint) (amount : Z) (blinding memo pub : bytes) (h : Z) (o : Wallet.OwnedOutput) : Prop :=
  Wallet.outpoint o = op ∧ Wallet.Amount o = amount ∧ Wallet.Blinding o = blinding ∧ Wallet.Memo o = memo ∧
  Wallet.OneTimePubKey o = pub ∧ Wallet.BlockHeight o = h ∧ Wallet.IsCoinbase o = false.

Lemma payment_coin op amount blinding memo pub h : coin_property (payment op amount blinding memo pub h).
Proof. intros o o' (sp & x & t & ->). by destruct o. Qed.

Lemma scan_output_mine h tx s out sec amount memo :
  mine tx out sec amount memo → Scanner.TxIsCoinbase tx = false → unseen (Scanner.ScanTxID tx, Scanner.Index out) s →
  seen (payment (Scanner.ScanTxID tx, Scanner.Index out) amount (DeriveBlinding sec (Scanner.Index out)) memo (Scanner.PubKey out) h)
    (Scanner.scan_output cb scfg keys h tx s out).
Proof.
  intros Hm Hc Hu. destruct (recognize_mine h _ _ _ _ _ Hm Hc) as [priv Er]. unfold Scanner.scan_output, seen.
  rewrite Er, Hc, (mi_memo _ _ _ _ _ Hm). cbn [Scanner.sc_wallet default from_option id].
  match goal with |- context [Wallet.AddOutput ?o ?w] => destruct (AddOutput_outputs o w) as [[_ Hin]|[-> _]]; [by destruct Hu|] end.
  apply Exists_app. right. by apply Exists_cons_hd.
Qed.

Lemma scan_tx_mine h tx s k out sec amount memo :
  Scanner.TxOutputs tx !! k = Some out → (∀ j y, Scanner.TxOutputs tx !! j = Some y → Scanner.Index y = Z.of_nat j) →
  mine tx out sec amount memo → Scanner.TxIsCoinbase tx = false → unseen (Scanner.ScanTxID tx, Z.of_nat k) s →
  seen (payment (Scanner.ScanTxID tx, Z.of_nat k) amount (DeriveBlinding sec (Z.of_nat k)) memo (Scanner.PubKey out) h)
    (Scanner.scan_tx cb scfg keys h s tx).
Proof.
  intros Hk Hi Hm Hc Hu. pose proof (Hi k out Hk) as Ei. unfold Scanner.scan_tx. apply foldl_inv.
  - eapply (foldl_middle (unseen (Scanner.ScanTxID tx, Z.of_nat k))); [exact Hk|done| | |].
    + intros a j y Hj Hne. apply unseen_output. rewrite (Hi j y Hj). intros [=]. lia.
    + intros a Ha. rewrite <- Ei. apply scan_output_mine; [done|done|by rewrite Ei].
    + intros a y _. apply seen_output.
  - intros s' ki _ Hs'. apply scan_key_image_inv; [done|intros; apply seen_mark; [apply payment_coin|done]|done].
Qed.

End Scan.

(** ** Blocks of the main chain *)

Lemma main_outputs main block tx o :
  block ∈ main → tx ∈ Transactions block → o ∈ Outputs tx → main_ring_member main (PublicKey o) (Commitment o) = true.
Proof.
  intros Hb Ht Ho. unfold main_ring_member. apply bool_decide_eq_true. unfold ring_keys. apply elem_of_list_to_set.
  apply list_elem_of_In, in_concat. exists (block_ring_keys block). split; [apply list_elem_of_In; by apply list_elem_of_fmap_2|].
  unfold block_ring_keys. apply in_concat. eexists. split; [apply list_elem_of_In; apply list_elem_of_fmap_2; exact Ht|].
  apply list_elem_of_In. by apply (list_elem_of_fmap_2 (λ out, canonicalRingIndexKey (PublicKey out) (Commitment out))).
Qed.

Lemma tx_data_outputs `{Crypto} tx j y :
  Scanner.TxOutputs (Scanner.tx_data tx) !! j = Some y → ∃ o, Outputs tx !! j = Some o ∧ y = Scanner.output_data j o.
Proof. cbn. rewrite list_lookup_imap. intros (o & Ho & ->)%fmap_Some. by exists o. Qed.

Lemma block_scannable `{Crypto} main block tx :
  wf_block block → block ∈ main → tx ∈ Transactions block →
  Forall (scannable (main_ring_member main)) (Scanner.TxOutputs (Scanner.tx_data tx)).
Proof.
  intros Hwf Hb Ht. apply Forall_lookup. intros j y (o & Ho & ->)%tx_data_outputs.
  pose proof (list_elem_of_lookup_2 _ _ _ Ho) as Hin.
  assert (wf_tx tx) as (_ & _ & _ & _ & _ & _ & Hwo). { destruct Hwf as [_ HF]. rewrite Forall_forall in HF. by apply HF. }
  rewrite Forall_forall in Hwo. destruct (Hwo o Hin) as (_ & ? & ? & _). split_and!; [done|done|]. by eapply main_outputs.
Qed.

Section Recovered.
Context `{HC : Crypto} `{!CryptoLaws HC} `{HN : Network} {R : Type}.
Context (select : bytes → bytes → M R (list bytes * list bytes * Z)) (prove : Z → bytes → M R bytes)
        (sign : list bytes → list bytes → Z → bytes → bytes → bytes → bytes → bytes → M R (bytes * bytes))
        (blinding : R → bytes * R) (stealth : bytes → bytes → M R (bytes * bytes * bytes))
        (txKey : bytes → list bytes → result bytes) (keyImage : bytes → result bytes)
        (secret : bytes → bytes → result bytes) (secretIndexed : bytes → bytes → Z → result bytes)
        (scalarToPubKey : bytes → result bytes) (checkStealth : bytes → bytes → bytes → bytes → bool)
        (spendKey : bytes → bytes → bytes → option bytes) (outSecret : bytes → bytes → option bytes)
        (outSecretIndexed : bytes → bytes → Z → option bytes) (main : list Block).

#[local] Abbreviation cb := (Scanner.MkWalletCallbacks checkStealth spendKey outSecret (Some outSecretIndexed)).
#[local] Abbreviation scfg := (Scanner.defaultScannerConfig keyImage scalarToPubKey).
#[local] Abbreviation laws := (StealthLaws secret secretIndexed scalarToPubKey outSecret outSecretIndexed).
#[local] Abbreviation spendable := (owned_ok (owns scalarToPubKey) (main_ring_member main)).
#[local] Abbreviation paid := (paid select prove sign blinding stealth txKey keyImage secret secretIndexed scalarToPubKey).

(** A recipient's output as the scanner sees it. *)
Lemma paid_mine h res tx k rc o keys :
  laws → key_pairs scalarToPubKey keys → scalarToPubKey (TxPrivKey res) = Ok (TxPublicKey tx) → is_u64 (RAmount rc) →
  RSpendPubKey rc = Wallet.SpendPubKey keys → RViewPubKey rc = Wallet.ViewPubKey keys →
  addressed select prove sign blinding stealth txKey keyImage secret secretIndexed scalarToPubKey (use_indexed (createTxBuilder select prove
    sign blinding stealth txKey keyImage secret secretIndexed scalarToPubKey) h) (TxPrivKey res) (RSpendPubKey rc) (RViewPubKey rc)
    (RAmount rc) (RMemo rc) (Z.of_nat k) o →
  ∃ s, mine scalarToPubKey outSecret outSecretIndexed keys (Scanner.tx_data tx) (Scanner.output_data k o) s (RAmount rc) (RMemo rc).
Proof.
  intros SL [_ Hv] Hk Hu -> -> (s & p & Es & Ep & Ea & Ec & Ed & Em). exists s. split; cbn; [|by exists p|done|by apply Ed|done].
  unfold deriveSecret in Es. destruct (use_indexed _ h); cbn in Es.
  - left. by eapply (st_indexed _ _ _ _ _ SL).
  - right. by eapply (st_shared _ _ _ _ _ SL).
Qed.

(** C12. A scan recovers what is paid.  Scanning a block of the main chain
    keeps the wallet's outputs apart and spendable: each opens its commitment
    to its amount, its private key belongs to its one-time key, and it is on
    the main chain, which is what [Transfer] needs of its inputs.  And for
    every transaction of the block that [Builder] made, and every recipient of
    it with the wallet's address, the wallet holds the output afterwards, with
    the amount and the memo that were sent, provided the output was not known
    before; below the activation height of indexed derivation as above it.
    The transactions of the block have different IDs; stealth derivation is as
    [StealthLaws] says. *)
Theorem scan_recovers block w failures lastHeight :
  laws → key_pairs scalarToPubKey (Wallet.Keys w) → wf_block block → block ∈ main →
  WalletSpec.wallet_ok w → Forall spendable (Wallet.Outputs w) →
  let w' := Scanner.sc_wallet (Scanner.ScanBlock cb scfg (Scanner.blockToScanData block) w failures lastHeight) in
  WalletSpec.wallet_ok w' ∧ Forall spendable (Wallet.Outputs w') ∧
  ∀ canonical h recipients res tx k rc,
    NoDup (Scanner.ScanTxID <$> (Scanner.tx_data <$> Transactions block)) → tx ∈ Transactions block →
    paid canonical h recipients res tx → recipients !! k = Some rc → is_u64 (RAmount rc) →
    RSpendPubKey rc = Wallet.SpendPubKey (Wallet.Keys w) → RViewPubKey rc = Wallet.ViewPubKey (Wallet.Keys w) →
    (ResultTxID res, Z.of_nat k) ∉ Wallet.outpoint <$> Wallet.Outputs w →
    ∃ o, o ∈ Wallet.Outputs w' ∧ Wallet.outpoint o = (ResultTxID res, Z.of_nat k) ∧ Wallet.Amount o = RAmount rc ∧
      Wallet.Memo o = RMemo rc ∧ Wallet.BlockHeight o = Height (Header block) ∧ Wallet.IsCoinbase o = false.
Proof.
  intros SL HK Hwf Hb Hw Ho w'. unfold w', Scanner.ScanBlock. cbn [Scanner.blockToScanData Scanner.DataHeight Scanner.DataTransactions].
  set (s0 := Scanner.MkScan w _ _ _ _ _). assert (sound scalarToPubKey (main_ring_member main) (Wallet.Keys w) s0) as H0 by by split.
  apply and_assoc. split.
  { assert (sound scalarToPubKey (main_ring_member main) (Wallet.Keys w)
      (foldl (Scanner.scan_tx cb scfg (Wallet.Keys w) (Height (Header block))) s0 (Scanner.tx_data <$> Transactions block))) as [_ Hs1 Hs2]; [|done].
    apply foldl_inv; [done|]. intros s x (tx & -> & Ht)%list_elem_of_fmap. eapply sound_tx; [done|done|by eapply block_scannable]. }
  intros canonical h recipients res tx k rc Hnd Ht Hp Hk Hu Es Ev Hf.
  destruct (pd_recipients _ _ _ _ _ _ _ _ _ _ _ _ _ _ _ Hp k rc Hk) as (o & Hlo & Had).
  destruct (paid_mine _ _ _ _ _ _ (Wallet.Keys w) SL HK (pd_key _ _ _ _ _ _ _ _ _ _ _ _ _ _ _ Hp) Hu Es Ev Had) as [s Hm].
  assert (Scanner.ScanTxID (Scanner.tx_data tx) = ResultTxID res) as Eid by (cbn; by rewrite (pd_id _ _ _ _ _ _ _ _ _ _ _ _ _ _ _ Hp)).
  destruct (list_elem_of_lookup_1 _ _ Ht) as [i Hi].
  assert ((Scanner.tx_data <$> Transactions block) !! i = Some (Scanner.tx_data tx)) as Hti by (by rewrite list_lookup_fmap, Hi).
  assert (seen (payment (ResultTxID res, Z.of_nat k) (RAmount rc) (DeriveBlinding s (Z.of_nat k)) (RMemo rc) (PublicKey o) (Height (Header block)))
    (foldl (Scanner.scan_tx cb scfg (Wallet.Keys w) (Height (Header block))) s0 (Scanner.tx_data <$> Transactions block))) as Hs.
  { eapply (foldl_middle (unseen (ResultTxID res, Z.of_nat k))); [exact Hti|exact Hf| | |].
    - intros a j y Hj Hne. apply unseen_tx. cbn [fst]. rewrite <- Eid. intros Ed. apply Hne. eapply NoDup_lookup; [exact Hnd| |].
      + rewrite list_lookup_fmap, Hj. done.
      + rewrite list_lookup_fmap, Hti. cbn. by rewrite Ed.
    - intros a Ha. rewrite <- Eid in Ha |- *. change (PublicKey o) with (Scanner.PubKey (Scanner.output_data k o)).
      eapply (scan_tx_mine _ _ _ _ _ _ _ _ (main_ring_member main)); [exact SL| | |exact Hm| |done].
      + cbn. by rewrite list_lookup_imap, Hlo.
      + intros j y (o' & _ & ->)%tx_data_outputs. done.
      + cbn. unfold IsCoinbase. pose proof (pd_inputs _ _ _ _ _ _ _ _ _ _ _ _ _ _ _ Hp). by destruct (Inputs tx).
    - intros a y _. apply seen_tx, payment_coin. }
  apply Exists_exists in Hs as (x & Hx & E1 & E2 & _ & E4 & _ & E6 & E7). by exists x.
Qed.

End Recovered.
