(* ===== verification/Miner.v ===== *)
(** * The miner ([miner.go])

    Block templates, the workers that search for a nonce, and their
    interleaving.  The workers run concurrently and share nothing but a
    one-place result channel, so a run of them is a sequence of turns, each
    one iteration of one worker's loop with the clock that it may read.  The
    caller's [select] is a choice among the channels that are ready. *)

From S2P Require Import Prelude Bytes Crypto Transaction TxCodec Block Header Consensus Memo Emission Validation Coinbase Storage Chain ChainOps Mempool.

(** ** State *)

Definition i32 (z : Z) : Z := (z + 2 ^ 31) `mod` 2 ^ 32 - 2 ^ 31.

Record MinerConfig : Type := MkMinerConfig {
  MinerSpendPub : bytes;
  MinerViewPub : bytes;
  ConfigThreads : Z;     (* int *)
}.

(** [newBlock] is a channel with room for one signal. *)
Record Miner : Type := MkMiner {
  config : MinerConfig;
  threads : Z;           (* atomic.Int32 *)
  running : bool;
  newBlock : bool;
  HashCount : Z;         (* uint64 *)
  BlocksFound : Z;       (* uint64 *)
}.

Definition NewMiner (config : MinerConfig) : Miner :=
  let threads := if ConfigThreads config <? 1 then 1 else ConfigThreads config in
  MkMiner config (i32 threads) false false 0 0.

Definition SetRewardKeys (spendPub viewPub : bytes) (m : Miner) : Miner :=
  MkMiner (MkMinerConfig spendPub viewPub (ConfigThreads (config m)))
    (threads m) (running m) (newBlock m) (HashCount m) (BlocksFound m).

Definition set_signal (s : bool) (m : Miner) : Miner :=
  MkMiner (config m) (threads m) (running m) s (HashCount m) (BlocksFound m).

Definition NotifyNewBlock (m : Miner) : Miner := set_signal true m.

Definition set_threads (n : Z) (m : Miner) : Miner :=
  MkMiner (config m) n (running m) (newBlock m) (HashCount m) (BlocksFound m).

(** [ncpu] is the number of processors. *)
Definition SetThreads (ncpu n : Z) (m : Miner) : Miner :=
  let n := if n <? 1 then 1 else n in
  let maxThreads := Z.max ncpu 1 in
  let n := if maxThreads <? n then maxThreads else n in
  let prev := threads m in
  let m := set_threads (i32 n) m in
  if negb (prev =? n) && running m then NotifyNewBlock m else m.

Definition Threads (m : Miner) : Z := if threads m <? 1 then 1 else threads m.

(** ** Workers *)

Record worker : Type := MkWorker {
  nonce : Z;             (* uint64 *)
  localHeader : bytes;
  lastTimestamp : Z;     (* int64 *)
}.

Record mineResult : Type := MkMineResult { win_nonce : Z; win_timestamp : Z }.

(** One iteration: a win ends the worker; [counted] tells whether a hash was
    computed. *)
Inductive turn : Type :=
  | Won (r : mineResult)
  | Tried (w : worker) (counted : bool).

Section Worker.
Context `{Crypto} (target : bytes) (numThreads threadID : Z).

Definition new_worker (headerBytes : bytes) (timestamp : Z) : worker :=
  MkWorker (u64 threadID) headerBytes timestamp.

(** [binary.LittleEndian.PutUint64(localHeader[76:84], uint64(newTime))] *)
Definition put_timestamp (header : bytes) (newTime : Z) : result bytes :=
  if decide (84 <= length header)%nat then Ok (write_at header 76 (le_bytes 8 (u64 newTime))) else Panic.

Definition refresh_timestamp (now : Z) (w : worker) : result worker :=
  let step := u64 numThreads in
  if nonce w `mod` u64 (step * 10) =? u64 threadID then
    if negb (now =? lastTimestamp w) then
      header ← put_timestamp (localHeader w) now;
      Ok (MkWorker (nonce w) header now)
    else Ok w
  else Ok w.

Definition worker_turn (now : Z) (w : worker) : result turn :=
  let step := u64 numThreads in
  let next := MkWorker (u64 (nonce w + step)) (localHeader w) (lastTimestamp w) in
  match PowHash (localHeader w) (nonce w) with
  | Ok hash =>
      if PowCheckTarget hash target then Ok (Won (MkMineResult (nonce w) (lastTimestamp w)))
      else w' ← refresh_timestamp now next; Ok (Tried w' true)
  | _ => Ok (Tried next false)
  end.

End Worker.

(** ** The workers together *)

(** A worker that has returned is [None]; the channel holds one result. *)
Record mining : Type := MkMining {
  workers : list (option worker);
  resultChan : option mineResult;
  hashes : Z;
}.

Section Mining.
Context `{Crypto} (target : bytes).

Definition start_workers (numThreads : Z) (headerBytes : bytes) (timestamp : Z) : mining :=
  MkMining ((λ t, Some (new_worker (Z.of_nat t) headerBytes timestamp)) <$> seq 0 (Z.to_nat numThreads)) None 0.

(** A turn of worker [t]; a worker that is not there takes none. *)
Definition mining_turn (numThreads : Z) (t : nat) (now : Z) (s : mining) : result mining :=
  match workers s !! t with
  | Some (Some w) =>
      r ← worker_turn target numThreads (Z.of_nat t) now w;
      match r with
      | Won win =>
          Ok (MkMining (<[t := None]> (workers s)) (Some (default win (resultChan s))) (u64 (hashes s + 1)))
      | Tried w' counted =>
          Ok (MkMining (<[t := Some w']> (workers s)) (resultChan s)
                (if counted then u64 (hashes s + 1) else hashes s))
      end
  | _ => Ok s
  end.

Fixpoint mining_run (numThreads : Z) (turns : list (nat * Z)) (s : mining) : result mining :=
  match turns with
  | [] => Ok s
  | (t, now) :: turns => s' ← mining_turn numThreads t now s; mining_run numThreads turns s'
  end.

End Mining.

(** ** Mining a block *)

(** The caller's [select], once the turns are over. *)
Inductive selected : Type := CtxDone | NewBlockSignal | Result_.

Inductive mine_outcome : Type :=
  | Mined (b : Block)
  | Stopped (e : error)
  | Waiting.

Definition errNewBlock : error := Errorf "new block received, restarting".
Definition errCanceled : error := Errorf "context canceled".

Section MineBlock.
Context `{Crypto} `{Network} `{MathLib}.
Context (DeriveStealthAddress : bytes → bytes → result StealthOutput)
        (CreateRangeProof : Z → bytes → result bytes) (padding : nat → option bytes).

(** The chain is locked for each of the four reads separately, so each has a
    state of its own. *)
Record chain_reads : Type := MkReads {
  at_coinbase : Chain;
  at_height : Chain;
  at_best : Chain;
  at_difficulty : Chain;
}.

Definition assemble (m : Miner) (rs : chain_reads) (now : Z) (mempool : list Transaction) : result Block :=
  let nextHeight := u64 (height (at_coinbase rs) + 1) in
  coinbase ← wrap "failed to create coinbase"
    (CreateCoinbase DeriveStealthAddress CreateRangeProof padding
       (MinerSpendPub (config m)) (MinerViewPub (config m)) (GetBlockReward nextHeight) nextHeight);
  let txs := coinbase :: mempool in
  difficulty ← NextDifficulty (at_difficulty rs);
  let header root := MkBlockHeader 1 (u64 (height (at_height rs) + 1)) (bestHash (at_best rs)) root now difficulty 0 in
  merkleRoot ← wrap "failed to compute merkle root" (ComputeMerkleRoot (MkBlock (header (zeros 32)) txs));
  Ok (MkBlock (header merkleRoot) txs).

(** [block.Header.Nonce = win.nonce; block.Header.Timestamp = win.timestamp] *)
Definition seal (b : Block) (win : mineResult) : Block :=
  let h := Header b in
  MkBlock (MkBlockHeader (HVersion h) (Height h) (PrevHash h) (MerkleRoot h) (win_timestamp win)
             (Difficulty h) (win_nonce win)) (Transactions b).

Definition add_hashes (n : Z) (m : Miner) : Miner :=
  MkMiner (config m) (threads m) (running m) (newBlock m) (u64 (HashCount m + n)) (BlocksFound m).

Definition found_block (m : Miner) : Miner :=
  MkMiner (config m) (threads m) (running m) (newBlock m) (HashCount m) (u64 (BlocksFound m + 1)).

(** [notified]: [NotifyNewBlock] was called while the workers were running. *)
Definition MineBlock (rs : chain_reads) (now : Z) (mempool : list Transaction)
    (turns : list (nat * Z)) (notified : bool) (choice : selected) (m : Miner) : result mine_outcome * Miner :=
  match
    block ← assemble m rs now mempool;
    headerBytes ← SerializeForPoW (Header block);
    s ← mining_run (DifficultyToTarget (Difficulty (Header block))) (Threads m) turns
          (start_workers (Threads m) headerBytes (Timestamp (Header block)));
    Ok (block, s)
  with
  | Ok (block, s) =>
      let m := add_hashes (hashes s) m in
      let m := if notified then NotifyNewBlock m else m in
      match choice with
      | CtxDone => (Ok (Stopped errCanceled), m)
      | NewBlockSignal =>
          if newBlock m then (Ok (Stopped errNewBlock), set_signal false m) else (Ok Waiting, m)
      | Result_ =>
          match resultChan s with
          | Some win => (Ok (Mined (seal block win)), found_block m)
          | None => (Ok Waiting, m)
          end
      end
  | Err e => (Err e, m)
  | Panic => (Panic, m)
  end.

(** One round of the loop of [Start], with peers: pending signals are dropped,
    the mempool is asked for transactions, and a block is mined. *)
Definition mine_round `{MapOrder} (rs : chain_reads) (now : Z) (mempool : option Mempool)
    (turns : list (nat * Z)) (notified : bool) (choice : selected) (m : Miner) : result mine_outcome * Miner :=
  let m := set_signal false m in
  let txs := match mempool with
             | Some pool => GetTransactionsForBlock pool (MaxBlockSize - 1000) 1000
             | None => []
             end in
  MineBlock rs now txs turns notified choice m.

End MineBlock.
