(* ===== verification/MinerSpec.v ===== *)
(** * What the miner finds

    A result of the workers, in whatever order they take their turns, is
    proof of work for the header it is put into; every nonce has a worker
    that tries it; and a block mined on a quiet chain is one that the node
    accepts. *)

From S2P Require Import Prelude Bytes Crypto Instances Pow Transaction TxCodec Block Header Merkle ExchangeSort Consensus Hoare Reads Difficulty Memo Emission Validation Coinbase Validity Binding Storage StorageFacts Chain ChainOps ChainInv Branches Ancestors Windows Restart Mempool MempoolQueue MempoolInv MempoolOps MempoolChain MempoolSelect Miner.

(** ** Headers *)

Definition with_work (h : BlockHeader) (t n : Z) : BlockHeader :=
  MkBlockHeader (HVersion h) (Height h) (PrevHash h) (MerkleRoot h) t (Difficulty h) n.

Lemma wf_with_work h t n : wf_header h → is_i64 t → is_u64 n → wf_header (with_work h t n).
Proof. intros (? & ? & ? & ? & ? & ? & ?) ??. done. Qed.

(** The timestamp lies at offset 76 of what is hashed. *)
Lemma put_timestamp_encode h t n t' :
  wf_header h →
  put_timestamp (encode_header_no_nonce (with_work h t n)) t' = Ok (encode_header_no_nonce (with_work h t' n)).
Proof.
  intros (_ & _ & Hp & Hm & _). unfold put_timestamp.
  set (pre := le_bytes 4 (HVersion h) ++ le_bytes 8 (Height h) ++ PrevHash h ++ MerkleRoot h).
  assert (length pre = 76%nat) as Hl by (unfold pre; rewrite !length_app, !length_le_bytes; lia).
  assert (∀ t, encode_header_no_nonce (with_work h t n) = pre ++ le_bytes 8 (u64 t) ++ le_bytes 8 (Difficulty h)) as E.
  { intros x. unfold encode_header_no_nonce, pre. cbn. by rewrite <- !app_assoc. }
  rewrite !E. rewrite decide_True by (rewrite !length_app, !length_le_bytes; lia).
  f_equal. unfold write_at. rewrite <- Hl, take_app_length. f_equal.
  rewrite take_ge by (rewrite !length_app, !length_le_bytes; lia). f_equal.
  rewrite (app_assoc pre), drop_app_length'; [done|]. rewrite length_app, !length_le_bytes. lia.
Qed.

(** ** A worker *)

Section Work.
Context `{HC : Crypto} (h : BlockHeader) (Hwf : wf_header h).

#[local] Abbreviation target := (DifficultyToTarget (Difficulty h)).

(** Proof of work at a timestamp and a nonce. *)
Definition wins (t n : Z) : bool := validatePoW (with_work h t n).

Lemma wins_hash t n :
  is_i64 t → is_u64 n →
  wins t n = match PowHash (encode_header_no_nonce (with_work h t 0)) n with
             | Ok hash => PowCheckTarget hash target
             | _ => false
             end.
Proof.
  intros Ht Hn. unfold wins, validatePoW. by rewrite SerializeForPoW_encode by by apply wf_with_work.
Qed.

(** The clock readings a run may use. *)
Context (clock : Z → Prop) (Hclock : ∀ t, clock t → is_i64 t).

Record worker_ok (w : worker) : Prop := {
  wo_nonce : is_u64 (nonce w);
  wo_clock : clock (lastTimestamp w);
  wo_header : localHeader w = encode_header_no_nonce (with_work h (lastTimestamp w) 0);
}.

Lemma refresh_timestamp_ok N t now w :
  clock now → worker_ok w → ∃ w', refresh_timestamp N t now w = Ok w' ∧ worker_ok w' ∧ nonce w' = nonce w ∧
    (now = lastTimestamp w → w' = w).
Proof.
  intros Hnow [Hn Hc Hh]. unfold refresh_timestamp.
  destruct (_ =? _); [|by exists w]. destruct (Z.eqb_spec now (lastTimestamp w)); cbn [negb]; [by exists w|].
  rewrite Hh, put_timestamp_encode by done. cbn. by eexists.
Qed.

(** One turn wins exactly at proof of work, and else goes to the next nonce. *)
Lemma worker_turn_ok N t now w :
  clock now → worker_ok w →
  if wins (lastTimestamp w) (nonce w)
  then worker_turn target N t now w = Ok (Won (MkMineResult (nonce w) (lastTimestamp w)))
  else ∃ w' counted, worker_turn target N t now w = Ok (Tried w' counted) ∧ worker_ok w' ∧
         nonce w' = u64 (nonce w + u64 N) ∧ (now = lastTimestamp w → lastTimestamp w' = lastTimestamp w).
Proof.
  intros Hnow Hw. pose proof Hw as [Hn Hc Hh]. rewrite wins_hash by auto. unfold worker_turn. cbv zeta.
  set (next := MkWorker _ _ _). rewrite Hh. assert (worker_ok next) as Hx by (split; cbn; [apply u64_range|done|done]).
  destruct (PowHash _ _) as [hash|e|]; [|by exists next, false..].
  destruct (PowCheckTarget hash target); [done|].
  destruct (refresh_timestamp_ok N t now next Hnow Hx) as (w' & -> & Hw' & En & Et). cbn.
  exists w', true. split_and!; [done|done|done|]. intros E. by rewrite (Et E).
Qed.

(** ** All workers *)

Definition result_ok (r : mineResult) : Prop :=
  is_u64 (win_nonce r) ∧ clock (win_timestamp r) ∧ wins (win_timestamp r) (win_nonce r) = true.

Record mining_ok (s : mining) : Prop := {
  mo_workers : ∀ t w, workers s !! t = Some (Some w) → worker_ok w;
  mo_result : ∀ r, resultChan s = Some r → result_ok r;
}.

Lemma start_workers_ok N ts : clock ts → mining_ok (start_workers N (encode_header_no_nonce (with_work h ts 0)) ts).
Proof.
  intros Hc. split; [|done]. intros t w. cbn. rewrite list_lookup_fmap. intros (x & _ & [= ->])%fmap_Some.
  split; cbn; [apply u64_range|done|done].
Qed.

Lemma workers_insert s t (o : option worker) :
  (∀ t w, workers s !! t = Some (Some w) → worker_ok w) → (∀ w, o = Some w → worker_ok w) →
  ∀ t' w, <[t := o]> (workers s) !! t' = Some (Some w) → worker_ok w.
Proof.
  intros Hs Ho t' w. destruct (decide (t = t')) as [<-|Hne].
  - intros Hl. destruct (decide (t < length (workers s))%nat) as [Hlt|Hge].
    + rewrite list_lookup_insert_eq in Hl by done. injection Hl. apply Ho.
    + rewrite list_insert_ge in Hl by lia. eauto.
  - rewrite list_lookup_insert_ne by done. apply Hs.
Qed.

Lemma mining_turn_ok N t now s :
  clock now → mining_ok s → ∃ s', mining_turn target N t now s = Ok s' ∧ mining_ok s'.
Proof.
  intros Hnow [Hw Hr]. unfold mining_turn. destruct (workers s !! t) as [[w|]|] eqn:E; [|by exists s..].
  pose proof (worker_turn_ok N (Z.of_nat t) now w Hnow (Hw _ _ E)) as Ht.
  destruct (wins _ _) eqn:Ew.
  - rewrite Ht. eexists. split; [done|]. split; cbn; [by apply workers_insert|].
    intros r [= <-]. destruct (resultChan s) as [r|]; cbn; [by apply Hr|]. destruct (Hw _ _ E). by split_and!.
  - destruct Ht as (w' & counted & -> & Hw' & _). eexists. split; [done|]. split; cbn; [|done].
    apply workers_insert; [done|]. by intros ? [= <-].
Qed.

Lemma mining_run_ok N turns s :
  Forall clock turns.*2 → mining_ok s → ∃ s', mining_run target N turns s = Ok s' ∧ mining_ok s'.
Proof.
  revert s. induction turns as [|[t now] turns IH]; intros s Hc Hs; cbn [mining_run]; [by exists s|].
  apply Forall_cons in Hc as [Hnow Hc]. destruct (mining_turn_ok N t now s Hnow Hs) as (s1 & -> & H1). by apply IH.
Qed.

(** A result stays. *)
Lemma mining_turn_result N t now s s' :
  mining_turn target N t now s = Ok s' → resultChan s' = None → resultChan s = None.
Proof.
  unfold mining_turn. destruct (workers s !! t) as [[w|]|]; [|by intros [= <-]..].
  destruct (worker_turn _ _ _ _ _) as [[]| |]; cbn; [| |done|done]; by intros [= <-].
Qed.

Lemma mining_run_result N turns s s' :
  mining_run target N turns s = Ok s' → resultChan s' = None → resultChan s = None.
Proof.
  revert s. induction turns as [|[t now] turns IH]; intros s; cbn [mining_run]; [by intros [= <-]|].
  destruct (mining_turn _ _ _ _ _) as [s1| |] eqn:E; cbn; [|done|done].
  intros Hr Hn. by eapply mining_turn_result, IH.
Qed.

End Work.

(** ** Coverage of the nonces *)

Definition turns_of (t : nat) (turns : list (nat * Z)) : nat := length (filter (λ x, x.1 = t) turns).

Section Coverage.
Context `{HC : Crypto} (h : BlockHeader) (Hwf : wf_header h) (ts : Z) (Hts : is_i64 ts).

#[local] Abbreviation target := (DifficultyToTarget (Difficulty h)).
#[local] Abbreviation at_ts := (λ x : Z, x = ts).

Lemma clock_ts t : t = ts → is_i64 t.
Proof. by intros ->. Qed.

(** With the clock standing still, a worker that took [k] turns without a
    result has tried [k] nonces, [N] apart. *)
Lemma tried_nonces N t turns s s' w j :
  Forall at_ts turns.*2 → mining_ok h at_ts s → workers s !! t = Some (Some w) →
  mining_run target N turns s = Ok s' → resultChan s' = None → (j < turns_of t turns)%nat →
  wins h ts (u64 (nonce w + Z.of_nat j * u64 N)) = false.
Proof.
  revert s w j. induction turns as [|[t' now] turns IH]; intros s w j Hc Hs Hw; cbn [mining_run]; [cbn; lia|].
  cbn [fmap list_fmap snd] in Hc. apply Forall_cons in Hc as [-> Hc].
  destruct (mining_turn_ok h Hwf at_ts clock_ts N t' ts s eq_refl Hs) as (s1 & E1 & H1). rewrite E1. cbn [mbind result_bind].
  intros Er En Hj. pose proof (mining_run_result h N turns s1 s' Er En) as En1.
  unfold turns_of in Hj. destruct (decide (t' = t)) as [->|Hne]; cycle 1.
  { rewrite filter_cons_False in Hj by done. apply (IH s1); try done. clear IH Er. unfold mining_turn in E1.
    destruct (workers s !! t') as [[w'|]|]; [|by simplify_eq..]. destruct (worker_turn _ _ _ _ _) as [[]| |]; [| |done|done];
      injection E1 as <-; cbn; by rewrite list_lookup_insert_ne. }
  rewrite filter_cons_True in Hj by done. cbn [length] in Hj.
  pose proof (mo_workers _ _ _ Hs _ _ Hw) as Hok. pose proof (wo_clock _ _ _ Hok) as Et.
  pose proof (worker_turn_ok h Hwf at_ts clock_ts N (Z.of_nat t) ts w eq_refl Hok) as Ht. rewrite Et in Ht.
  pose proof (u64_small _ (wo_nonce _ _ _ Hok)) as Eu.
  unfold mining_turn in E1. rewrite Hw in E1. destruct (wins h ts (nonce w)) eqn:Ew.
  { rewrite Ht in E1. injection E1 as <-. done. }
  destruct Ht as (w' & counted & E & Hok' & En' & _). rewrite E in E1. injection E1 as <-.
  destruct j as [|j]; [by rewrite Z.mul_0_l, Z.add_0_r, Eu|].
  specialize (IH _ w' j Hc H1 ltac:(cbn; apply list_lookup_insert_eq; by eapply lookup_lt_Some) Er En).
  rewrite En' in IH. unfold turns_of in IH. rewrite <- IH by lia. f_equal. clear. generalize (u64 N). intros z. unfold u64.
  rewrite Zplus_mod_idemp_l. f_equal. lia.
Qed.

(** The worker of a winning nonce cannot pass it by. *)
Lemma winning_turn N turns n s' :
  1 <= N < 2 ^ 31 → Forall at_ts turns.*2 → is_u64 n → wins h ts n = true →
  (Z.to_nat (n `div` N) < turns_of (Z.to_nat (n `mod` N)) turns)%nat →
  mining_run target N turns (start_workers N (encode_header_no_nonce (with_work h ts 0)) ts) = Ok s' →
  resultChan s' ≠ None.
Proof.
  intros HN Hc Hn Hw Hj Er En. set (t := Z.to_nat (n `mod` N)) in *.
  pose proof (Z.mod_pos_bound n N ltac:(lia)) as Hm. pose proof (Z.div_pos n N ltac:(unfold is_u64 in Hn; lia) ltac:(lia)) as Hd.
  assert (u64 N = N) as EN by (apply u64_small; unfold is_u64; lia).
  pose proof (tried_nonces N t turns _ s' (new_worker (Z.of_nat t) (encode_header_no_nonce (with_work h ts 0)) ts)
    (Z.to_nat (n `div` N)) Hc (start_workers_ok h at_ts N ts eq_refl)) as H.
  specialize (H ltac:(cbn; rewrite list_lookup_fmap, lookup_seq_lt by lia; done) Er En Hj).
  cbn [new_worker nonce] in H. rewrite EN in H. unfold t in H. rewrite !Z2Nat.id in H by lia.
  rewrite (u64_small (n `mod` N)) in H by (unfold is_u64 in *; lia).
  replace (n `mod` N + n `div` N * N) with n in H by (pose proof (Z.div_mod n N ltac:(lia)); lia).
  rewrite (u64_small n Hn) in H. congruence.
Qed.

End Coverage.

(** ** Templates *)

Lemma computeMerkleRoot_length `{HC : Crypto} `{!CryptoLaws HC} l :
  l ≠ [] → hashes32 l → length (computeMerkleRoot l) = 32%nat.
Proof.
  intros Hne Hl. destruct (root_is_level l Hne) as [j Ej].
  assert (hashes32 (Nat.iter j level l)) as Hj by (clear Ej; induction j; cbn; [done|by apply level_hashes32]).
  rewrite <- Ej in Hj. by apply Forall_cons in Hj as [? _].
Qed.

Lemma ComputeMerkleRoot_length `{HC : Crypto} `{!CryptoLaws HC} b root :
  Transactions b ≠ [] → Forall wf_tx (Transactions b) → Forall rings_match (Transactions b) →
  ComputeMerkleRoot b = Ok root → length root = 32%nat.
Proof.
  intros Hne Hw Hr. unfold ComputeMerkleRoot. rewrite decide_False, mapM_txid by done. intros [= <-].
  apply computeMerkleRoot_length; [by destruct (Transactions b)|].
  apply Forall_fmap, Forall_true. intros tx. apply sha3_256_length.
Qed.

Lemma branch_difficulty_bounds l d : branch_difficulty l = Ok d → MinDifficulty <= d ∧ is_u64 d.
Proof.
  unfold branch_difficulty. destruct (_ <=? _); [by intros [= <-]|].
  destruct (lwma _) as [d'|] eqn:E; [|done]. intros [= <-]. apply fmap_Some in E as ([ws ds] & _ & ->).
  unfold lwma_result. set (x := u64 (_ * _)). set (y := u64 _).
  pose proof (u64_range (ds `div` Z.of_nat LWMAWindow * u64 (BlockIntervalSec * weightSum))) as Hx. fold x in Hx.
  pose proof (u64_range (if ws <? 1 then 1 else ws)) as Hy. fold y in Hy. clearbody x y.
  assert (0 <= x `div` y < 2 ^ 64).
  { unfold is_u64 in *. destruct (Z.eq_dec y 0) as [->|]; [by rewrite Z.div_0_r|]. split; [apply Z.div_pos; lia|].
    apply Z.div_lt_upper_bound; [lia|]. nia. }
  destruct (Z.ltb_spec (x `div` y) MinDifficulty); [done|]. unfold is_u64. lia.
Qed.

Section Templates.
Context `{HC : Crypto} `{!CryptoLaws HC} `{HN : Network} `{HM : MathLib} `{HJ : JSON} `{!JSONLaws HJ}.
Context (stealth : bytes → bytes → result StealthOutput) (prove : Z → bytes → result bytes) (padding : nat → option bytes).

#[local] Abbreviation assemble := (assemble stealth prove padding).
#[local] Abbreviation MineBlock := (MineBlock stealth prove padding).

Lemma assemble_inv m rs now txs b :
  assemble m rs now txs = Ok b →
  ∃ cb d, CreateCoinbase stealth prove padding (MinerSpendPub (config m)) (MinerViewPub (config m))
            (GetBlockReward (u64 (height (at_coinbase rs) + 1))) (u64 (height (at_coinbase rs) + 1)) = Ok cb ∧
    NextDifficulty (at_difficulty rs) = Ok d ∧ Transactions b = cb :: txs ∧
    ComputeMerkleRoot b = Ok (MerkleRoot (Header b)) ∧
    Header b = MkBlockHeader 1 (u64 (height (at_height rs) + 1)) (bestHash (at_best rs)) (MerkleRoot (Header b)) now d 0.
Proof.
  unfold Miner.assemble. intros (cb & Hcb & (d & Hd & (root & Hr & [= <-])%bind_Ok)%bind_Ok)%bind_Ok.
  apply wrap_Ok in Hcb, Hr. by exists cb, d.
Qed.

Lemma seal_header b win : Header (seal b win) = with_work (Header b) (win_timestamp win) (win_nonce win).
Proof. done. Qed.

Lemma MineBlock_inv rs now txs turns notified choice m b m' :
  MineBlock rs now txs turns notified choice m = (Ok (Mined b), m') →
  ∃ block hb s win, assemble m rs now txs = Ok block ∧ SerializeForPoW (Header block) = Ok hb ∧
    mining_run (DifficultyToTarget (Difficulty (Header block))) (Threads m) turns
      (start_workers (Threads m) hb (Timestamp (Header block))) = Ok s ∧
    resultChan s = Some win ∧ b = seal block win.
Proof.
  unfold Miner.MineBlock. destruct (assemble m rs now txs) as [block| |] eqn:Ea; cbn [mbind result_bind]; [|done|done].
  destruct (SerializeForPoW (Header block)) as [hb| |] eqn:Eh; cbn [mbind result_bind]; [|done|done].
  destruct (mining_run _ _ _ _) as [s| |] eqn:Es; cbn [mbind result_bind]; [|done|done].
  destruct choice; [done|destruct (newBlock _); done|]. destruct (resultChan s) as [win|] eqn:Ew; [|done].
  intros [= <- _]. by exists block, hb, s, win.
Qed.

(** What comes out of a run is the template with proof of work, at a time the
    clock showed. *)
Lemma MineBlock_work rs now txs turns notified choice m b m' :
  (∀ block, assemble m rs now txs = Ok block → wf_header (Header block)) → Forall is_i64 (now :: turns.*2) →
  MineBlock rs now txs turns notified choice m = (Ok (Mined b), m') →
  ∃ block win, assemble m rs now txs = Ok block ∧ b = seal block win ∧ wf_header (Header b) ∧
    validatePoW (Header b) = true ∧ Timestamp (Header b) ∈ now :: turns.*2.
Proof.
  intros Hwf Hc (block & hb & s & win & Ea & Eh & Es & Ew & ->)%MineBlock_inv. specialize (Hwf _ Ea).
  destruct (assemble_inv _ _ _ _ _ Ea) as (cb & d & _ & _ & _ & _ & Hh). set (h := Header block) in *.
  rewrite SerializeForPoW_encode in Eh by done. injection Eh as <-.
  set (clock := λ t, t ∈ now :: turns.*2). rewrite Forall_forall in Hc.
  assert (Timestamp h = now) as Et by by rewrite Hh.
  replace (encode_header_no_nonce h) with (encode_header_no_nonce (with_work h (Timestamp h) 0)) in Es by (by destruct h).
  destruct (mining_run_ok h Hwf clock Hc (Threads m) turns _ ltac:(apply Forall_forall; by right)
    (start_workers_ok h clock (Threads m) (Timestamp h) ltac:(unfold clock; rewrite Et; by left))) as (s' & Es' & [_ Hr]).
  rewrite Es in Es'. injection Es' as <-. destruct (Hr _ Ew) as (Hn & Ht & Hw).
  exists block, win. split_and!; [done|done| |exact Hw|exact Ht]. apply wf_with_work; [done|by apply Hc|done].
Qed.

(** Templates of a quiet chain. *)
Lemma assemble_wf m c now txs block main known :
  CoinbaseLaws stealth prove → core main known c → recent main c → is_i64 now →
  Forall wf_tx txs → Forall rings_match txs →
  assemble m (MkReads c c c c) now txs = Ok block →
  wf_header (Header block) ∧ Forall wf_tx (Transactions block).
Proof.
  intros HL Hi W Hn Hw Hr Ea. destruct (assemble_inv _ _ _ _ _ Ea) as (cb & d & Ecb & Ed & Etx & Eroot & Eh).
  cbn [at_coinbase at_difficulty at_height at_best] in *.
  destruct (CreateCoinbase_wf _ _ _ _ _ _ _ _ HL Ecb) as (_ & Hcw & Hcr).
  unfold NextDifficulty in Ed. rewrite (nextDifficulty_recent _ _ _ Hi W) in Ed.
  destruct (branch_difficulty_bounds _ _ Ed) as [_ Hd].
  assert (Forall wf_tx (Transactions block)) as Hwb by (rewrite Etx; by constructor).
  split; [|done]. rewrite Eh. split_and!; cbn; [done|apply u64_range| | |done|done|done].
  - rewrite (co_best _ _ _ Hi). pose proof (rep_nonempty _ _ _ (co_rep _ _ _ Hi)).
    destruct main as [|b l _] using rev_ind; [done|]. rewrite tip_hash_snoc. apply BlockHash_length.
  - eapply ComputeMerkleRoot_length; [by rewrite Etx|done|rewrite Etx; by constructor|done].
Qed.

Lemma pool_transactions `{HO : MapOrder} `{!MapOrderLaws HO} pool maxSize maxCount (P : Transaction → Prop) :
  pool_ok pool → (∀ id tx, GetTransaction pool id = Some tx → P tx) → (∀ tx, P tx → NoDup (key_images tx)) →
  Forall (λ tx, P tx ∧ wf_tx tx ∧ rings_match tx ∧ IsCoinbase tx = false) (GetTransactionsForBlock pool maxSize maxCount) ∧
  NoDup (concat (key_images <$> GetTransactionsForBlock pool maxSize maxCount)).
Proof.
  intros Hp HP Hk. unfold GetTransactionsForBlock. set (l := select _ _ _ _ _).
  pose proof (select_sublist maxSize maxCount 0 0 (GetAllEntries pool)) as Hsub. fold l in Hsub.
  assert (Forall (λ e, entry pool (ETxID e) = Some e) l) as Hl.
  { eapply Forall_sublist; [|done]. apply Forall_forall. intros e. by apply elem_of_GetAllEntries. }
  assert (NoDup (ETxID <$> l)) as Hnd by (eapply sublist_NoDup; [by apply GetAllEntries_NoDup|by apply fmap_sublist]).
  assert (∀ e, e ∈ l → P (ETx e)) as HPl.
  { intros e He. rewrite Forall_forall in Hl. apply (HP (ETxID e)). unfold GetTransaction. by rewrite (Hl e He). }
  split.
  - apply Forall_fmap, Forall_forall. intros e He. cbn. split; [by apply HPl|]. rewrite Forall_forall in Hl.
    specialize (Hl e He). apply entry_content in Hl. by destruct (content_good _ _ _ Hp Hl) as (_ & _ & ? & ? & ? & _).
  - apply (selection_key_images pool); [done| |done]. intros e He. rewrite Forall_forall in Hl. auto.
Qed.

(** The parts of a mined block. *)
Record mined (m : Miner) (c : Chain) (txs : list Transaction) (clock : list Z) (b : Block) : Prop := {
  mi_version : HVersion (Header b) = 1;
  mi_height : Height (Header b) = u64 (height c + 1);
  mi_prev : PrevHash (Header b) = bestHash c;
  mi_difficulty : NextDifficulty c = Ok (Difficulty (Header b));
  mi_root : ComputeMerkleRoot b = Ok (MerkleRoot (Header b));
  mi_pow : validatePoW (Header b) = true;
  mi_time : Timestamp (Header b) ∈ clock;
  mi_txs : ∃ cb, Transactions b = cb :: txs ∧
    CreateCoinbase stealth prove padding (MinerSpendPub (config m)) (MinerViewPub (config m))
      (GetBlockReward (Height (Header b))) (Height (Header b)) = Ok cb;
}.

Lemma MineBlock_mined m m' main known c start turns notified choice txs b :
  CoinbaseLaws stealth prove → core main known c → recent main c → Forall is_i64 (start :: turns.*2) →
  Forall wf_tx txs → Forall rings_match txs →
  MineBlock (MkReads c c c c) start txs turns notified choice m = (Ok (Mined b), m') →
  mined m c txs (start :: turns.*2) b.
Proof.
  intros HL Hi W Hc Hw Hr Em.
  destruct (MineBlock_work _ _ _ _ _ _ _ _ _ ltac:(intros block Ea; by eapply assemble_wf; [..|exact Ea];
    [done|done|done|apply Forall_cons in Hc as [? _]|..]) Hc Em) as (block & win & Ea & Eb & Hwb & Hpow & Htime).
  destruct (assemble_inv _ _ _ _ _ Ea) as (cb & d & Ecb & Ed & Etx & Eroot & Eh).
  cbn [at_coinbase at_difficulty at_height at_best] in *.
  assert (Header b = with_work (Header block) (win_timestamp win) (win_nonce win)) as Ehb by by rewrite Eb.
  split; [..|done|done|exists cb; split; [by rewrite Eb|]].
  all: rewrite Ehb, Eh; cbn; try done. rewrite Eb. exact Eroot.
Qed.

(** The memo of a coinbase is not the one that validation refuses. *)
Definition memo_fits (b : Block) : Prop :=
  ∀ cb, head (Transactions b) = Some cb → Forall (λ o, EncryptedMemo o ≠ zeroMemo) (Outputs cb).

Lemma valid_body_memo spent canonical b : valid_body spent canonical b → memo_fits b.
Proof.
  intros (_ & (cb & rest & Etx & Hcb & _) & Hv & _). unfold memo_fits. rewrite Etx in *. intros ? [= <-].
  apply Forall_cons in Hv as [[_ [(_ & _ & out & -> & Ho & _)|(Hne & _)]] _].
  - by constructor.
  - unfold IsCoinbase in Hcb. by destruct (Inputs cb).
Qed.

Section Mined.
Context (m : Miner) (main : list Block) (known : bytes → option Block) (c : Chain) (txs : list Transaction) (clock : list Z) (b : Block).
Context (HL : CoinbaseLaws stealth prove) (Hi : core main known c) (W : recent main c) (Hb : mined m c txs clock b).

Lemma mined_height : Height (Header b) = Z.of_nat (length main) ∧ (1 <= length main)%nat.
Proof.
  pose proof (rep_nonempty _ _ _ (co_rep _ _ _ Hi)) as Hne. pose proof (good_path_length _ _ _ (co_main _ _ _ Hi)).
  assert (1 <= length main)%nat by (destruct main; [done|cbn; lia]). split; [|done].
  rewrite (mi_height _ _ _ _ _ Hb), (co_height _ _ _ Hi). rewrite u64_small; [lia|unfold is_u64; lia].
Qed.

Lemma mined_linkage now tip med :
  known (bestHash c) = Some tip → median_time known tip 11 = Ok med →
  Forall (λ t, Timestamp (Header tip) < t ∧ med < t <= now + TimestampFuturLimitSec) clock →
  valid_linkage now known b tip.
Proof.
  intros Htip Hmed Hc. destruct mined_height as [Eh Hl]. rewrite Forall_forall in Hc.
  destruct (Hc _ (mi_time _ _ _ _ _ Hb)) as [Ht1 Ht2].
  pose proof (co_main _ _ _ Hi) as Hg. pose proof (good_path_length _ _ _ Hg) as Hlen. pose proof Hg as (Hp & _).
  pose proof (mi_difficulty _ _ _ _ _ Hb) as Ed. unfold NextDifficulty in Ed.
  rewrite (nextDifficulty_recent _ _ _ Hi W) in Ed.
  destruct (snoc_cases main) as [E|(l & x & E)]; [rewrite E in Hl; cbn in Hl; lia|]. rewrite E in *.
  destruct (path_to_last _ _ _ _ Hp) as [_ Hk]. assert (x = tip) as -> by congruence.
  pose proof (linked_snoc_height _ _ (proj1 (proj2 Hp))) as Hh. rewrite length_app in *. cbn [length] in *.
  split_and!.
  - rewrite Eh, Hh. rewrite u64_small; [lia|unfold is_u64; lia].
  - lia.
  - lia.
  - by rewrite (expected_difficulty_path known l tip _ Hp).
  - by apply branch_difficulty_bounds in Ed as [? _].
  - exists med. split; [done|lia].
Qed.

Lemma mined_body spent canonical :
  Forall (valid_tx spent canonical) txs → Forall (λ tx, IsCoinbase tx = false) txs → NoDup (concat (key_images <$> txs)) →
  valid_body spent canonical b ↔ BlockSize b <= MaxBlockSize ∧ memo_fits b.
Proof.
  intros Hv Hn Hki. destruct (mi_txs _ _ _ _ _ Hb) as (cb & Etx & Ecb).
  destruct (CreateCoinbase_wf _ _ _ _ _ _ _ _ HL Ecb) as (Hc1 & _ & _).
  destruct (CreateCoinbase_accepted _ _ _ _ _ _ _ Ecb ltac:(intros; by eapply HL)) as (Hcc & Hcb & Hcv).
  split.
  - intros Hbd. split; [apply Hbd|by eapply valid_body_memo].
  - intros [Hsz Hz]. split_and!; [done| | | |apply Hb].
    + by exists cb, txs.
    + rewrite Etx. constructor; [|done]. split; [done|]. left. apply validateCoinbase_Ok, Hcv, Hz. by rewrite Etx.
    + unfold block_key_images, txs_key_images. rewrite Etx, filter_cons_False by congruence.
      by rewrite (filter_id _ txs).
Qed.

End Mined.

End Templates.

(** ** Theorems *)

(** C14. The miner builds blocks that its node accepts.  Take a chain in its
    invariant, with its last 101 blocks in memory, that does not move during
    the miner's reads; a pool of transactions valid on the main chain; and a
    clock that only shows times after the tip's timestamp and the median time
    and at most two hours after the validator's.  A block that a round of
    mining returns passes the validation of a new block if and only if it is
    within the size limit, its coinbase memo has not encrypted to zero bytes
    and it does not contradict a checkpoint: whatever the number of workers
    and their interleaving, the nonce and timestamp of the winner are proof of
    work for the header they end up in.  The miner does not check the clock;
    where it is behind the tip, blocks are refused. *)
Theorem mined_block_accepted `{HC : Crypto} `{!CryptoLaws HC} `{HN : Network} `{HM : MathLib} `{HJ : JSON} `{!JSONLaws HJ}
    `{HO : MapOrder} `{!MapOrderLaws HO} stealth prove padding m m' pool main known c tip med start turns notified choice now b :
  CoinbaseLaws stealth prove → chain_inv main known c → recent main c → pool_ok pool →
  (∀ id tx, GetTransaction pool id = Some tx → valid_tx (branch_spends main main) (main_ring_member main) tx) →
  known (bestHash c) = Some tip → median_time known tip 11 = Ok med →
  Forall (λ t, is_i64 t ∧ Timestamp (Header tip) < t ∧ med < t <= now + TimestampFuturLimitSec) (start :: turns.*2) →
  mine_round stealth prove padding (MkReads c c c c) start (Some pool) turns notified choice m = (Ok (Mined b), m') →
  (validateBlockForProcess now b c).1 = Ok tt ↔
  BlockSize b <= MaxBlockSize ∧ memo_fits b ∧ check_checkpoint c b = Ok tt.
Proof.
  intros HL Hi W Hp Hv Htip Hmed Hc Em. pose proof (proj1 Hi) as Hcore.
  destruct (pool_transactions pool (MaxBlockSize - 1000) 1000 _ Hp Hv) as [Ht Hki].
  { intros tx [_ [(Hin & _)|(_ & Hnd & _)]]; [|done]. unfold key_images. rewrite Hin. constructor. }
  rewrite !Forall_and in Ht. destruct Ht as (Htv & Htw & Htr & Htc). rewrite Forall_and in Hc. destruct Hc as [Hi64 Hc].
  pose proof (MineBlock_mined stealth prove padding _ _ main known c _ _ _ _ _ _ HL Hcore W Hi64 Htw Htr Em) as Hb.
  pose proof (mined_linkage _ _ _ _ main known c _ _ b Hcore W Hb now tip med Htip Hmed Hc) as Hlink.
  pose proof (λ sp can Hs, mined_body _ _ _ _ _ _ _ _ HL Hb sp can Hs Htc Hki) as Hbody.
  destruct (mined_height _ _ _ _ _ _ _ _ _ _ Hcore W Hb) as [Eh Hl].
  destruct (mi_txs _ _ _ _ _ _ _ _ Hb) as (cb & Etx & Ecb).
  assert (Forall wf_tx (Transactions b)) as Hwf.
  { rewrite Etx. constructor; [|done]. by destruct (CreateCoinbase_wf _ _ _ _ _ _ _ _ HL Ecb) as (_ & ? & _). }
  destruct (validateBlockForProcess_decides main known now b c Hwf Hi) as (r & (c1 & E1 & _) & _ & Hr). rewrite E1. cbn.
  rewrite Hr. clear Hr. split.
  - intros (Hcp & l & _ & Hvb). destruct Hvb as (_ & [[? _]|(_ & p & _ & _ & _ & Hbd)]); [lia|].
    split_and!; [apply Hbd|by eapply valid_body_memo|done].
  - intros (Hsz & Hz & Hcp). split; [done|]. exists main. split.
    { unfold parent_branch. rewrite (proj2 (Z.ltb_lt _ _)) by lia. rewrite (mi_prev _ _ _ _ _ _ _ _ Hb). apply (co_main _ _ _ Hcore). }
    split; [by rewrite (mi_version _ _ _ _ _ _ _ _ Hb)|]. right. split; [lia|]. exists tip.
    split_and!; [by rewrite (mi_prev _ _ _ _ _ _ _ _ Hb)|done|intros _; apply Hb|by apply Hbody].
Qed.

(** C40. No nonce is skipped: while the clock stands still, a nonce with proof
    of work for the template is found, by its worker or earlier by another,
    as soon as the worker numbered by the nonce modulo the number of workers
    has had as many turns as it needs to get there, in whatever order the
    workers run; then [MineBlock] returns a block. *)
Theorem miner_covers_nonces `{HC : Crypto} `{HN : Network} `{HM : MathLib}
    stealth prove padding m rs now txs turns notified block n :
  assemble stealth prove padding m rs now txs = Ok block → wf_header (Header block) → threads m < 2 ^ 31 →
  Forall (λ t, t = now) turns.*2 → is_u64 n →
  validatePoW (Header (seal block (MkMineResult n now))) = true →
  (Z.to_nat (n `div` Threads m) < turns_of (Z.to_nat (n `mod` Threads m)) turns)%nat →
  ∃ b m', MineBlock stealth prove padding rs now txs turns notified Result_ m = (Ok (Mined b), m') ∧
          validatePoW (Header b) = true ∧ Timestamp (Header b) = now.
Proof.
  intros Ea Hwf Hth Hc Hn Hpow Hj. destruct (assemble_inv _ _ _ _ _ _ _ _ Ea) as (cb & d & _ & _ & _ & _ & Eh).
  set (h := Header block) in *. assert (Timestamp h = now) as Et by by rewrite Eh.
  assert (is_i64 now) as H64 by (rewrite <- Et; apply Hwf).
  assert (1 <= Threads m < 2 ^ 31) as HT by (unfold Threads; destruct (Z.ltb_spec (threads m) 1); lia).
  assert (∀ t, t = now → is_i64 t) as Hck by by intros t ->.
  destruct (mining_run_ok h Hwf (λ t, t = now) Hck (Threads m) turns _ Hc
    (start_workers_ok h (λ t, t = now) (Threads m) now eq_refl)) as (s & Es & [_ Hr]).
  pose proof (winning_turn h Hwf now H64 (Threads m) turns n s HT Hc Hn Hpow Hj Es) as Hs.
  destruct (resultChan s) as [win|] eqn:Ew; [|done]. destruct (Hr _ eq_refl) as (_ & Ht & Hw).
  exists (seal block win), (found_block (if notified then NotifyNewBlock (add_hashes (hashes s) m) else add_hashes (hashes s) m)).
  split_and!; [|exact Hw|exact Ht]. unfold MineBlock. rewrite Ea. cbn [mbind result_bind]. fold h.
  rewrite SerializeForPoW_encode by done. cbn [mbind result_bind]. rewrite Et.
  replace (encode_header_no_nonce h) with (encode_header_no_nonce (with_work h now 0)) by (by rewrite Eh).
  rewrite Es. cbn [mbind result_bind]. by rewrite Ew.
Qed.
