(* ===== verification/Peers.v ===== *)
(** * Peer scores and bans ([p2p/pex.go])

    The part of the peer exchange that keeps state: known peers with their
    scores, the ban list with its escalation and its limits.  Times are in
    nanoseconds.  Loops over Go's maps go in an order of the runtime's choice.
    A record does not repeat the peer's ID, which is its key.  The parsing of
    seed addresses is left out.  What libp2p knows (connections, textual IDs, routable addresses) is given
    by functions; calls back into it are a list. *)

From S2P Require Import Prelude Bytes.

Definition peerID : Type := bytes.

Definition ScoreThresholdBan : Z := 0.
Definition ScorePenaltyInvalid : Z := -10.
Definition ScorePenaltyTimeout : Z := -5.
Definition ScorePenaltyMisbehave : Z := -25.
Definition ScoreRewardGood : Z := 1.
Definition minute : Z := 60 * 1000000000.
Definition BanDurationShort : Z := 15 * minute.
Definition BanDurationMedium : Z := 120 * minute.
Definition BanDurationLong : Z := 1440 * minute.
Definition MaxBansBeforePermanent : Z := 5.
Definition MaxPermanentBans : nat := Pos.to_nat 4096.
Definition PermanentBanRetention : Z := 180 * 1440 * minute.
Definition MaxKnownPeers : nat := Pos.to_nat 2048.

Record PeerRecord : Type := MkPeerRecord {
  Addrs : list string;
  LastSeen : Z;  (* seconds *)
  Score : Z;
}.

Record BanRecord : Type := MkBanRecord {
  Reason : string;
  BannedAt : Z;
  ExpiresAt : Z;
  BanCount : Z;
  Permanent : bool;
  BanAddrs : list string;
}.

Inductive host_call : Type :=
  | AddAddrs (pid : peerID) (addrs : list string)
  | ClearAddrs (pid : peerID)
  | ClosePeer (pid : peerID).

Record PeerExchange : Type := MkPeerExchange {
  seedNodes : list peerID;
  knownPeers : gmap peerID PeerRecord;
  banWhitelist : gset peerID;
  bannedPeers : gmap peerID BanRecord;
  host_calls : list host_call;
}.

Definition on_known (f : gmap peerID PeerRecord → gmap peerID PeerRecord) (p : PeerExchange) : PeerExchange :=
  MkPeerExchange (seedNodes p) (f (knownPeers p)) (banWhitelist p) (bannedPeers p) (host_calls p).
Definition on_banned (f : gmap peerID BanRecord → gmap peerID BanRecord) (p : PeerExchange) : PeerExchange :=
  MkPeerExchange (seedNodes p) (knownPeers p) (banWhitelist p) (f (bannedPeers p)) (host_calls p).
Definition call_host (x : host_call) (p : PeerExchange) : PeerExchange :=
  MkPeerExchange (seedNodes p) (knownPeers p) (banWhitelist p) (bannedPeers p) (host_calls p ++ [x]).

Definition NewPeerExchange (seeds : list peerID) (whitelist : gset peerID) : PeerExchange :=
  MkPeerExchange seeds ∅ whitelist ∅ [].

(** The order of a loop over a map. *)
Class PeerOrder : Type := {
  iterate_known : gmap peerID PeerRecord → list (peerID * PeerRecord);
  iterate_banned : gmap peerID BanRecord → list (peerID * BanRecord);
}.

Class PeerOrderLaws (O : PeerOrder) : Prop := {
  iterate_known_perm : ∀ m, iterate_known m ≡ₚ map_to_list m;
  iterate_banned_perm : ∀ m, iterate_banned m ≡ₚ map_to_list m;
}.

Section Peers.
Context `{HO : PeerOrder} (routable : string → bool) (connected : peerID → bool) (conns : peerID → list string)
        (id_less : peerID → peerID → bool).

(** ** Bans *)

Definition isWhitelisted (p : PeerExchange) (pid : peerID) : bool := bool_decide (pid ∈ banWhitelist p).

Definition IsBanned (now : Z) (p : PeerExchange) (pid : peerID) : bool :=
  if isWhitelisted p pid then false
  else match bannedPeers p !! pid with
       | None => false
       | Some ban => if Permanent ban then true else if ExpiresAt ban <? now then false else true
       end.

(** The permanent ban that is evicted first: of the oldest, the first met. *)
Definition oldest_permanent (m : gmap peerID BanRecord) : option (peerID * Z) :=
  foldl (λ best '(pid, ban),
    if negb (Permanent ban) then best
    else match best with
         | None => Some (pid, BannedAt ban)
         | Some (_, oldestAt) => if BannedAt ban <? oldestAt then Some (pid, BannedAt ban) else best
         end) None (iterate_banned m).

Definition count_permanent (m : gmap peerID BanRecord) : nat := size (filter (λ x, Permanent x.2 = true) m).

(** [n] evictions. *)
Fixpoint evict_bans (n : nat) (m : gmap peerID BanRecord) : gmap peerID BanRecord :=
  match n with
  | O => m
  | S n => match oldest_permanent m with
           | None => m
           | Some (pid, _) => evict_bans n (delete pid m)
           end
  end.

Definition enforceBanRetention (now : Z) (p : PeerExchange) : PeerExchange :=
  let p := on_banned (filter (λ x, ¬ (Permanent x.2 = true ∧ PermanentBanRetention < now - BannedAt x.2))) p in
  on_banned (λ m, evict_bans (count_permanent m - MaxPermanentBans) m) p.

Definition banPeer (now : Z) (pid : peerID) (reason : string) (duration : Z) (p : PeerExchange) : PeerExchange :=
  if isWhitelisted p pid then on_banned (delete pid) p
  else if bool_decide (pid ∈ seedNodes p) then p
  else
    let banCount := match bannedPeers p !! pid with Some existing => BanCount existing + 1 | None => 1 end in
    let duration := if 3 <=? banCount then BanDurationLong else duration in
    let permanent := MaxBansBeforePermanent <=? banCount in
    let p := on_banned (<[pid := MkBanRecord reason now (now + duration) banCount permanent (conns pid)]>) p in
    let p := enforceBanRetention now p in
    let p := call_host (ClosePeer pid) p in
    on_known (delete pid) p.

Definition BanPeer : Z → peerID → string → Z → PeerExchange → PeerExchange := banPeer.

Definition UnbanPeer (pid : peerID) (p : PeerExchange) : PeerExchange := on_banned (delete pid) p.

Definition in_force (now : Z) (p : PeerExchange) (x : peerID * BanRecord) : bool :=
  negb (isWhitelisted p x.1) && (Permanent x.2 || (now <? ExpiresAt x.2)).

Definition GetBannedPeers (now : Z) (p : PeerExchange) : list (peerID * BanRecord) :=
  filter (λ x, in_force now p x = true) (iterate_banned (bannedPeers p)).

Definition BannedPeerCount (now : Z) (p : PeerExchange) : nat := length (GetBannedPeers now p).

(** ** Scores *)

Definition with_score (s : Z) (rec : PeerRecord) : PeerRecord := MkPeerRecord (Addrs rec) (LastSeen rec) s.

Definition updatePeerScore (now : Z) (pid : peerID) (delta : Z) (p : PeerExchange) : PeerExchange :=
  match knownPeers p !! pid with
  | None => p
  | Some rec =>
      let s := Score rec + delta in
      let s := if s <? 0 then 0 else s in
      let s := if 100 <? s then 100 else s in
      let p := on_known (<[pid := with_score s rec]>) p in
      if s <=? ScoreThresholdBan then banPeer now pid "score dropped to zero" BanDurationMedium p else p
  end.

Definition RewardPeer (now : Z) (pid : peerID) : PeerExchange → PeerExchange := updatePeerScore now pid ScoreRewardGood.

Definition PenalizePeer (now : Z) (pid : peerID) (penalty : Z) (reason : string) (p : PeerExchange) : PeerExchange :=
  let rec := default (MkPeerRecord [] (now `div` 1000000000) 50) (knownPeers p !! pid) in
  let s := Score rec + penalty in
  let s := if s <? 0 then 0 else s in
  let p := on_known (<[pid := with_score s rec]>) p in
  if s <=? ScoreThresholdBan then banPeer now pid reason BanDurationMedium p else p.

Definition KnownPeerCount (p : PeerExchange) : nat := size (knownPeers p).

Definition GetPeerScore (p : PeerExchange) (pid : peerID) : Z :=
  match knownPeers p !! pid with Some rec => Score rec | None => -1 end.

(** ** Known peers *)

(** Lowest score, then oldest, then smallest ID. *)
Definition evict_before (x y : peerID * PeerRecord) : bool :=
  (Score x.2 <? Score y.2) ||
  ((Score x.2 =? Score y.2) && (LastSeen x.2 <? LastSeen y.2)) ||
  ((Score x.2 =? Score y.2) && (LastSeen x.2 =? LastSeen y.2) && id_less x.1 y.1).

Definition worst (l : list (peerID * PeerRecord)) : option (peerID * PeerRecord) :=
  foldl (λ best x, match best with
                   | None => Some x
                   | Some b => if evict_before x b then Some x else best
                   end) None l.

(** A peer that is not connected, or any if all are. *)
Definition victim (m : gmap peerID PeerRecord) : option (peerID * PeerRecord) :=
  match worst (filter (λ x, connected x.1 = false) (iterate_known m)) with
  | Some x => Some x
  | None => worst (iterate_known m)
  end.

Fixpoint evict_loop (fuel : nat) (max : nat) (p : PeerExchange) : PeerExchange :=
  match fuel with
  | O => p
  | S fuel =>
      if decide (size (knownPeers p) <= max)%nat then p
      else match victim (knownPeers p) with
           | None => p
           | Some (pid, _) => evict_loop fuel max (call_host (ClearAddrs pid) (on_known (delete pid) p))
           end
  end.

(** Every round removes a peer, so the number of peers bounds the rounds. *)
Definition evictKnownPeers (max : nat) (p : PeerExchange) : PeerExchange :=
  evict_loop (size (knownPeers p)) (if decide (max = 0%nat) then 1%nat else max) p.

Definition addKnownPeer (now : Z) (pid : peerID) (addrs : list string) (p : PeerExchange) : PeerExchange :=
  let addrs := filter (λ a, routable a = true) addrs in
  if decide (addrs = []) then p
  else
    let seen := now `div` 1000000000 in
    let rec := match knownPeers p !! pid with
               | Some existing => MkPeerRecord addrs seen (Score existing)
               | None => MkPeerRecord addrs seen 5
               end in
    evictKnownPeers MaxKnownPeers (call_host (AddAddrs pid addrs) (on_known (<[pid := rec]>) p)).

Definition cleanup (now : Z) (p : PeerExchange) : PeerExchange :=
  let cutoff := (now - 24 * 60 * minute) `div` 1000000000 in
  let p := on_known (filter (λ x, cutoff <= LastSeen x.2)) p in
  let p := on_banned (filter (λ x, Permanent x.2 = true ∨ now <= ExpiresAt x.2)) p in
  evictKnownPeers MaxKnownPeers (enforceBanRetention now p).

End Peers.
