(* ===== verification/PeersSpec.v ===== *)
(** * Bans last, and stay within bounds *)

From S2P Require Import Prelude Bytes Peers.

Section PeersSpec.
Context `{HO : PeerOrder} `{!PeerOrderLaws HO} (routable : string → bool) (connected : peerID → bool) (conns : peerID → list string)
        (id_less : peerID → peerID → bool).

(** ** The calls *)





(** ** Evictions *)








(** *** Bans *)








(** ** The invariant *)

Definition ban_length (count : Z) : Z := if 3 <=? count then BanDurationLong else BanDurationMedium.

Definition ban_ok (ban : BanRecord) : Prop :=
  1 <= BanCount ban ∧ Permanent ban = (MaxBansBeforePermanent <=? BanCount ban) ∧ ExpiresAt ban = BannedAt ban + ban_length (BanCount ban).

Definition score_ok (rec : PeerRecord) : Prop := 0 <= Score rec <= 100.

Record peers_ok (seeds : list peerID) (whitelist : gset peerID) (p : PeerExchange) : Prop := {
  po_seeds : seedNodes p = seeds;
  po_whitelist : banWhitelist p = whitelist;
  po_exempt : ∀ pid, pid ∈ whitelist ∨ pid ∈ seeds → bannedPeers p !! pid = None;
  po_bans : map_Forall (λ _, ban_ok) (bannedPeers p);
  po_permanent : (count_permanent (bannedPeers p) <= MaxPermanentBans)%nat;
  po_scores : map_Forall (λ _, score_ok) (knownPeers p);
}.

Section Invariant.
Context (seeds : list peerID) (whitelist : gset peerID).
#[local] Abbreviation ok := (peers_ok seeds whitelist).










(** ** A ban in force *)










End Invariant.





End PeersSpec.

(** ** A sample *)

#[local] Instance sample_order : PeerOrder := {| iterate_known := map_to_list; iterate_banned := map_to_list |}.

#[local] Instance sample_order_laws : PeerOrderLaws sample_order.
Proof. split; done. Qed.





