(* ===== verification/Gate.v ===== *)
(** * The gate before gossiped blocks ([daemon.go])

    Validating an announced block is expensive; the gate admits one at a time
    and remembers, in a bounded least-recently-used list, when each peer last
    had its turn.  Times are nanoseconds. *)

From S2P Require Import Prelude.
From stdpp Require Import strings.
#[local] Open Scope Z_scope.

Definition second : Z := 1000000000.

Definition maxConcurrentGossipBlockValidations : Z := 1.
Definition minGossipBlockValidationInterval : Z := 3 * second.
Definition maxGossipBlockAttemptEntries : Z := 4096.
Definition gossipBlockAttemptTTL : Z := 30 * 60 * second.

Abbreviation peerID := string (only parsing).

Record gossipAttemptEntry : Type := MkAttempt { pid : peerID; last_at : Z }.

(** The list, most recent first, and the peers the index has; an index entry
    points to the list element of its peer. *)
Record gossipAttemptLRU : Type := MkLRU {
  cap : Z;
  lru : list gossipAttemptEntry;
  index : gset peerID;
}.

Definition newGossipAttemptLRU (c : Z) : gossipAttemptLRU := MkLRU (if c <? 1 then 1 else c) [] ∅.

(** The element of a peer in the list. *)
Definition element (c : gossipAttemptLRU) (p : peerID) : option gossipAttemptEntry :=
  snd <$> list_find (λ e, pid e = p) (lru c).

Definition without_peer (p : peerID) (l : list gossipAttemptEntry) : list gossipAttemptEntry :=
  filter (λ e, pid e ≠ p) l.

(** [lru.Remove(back); delete(index, pid)] *)
Definition remove_back (c : gossipAttemptLRU) : gossipAttemptLRU :=
  match last (lru c) with
  | Some ent => MkLRU (cap c) (take (length (lru c) - 1) (lru c)) (index c ∖ {[pid ent]})
  | None => c
  end.

Fixpoint purge (fuel : nat) (cutoff : Z) (c : gossipAttemptLRU) : gossipAttemptLRU :=
  match fuel with
  | O => c
  | S fuel =>
      match last (lru c) with
      | None => c
      | Some ent => if cutoff <? last_at ent then c else purge fuel cutoff (remove_back c)
      end
  end.

(** A pass removes an element. *)
Definition PurgeBefore (cutoff : Z) (c : gossipAttemptLRU) : gossipAttemptLRU := purge (length (lru c)) cutoff c.

Definition Get (p : peerID) (c : gossipAttemptLRU) : option Z * gossipAttemptLRU :=
  if decide (p ∈ index c) then
    match element c p with
    | Some ent => (Some (last_at ent), MkLRU (cap c) (ent :: without_peer p (lru c)) (index c))
    | None => (None, c)
    end
  else (None, c).

Fixpoint shrink (fuel : nat) (c : gossipAttemptLRU) : gossipAttemptLRU :=
  match fuel with
  | O => c
  | S fuel => if cap c <? Z.of_nat (length (lru c)) then shrink fuel (remove_back c) else c
  end.

Definition Set_ (p : peerID) (t : Z) (c : gossipAttemptLRU) : gossipAttemptLRU :=
  let c :=
    if decide (p ∈ index c)
    then MkLRU (cap c) (MkAttempt p t :: without_peer p (lru c)) (index c)
    else MkLRU (cap c) (MkAttempt p t :: lru c) ({[p]} ∪ index c) in
  shrink (length (lru c)) c.

(** The gate's part of the daemon's state. *)
Record Gate : Type := MkGate {
  gossipBlockInFlight : Z;
  gossipBlockLastAttempt : option gossipAttemptLRU;
}.

Definition acquireGossipBlockValidationSlot (now : Z) (p : peerID) : M Gate unit :=
  g ← get;
  let attempts := default (newGossipAttemptLRU maxGossipBlockAttemptEntries) (gossipBlockLastAttempt g) in
  let attempts := PurgeBefore (now - gossipBlockAttemptTTL) attempts in
  let '(last, attempts) := Get p attempts in
  modify (λ g, MkGate (gossipBlockInFlight g) (Some attempts));;
  checkM (match last with Some t => now - t <? minGossipBlockValidationInterval | None => false end)
         (Errorf "block gossip rate limit exceeded");;
  checkM (maxConcurrentGossipBlockValidations <=? gossipBlockInFlight g) (Errorf "block gossip validation busy");;
  modify (λ g, MkGate (gossipBlockInFlight g + 1) (Set_ p now <$> gossipBlockLastAttempt g)).

Definition releaseGossipBlockValidationSlot (g : Gate) : Gate :=
  if 0 <? gossipBlockInFlight g then MkGate (gossipBlockInFlight g - 1) (gossipBlockLastAttempt g) else g.

(** ** The list is sound *)

(** One element per peer, the index has exactly these peers, and the list is
    within its capacity. *)
Record lru_sound (c : gossipAttemptLRU) : Prop := {
  ls_cap : 1 <= cap c;
  ls_nodup : NoDup (pid <$> lru c);
  ls_index : ∀ p, p ∈ index c ↔ p ∈ pid <$> lru c;
}.

Lemma remove_back_snoc c l x : lru c = l ++ [x] → remove_back c = MkLRU (cap c) l (index c ∖ {[pid x]}).
Proof.
  intros E. unfold remove_back. rewrite E, last_snoc. f_equal. rewrite length_app. cbn.
  replace (length l + 1 - 1)%nat with (length l) by lia. apply take_app_length.
Qed.

Lemma remove_back_sound c : lru_sound c → lru_sound (remove_back c).
Proof.
  intros Hs. destruct (snoc_cases (lru c)) as [E|(l & x & E)].
  { by unfold remove_back; rewrite E. }
  destruct Hs as [Hc Hn Hi]. rewrite (remove_back_snoc _ _ _ E). rewrite E, fmap_app in Hn. setoid_rewrite E in Hi.
  setoid_rewrite fmap_app in Hi. apply NoDup_app in Hn as (Hn & Hd & _).
  split; [done|done|]. cbn. intros p. rewrite elem_of_difference, Hi, elem_of_app, elem_of_singleton. cbn.
  rewrite list_elem_of_singleton. split; [tauto|]. intros Hp. split; [by left|]. intros ->. by apply (Hd (pid x)), list_elem_of_singleton.
Qed.

Lemma purge_sound fuel cutoff c : lru_sound c → lru_sound (purge fuel cutoff c).
Proof.
  revert c. induction fuel as [|fuel IH]; intros c Hs; [done|]. cbn. destruct (last (lru c)); [|done].
  destruct (_ <? _); [done|]. by apply IH, remove_back_sound.
Qed.

Lemma without_peer_nodup p l : NoDup (pid <$> l) → NoDup (pid <$> without_peer p l).
Proof.
  intros Hn. eapply sublist_NoDup; [exact Hn|]. apply fmap_sublist, sublist_filter.
Qed.

Lemma elem_of_without p q l : q ∈ pid <$> without_peer p l ↔ q ≠ p ∧ q ∈ pid <$> l.
Proof.
  unfold without_peer. rewrite !list_elem_of_fmap. setoid_rewrite list_elem_of_filter. naive_solver.
Qed.

Lemma front_sound c e :
  lru_sound c → pid e ∈ index c → lru_sound (MkLRU (cap c) (e :: without_peer (pid e) (lru c)) (index c)).
Proof.
  intros [Hc Hn Hi] Hp. split; cbn; [done| |].
  - constructor; [rewrite elem_of_without; tauto|by apply without_peer_nodup].
  - intros q. rewrite elem_of_cons, elem_of_without, Hi. destruct (decide (q = pid e)) as [->|]; [|tauto].
    rewrite <- Hi. tauto.
Qed.

Lemma element_spec c p e : element c p = Some e → e ∈ lru c ∧ pid e = p.
Proof.
  unfold element. intros ([i x] & E & ->)%fmap_Some. apply list_find_Some in E as (Hl & Hp & _). split; [by eapply list_elem_of_lookup_2|done].
Qed.

Lemma Get_sound p c : lru_sound c → lru_sound (Get p c).2.
Proof.
  intros Hs. unfold Get. case_decide as Hp; [|done]. destruct (element c p) as [e|] eqn:E; [|done].
  apply element_spec in E as [_ <-]. by apply front_sound.
Qed.

Lemma shrink_sound fuel c : lru_sound c → lru_sound (shrink fuel c).
Proof.
  revert c. induction fuel as [|fuel IH]; intros c Hs; [done|]. cbn. destruct (_ <? _); [|done].
  by apply IH, remove_back_sound.
Qed.

Lemma cap_remove_back c : cap (remove_back c) = cap c.
Proof. unfold remove_back. by destruct (last (lru c)). Qed.

(** [shrink] cuts the list to the capacity. *)
Lemma shrink_take fuel c :
  1 <= cap c → (length (lru c) <= fuel)%nat → lru (shrink fuel c) = take (Z.to_nat (cap c)) (lru c).
Proof.
  revert c. induction fuel as [|fuel IH]; intros c Hc Hf; cbn [shrink].
  { by rewrite (nil_length_inv (lru c)), take_nil by lia. }
  destruct (Z.ltb_spec (cap c) (Z.of_nat (length (lru c)))) as [Hlt|]; [|by rewrite take_ge by lia].
  destruct (snoc_cases (lru c)) as [E|(l & x & E)]; rewrite E in *; [cbn in *; lia|].
  rewrite length_app in Hlt, Hf. cbn in Hlt, Hf.
  rewrite (remove_back_snoc _ _ _ E), IH by (cbn; lia). cbn. by rewrite take_app_le by lia.
Qed.

Lemma Set_sound p t c : lru_sound c → lru_sound (Set_ p t c).
Proof.
  intros Hs. unfold Set_. apply shrink_sound. case_decide as Hp.
  - by apply (front_sound c (MkAttempt p t)).
  - destruct Hs as [Hc Hn Hi]. split; cbn; [done| |].
    + constructor; [by rewrite <- Hi|done].
    + intros q. rewrite elem_of_union, elem_of_singleton, elem_of_cons, Hi. done.
Qed.

(** ** The gate is sound *)

Record gate_ok (g : Gate) : Prop := {
  go_flight : 0 <= gossipBlockInFlight g <= maxConcurrentGossipBlockValidations;
  go_lru : ∀ c, gossipBlockLastAttempt g = Some c → lru_sound c ∧ cap c = maxGossipBlockAttemptEntries ∧
             Z.of_nat (length (lru c)) <= maxGossipBlockAttemptEntries;
}.

(** The attempts as the next call finds them. *)
Definition attempts (g : Gate) : gossipAttemptLRU :=
  default (newGossipAttemptLRU maxGossipBlockAttemptEntries) (gossipBlockLastAttempt g).

Definition bounded (c : gossipAttemptLRU) : Prop :=
  lru_sound c ∧ cap c = maxGossipBlockAttemptEntries ∧ Z.of_nat (length (lru c)) <= maxGossipBlockAttemptEntries.

Lemma attempts_bounded g : gate_ok g → bounded (attempts g).
Proof.
  intros [_ Hl]. unfold attempts. destruct (gossipBlockLastAttempt g) as [c|]; [by apply Hl|].
  split; [|done]. split; [done|constructor|]. intros p. cbn. set_solver.
Qed.

Lemma remove_back_length c : (length (lru (remove_back c)) <= length (lru c))%nat.
Proof. unfold remove_back. destruct (last (lru c)); [|done]. cbn. rewrite length_take. lia. Qed.

Lemma purge_bounded cutoff fuel c : bounded c → bounded (purge fuel cutoff c).
Proof.
  revert c. induction fuel as [|fuel IH]; intros c Hb; [done|]. cbn. destruct (last (lru c)); [|done].
  destruct (_ <? _); [done|]. apply IH. destruct Hb as (Hs & Hc & Hl). split_and!.
  - by apply remove_back_sound.
  - by rewrite cap_remove_back.
  - pose proof (remove_back_length c). lia.
Qed.

(** At most one element per peer: moving one forward does not lengthen the list. *)
Lemma without_peer_length p l : p ∈ pid <$> l → (S (length (without_peer p l)) <= length l)%nat.
Proof.
  intros (e & -> & He)%list_elem_of_fmap. apply list_elem_of_split in He as (l1 & l2 & ->).
  unfold without_peer. rewrite filter_app, filter_cons_False by tauto. rewrite !length_app. cbn.
  pose proof (length_filter (λ e0, pid e0 ≠ pid e) l1). pose proof (length_filter (λ e0, pid e0 ≠ pid e) l2). lia.
Qed.

Lemma Get_bounded p c : bounded c → bounded (Get p c).2.
Proof.
  intros (Hs & Hc & Hl). split; [by apply Get_sound|]. unfold Get. case_decide as Hp; [|done].
  destruct (element c p) as [e|]; [|done]. cbn. split; [done|].
  apply (ls_index _ Hs), without_peer_length in Hp. lia.
Qed.

Lemma Set_bounded p t c : bounded c → bounded (Set_ p t c).
Proof.
  intros (Hs & Hc & Hl). split; [by apply Set_sound|]. unfold Set_.
  set (c1 := if decide (p ∈ index c) then _ else _).
  assert (cap c1 = cap c) as Ec by (unfold c1; by case_decide).
  assert (∀ fuel x, cap (shrink fuel x) = cap x) as Hcap.
  { induction fuel as [|fuel IH]; intros x; [done|]. cbn. destruct (_ <? _); [|done]. by rewrite IH, cap_remove_back. }
  rewrite Hcap, Ec. split; [done|]. rewrite shrink_take by (try done; rewrite Ec; apply Hs).
  rewrite length_take, Ec, Hc. unfold maxGossipBlockAttemptEntries. lia.
Qed.

(** What a call does. *)
Lemma acquire_run now p g :
  let '(last, c) := Get p (PurgeBefore (now - gossipBlockAttemptTTL) (attempts g)) in
  acquireGossipBlockValidationSlot now p g =
    if match last with Some t => now - t <? minGossipBlockValidationInterval | None => false end
    then (Err (Errorf "block gossip rate limit exceeded"), MkGate (gossipBlockInFlight g) (Some c))
    else if maxConcurrentGossipBlockValidations <=? gossipBlockInFlight g
    then (Err (Errorf "block gossip validation busy"), MkGate (gossipBlockInFlight g) (Some c))
    else (Ok tt, MkGate (gossipBlockInFlight g + 1) (Some (Set_ p now c))).
Proof.
  unfold acquireGossipBlockValidationSlot, mbind, M_bind, get, modify. fold (attempts g).
  destruct (Get p _) as [last c]. unfold checkM, lift, check.
  destruct last as [t|]; [destruct (now - t <? _); [done|]|]; cbn [gossipBlockInFlight gossipBlockLastAttempt];
    destruct (_ <=? _); done.
Qed.

Lemma acquire_ok now p g : gate_ok g → gate_ok (acquireGossipBlockValidationSlot now p g).2.
Proof.
  intros Hg. pose proof (acquire_run now p g) as E. pose proof (go_flight _ Hg).
  pose proof (Get_bounded p _ (purge_bounded (now - gossipBlockAttemptTTL) (length (lru (attempts g))) _ (attempts_bounded _ Hg))) as Hb.
  unfold PurgeBefore in E. destruct (Get p _) as [last c]. rewrite E. clear E. cbn in Hb.
  destruct (match last with Some _ => _ | None => _ end); [by split; [|intros ? [= <-]]|].
  destruct (Z.leb_spec maxConcurrentGossipBlockValidations (gossipBlockInFlight g)); [by split; [|intros ? [= <-]]|].
  split; cbn; [lia|]. intros ? [= <-]. by apply Set_bounded.
Qed.

Lemma release_ok g : gate_ok g → gate_ok (releaseGossipBlockValidationSlot g).
Proof.
  intros [Hf Hl]. unfold releaseGossipBlockValidationSlot. destruct (Z.ltb_spec 0 (gossipBlockInFlight g)); [|done].
  split; cbn; [lia|done].
Qed.

(** ** What is remembered *)

(** The attempt [e] is in the list, and every element before it belongs to a
    peer of [D]. *)
Definition remembers (D : gset peerID) (e : gossipAttemptEntry) (c : gossipAttemptLRU) : Prop :=
  ∃ pre post, lru c = pre ++ e :: post ∧ Forall (λ x, pid x ∈ D) pre.

Lemma remembers_mono D D' e c : D ⊆ D' → remembers D e c → remembers D' e c.
Proof. intros HD (pre & post & E & Hp). exists pre, post. split; [done|]. eapply Forall_impl; [exact Hp|]. set_solver. Qed.

Lemma purge_remembers D e cutoff fuel c :
  cutoff < last_at e → remembers D e c → remembers D e (purge fuel cutoff c).
Proof.
  intros Hc. revert c. induction fuel as [|fuel IH]; intros c (pre & post & E & Hp); [by exists pre, post|]. cbn.
  destruct (snoc_cases post) as [->|(k & x & ->)].
  - rewrite E, last_snoc. rewrite (proj2 (Z.ltb_lt _ _)) by done. by exists pre, [].
  - rewrite E. rewrite app_comm_cons, app_assoc, last_snoc. destruct (_ <? _); [by exists pre, (k ++ [x])|].
    rewrite app_comm_cons, app_assoc in E. rewrite (remove_back_snoc _ _ _ E). apply IH. by exists pre, k.
Qed.

(** Another peer's element goes to the front. *)
Lemma front_remembers D e c x :
  remembers D e c → pid x ≠ pid e →
  remembers ({[pid x]} ∪ D) e (MkLRU (cap c) (x :: without_peer (pid x) (lru c)) (index c)).
Proof.
  intros (pre & post & E & Hp) Hne. exists (x :: without_peer (pid x) pre), (without_peer (pid x) post). cbn. split.
  - rewrite E. unfold without_peer. by rewrite filter_app, filter_cons_True.
  - constructor; [set_solver|]. apply Forall_forall. intros y [_ Hy]%list_elem_of_filter.
    rewrite Forall_forall in Hp. specialize (Hp _ Hy). set_solver.
Qed.

Lemma element_unique c e : lru_sound c → e ∈ lru c → element c (pid e) = Some e.
Proof.
  intros Hs He. unfold element. destruct (list_find (λ x, pid x = pid e) (lru c)) as [[i x]|] eqn:E.
  - apply list_find_Some in E as (Hi & Hp & _). cbn. f_equal. apply list_elem_of_lookup in He as [j Hj].
    pose proof (ls_nodup _ Hs) as Hn. rewrite NoDup_alt in Hn.
    assert (i = j) as -> by (apply (Hn i j (pid e)); rewrite list_lookup_fmap, ?Hi, ?Hj; cbn; congruence). congruence.
  - apply list_find_None in E. rewrite Forall_forall in E. by destruct (E e He).
Qed.

Lemma Get_remembers D e c q :
  lru_sound c → remembers D e c →
  remembers ({[q]} ∪ D) e (Get q c).2 ∧ (q = pid e → (Get q c).1 = Some (last_at e)).
Proof.
  intros Hs Hr. pose proof Hr as (pre & post & E & Hp).
  assert (e ∈ lru c) as He by (rewrite E; set_solver).
  assert (q = pid e → q ∈ index c) as Hi by (intros ->; apply (ls_index _ Hs); by apply list_elem_of_fmap_2).
  unfold Get. destruct (decide (q = pid e)) as [->|Hne].
  - rewrite decide_True by auto. rewrite (element_unique _ _ Hs He). cbn. split; [|done].
    exists [], (without_peer (pid e) (lru c)). by split; [|constructor].
  - split; [|done]. case_decide; [|eapply remembers_mono; [|exact Hr]; set_solver].
    destruct (element c q) as [x|] eqn:Ex; [|eapply remembers_mono; [|exact Hr]; set_solver].
    apply element_spec in Ex as [_ <-]. by apply front_remembers.
Qed.

Lemma pre_length (D : gset peerID) e c pre post :
  lru_sound c → lru c = pre ++ e :: post → Forall (λ x, pid x ∈ D) pre → (length pre <= size D)%nat.
Proof.
  intros Hs E Hp. pose proof (ls_nodup _ Hs) as Hn. rewrite E, fmap_app in Hn. apply NoDup_app in Hn as (Hn & _).
  rewrite <- (length_fmap pid), <- (size_list_to_set (C := gset string)) by done.
  apply subseteq_size. intros q Hq%elem_of_list_to_set. apply list_elem_of_fmap in Hq as (x & -> & Hx).
  rewrite Forall_forall in Hp. auto.
Qed.

Lemma Set_remembers (D : gset peerID) e c q t :
  lru_sound c → remembers D e c → q ≠ pid e → Z.of_nat (size ({[q]} ∪ D)) < cap c →
  remembers ({[q]} ∪ D) e (Set_ q t c).
Proof.
  intros Hs Hr Hne Hsz. unfold Set_. set (c1 := if decide (q ∈ index c) then _ else _).
  assert (remembers ({[q]} ∪ D) e c1 ∧ lru_sound c1 ∧ cap c1 = cap c) as (Hr1 & Hs1 & Ec).
  { unfold c1. case_decide as Hq.
    - split; [by apply (front_remembers D e c (MkAttempt q t))|]. split; [by apply (front_sound c (MkAttempt q t))|done].
    - destruct Hr as (pre & post & E & Hp). split_and!; [|split; cbn; [apply Hs| |]|done].
      + exists (MkAttempt q t :: pre), post. cbn. rewrite E. split; [done|].
        constructor; [set_solver|]. eapply Forall_impl; [exact Hp|]. set_solver.
      + constructor; [by rewrite <- (ls_index _ Hs)|apply Hs].
      + intros x. rewrite elem_of_union, elem_of_singleton, elem_of_cons, (ls_index _ Hs). done. }
  pose proof Hr1 as (pre & post & E & Hp). pose proof (pre_length _ _ _ _ _ Hs1 E Hp) as Hl.
  assert (lru (shrink (length (lru c1)) c1) = pre ++ e :: take (Z.to_nat (cap c) - S (length pre)) post) as El.
  { rewrite shrink_take by (try done; apply Hs1). rewrite Ec, E, take_app_ge by lia. f_equal.
    replace (Z.to_nat (cap c) - length pre)%nat with (S (Z.to_nat (cap c) - S (length pre))) by lia. done. }
  by exists pre, (take (Z.to_nat (cap c) - S (length pre)) post).
Qed.

(** ** Runs *)

Inductive gate_call : Type :=
  | Acquire (now : Z) (p : peerID)
  | Release.

Definition call (g : Gate) (a : gate_call) : Gate :=
  match a with
  | Acquire now p => (acquireGossipBlockValidationSlot now p g).2
  | Release => releaseGossipBlockValidationSlot g
  end.

Definition peers (tr : list gate_call) : gset peerID :=
  list_to_set (omap (λ a, match a with Acquire _ p => Some p | Release => None end) tr).

(** The clock of the calls lies between [t1] and [t2]. *)
Definition timed (t1 t2 : Z) (a : gate_call) : Prop :=
  match a with Acquire now _ => t1 <= now <= t2 | Release => True end.

Lemma call_ok g a : gate_ok g → gate_ok (call g a).
Proof. destruct a; [apply acquire_ok|apply release_ok]. Qed.

Lemma run_ok g tr : gate_ok g → gate_ok (foldl call g tr).
Proof. revert g. induction tr as [|a tr IH]; intros g Hg; [done|]. by apply IH, call_ok. Qed.

(** A call within the interval keeps the attempt of [e] in mind. *)
Lemma acquire_remembers D e g now q :
  gate_ok g → remembers D e (attempts g) → last_at e <= now → now - last_at e < minGossipBlockValidationInterval →
  Z.of_nat (size ({[q]} ∪ D)) < maxGossipBlockAttemptEntries →
  remembers ({[q]} ∪ D) e (attempts (acquireGossipBlockValidationSlot now q g).2) ∧
  (q = pid e → (acquireGossipBlockValidationSlot now q g).1 = Err (Errorf "block gossip rate limit exceeded")).
Proof.
  intros Hg Hr Ht Hi Hsz. pose proof (acquire_run now q g) as E. unfold PurgeBefore in E.
  assert (remembers D e (purge (length (lru (attempts g))) (now - gossipBlockAttemptTTL) (attempts g))) as Hr1.
  { apply purge_remembers; [|done]. unfold gossipBlockAttemptTTL, minGossipBlockValidationInterval, second in *. lia. }
  pose proof (purge_bounded (now - gossipBlockAttemptTTL) (length (lru (attempts g))) _ (attempts_bounded _ Hg)) as Hb.
  destruct (Get_remembers _ _ _ q (proj1 Hb) Hr1) as [Hr2 Hl]. apply (Get_bounded q) in Hb as (Hs2 & Hc2 & _).
  destruct (Get q _) as [last c]. cbn in Hr2, Hl, Hs2, Hc2. rewrite E. clear E. destruct (decide (q = pid e)) as [Hq|Hne].
  - rewrite (Hl Hq), (proj2 (Z.ltb_lt _ _)) by done. by split.
  - split; [|done]. destruct (match last with Some _ => _ | None => _ end); [done|].
    destruct (_ <=? _); [done|]. cbn. eapply remembers_mono; [|apply (Set_remembers ({[q]} ∪ D)); [done..|]].
    + set_solver.
    + rewrite Hc2. by replace ({[q]} ∪ ({[q]} ∪ D)) with ({[q]} ∪ D) by set_solver.
Qed.

Lemma run_remembers tr D e g t2 :
  gate_ok g → remembers D e (attempts g) → Forall (timed (last_at e) t2) tr →
  t2 - last_at e < minGossipBlockValidationInterval →
  Z.of_nat (size (peers tr ∪ D)) < maxGossipBlockAttemptEntries →
  remembers (peers tr ∪ D) e (attempts (foldl call g tr)).
Proof.
  revert D g. induction tr as [|a tr IH]; intros D g Hg Hr Htr Hi Hsz; cbn [foldl].
  { eapply remembers_mono; [|exact Hr]. set_solver. }
  apply Forall_cons in Htr as [Ha Htr]. destruct a as [now q|].
  - assert (peers (Acquire now q :: tr) ∪ D = peers tr ∪ ({[q]} ∪ D)) as E by (unfold peers; cbn; set_solver).
    rewrite E in *. apply IH; [by apply call_ok| |done|done|done].
    assert (Z.of_nat (size ({[q]} ∪ D)) <= Z.of_nat (size (peers tr ∪ ({[q]} ∪ D)))) by (apply inj_le, subseteq_size; set_solver).
    cbn in Ha. eapply acquire_remembers; [done|done|lia|lia|lia].
  - apply IH; [by apply call_ok| |done|done|done]. unfold call, releaseGossipBlockValidationSlot.
    by destruct (_ <? _).
Qed.

Lemma acquire_accepted now p g g' :
  gate_ok g → acquireGossipBlockValidationSlot now p g = (Ok tt, g') →
  gossipBlockInFlight g' = 1 ∧ remembers ∅ (MkAttempt p now) (attempts g').
Proof.
  intros Hg E. pose proof (acquire_run now p g) as Er. pose proof (go_flight _ Hg).
  pose proof (Get_bounded p _ (purge_bounded (now - gossipBlockAttemptTTL) (length (lru (attempts g))) _ (attempts_bounded _ Hg))) as (Hs & Hc & _).
  unfold PurgeBefore in Er. destruct (Get p _) as [last c]. rewrite Er in E. clear Er. cbn in Hs, Hc.
  destruct (match last with Some _ => _ | None => _ end); [done|].
  destruct (Z.leb_spec maxConcurrentGossipBlockValidations (gossipBlockInFlight g)); [done|]. injection E as <-.
  cbn. split; [unfold maxConcurrentGossipBlockValidations in *; lia|]. unfold Set_.
  set (c1 := if decide (p ∈ index c) then _ else _).
  assert (cap c1 = cap c ∧ ∃ post, lru c1 = MkAttempt p now :: post) as (Ec & post & E1) by (unfold c1; case_decide; eauto).
  exists [], (take (Z.to_nat (cap c) - 1) post). split; [|constructor].
  rewrite shrink_take by (try done; rewrite Ec; apply Hs). rewrite E1, Ec, Hc. done.
Qed.

(** C38. The gate bounds the work peers can cause.  In every run at most one
    gossiped block is being validated and at most 4096 peers are remembered;
    and a peer whose block was admitted at [t1] is refused at every later time
    [t2] less than three seconds after, whatever calls came in between, unless
    4096 or more different peers called. *)
Theorem gossip_rate_limited (g g1 : Gate) (t1 t2 : Z) (p : peerID) (tr : list gate_call) :
  gate_ok g → acquireGossipBlockValidationSlot t1 p g = (Ok tt, g1) → Forall (timed t1 t2) tr →
  t1 <= t2 → t2 - t1 < minGossipBlockValidationInterval → Z.of_nat (size ({[p]} ∪ peers tr)) < maxGossipBlockAttemptEntries →
  let g2 := foldl call g1 tr in
  gate_ok g2 ∧ Z.of_nat (length (lru (attempts g2))) <= maxGossipBlockAttemptEntries ∧ gossipBlockInFlight g2 <= 1 ∧
  (acquireGossipBlockValidationSlot t2 p g2).1 = Err (Errorf "block gossip rate limit exceeded").
Proof.
  intros Hg E Htr Ht Hi Hsz g2. assert (gate_ok g1) as Hg1 by (change g1 with (Ok tt, g1).2; rewrite <- E; by apply acquire_ok).
  assert (gate_ok g2) as Hg2 by by apply run_ok. destruct (acquire_accepted _ _ _ _ Hg E) as [_ Hr].
  assert (Z.of_nat (size (peers tr ∪ (∅ : gset peerID))) <= Z.of_nat (size ({[p]} ∪ peers tr))) by (apply inj_le, subseteq_size; set_solver).
  pose proof (run_remembers tr ∅ _ g1 t2 Hg1 Hr Htr Hi ltac:(lia)) as Hr2.
  split_and!; [done|apply (attempts_bounded _ Hg2)|apply (go_flight _ Hg2)|].
  apply (acquire_remembers (peers tr ∪ ∅) (MkAttempt p t1) g2 t2 p Hg2 Hr2); [done|done| |done].
  by rewrite (right_id_L ∅ (∪)).
Qed.

Lemma gossip_rate_limited_witness :
  let g := MkGate 0 None in
  let g1 := (acquireGossipBlockValidationSlot 0 "a" g).2 in
  let g2 := foldl call g1 [Release; Acquire second "b"; Release] in
  (acquireGossipBlockValidationSlot (2 * second) "a" g2).1 = Err (Errorf "block gossip rate limit exceeded") ∧
  (acquireGossipBlockValidationSlot (3 * second) "a" g2).1 = Ok tt.
Proof.
  intros g g1 g2. split; [|vm_compute; reflexivity].
  apply (gossip_rate_limited g g1 0 (2 * second) "a" [Release; Acquire second "b"; Release]).
  - split; [done|]. intros c. done.
  - vm_compute; reflexivity.
  - unfold second. repeat constructor; cbn; lia.
  - done.
  - done.
  - vm_compute; reflexivity.
Defined.
