(* ===== verification/Checkpoints.v ===== *)
(** * The checkpoint file ([checkpoints.go], [daemon.go])

    A text file with one [height:HASH] line per checkpoint: the parser, and
    the line the daemon appends.  Text is a byte string in UTF-8.  The
    download of the file is not modelled. *)

From Stdlib Require Import Strings.String.
From S2P Require Import Prelude.

Definition text (s : string) : bytes := String.list_byte_of_string s.

(** ** Text functions of the standard library *)

Definition in_range (lo hi : Z) (b : byte) : bool := (lo <=? Z_of_byte b) && (Z_of_byte b <=? hi).

(** [strings.TrimSpace] trims the UTF-8 encodings of the white space of
    Unicode. *)
Definition spaces : list bytes :=
  map byte_of_Z <$> ([[9]; [10]; [11]; [12]; [13]; [32]; [194; 133]; [194; 160]; [225; 154; 128]] ++
    ((λ i, [226; 128; i]) <$> seqZ 128 11) ++ [[226; 128; 168]; [226; 128; 169]; [226; 128; 175]; [226; 129; 159]; [227; 128; 128]]).

Definition is_prefix (p l : bytes) : bool := bool_decide (take (length p) l = p).

Fixpoint trim_left (fuel : nat) (seps : list bytes) (l : bytes) : bytes :=
  match fuel with
  | O => l
  | S fuel =>
      match list_find (λ s, is_prefix s l) seps with
      | Some (_, s) => trim_left fuel seps (drop (length s) l)
      | None => l
      end
  end.

Definition TrimSpace (l : bytes) : bytes :=
  let l := trim_left (length l) spaces l in
  reverse (trim_left (length l) (reverse <$> spaces) (reverse l)).

Definition TrimPrefix (p l : bytes) : bytes := if is_prefix p l then drop (length p) l else l.

(** The parts before and after the first separator. *)
Fixpoint cut (sep : byte) (l : bytes) : option (bytes * bytes) :=
  match l with
  | [] => None
  | b :: l => if decide (b = sep) then Some ([], l)
              else (λ '(x, y), (b :: x, y)) <$> cut sep l
  end.

(** [strconv.ParseUint(s, 10, 64)] *)
Definition digit (b : byte) : option Z := if in_range 48 57 b then Some (Z_of_byte b - 48) else None.

Fixpoint parse_digits (n : Z) (l : bytes) : option Z :=
  match l with
  | [] => Some n
  | b :: l =>
      d ← digit b;
      if 10 * n + d <? 2 ^ 64 then parse_digits (10 * n + d) l else None
  end.

Definition ParseUint (l : bytes) : option Z := if decide (l = []) then None else parse_digits 0 l.

(** [%d] of a [uint64]: at most twenty digits. *)
Fixpoint digits (fuel : nat) (n : Z) : bytes :=
  match fuel with
  | O => []
  | S fuel => (if n <? 10 then [] else digits fuel (n `div` 10)) ++ [byte_of_Z (48 + n `mod` 10)]
  end.

Definition FormatUint (n : Z) : bytes := digits 20 n.

(** [encoding/hex] *)
Definition fromHexChar (b : byte) : option Z :=
  if in_range 48 57 b then Some (Z_of_byte b - 48)
  else if in_range 97 102 b then Some (Z_of_byte b - 87)
  else if in_range 65 70 b then Some (Z_of_byte b - 55)
  else None.

Fixpoint DecodeString (l : bytes) : option bytes :=
  match l with
  | [] => Some []
  | [_] => None
  | a :: b :: l =>
      x ← fromHexChar a; y ← fromHexChar b; r ← DecodeString l;
      Some (byte_of_Z (16 * x + y) :: r)
  end.

Definition hexChar (n : Z) : byte := byte_of_Z (if n <? 10 then 48 + n else 87 + n).

Definition EncodeToString (l : bytes) : bytes :=
  concat ((λ b, [hexChar (Z_of_byte b `div` 16); hexChar (Z_of_byte b `mod` 16)]) <$> l).

(** [strings.ToUpper] on ASCII text. *)
Definition ToUpper (l : bytes) : bytes :=
  (λ b, if in_range 97 122 b then byte_of_Z (Z_of_byte b - 32) else b) <$> l.

(** [bufio.ScanLines]: the lines without their end, a final carriage return
    dropped. *)
Definition drop_cr (l : bytes) : bytes :=
  match last l with
  | Some b => if Z_of_byte b =? 13 then take (length l - 1) l else l
  | None => l
  end.

Definition newline : byte := byte_of_Z 10.
Definition colon : byte := byte_of_Z 58.

Fixpoint split_lines (acc : bytes) (l : bytes) : list bytes :=
  match l with
  | [] => if decide (acc = []) then [] else [reverse acc]
  | b :: l => if decide (b = newline) then reverse acc :: split_lines [] l else split_lines (b :: acc) l
  end.

(** ** Loading *)

Definition maxLineBytes : Z := 1024 * 1024.

(** A checkpoint line; others are skipped. *)
Definition parse_line (line : bytes) : option (Z * bytes) :=
  let line := TrimSpace line in
  if decide (line = []) then None
  else if is_prefix (text "#") line then None
  else
    '(a, b) ← cut colon line;
    h ← ParseUint (TrimSpace a);
    if h =? 0 then None
    else
      let hashHex := TrimPrefix (text "0x") (TrimSpace b) in
      if decide (length hashHex = 64%nat) then
        hash ← DecodeString hashHex;
        if decide (length hash = 32%nat) then Some (h, hash) else None
      else None.

Record CheckpointSet : Type := MkCheckpointSet {
  checkpoints : gmap Z bytes;
  heights : list Z;
  maxHeight : Z;
}.

Definition add_checkpoint (s : CheckpointSet) (line : bytes) : CheckpointSet :=
  match parse_line line with
  | None => s
  | Some (h, hash) =>
      MkCheckpointSet (<[h := hash]> (checkpoints s))
        (if decide (is_Some (checkpoints s !! h)) then heights s else heights s ++ [h])
        (if maxHeight s <? h then h else maxHeight s)
  end.

(** The contents of a file that can be read: [bufio.ErrTooLong] for a line
    that fills the scanner's buffer. *)
Definition loadCheckpointsFile (file : bytes) : result CheckpointSet :=
  let lines := split_lines [] file in
  if existsb (λ l, maxLineBytes <=? Z.of_nat (length l)) lines then Err (Errorf "bufio.Scanner: token too long")
  else
    let s := foldl (λ s l, add_checkpoint s (drop_cr l)) (MkCheckpointSet ∅ [] 0) lines in
    Ok (MkCheckpointSet (checkpoints s) (merge_sort Z.le (heights s)) (maxHeight s)).

(** The line the daemon appends for a block. *)
Definition checkpoint_line (h : Z) (hash : bytes) : bytes :=
  FormatUint h ++ [colon] ++ ToUpper (EncodeToString hash) ++ [newline].

Example load_line : loadCheckpointsFile (checkpoint_line 1200 (replicate 32 (byte_of_Z 171)) ++ text "# x") =
  Ok (MkCheckpointSet {[1200 := replicate 32 (byte_of_Z 171)]} [1200] 1200).
Proof. vm_compute. reflexivity. Qed.

(** ** Text without white space *)

Definition graphic (b : byte) : bool := in_range 33 126 b.

Definition clear_of (b : byte) (s : bytes) : Prop :=
  match s with x :: _ => x ≠ b | [] => False end.

#[global] Instance clear_of_dec b s : Decision (clear_of b s).
Proof. destruct s; cbn; apply _. Defined.

Lemma trim_left_id fuel seps b l : Forall (clear_of b) seps → trim_left fuel seps (b :: l) = b :: l.
Proof.
  intros Hs. destruct fuel as [|fuel]; [done|]. cbn [trim_left].
  destruct (list_find _ seps) as [[i s]|] eqn:E; [|done].
  apply list_find_Some in E as (Hi & Hp & _). apply list_elem_of_lookup_2 in Hi. rewrite Forall_forall in Hs.
  specialize (Hs s Hi). destruct s as [|x s]; [done|]. cbn in Hs. unfold is_prefix in Hp.
  apply bool_decide_unpack in Hp. cbn in Hp. congruence.
Qed.

Definition blank_first (s : bytes) : bool := match s with x :: _ => negb (graphic x) | [] => false end.

Lemma clear_of_graphic seps b :
  forallb blank_first seps = true → graphic b = true → Forall (clear_of b) seps.
Proof.
  intros Hs Hb. rewrite forallb_forall in Hs. apply Forall_forall. intros s Hin%list_elem_of_In.
  specialize (Hs s Hin). destruct s as [|x s]; [done|]. cbn in *. intros ->. by rewrite Hb in Hs.
Qed.

Lemma TrimSpace_id b l c :
  graphic b = true → graphic c = true → head l = Some b → last l = Some c → TrimSpace l = l.
Proof.
  intros Hb Hc Hh Hl. destruct l as [|x l]; [done|]. injection Hh as ->. unfold TrimSpace.
  rewrite trim_left_id by (apply clear_of_graphic; [vm_compute; reflexivity|done]).
  assert (∃ k, reverse (b :: l) = c :: k) as [k E].
  { apply last_Some in Hl as [k Hk]. exists (reverse k). by rewrite Hk, reverse_app. }
  rewrite E, trim_left_id by (apply clear_of_graphic; [vm_compute; reflexivity|done]).
  by rewrite <- E, reverse_involutive.
Qed.

(** ** Numbers *)

Lemma Z_of_byte_small z : 0 <= z < 256 → Z_of_byte (byte_of_Z z) = z.
Proof. intros. by rewrite Z_of_byte_of_Z, Z.mod_small. Qed.

Lemma parse_digits_snoc n l b :
  parse_digits n (l ++ [b]) = (m ← parse_digits n l; d ← digit b; if 10 * m + d <? 2 ^ 64 then Some (10 * m + d) else None).
Proof.
  revert n. induction l as [|x l IH]; intros n; cbn [parse_digits app].
  - cbn. destruct (digit b) as [d|]; [|done]. cbn. done.
  - destruct (digit x) as [d|]; [|done]. cbn [mbind option_bind]. destruct (_ <? _); [apply IH|done].
Qed.

Lemma digit_of_Z d : 0 <= d < 10 → digit (byte_of_Z (48 + d)) = Some d.
Proof.
  intros. unfold digit, in_range. rewrite Z_of_byte_small by lia.
  rewrite (proj2 (Z.leb_le _ _)), (proj2 (Z.leb_le _ _)) by lia. cbn. f_equal. lia.
Qed.

Lemma parse_digits_format fuel n :
  (0 < fuel)%nat → 0 <= n < 10 ^ Z.of_nat fuel → n < 2 ^ 64 → parse_digits 0 (digits fuel n) = Some n.
Proof.
  revert n. induction fuel as [|fuel IH]; intros n Hf Hn H64; [lia|]. cbn [digits].
  rewrite Nat2Z.inj_succ, Z.pow_succ_r in Hn by lia. pose proof (Z.mod_pos_bound n 10 ltac:(lia)).
  pose proof (Z.div_mod n 10 ltac:(lia)). rewrite parse_digits_snoc.
  assert (parse_digits 0 (if n <? 10 then [] else digits fuel (n `div` 10)) = Some (n `div` 10)) as ->.
  { destruct (Z.ltb_spec n 10) as [Hlt|Hge]; [by rewrite Z.div_small by lia|].
    destruct fuel as [|fuel]; [cbn in Hn; lia|]. apply IH; [lia| |lia]. split; [lia|]. apply Z.div_lt_upper_bound; lia. }
  cbn [mbind option_bind]. rewrite digit_of_Z by lia. cbn [mbind option_bind].
  rewrite (proj2 (Z.ltb_lt _ _)) by lia. f_equal. lia.
Qed.

Lemma digits_range fuel n : 0 <= n → Forall (λ b, 48 <= Z_of_byte b <= 57) (digits fuel n).
Proof.
  revert n. induction fuel as [|fuel IH]; intros n Hn; cbn; [constructor|]. apply Forall_app. split.
  - destruct (_ <? _); [constructor|]. apply IH, Z.div_pos; lia.
  - apply Forall_singleton. pose proof (Z.mod_pos_bound n 10 ltac:(lia)). rewrite Z_of_byte_small by lia. lia.
Qed.

Lemma ParseUint_Format n : 0 <= n < 2 ^ 64 → ParseUint (FormatUint n) = Some n.
Proof.
  intros Hn. unfold ParseUint, FormatUint. rewrite decide_False.
  - apply parse_digits_format; lia.
  - cbn [digits]. intros E%app_eq_nil. by destruct E.
Qed.

(** ** Hexadecimal *)

Lemma hex_digit n : 0 <= n < 16 →
  let c := if in_range 97 122 (hexChar n) then byte_of_Z (Z_of_byte (hexChar n) - 32) else hexChar n in
  fromHexChar c = Some n ∧ graphic c = true ∧ Z_of_byte c ≠ 120 ∧ Z_of_byte c ≠ 10.
Proof.
  intros Hn. assert (n ∈ seqZ 0 16) as Hin by (apply elem_of_seqZ; lia). clear Hn. revert n Hin. apply Forall_forall.
  vm_decide.
Qed.

Lemma nibbles b : 0 <= Z_of_byte b `div` 16 < 16 ∧ 0 <= Z_of_byte b `mod` 16 < 16 ∧
  16 * (Z_of_byte b `div` 16) + Z_of_byte b `mod` 16 = Z_of_byte b.
Proof.
  pose proof (Z_of_byte_range b). split_and!; [apply Z.div_pos; lia|apply Z.div_lt_upper_bound; lia|
    by apply Z.mod_pos_bound|by apply Z.mod_pos_bound|]. symmetry. by apply Z.div_mod.
Qed.

Lemma hex_roundtrip l : DecodeString (ToUpper (EncodeToString l)) = Some l.
Proof.
  induction l as [|b l IH]; [done|]. unfold EncodeToString, ToUpper in *. cbn [fmap list_fmap concat app DecodeString].
  destruct (nibbles b) as (H1 & H2 & E). destruct (hex_digit _ H1) as (-> & _), (hex_digit _ H2) as (-> & _).
  cbn [mbind option_bind]. rewrite IH. cbn [mbind option_bind]. by rewrite E, byte_of_Z_of_byte.
Qed.

Lemma hex_clean l : Forall (λ b, graphic b = true ∧ Z_of_byte b ≠ 120 ∧ Z_of_byte b ≠ 10) (ToUpper (EncodeToString l)).
Proof.
  induction l as [|b l IH]; [constructor|]. unfold EncodeToString, ToUpper in *. cbn [fmap list_fmap concat app].
  destruct (nibbles b) as (H1 & H2 & _). constructor; [by apply hex_digit|]. constructor; [by apply hex_digit|]. exact IH.
Qed.

Lemma hex_length l : length (ToUpper (EncodeToString l)) = (2 * length l)%nat.
Proof.
  unfold ToUpper, EncodeToString. rewrite length_fmap. induction l as [|b l IH]; [done|]. cbn in *. rewrite IH. lia.
Qed.

(** ** Lines *)

Lemma cut_app sep a b : Forall (λ x, x ≠ sep) a → cut sep (a ++ sep :: b) = Some (a, b).
Proof.
  induction 1 as [|x a Hx _ IH]; cbn; [by rewrite decide_True|]. rewrite decide_False by done. by rewrite IH.
Qed.

Lemma head_last {A} (P : A → Prop) l : Forall P l → l ≠ [] → ∃ x y, head l = Some x ∧ last l = Some y ∧ P x ∧ P y.
Proof.
  intros Hl Hne. destruct l as [|x l]; [done|]. destruct (last (x :: l)) as [y|] eqn:E.
  - exists x, y. split_and!; [done|done|by apply Forall_cons in Hl as []|].
    rewrite Forall_forall in Hl. by apply Hl, last_Some_elem_of.
  - by apply last_None in E.
Qed.

Lemma TrimSpace_clean l : Forall (λ b, graphic b = true) l → l ≠ [] → TrimSpace l = l.
Proof.
  intros Hl Hne. destruct (head_last _ l Hl Hne) as (x & y & Hx & Hy & ? & ?). by apply (TrimSpace_id x l y).
Qed.

Lemma FormatUint_clean n : 0 <= n → Forall (λ b, 48 <= Z_of_byte b <= 57) (FormatUint n) ∧ FormatUint n ≠ [].
Proof. intros Hn. split; [by apply digits_range|]. unfold FormatUint. cbn [digits]. intros E%app_eq_nil. by destruct E. Qed.

Lemma graphic_range b lo hi : 33 <= lo → hi <= 126 → lo <= Z_of_byte b <= hi → graphic b = true.
Proof. intros. unfold graphic, in_range. rewrite !(proj2 (Z.leb_le _ _)) by lia. done. Qed.

Lemma parse_checkpoint_line h hash :
  0 < h < 2 ^ 64 → length hash = 32%nat →
  parse_line (FormatUint h ++ [colon] ++ ToUpper (EncodeToString hash)) = Some (h, hash).
Proof.
  intros Hh Hlen. set (hex := ToUpper (EncodeToString hash)).
  destruct (FormatUint_clean h) as [Hd Hne]; [lia|].
  assert (Forall (λ b, graphic b = true) (FormatUint h)) as Hdg
    by (eapply Forall_impl; [exact Hd|]; intros b; by apply (graphic_range b 48 57)).
  pose proof (hex_clean hash) as Hx. fold hex in Hx.
  assert (length hex = 64%nat) as Hlx by (unfold hex; rewrite hex_length, Hlen; done).
  assert (hex ≠ []) as Hxne by (intros E; by rewrite E in Hlx).
  assert (Forall (λ b, graphic b = true) hex) as Hxg by (eapply Forall_impl; [exact Hx|]; tauto).
  unfold parse_line. rewrite TrimSpace_clean; [| |by destruct (FormatUint h)].
  2:{ apply Forall_app. split; [done|]. by constructor. }
  rewrite decide_False by (by destruct (FormatUint h)).
  assert (is_prefix (text "#") (FormatUint h ++ [colon] ++ hex) = false) as ->.
  { apply bool_decide_eq_false. destruct (FormatUint h) as [|b l]; [done|]. apply Forall_cons in Hd as [Hb _].
    cbn. intros [= ->]. cbn in Hb. vm_compute in Hb. destruct Hb as [Hb _]. by apply Hb. }
  cbn [app]. rewrite cut_app.
  2:{ eapply Forall_impl; [exact Hd|]. intros b Hb ->. unfold colon in Hb. rewrite Z_of_byte_small in Hb; lia. }
  cbn [mbind option_bind]. rewrite (TrimSpace_clean (FormatUint h)) by done. rewrite ParseUint_Format by lia. cbn [mbind option_bind].
  rewrite (proj2 (Z.eqb_neq _ _)) by lia. rewrite TrimSpace_clean by done. unfold TrimPrefix.
  assert (is_prefix (text "0x") hex = false) as ->.
  { apply bool_decide_eq_false. destruct hex as [|x [|y hex']]; [done..|]. apply Forall_cons in Hx as [_ Hx].
    apply Forall_cons in Hx as [(_ & Hy & _) _]. cbn. intros [= -> ->]. by apply Hy. }
  rewrite decide_True by done. unfold hex. rewrite hex_roundtrip. cbn [mbind option_bind]. by rewrite decide_True.
Qed.

Lemma split_lines_app acc a rest :
  Forall (λ b, b ≠ newline) a → split_lines acc (a ++ newline :: rest) = (reverse acc ++ a) :: split_lines [] rest.
Proof.
  intros Ha. revert acc. induction Ha as [|b a Hb _ IH]; intros acc; cbn [app split_lines].
  - rewrite decide_True by done. by rewrite app_nil_r.
  - rewrite decide_False by done. rewrite IH, reverse_cons, <- app_assoc. done.
Qed.

Definition line_of (x : Z * bytes) : bytes := FormatUint x.1 ++ [colon] ++ ToUpper (EncodeToString x.2).

Definition valid_checkpoint (x : Z * bytes) : Prop := 0 < x.1 < 2 ^ 64 ∧ length x.2 = 32%nat.

Lemma line_no_newline x : valid_checkpoint x → Forall (λ b, b ≠ newline) (line_of x).
Proof.
  intros [Hh _]. unfold line_of. apply Forall_app. split.
  - eapply Forall_impl; [apply (FormatUint_clean x.1); lia|]. cbn. intros b Hb ->. unfold newline in Hb.
    rewrite Z_of_byte_small in Hb; lia.
  - constructor; [done|]. eapply Forall_impl; [apply hex_clean|]. cbn. intros b (_ & _ & Hb) ->. by apply Hb.
Qed.

Lemma line_drop_cr x : valid_checkpoint x → drop_cr (line_of x) = line_of x.
Proof.
  intros [Hh Hl]. unfold drop_cr. destruct (last (line_of x)) as [b|] eqn:E; [|done].
  destruct (Z.eqb_spec (Z_of_byte b) 13) as [Hb|]; [|done]. exfalso.
  unfold line_of in E. rewrite app_assoc, last_app in E.
  destruct (head_last _ _ (hex_clean x.2)) as (? & y & _ & Ey & _ & (Hg & _)).
  { intros E0. apply (f_equal length) in E0. rewrite hex_length, Hl in E0. done. }
  rewrite Ey in E. injection E as ->. unfold graphic, in_range in Hg. rewrite Hb in Hg. done.
Qed.

Lemma length_digits fuel n : (length (digits fuel n) <= fuel)%nat.
Proof.
  revert n. induction fuel as [|fuel IH]; intros n; cbn; [lia|]. rewrite length_app. cbn.
  destruct (_ <? _); cbn; [lia|]. specialize (IH (n `div` 10)). lia.
Qed.

Lemma line_short x : valid_checkpoint x → Z.of_nat (length (line_of x)) < maxLineBytes.
Proof.
  intros [_ Hl]. unfold line_of, maxLineBytes. rewrite !length_app, hex_length, Hl. pose proof (length_digits 20 x.1).
  unfold FormatUint. cbn [length]. lia.
Qed.

Lemma split_checkpoint_lines l :
  Forall valid_checkpoint l → split_lines [] (concat ((λ x, checkpoint_line x.1 x.2) <$> l)) = line_of <$> l.
Proof.
  induction 1 as [|x l Hx _ IH]; [done|]. cbn [fmap list_fmap concat]. unfold checkpoint_line at 1.
  replace ((FormatUint x.1 ++ [colon] ++ ToUpper (EncodeToString x.2) ++ [newline]) ++ concat ((λ x, checkpoint_line x.1 x.2) <$> l))
    with (line_of x ++ newline :: concat ((λ x, checkpoint_line x.1 x.2) <$> l))
    by (unfold line_of; by rewrite <- !app_assoc).
  rewrite split_lines_app by by apply line_no_newline. by rewrite IH.
Qed.

(** ** Loading *)

Record set_ok (s : CheckpointSet) : Prop := {
  so_nodup : NoDup (heights s);
  so_dom : ∀ h, h ∈ heights s ↔ is_Some (checkpoints s !! h);
  so_valid : ∀ h hash, checkpoints s !! h = Some hash → valid_checkpoint (h, hash);
  so_max : Forall (λ h, h <= maxHeight s) (heights s) ∧ (maxHeight s = 0 ∧ heights s = [] ∨ maxHeight s ∈ heights s);
}.

Lemma parse_digits_range n l h : 0 <= n < 2 ^ 64 → parse_digits n l = Some h → 0 <= h < 2 ^ 64.
Proof.
  revert n. induction l as [|b l IH]; intros n Hn; cbn [parse_digits]; [by intros [= <-]|].
  intros (d & Hd & E)%bind_Some. unfold digit, in_range in Hd.
  destruct (_ && _) eqn:Er; [|done]. simpl_bools. injection Hd as <-.
  destruct (Z.ltb_spec (10 * n + (Z_of_byte b - 48)) (2 ^ 64)); [|done]. eapply IH; [|exact E]. lia.
Qed.

Lemma parse_line_valid line h hash : parse_line line = Some (h, hash) → valid_checkpoint (h, hash).
Proof.
  unfold parse_line. case_decide; [done|]. destruct (is_prefix _ _); [done|].
  intros ([a b] & _ & (n & Hn & E)%bind_Some)%bind_Some. destruct (Z.eqb_spec n 0); [done|].
  case_decide; [|done]. apply bind_Some in E as (x & _ & E). case_decide; [|done]. simplify_eq.
  unfold ParseUint in Hn. case_decide; [done|]. apply parse_digits_range in Hn; [|lia]. split; [|done]. cbn. lia.
Qed.

Lemma add_checkpoint_ok s line : set_ok s → set_ok (add_checkpoint s line).
Proof.
  intros Hs. unfold add_checkpoint. destruct (parse_line line) as [[h hash]|] eqn:E; [|done].
  apply parse_line_valid in E. pose proof Hs as [Hn Hd Hv [Hm Hx]].
  assert (∀ x, x ∈ (if decide (is_Some (checkpoints s !! h)) then heights s else heights s ++ [h]) ↔ x = h ∨ x ∈ heights s) as Hin.
  { intros x. case_decide as Hc; [|rewrite elem_of_app, list_elem_of_singleton; tauto].
    split; [tauto|]. intros [->|?]; [by apply Hd|done]. }
  split; cbn [checkpoints heights maxHeight].
  - case_decide as Hc; [done|]. apply NoDup_app. split_and!; [done| |apply NoDup_singleton].
    intros x Hx' ->%list_elem_of_singleton. by apply Hc, Hd.
  - intros x. rewrite Hin, Hd. destruct (decide (x = h)) as [->|Hne].
    + rewrite lookup_insert_eq. split; [eauto|by left].
    + rewrite lookup_insert_ne by done. naive_solver.
  - intros x y [[<- <-]|[_ Hy]]%lookup_insert_Some; [done|by apply Hv].
  - rewrite Forall_forall in Hm. rewrite Forall_forall. setoid_rewrite Hin. destruct E as [Hh _]. cbn in Hh.
    destruct (Z.ltb_spec (maxHeight s) h).
    + split; [|right; by left]. intros x [->|Hx']; [lia|]. specialize (Hm x Hx'). lia.
    + split; [intros x [->|Hx']; [lia|by apply Hm]|]. right. right. destruct Hx as [[E0 _]|Hx]; [lia|done].
Qed.

Lemma foldl_ok lines s : set_ok s → set_ok (foldl (λ s l, add_checkpoint s (drop_cr l)) s lines).
Proof. revert s. induction lines as [|l lines IH]; intros s Hs; [done|]. by apply IH, add_checkpoint_ok. Qed.

Lemma StronglySorted_impl {A} (R R' : relation A) l : StronglySorted R l → (∀ x y, R x y → R' x y) → StronglySorted R' l.
Proof. intros Hl HR. induction Hl; constructor; [done|]. eapply Forall_impl; [done|auto]. Qed.

Lemma sorted_strict l : StronglySorted Z.le l → NoDup l → StronglySorted Z.lt l.
Proof.
  induction 1 as [|x l Hl IH Hx]; intros Hn; constructor; apply NoDup_cons in Hn as [Hni Hn]; [by apply IH|].
  rewrite Forall_forall in *. intros y Hy. specialize (Hx y Hy). assert (x ≠ y) by (intros ->; done). lia.
Qed.

Lemma merge_sort_sorted (l : list Z) : StronglySorted Z.le l → merge_sort Z.le l = l.
Proof.
  intros Hl. apply (StronglySorted_unique Z.le); [|done|apply merge_sort_Permutation].
  apply (StronglySorted_merge_sort Z.le).
Qed.

Lemma fold_lines l :
  Forall valid_checkpoint l → StronglySorted Z.lt l.*1 →
  foldl (λ s l, add_checkpoint s (drop_cr l)) (MkCheckpointSet ∅ [] 0) (line_of <$> l) =
  MkCheckpointSet (list_to_map l) l.*1 (default 0 (last l.*1)).
Proof.
  induction l as [|x l IH] using rev_ind; intros Hv Hs; [done|].
  apply Forall_app in Hv as [Hv [Hx _]%Forall_cons]. rewrite fmap_app in Hs.
  apply StronglySorted_app in Hs as (Hlt & Hs & _). rewrite fmap_app, foldl_app, (IH Hv Hs). cbn [fmap list_fmap foldl].
  rewrite (line_drop_cr x Hx). unfold add_checkpoint, line_of. rewrite parse_checkpoint_line by apply Hx.
  cbn [checkpoints heights maxHeight].
  assert (x.1 ∉ l.*1) as Hni by (intros Hin; specialize (Hlt _ _ Hin ltac:(by left)); lia).
  rewrite decide_False; cycle 1.
  { rewrite <- not_eq_None_Some. intros Hc. apply Hc. by apply not_elem_of_list_to_map_1. }
  rewrite fmap_app, last_app. cbn [fmap list_fmap last]. destruct x as [h hash]. cbn [fst snd] in *.
  rewrite list_to_map_snoc by done. f_equal.
  destruct (Z.ltb_spec (default 0 (last l.*1)) h) as [|Hge]; [done|]. exfalso.
  destruct (last l.*1) as [y|] eqn:El; cbn in Hge; [|destruct Hx as [Hx _]; cbn in Hx; lia].
  apply last_Some_elem_of in El. specialize (Hlt y h El ltac:(by left)). lia.
Qed.

Lemma load_ok file s : loadCheckpointsFile file = Ok s → set_ok s ∧ StronglySorted Z.lt (heights s).
Proof.
  unfold loadCheckpointsFile. destruct (existsb _ _); [done|]. intros [= <-].
  set (s0 := foldl _ _ _). assert (set_ok s0) as Hs0.
  { apply foldl_ok. split; cbn; [constructor| |done|split; [constructor|by left]]. intros h. rewrite lookup_empty.
    split; [set_solver|by intros []]. }
  clearbody s0. destruct Hs0 as [Hn Hd Hv [Hm Hx]].
  assert (merge_sort Z.le (heights s0) ≡ₚ heights s0) as Hp by apply merge_sort_Permutation.
  split; [split; cbn|cbn].
  - by rewrite Hp.
  - intros h. by rewrite Hp.
  - done.
  - split; [by rewrite Hp|]. destruct Hx as [[? E]|?]; [left; by rewrite E|right; by rewrite Hp].
  - apply sorted_strict; [|by rewrite Hp]. apply (StronglySorted_merge_sort Z.le).
Qed.

(** C39. The checkpoint file.  Loading the lines the daemon appended, at
    increasing heights, gives back exactly these checkpoints, with the heights
    in order and the last one as the maximum.  And whatever text a file
    holds, loading it does not panic, and a set that is loaded has strictly
    increasing non-zero 64-bit heights, a 32-byte hash at each of them and at
    no other, and the greatest height as its maximum. *)
Theorem checkpoint_file_roundtrip (l : list (Z * bytes)) (file : bytes) :
  (Forall valid_checkpoint l → StronglySorted Z.lt l.*1 →
   loadCheckpointsFile (concat ((λ x, checkpoint_line x.1 x.2) <$> l)) =
     Ok (MkCheckpointSet (list_to_map l) l.*1 (default 0 (last l.*1)))) ∧
  (loadCheckpointsFile file ≠ Panic ∧
   ∀ s, loadCheckpointsFile file = Ok s → set_ok s ∧ StronglySorted Z.lt (heights s)).
Proof.
  split.
  - intros Hv Hs. unfold loadCheckpointsFile. rewrite split_checkpoint_lines by done.
    assert (existsb (λ l, maxLineBytes <=? Z.of_nat (length l)) (line_of <$> l) = false) as ->.
    { apply not_true_iff_false. intros (y & Hy%list_elem_of_In & Hlen)%existsb_exists.
      apply list_elem_of_fmap in Hy as (x & -> & Hx). rewrite Forall_forall in Hv.
      pose proof (line_short x (Hv x Hx)). simpl_bools. lia. }
    rewrite fold_lines by done. cbn [checkpoints heights maxHeight]. rewrite merge_sort_sorted; [done|].
    eapply StronglySorted_impl; [exact Hs|]. lia.
  - split; [unfold loadCheckpointsFile; by destruct (existsb _ _)|]. intros s. apply load_ok.
Qed.

Lemma checkpoint_file_roundtrip_witness :
  let l := [(100, replicate 32 (byte_of_Z 171)); (200, replicate 32 (byte_of_Z 7))] in
  loadCheckpointsFile (concat ((λ x, checkpoint_line x.1 x.2) <$> l)) =
    Ok (MkCheckpointSet (list_to_map l) [100; 200] 200).
Proof.
  intros l. apply (proj1 (checkpoint_file_roundtrip l [])).
  - repeat constructor; cbn; lia.
  - repeat constructor; cbn; lia.
Defined.
