(* ===== verification/Daemon.v ===== *)
(** * The daemon ([daemon.go])

    The chain, the mempool and the gate behind the handlers of the network,
    of the sync manager and of the miner.  What the handlers ask of the
    network, of the subscribers and of the miner is recorded as a list of
    events.  Each handler is a function on the daemon's state.  Handlers of
    blocks hold the daemon's lock while they change the chain and then the
    mempool; handlers of transactions take the mempool's lock only and can
    run between the steps of a block's handler, which are a list of tasks
    for that reason.  Times are nanoseconds. *)

From S2P Require Import Prelude Bytes Crypto Transaction Block ExchangeSort Consensus Memo Emission Validation Storage Chain ChainOps Startup Mempool.
From S2P Require Gate Checkpoints.
From stdpp Require Import strings.
#[local] Open Scope Z_scope.

Abbreviation peerID := string (only parsing).

Inductive Event : Type :=
  | BanPeer (p : peerID)
  | RelayBlock (from : peerID) (data : bytes)
  | NotifyBlock (b : Block)
  | NotifyMinedBlock (b : Block)
  | NotifyNewBlock
  | BroadcastBlock (data : bytes)
  | BroadcastTx (data : bytes).

(** [node]: is there a network node; [checkpointsFile]: the contents of the
    file, if a path is set; [appends]: the outcomes of the appends to come;
    when the list is used up, they succeed. *)
Record Daemon : Type := MkDaemon {
  chain : Chain;
  mempool : Mempool;
  gate : Gate.Gate;
  node : bool;
  saveCheckpoints : bool;
  checkpointsFile : option bytes;
  appends : list bool;
  lastCheckpointWritten : Z;
  events : list Event;
}.

Definition with_chain (c : Chain) (d : Daemon) : Daemon :=
  MkDaemon c (mempool d) (gate d) (node d) (saveCheckpoints d) (checkpointsFile d) (appends d)
    (lastCheckpointWritten d) (events d).
Definition with_mempool (m : Mempool) (d : Daemon) : Daemon :=
  MkDaemon (chain d) m (gate d) (node d) (saveCheckpoints d) (checkpointsFile d) (appends d)
    (lastCheckpointWritten d) (events d).
Definition with_gate (g : Gate.Gate) (d : Daemon) : Daemon :=
  MkDaemon (chain d) (mempool d) g (node d) (saveCheckpoints d) (checkpointsFile d) (appends d)
    (lastCheckpointWritten d) (events d).
Definition with_checkpoint (file : bytes) (h : Z) (outcomes : list bool) (d : Daemon) : Daemon :=
  MkDaemon (chain d) (mempool d) (gate d) (node d) (saveCheckpoints d) (Some file) outcomes h (events d).
Definition with_appends (outcomes : list bool) (d : Daemon) : Daemon :=
  MkDaemon (chain d) (mempool d) (gate d) (node d) (saveCheckpoints d) (checkpointsFile d) outcomes
    (lastCheckpointWritten d) (events d).
Definition with_event (e : Event) (d : Daemon) : Daemon :=
  MkDaemon (chain d) (mempool d) (gate d) (node d) (saveCheckpoints d) (checkpointsFile d) (appends d)
    (lastCheckpointWritten d) (events d ++ [e]).

(** ** Calls on the components *)

Definition in_chain {A} (f : M Chain A) : M Daemon A := λ d,
  let '(r, c) := f (chain d) in (r, with_chain c d).
Definition in_mempool {A} (f : M Mempool A) : M Daemon A := λ d,
  let '(r, m) := f (mempool d) in (r, with_mempool m d).
Definition in_gate {A} (f : M Gate.Gate A) : M Daemon A := λ d,
  let '(r, g) := f (gate d) in (r, with_gate g d).
(** The mempool calls back into the chain. *)
Definition in_both {A} (f : M (Chain * Mempool) A) : M Daemon A := λ d,
  let '(r, (c, m)) := f (chain d, mempool d) in (r, with_mempool m (with_chain c d)).

Definition emit (e : Event) : M Daemon unit := modify (with_event e).

(** The result of a call as a value; a panic goes on. *)
Definition attempt {S A} (f : M S A) : M S (result A) := λ s,
  match f s with
  | (Panic, s') => (Panic, s')
  | (r, s') => (Ok r, s')
  end.

Definition nanoseconds : Z := 1000000000.

(** ** Filters and penalties *)

(** A method on a nil transaction dereferences it and panics. *)
Definition pointee (tx : option Transaction) : result Transaction :=
  match tx with Some tx => Ok tx | None => Panic end.

(** [block.Size()] *)
Fixpoint add_sizes (size : Z) (txs : list (option Transaction)) : result Z :=
  match txs with
  | [] => Ok size
  | p :: txs => pointee p ≫= λ tx : Transaction, add_sizes (size + Z.of_nat (Transaction.Size tx)) txs
  end.

Definition wire_size (block : WireBlock) : result Z :=
  add_sizes (Z.of_nat blockHeaderSerializedSize) (WTransactions block).

Fixpoint no_coinbase (txs : list (option Transaction)) : result unit :=
  match txs with
  | [] => Ok tt
  | p :: txs =>
      pointee p ≫= λ tx : Transaction,
      check (IsCoinbase tx) (Errorf "multiple coinbase transactions");;
      no_coinbase txs
  end.

Fixpoint memos_present (txs : list (option Transaction)) : result unit :=
  match txs with
  | [] => Ok tt
  | None :: _ => Err (Errorf "nil transaction at index %d")
  | Some tx :: txs =>
      check (existsb (λ out, bool_decide (EncryptedMemo out = zeroMemo)) (Outputs tx))
            (Errorf "tx %d output %d: encrypted memo must not be all-zero");;
      memos_present txs
  end.

Definition validateBlockCheapPrefilters (block : WireBlock) : result unit :=
  check (HVersion (WHeader block) =? 0) (Errorf "invalid block version");;
  size ← wire_size block;
  check (MaxBlockSize <? size) (Errorf "block too large: %d > %d");;
  match WTransactions block with
  | [] => Err (Errorf "block has no transactions")
  | p :: rest =>
      pointee p ≫= λ first : Transaction,
      check (negb (IsCoinbase first)) (Errorf "first transaction is not coinbase");;
      no_coinbase rest;;
      memos_present (WTransactions block)
  end.

(** [err.Error()] with the verbs of the formats left as they are. *)
Fixpoint Error (e : error) : string :=
  match e with
  | ErrOrphanBlock => "orphan block"
  | ErrStaleBlock => "stale block"
  | ErrDuplicateBlock => "duplicate block"
  | ErrSideChainBlock => "side-chain block"
  | Errorf fmt => fmt
  | Wrapf fmt cause => String.append fmt (String.append ": " (Error cause))
  end.

Definition contains (msg sub : string) : bool := bool_decide (is_Some (String.index 0 sub msg)).

Definition shouldPenalizeTxGossipRejection (e : error) : bool :=
  contains (Error e) "validation failed:" ||
  contains (Error e) "coinbase transaction cannot be added to mempool" ||
  contains (Error e) "double-spend: key image already in mempool".

(** Every caller passes the misbehaviour penalty, which bans. *)
Definition penalizeInvalidGossipPeer (p : peerID) : M Daemon unit :=
  d ← get;
  if negb (node d) || bool_decide (p = "") then mret tt else emit (BanPeer p).

(** [s[:8]] *)
Definition first8 (s : string) : result string :=
  if decide (String.length s < 8)%nat then Panic else Ok (String.substring 0 8 s).

(** [defer g]: also after a panic of [f]. *)
Definition deferring {S A} (f : M S A) (g : S → S) : M S A := λ s,
  let '(r, s') := f s in (r, g s').

(** [peer_String]: the text of a peer's ID, by libp2p. *)
Section Daemon.
Context `{HC : Crypto} `{HN : Network} `{HM : MathLib} `{HJ : JSON} `{HO : MapOrder} (peer_String : peerID → string).

(** The callbacks the daemon gives its mempool. *)
Definition chainSpent (keyImage : bytes) : M Chain bool := reading (λ c, isKeyImageSpentLocked c keyImage).

Definition mempool_add (now : Z) (tx : Transaction) (data : bytes) : M Daemon unit :=
  in_both (AddTransaction chainSpent isCanonicalRingMemberLocked now tx data).

(** ** Checkpoints *)

Definition maybeAppendCheckpointLocked (block : Block) : M Daemon unit :=
  d ← get;
  let h := Height (Header block) in
  if negb (saveCheckpoints d) then mret tt
  else if (h =? 0) || negb (h `mod` 100 =? 0) then mret tt
  else if h <=? lastCheckpointWritten d then mret tt
  else match checkpointsFile d with
       | None => mret tt
       | Some file =>
           match appends d with
           | false :: rest => modify (with_appends rest)
           | outcomes =>
               modify (with_checkpoint (file ++ Checkpoints.checkpoint_line h (BlockHash block)) h (tail outcomes))
           end
       end.

(** ** The difference between two branches *)

Definition maxReorgDepth : nat := 1000.

(** Step 1: the blocks from [hash] down, newest first, and the hashes seen. *)
Fixpoint walk_new (fuel : nat) (oldTip hash : bytes) (reversed : list Block) (seen : gset bytes) :
    M Chain (option (list Block * gset bytes)) :=
  match fuel with
  | O => mret None
  | S fuel =>
      let seen := {[hash]} ∪ seen in
      if decide (hash = oldTip) then mret (Some (reversed, seen))
      else
        GetBlock hash ≫= λ b : option Block,
        match b with
        | None => mret None
        | Some block =>
            let reversed := reversed ++ [block] in
            if (Height (Header block) =? 0) || bool_decide (maxReorgDepth <= length reversed)%nat
            then mret (Some (reversed, seen))
            else walk_new fuel oldTip (PrevHash (Header block)) reversed seen
        end
  end.

(** Step 2: from the old tip down to a hash that was seen. *)
Fixpoint walk_old (fuel : nat) (hash : bytes) (seen : gset bytes) (oldAncestors : gmap bytes Block) :
    M Chain (option (bytes * gmap bytes Block)) :=
  match fuel with
  | O => mret None
  | S fuel =>
      if decide (hash ∈ seen) then mret (Some (hash, oldAncestors))
      else
        GetBlock hash ≫= λ b : option Block,
        match b with
        | None => mret None
        | Some block =>
            let oldAncestors := <[hash := block]> oldAncestors in
            if (Height (Header block) =? 0) || bool_decide (maxReorgDepth <= size oldAncestors)%nat then mret None
            else walk_old fuel (PrevHash (Header block)) seen oldAncestors
        end
  end.

(** The blocks before the common ancestor. *)
Fixpoint trim_at (ancestor : bytes) (reversed : list Block) : list Block :=
  match reversed with
  | [] => []
  | b :: l => if decide (BlockHash b = ancestor) then [] else b :: trim_at ancestor l
  end.

Fixpoint old_blocks (fuel : nat) (hash ancestor : bytes) (oldAncestors : gmap bytes Block) : option (list Block) :=
  if decide (hash = ancestor) then Some []
  else match fuel with
       | O => None
       | S fuel =>
           block ← oldAncestors !! hash;
           rest ← old_blocks fuel (PrevHash (Header block)) ancestor oldAncestors;
           Some (block :: rest)
       end.

(** [(nil, nil)] if a walk fails.  A loop visits at most 1000 blocks. *)
Definition collectReorgDiffBlocks (oldTip newTip : bytes) : M Chain (list Block * list Block) :=
  walk_new maxReorgDepth oldTip newTip [] ∅ ≫= λ new : option (list Block * gset bytes),
  match new with
  | None => mret ([], [])
  | Some (reversed, seen) =>
      walk_old maxReorgDepth oldTip seen ∅ ≫= λ old : option (bytes * gmap bytes Block),
      match old with
      | None => mret ([], [])
      | Some (ancestor, oldAncestors) =>
          match old_blocks (size oldAncestors) oldTip ancestor oldAncestors with
          | None => mret ([], [])
          | Some disconnected => mret (disconnected, reverse (trim_at ancestor reversed))
          end
      end
  end.

Fixpoint tx_data_map (acc : gmap bytes bytes) (txs : list Transaction) : result (gmap bytes bytes) :=
  match txs with
  | [] => Ok acc
  | tx :: txs =>
      match TxID tx with
      | Ok txID => data ← Serialize tx; tx_data_map (<[txID := data]> acc) txs
      | Err _ => tx_data_map acc txs
      | Panic => Panic
      end
  end.

Definition txDataMapForBlock (block : Block) : result (gmap bytes bytes) := tx_data_map ∅ (Transactions block).

(** ** The mempool after a new tip *)

(** The calls on the mempool, each under its lock. *)
Inductive mempool_task : Type :=
  | Disconnect (b : Block)
  | Connect (b : Block)
  | Expire.

Definition run_task (now : Z) (t : mempool_task) : M Daemon unit :=
  match t with
  | Disconnect b => m ← lift (txDataMapForBlock b); in_both (OnBlockDisconnected chainSpent now b m)
  | Connect b => in_mempool (OnBlockConnected b)
  | Expire => in_mempool (modify (λ m, (RemoveExpired now m).2))
  end.

Definition mempool_tasks (block : Block) (previousBest : bytes) : M Daemon (list mempool_task) :=
  if decide (PrevHash (Header block) = previousBest) then mret [Connect block; Expire]
  else
    d ← get;
    diff ← in_chain (collectReorgDiffBlocks previousBest (bestHash (chain d)));
    let '(disconnected, connected) := diff in
    if decide (connected = []) then mret [Connect block; Expire]
    else mret ((Disconnect <$> disconnected) ++ (Connect <$> connected) ++ [Expire]).

Definition updateMempoolForAcceptedMainChain (now : Z) (block : Block) (previousBest : bytes) : M Daemon unit :=
  tasks ← mempool_tasks block previousBest;
  for_each (run_task now) tasks.

(** ** Blocks from the network *)

(** A block that is processed; [true] if it is on the main chain. *)
Definition accept_main (now : Z) (block : Block) : M Daemon (result (bool * bool)) :=
  d ← get;
  let prevBest := bestHash (chain d) in
  attempt (in_chain (ProcessBlock (now `div` nanoseconds) block)) ≫= λ r : result (bool * bool),
  match r with
  | Ok (true, true) =>
      updateMempoolForAcceptedMainChain now block prevBest;;
      maybeAppendCheckpointLocked block;;
      mret r
  | _ => mret r
  end.

Definition handle_gossip_block (now : Z) (from : peerID) (data : bytes) (block : Block) : M Daemon unit :=
  accept_main now block ≫= λ r : result (bool * bool),
  match r with
  | Ok (true, true) =>
      emit (RelayBlock from data);;
      emit (NotifyBlock block);;
      emit NotifyNewBlock
  | Err _ => lift (first8 (peer_String from));; penalizeInvalidGossipPeer from
  | _ => mret tt
  end.

(** After the filters no pointer is nil: the chain's operations take the block behind them. *)
Definition on_block {A} (w : WireBlock) (f : Block → M Daemon A) : M Daemon A :=
  match pointees w with Some block => f block | None => lift Panic end.

Definition handleBlock (now : Z) (from : peerID) (data : bytes) : M Daemon unit :=
  match unmarshal_wire_block data with
  | (_, Some _) => penalizeInvalidGossipPeer from
  | (w, None) =>
      attempt (lift (validateBlockCheapPrefilters w)) ≫= λ r : result unit,
      match r with
      | Ok _ =>
          attempt (in_gate (Gate.acquireGossipBlockValidationSlot now from)) ≫= λ r : result unit,
          match r with
          | Ok _ =>
              deferring (on_block w (handle_gossip_block now from data))
                (λ d, with_gate (Gate.releaseGossipBlockValidationSlot (gate d)) d)
          | _ => penalizeInvalidGossipPeer from
          end
      | _ => penalizeInvalidGossipPeer from
      end
  end.

(** A block from the sync manager. *)
Definition processBlockData (now : Z) (data : bytes) : M Daemon unit :=
  match unmarshal_wire_block data with
  | (_, Some e) => throw e
  | (w, None) =>
      lift (wrap "rejected p2p block at height %d" (validateBlockCheapPrefilters w));;
      on_block w (λ block, accept_main now block ≫= λ r : result (bool * bool),
      match r with
      | Ok (true, true) => mret tt
      | Ok (true, false) => throw ErrSideChainBlock
      | Ok (false, _) => throw ErrDuplicateBlock
      | Err e => throw (Wrapf "rejected p2p block at height %d" e)
      | Panic => lift Panic
      end)
  end.

(** A block from the miner or the API. *)
Definition validateSubmitBlockStaleLocked (c : Chain) (block : Block) : result unit :=
  let tipHeight := height c in
  let expectedHeight := u64 (tipHeight + 1) in
  check (Height (Header block) <=? tipHeight) (Wrapf "expected height %d, got %d" ErrStaleBlock);;
  check ((Height (Header block) =? expectedHeight) && negb (bool_decide (PrevHash (Header block) = bestHash c)))
        (Wrapf "does not build on current tip" ErrStaleBlock).

Definition SubmitBlock (now : Z) (block : Block) : M Daemon unit :=
  d ← get;
  lift (validateSubmitBlockStaleLocked (chain d) block);;
  accept_main now block ≫= λ r : result (bool * bool),
  match r with
  | Err e => throw (Wrapf "failed to process block" e)
  | Ok (false, _) => throw (Errorf "block not accepted (duplicate or stale)")
  | Ok (true, isMainChain) =>
      (if isMainChain then emit NotifyNewBlock else mret tt);;
      blockData ← lift (wrap "failed to marshal block" (marshal_block block));
      emit (BroadcastBlock blockData);;
      emit (NotifyBlock block);;
      emit (NotifyMinedBlock block)
  | Panic => lift Panic
  end.

(** The miner's block; a rejection is logged. *)
Definition handleMinedBlock (now : Z) (block : Block) : M Daemon unit :=
  attempt (SubmitBlock now block);; mret tt.

(** ** Transactions from the network *)

Definition handleTx (now : Z) (from : peerID) (data : bytes) : M Daemon unit :=
  match DeserializeTx data with
  | Ok tx =>
      attempt (lift (TxID tx)) ≫= λ r : result bytes,
      match r with
      | Ok txID =>
          d ← get;
          if HasTransaction (mempool d) txID then mret tt
          else
            attempt (mempool_add now tx data) ≫= λ r : result unit,
            match r with
            | Err e => if shouldPenalizeTxGossipRejection e then penalizeInvalidGossipPeer from else mret tt
            | _ => mret tt
            end
      | _ => penalizeInvalidGossipPeer from
      end
  | Err _ => penalizeInvalidGossipPeer from
  | Panic => lift Panic
  end.

Definition processTxData (now : Z) (data : bytes) : M Daemon unit :=
  tx ← lift (wrap "invalid transaction" (DeserializeTx data));
  attempt (mempool_add now tx data);; mret tt.

Definition SubmitTransaction (now : Z) (data : bytes) : M Daemon unit :=
  tx ← lift (wrap "invalid transaction data" (DeserializeTx data));
  wrapM "mempool rejected" (mempool_add now tx data);;
  d ← get;
  if node d then emit (BroadcastTx data) else mret tt.

(** ** Requests of peers *)

(** [headers[startHeight..]], at most [max]; a header that cannot be encoded
    is left out. *)
Fixpoint headers_from (marshal_header : BlockHeader → result bytes) (c : Chain) (fuel : nat) (h : Z) (max : nat) : list bytes :=
  match fuel, max with
  | S fuel, S max' =>
      if height c <? h then []
      else match getBlockByHeight c h with
           | None => []
           | Some block =>
               match marshal_header (Header block) with
               | Ok data => data :: headers_from marshal_header c fuel (h + 1) max'
               | _ => headers_from marshal_header c fuel (h + 1) max
               end
           end
  | _, _ => []
  end.

Definition getHeaders (marshal_header : BlockHeader → result bytes) (c : Chain) (startHeight : Z) (max : nat) : list bytes :=
  headers_from marshal_header c (Z.to_nat (height c - startHeight + 1)) startHeight max.

Fixpoint getBlocks (hashes : list bytes) : M Chain (list bytes) :=
  match hashes with
  | [] => mret []
  | hash :: hashes =>
      GetBlock hash ≫= λ b : option Block,
      rest ← getBlocks hashes;
      match b with
      | None => mret rest
      | Some block => match marshal_block block with
                      | Ok data => mret (data :: rest)
                      | _ => mret rest
                      end
      end
  end.

Fixpoint getBlocksByHeight (c : Chain) (startHeight : Z) (max : nat) : result (list bytes) :=
  match max with
  | O => Ok []
  | S max =>
      match getBlockByHeight c startHeight with
      | None => Ok []
      | Some block =>
          data ← marshal_block block;
          rest ← getBlocksByHeight c (u64 (startHeight + 1)) max;
          Ok (data :: rest)
      end
  end.

Definition getMempoolTxs (d : Daemon) : list bytes := GetAllTransactionData (mempool d).

(** ** Start-up *)

Definition verifyStoredGenesisMatchesRelaunchGenesis (c : Chain) : result unit :=
  match getBlockByHeight c 0 with
  | None => Err (Errorf "chain has stored tip but no height-0 block found")
  | Some have =>
      let expected := GetGenesisBlock in
      check (negb (bool_decide (Header have = Header expected)))
            (Errorf "genesis mismatch: stored header does not match relaunch genesis header");;
      check (negb (bool_decide (BlockHash have = BlockHash expected)))
            (Errorf "genesis mismatch: stored hash %x != expected %x");;
      wrap "genesis mismatch: stored genesis fails validation" (validateGenesisBlock have)
  end.

(** What is loaded from the checkpoint file: nothing in a full sync, or if
    the file is missing or cannot be read. *)
Definition start_checkpoints (fullSync : bool) (file : option bytes) : Checkpoints.CheckpointSet :=
  let none := Checkpoints.MkCheckpointSet ∅ [] 0 in
  if fullSync then none
  else match Checkpoints.loadCheckpointsFile <$> file with
       | Some (Ok s) => s
       | _ => none
       end.

(** The chain a daemon starts with: loaded, with its genesis block checked or
    added. *)
Definition start_chain (now : Z) (s : Storage) (env : option Z) : result Chain :=
  c ← wrap "failed to create chain" (NewChain s env);
  if HasGenesis c then verifyStoredGenesisMatchesRelaunchGenesis c;; Ok c
  else match addGenesisBlock (now `div` nanoseconds) GetGenesisBlock c with
       | (Ok _, c) => Ok c
       | (Err e, _) => Err (Wrapf "failed to add genesis" e)
       | (Panic, _) => Panic
       end.

(** On an opened storage, with the environment's cache capacity and the
    contents of the checkpoint file; the network node is created without an
    error. *)
Definition NewDaemon (now : Z) (s : Storage) (env : option Z) (file : option bytes) (fullSync save : bool) : result Daemon :=
  c ← start_chain now s env;
  let cps := start_checkpoints fullSync file in
  let c := if negb fullSync && negb (bool_decide (Checkpoints.checkpoints cps = ∅)) && (0 <? Checkpoints.maxHeight cps)
           then SetTrustedCheckpoints (Checkpoints.checkpoints cps) (Checkpoints.maxHeight cps) c else c in
  match verify_and_repair fullSync (Checkpoints.checkpoints cps) (Checkpoints.heights cps) c with
  | (Ok _, c) =>
      let last := match Checkpoints.loadCheckpointsFile <$> file with
                  | Some (Ok s) => if save && (0 <? Checkpoints.maxHeight s) then Checkpoints.maxHeight s else 0
                  | _ => 0
                  end in
      Ok (MkDaemon c (NewMempool DefaultMempoolConfig)
            (Gate.MkGate 0 (Some (Gate.newGossipAttemptLRU Gate.maxGossipBlockAttemptEntries)))
            true save (Some (default [] file)) [] last [])
  | (Err e, _) => Err e
  | (Panic, _) => Panic
  end.

End Daemon.
