(* ===== verification/ReorgDiff.v ===== *)
(** * What a reorganization removed and added

    [collectReorgDiffBlocks] recomputes, from the old and the new tip, the
    blocks that left and joined the main chain.  It finds exactly those
    after the last common block, as long as each side has fewer than 1000. *)

From S2P Require Import Prelude Bytes Crypto Transaction Block ExchangeSort Consensus Hoare Reads Memo Emission Validation Storage StorageFacts Chain Cache ChainInv Branches Mempool Daemon.

(** ** Paths *)

Section Paths.
Context `{HC : Crypto}.
Implicit Types known : bytes → option Block.

(** Two branches that part after [base]. *)
Definition parted (disc conn : list Block) : Prop := disc = [] ∨ conn = [] ∨ head disc ≠ head conn.

Lemma common_prefix (l k : list Block) :
  ∃ base disc conn, l = base ++ disc ∧ k = base ++ conn ∧ parted disc conn.
Proof.
  revert k. induction l as [|x l IH]; intros k; [exists [], [], k; split_and!; [done..|by left]|].
  destruct k as [|y k]; [exists [], (x :: l), []; split_and!; [done..|by right; left]|].
  destruct (decide (x = y)) as [->|Hne].
  - destruct (IH k) as (base & disc & conn & -> & -> & Hp). by exists (y :: base), disc, conn.
  - exists [], (x :: l), (y :: k). split_and!; [done..|]. right; right. cbn. congruence.
Qed.

Lemma path_to_at known l k hash b :
  path_to known (l ++ b :: k) hash → path_to known (l ++ [b]) (BlockHash b).
Proof.
  intros Hp. assert (path_to known ((l ++ [b]) ++ k) hash) as Hp' by by rewrite <- app_assoc.
  apply path_to_prefix in Hp'; [by rewrite tip_hash_snoc in Hp'|by destruct l].
Qed.

(** A hash names one position of a branch. *)
Lemma path_hash_inj known l1 l2 k1 k2 hash hash' b b' :
  path_to known (l1 ++ b :: k1) hash → path_to known (l2 ++ b' :: k2) hash' → BlockHash b = BlockHash b' →
  l1 = l2 ∧ b = b'.
Proof.
  intros H1%path_to_at H2%path_to_at E. rewrite E in H1.
  pose proof (path_to_unique _ _ _ _ H1 H2) as Eq. by apply app_inj_tail in Eq.
Qed.

Lemma path_NoDup known l hash : path_to known l hash → NoDup (BlockHash <$> l).
Proof.
  intros Hp. apply NoDup_alt. intros i j h Hi Hj. rewrite list_lookup_fmap in Hi, Hj.
  apply fmap_Some in Hi as (b & Hi & ->). apply fmap_Some in Hj as (b' & Hj & E).
  pose proof Hp as Hp'. rewrite <- (take_drop_middle _ _ _ Hi) in Hp. rewrite <- (take_drop_middle _ _ _ Hj) in Hp'.
  destruct (path_hash_inj _ _ _ _ _ _ _ _ _ Hp Hp' E) as [Et _]. apply (f_equal length) in Et.
  apply lookup_lt_Some in Hi, Hj. rewrite !length_take in Et. lia.
Qed.

(** Parted branches share no block hash. *)
Lemma parted_disjoint known base disc conn hash hash' :
  path_to known (base ++ disc) hash → path_to known (base ++ conn) hash' → parted disc conn →
  ∀ x, x ∈ BlockHash <$> disc → x ∉ BlockHash <$> (base ++ conn).
Proof.
  intros Hd Hc Hp x (b & -> & Hb)%list_elem_of_fmap (b' & E & Hb')%list_elem_of_fmap.
  apply list_elem_of_split in Hb as (d1 & d2 & ->). apply list_elem_of_split in Hb' as (c1 & c2 & Ec).
  rewrite Ec in Hc. rewrite app_assoc in Hd. destruct (path_hash_inj _ _ _ _ _ _ _ _ _ Hd Hc E) as [El Eb]. subst c1 b'.
  rewrite <- app_assoc in Ec. apply app_inv_head in Ec. subst conn.
  destruct Hp as [?|[?|Hp]]; destruct d1; cbn in *; congruence.
Qed.

Lemma hash_of_prefix l k : l ≠ [] → tip_hash [] l ∈ BlockHash <$> (l ++ k).
Proof.
  intros Hne. destruct l as [|x l _] using rev_ind; [done|]. rewrite tip_hash_snoc.
  rewrite !fmap_app. cbn. set_solver.
Qed.

End Paths.

(** ** The walks *)

Section Walks.
Context `{HC : Crypto} `{!CryptoLaws HC} `{HN : Network} `{HM : MathLib} `{HJ : JSON} `{!JSONLaws HJ}.
Context (known : bytes → option Block) (base disc conn : list Block) (oldTip newTip : bytes).
Context (Hold : path_to known (base ++ disc) oldTip) (Hnew : path_to known (base ++ conn) newTip).
Context (Hbase : base ≠ []) (Hparted : parted disc conn).
Context (Hdisc : (length disc < maxReorgDepth)%nat) (Hconn : (length conn < maxReorgDepth)%nat).

#[local] Abbreviation inv := (chain_inv (base ++ conn) known).
#[local] Abbreviation reading_of := (reads inv same_state).

Lemma GetBlock_reads c hash : inv c → reading_of (GetBlock hash) c (Ok (known hash)).
Proof. apply getBlockByHash_reads. Qed.

(** Going on with the block [x] on top of [l]. *)
Lemma path_step l x k hash : path_to known ((l ++ [x]) ++ k) hash →
  known (BlockHash x) = Some x ∧ Height (Header x) = Z.of_nat (length l) ∧
  (l ≠ [] → PrevHash (Header x) = tip_hash [] l).
Proof.
  intros Hp. apply path_to_prefix in Hp; [|by destruct l]. rewrite tip_hash_snoc in Hp.
  destruct (path_to_last _ _ _ _ Hp) as [_ ?]. pose proof Hp as (_ & Hl & _). split_and!; [done|by apply linked_snoc_height|].
  intros Hne. by apply linked_snoc_prev.
Qed.

(** In the common part the walk may stop anywhere. *)
Definition found (seen : gset bytes) : Prop :=
  tip_hash [] base ∈ seen ∧ ∀ x, x ∈ seen → x ∈ BlockHash <$> (base ++ conn).

Lemma walk_new_base fuel l dn seen c :
  l ++ dn = base ++ conn → l ≠ [] → (fuel + length dn)%nat = maxReorgDepth → (0 < fuel)%nat → inv c →
  (∀ x, x ∈ seen → x ∈ BlockHash <$> (base ++ conn)) → (length l <= length base)%nat →
  (tip_hash [] l = tip_hash [] base ∨ tip_hash [] base ∈ seen) →
  ∃ k seen', reading_of (walk_new fuel oldTip (tip_hash [] l) (reverse dn) seen) c
               (Ok (Some (reverse (drop k (base ++ conn)), seen'))) ∧ found seen' ∧ (k <= length base)%nat.
Proof.
  revert l dn seen c. induction fuel as [|fuel IH]; intros l dn seen c El Hne Hf Hpos Hi Hseen Hlen Htip; [lia|].
  cbn [walk_new]. set (seen1 := {[tip_hash [] l]} ∪ seen).
  assert (found seen1) as Hf1.
  { split; [destruct Htip as [<-|?]; set_solver|]. intros x [->%elem_of_singleton|?]%elem_of_union; [|auto].
    rewrite <- El. by apply hash_of_prefix. }
  assert (drop (length l) (base ++ conn) = dn) as Edn by (rewrite <- El; by apply drop_app_length).
  case_decide as Hd.
  { exists (length l), seen1. rewrite Edn. split_and!; [by apply (reads_ret inv same_state)|done|done]. }
  destruct l as [|x l _] using rev_ind; [done|]. rewrite tip_hash_snoc in *.
  pose proof Hnew as Hp. rewrite <- El in Hp. destruct (path_step _ _ _ _ Hp) as (Hk & Hh & Hprev).
  assert (reverse dn ++ [x] = reverse (drop (length l) (base ++ conn))) as Er.
  { rewrite <- El, <- app_assoc, drop_app_length. cbn [app]. by rewrite reverse_cons. }
  rewrite length_app in Hlen. cbn in Hlen.
  destruct ((Height (Header x) =? 0) || bool_decide (maxReorgDepth <= length (reverse dn ++ [x]))%nat) eqn:Estop.
  - exists (length l), seen1. split_and!; [|done|lia].
    eapply (reads_bind_ok inv same_state); [by apply GetBlock_reads|]. intros c1 Hi1 _. rewrite Hk. cbn zeta. rewrite Estop, Er.
    by apply (reads_ret inv same_state).
  - apply orb_false_iff in Estop as [Ez El1]. simpl_bools. rewrite length_app, length_reverse in El1. cbn in El1.
    assert (l ≠ []) as Hl by (intros ->; cbn in Hh; lia).
    assert (∀ c1, inv c1 → ∃ k seen', reading_of (walk_new fuel oldTip (tip_hash [] l) (reverse (x :: dn)) seen1) c1
      (Ok (Some (reverse (drop k (base ++ conn)), seen'))) ∧ found seen' ∧ (k <= length base)%nat) as IH'.
    { intros c1 Hi1. apply IH; [by rewrite <- El, <- app_assoc|done|cbn; lia|lia|done|apply Hf1|lia|right; apply Hf1]. }
    destruct (GetBlock_reads c (BlockHash x) Hi) as (c1 & Eg & Hi1 & Hs1).
    destruct (IH' c1 Hi1) as (k & seen' & (c2 & E2 & Hi2 & Hs2) & Hfound & Hkl). exists k, seen'. split_and!; [|done|done].
    exists c2. split_and!; [|done|by etrans]. unfold mbind, M_bind. rewrite Eg, Hk.
    rewrite (proj2 (Z.eqb_neq _ _)) by done. rewrite bool_decide_eq_false_2 by (rewrite length_app, length_reverse; cbn; lia).
    cbn [orb]. rewrite (Hprev Hl). rewrite reverse_cons in E2. exact E2.
Qed.

Lemma oldTip_fresh x : x ∈ conn → BlockHash x ≠ oldTip.
Proof.
  intros Hx E. pose proof Hold as Hp. destruct (snoc_cases disc) as [Ed|(dl & d & Ed)]; rewrite Ed in Hp.
  - rewrite app_nil_r in Hp. pose proof Hp as (_ & _ & Et & _).
    pose proof (path_NoDup _ _ _ Hnew) as Hn. rewrite fmap_app in Hn. apply NoDup_app in Hn as (_ & Hd & _).
    apply (Hd (BlockHash x)); [|by apply list_elem_of_fmap_2]. rewrite E, <- Et.
    pose proof (hash_of_prefix base [] Hbase) as Hb. by rewrite app_nil_r in Hb.
  - rewrite app_assoc in Hp. destruct (path_to_last _ _ _ _ Hp) as [Et _].
    apply (parted_disjoint _ _ _ _ _ _ Hold Hnew Hparted oldTip).
    + rewrite <- Et, Ed. apply list_elem_of_fmap_2. set_solver.
    + rewrite <- E. apply list_elem_of_fmap_2. set_solver.
Qed.

Lemma walk_new_conn c1 dn fuel seen c :
  c1 ++ dn = conn → (fuel + length dn)%nat = maxReorgDepth → inv c →
  (∀ x, x ∈ seen → x ∈ BlockHash <$> (base ++ conn)) →
  ∃ k seen', reading_of (walk_new fuel oldTip (tip_hash [] (base ++ c1)) (reverse dn) seen) c
               (Ok (Some (reverse (drop k (base ++ conn)), seen'))) ∧ found seen' ∧ (k <= length base)%nat.
Proof.
  revert dn fuel seen c. induction c1 as [|x c1 IH] using rev_ind; intros dn fuel seen c Ec Hf Hi Hseen.
  { cbn in Ec. subst dn. rewrite app_nil_r. apply walk_new_base; [done|done|done|lia|done|done|lia|by left]. }
  assert (length conn = S (length c1 + length dn)) as Hl by (rewrite <- Ec, !length_app; cbn; lia).
  destruct fuel as [|fuel]; [lia|].
  assert (∀ c0, inv c0 → ∃ k seen', reading_of (walk_new fuel oldTip (tip_hash [] (base ++ c1)) (reverse (x :: dn)) ({[BlockHash x]} ∪ seen)) c0
    (Ok (Some (reverse (drop k (base ++ conn)), seen'))) ∧ found seen' ∧ (k <= length base)%nat) as IH'.
  { intros c0 Hi0. apply IH; [by rewrite <- Ec, <- app_assoc|cbn; lia|done|].
    intros y [->%elem_of_singleton|?]%elem_of_union; [|auto]. apply list_elem_of_fmap_2. rewrite <- Ec. set_solver. }
  assert (x ∈ conn) as Hx by (rewrite <- Ec; set_solver).
  destruct (GetBlock_reads c (BlockHash x) Hi) as (c2 & Eg & Hi2 & Hs2).
  destruct (IH' c2 Hi2) as (k & seen' & (c3 & E3 & Hi3 & Hs3) & Hfd & Hk). exists k, seen'. split_and!; [|done|done].
  cbn [walk_new]. rewrite app_assoc, tip_hash_snoc, decide_False by by apply oldTip_fresh.
  exists c3. split_and!; [|done|by etrans]. unfold mbind, M_bind. rewrite Eg.
  pose proof Hnew as Hp. rewrite <- Ec, app_assoc, app_assoc in Hp. destruct (path_step _ _ _ _ Hp) as (-> & Hh & Hprev).
  assert (base ++ c1 ≠ []) as Hne by (by destruct base). cbn zeta.
  rewrite (proj2 (Z.eqb_neq _ _)) by (rewrite Hh; destruct (base ++ c1); [done|cbn; lia]).
  rewrite bool_decide_eq_false_2 by (rewrite length_app, length_reverse; cbn; lia).
  cbn [orb]. rewrite (Hprev Hne). rewrite reverse_cons in E3. exact E3.
Qed.

Definition by_hash (l : list Block) : gmap bytes Block := list_to_map ((λ b, (BlockHash b, b)) <$> l).

Lemma size_by_hash l : (size (by_hash l) <= length l)%nat.
Proof.
  unfold by_hash. induction l as [|b l IH]; [done|]. cbn. rewrite map_size_insert. cbn. destruct (_ !! _); cbn; lia.
Qed.

Lemma walk_old_reads d1 d2 fuel seen c :
  d1 ++ d2 = disc → (fuel + length d2)%nat = maxReorgDepth → inv c → found seen →
  reading_of (walk_old fuel (tip_hash [] (base ++ d1)) seen (by_hash d2)) c (Ok (Some (tip_hash [] base, by_hash disc))).
Proof.
  revert d2 fuel c. induction d1 as [|x d1 IH] using rev_ind; intros d2 fuel c Ed Hf Hi Hfd.
  { cbn in Ed. subst d2. rewrite app_nil_r. destruct fuel as [|fuel]; [lia|]. cbn [walk_old].
    rewrite decide_True by apply Hfd. by apply (reads_ret inv same_state). }
  assert (length disc = S (length d1 + length d2)) as Hl by (rewrite <- Ed, !length_app; cbn; lia).
  destruct fuel as [|fuel]; [lia|]. cbn [walk_old]. rewrite app_assoc, tip_hash_snoc. rewrite decide_False; cycle 1.
  { intros Hin%Hfd. eapply (parted_disjoint _ _ _ _ _ _ Hold Hnew Hparted); [|exact Hin].
    apply list_elem_of_fmap_2. rewrite <- Ed. set_solver. }
  pose proof Hold as Hp. rewrite <- Ed, app_assoc, app_assoc in Hp. destruct (path_step _ _ _ _ Hp) as (Hk & Hh & Hprev).
  eapply (reads_bind_ok inv same_state); [by apply GetBlock_reads|]. intros c1 Hi1 _. rewrite Hk. cbn zeta.
  assert (base ++ d1 ≠ []) as Hne by (by destruct base).
  rewrite (proj2 (Z.eqb_neq _ _)) by (rewrite Hh; destruct (base ++ d1); [done|cbn; lia]).
  change (<[BlockHash x := x]> (by_hash d2)) with (by_hash (x :: d2)).
  pose proof (size_by_hash (x :: d2)) as Hs. cbn [length] in Hs.
  rewrite bool_decide_eq_false_2 by lia. cbn [orb]. rewrite (Hprev Hne).
  apply IH; [by rewrite <- Ed, <- app_assoc|cbn; lia|done|done].
Qed.

Lemma trim_at_app ancestor l k :
  Forall (λ b, BlockHash b ≠ ancestor) l → trim_at ancestor (l ++ k) = l ++ trim_at ancestor k.
Proof. induction 1 as [|b l Hb _ IH]; cbn; [done|]. by rewrite decide_False, IH. Qed.

Lemma trim_reversed k : (k <= length base)%nat → trim_at (tip_hash [] base) (reverse (drop k (base ++ conn))) = reverse conn.
Proof.
  intros Hk. rewrite drop_app_le, reverse_app by lia. rewrite trim_at_app.
  - assert (trim_at (tip_hash [] base) (reverse (drop k base)) = []) as ->; [|by rewrite app_nil_r].
    destruct (snoc_cases base) as [E|(l & x & E)]; rewrite E in *; [done|]. rewrite tip_hash_snoc.
    destruct (decide (k = length (l ++ [x]))) as [->|Hne]; [by rewrite drop_all|].
    rewrite length_app in *. cbn in *. rewrite drop_app_le by lia. rewrite reverse_app. cbn. by rewrite decide_True.
  - apply Forall_reverse, Forall_forall. intros b Hb E. pose proof (path_NoDup _ _ _ Hnew) as Hn. rewrite fmap_app in Hn.
    apply NoDup_app in Hn as (_ & Hd & _). apply (Hd (BlockHash b)); [|by apply list_elem_of_fmap_2].
    rewrite E. pose proof (hash_of_prefix base [] Hbase) as Ht. by rewrite app_nil_r in Ht.
Qed.

Lemma old_blocks_disc d1 d2 fuel :
  d1 ++ d2 = disc → (length d1 <= fuel)%nat →
  old_blocks fuel (tip_hash [] (base ++ d1)) (tip_hash [] base) (by_hash disc) = Some (reverse d1).
Proof.
  revert d2 fuel. induction d1 as [|x d1 IH] using rev_ind; intros d2 fuel Ed Hf.
  { rewrite app_nil_r. destruct fuel; cbn; by rewrite decide_True. }
  rewrite length_app in Hf. cbn in Hf. destruct fuel as [|fuel]; [lia|]. cbn [old_blocks].
  rewrite app_assoc, tip_hash_snoc. assert (x ∈ disc) as Hx by (rewrite <- Ed; set_solver).
  rewrite decide_False; cycle 1.
  { intros E. apply (parted_disjoint _ _ _ _ _ _ Hold Hnew Hparted (BlockHash x)); [by apply list_elem_of_fmap_2|].
    rewrite E. by apply hash_of_prefix. }
  assert (by_hash disc !! BlockHash x = Some x) as ->.
  { apply elem_of_list_to_map.
    - rewrite <- list_fmap_compose. cbn. pose proof (path_NoDup _ _ _ Hold) as Hn. rewrite fmap_app in Hn. by apply NoDup_app in Hn as (_ & _ & ?).
    - apply list_elem_of_fmap. by exists x. }
  cbn [mbind option_bind]. pose proof Hold as Hp. rewrite <- Ed, app_assoc, app_assoc in Hp.
  destruct (path_step _ _ _ _ Hp) as (_ & _ & ->); [|by destruct base].
  rewrite (IH (x :: d2)); [cbn [mbind option_bind]; by rewrite reverse_app|by rewrite <- Ed, <- app_assoc|lia].
Qed.

Lemma collectReorgDiff_reads c :
  inv c → reading_of (collectReorgDiffBlocks oldTip newTip) c (Ok (reverse disc, conn)).
Proof.
  intros Hi. pose proof Hnew as (_ & _ & Et & _). pose proof Hold as (_ & _ & Eo & _).
  destruct (walk_new_conn conn [] maxReorgDepth ∅ c) as (k & seen & (c1 & E1 & Hi1 & Hs1) & Hfd & Hk);
    [by rewrite app_nil_r|apply Nat.add_0_r|done|set_solver|].
  destruct (walk_old_reads disc [] maxReorgDepth seen c1) as (c2 & E2 & Hi2 & Hs2); [by rewrite app_nil_r|apply Nat.add_0_r|done|done|].
  exists c2. split_and!; [|done|by etrans]. unfold collectReorgDiffBlocks, mbind, M_bind.
  rewrite Et in E1. rewrite Eo in E2. change (reverse []) with (@nil Block) in E1. rewrite E1.
  change (by_hash []) with (∅ : gmap bytes Block) in E2. rewrite E2.
  assert (old_blocks (size (by_hash disc)) oldTip (tip_hash [] base) (by_hash disc) = Some (reverse disc)) as ->.
  { rewrite <- Eo at 1. apply (old_blocks_disc disc []); [by rewrite app_nil_r|].
    unfold by_hash. rewrite map_size_list_to_map; [by rewrite length_fmap|].
    rewrite <- list_fmap_compose. pose proof (path_NoDup _ _ _ Hold) as Hn. rewrite fmap_app in Hn.
    by apply NoDup_app in Hn as (_ & _ & ?). }
  by rewrite trim_reversed, reverse_involutive.
Qed.

End Walks.
