(* ===== verification/NodeInv.v ===== *)
(** * The chain and the mempool together

    The invariant of a node: the chain is consistent, the mempool is, and no
    pending transaction spends a key image of the main chain, up to the blocks
    that a handler in progress still has to connect.  Every handler keeps it,
    reorganizations included, and transactions keep it between the steps of a
    block's handler. *)

From S2P Require Import Prelude Bytes Crypto Pow Transaction TxCodec Block ExchangeSort Consensus Hoare Reads Difficulty Memo Emission Validation Validity Storage StorageFacts Commit Chain Cache ChainInv Branches Ancestors Windows Learn Reorg ForkChoice Lawful Reachable ChainOps Startup Mempool MempoolQueue MempoolInv MempoolOps MempoolChain Daemon ReorgDiff.
From S2P Require Gate Checkpoints.

(** ** The pool against a list of key images *)

Section Avoids.
Context `{HC : Crypto} `{HO : MapOrder} `{!MapOrderLaws HO}.

Definition avoids (kis : list bytes) (m : Mempool) : Prop :=
  ∀ id e, content m id = Some e → Forall (λ ki, ki ∉ kis) (key_images (ETx e)).

Lemma avoids_subpool kis m m' : subpool m m' → avoids kis m → avoids kis m'.
Proof. intros [_ Hs] Ha id e He. by apply (Ha id), Hs. Qed.

Lemma avoids_app kis kis' m : avoids (kis ++ kis') m ↔ avoids kis m ∧ avoids kis' m.
Proof.
  split.
  - intros Ha. split; intros id e He; (eapply Forall_impl; [exact (Ha id e He)|]); cbn; set_solver.
  - intros [H1 H2] id e He. specialize (H1 id e He). specialize (H2 id e He). rewrite Forall_forall in *. set_solver.
Qed.

(** The transactions of a block can be serialized. *)
Definition block_ok (b : Block) : Prop :=
  Forall wf_tx (Transactions b) ∧ Forall rings_match (Transactions b).

Lemma sound_block_ok b : sound_block b → block_ok b.
Proof. intros [_ Hs]. split; (eapply Forall_impl; [exact Hs|]); cbn; tauto. Qed.

Lemma connect_run b m :
  block_ok b → pool_ok m →
  ∃ m', OnBlockConnected b m = (Ok tt, m') ∧ pool_ok m' ∧ subpool m m' ∧ avoids (block_key_images b) m'.
Proof.
  intros [Hw Hr] P. destruct (OnBlockConnected_run b m Hw Hr P) as (m1 & E1 & K1).
  exists m1. split_and!; [done|apply K1|by eapply keeps_subpool|].
  intros id e He. apply K1 in He as [_ He]. apply Forall_forall. intros ki Hki Hin.
  unfold block_key_images, txs_key_images in Hin. apply elem_of_concat in Hin as (kis & Hk & (tx & -> & Htx)%list_elem_of_fmap).
  apply list_elem_of_filter in Htx as [_ Htx]. rewrite Forall_forall in He. by apply (He tx Htx) in Hk.
Qed.

Lemma tx_data_map_ok txs acc :
  Forall wf_tx txs → Forall rings_match txs → data_map_ok acc → ∃ m, tx_data_map acc txs = Ok m ∧ data_map_ok m.
Proof.
  intros Hw. revert acc. induction Hw as [|tx txs Htx _ IH]; intros acc Hr Ha; cbn [tx_data_map]; [by exists acc|].
  apply Forall_cons in Hr as [Hx Hr]. rewrite (TxID_encode tx Htx Hx), (Serialize_encode tx Htx Hx). cbn [mbind result_bind].
  apply IH; [done|]. apply map_Forall_insert_2; [|done]. split; [done|apply encode_nonempty].
Qed.

End Avoids.

(** ** Calls on the daemon *)

Section Calls.

(** The chain and the mempool; the rest that handlers leave alone. *)
Definition view (d : Daemon) : Chain * Mempool := (chain d, mempool d).

Lemma in_both_triple {A} (f : M (Chain * Mempool) A) P Q E g :
  triple P f Q E →
  triple (λ d, P (view d) ∧ gate d = g) (in_both f) (λ a d, Q a (view d) ∧ gate d = g) (λ e d, E e (view d) ∧ gate d = g).
Proof.
  intros Hf d [HP Hg]. unfold in_both. specialize (Hf (view d) HP). unfold view in Hf.
  by destruct (f (chain d, mempool d)) as [[a|e|] [c m]].
Qed.

Lemma in_chain_triple {A} (f : M Chain A) P (Q : A → Chain → Prop) E m g :
  triple P f Q E →
  triple (λ d, P (chain d) ∧ mempool d = m ∧ gate d = g) (in_chain f)
    (λ a d, Q a (chain d) ∧ mempool d = m ∧ gate d = g) (λ e d, E e (chain d) ∧ mempool d = m ∧ gate d = g).
Proof.
  intros Hf d (HP & Hm). unfold in_chain. specialize (Hf (chain d) HP). by destruct (f (chain d)) as [[a|e|] c].
Qed.

(** A step that touches neither component nor the gate. *)
Definition quiet (f : M Daemon unit) : Prop :=
  ∀ v g, triple (λ d, view d = v ∧ gate d = g) f (λ _ d, view d = v ∧ gate d = g) (λ _ _, False).

Lemma quiet_ret : quiet (mret tt).
Proof. intros v g. by apply triple_ret. Qed.

Lemma quiet_emit e : quiet (emit e).
Proof. intros v g. apply triple_modify. by intros d []. Qed.

Lemma quiet_seq f h : quiet f → quiet h → quiet (f;; h).
Proof. intros Hf Hh v g. eapply triple_bind; [apply Hf|]. intros u. apply Hh. Qed.

Lemma quiet_if (b : bool) f h : quiet f → quiet h → quiet (if b then f else h).
Proof. by destruct b. Qed.

Lemma quiet_penalize p : quiet (penalizeInvalidGossipPeer p).
Proof.
  intros v g. unfold penalizeInvalidGossipPeer. apply triple_get. intros d Hd.
  destruct (_ || _); [apply triple_ret; intros s ->; exact Hd|]. apply triple_modify. intros s ->; exact Hd.
Qed.

Lemma quiet_append `{HC : Crypto} b : quiet (maybeAppendCheckpointLocked b).
Proof.
  intros v g. unfold maybeAppendCheckpointLocked. apply triple_get. intros d Hd. cbn zeta.
  destruct (negb _); [apply triple_ret; intros s ->; exact Hd|]. destruct (_ || _); [apply triple_ret; intros s ->; exact Hd|].
  destruct (_ <=? _); [apply triple_ret; intros s ->; exact Hd|].
  destruct (checkpointsFile d) as [file|]; [|apply triple_ret; intros s ->; exact Hd].
  destruct (appends d) as [|[] rest]; (apply triple_modify; intros s ->; exact Hd).
Qed.

End Calls.

Create HintDb quiet.
#[export] Hint Resolve quiet_ret quiet_emit quiet_seq quiet_if quiet_penalize quiet_append : quiet.

(** ** The invariant *)

Section Node.
Context `{HC : Crypto} `{!CryptoLaws HC} `{HN : Network} `{HM : MathLib} `{HJ : JSON} `{!JSONLaws HJ}.
Context `{HO : MapOrder} `{!MapOrderLaws HO}.

(** [pre]: the blocks of the main chain that the mempool knows to be connected. *)
Record node_ok (main : list Block) (known : bytes → option Block) (pre : list Block) (d : Daemon) : Prop := {
  no_chain : consistent main known (chain d);
  no_prefix : pre `prefix_of` main;
  no_pool : pool_ok (mempool d);
  no_unspent : avoids (chain_key_images pre) (mempool d);
  no_gate : Gate.gate_ok (gate d);
}.

(** What the handler of a block that holds the lock still has to do. *)
Inductive pending (pre : list Block) : list Block → list mempool_task → Prop :=
  | pending_nothing : pending pre pre []
  | pending_tasks disc conn :
      Forall block_ok disc → Forall block_ok conn →
      pending pre (pre ++ conn) ((Disconnect <$> disc) ++ (Connect <$> conn) ++ [Expire]).

Definition node_inv (ts : list mempool_task) (d : Daemon) : Prop :=
  ∃ main known pre, node_ok main known pre d ∧ pending pre main ts.

Lemma pending_idle pre main : pending pre main [] → pre = main.
Proof. intros Hp. inversion Hp as [E1|disc conn ? ? E1 E2]; [done|]. by destruct disc, conn. Qed.

Lemma node_inv_idle d : node_inv [] d ↔ ∃ main known, node_ok main known main d.
Proof.
  split.
  - intros (main & known & pre & Hd & ->%pending_idle). eauto.
  - intros (main & known & Hd). exists main, known, main. split; [done|constructor].
Qed.

(** What the chain tells the mempool. *)
Definition main_spent (main : list Block) (ki : bytes) : bool := bool_decide (ki ∈ chain_key_images main).

Lemma main_ledger_source main known :
  LedgerSource (chain_inv main known) same_state chainSpent isCanonicalRingMemberLocked
    (λ _, main_spent main) (λ _, main_ring_member main).
Proof.
  split; [| |done|done].
  - intros c ki Hi. exists c. split; [|done]. unfold chainSpent, reading, main_spent.
    by rewrite (isKeyImageSpentLocked_main main known c ki (proj1 Hi)).
  - intros c k m Hi. by apply isCanonicalRingMember_reads.
Qed.

Lemma unspent_avoids main kis : Forall (λ ki, main_spent main ki = false) kis → Forall (λ ki, ki ∉ chain_key_images main) kis.
Proof. intros Hf. eapply Forall_impl; [exact Hf|]. cbn. intros ki. apply bool_decide_eq_false. Qed.

(** Calls that keep the main chain. *)
Lemma node_same main known pre d d' :
  node_ok main known pre d → chain_inv main known (chain d') → pool_ok (mempool d') →
  avoids (chain_key_images pre) (mempool d') → gate d' = gate d → node_ok main known pre d'.
Proof. intros [[_ Hl] ? _ _ Hg] Hi Hp Ha Eg. split; [by split|done|done|done|by rewrite Eg]. Qed.

Lemma quiet_node ts f : quiet f → triple (node_inv ts) f (λ _, node_inv ts) (λ _ _, False).
Proof.
  intros Hq d (main & known & pre & Hd & Hp). specialize (Hq (view d) (gate d) d ltac:(done)).
  destruct (f d) as [[[]|e|] d']; [|done|done]. destruct Hq as [Ev Eg]. injection Ev as Ec Em.
  exists main, known, pre. split; [|done]. destruct Hd. split; rewrite ?Ec, ?Em, ?Eg; done.
Qed.

Lemma prefix_key_images pre main ki :
  pre `prefix_of` main → ki ∈ chain_key_images pre → ki ∈ chain_key_images main.
Proof. intros [k ->] Hki. rewrite chain_key_images_app. set_solver. Qed.

(** *** Transactions *)

Lemma valid_tx_avoids main can tx : valid_tx (main_spent main) can tx → Forall (λ ki, ki ∉ chain_key_images main) (key_images tx).
Proof.
  intros [_ [(Hi & _)|(_ & _ & Hf & _)]]; [unfold key_images; by rewrite Hi|].
  unfold key_images. apply Forall_fmap. eapply Forall_impl; [exact Hf|]. cbn. intros i (_ & _ & _ & _ & _ & Hs).
  by apply bool_decide_eq_false in Hs.
Qed.

Lemma mempool_add_triple ts now tx data :
  triple (node_inv ts) (mempool_add now tx data) (λ _, node_inv ts) (λ _, node_inv ts).
Proof.
  intros d (main & known & pre & Hd & Hp). pose proof (no_chain _ _ _ _ Hd) as [Hi _]. pose proof (no_prefix _ _ _ _ Hd) as Hpre.
  pose proof (in_both_triple _ _ _ _ (gate d) (AddTransaction_triple (chain_inv main known) same_state
    (LedgerSource0 := main_ledger_source main known) now tx data (chain d) (mempool d) Hi (no_pool _ _ _ _ Hd)) d ltac:(done)) as Ht.
  unfold mempool_add. destruct (in_both _ d) as [[u|e|] d']; [| |done].
  - destruct Ht as [[[Hi' _] (ptx & id & _ & _ & _ & Ha)] Eg]. cbn in Hi', Ha. exists main, known, pre. split; [|done].
    case_decide as Hn.
    + destruct Ha as (Hv & _ & (P' & (m1 & Hs & Ec & Hx) & _)). eapply node_same; [done|done|done| |done].
      intros id' e. rewrite Hx. case_decide.
      * intros [= <-]. eapply Forall_impl; [by eapply valid_tx_avoids|]. cbn. intros ki Hki Hin. by eapply Hki, prefix_key_images.
      * intros He. apply (no_unspent _ _ _ _ Hd id'), Hs, He.
    + subst. eapply node_same; [done|done|rewrite Ha; apply Hd|rewrite Ha; apply Hd|done].
  - destruct Ht as [([Hi' _] & P' & Hs) Eg]. cbn in *. exists main, known, pre. split; [|done].
    eapply node_same; [done|done|done| |done]. by apply (avoids_subpool _ _ _ Hs), Hd.
Qed.

(** *** Blocks *)

(** The longest common part is at least any common part. *)
Lemma parted_longest (base disc conn base' disc' conn' : list Block) :
  base ++ disc = base' ++ disc' → base ++ conn = base' ++ conn' → parted disc' conn' → (length base <= length base')%nat.
Proof.
  intros E1 E2 Hp. destruct (decide (length base <= length base')%nat) as [|Hn]; [done|]. exfalso.
  assert (∃ x k, base = base' ++ x :: k) as (x & k & ->).
  { assert (take (length base') base = base') as Et.
    { apply (f_equal (take (length base'))) in E1. rewrite take_app_length, take_app_le in E1 by lia. done. }
    destruct (drop (length base') base) as [|x k] eqn:Ed.
    - apply (f_equal length) in Ed. rewrite length_drop in Ed. cbn in Ed. lia.
    - exists x, k. rewrite <- Et at 1. rewrite <- Ed. symmetry. apply take_drop. }
  rewrite <- app_assoc in E1, E2. apply app_inv_head in E1, E2. subst disc' conn'.
  destruct Hp as [?|[?|Hp]]; [done|done|]. by apply Hp.
Qed.

(** A new main chain, seen from the last block it shares with the old one. *)
Record moved (main : list Block) (known : bytes → option Block) (b : Block) (oldTip : bytes) (c : Chain)
    (base disc conn : list Block) : Prop := {
  mv_main : main = base ++ disc;
  mv_inv : consistent (base ++ conn) (learn known b) c;
  mv_old : path_to (learn known b) (base ++ disc) oldTip;
  mv_new : path_to (learn known b) (base ++ conn) (BlockHash b);
  mv_best : bestHash c = BlockHash b;
  mv_base : base ≠ [];
  mv_parted : parted disc conn;
  mv_disc : (length disc <= 100)%nat;
  mv_conn : conn ≠ [];
  mv_last : last (base ++ conn) = Some b;
}.

Lemma advanced_moved main known b c c' :
  consistent main known c → known (BlockHash b) = None → lawful (learn known b) → advanced main known b c' →
  ∃ base disc conn, moved main known b (bestHash c) c' base disc conn ∧
    Z.of_nat (length conn) = Height (Header b) - height c + Z.of_nat (length disc).
Proof.
  intros [[H _] _] Hn Hl (base0 & disc0 & conn0 & Em & Hb0 & Hlast & Hd0 & Hw & Hi').
  destruct (common_prefix main (base0 ++ conn0)) as (base & disc & conn & Em' & Ec & Hp).
  pose proof (parted_longest base0 disc0 conn0 base disc conn ltac:(congruence) Ec Hp) as Hlen.
  pose proof (co_main _ _ _ H) as (Hpath & _). pose proof (co_main _ _ _ (proj1 Hi')) as Hg'.
  assert (∃ k, conn0 = k ++ [b]) as [k Ek] by by apply last_Some.
  assert (last (base ++ conn) = Some b) as Hlb by (by rewrite <- Ec, Ek, app_assoc, last_snoc).
  assert (bestHash c' = BlockHash b) as Ebest.
  { rewrite (co_best _ _ _ (proj1 Hi')), Ek, app_assoc. apply tip_hash_snoc. }
  rewrite Ebest, Ec in Hg'. pose proof Hg' as (Hpath' & _ & Hs & _). rewrite Ec in Hi'.
  assert (conn ≠ []) as Hne.
  { intros ->. rewrite Ec, app_nil_r, Em', branch_work_app in Hw.
    pose proof (co_main _ _ _ H) as (_ & _ & Hs0 & _). rewrite Em' in Hs0. apply Forall_app in Hs0 as [_ Hs0].
    pose proof (branch_work_length disc Hs0). lia. }
  assert (length main = (length base0 + length disc0)%nat) as L1 by (by rewrite Em, length_app).
  assert (length main = (length base + length disc)%nat) as L2 by (by rewrite Em', length_app).
  unfold MaxReorgDepth in Hd0. exists base, disc, conn. split; [split|].
  - done.
  - by split.
  - rewrite <- Em'. eapply path_to_mono; [by apply learn_extends|done].
  - done.
  - done.
  - intros ->. cbn in Hlen. destruct base0; [done|cbn in Hlen; lia].
  - done.
  - lia.
  - done.
  - done.
  - apply last_Some in Hlb as [k' Ek']. pose proof Hpath' as (_ & Hlk & _). rewrite Ek' in Hlk.
    pose proof (linked_snoc_height _ _ Hlk) as Hh. apply (f_equal length) in Ek'. rewrite !length_app in Ek'. cbn in Ek'.
    rewrite (co_height _ _ _ H). lia.
Qed.

(** Every block of the chain can be serialized. *)
Lemma chain_blocks_ok main known c : core main known c → Forall block_ok main.
Proof.
  intros H. pose proof (co_main _ _ _ H) as (_ & _ & Hs & _). eapply Forall_impl; [exact Hs|]. apply sound_block_ok.
Qed.

Lemma known_blocks_ok known l hash : tree_ok known → path_to known l hash → Forall block_ok l.
Proof.
  intros Ht (_ & _ & _ & Hk). apply Forall_forall. intros b Hb. apply Hk in Hb. destruct (Ht _ _ Hb) as (k & _ & _ & Hs & _).
  apply Forall_app in Hs as [_ Hs]. apply Forall_cons in Hs as [Hs _]. by apply sound_block_ok.
Qed.

(** *** The steps of a block's handler *)

(** A block that joined is connected. *)
Lemma connect_triple b ts main known pre :
  block_ok b → pre ++ [b] `prefix_of` main → pending (pre ++ [b]) main ts →
  triple (node_ok main known pre) (in_mempool (OnBlockConnected b)) (λ _, node_inv ts) (λ _ _, False).
Proof.
  intros Hb Hpre Hp d Hd. destruct (connect_run b (mempool d) Hb (no_pool _ _ _ _ Hd)) as (m & E & P & Hs & Ha).
  unfold in_mempool. rewrite E. exists main, known, (pre ++ [b]). split; [|done]. destruct Hd. split; cbn; try done.
  rewrite chain_key_images_app. apply avoids_app. split; [by eapply avoids_subpool|].
  unfold chain_key_images. cbn. by rewrite app_nil_r.
Qed.

(** A block that left: its transactions return. *)
Lemma disconnect_triple now b main known pre :
  block_ok b →
  triple (node_ok main known pre) (m ← lift (txDataMapForBlock b); in_both (OnBlockDisconnected chainSpent now b m))
    (λ _, node_ok main known pre) (λ _ _, False).
Proof.
  intros [Hw Hr] d Hd. pose proof Hd as [[Hi Hl] Hpre Hp Ha Hg]. unfold txDataMapForBlock.
  destruct (tx_data_map_ok (Transactions b) ∅ Hw Hr (map_Forall_empty _)) as (m & -> & Hm).
  unfold mbind, M_bind, lift.
  pose proof (in_both_triple _ _ _ _ (gate d) (OnBlockDisconnected_triple (chain_inv main known) same_state
    (LedgerSource0 := main_ledger_source main known) now b m (chain d) (mempool d) Hi Hp Hw Hr Hm) d
    (conj (conj (conj Hi (reflexivity _)) eq_refl) eq_refl)) as Ht.
  destruct (in_both _ d) as [[u|e|] d']; [|by destruct Ht|done]. destruct Ht as [[[Hi' _] Hre] Eg]. cbn in Hi', Hre.
  eapply node_same; [done|done|apply Hre| |done]. intros id e He.
  destruct (rg_new _ _ _ _ Hre id e He) as [?|[_ Hu]]; [by apply (Ha id)|].
  eapply Forall_impl; [by apply unspent_avoids|]. cbn. intros ki Hki Hin. by eapply Hki, prefix_key_images.
Qed.

Lemma expire_triple now main known pre :
  triple (node_ok main known pre) (in_mempool (modify (λ m, (RemoveExpired now m).2))) (λ _, node_ok main known pre) (λ _ _, False).
Proof.
  intros d Hd. unfold in_mempool. cbn [modify]. pose proof (RemoveExpired_keeps now (mempool d) (no_pool _ _ _ _ Hd)) as K.
  destruct Hd. split; cbn; [done|done|apply K| |done]. by apply (avoids_subpool _ _ _ (keeps_subpool _ _ _ K)).
Qed.

Lemma run_task_triple now t ts :
  triple (node_inv (t :: ts)) (run_task now t) (λ _, node_inv ts) (λ _ _, False).
Proof.
  intros d (main & known & pre & Hd & Hp). inversion Hp as [|disc conn Hdisc Hconn Em Et]; subst main.
  destruct disc as [|b disc]; [destruct conn as [|b conn]|]; cbn in Et; injection Et as <- <-; cbn [run_task].
  - pose proof (expire_triple now _ _ _ d Hd) as Ht. destruct (in_mempool _ d) as [[u|e|] d']; [|done|done].
    exists (pre ++ []), known, pre. split; [done|]. rewrite app_nil_r. constructor.
  - apply Forall_cons in Hconn as [Hb Hconn]. eapply connect_triple; [done| | |exact Hd].
    + exists conn. by rewrite <- app_assoc.
    + replace (pre ++ b :: conn) with ((pre ++ [b]) ++ conn) by by rewrite <- app_assoc. by apply (pending_tasks _ []).
  - apply Forall_cons in Hdisc as [Hb Hdisc]. pose proof (disconnect_triple now b _ _ _ Hb d Hd) as Ht. revert Ht.
    match goal with |- context [?f d] => destruct (f d) as [[u|e|] d'] end; [|done|done]. intros Ht.
    exists (pre ++ conn), known, pre. split; [done|by constructor].
Qed.

Lemma run_tasks_triple now ts :
  triple (node_inv ts) (for_each (run_task now) ts) (λ _, node_inv []) (λ _ _, False).
Proof.
  induction ts as [|t ts IH]; cbn [for_each]; [by apply triple_ret|].
  eapply triple_bind; [apply run_task_triple|]. intros u. exact IH.
Qed.

(** What a new tip asks of the mempool. *)
Lemma mempool_tasks_triple b main known oldTip base disc conn d :
  moved main known b oldTip (chain d) base disc conn → (length conn < maxReorgDepth)%nat →
  pool_ok (mempool d) → avoids (chain_key_images main) (mempool d) → Gate.gate_ok (gate d) →
  triple (λ d', d' = d) (mempool_tasks b oldTip) (λ ts, node_inv ts) (λ _ _, False).
Proof.
  intros [Em Hc Hold Hnew Ebest Hb Hp Hd Hne Hlast] Hlen P Ha Hg.
  assert (∃ k, base ++ conn = k ++ [b]) as [k Ek] by by apply last_Some.
  assert (Forall block_ok (base ++ conn)) as Hok by (eapply chain_blocks_ok, Hc).
  unfold mempool_tasks. case_decide as Hfast.
  - assert (k = main) as ->.
    { rewrite Em. apply (path_to_unique (learn known b) _ _ oldTip); [|done]. rewrite Ek in Hnew.
      assert (k ≠ []) as Hk.
      { intros ->. cbn in Ek. rewrite Em in *. destruct base as [|x base']; [done|]. destruct base'; [|done].
        destruct conn; [done|done]. }
      rewrite <- Hfast, (linked_snoc_prev k b Hk) by apply Hnew. by eapply path_to_prefix. }
    rewrite Ek in *. intros d' ->. exists (main ++ [b]), (learn known b), main. apply Forall_app in Hok as [_ Hok].
    split; [split; [done|by exists [b]|done|done|done]|]. by apply (pending_tasks main [] [b]).
  - apply triple_get. intros d0 ->. rewrite Ebest.
    eapply triple_bind with (R := λ diff d', diff = (reverse disc, conn) ∧ consistent (base ++ conn) (learn known b) (chain d') ∧
      mempool d' = mempool d ∧ gate d' = gate d).
    { destruct (collectReorgDiff_reads (learn known b) base disc conn oldTip (BlockHash b) Hold Hnew Hb Hp
        ltac:(unfold maxReorgDepth; lia) Hlen (chain d) (proj1 Hc)) as (c' & E & Hi' & _).
      intros d' ->. unfold in_chain. rewrite E. split_and!; [done|split; [done|apply Hc]|done|done]. }
    intros [dd cc] d' ([= -> ->] & Hc' & Em' & Eg'). rewrite decide_False by done.
    exists (base ++ conn), (learn known b), base. apply Forall_app in Hok as [_ Hok]. split.
    + split; [done|by exists conn|by rewrite Em'| |by rewrite Eg'].
      rewrite Em, chain_key_images_app in Ha. rewrite Em'. by apply avoids_app in Ha as [Ha _].
    + apply pending_tasks; [|done]. apply Forall_reverse.
      pose proof (known_blocks_ok _ _ _ (co_tree _ _ _ (proj1 (proj1 Hc))) Hold) as Hko. by apply Forall_app in Hko as [_ ?].
Qed.

(** What is asked of a block and of the disk: the write of a fork block does
    not fail, and the chain does not grow by 900 or more blocks at once. *)
Definition admissible (now : Z) (b : Block) (d : Daemon) : Prop :=
  wf_block b ∧ ¬ save_failed (ProcessBlock (now `div` nanoseconds) b (chain d)).1 ∧
  Height (Header b) < height (chain d) + 900.

(** A processed block: the main chain moved, or is the same. *)
Lemma ProcessBlock_node now b d :
  node_inv [] d → admissible now b d →
  let '(r, c') := ProcessBlock (now `div` nanoseconds) b (chain d) in
  match r with
  | Ok (true, true) => ∃ main known base disc conn,
      moved main known b (bestHash (chain d)) c' base disc conn ∧ (length conn < maxReorgDepth)%nat ∧
      pool_ok (mempool d) ∧ avoids (chain_key_images main) (mempool d) ∧ Gate.gate_ok (gate d)
  | Panic => False
  | _ => node_inv [] (with_chain c' d)
  end.
Proof.
  intros (main & known & Hd)%node_inv_idle (Hwf & Hsave & Hh). pose proof (no_chain _ _ _ _ Hd) as Hc. pose proof Hc as [Hi Hl].
  pose proof (ProcessBlock_spec (now `div` nanoseconds) b main known (chain d) (proj2 Hwf) Hi) as Ho.
  destruct (ProcessBlock _ b (chain d)) as [r c'] eqn:E. cbn [fst snd] in Ho, Hsave.
  assert (∀ known', consistent main known' c' → node_inv [] (with_chain c' d)) as Hkeep.
  { intros known' Hc'. apply node_inv_idle. exists main, known'. destruct Hd. by split. }
  destruct r as [[[] []]|e|]; [| | | | |done].
  - destruct Ho as (Hn & (_ & l0 & _ & Hv) & l & _ & _ & Hadv).
    assert (lawful (learn known b)) as Hl' by (eapply lawful_learn; [apply Hi|done|done|done|exact Hv]).
    destruct (advanced_moved main known b (chain d) c' Hc Hn Hl' Hadv) as (base & disc & conn & Hm & Elen).
    pose proof (mv_disc _ _ _ _ _ _ _ _ Hm) as Hdl. exists main, known, base, disc, conn.
    split_and!; [done|unfold maxReorgDepth; lia|apply Hd..].
  - destruct Ho as (Hn & (_ & l0 & _ & Hv) & l & _ & _ & Hi').
    apply (Hkeep (learn known b)). split; [done|]. eapply lawful_learn; [apply Hi|done|done|done|exact Hv].
  - by destruct Ho.
  - destruct Ho as (_ & -> & _). by apply (Hkeep known).
  - destruct Ho as [Hi'|(e' & -> & _)]; [by apply (Hkeep known)|]. destruct Hsave. by exists e'.
Qed.

Lemma update_triple now b main known oldTip base disc conn d :
  moved main known b oldTip (chain d) base disc conn → (length conn < maxReorgDepth)%nat →
  pool_ok (mempool d) → avoids (chain_key_images main) (mempool d) → Gate.gate_ok (gate d) →
  triple (λ d', d' = d) (updateMempoolForAcceptedMainChain now b oldTip) (λ _, node_inv []) (λ _ _, False).
Proof.
  intros. eapply triple_bind; [by eapply mempool_tasks_triple|]. intros ts. apply run_tasks_triple.
Qed.

Lemma accept_main_triple now b d :
  node_inv [] d → admissible now b d →
  triple (λ d', d' = d) (accept_main now b) (λ r d', r ≠ Panic ∧ node_inv [] d') (λ _ _, False).
Proof.
  intros Hd Ha. unfold accept_main. apply triple_get. intros d0 ->. pose proof (ProcessBlock_node now b d Hd Ha) as Ho.
  intros d' ->. unfold mbind at 1, M_bind at 1, attempt at 1, in_chain at 1.
  destruct (ProcessBlock _ b (chain d)) as [r c'] eqn:E.
  destruct r as [[[] []]|e|]; cbn [fst snd]; [|by split..|done].
  destruct Ho as (main & known & base & disc & conn & Hm & Hlen & Hp & Hav & Hg).
  pose proof (update_triple now b main known (bestHash (chain d)) base disc conn (with_chain c' d) Hm Hlen Hp Hav Hg _ eq_refl) as Ht.
  unfold mbind at 1, M_bind at 1. destruct (updateMempoolForAcceptedMainChain _ _ _ _) as [[u|e|] d1]; [|done|done].
  pose proof (quiet_node [] _ (quiet_append b) d1 Ht) as Hq.
  unfold mbind, M_bind. destruct (maybeAppendCheckpointLocked b d1) as [[u'|e|] d2]; [|done|done]. by split.
Qed.

(** *** Handlers of blocks *)

Lemma node_quiet ts f d : node_inv ts d → quiet f → ∃ d', f d = (Ok tt, d') ∧ node_inv ts d'.
Proof.
  intros Hd Hq. pose proof (quiet_node ts f Hq d Hd) as Ht. destruct (f d) as [[[]|e|] d']; [eauto|done|done].
Qed.

(** A handler that keeps the invariant whatever it returns, and that panics
    only if [P]. *)
Definition node_keeps {A} (P : Prop) (f : M Daemon A) (d : Daemon) : Prop :=
  node_inv [] (f d).2 ∧ ((f d).1 = Panic → P).

Lemma node_keeps_quiet P f d : node_inv [] d → quiet f → node_keeps P f d.
Proof. intros Hd Hq. destruct (node_quiet [] f d Hd Hq) as (d' & E & ?). unfold node_keeps. by rewrite E. Qed.

Lemma node_keeps_bind {A B} P (f : M Daemon A) (g : A → M Daemon B) d a d1 :
  f d = (Ok a, d1) → node_keeps P (g a) d1 → node_keeps P (f ≫= g) d.
Proof. intros E. unfold node_keeps, mbind, M_bind. by rewrite E. Qed.

Lemma acquire_no_panic now p g : (Gate.acquireGossipBlockValidationSlot now p g).1 ≠ Panic.
Proof.
  pose proof (Gate.acquire_run now p g) as E. destruct (Gate.Get _ _) as [last c]. rewrite E.
  destruct (match last with Some _ => _ | None => _ end); [done|]. by destruct (_ <=? _).
Qed.

Lemma with_gate_node g d : node_inv [] d → Gate.gate_ok g → node_inv [] (with_gate g d).
Proof. intros (main & known & pre & Hd & Hp) Hg. exists main, known, pre. split; [|done]. destruct Hd. by split. Qed.

Lemma handle_gossip_block_keeps peer_String now from data b d :
  node_inv [] d → admissible now b d →
  node_keeps (String.length (peer_String from) < 8)%nat (handle_gossip_block peer_String now from data b) d.
Proof.
  intros Hd Hb. pose proof (accept_main_triple now b d Hd Hb d eq_refl) as Ha.
  destruct (accept_main now b d) as [[r|e|] d1] eqn:E; [|done|done]. destruct Ha as [Hr Hd1].
  eapply node_keeps_bind; [exact E|]. destruct r as [[[] []]|e|]; [apply node_keeps_quiet; auto with quiet..| |done].
  unfold first8. case_decide as Hl; [by split|]. eapply node_keeps_bind; [reflexivity|]. apply node_keeps_quiet; auto with quiet.
Qed.

(** **** The filter *)

(** A block that the filter dereferences a nil pointer on. *)
Definition null_tx (w : WireBlock) : Prop := HVersion (WHeader w) ≠ 0 ∧ None ∈ WTransactions w.

Lemma add_sizes_run txs size :
  (add_sizes size txs = Panic ∧ None ∈ txs) ∨ (∃ n, add_sizes size txs = Ok n ∧ None ∉ txs).
Proof.
  revert size. induction txs as [|[tx|] txs IH]; intros size; cbn [add_sizes].
  - right. exists size. split; [done|]. apply not_elem_of_nil.
  - cbn [pointee mbind result_bind]. destruct (IH (size + Z.of_nat (Transaction.Size tx))) as [[E Hin]|(n & E & Hin)].
    + left. split; [done|by right].
    + right. exists n. split; [done|]. rewrite not_elem_of_cons. done.
  - left. split; [done|by left].
Qed.

Lemma safe_no_coinbase txs : None ∉ txs → safe (no_coinbase txs).
Proof.
  induction txs as [|[tx|] txs IH]; cbn [no_coinbase]; [done| |set_solver]. intros Hin.
  cbn [pointee mbind result_bind]. apply safe_bind; [auto with safe|]. intros _ _. apply IH. set_solver.
Qed.

Lemma safe_memos_present txs : safe (memos_present txs).
Proof. induction txs as [|[tx|] txs IH]; cbn [memos_present]; [done| |done]. apply safe_bind; [auto with safe|]. by intros _ _. Qed.

Lemma prefilters_run w :
  (validateBlockCheapPrefilters w = Panic ↔ null_tx w) ∧
  (validateBlockCheapPrefilters w = Ok tt → ∃ b, w = wire b).
Proof.
  unfold validateBlockCheapPrefilters, null_tx. destruct (Z.eqb_spec (HVersion (WHeader w)) 0) as [Ev|Ev]; cbn [check mbind result_bind].
  { split; [|done]. split; [done|tauto]. }
  unfold wire_size. destruct (add_sizes_run (WTransactions w) (Z.of_nat blockHeaderSerializedSize)) as [[-> Hin]|(n & -> & Hin)]; cbn [mbind result_bind].
  { split; [|done]. tauto. }
  assert (∃ b, w = wire b) as Hb.
  { destruct (pointees w) as [b|] eqn:Ep; [exists b; by apply pointees_Some|]. by apply pointees_None in Ep. }
  split; [|done]. split; [|tauto]. intros Hp. exfalso. revert Hp. match goal with |- ?x = Panic → _ => change (safe x) end.
  apply safe_bind; [auto with safe|]. intros _ _. destruct (WTransactions w) as [|[first|] rest] eqn:Et; [done| |set_solver].
  cbn [pointee mbind result_bind]. apply safe_bind; [auto with safe|]. intros _ _.
  apply safe_bind; [apply safe_no_coinbase; set_solver|]. intros _ _. apply safe_memos_present.
Qed.

Lemma handleBlock_keeps peer_String now from data w d :
  node_inv [] d → unmarshal_wire_block data = (w, None) → (∀ b, w = wire b → admissible now b d) →
  node_keeps (null_tx w ∨ String.length (peer_String from) < 8)%nat (handleBlock peer_String now from data) d ∧
  (null_tx w → (handleBlock peer_String now from data d).1 = Panic).
Proof.
  intros Hd E Hb. destruct (prefilters_run w) as [Hnull Hok]. set (P := (_ ∨ _)). unfold handleBlock. rewrite E.
  destruct (validateBlockCheapPrefilters w) as [[]|e|] eqn:Ef.
  - destruct (Hok eq_refl) as [b ->]. specialize (Hb b eq_refl). split; [|by intros ?%Hnull].
    eapply node_keeps_bind; [reflexivity|]. cbv beta iota.
    pose proof (acquire_no_panic now from (gate d)) as Hn. pose proof (Gate.acquire_ok now from (gate d)) as Hg.
    destruct (Gate.acquireGossipBlockValidationSlot now from (gate d)) as [r g] eqn:Eg. cbn [fst snd] in Hn, Hg.
    assert (node_inv [] (with_gate g d)) as Hd1.
    { apply with_gate_node; [done|]. apply Hg. by destruct Hd as (? & ? & ? & [] & _). }
    assert (attempt (in_gate (Gate.acquireGossipBlockValidationSlot now from)) d = (Ok r, with_gate g d)) as Ea.
    { unfold attempt, in_gate. rewrite Eg. by destruct r. }
    eapply node_keeps_bind; [exact Ea|]. cbv beta. destruct r as [u|e|]; [|apply node_keeps_quiet; auto with quiet|done].
    pose proof (handle_gossip_block_keeps peer_String now from data b (with_gate g d) Hd1 Hb) as [Hk Hp].
    unfold node_keeps, deferring, on_block. rewrite pointees_wire.
    destruct (handle_gossip_block peer_String now from data b (with_gate g d)) as [r d2]. cbn in *. split; [|unfold P; tauto].
    apply with_gate_node; [done|]. apply Gate.release_ok. by destruct Hk as (? & ? & ? & [] & _).
  - split; [|by intros ?%Hnull]. eapply node_keeps_bind; [reflexivity|]. apply node_keeps_quiet; auto with quiet.
  - split; [split; [done|]|done]. intros _. left. by apply Hnull.
Qed.

Lemma processBlockData_keeps now data w d :
  node_inv [] d → unmarshal_wire_block data = (w, None) → (∀ b, w = wire b → admissible now b d) →
  node_keeps (null_tx w) (processBlockData now data) d ∧ (null_tx w → (processBlockData now data d).1 = Panic).
Proof.
  intros Hd E Hb. destruct (prefilters_run w) as [Hnull Hok]. unfold processBlockData. rewrite E.
  destruct (validateBlockCheapPrefilters w) as [[]|e|] eqn:Ef.
  - destruct (Hok eq_refl) as [b ->]. specialize (Hb b eq_refl). split; [|by intros ?%Hnull].
    eapply node_keeps_bind; [reflexivity|]. unfold on_block. rewrite pointees_wire.
    pose proof (accept_main_triple now b d Hd Hb d eq_refl) as Ha.
    destruct (accept_main now b d) as [[r|e|] d1] eqn:Ea; [|done|done]. destruct Ha as [Hr Hd1].
    eapply node_keeps_bind; [exact Ea|]. by destruct r as [[[] []]|e|].
  - split; [done|by intros ?%Hnull].
  - split; [split; [done|]|done]. intros _. by apply Hnull.
Qed.

Lemma safe_stale c b : safe (validateSubmitBlockStaleLocked c b).
Proof. unfold validateSubmitBlockStaleLocked. cbn zeta. apply safe_bind; auto with safe. Qed.

Lemma quiet_triple ts f (E : error → Daemon → Prop) : quiet f → triple (node_inv ts) f (λ _, node_inv ts) E.
Proof. intros Hq. eapply triple_weaken; [by apply quiet_node|done|done|done]. Qed.

Lemma SubmitBlock_triple now b d :
  node_inv [] d → admissible now b d →
  triple (λ d', d' = d) (SubmitBlock now b) (λ _, node_inv []) (λ _, node_inv []).
Proof.
  intros Hd Hb. unfold SubmitBlock. apply triple_get. intros d0 ->. eapply triple_bind with (R := λ _ d', d' = d).
  { apply triple_lift; [apply safe_stale|done|by intros ? ? _ ->]. }
  intros u. eapply triple_bind; [eapply triple_weaken; [by apply accept_main_triple|done|done|done]|].
  intros r. destruct r as [[[] m]|e|]; [|by intros d' [_ Hd']..|by intros d' [? _]].
  eapply triple_weaken with (P' := node_inv []) (Q' := λ _, node_inv []) (E' := λ _, node_inv []); [|by intros ? []|done|done].
  eapply triple_bind with (R := λ _, node_inv []); [destruct m; apply quiet_triple; auto with quiet|]. intros _.
  eapply triple_bind with (R := λ _, node_inv []).
  { apply triple_lift; [apply safe_wrap, marshal_block_safe|done|done]. }
  intros blockData. apply quiet_triple. auto with quiet.
Qed.

Lemma attempt_triple {A} (P : Daemon → Prop) (f : M Daemon A) (Q : A → Daemon → Prop) (E : error → Daemon → Prop) :
  triple P f Q E →
  triple P (attempt f) (λ r d, match r with Ok a => Q a d | Err e => E e d | Panic => False end) (λ _ _, False).
Proof. intros Hf d Hd. specialize (Hf d Hd). unfold attempt. by destruct (f d) as [[a|e|] d']. Qed.

Lemma handleMinedBlock_triple now b d :
  node_inv [] d → admissible now b d →
  triple (λ d', d' = d) (handleMinedBlock now b) (λ _, node_inv []) (λ _ _, False).
Proof.
  intros Hd Hb. eapply triple_bind; [by apply attempt_triple, SubmitBlock_triple|].
  intros r. apply triple_ret. by destruct r.
Qed.

Lemma handleTx_triple ts now from data :
  triple (node_inv ts) (handleTx now from data) (λ _, node_inv ts) (λ _ _, False).
Proof.
  unfold handleTx. destruct (DeserializeTx data) as [tx|e|] eqn:Ed.
  - pose proof (DeserializeTx_consumed _ _ Ed) as (Hwf & Hlim & _).
    rewrite (TxID_encode tx Hwf (tx_in_limits_rings _ Hlim)).
    eapply triple_bind with (R := λ r d, r = Ok (sha3_256 (encode tx)) ∧ node_inv ts d); [by intros d Hd|].
    intros r d1 [-> Hd1]. revert d1 Hd1.
    apply triple_get. intros d0 Hd0.
    destruct (HasTransaction _ _); [apply triple_ret; by intros ? ->|].
    eapply triple_bind; [eapply triple_weaken; [apply attempt_triple, mempool_add_triple|by intros ? ->|done|done]|].
    intros r. destruct r as [u|e|]; [by apply triple_ret| |by apply triple_ret].
    cbn beta iota. destruct (shouldPenalizeTxGossipRejection e); apply quiet_node; auto with quiet.
  - apply quiet_node. auto with quiet.
  - by apply safe_DeserializeTx in Ed.
Qed.

Lemma processTxData_triple ts now data :
  triple (node_inv ts) (processTxData now data) (λ _, node_inv ts) (λ _, node_inv ts).
Proof.
  eapply triple_bind with (R := λ _, node_inv ts).
  { apply triple_lift; [apply safe_wrap, safe_DeserializeTx|done|done]. }
  intros tx. eapply triple_bind; [eapply triple_weaken; [apply attempt_triple, mempool_add_triple|done|done|done]|].
  intros r. apply triple_ret. by destruct r.
Qed.

Lemma SubmitTransaction_triple ts now data :
  triple (node_inv ts) (SubmitTransaction now data) (λ _, node_inv ts) (λ _, node_inv ts).
Proof.
  eapply triple_bind with (R := λ _, node_inv ts).
  { apply triple_lift; [apply safe_wrap, safe_DeserializeTx|done|done]. }
  intros tx. eapply triple_bind with (R := λ _, node_inv ts); [apply triple_wrap, mempool_add_triple|].
  intros _. apply triple_get. intros d0 Hd0. intros d ->. destruct (node d0); by apply quiet_triple; auto with quiet.
Qed.

Lemma getBlocks_triple hashes :
  triple (node_inv []) (in_chain (getBlocks hashes)) (λ _, node_inv []) (λ _ _, False).
Proof.
  intros d (main & known & pre & Hd & Hp). pose proof (no_chain _ _ _ _ Hd) as [Hi Hl].
  assert (∃ out, reads (chain_inv main known) same_state (getBlocks hashes) (chain d) (Ok out)) as [out (c' & E & Hi' & _)].
  { revert Hi. generalize (chain d). induction hashes as [|h hashes IH]; intros c Hi; cbn [getBlocks].
    { exists []. by apply (reads_ret (chain_inv main known) same_state). }
    destruct (getBlockByHash_reads main known c h Hi) as (c1 & E1 & Hi1 & S1).
    destruct (IH c1 Hi1) as (out & c2 & E2 & Hi2 & S2).
    assert (∀ o, (∃ c3, (GetBlock h ≫= λ b : option Block, rest ← getBlocks hashes;
      match b with None => mret rest | Some block => match marshal_block block with Ok data => mret (data :: rest) | _ => mret rest end end) c
      = (Ok o, c3) ∧ chain_inv main known c3 ∧ same_state c c3) → ∃ out, reads (chain_inv main known) same_state (getBlocks (h :: hashes)) c (Ok out)) as Hgo by eauto.
    unfold mbind, M_bind in Hgo. change (GetBlock h c) with (getBlockByHash h c) in Hgo. rewrite E1, E2 in Hgo.
    assert (same_state c c2) by by etrans.
    destruct (known h) as [b|]; [destruct (marshal_block b) as [x|e|]|]; (eapply Hgo; exists c2; by split_and!). }
  unfold in_chain. rewrite E. exists main, known, pre. split; [|done]. destruct Hd. split; cbn; [by split|done..].
Qed.
End Node.
