(* ===== verification/Node.v ===== *)
(** * Runs of a node

    Start-up on an empty or on a used database, then any sequence of blocks
    and transactions from the network, from the sync manager, from the miner
    and from the API.  The handlers of blocks exclude each other by the
    daemon's lock; transactions are also admitted between the steps of the
    handler that holds it. *)

From S2P Require Import Prelude Bytes Crypto Pow Transaction TxCodec Block ExchangeSort Consensus Hoare Reads Difficulty Memo Emission Validation Validity Storage StorageFacts Commit Chain ChainOps Cache ChainInv Branches Ancestors Windows Learn Reorg ForkChoice Lawful Restart Genesis Reachable Startup Mempool MempoolQueue MempoolInv MempoolOps MempoolChain Daemon ReorgDiff NodeInv.
From S2P Require Gate Checkpoints.

Section Node.
Context `{HC : Crypto} `{HN : Network} `{HM : MathLib} `{HJ : JSON} `{HO : MapOrder} (peer_String : string → string).

(** A call that takes the mempool's lock only, whatever it returns. *)
Inductive tx_step : Daemon → Daemon → Prop :=
  | ts_gossip now from data d r d' : handleTx now from data d = (r, d') → tx_step d d'
  | ts_sync now data d r d' : processTxData now data d = (r, d') → tx_step d d'
  | ts_submit now data d r d' : SubmitTransaction now data d = (r, d') → tx_step d d'.

(** A call under the daemon's lock, whatever it returns. *)
Inductive node_step : Daemon → Daemon → Prop :=
  | ns_gossip_block now from data w d r d' :
      unmarshal_wire_block data = (w, None) → (∀ b, w = wire b → admissible now b d) →
      handleBlock peer_String now from data d = (r, d') → node_step d d'
  | ns_gossip_malformed now from data w e d r d' :
      unmarshal_wire_block data = (w, Some e) → handleBlock peer_String now from data d = (r, d') → node_step d d'
  | ns_sync_block now data w d r d' :
      unmarshal_wire_block data = (w, None) → (∀ b, w = wire b → admissible now b d) →
      processBlockData now data d = (r, d') → node_step d d'
  | ns_submit_block now b d r d' : admissible now b d → SubmitBlock now b d = (r, d') → node_step d d'
  | ns_mined_block now b d r d' : admissible now b d → handleMinedBlock now b d = (r, d') → node_step d d'
  | ns_get_blocks hashes d r d' : in_chain (getBlocks hashes) d = (r, d') → node_step d d'.

(** The state of a node, and what the handler of a block that has the lock
    still has to do on the mempool. *)
Inductive node_reachable : Daemon → list mempool_task → Prop :=
  | nr_first now s env file fullSync save d :
      db s = empty_db → NewDaemon now s env file fullSync save = Ok d → node_reachable d []
  | nr_restart d ts now env file fullSync save d' :
      node_reachable d ts → NewDaemon now (storage (chain d)) env file fullSync save = Ok d' → node_reachable d' []
  | nr_step d d' : node_reachable d [] → node_step d d' → node_reachable d' []
  | nr_tx d ts d' : node_reachable d ts → tx_step d d' → node_reachable d' ts
  | nr_block now b d d1 ts d2 :
      node_reachable d [] → admissible now b d →
      in_chain (ProcessBlock (now `div` nanoseconds) b) d = (Ok (true, true), d1) →
      mempool_tasks b (bestHash (chain d)) d1 = (Ok ts, d2) → node_reachable d2 ts
  | nr_task now t d ts r d' :
      node_reachable d (t :: ts) → run_task now t d = (r, d') → node_reachable d' ts.

Context `{!CryptoLaws HC} `{!JSONLaws HJ} `{!MapOrderLaws HO}.

(** ** Steps *)

Lemma step_by {A} ts (f : M Daemon A) d r d' P (Q : A → Daemon → Prop) E :
  triple P f Q E → P d → f d = (r, d') → (∀ a, Q a d' → node_inv ts d') → (∀ e, E e d' → node_inv ts d') → node_inv ts d'.
Proof. intros Hf Hd Er HQ HE. specialize (Hf d Hd). rewrite Er in Hf. destruct r; [eauto|eauto|done]. Qed.

Lemma no_panic {A} (f : M Daemon A) d P Q E : triple P f Q E → P d → (f d).1 ≠ Panic.
Proof. intros Hf Hd. specialize (Hf d Hd). by destruct (f d) as [[]]. Qed.

Lemma tx_step_inv ts d d' : node_inv ts d → tx_step d d' → node_inv ts d'.
Proof.
  intros Hd Hs. destruct Hs as [now from data d r d' E|now data d r d' E|now data d r d' E].
  - eapply step_by; [apply handleTx_triple|done|exact E|done|done].
  - eapply step_by; [apply processTxData_triple|done|exact E|done|done].
  - eapply step_by; [apply SubmitTransaction_triple|done|exact E|done|done].
Qed.

Lemma node_step_inv d d' : node_inv [] d → node_step d d' → node_inv [] d'.
Proof.
  intros Hd Hs. destruct Hs as [now from data w d r d' Ew Hb E|now from data w e d r d' Ew E|now data w d r d' Ew Hb E
    |now b d r d' Hb E|now b d r d' Hb E|hashes d r d' E].
  - pose proof (handleBlock_keeps peer_String now from data w d Hd Ew Hb) as [[Hk _] _]. by rewrite E in Hk.
  - unfold handleBlock in E. rewrite Ew in E. eapply step_by; [apply quiet_node, quiet_penalize|done|exact E|done|done].
  - pose proof (processBlockData_keeps now data w d Hd Ew Hb) as [[Hk _] _]. by rewrite E in Hk.
  - eapply step_by; [by apply SubmitBlock_triple|done|exact E|done|done].
  - eapply step_by; [by apply handleMinedBlock_triple|done|exact E|done|done].
  - eapply step_by; [apply getBlocks_triple|done|exact E|done|done].
Qed.

Lemma block_step_inv now b d d1 ts d2 :
  node_inv [] d → admissible now b d → in_chain (ProcessBlock (now `div` nanoseconds) b) d = (Ok (true, true), d1) →
  mempool_tasks b (bestHash (chain d)) d1 = (Ok ts, d2) → node_inv ts d2.
Proof.
  intros Hd Hb E1 E2. pose proof (ProcessBlock_node now b d Hd Hb) as Ho. unfold in_chain in E1.
  destruct (ProcessBlock _ b (chain d)) as [r c']. injection E1 as -> <-.
  destruct Ho as (main & known & base & disc & conn & Hm & Hlen & Hp & Ha & Hg).
  pose proof (mempool_tasks_triple b main known _ base disc conn (with_chain c' d) Hm Hlen Hp Ha Hg _ eq_refl) as Ht.
  by rewrite E2 in Ht.
Qed.

(** ** Start-up *)

Lemma start_heights fullSync file : Forall is_u64 (Checkpoints.heights (start_checkpoints fullSync file)).
Proof.
  unfold start_checkpoints. destruct fullSync; [constructor|].
  destruct (Checkpoints.loadCheckpointsFile <$> file) as [[s|e|]|] eqn:E; [|constructor..].
  apply fmap_Some in E as (f & _ & E). symmetry in E. apply Checkpoints.load_ok in E as [Hs _].
  apply Forall_forall. intros h Hh. apply (Checkpoints.so_dom _ Hs) in Hh as [x Hx].
  apply (Checkpoints.so_valid _ Hs) in Hx as [Hx _]. cbn in Hx. unfold is_u64. lia.
Qed.

(** On a consistent chain the start-up goes through and changes nothing. *)
Lemma NewDaemon_inv now s env file fullSync save d c main known :
  start_chain now s env = Ok c → consistent main known c → NewDaemon now s env file fullSync save = Ok d → node_inv [] d.
Proof.
  intros Es Hc. unfold NewDaemon. rewrite Es. cbn [mbind result_bind]. set (cps := start_checkpoints fullSync file).
  set (c1 := if negb fullSync && _ && _ then _ else c).
  assert (consistent main known c1) as Hc1.
  { unfold c1. destruct (negb fullSync && _ && _); [|done]. destruct Hc as [Hi Hl]. split; [by apply inv_checkpoints|done]. }
  clearbody c1. pose proof Hc1 as [[H1 _] Hl1].
  pose proof (startup_audit_lawful main known c1 fullSync (Checkpoints.checkpoints cps) (Checkpoints.heights cps) H1 Hl1
    (start_heights fullSync file)) as Ha.
  assert (verify_and_repair fullSync (Checkpoints.checkpoints cps) (Checkpoints.heights cps) c1 = (Ok (MkRepair 0 0 false), c1)) as ->.
  { unfold verify_and_repair, mbind, M_bind, get, lift. destruct (negb _); [done|]. by rewrite Ha. }
  intros [= <-]. apply node_inv_idle. exists main, known. destruct (empty_ok DefaultMempoolConfig ∅) as [Hp Hn]. split; cbn.
  - done.
  - done.
  - exact Hp.
  - intros id e He. by rewrite Hn in He.
  - split; [done|]. cbn. intros x [= <-]. split; [|done]. split; cbn; [done|constructor|]. set_solver.
Qed.

Lemma start_chain_used now d env c main known :
  consistent main known (chain d) → start_chain now (storage (chain d)) env = Ok c → consistent main known c.
Proof.
  intros [Hi Hl]. unfold start_chain, NewChain.
  destruct (loadFromStorage_spec main known (chain d) (chainCacheCapFromEnv env) Hi) as (c1 & E1 & Hi1 & _).
  { pose proof (chainCacheCap_room env). lia. }
  rewrite E1. cbn [wrap mbind result_bind]. unfold HasGenesis. rewrite (GetTip_core main known c1 (proj1 Hi1)).
  rewrite bool_decide_eq_true_2 by eauto. destruct (verifyStoredGenesisMatchesRelaunchGenesis c1); [|done|done].
  intros [= <-]. by split.
Qed.

Lemma start_chain_first now s env c :
  db s = empty_db → start_chain now s env = Ok c → ∃ main known, consistent main known c.
Proof.
  intros Hdb. set (c0 := new_chain s (chainCacheCapFromEnv env)).
  assert (GetTip s = None) as Ht by (destruct s as [x cs]; cbn in Hdb; subst x; vm_compute; reflexivity).
  assert (loadFromStorage c0 = (Ok tt, c0)) as El.
  { unfold loadFromStorage. unfold mbind at 1, M_bind at 1, get at 1. change (storage c0) with s. by rewrite Ht. }
  unfold start_chain, NewChain. fold c0. rewrite El. cbn [wrap mbind result_bind]. unfold HasGenesis.
  change (storage c0) with s. rewrite Ht.
  rewrite bool_decide_eq_false_2 by (by intros [? ?]).
  destruct (addGenesisBlock _ _ _) as [[u|e|] c'] eqn:E; [|done|done]. intros [= <-].
  assert (fresh c0) as Hf.
  { pose proof (chainCacheCap_room env). split; cbn; [done..| |lia]. split; cbn; [constructor|done|]. by intros hash [? ?]. }
  destruct (reachable_chain c' (reach_genesis _ _ _ _ _ Hf E)) as (main & known & _ & Hc & _). eauto.
Qed.

Lemma NewDaemon_start now s env file fullSync save d :
  NewDaemon now s env file fullSync save = Ok d → ∃ c, start_chain now s env = Ok c.
Proof. unfold NewDaemon. destruct (start_chain now s env); [eauto|done|done]. Qed.

Lemma node_reachable_inv d ts : node_reachable d ts → node_inv ts d.
Proof.
  induction 1 as [now s env file fs sv d Hdb E|d ts now env file fs sv d' _ (main & known & pre & Hd & _) E|d d' _ IH Hs
    |d ts d' _ IH Hs|now b d d1 ts d2 _ IH Hb E1 E2|now t d ts r d' _ IH E].
  - destruct (NewDaemon_start _ _ _ _ _ _ _ E) as [c Ec].
    destruct (start_chain_first _ _ _ _ Hdb Ec) as (main & known & Hc). by eapply NewDaemon_inv.
  - destruct (NewDaemon_start _ _ _ _ _ _ _ E) as [c Ec].
    pose proof (start_chain_used _ _ _ _ _ _ (no_chain _ _ _ _ Hd) Ec). by eapply NewDaemon_inv.
  - by eapply node_step_inv.
  - by eapply tx_step_inv.
  - by eapply block_step_inv.
  - eapply step_by; [apply run_task_triple|exact IH|exact E|done|done].
Qed.

End Node.

(** ** Theorems *)

(** C3. The mempool does not contradict the ledger.  Take a node that starts on
    an empty database, or again on its own, and then runs handlers: those of
    blocks exclude each other, and transactions are also admitted between
    [ProcessBlock] and the calls on the mempool that follow it, each call on
    the mempool being one step.  In every state, a pending transaction is
    filed under its own id and is not a coinbase, and two pending
    transactions share no key image; when no block's handler is in progress,
    pending transactions spend only key images that are unspent on the main
    chain.  Handlers of transactions do not panic.  Handlers of blocks panic
    on a payload of non-zero version with a null transaction, which the filter
    dereferences, and, for a payload that they can decode and a peer whose ID
    has 8 characters or more, on no other.  Blocks are assumed not to hit a
    failing write of a fork block and not to make the chain 900 or more blocks
    longer at once; a submitted block has no nil transaction. *)
Theorem node_pool_unspent `{HC : Crypto} `{!CryptoLaws HC} `{HN : Network} `{HM : MathLib} `{HJ : JSON} `{!JSONLaws HJ}
    `{HO : MapOrder} `{!MapOrderLaws HO} peer_String d ts :
  node_reachable peer_String d ts →
  (∀ id tx, GetTransaction (mempool d) id = Some tx →
     TxID tx = Ok id ∧ IsCoinbase tx = false ∧
     (ts = [] → Forall (λ ki, isKeyImageSpentLocked (chain d) ki = false) (key_images tx))) ∧
  (∀ id id' tx tx' ki, GetTransaction (mempool d) id = Some tx → GetTransaction (mempool d) id' = Some tx' →
     ki ∈ key_images tx → ki ∈ key_images tx' → id = id') ∧
  (∀ now from data, (handleTx now from data d).1 ≠ Panic ∧ (processTxData now data d).1 ≠ Panic ∧
     (SubmitTransaction now data d).1 ≠ Panic) ∧
  (ts = [] → ∀ now b, admissible now b d → (SubmitBlock now b d).1 ≠ Panic) ∧
  (ts = [] → ∀ now from data w, unmarshal_wire_block data = (w, None) → (∀ b, w = wire b → admissible now b d) →
     ((processBlockData now data d).1 = Panic ↔ null_tx w) ∧
     ((8 <= String.length (peer_String from))%nat → (handleBlock peer_String now from data d).1 = Panic ↔ null_tx w)).
Proof.
  intros Hr. pose proof (node_reachable_inv _ _ _ Hr) as Hd. pose proof Hd as (main & known & pre & [Hc Hpre Hp Ha _] & Hts).
  assert (∀ id tx, GetTransaction (mempool d) id = Some tx → ∃ e, content (mempool d) id = Some e ∧ ETx e = tx) as Hget.
  { intros id tx (e & He & ->)%fmap_Some. exists (with_index 0 e). unfold content. by rewrite He. }
  split_and!.
  - intros id tx (e & He & <-)%Hget. destruct (content_good _ _ _ Hp He) as (_ & Hid & Hcb & _). split_and!; [done|done|].
    intros ->. assert (pre = main) as -> by by apply pending_idle.
    eapply Forall_impl; [exact (Ha id e He)|]. cbn. intros ki Hki.
    rewrite (isKeyImageSpentLocked_main main known _ ki (proj1 (proj1 Hc))). by apply bool_decide_eq_false.
  - intros id id' tx tx' ki (e & He & <-)%Hget (e' & He' & <-)%Hget Hk Hk'. by eapply content_disjoint.
  - intros now from data. split_and!; (eapply no_panic; [|exact Hd]);
      [apply handleTx_triple|apply processTxData_triple|apply SubmitTransaction_triple].
  - intros -> now b Hb. eapply (no_panic _ d); [by apply SubmitBlock_triple|done].
  - intros -> now from data w Ew Hb. destruct (processBlockData_keeps now data w d Hd Ew Hb) as [[_ H1] H2].
    destruct (handleBlock_keeps peer_String now from data w d Hd Ew Hb) as [[_ H3] H4]. split; [done|].
    intros Hl. split; [|done]. intros [|]%H3; [done|lia].
Qed.

(** C37. The difference between two tips is exact: on a consistent chain whose
    main branch shares the blocks [base] and no more with another known
    branch, [collectReorgDiffBlocks] returns that branch's remaining blocks, newest
    first, and the main chain's remaining blocks, oldest first, when each
    side has fewer than 1000; it leaves the chain as it is, up to its caches. *)
Theorem reorg_diff_exact `{HC : Crypto} `{!CryptoLaws HC} `{HN : Network} `{HM : MathLib} `{HJ : JSON} `{!JSONLaws HJ}
    known base disc conn oldTip c :
  chain_inv (base ++ conn) known c → path_to known (base ++ disc) oldTip → base ≠ [] → parted disc conn →
  (length disc < maxReorgDepth)%nat → (length conn < maxReorgDepth)%nat →
  ∃ c', collectReorgDiffBlocks oldTip (bestHash c) c = (Ok (reverse disc, conn), c') ∧
        chain_inv (base ++ conn) known c' ∧ same_state c c'.
Proof.
  intros Hi Hold Hb Hp Hd Hn. apply collectReorgDiff_reads; try done. apply (co_main _ _ _ (proj1 Hi)).
Qed.
