(* ===== verification/SampleChain.v ===== *)
(** * A sample chain

    An encoding that satisfies the laws of [JSON], a chain with its genesis
    block, and a run with a fork and a reorganization: the concrete states at
    which the theorems on the chain are evaluated. *)

From S2P Require Import Prelude Bytes Crypto Instances Pow Transaction TxCodec Block ExchangeSort Consensus Hoare Reads Difficulty Memo Emission Validation Coinbase Samples Validity Storage StorageFacts Commit Chain Cache ChainInv Branches Ancestors Learn Reorg ForkChoice Windows Restart Lawful Verify Genesis Truncate Reachable ChainOps Startup.

(** ** An encoding of blocks and outputs *)

#[local] Instance TxOutput_countable : Countable TxOutput :=
  inj_countable' (λ o, (Commitment o, PublicKey o, RangeProof o, EncryptedAmount o, EncryptedMemo o))
    (λ '(a, b, c, d, e), MkTxOutput a b c d e) ltac:(by intros []).
#[local] Instance TxInput_countable : Countable TxInput :=
  inj_countable' (λ i, (KeyImage i, RingMembers i, RingCommitments i, PseudoOutput i, RingSignature i))
    (λ '(a, b, c, d, e), MkTxInput a b c d e) ltac:(by intros []).
#[local] Instance Transaction_countable : Countable Transaction :=
  inj_countable' (λ t, (Version t, Inputs t, Outputs t, Fee t, TxPublicKey t))
    (λ '(a, b, c, d, e), MkTransaction a b c d e) ltac:(by intros []).
#[local] Instance BlockHeader_countable : Countable BlockHeader :=
  inj_countable' (λ h, (HVersion h, Height h, PrevHash h, MerkleRoot h, Timestamp h, Difficulty h, Nonce h))
    (λ '(a, b, c, d, e, f, g), MkBlockHeader a b c d e f g) ltac:(by intros []).
#[local] Instance WireBlock_countable : Countable WireBlock :=
  inj_countable' (λ b, (WHeader b, WTransactions b)) (λ '(a, b), MkWireBlock a b) ltac:(by intros []).
#[local] Instance UTXO_countable : Countable UTXO :=
  inj_countable' (λ u, (UTxID u, OutputIndex u, Output u, BlockHeight u))
    (λ '(a, b, c, d), MkUTXO a b c d) ltac:(by intros []).

(** A number as a string of bits, one byte each. *)
Fixpoint bits_of (p : positive) : bytes :=
  match p with
  | xH => []
  | xO p => Init.Byte.x00 :: bits_of p
  | xI p => Init.Byte.x01 :: bits_of p
  end.

Fixpoint of_bits (bits : bytes) : positive :=
  match bits with
  | [] => xH
  | x :: bits => if decide (x = Init.Byte.x00) then xO (of_bits bits) else xI (of_bits bits)
  end.

Lemma of_bits_of p : of_bits (bits_of p) = p.
Proof. induction p as [p IH|p IH|]; simpl; [by rewrite IH..|done]. Qed.

Definition toy_decode {A} `{Countable A} (bad : A) (data : bytes) : A * option error :=
  match countable.decode (of_bits data) with
  | Some a => (a, None)
  | None => (bad, Some (Errorf "invalid"))
  end.

#[local] Instance wf_output_dec o : Decision (wf_output o).
Proof. unfold wf_output, is_u32. apply _. Defined.

#[local] Instance wf_wire_dec w : Decision (wf_wire w).
Proof.
  unfold wf_wire. apply and_dec; [apply _|]. apply Forall_dec. intros [tx|]; cbn; apply _.
Defined.

Definition toy_encode (w : WireBlock) : bytes := bits_of (countable.encode w).

(** Values that are not of the Go types cannot occur; they are refused. *)
Definition toy_json : JSON := {|
  marshal_block b := if decide (wf_block b) then Ok (toy_encode (wire b)) else Err (Errorf "invalid");
  unmarshal_wire_block d :=
    let '(w, e) := toy_decode (MkWireBlock (MkBlockHeader 0 0 [] [] 0 0 0) []) d in
    if decide (wf_wire w) then (w, e) else (w, Some (Errorf "invalid"));
  marshal_utxo u := if decide (wf_output (Output u)) then Ok (bits_of (countable.encode u)) else Err (Errorf "invalid");
  unmarshal_utxo d :=
    let '(u, e) := toy_decode (MkUTXO [] 0 (MkTxOutput [] [] [] [] []) 0) d in
    if decide (wf_output (Output u)) then (u, e) else (u, Some (Errorf "invalid"));
|}.

Lemma toy_json_laws : JSONLaws toy_json.
Proof.
  split; cbn.
  - intros b d. case_decide; [|done]. intros [= <-]. unfold toy_decode, toy_encode. rewrite of_bits_of, decode_encode.
    by rewrite decide_True by by apply wf_wire_wire.
  - intros u d. case_decide; [|done]. intros [= <-]. unfold toy_decode. rewrite of_bits_of, decode_encode. by rewrite decide_True.
  - intros d b. destruct (toy_decode _ d) as [x e]. case_decide; [|done]. by intros [= <- ->].
  - intros d u. destruct (toy_decode _ d) as [x e]. case_decide; [|done]. by intros [= <- ->].
  - intros b. by case_decide.
  - intros u. by case_decide.
Qed.

(** ** A run *)

#[local] Existing Instance toy_crypto.
#[local] Existing Instance toy_crypto_laws.
#[local] Existing Instance mainnet.
#[local] Existing Instance toy_math.
#[local] Existing Instance toy_json.
#[local] Existing Instance toy_json_laws.

Definition sample_now : Z := GenesisTimestamp + 100000.

Definition chain_0 : Chain := snd (addGenesisBlock sample_now GetGenesisBlock (empty_chain 164)).
Definition chain_1 : Chain := snd (ProcessBlock sample_now block_1_alt chain_0).

(** A competing block at height 1, and a child that makes its branch heavier. *)
Definition fork_1 : Block := sample_block_at GetGenesisBlock (GenesisTimestamp + 301) [].
Definition fork_2 : Block := sample_block fork_1 [].
Definition chain_2 : Chain := snd (ProcessBlock sample_now fork_1 chain_1).

Example genesis_run : fst (addGenesisBlock sample_now GetGenesisBlock (empty_chain 164)) = Ok tt.
Proof. vm_compute. reflexivity. Qed.
Example extend_run : fst (ProcessBlock sample_now block_1_alt chain_0) = Ok (true, true).
Proof. vm_compute. reflexivity. Qed.
Example fork_run : fst (ProcessBlock sample_now fork_1 chain_1) = Ok (true, false).
Proof. vm_compute. reflexivity. Qed.
Example reorg_run : fst (ProcessBlock sample_now fork_2 chain_2) = Ok (true, true).
Proof. vm_compute. reflexivity. Qed.

Definition chain_3 : Chain := snd (ProcessBlock sample_now fork_2 chain_2).

Lemma chain_0_run : addGenesisBlock sample_now GetGenesisBlock (empty_chain 164) = (Ok tt, chain_0).
Proof. unfold chain_0. rewrite <- genesis_run. apply surjective_pairing. Qed.
Lemma chain_1_run : ProcessBlock sample_now block_1_alt chain_0 = (Ok (true, true), chain_1).
Proof. unfold chain_1. rewrite <- extend_run. apply surjective_pairing. Qed.
Lemma chain_2_run : ProcessBlock sample_now fork_1 chain_1 = (Ok (true, false), chain_2).
Proof. unfold chain_2. rewrite <- fork_run. apply surjective_pairing. Qed.
Lemma chain_3_run : ProcessBlock sample_now fork_2 chain_2 = (Ok (true, true), chain_3).
Proof. unfold chain_3. rewrite <- reorg_run. apply surjective_pairing. Qed.

Lemma empty_fresh : fresh (empty_chain 164).
Proof.
  split; try done. split; [constructor|done|]. by intros hash [? ?].
Qed.

Lemma chain_0_inv : chain_inv [GetGenesisBlock] (only GetGenesisBlock) chain_0.
Proof. apply (addGenesisBlock_Ok _ _ _ _ _ empty_fresh chain_0_run). Qed.

Lemma step_chain c b m c' :
  wf_block b → ProcessBlock sample_now b c = (Ok m, c') → step c c'.
Proof. intros Hwf E. eapply step_process; [done|done|]. by intros [e ?]. Qed.

Lemma chain_2_reachable : reachable chain_2.
Proof.
  eapply reach_step; [eapply reach_step; [exact (reach_genesis _ _ _ _ _ empty_fresh chain_0_run)|]|].
  - eapply step_chain; [|exact chain_1_run]. vm_decide.
  - eapply step_chain; [|exact chain_2_run]. vm_decide.
Qed.

Lemma chain_3_step : step chain_2 chain_3.
Proof. eapply step_chain; [|exact chain_3_run]. vm_decide. Qed.

Lemma different_blocks (x y : Block) : bool_decide (BlockHash x = BlockHash y) = false → Some x ≠ Some y.
Proof. intros Hne%bool_decide_eq_false [= ->]. done. Qed.

(** ** Witnesses *)

(** After the reorganization the chain has three blocks. *)
Lemma reachable_consistent_witness :
  ∃ main, linked main ∧ length main = 3%nat ∧ NoDup (chain_key_images main) ∧ totalWork chain_3 = branch_work main.
Proof.
  destruct (reachable_consistent chain_3 (reach_step _ _ chain_2_reachable chain_3_step))
    as (main & g & _ & _ & Hl & _ & Hh & Ht & _ & _ & Hn & _).
  exists main. split_and!; [done| |done|done].
  assert (height chain_3 = 2) as E by (vm_compute; reflexivity). rewrite E in Hh. lia.
Defined.

(** The replaced block at height 1 was not final, and the new branch has more
    work; the genesis block stayed. *)
Lemma finalized_blocks_stay_witness : totalWork chain_2 < totalWork chain_3.
Proof.
  apply (finalized_blocks_stay chain_2 chain_3 1 block_1_alt chain_2_reachable chain_3_step).
  - lia.
  - vm_compute; reflexivity.
  - lia.
  - assert (getBlockByHeight chain_3 1 = Some fork_1) as -> by (vm_compute; reflexivity).
    apply different_blocks. vm_compute; reflexivity.
Defined.

Lemma process_block_outcome_witness :
  outcome sample_now block_1_alt [GetGenesisBlock] (only GetGenesisBlock) chain_0 (Ok (true, true)) chain_1.
Proof.
  destruct (process_block_outcome sample_now block_1_alt [GetGenesisBlock] (only GetGenesisBlock) chain_0
              ltac:(vm_decide) chain_0_inv) as (r & c' & E & _ & Ho).
  rewrite chain_1_run in E. apply pair_equal_spec in E as [<- <-]. exact Ho.
Defined.

Lemma process_validation_exact_witness :
  acceptable [GetGenesisBlock] (only GetGenesisBlock) sample_now chain_0 block_1_alt.
Proof.
  destruct (process_validation_exact sample_now block_1_alt [GetGenesisBlock] (only GetGenesisBlock) chain_0
              ltac:(vm_decide) chain_0_inv) as (r & c' & E & _ & _ & _ & Hr).
  apply Hr. replace r with (fst (r, c')) by reflexivity. rewrite <- E. vm_compute; reflexivity.
Defined.

(** The commit that puts [block_1_alt] on top of the genesis block. *)
Definition sample_commit : ReorgCommit := MkReorgCommit [] [block_1_alt] (BlockHash block_1_alt) 1 8.

Lemma reorg_commit_refines_witness :
  match CommitReorg sample_commit (storage chain_0) with
  | (Ok _, s') => represents (db s') [GetGenesisBlock; block_1_alt] 8
  | _ => False
  end.
Proof.
  pose proof (reorg_commit_refines (learn (only GetGenesisBlock) block_1_alt) (storage chain_0) [GetGenesisBlock]
    (totalWork chain_0) sample_commit (co_rep _ _ _ (proj1 chain_0_inv)) (proj1 (proj2 (co_main _ _ _ (proj1 chain_0_inv)))))
    as Hc.
  assert (only GetGenesisBlock (BlockHash block_1_alt) = None) as Hn by (vm_compute; reflexivity).
  specialize (Hc ltac:(intros hash b Hb; apply (learn_extends _ _ Hn), (co_stored _ _ _ (proj1 chain_0_inv)), Hb)).
  specialize (Hc ltac:(intros b ->%list_elem_of_singleton; apply learn_self) ltac:(cbn; lia) ltac:(vm_decide)).
  assert (fst (CommitReorg sample_commit (storage chain_0)) = Ok tt) as E by (vm_compute; reflexivity).
  destruct (CommitReorg sample_commit (storage chain_0)) as [r s']. cbn [fst] in E. subst r.
  destruct Hc as (base & Eb & _ & _ & R & _). cbn [Disconnect sample_commit reverse] in Eb.
  rewrite reverse_nil, app_nil_r in Eb. subst base. exact R.
Defined.

(** ** Start-up and truncation *)

Lemma chain_3_reachable : reachable chain_3.
Proof. exact (reach_step _ _ chain_2_reachable chain_3_step). Qed.

(** The state of chain 3 has a main chain in the invariant. *)
Lemma chain_3_consistent : ∃ main known, consistent main known chain_3.
Proof. destruct (reachable_chain chain_3 chain_3_reachable) as (main & known & _ & Hc & _). by exists main, known. Qed.

Lemma restart_restores_witness :
  ∃ c', NewChain (storage chain_3) (Some 1) = Ok c' ∧ height c' = 2 ∧ totalWork c' = 12.
Proof.
  destruct chain_3_consistent as (main & known & Hi & _).
  destruct (restart_restores main known chain_3 (Some 1) Hi) as (c' & E & _ & _ & _ & _ & Eh & Ew & _).
  exists c'. split; [exact E|]. rewrite Eh, Ew. split; vm_compute; reflexivity.
Defined.

Lemma template_matches_consensus_witness :
  ∃ c' tip d, loadFromStorage (new_chain (storage chain_3) 164) = (Ok tt, c') ∧
    TemplateParams c' = Ok (MkBlockTemplateParams (Height (Header tip) + 1) (BlockHash tip) d).
Proof.
  destruct chain_3_consistent as (main & known & Hi & _).
  destruct (loadFromStorage_spec main known chain_3 164 Hi ltac:(lia)) as (c' & E & [H _] & W & _).
  destruct (template_matches_consensus main known c' H) as (tip & _ & Hd & _). destruct (Hd (wd_recent _ _ W)) as (d & _ & Et).
  exists c', tip, d. split; [exact E|exact Et].
Defined.

Lemma truncate_exact_witness : ∃ c', TruncateToHeight 1 chain_3 = (Ok tt, c') ∧ height c' = 1.
Proof.
  destruct chain_3_consistent as (main & known & Hi & _).
  destruct (truncate_exact main known chain_3 1 Hi ltac:(lia)) as (r & c' & E & _ & _ & Hk & _).
  assert (fst (TruncateToHeight 1 chain_3) = Ok tt) as Er by (vm_compute; reflexivity). rewrite E in Er. cbn [fst] in Er.
  exists c'. rewrite Er in E. split; [exact E|].
  assert (height chain_3 = 2) as Eh by (vm_compute; reflexivity).
  destruct (Hk ltac:(rewrite Eh; lia) Er) as (_ & Hh & _). exact Hh.
Defined.

Definition chain_cut : Chain := snd (TruncateToHeight 1 chain_3).

Lemma truncated_block_is_duplicate_witness : ProcessBlock sample_now fork_2 chain_cut = (Ok (false, false), chain_cut).
Proof.
  destruct chain_3_consistent as (main & known & Hi & _).
  assert (fst (TruncateToHeight 1 chain_3) = Ok tt) as Er by (vm_compute; reflexivity).
  apply (truncated_block_is_duplicate main known chain_3 1); [exact Hi|lia| |].
  - rewrite (surjective_pairing (TruncateToHeight 1 chain_3)), Er. reflexivity.
  - pose proof (getBlockByHeight_main main known chain_3 2 (proj1 Hi) ltac:(unfold is_u64; lia)) as E.
    assert (getBlockByHeight chain_3 2 = Some fork_2) as E2 by (vm_compute; reflexivity).
    rewrite E2 in E. by eapply list_elem_of_lookup_2.
Defined.

Lemma verify_chain_exact_witness : VerifyChain chain_3 = Ok [] ∧ ∃ main, length main = 3%nat ∧
  ∀ i p b, main !! i = Some p → main !! S i = Some b → 1 <= i64 (Timestamp (Header b) - Timestamp (Header p)).
Proof.
  destruct chain_3_consistent as (main & known & [H _] & _).
  assert (VerifyChain chain_3 = Ok []) as E by (vm_compute; reflexivity).
  assert (height chain_3 = 2) as Eh by (vm_compute; reflexivity). pose proof (co_height _ _ _ H) as Hh.
  split; [exact E|]. exists main. split; [lia|].
  destruct (verify_chain_exact main known chain_3 H) as (vs & Ev & Hv). rewrite E in Ev. injection Ev as <-.
  intros i p b Hp Hb. destruct (proj1 Hv eq_refl i p b Hp Hb) as (_ & _ & Ht). exact Ht.
Defined.

Lemma startup_repair_idle_witness :
  verify_and_repair false {[1 := BlockHash fork_1]} [1] chain_3 = (Ok (MkRepair 0 0 false), chain_3).
Proof.
  apply (startup_repair_idle chain_3 false {[1 := BlockHash fork_1]} [1]); [apply life_reach, chain_3_reachable|].
  repeat constructor; lia.
Defined.

(** A truncation that fails between its writes: the second height stays
    indexed on disk although the tip is gone, and the next start fails. *)
Definition failing (outcomes : list (option error)) (c : Chain) : Chain :=
  on_storage (λ s, MkStorage (db s) outcomes) c.

Definition chain_torn : Chain := snd (TruncateToHeight 0 (failing [None; Some (Errorf "disk full")] chain_3)).

Lemma interrupted_truncation_blocks_restart :
  fst (TruncateToHeight 0 (failing [None; Some (Errorf "disk full")] chain_3)) =
    Err (Wrapf "failed to remove main-chain block at height %d" (Errorf "disk full")) ∧
  NewChain (storage chain_torn) None =
    Err (Wrapf "failed to load chain state" (Errorf "block at height %d not found")).
Proof. split; vm_compute; reflexivity. Qed.
