(* ===== verification/SampleNode.v ===== *)
(** * A sample node

    A node that starts on an empty database, takes a block, a transaction and
    a competing branch, during whose adoption the transaction comes again: the
    states at which the theorems on the daemon are evaluated. *)

From S2P Require Import Prelude Bytes Crypto Instances Pow Transaction TxCodec Block ExchangeSort Consensus Hoare Reads Difficulty Memo Emission Validation Coinbase Samples Validity Storage StorageFacts Commit Chain ChainOps Cache ChainInv Branches Ancestors Windows Learn Reorg ForkChoice Lawful Restart Genesis Reachable Startup Mempool MempoolQueue MempoolInv MempoolOps MempoolChain MempoolSelect MempoolSpec Daemon ReorgDiff NodeInv Node SampleChain.

#[local] Existing Instance toy_crypto.
#[local] Existing Instance toy_crypto_laws.
#[local] Existing Instance mainnet.
#[local] Existing Instance toy_math.
#[local] Existing Instance toy_json.
#[local] Existing Instance toy_json_laws.
#[local] Existing Instance sample_order.
#[local] Existing Instance sample_order_laws.

Definition node_now : Z := sample_now * nanoseconds.

(** A transfer whose ring is the coinbase output of [block_1_alt]. *)
Definition coinbase_1 : TxOutput :=
  match Outputs (sample_coinbase 1) with o :: _ => o | [] => sample_output 0 0 0 end.

Definition node_transfer : Transaction :=
  MkTransaction 1
    [MkTxInput (sample_key 900) (replicate RingSize (PublicKey coinbase_1)) (replicate RingSize (Commitment coinbase_1))
       (compress (pedersen 10000 7))
       (replicate (32 + RingSize * 64) Init.Byte.x05 ++ sample_key 900 ++ compress (pedersen 10000 7))]
    [sample_output 60 3 501; sample_output 35 4 502] 9905 (sample_key 9).

Definition payload (b : Block) : bytes := match marshal_block b with Ok d => d | _ => [] end.

Definition run_of {S A} (f : M S A) (s : S) : S := (f s).2.

Definition first_daemon : result Daemon := NewDaemon node_now (MkStorage empty_db []) None None false false.

Definition node_0 : Daemon :=
  match first_daemon with
  | Ok d => d
  | _ => MkDaemon (empty_chain 164) (NewMempool sample_config) (Gate.MkGate 0 None) false false None [] 0 []
  end.
Definition node_1 : Daemon := run_of (SubmitBlock node_now block_1_alt) node_0.
Definition node_2 : Daemon := run_of (SubmitTransaction node_now (encode node_transfer)) node_1.
Definition node_3 : Daemon := run_of (processBlockData node_now (payload fork_1)) node_2.

(** The second block of the branch: the chain moves, a transaction comes, then the mempool follows. *)
Definition tasks_of (r : result (list mempool_task)) : list mempool_task := match r with Ok ts => ts | _ => [] end.
Definition mid_1 : Daemon := run_of (in_chain (ProcessBlock (node_now `div` nanoseconds) fork_2)) node_3.
Definition mid_tasks : list mempool_task := tasks_of (mempool_tasks fork_2 (bestHash (chain node_3)) mid_1).1.
Definition mid_2 : Daemon := run_of (mempool_tasks fork_2 (bestHash (chain node_3))) mid_1.
Definition mid_3 : Daemon := run_of (SubmitTransaction node_now (encode node_transfer)) mid_2.
Definition node_4 : Daemon := foldl (λ d t, run_of (run_task node_now t) d) mid_3 mid_tasks.

(** A block payload with a null transaction. *)
Definition null_block : WireBlock := MkWireBlock (Header fork_1) [None].
Definition null_payload : bytes := toy_encode null_block.

Definition peer_text (p : string) : string := "12D3KooWsample".
Abbreviation sample_reachable := (node_reachable peer_text).

(** ** The run *)

Lemma run_step {A} (f : M Daemon A) d : f d = ((f d).1, run_of f d).
Proof. apply surjective_pairing. Qed.

Lemma sample_admissible b d r :
  wf_block b → (ProcessBlock (node_now `div` nanoseconds) b (chain d)).1 = Ok r → Height (Header b) < height (chain d) + 900 →
  admissible node_now b d.
Proof. intros Hw E Hh. split_and!; [done| |done]. rewrite E. by intros [e ?]. Qed.

Lemma submit_step b d : admissible node_now b d → node_step peer_text d (run_of (SubmitBlock node_now b) d).
Proof. intros Hb. eapply ns_submit_block; [done|apply run_step]. Qed.

Lemma wire_inj b b' : wire b = wire b' → b = b'.
Proof. intros E. apply (f_equal pointees) in E. rewrite !pointees_wire in E. congruence. Qed.

Lemma sync_step b data d :
  unmarshal_wire_block data = (wire b, None) → admissible node_now b d → node_step peer_text d (run_of (processBlockData node_now data) d).
Proof. intros E Hb. eapply ns_sync_block; [exact E| |apply run_step]. by intros b' <-%wire_inj. Qed.

Lemma submit_tx_step data d : tx_step d (run_of (SubmitTransaction node_now data) d).
Proof. eapply ts_submit, run_step. Qed.

Lemma tasks_reachable ts d : sample_reachable d ts → sample_reachable (foldl (λ d t, run_of (run_task node_now t) d) d ts) [].
Proof.
  revert d. induction ts as [|t ts IH]; intros d Hd; cbn [foldl]; [done|]. apply IH. eapply nr_task; [exact Hd|apply run_step].
Qed.

Lemma node_0_run : first_daemon = Ok node_0.
Proof. vm_compute. reflexivity. Qed.

Lemma node_1_admissible : admissible node_now block_1_alt node_0.
Proof. eapply sample_admissible; [vm_decide|vm_compute; reflexivity|vm_compute; reflexivity]. Qed.

Lemma node_3_admissible : admissible node_now fork_1 node_2.
Proof. eapply sample_admissible; [vm_decide|vm_compute; reflexivity|vm_compute; reflexivity]. Qed.

Lemma node_4_admissible : admissible node_now fork_2 node_3.
Proof. eapply sample_admissible; [vm_decide|vm_compute; reflexivity|vm_compute; reflexivity]. Qed.

Lemma payload_roundtrip b : wf_block b → unmarshal_wire_block (payload b) = (wire b, None).
Proof.
  intros Hw. apply block_wire_roundtrip. unfold payload. destruct (marshal_block b) as [d|e|] eqn:E; [done| |];
    (cbn in E; by rewrite decide_True in E).
Qed.

Lemma node_2_reachable : sample_reachable node_2 [].
Proof.
  eapply nr_tx; [|apply submit_tx_step]. eapply nr_step; [|exact (submit_step _ _ node_1_admissible)].
  exact (nr_first peer_text node_now (MkStorage empty_db []) None None false false node_0 eq_refl node_0_run).
Qed.

Lemma node_3_reachable : sample_reachable node_3 [].
Proof.
  eapply nr_step; [exact node_2_reachable|exact (sync_step _ _ _ (payload_roundtrip _ (proj1 node_3_admissible)) node_3_admissible)].
Qed.

Lemma ok_run {S A} (f : M S A) s a : (f s).1 = Ok a → f s = (Ok a, run_of f s).
Proof. intros <-. apply surjective_pairing. Qed.

Lemma mid_1_run : in_chain (ProcessBlock (node_now `div` nanoseconds) fork_2) node_3 = (Ok (true, true), mid_1).
Proof.
  assert ((in_chain (ProcessBlock (node_now `div` nanoseconds) fork_2) node_3).1 = Ok (true, true)) as E by (vm_compute; reflexivity).
  exact (ok_run _ _ _ E).
Qed.

Lemma mid_2_run : mempool_tasks fork_2 (bestHash (chain node_3)) mid_1 = (Ok mid_tasks, mid_2).
Proof.
  assert (match (mempool_tasks fork_2 (bestHash (chain node_3)) mid_1).1 with Ok _ => true | _ => false end = true) as E
    by (vm_compute; reflexivity).
  unfold mid_2, mid_tasks, run_of. generalize dependent (mempool_tasks fork_2 (bestHash (chain node_3)) mid_1).
  intros [[ts|e|] d] E; [reflexivity|discriminate E|discriminate E].
Qed.

Example mid_tasks_run : mid_tasks = [Disconnect block_1_alt; Connect fork_1; Connect fork_2; Expire].
Proof. vm_compute. reflexivity. Qed.

Lemma node_4_reachable : sample_reachable node_4 [].
Proof.
  apply tasks_reachable. eapply nr_tx; [|apply submit_tx_step].
  exact (nr_block peer_text node_now fork_2 node_3 mid_1 mid_tasks mid_2 node_3_reachable node_4_admissible mid_1_run mid_2_run).
Qed.

Lemma null_in h : None ∈ WTransactions (MkWireBlock h [None]).
Proof. by left. Qed.

Lemma null_not_wire w b : None ∈ WTransactions w → w ≠ wire b.
Proof. intros Hin ->. apply list_elem_of_fmap in Hin as (tx & E & _). done. Qed.

Lemma null_payload_decodes : unmarshal_wire_block null_payload = (null_block, None).
Proof. vm_compute. reflexivity. Qed.

Lemma two_linked g b :
  Height (Header g) = 0 → PrevHash (Header b) = BlockHash g → Height (Header b) = 1 → linked [g; b].
Proof. intros. by split_and!. Qed.

(** The main chain of [chain_3], and the branch it replaced. *)
Lemma chain_3_known :
  ∃ known, chain_inv [GetGenesisBlock; fork_1; fork_2] known chain_3 ∧
           path_to known [GetGenesisBlock; block_1_alt] (BlockHash block_1_alt).
Proof.
  destruct chain_3_consistent as (main & known & Hi & _). exists known. pose proof (proj1 Hi) as H.
  assert (∀ i b, getBlockByHeight chain_3 i = Some b → 0 <= i < 2 ^ 64 → main !! Z.to_nat i = Some b) as Hat.
  { intros i b Hb Hi'. by rewrite (getBlockByHeight_main main known) in Hb. }
  assert (length main = 3%nat) as Hlen.
  { pose proof (co_height _ _ _ H) as Eh. assert (height chain_3 = 2) as E by (vm_compute; reflexivity). rewrite E in Eh. lia. }
  assert (main = [GetGenesisBlock; fork_1; fork_2]) as ->.
  { assert (getBlockByHeight chain_3 0 = Some GetGenesisBlock) as H0 by (vm_compute; reflexivity).
    assert (getBlockByHeight chain_3 1 = Some fork_1) as H1 by (vm_compute; reflexivity).
    assert (getBlockByHeight chain_3 2 = Some fork_2) as H2 by (vm_compute; reflexivity).
    apply Hat in H0, H1, H2; [|lia..].
    change (Z.to_nat 0) with 0%nat in H0. change (Z.to_nat 1) with 1%nat in H1. change (Z.to_nat 2) with 2%nat in H2.
    revert H0 H1 H2 Hlen. generalize GetGenesisBlock fork_1 fork_2. clear. intros g x y.
    destruct main as [|? [|? [|? []]]]; cbn; intros; congruence. }
  split; [exact Hi|]. split_and!; [done| |done|].
  - assert (bool_decide (Height (Header GetGenesisBlock) = 0 ∧ PrevHash (Header block_1_alt) = BlockHash GetGenesisBlock ∧
      Height (Header block_1_alt) = 1) = true) as E by (vm_compute; reflexivity).
    apply bool_decide_eq_true in E as (E0 & E1 & E2). exact (two_linked _ _ E0 E1 E2).
  - intros b Hb. apply (peek_known _ _ _ _ _ H). apply elem_of_cons in Hb as [->|Hb%list_elem_of_singleton].
    + vm_compute; reflexivity.
    + rewrite Hb. vm_compute; reflexivity.
Qed.

(** ** Witnesses *)

(** The transfer is still pending after the reorganization, and unspent; a
    payload with a null transaction stops the node. *)
Lemma node_pool_unspent_witness :
  GetTransaction (mempool node_4) (sha3_256 (encode node_transfer)) = Some node_transfer ∧
  Forall (λ ki, isKeyImageSpentLocked (chain node_4) ki = false) (key_images node_transfer) ∧
  (processBlockData node_now null_payload node_4).1 = Panic.
Proof.
  assert (GetTransaction (mempool node_4) (sha3_256 (encode node_transfer)) = Some node_transfer) as Hg
    by (vm_compute; reflexivity).
  split; [exact Hg|]. destruct (node_pool_unspent peer_text node_4 [] node_4_reachable) as (H1 & _ & _ & _ & H5).
  destruct (H1 _ _ Hg) as (_ & _ & Hu). split; [exact (Hu eq_refl)|].
  destruct (H5 eq_refl node_now EmptyString null_payload null_block null_payload_decodes) as [H6 _].
  - intros b E. destruct (null_not_wire null_block b (null_in _) E).
  - apply H6. split; [|exact (null_in _)]. vm_compute. congruence.
Defined.

(** Back from [block_1_alt], the tip before the branch [fork_1], [fork_2] took over. *)
Lemma reorg_diff_exact_witness :
  ∃ c', collectReorgDiffBlocks (BlockHash block_1_alt) (bestHash chain_3) chain_3 = (Ok ([block_1_alt], [fork_1; fork_2]), c').
Proof.
  destruct chain_3_known as (known & Hi & Hp).
  destruct (reorg_diff_exact known [GetGenesisBlock] [block_1_alt] [fork_1; fork_2] (BlockHash block_1_alt) chain_3 Hi Hp)
    as (c' & E & _).
  - done.
  - right; right. cbn. apply different_blocks. vm_compute; reflexivity.
  - vm_compute. lia.
  - vm_compute. lia.
  - exists c'. exact E.
Defined.
