(* ===== verification/SampleMiner.v ===== *)
(** * A sample round of mining

    The node with one pending transfer, restarted so that its recent blocks
    are in memory, mines with two workers. *)

From S2P Require Import Prelude Bytes Crypto Instances Pow Transaction TxCodec Block Header ExchangeSort Consensus Hoare Reads Difficulty Memo Emission Validation Coinbase Samples Validity Storage StorageFacts Commit Chain ChainOps Cache ChainInv Branches Ancestors Windows Learn Reorg ForkChoice Lawful Restart Genesis Reachable Startup Mempool MempoolQueue MempoolInv MempoolOps MempoolChain MempoolSelect MempoolSpec Daemon ReorgDiff NodeInv Node SampleChain SampleNode Miner MinerSpec.

#[local] Existing Instance toy_crypto.
#[local] Existing Instance toy_crypto_laws.
#[local] Existing Instance mainnet.
#[local] Existing Instance toy_math.
#[local] Existing Instance toy_json.
#[local] Existing Instance toy_json_laws.
#[local] Existing Instance sample_order.
#[local] Existing Instance sample_order_laws.

Definition sample_stealth (spendPub viewPub : bytes) : result StealthOutput :=
  Ok (MkStealthOutput (sample_key 11) (sample_key 1002)).
Definition sample_prove (v : Z) (r : bytes) : result bytes := Ok (sample_key 1).
Definition sample_padding (n : nat) : option bytes := Some (zeros n).

Lemma sample_coinbase_laws : CoinbaseLaws sample_stealth sample_prove.
Proof. split; [intros ??? [= <-]; vm_compute; done|intros ??? [= <-]; vm_compute; done]. Qed.

(** The chain of [node_2] after a restart. *)
Definition mining_chain : Chain := (loadFromStorage (new_chain (storage (chain node_2)) 164)).2.
Definition mining_pool : Mempool := mempool node_2.
Definition sample_miner : Miner := NewMiner (MkMinerConfig (sample_key 12) (sample_key 13) 2).
Definition mining_tip : Block := block_1_alt.
Definition start_time : Z := Timestamp (Header mining_tip) + 300.

(** The two workers take turns; the clock moves on during the run. *)
Definition sample_turns : list (nat * Z) :=
  concat ((λ i, [(0%nat, start_time + Z.of_nat i `div` 4); (1%nat, start_time + Z.of_nat i `div` 4)]) <$> seq 0 10).

Definition sample_round : result mine_outcome * Miner :=
  mine_round sample_stealth sample_prove sample_padding (MkReads mining_chain mining_chain mining_chain mining_chain)
    start_time (Some mining_pool) sample_turns false Result_ sample_miner.

Definition mined_block : Block := match sample_round.1 with Ok (Mined b) => b | _ => mining_tip end.

Definition miner_after : Miner := sample_round.2.

Lemma sample_round_mined :
  mine_round sample_stealth sample_prove sample_padding (MkReads mining_chain mining_chain mining_chain mining_chain)
    start_time (Some mining_pool) sample_turns false Result_ sample_miner = (Ok (Mined mined_block), miner_after).
Proof. vm_compute. reflexivity. Qed.

Lemma mining_chain_inv : ∃ main known, chain_inv main known mining_chain ∧ windowed main mining_chain.
Proof.
  destruct (node_reachable_inv _ _ _ node_2_reachable) as (main & known & pre & [[Hi _] _ _ _ _] & _).
  destruct (loadFromStorage_spec main known (chain node_2) 164 Hi ltac:(lia)) as (c' & E & Hi' & W & _).
  exists main, known. unfold mining_chain. rewrite E. by split.
Qed.

Lemma mining_pool_ok : pool_ok mining_pool.
Proof. destruct (node_reachable_inv _ _ _ node_2_reachable) as (main & known & pre & [_ _ Hp _ _] & _). exact Hp. Qed.

Lemma pool_only m tx : ETx <$> (entries m).*2 = [tx] → ∀ id x, GetTransaction m id = Some x → x = tx.
Proof.
  intros E id x (e & He & ->)%fmap_Some. apply elem_of_entries in He. apply list_elem_of_singleton. rewrite <- E.
  apply list_elem_of_fmap. exists e. split; [done|]. apply list_elem_of_fmap. by exists (id, e).
Qed.

Lemma mining_pool_only id tx : GetTransaction mining_pool id = Some tx → tx = node_transfer.
Proof. apply pool_only. vm_compute. reflexivity. Qed.

(** The transfer is valid on the main chain, as its validation shows. *)
Lemma node_transfer_valid main known :
  chain_inv main known mining_chain → valid_tx (branch_spends main main) (main_ring_member main) node_transfer.
Proof.
  intros Hi. pose proof (chain_ledger_source main known main ∅ ltac:(set_solver)) as L.
  pose proof (ValidateTransaction_decides (LedgerSource0 := L) node_transfer mining_chain ltac:(vm_decide) Hi) as Hd.
  destruct Hd as (r & (c' & E & _) & _ & Hr). apply Hr. apply (f_equal fst) in E. cbn [fst] in E. rewrite <- E. vm_compute. reflexivity.
Qed.

Lemma sample_clock : Forall (λ t, is_i64 t ∧ Timestamp (Header mining_tip) < t ∧
  Timestamp (Header mining_tip) < t <= sample_now + TimestampFuturLimitSec) (start_time :: sample_turns.*2).
Proof. unfold is_i64. vm_decide. Qed.

Lemma mined_memo : bool_decide (Forall (λ o, EncryptedMemo o ≠ zeroMemo) (concat (Outputs <$> take 1 (Transactions mined_block)))) = true.
Proof. vm_compute. reflexivity. Qed.

Lemma head_memo (b : Block) :
  bool_decide (Forall (λ o, EncryptedMemo o ≠ zeroMemo) (concat (Outputs <$> take 1 (Transactions b)))) = true →
  memo_fits b.
Proof.
  intros H%bool_decide_eq_true cb E. unfold memo_fits in *. destruct (Transactions b); [done|]. cbn in *. simplify_eq. by rewrite app_nil_r in H.
Qed.

Lemma mining_tip_known main known : chain_inv main known mining_chain → known (bestHash mining_chain) = Some mining_tip.
Proof. intros Hi. apply (peek_known _ _ _ _ _ (proj1 Hi)). vm_compute. reflexivity. Qed.

Lemma mining_median : MedianTimestamp mining_chain 11 = Ok (Timestamp (Header mining_tip)).
Proof. vm_compute. reflexivity. Qed.

(** The mined block has the pending transfer and passes validation. *)
Lemma mined_block_accepted_witness :
  length (Transactions mined_block) = 2%nat ∧ (validateBlockForProcess sample_now mined_block mining_chain).1 = Ok tt.
Proof.
  split; [vm_compute; reflexivity|]. destruct mining_chain_inv as (main & known & Hi & W).
  apply (mined_block_accepted sample_stealth sample_prove sample_padding sample_miner miner_after mining_pool main known
    mining_chain mining_tip (Timestamp (Header mining_tip)) start_time sample_turns false Result_ sample_now mined_block
    sample_coinbase_laws Hi (wd_recent _ _ W) mining_pool_ok).
  - intros id tx Hg. apply mining_pool_only in Hg. rewrite Hg. exact (node_transfer_valid main known Hi).
  - exact (mining_tip_known main known Hi).
  - destruct (median_timely main known mining_chain mining_tip (proj1 Hi) (wd_timely _ _ W) (mining_tip_known main known Hi))
      as (m & Em & Er). rewrite Em. rewrite mining_median in Er. exact (eq_sym Er).
  - exact sample_clock.
  - exact sample_round_mined.
  - split; [vm_compute; discriminate|]. split; [exact (head_memo _ mined_memo)|]. vm_compute. reflexivity.
Defined.

Definition quiet_turns : list (nat * Z) := (λ i, (i `mod` 2, start_time)%nat) <$> seq 0 6.
Definition mining_reads : chain_reads := MkReads mining_chain mining_chain mining_chain mining_chain.

Definition sample_template : Block :=
  match assemble sample_stealth sample_prove sample_padding sample_miner mining_reads start_time [] with
  | Ok b => b
  | _ => mining_tip
  end.

Lemma sample_template_ok :
  assemble sample_stealth sample_prove sample_padding sample_miner mining_reads start_time [] = Ok sample_template.
Proof. vm_compute. reflexivity. Qed.

(** Nonce 5 belongs to the second of two workers, which needs three turns. *)
Lemma miner_covers_nonces_witness :
  ∃ b m', MineBlock sample_stealth sample_prove sample_padding mining_reads start_time [] quiet_turns false Result_ sample_miner
            = (Ok (Mined b), m') ∧ validatePoW (Header b) = true.
Proof.
  destruct (miner_covers_nonces sample_stealth sample_prove sample_padding sample_miner mining_reads start_time [] quiet_turns
    false sample_template 5 sample_template_ok) as (b & m' & E & Hw & _).
  - vm_decide.
  - vm_compute. reflexivity.
  - vm_decide.
  - unfold is_u64. lia.
  - vm_compute. reflexivity.
  - vm_compute. lia.
  - exists b, m'. split; [exact E|exact Hw].
Defined.
