(* ===== verification/SampleTransfer.v ===== *)
(** * A sample transfer

    A chain whose second block pays eighteen outputs, a wallet that owns three
    of them, and a transfer from it whose rings are taken from the chain. *)

From S2P Require Import Prelude Bytes Crypto Instances Pow Transaction TxCodec Block ExchangeSort Consensus Hoare Reads Difficulty Memo Emission Validation Coinbase Samples Validity Balance Storage StorageFacts Commit Chain ChainOps Cache ChainInv Branches Ancestors Windows Learn Reorg ForkChoice Lawful Restart Genesis Reachable Startup CoinSelect CoinSpec RingSelect Builder Transfer BuilderSpec TransferSpec SampleChain.
From S2P Require Wallet WalletSpec.

#[local] Existing Instance toy_crypto.
#[local] Existing Instance toy_crypto_laws.
#[local] Existing Instance mainnet.
#[local] Existing Instance toy_math.
#[local] Existing Instance toy_json.
#[local] Existing Instance toy_json_laws.
#[local] Existing Instance sample_entropy.
#[local] Existing Instance sample_sort.
#[local] Existing Instance sample_entropy_laws.
#[local] Existing Instance sample_sort_laws.

(** ** The chain *)

Definition coinbase_output : TxOutput :=
  match Outputs (sample_coinbase 1) with o :: _ => o | [] => sample_output 0 0 0 end.

Definition funds : list TxOutput := (λ i : nat, sample_output (5000 + 500 * Z.of_nat i) (70 + Z.of_nat i) (80 + Z.of_nat i)) <$> seq 0 18.
Definition funds_total : Z := sumZ ((λ i : nat, 5000 + 500 * Z.of_nat i) <$> seq 0 18).
Definition funds_blinding : Z := sumZ ((λ i : nat, 70 + Z.of_nat i) <$> seq 0 18).

Definition funding_tx : Transaction :=
  let pseudo := compress (pedersen (funds_total + 20000) funds_blinding) in
  MkTransaction 1
    [MkTxInput (sample_key 900) (replicate RingSize (PublicKey coinbase_output)) (replicate RingSize (Commitment coinbase_output)) pseudo
       (replicate (32 + RingSize * 64) Init.Byte.x05 ++ sample_key 900 ++ pseudo)]
    funds 20000 (sample_key 9).

Definition funding_block : Block := sample_block block_1_alt [funding_tx].
Definition funded_chain : Chain := snd (ProcessBlock sample_now funding_block chain_1).

Lemma funded_chain_run : ProcessBlock sample_now funding_block chain_1 = (Ok (true, true), funded_chain).
Proof.
  assert (fst (ProcessBlock sample_now funding_block chain_1) = Ok (true, true)) as E by (vm_compute; reflexivity).
  unfold funded_chain. rewrite <- E. apply surjective_pairing.
Qed.

Lemma funded_chain_inv : ∃ main known, chain_inv main known funded_chain.
Proof.
  assert (reachable funded_chain) as Hr.
  { eapply reach_step; [eapply reach_step; [exact (reach_genesis _ _ _ _ _ empty_fresh chain_0_run)|]|].
    - eapply step_chain; [|exact chain_1_run]. vm_decide.
    - eapply step_chain; [|exact funded_chain_run]. vm_decide. }
  apply reachable_chain in Hr as (main & known & g & Hc & _). exists main, known. exact (proj1 Hc).
Qed.

(** ** The wallet's cryptography *)

#[local] Abbreviation commit := blocknet_pedersen_commit_with_blinding.

Definition toy_owns (priv pub : bytes) : Prop := priv = pub.
Definition toy_prove (v : Z) (b : bytes) : M nat bytes := mret (zeros 10).
Definition toy_signature (ki pseudo : bytes) : bytes := zeros (32 + RingSize * 64) ++ ki ++ resize 32 Init.Byte.x00 pseudo.
Definition toy_sign (ks cs : list bytes) (i : Z) (priv b pseudo pb msg : bytes) : M nat (bytes * bytes) :=
  if decide (msg = [] ∨ length ks ≠ RingSize ∨ length cs ≠ RingSize) then throw (Errorf "ring")
  else mret (toy_signature (toy_hash priv) pseudo, toy_hash priv).
Definition toy_blinding (r : nat) : bytes * nat := (le_bytes 32 (Z.of_nat r), S r).
Definition toy_stealth (s v : bytes) : M nat (bytes * bytes * bytes) := mret (s, v, s).
(** Points are their discrete logarithms, shared secrets are products. *)
Definition toy_point_of (k : bytes) : result bytes := Ok (le_bytes 32 (le_value k `mod` group_order)).
Definition toy_shared (a b : bytes) : bytes := le_bytes 32 ((le_value a * le_value b) `mod` group_order).
Definition toy_shared_at (a b : bytes) (i : Z) : bytes := le_bytes 32 ((le_value a * le_value b + i + 1) `mod` group_order).
Definition toy_secret (a b : bytes) : result bytes := Ok (toy_shared a b).
Definition toy_secret_at (a b : bytes) (i : Z) : result bytes := Ok (toy_shared_at a b i).
Definition toy_padding (r : nat) : (nat → option bytes) * nat := (λ n, Some (replicate n Init.Byte.x01), S r).

Lemma toy_transfer_laws : TransferLaws toy_prove toy_sign toy_point_of toy_owns.
Proof.
  split.
  - by intros v b r p r' [= <- _].
  - intros ks cs i priv b pseudo pb msg r sig ki r'. unfold toy_sign. case_decide as Hd; [done|]. intros E.
    assert (sig = toy_signature (toy_hash priv) pseudo ∧ ki = toy_hash priv) as [-> ->] by (unfold mret, M_ret in E; split; congruence). clear E.
    apply Decidable.not_or in Hd as [Hm Hd]. apply Decidable.not_or in Hd as [Hk%dec_stable Hc%dec_stable].
    assert (length (toy_hash priv) = 32%nat) as Lk by apply length_le_bytes.
    assert (length (toy_signature (toy_hash priv) pseudo) = (32 + RingSize * 64 + 32 + 32)%nat) as Ls.
    { unfold toy_signature. unfold zeros. rewrite !length_app, length_replicate, length_resize, Lk. lia. }
    split_and!; [done|by rewrite Ls|].
    intros v pub _ _ _ ->. unfold VerifyRingCT, ExtractRingCTBinding. cbn [SigRingSize Signature].
    rewrite Hk, Hc. split.
    + rewrite (bool_decide_eq_false_2 (msg = [])) by done. rewrite (bool_decide_eq_false_2 (toy_signature _ _ = [])); [done|].
      intros E. by rewrite E in Ls.
    + rewrite Ls. set (z := zeros (32 + RingSize * 64)). assert (length z = 1056%nat) as Lz by done.
      assert (toy_signature (toy_hash priv) (commit v pb) = z ++ toy_hash priv ++ commit v pb) as ->.
      { unfold toy_signature, z. by rewrite resize_all_alt by (symmetry; apply compress_length). }
      rewrite (bool_decide_eq_false_2 (RingSize = 0%nat)), (bool_decide_eq_false_2 (_ ≠ _)) by (vm_compute; lia).
      cbn [check mbind result_bind]. clearbody z.
      change (32 + RingSize * 32 + RingSize * 32)%nat with 1056%nat. rewrite <- Lz, <- Lk at 1. rewrite slice_app. cbn [mbind result_bind].
      assert (length (commit v pb) = 32%nat) as Lc by apply compress_length.
      pose proof (slice_app (z ++ toy_hash priv) (commit v pb) []) as Hsl. rewrite app_nil_r, <- app_assoc, length_app, Lz, Lk, Lc in Hsl.
      by rewrite Hsl.
  - intros k p [= <-]. apply length_le_bytes.
Qed.

Definition toy_owned (i amount : Z) : Wallet.OwnedOutput :=
  Wallet.MkOwnedOutput (zeros 32) i amount (sample_key (70 + i)) (sample_key (80 + i)) (sample_key (80 + i))
    (commit amount (sample_key (70 + i))) 5 false false 0 (zeros 32) [].

Definition toy_wallet : Wallet.Wallet :=
  Wallet.MkWallet (Wallet.MkStealthKeys (sample_key 1) (sample_key 2) (sample_key 3) (sample_key 4))
    [toy_owned 4 7000; toy_owned 1 5500; toy_owned 0 5000] [] 100 ∅ 0 None.

Definition toy_recipients (amount : Z) : list Recipient := [MkRecipient (sample_key 11) (sample_key 12) amount (bytes_of_string "rent")].

Definition toy_cfg : TransferConfig nat :=
  createTxBuilder (chain_ring funded_chain) toy_prove toy_sign toy_blinding toy_stealth (λ k kis, Ok (toy_hash (k ++ concat kis))) (λ k, Ok (toy_hash k))
    toy_secret toy_secret_at toy_point_of.

Definition toy_transfer (amount : Z) : result TransferResult * (Wallet.Wallet * nat) :=
  Transfer toy_cfg toy_padding (λ _, 0) (toy_recipients amount) 1 100 (toy_wallet, 3%nat).

(** The transaction a transfer gives, if it gives one. *)
Definition toy_tx (x : result TransferResult) : option Transaction :=
  match x with
  | Ok res => match DeserializeTx (TxData res) with Ok tx => Some tx | _ => None end
  | _ => None
  end.

Definition presentable (tx : Transaction) : Prop :=
  NoDup (key_images tx) ∧ Forall (λ o, EncryptedMemo o ≠ zeroMemo) (Outputs tx).
#[local] Instance presentable_dec tx : Decision (presentable tx).
Proof. unfold presentable. apply _. Defined.

(** The wallet's outputs are on the chain, whatever its blocks. *)
Lemma toy_wallet_ok main known :
  chain_inv main known funded_chain →
  WalletSpec.wallet_ok toy_wallet ∧ WalletSpec.amounts_fit toy_wallet ∧ Forall (owned_ok toy_owns (main_ring_member main)) (Wallet.Outputs toy_wallet).
Proof.
  intros Hi. split_and!; [unfold WalletSpec.wallet_ok; vm_decide|split; [vm_decide|vm_compute; reflexivity]|].
  assert (Forall (λ o, (isCanonicalRingMemberLocked (Wallet.OneTimePubKey o) (Wallet.Commitment o) funded_chain).1 = Ok true)
    (Wallet.Outputs toy_wallet)) as Hc.
  { repeat apply Forall_cons_2; [vm_compute; reflexivity..|apply Forall_nil_2]. }
  assert (Forall (λ o, Wallet.Commitment o = commit (Wallet.Amount o) (Wallet.Blinding o) ∧ is_u64 (Wallet.Amount o) ∧
    Wallet.OneTimePrivKey o = Wallet.OneTimePubKey o ∧ length (Wallet.OneTimePubKey o) = 32%nat) (Wallet.Outputs toy_wallet)) as Ho.
  { unfold is_u64. vm_decide. }
  eapply Forall_impl; [exact (proj2 (Forall_and _ _) (conj Ho Hc))|]. intros o [(H1 & H2 & H3 & H4) H5]. split_and!; [done..|].
  destruct (isCanonicalRingMember_reads main known funded_chain (Wallet.OneTimePubKey o) (Wallet.Commitment o) Hi) as (c' & E & _).
  rewrite E in H5. by injection H5.
Qed.

(** Sending 3000 takes two rounds: 5000 and 5500 go in, 563 come back and the
    fee is 6937; sending 300000 fails. *)
Lemma transfer_pays_witness :
  (∃ tx main known, chain_inv main known funded_chain ∧ toy_tx (toy_transfer 3000).1 = Some tx ∧ Fee tx = 6937 ∧
     valid_tx (λ _, false) (main_ring_member main) tx) ∧
  (toy_transfer 300000).1 = Err (Wrapf "insufficient funds: %w" ErrInsufficientFunds) ∧
  ∀ op, Wallet.inputReservations (toy_transfer 300000).2.1 !! op = None.
Proof.
  destruct funded_chain_inv as (main & known & Hi). destruct (toy_wallet_ok main known Hi) as (H1 & H2 & H3).
  pose proof (λ amount, transfer_pays _ _ toy_blinding toy_stealth (λ k kis, Ok (toy_hash (k ++ concat kis))) (λ k, Ok (toy_hash k))
    toy_secret toy_secret_at _ toy_padding toy_owns main known funded_chain (λ _, 0) (toy_recipients amount)
    1 100 toy_wallet 3%nat toy_transfer_laws Hi H1 H2 H3) as H.
  split.
  - specialize (H 3000 ltac:(discriminate) ltac:(vm_compute; reflexivity) ltac:(unfold is_u64; vm_decide) ltac:(unfold is_u32; vm_decide)).
    fold toy_cfg (toy_transfer 3000) in H.
    assert (∀ tx, toy_tx (toy_transfer 3000).1 = Some tx → presentable tx ∧ Fee tx = 6937) as Hp.
    { assert (from_option (λ tx, bool_decide (presentable tx ∧ Fee tx = 6937)) false (toy_tx (toy_transfer 3000).1) = true) as Hd
        by (vm_compute; reflexivity).
      intros tx E. rewrite E in Hd. exact (bool_decide_eq_true_1 _ Hd). }
    assert (is_Some (toy_tx (toy_transfer 3000).1)) as [tx Etx] by vm_decide.
    specialize (Hp tx Etx). exists tx, main, known. split; [exact Hi|]. split; [exact Etx|]. split; [apply Hp|].
    generalize dependent (toy_transfer 3000). intros [[res|e|] [w' r']] H Etx; cbn [fst toy_tx] in Etx; [|discriminate|discriminate].
    destruct H as (_ & _ & _ & tx' & P). rewrite (pd_data _ _ _ _ _ _ _ _ _ _ _ _ _ _ _ P) in Etx. injection Etx as <-.
    apply P; [apply Hp|by apply Forall_true|apply Hp].
  - specialize (H 300000 ltac:(discriminate) ltac:(vm_compute; reflexivity) ltac:(unfold is_u64; vm_decide) ltac:(unfold is_u32; vm_decide)).
    fold toy_cfg (toy_transfer 300000) in H.
    assert ((toy_transfer 300000).1 = Err (Wrapf "insufficient funds: %w" ErrInsufficientFunds)) as E by (vm_compute; reflexivity).
    split; [exact E|]. generalize dependent (toy_transfer 300000). intros [[res|e|] [w' r']] H E; cbn [fst snd] in *; [discriminate| |discriminate].
    destruct H as [_ H]. intros op. apply eq_None_not_Some. intros [x Hx%H]. discriminate Hx.
Defined.
