(* ===== verification/SampleScan.v ===== *)
(** * A sample scan

    The transfer of [SampleTransfer] in a block, scanned by its recipient. *)

From S2P Require Import Prelude Bytes Crypto Instances Pow Transaction TxCodec Block ExchangeSort Consensus Hoare Reads Difficulty Memo Emission Validation Coinbase Samples Validity Balance Storage StorageFacts Commit Chain ChainOps Cache ChainInv Branches Ancestors Windows Learn Reorg ForkChoice Lawful Restart Genesis Reachable Startup CoinSelect CoinSpec RingSelect Builder Transfer BuilderSpec TransferSpec ScanSpec SampleChain SampleTransfer.
From S2P Require Wallet WalletSpec Scanner.

#[local] Existing Instance toy_crypto.
#[local] Existing Instance toy_crypto_laws.
#[local] Existing Instance mainnet.
#[local] Existing Instance toy_math.
#[local] Existing Instance toy_json.
#[local] Existing Instance toy_json_laws.
#[local] Existing Instance sample_entropy.
#[local] Existing Instance sample_sort.
#[local] Existing Instance sample_entropy_laws.
#[local] Existing Instance sample_sort_laws.

(** ** Stealth derivation *)

Lemma le_value_reduced z : le_value (le_bytes 32 (z `mod` group_order)) = z `mod` group_order.
Proof.
  rewrite le_value_bytes_small; [done|]. pose proof (Z.mod_pos_bound z group_order ltac:(done)). split; [lia|].
  etrans; [apply H|]. vm_compute. reflexivity.
Qed.

Lemma toy_point_inv k p : toy_point_of k = Ok p → p = le_bytes 32 (le_value k `mod` group_order).
Proof. unfold toy_point_of. congruence. Qed.

Lemma toy_decompress c x : decompress c = Some x → x = to_point (le_value c).
Proof. assert (decompress c = Some (to_point (le_value c))) as -> by reflexivity. congruence. Qed.

Lemma toy_compress z : compress (to_point z : point) = le_bytes 32 (z `mod` group_order).
Proof. reflexivity. Qed.

Lemma toy_p_add x y : p_add (to_point x : point) (to_point y) = to_point (x `mod` group_order + y `mod` group_order).
Proof. reflexivity. Qed.

Lemma some_inj {A} (a b : A) : Some a = Some b → a = b.
Proof. congruence. Qed.

Lemma toy_decompress_inj a b : decompress a = decompress b → le_value a `mod` group_order = le_value b `mod` group_order.
Proof.
  intros E. assert (Some (to_point (le_value a)) = Some (to_point (le_value b))) as H by exact E.
  apply some_inj in H. exact (f_equal proj1_sig H).
Qed.

Lemma ok_inj {A} (a b : A) : Ok a = Ok b → a = b.
Proof. congruence. Qed.

Lemma toy_stealth_laws :
  StealthLaws toy_secret toy_secret_at toy_point_of (λ a b, Some (toy_shared a b)) (λ a b i, Some (toy_shared_at a b i)).
Proof.
  split.
  - intros a b p q c ->%toy_point_inv ->%toy_point_inv (x & y & ->%toy_decompress & ->%toy_decompress & ->)%CommitmentAdd_Ok.
    rewrite !le_value_reduced, toy_p_add, toy_compress, !Z.mod_mod by done. unfold toy_point_of, blocknet_blinding_add, scalar_mod_order.
    by rewrite le_value_reduced, !Z.mod_mod by done.
  - intros r rG v vG s ->%toy_point_inv ->%toy_point_inv <-%ok_inj. unfold toy_shared. rewrite !le_value_reduced.
    by rewrite Zmult_mod_idemp_l, Zmult_mod_idemp_r.
  - intros r rG v vG i s ->%toy_point_inv ->%toy_point_inv <-%ok_inj. unfold toy_shared_at. rewrite !le_value_reduced, <- !Z.add_assoc.
    rewrite <- Zplus_mod_idemp_l, Zmult_mod_idemp_l, Zplus_mod_idemp_l. symmetry.
    by rewrite <- Zplus_mod_idemp_l, Zmult_mod_idemp_r, Zplus_mod_idemp_l.
  - intros rG v i s s' p p' <-%some_inj <-%some_inj ->%toy_point_inv ->%toy_point_inv E.
    apply toy_decompress_inj in E. unfold toy_shared, toy_shared_at in *. rewrite !le_value_reduced, !Z.mod_mod in E by done. by rewrite E.
Qed.

(** ** The block *)

Definition payer_tx : Transaction := default sample_tx (toy_tx (toy_transfer 3000).1).
Definition paying_block : Block := sample_block funding_block [payer_tx].

(** The recipient of [toy_recipients], with no outputs yet. *)
Definition payee : Wallet.Wallet :=
  Wallet.MkWallet (Wallet.MkStealthKeys (sample_key 11) (sample_key 11) (sample_key 12) (sample_key 12)) [] [] 0 ∅ 0 None.

Definition payee_scan : Scanner.scan :=
  Scanner.ScanBlock (Scanner.MkWalletCallbacks (λ _ _ _ _, false) (λ _ _ _, None) (λ a b, Some (toy_shared a b))
      (Some (λ a b i, Some (toy_shared_at a b i))))
    (Scanner.defaultScannerConfig (λ k, Ok (toy_hash k)) toy_point_of) (Scanner.blockToScanData paying_block) payee 0 0.

Lemma payer_tx_paid :
  ∃ canonical res, paid (chain_ring funded_chain) toy_prove toy_sign toy_blinding toy_stealth (λ k kis, Ok (toy_hash (k ++ concat kis)))
    (λ k, Ok (toy_hash k)) toy_secret toy_secret_at toy_point_of canonical 100 (toy_recipients 3000) res payer_tx ∧
    (toy_transfer 3000).1 = Ok res.
Proof.
  destruct funded_chain_inv as (main & known & Hi). destruct (toy_wallet_ok main known Hi) as (H1 & H2 & H3).
  pose proof (transfer_outcome _ _ toy_blinding toy_stealth (λ k kis, Ok (toy_hash (k ++ concat kis))) (λ k, Ok (toy_hash k)) toy_secret
    toy_secret_at _ toy_padding toy_owns main known funded_chain (λ _, 0) (toy_recipients 3000) 1 100 toy_wallet 3%nat toy_transfer_laws Hi H1 H2 H3
    ltac:(discriminate) ltac:(vm_compute; reflexivity) ltac:(unfold is_u64; vm_decide) ltac:(unfold is_u32; vm_decide)) as H.
  fold toy_cfg (toy_transfer 3000) in H. assert (is_Some (toy_tx (toy_transfer 3000).1)) as [tx Etx] by vm_decide.
  assert (payer_tx = tx) as -> by (unfold payer_tx; by rewrite Etx).
  generalize dependent (toy_transfer 3000). intros [[res|e|] [w' r']] H Etx; cbn [fst toy_tx] in Etx; [|discriminate|discriminate].
  destruct H as (_ & _ & _ & tx' & P). rewrite (pd_data _ _ _ _ _ _ _ _ _ _ _ _ _ _ _ P) in Etx. injection Etx as <-.
  exists (main_ring_member main), res. split; [exact P|done].
Qed.

(** The recipient finds the 3000 with the memo. *)
Lemma scan_recovers_witness :
  ∃ o, o ∈ Wallet.Outputs (Scanner.sc_wallet payee_scan) ∧ Wallet.Amount o = 3000 ∧ Wallet.Memo o = bytes_of_string "rent" ∧ Wallet.BlockHeight o = 3.
Proof.
  destruct payer_tx_paid as (canonical & res & P & _).
  destruct (scan_recovers (chain_ring funded_chain) toy_prove toy_sign toy_blinding toy_stealth (λ k kis, Ok (toy_hash (k ++ concat kis)))
      (λ k, Ok (toy_hash k)) _ _ _ (λ _ _ _ _, false) (λ _ _ _, None) _ _ [paying_block] paying_block payee 0 0 toy_stealth_laws)
    as (_ & _ & H).
  - split; vm_compute; reflexivity.
  - vm_decide.
  - by left.
  - apply NoDup_nil_2.
  - apply Forall_nil_2.
  - destruct (H canonical 100 (toy_recipients 3000) res payer_tx 0%nat (MkRecipient (sample_key 11) (sample_key 12) 3000 (bytes_of_string "rent")))
      as (o & Ho & _ & Ea & Em & Eh & _).
    + vm_decide.
    + right. left.
    + exact P.
    + reflexivity.
    + unfold is_u64. vm_decide.
    + reflexivity.
    + reflexivity.
    + apply not_elem_of_nil.
    + exists o. split; [exact Ho|]. split; [exact Ea|]. split; [exact Em|]. rewrite Eh. vm_compute. reflexivity.
Defined.
